(* ===== verification/_CoqProject ===== *)
-Q . S2P
Prelude.v
Texts.v
Decimal.v
FeelValue.v
Temporal.v
Timer.v
ProcessModel.v
FeelText.v
TemporalParse.v
Container.v
Crypto.v
SnapshotValue.v
Snapshot.v
SnapshotPatch.v
Migration.v
Stores.v
Leases.v
Steps.v
MigrateOne.v
Correlation.v
Runtime.v
ExecState.v
AuditSnapshot.v
Gateways.v
Timers.v
Outbound.v
Tasks.v
KeyQuery.v
MemoryStore.v
DataTasks.v
Scopes.v
Executor.v
Resume.v
StepRelation.v
Fixture.v
Passes.v
GhostWalk.v
Reachability.v
Fuel.v
Scenarios.v
ParkBridge.v
RelayResume.v
FeelLexer.v
FeelParser.v
FeelSyntax.v
FeelOps.v
FeelBuiltins.v
FeelEval.v
FeelFacade.v
FeelPlain.v
FeelLaws.v
FeelCarry.v
FeelSim.v
FeelRuns.v
SrlSyntax.v
SrlEngine.v
DmnSyntax.v
DmnTable.v
DecisionTask.v
Capacity.v
CapacityTable.v
