(* ===== verification/Prelude.v ===== *)
(** * Sutra: a verified model of the workflow engine

    Sutra runs BPMN processes.  A package is loaded into process definitions
    ([sutra-bpmn]); a message that arrives on a channel starts or resumes an instance
    ([sutra-channels]); the token executor ([sutra-executor]) walks the definition,
    evaluating FEEL expressions ([sutra-feel]) as conditions, mappings and timers,
    until it completes or waits; a waiting instance is written as a snapshot
    ([sutra-persistence]), encrypted where a variable is sensitive ([sutra-crypto]),
    in one transaction with its wait rows and outgoing messages; the engine
    ([sutra-engine]) loads it back for a relay, a due timer, a retry or a migration to
    another deployment, under a claim that keeps the other replicas out.

    The development is a shallow embedding: a pure function of the code is a function
    here, fallible code returns [result], a panic and an exhausted fuel are the faults
    [Panicked] and [OutOfFuel] of their own, stateful code passes its state, and code
    that is not in the repository is a class of operations with the laws the code
    relies on, given at least one instance.  File and function names below are those
    under [src/rust/crates/].

    ** Files

    Shared: [Prelude] (results and faults, numerals, texts as UTF-8 bytes, string
    order), [Texts] (code points, sorted rows).

    FEEL.
    - [Decimal]: [numeric.rs], DECIMAL64 arithmetic on the [bigdecimal] interface.
    - [FeelValue], [FeelText]: [ast.rs], [value.rs] and [variables.rs] of the executor:
      expressions, values, type shapes, canonical text, JSON, process variables.
    - [Temporal], [TemporalParse]: [temporal.rs].
    - [FeelLexer], [FeelParser]: [lexer.rs], [positions.rs], [error.rs], [parser.rs]:
      every token, production and error; [FeelSyntax] is the logic of the parser and
      its theorem.
    - [FeelOps], [FeelBuiltins], [FeelEval]: [evaluator.rs] and [random.rs]: comparison,
      interval relations, temporal arithmetic, every builtin, every expression form.
    - [FeelFacade]: [expressions.rs], [determinism.rs], [paths.rs]: the entry points
      with their caches.  [FeelPlain]: executable instances of the interfaces, on which
      the crate's own tests evaluate.
    - [FeelLaws], [FeelCarry], [FeelSim], [FeelRuns]: theorems on the operations and on
      whole evaluations.

    Process definitions and timers.  [Timer]: [timer.rs], [duration.rs].
    [ProcessModel]: [model.rs], [qbindings.rs], [error.rs].

    Executor.  [Runtime], [ExecState], [AuditSnapshot], [Gateways], [Timers],
    [Outbound], [Tasks], [DataTasks], [Scopes], [Executor], [Resume]: [executor.rs] by
    area, on the interfaces of [deployment.rs], [registry.rs] and their neighbours;
    [Correlation]: [audit_correlation.rs]; [KeyQuery], [MemoryStore]: [datastore.rs].
    [StepRelation] is the abstract state machine of a pass; [Passes], [GhostWalk],
    [Reachability], [Fuel] are the theorems on passes, resumes and histories;
    [Fixture] is a concrete executor, [Scenarios] its runs.

    Persistence and engine.  [Container], [Crypto], [SnapshotValue], [Snapshot],
    [SnapshotPatch]: [snapshot_container.rs], [props.rs], [sutra-crypto],
    [value.rs], [snapshot_values.rs], [snapshot.rs].  [Stores], [Steps], [Leases]:
    [stores/] and [step.rs], and the interleavings of replicas over them.
    [Migration], [MigrateOne]: [migrate.rs] and [migrate_one] of [server.rs].
    [ParkBridge], [RelayResume]: [bridge.rs] of both crates and the park and relay
    paths of [dispatch.rs].

    ** What the theorems show

    - Executor.  [run_node] with everything it calls refines the step relation; from
      that, every snapshot of every history of an instance is sound, a resume keeps
      what it does not consume, the synchronous and the stateful path agree, gateways
      fire as BPMN says, and what a pass answers does not depend on its fuel.
    - Persistence.  Values, snapshots and their patches survive the trip through the
      bytes; an instance parked by the bridge is what a relay resumes.
    - Replicas.  A delivery is committed once, a unique alias has one owner, a claim
      excludes the others and recovers, a migration moves everything or nothing.
    - FEEL.  Lexer and parser are total and account for every character; arithmetic is
      correctly rounded; the determinism check is enough for replay; kinds of results
      are known from the expression; caches do not show; interval relations are
      converse; sections and ranges are in bounds, up to the overflows stated.
    - Secrecy.  Audit snapshots do not depend on sensitive values.
    - Deviations.  Where the code does not do what it says, the theorem states what it
      does; the manifest lists them as findings.

    ** Numbers and fuel

    Machine integers are [Z] with the wrap-around of the release profile written out
    ([wrap64], [as_i32]); binary64 is [SpecFloat] for timers and an interface for the
    FEEL functions.  The executor recurses on fuel; [Fuel] shows that more fuel never
    changes an answer, and [GhostWalk] that the reconstruction walk ends within
    [2 * |flows| + 3] steps.  The walk for inclusive joins takes [|flows| + 2], the
    cycle-advance loop the number of slots passed, the lexer one more than the length of
    the text, the parser one more than the number of tokens: each is proved enough
    where it is used.  The FEEL evaluator is structural on the tree; its fuel is the
    depth of function calls and of named types, more of it never changes an outcome
    ([more_fuel_same_outcome]), and an expression without functions of its own needs
    none.  Loops over a range take their length.

    ** Not modelled

    Transports, codecs, schema compilers, secret resolvers, model providers and object
    stores are network and file I/O over third-party libraries.  The BPMN loader and
    the package loader with its lint start from XML, YAML and archives; the model
    starts from the definitions they produce.  HTTP administration, configuration,
    assembly, metrics and tracing wire the parts together.  SQL is modelled by the
    effect of each statement on its table, so row-level security, tie order of equal
    rows and database faults other than constraints are outside; the other SQL dialects
    repeat the same statements.  The command line, documentation and generators are
    tooling. *)
From Stdlib Require Import ZArith Lia Bool Ascii String.
From stdpp Require Import base list option gmap strings.

Open Scope string_scope.
Open Scope list_scope.
Open Scope Z_scope.

#[export] Set Warnings "-clear-no-such-hyp,-register-all".
#[global] Arguments String.append : simpl nomatch.

(** ** Results

    Rust's [Result<A, E>].  [mret]/[mbind] give the [?] operator stdpp's
    [x ← e; k] notation. *)

Inductive result (E A : Type) : Type :=
| Ok (a : A)
| Err (e : E).
Arguments Ok {E A} _.
Arguments Err {E A} _.

#[export] Instance result_ret {E} : MRet (result E) := λ A a, Ok a.
#[export] Instance result_bind {E} : MBind (result E) := λ A B f r,
  match r with Ok a => f a | Err e => Err e end.

Definition map_err {E F A} (f : E → F) (r : result E A) : result F A :=
  match r with Ok a => Ok a | Err e => Err (f e) end.

Definition is_ok {E A} (r : result E A) : bool :=
  match r with Ok _ => true | Err _ => false end.

Definition ok {E A} (r : result E A) : option A :=
  match r with Ok a => Some a | Err _ => None end.

Definition ok_or {E A} (e : E) (o : option A) : result E A :=
  match o with Some a => Ok a | None => Err e end.

Definition is_some {A} (o : option A) : bool :=
  match o with Some _ => true | None => false end.

(** What a call can end in besides its value: the error it returns, a Rust panic,
    or (for a loop run on fuel) no end within the fuel. *)
Inductive fault (E : Type) : Type :=
| Rejected (e : E)
| Panicked
| OutOfFuel.
Arguments Rejected {E} _.
Arguments Panicked {E}.
Arguments OutOfFuel {E}.

Definition map_fault {E F A} (f : E → F) (r : result (fault E) A) : result (fault F) A :=
  match r with
  | Ok a => Ok a
  | Err (Rejected e) => Err (Rejected (f e))
  | Err Panicked => Err Panicked
  | Err OutOfFuel => Err OutOfFuel
  end.

Lemma map_fault_ok {E F A} (f : E → F) (r : result (fault E) A) a : map_fault f r = Ok a → r = Ok a.
Proof. destruct r as [x|[| |]]; simpl; congruence. Qed.

Lemma result_bind_ok {E A B} (r : result E A) (f : A → result E B) b :
  (r ≫= f) = Ok b ↔ ∃ a, r = Ok a ∧ f a = Ok b.
Proof.
  destruct r; simpl; split; intros H; try discriminate; [eauto|..];
    destruct H as (? & ? & ?); congruence.
Qed.

Lemma result_bind_err {E A B} (r : result E A) (f : A → result E B) e :
  (r ≫= f) = Err e ↔ r = Err e ∨ ∃ a, r = Ok a ∧ f a = Err e.
Proof.
  destruct r; simpl; split; [eauto|intros [|(? & ? & ?)]; congruence|intros; left; congruence|].
  intros [|(? & ? & ?)]; congruence.
Qed.

(** ** Text

    A Rust [String] is its UTF-8 bytes; the operations below look at ASCII
    characters only, which is what the modelled code tests for.  [trim] removes
    ASCII white space. *)

Definition ascii_Z (c : ascii) : Z := Z.of_nat (nat_of_ascii c).

Definition is_ascii_digit (c : ascii) : bool :=
  (48 <=? ascii_Z c) && (ascii_Z c <=? 57).

Definition is_ascii_uppercase (c : ascii) : bool :=
  (65 <=? ascii_Z c) && (ascii_Z c <=? 90).

Definition is_ascii_lowercase (c : ascii) : bool :=
  (97 <=? ascii_Z c) && (ascii_Z c <=? 122).

Definition is_ascii_alphabetic (c : ascii) : bool :=
  is_ascii_uppercase c || is_ascii_lowercase c.

Definition to_ascii_uppercase (c : ascii) : ascii :=
  if is_ascii_lowercase c then ascii_of_nat (nat_of_ascii c - 32) else c.

Definition is_whitespace (c : ascii) : bool :=
  (ascii_Z c =? 32) || ((9 <=? ascii_Z c) && (ascii_Z c <=? 13)).

Fixpoint trim_start (s : string) : string :=
  match s with
  | String c r => if is_whitespace c then trim_start r else s
  | EmptyString => EmptyString
  end.

Fixpoint trim_end (s : string) : string :=
  match s with
  | EmptyString => EmptyString
  | String c r =>
      match trim_end r with
      | EmptyString => if is_whitespace c then EmptyString else String c EmptyString
      | r' => String c r'
      end
  end.

Definition trim (s : string) : string := trim_end (trim_start s).

Definition str_is_empty (s : string) : bool :=
  match s with EmptyString => true | _ => false end.

Fixpoint starts_with (p s : string) : bool :=
  match p, s with
  | EmptyString, _ => true
  | String a p', String b s' => Ascii.eqb a b && starts_with p' s'
  | _, _ => false
  end.

Fixpoint strip_prefix (p s : string) : option string :=
  match p, s with
  | EmptyString, _ => Some s
  | String a p', String b s' => if Ascii.eqb a b then strip_prefix p' s' else None
  | _, _ => None
  end.

Fixpoint string_all (f : ascii → bool) (s : string) : bool :=
  match s with EmptyString => true | String c r => f c && string_all f r end.

Fixpoint string_any (f : ascii → bool) (s : string) : bool :=
  match s with EmptyString => false | String c r => f c || string_any f r end.

(** [s.split_once(c)]: the text before and after the first [c]. *)
Fixpoint split_once (c : ascii) (s : string) : option (string * string) :=
  match s with
  | EmptyString => None
  | String d r =>
      if Ascii.eqb c d then Some (EmptyString, r)
      else match split_once c r with
           | Some (a, b) => Some (String d a, b)
           | None => None
           end
  end.

(** [s.split(c)]: never empty. *)
Fixpoint split_char (c : ascii) (s : string) : list string :=
  match s with
  | EmptyString => [EmptyString]
  | String d r =>
      if Ascii.eqb c d then EmptyString :: split_char c r
      else match split_char c r with
           | p :: ps => String d p :: ps
           | [] => [String d EmptyString]
           end
  end.

(** ** Decimal numerals *)

Definition digit_char (d : Z) : ascii := ascii_of_nat (Z.to_nat (48 + d)).
Definition digit_val (c : ascii) : Z := ascii_Z c - 48.

Fixpoint dec_digits (fuel : nat) (n : Z) (acc : string) : string :=
  match fuel with
  | O => acc
  | S f =>
      let acc' := String (digit_char (n mod 10)) acc in
      if n / 10 =? 0 then acc' else dec_digits f (n / 10) acc'
  end.

(** The decimal numeral of a non-negative integer ([u.to_string()]); [log2 n]
    bounds the number of digits, so the fuel never runs out. *)
Definition dec_string (n : Z) : string := dec_digits (S (Z.to_nat (Z.log2 n))) n "".

#[global] Arguments dec_string : simpl never.

Fixpoint dec_value (acc : Z) (s : string) : Z :=
  match s with
  | EmptyString => acc
  | String c r => dec_value (acc * 10 + digit_val c) r
  end.

(** [str::parse] at an unsigned type of maximum [max]: an optional [+], then at
    least one digit, and no overflow. *)
Definition parse_unsigned (max : Z) (s : string) : option Z :=
  let body := match s with String c r => if Ascii.eqb c "+" then r else s | _ => s end in
  if str_is_empty body then None
  else if string_all is_ascii_digit body then
    let v := dec_value 0 body in if v <=? max then Some v else None
  else None.

Definition u32_max : Z := 4294967295.
Definition i32_max : Z := 2147483647.
Definition i64_max : Z := 9223372036854775807.
Definition u64_max : Z := 18446744073709551615.

(** [x as i32]: the low 32 bits as a two's complement number. *)
Definition as_i32 (x : Z) : Z := (x + 2147483648) mod 4294967296 - 2147483648.

(** ** Tactics and hints *)

Create HintDb sutra.
Create Rewrite HintDb sutra.

(** Case analysis on every boolean comparison of the goal and the context. *)
Ltac zbool :=
  repeat match goal with
  | H : (_ && _) = true |- _ => apply andb_true_iff in H; destruct H
  | H : (_ =? _) = true |- _ => apply Z.eqb_eq in H
  | H : (_ =? _) = false |- _ => apply Z.eqb_neq in H
  | H : (_ <=? _) = true |- _ => apply Z.leb_le in H
  | H : (_ <=? _) = false |- _ => apply Z.leb_gt in H
  | H : (_ <? _) = true |- _ => apply Z.ltb_lt in H
  | H : (_ <? _) = false |- _ => apply Z.ltb_ge in H
  end.

(** Split the first [if] on a boolean. *)
Ltac case_if :=
  match goal with
  | |- context [if ?b then _ else _] => destruct b eqn:?
  | H : context [if ?b then _ else _] |- _ => destruct b eqn:?
  end; zbool.

(** ** Lemmas on numerals *)

Lemma ascii_Z_range c : 0 <= ascii_Z c < 256.
Proof. unfold ascii_Z. pose proof (nat_ascii_bounded c). lia. Qed.

Lemma digit_char_Z d : 0 <= d < 10 → ascii_Z (digit_char d) = 48 + d.
Proof. intros. unfold ascii_Z, digit_char. rewrite nat_ascii_embedding; lia. Qed.

Lemma digit_char_is_digit d : 0 <= d < 10 → is_ascii_digit (digit_char d) = true.
Proof. intros. unfold is_ascii_digit. rewrite digit_char_Z by lia. lia. Qed.

Lemma digit_val_char d : 0 <= d < 10 → digit_val (digit_char d) = d.
Proof. intros. unfold digit_val. rewrite digit_char_Z by lia. lia. Qed.

Lemma string_all_app f s t : string_all f (s +:+ t) = string_all f s && string_all f t.
Proof. induction s as [|c s IH]; simpl; [done|]. by rewrite IH, andb_assoc. Qed.

Lemma string_length_app s t : String.length (s +:+ t) = (String.length s + String.length t)%nat.
Proof. induction s as [|c s IH]; simpl; [done|]. by rewrite IH. Qed.

Lemma string_length_snoc s c :
  Z.of_nat (String.length (s +:+ String c "")) = Z.of_nat (String.length s) + 1.
Proof. rewrite string_length_app. simpl. lia. Qed.

Lemma string_app_assoc (s t u : string) : (s +:+ t) +:+ u = s +:+ (t +:+ u).
Proof. induction s as [|c s IH]; simpl; [done|]. by rewrite IH. Qed.

Lemma string_app_nil_r (s : string) : s +:+ "" = s.
Proof. induction s as [|c s IH]; simpl; [done|]. by rewrite IH. Qed.

Lemma dec_value_app acc s t : dec_value acc (s +:+ t) = dec_value (dec_value acc s) t.
Proof. revert acc. induction s; intros; simpl; [done|]. apply IHs. Qed.

(** The digits [dec_digits] puts in front of its accumulator. *)
Record numeral_of (n : Z) (ds : string) : Prop := {
  numeral_digits : string_all is_ascii_digit ds = true;
  numeral_value : dec_value 0 ds = n;
  numeral_upper : n < 10 ^ Z.of_nat (String.length ds);
  numeral_lower : 0 < n → 10 ^ (Z.of_nat (String.length ds) - 1) <= n;
  numeral_nonempty : (0 < String.length ds)%nat
}.

Lemma numeral_single n : 0 <= n < 10 → numeral_of n (String (digit_char n) "").
Proof.
  intros. split; simpl; [|rewrite digit_val_char; lia|lia|lia|lia].
  by rewrite digit_char_is_digit.
Qed.

Lemma numeral_snoc n ds :
  0 <= n → 0 < n / 10 → numeral_of (n / 10) ds →
  numeral_of n (ds +:+ String (digit_char (n mod 10)) "").
Proof.
  intros Hn Hp [Hd Hv Hu Hl Hne].
  pose proof (Z.mod_pos_bound n 10 ltac:(lia)).
  pose proof (Z.div_mod n 10 ltac:(lia)).
  split.
  - rewrite string_all_app, Hd. simpl. by rewrite digit_char_is_digit.
  - rewrite dec_value_app, Hv. simpl. rewrite digit_val_char by lia. lia.
  - rewrite string_length_snoc, Z.pow_add_r by lia. lia.
  - intros _. specialize (Hl Hp). rewrite string_length_snoc.
    replace (Z.of_nat (String.length ds) + 1 - 1)
      with (Z.succ (Z.of_nat (String.length ds) - 1)) by lia.
    rewrite Z.pow_succ_r by lia. lia.
  - rewrite string_length_app. simpl. lia.
Qed.

Lemma log2_div10 n : 0 < n / 10 → Z.log2 (n / 10) < Z.log2 n.
Proof.
  intros Hp. pose proof (Z.div_mod n 10 ltac:(lia)).
  pose proof (Z.mod_pos_bound n 10 ltac:(lia)).
  assert (n / 10 <= n / 2) by (apply Z.div_le_compat_l; lia).
  apply Z.le_lt_trans with (Z.log2 (n / 2)); [by apply Z.log2_le_mono|].
  rewrite <- Z.div2_div, Z.div2_spec, Z.log2_shiftr by lia.
  assert (1 <= Z.log2 n); [|lia].
  apply Z.log2_le_pow2; simpl; lia.
Qed.

Lemma dec_digits_spec fuel n acc :
  0 <= n → Z.log2 n < Z.of_nat fuel →
  ∃ ds, dec_digits fuel n acc = ds +:+ acc ∧ numeral_of n ds.
Proof.
  revert n acc. induction fuel as [|f IH]; intros n acc Hn Hf.
  { pose proof (Z.log2_nonneg n). lia. }
  pose proof (Z.mod_pos_bound n 10 ltac:(lia)).
  pose proof (Z.div_mod n 10 ltac:(lia)).
  simpl. case_if.
  - exists (String (digit_char (n mod 10)) ""). split; [done|].
    replace (n mod 10) with n by lia. apply numeral_single; lia.
  - assert (Hp : 0 < n / 10) by lia. pose proof (log2_div10 n Hp).
    destruct (IH (n / 10) (String (digit_char (n mod 10)) acc)) as (ds & Heq & Hds); [lia|lia|].
    exists (ds +:+ String (digit_char (n mod 10)) ""). split.
    + rewrite Heq, string_app_assoc. done.
    + by apply numeral_snoc.
Qed.

Lemma dec_string_numeral n : 0 <= n → numeral_of n (dec_string n).
Proof.
  intros Hn. pose proof (Z.log2_nonneg n).
  destruct (dec_digits_spec (S (Z.to_nat (Z.log2 n))) n "") as (ds & Heq & Hds); [done|lia|].
  unfold dec_string. by rewrite Heq, string_app_nil_r.
Qed.

Lemma is_ascii_digit_not_plus c : is_ascii_digit c = true → Ascii.eqb c "+" = false.
Proof. intros H. apply Ascii.eqb_neq. intros ->. discriminate. Qed.

(** Printing a number and parsing it back. *)
Lemma parse_unsigned_dec_string max n :
  0 <= n <= max → parse_unsigned max (dec_string n) = Some n.
Proof.
  intros Hn. destruct (dec_string_numeral n) as [Hd Hv _ _ Hne]; [lia|].
  unfold parse_unsigned. destruct (dec_string n) as [|c r] eqn:E; [simpl in Hne; lia|].
  assert (Hc := Hd). simpl in Hc. apply andb_true_iff in Hc as [Hc _].
  rewrite (is_ascii_digit_not_plus c Hc). simpl str_is_empty. cbv iota.
  rewrite Hd, Hv. case_if; [done|lia].
Qed.
#[export] Hint Resolve dec_string_numeral parse_unsigned_dec_string : sutra.

Lemma string_compare_refl s : String.compare s s = Eq.
Proof.
  induction s as [|c s IH]; [done|]. simpl. unfold Ascii.compare. by rewrite N.compare_refl.
Qed.

(** ** Lemmas on splitting text *)

Definition no_char (c : ascii) (s : string) : bool := string_all (λ d, negb (Ascii.eqb c d)) s.

Lemma split_once_app c a b : no_char c a = true → split_once c (a +:+ String c b) = Some (a, b).
Proof.
  unfold no_char. induction a as [|d a IH]; simpl; intros H.
  - by rewrite Ascii.eqb_refl.
  - apply andb_true_iff in H as [Hd Ha]. apply negb_true_iff in Hd. by rewrite Hd, IH.
Qed.

Lemma split_once_none c a : no_char c a = true → split_once c a = None.
Proof.
  unfold no_char. induction a as [|d a IH]; simpl; intros H; [done|].
  apply andb_true_iff in H as [Hd Ha]. apply negb_true_iff in Hd. by rewrite Hd, IH.
Qed.

Lemma split_char_none c a : no_char c a = true → split_char c a = [a].
Proof.
  unfold no_char. induction a as [|d a IH]; simpl; intros H; [done|].
  apply andb_true_iff in H as [Hd Ha]. apply negb_true_iff in Hd. by rewrite Hd, IH.
Qed.

Lemma no_char_digits c s : is_ascii_digit c = false → string_all is_ascii_digit s = true → no_char c s = true.
Proof.
  intros Hc. unfold no_char. induction s as [|d s IH]; simpl; intros H; [done|].
  apply andb_true_iff in H as [Hd Ha]. rewrite IH, andb_true_r by done.
  apply negb_true_iff, Ascii.eqb_neq. intros ->. congruence.
Qed.

Lemma no_char_app c a b : no_char c (a +:+ b) = no_char c a && no_char c b.
Proof. apply string_all_app. Qed.

Lemma str_is_empty_length s : (0 < String.length s)%nat → str_is_empty s = false.
Proof. destruct s; simpl; [lia|done]. Qed.

Lemma split_char_parts c s : Forall (λ p, no_char c p = true) (split_char c s).
Proof.
  induction s as [|d s IH]; simpl; [by repeat constructor|].
  destruct (Ascii.eqb c d) eqn:E; [by constructor|].
  destruct (split_char c s) as [|p ps]; inversion IH; subst; repeat constructor; try done;
    unfold no_char; simpl; rewrite E; done.
Qed.

Lemma split_char_app c a b :
  no_char c a = true → split_char c (a +:+ String c b) = a :: split_char c b.
Proof.
  unfold no_char. induction a as [|d a IH]; simpl; intros H.
  - by rewrite Ascii.eqb_refl.
  - apply andb_true_iff in H as [Hd Ha]. apply negb_true_iff in Hd. by rewrite Hd, IH.
Qed.

(** ** Lemmas on trimming *)

Lemma trim_start_app_ws s : ∃ p, s = p +:+ trim_start s.
Proof.
  induction s as [|c s [p IH]]; simpl; [by exists ""|].
  case_if; [|by exists ""]. exists (String c p). simpl. by rewrite <- IH.
Qed.

Lemma trim_end_app_ws s : ∃ p, s = trim_end s +:+ p.
Proof.
  induction s as [|c s [p IH]]; simpl; [by exists ""|].
  destruct (trim_end s) as [|d r] eqn:E.
  - case_if; [by exists (String c s)|]. exists s. done.
  - exists p. by rewrite IH at 1.
Qed.

Lemma no_char_trim c s : no_char c s = true → no_char c (trim s) = true.
Proof.
  intros H. destruct (trim_start_app_ws s) as [p Hp]. destruct (trim_end_app_ws (trim_start s)) as [q Hq].
  rewrite Hp, no_char_app in H. apply andb_true_iff in H as [_ H].
  rewrite Hq, no_char_app in H. by apply andb_true_iff in H as [? _].
Qed.

Lemma trim_end_idemp s : trim_end (trim_end s) = trim_end s.
Proof.
  induction s as [|c s IH]; [done|]. simpl. destruct (trim_end s) as [|d r] eqn:E.
  - case_if; [done|]. simpl. by case_if.
  - simpl in *. rewrite IH. done.
Qed.

Lemma trim_start_trim_end s : trim_start s = s → trim_start (trim_end s) = trim_end s.
Proof.
  destruct s as [|c s]; [done|]. simpl. case_if.
  - intros E. exfalso. destruct (trim_start_app_ws s) as [p Hp].
    apply (f_equal String.length) in E, Hp. rewrite string_length_app in Hp. simpl in E. lia.
  - intros _. destruct (trim_end s); simpl; by case_if.
Qed.

Lemma trim_start_idemp s : trim_start (trim_start s) = trim_start s.
Proof. induction s as [|c s IH]; [done|]. simpl. case_if; [done|]. simpl. by case_if. Qed.

Lemma trim_idemp s : trim (trim s) = trim s.
Proof.
  unfold trim. rewrite (trim_start_trim_end (trim_start s)) by apply trim_start_idemp.
  apply trim_end_idemp.
Qed.

Lemma trim_end_app a b : trim_end b = b → b ≠ "" → trim_end (a +:+ b) = a +:+ b.
Proof.
  intros Hb Hne. induction a as [|c a IH]; [done|]. simpl. rewrite IH.
  destruct (a +:+ b) eqn:E; [|done]. destruct a; [done|]. discriminate.
Qed.

(** ** Lemmas on lists *)

Lemma find_unique_key {A} (key : A → string) (l : list A) x :
  NoDup (key <$> l) → x ∈ l → List.find (λ y, String.eqb (key y) (key x)) l = Some x.
Proof.
  induction l as [|y l IH]; intros Hnd Hx; [by apply elem_of_nil in Hx|].
  apply NoDup_cons in Hnd as [Hy Hnd]. simpl. apply elem_of_cons in Hx as [->|Hx].
  - by rewrite String.eqb_refl.
  - destruct (String.eqb_spec (key y) (key x)) as [E|]; [|by apply IH].
    exfalso. apply Hy. rewrite E. by apply list_elem_of_fmap_2.
Qed.
