(* ===== verification/Texts.v ===== *)
(** * Text: UTF-8 and the order of keys

    A text is its UTF-8 bytes, so [String.compare] is the bytewise order of Rust's
    strings; [chars] and [encode] go between bytes and code points, and [utf8_valid]
    is what [String::from_utf8] accepts.  [sort_rows] sorts rows by key, and
    [btree_list] is the order in which a [BTreeMap] is read. *)
From Stdlib Require Import ZArith Lia Bool Ascii String.
From stdpp Require Import base list option gmap strings sorting.
From S2P Require Import Prelude.

Open Scope string_scope.
Open Scope list_scope.
Open Scope Z_scope.

Definition DQUOTE : ascii := ascii_of_nat 34.

(** A double-quoted text. *)
Definition dq (s : string) : string := String DQUOTE s +:+ String DQUOTE "".

(** ** UTF-8 *)

Definition byte (b : Z) : ascii := ascii_of_nat (Z.to_nat b).

Definition encode_char (c : Z) : list Z :=
  if c <? 128 then [c]
  else if c <? 2048 then [192 + c / 64; 128 + c mod 64]
  else if c <? 65536 then [224 + c / 4096; 128 + c / 64 mod 64; 128 + c mod 64]
  else [240 + c / 262144; 128 + c / 4096 mod 64; 128 + c / 64 mod 64; 128 + c mod 64].

Definition of_bytes (bs : list Z) : string := foldr (λ b s, String (byte b) s) "" bs.
Definition to_bytes (s : string) : list Z := map ascii_Z (list_ascii_of_string s).

Definition encode (cs : list Z) : string := of_bytes (concat (map encode_char cs)).

(** One byte more of the characters read so far, the last one first. *)
Definition decode_byte (acc : list Z) (b : Z) : list Z :=
  if b <? 128 then b :: acc
  else if b <? 192 then match acc with c :: acc => c * 64 + (b - 128) :: acc | [] => [] end
  else if b <? 224 then b - 192 :: acc
  else if b <? 240 then b - 224 :: acc
  else b - 240 :: acc.

(** [s.chars()] on well-formed bytes. *)
Definition chars (s : string) : list Z := rev (fold_left decode_byte (to_bytes s) []).

Definition is_surrogate (c : Z) : bool := (55296 <=? c) && (c <=? 57343).

(** [char::from_u32]. *)
Definition is_scalar (c : Z) : bool := (0 <=? c) && (c <=? 1114111) && negb (is_surrogate c).

(** [String::from_utf8]: well-formed UTF-8 (no overlong form, no surrogate, nothing
    above U+10FFFF). *)
Definition between (lo hi : Z) (c : ascii) : bool := (lo <=? ascii_Z c) && (ascii_Z c <=? hi).

Fixpoint utf8_valid (s : string) : bool :=
  match s with
  | EmptyString => true
  | String a r =>
      if between 0 127 a then utf8_valid r
      else match r with
      | EmptyString => false
      | String b r =>
          if between 194 223 a then between 128 191 b && utf8_valid r
          else match r with
          | EmptyString => false
          | String c r =>
              if between 224 239 a then
                between (if ascii_Z a =? 224 then 160 else 128) (if ascii_Z a =? 237 then 159 else 191) b
                && between 128 191 c && utf8_valid r
              else match r with
              | EmptyString => false
              | String d r =>
                  between 240 244 a
                  && between (if ascii_Z a =? 240 then 144 else 128) (if ascii_Z a =? 244 then 143 else 191) b
                  && between 128 191 c && between 128 191 d && utf8_valid r
              end
          end
      end
  end.

(** ** The order of texts *)

Definition str_ltb (a b : string) : bool := match String.compare a b with Lt => true | _ => false end.
Definition str_leb (a b : string) : bool := match String.compare a b with Gt => false | _ => true end.

(** [sort_by] key: stable insertion. *)
Fixpoint insert_row {A} (r : string * A) (l : list (string * A)) : list (string * A) :=
  match l with
  | [] => [r]
  | x :: l' => if str_leb r.1 x.1 then r :: l else x :: insert_row r l'
  end.
Definition sort_rows {A} (l : list (string * A)) : list (string * A) := foldr insert_row [] l.

(** [sort_unstable] of strings. *)
Fixpoint insert_text (s : string) (l : list string) : list string :=
  match l with
  | [] => [s]
  | t :: l' => if String.leb s t then s :: l else t :: insert_text s l'
  end.
Definition sort_texts (l : list string) : list string := foldr insert_text [] l.

(** [Vec::dedup]. *)
Fixpoint dedup (l : list string) : list string :=
  match l with
  | x :: ((y :: _) as r) => if String.eqb x y then dedup r else x :: dedup r
  | _ => l
  end.

(** ** Lemmas on UTF-8 *)

Definition is_byte (b : Z) : Prop := 0 <= b < 256.

Lemma byte_Z b : is_byte b → ascii_Z (byte b) = b.
Proof. intros [Hl Hu]. unfold ascii_Z, byte. rewrite nat_ascii_embedding; lia. Qed.

Lemma ascii_compare_Z c d : Ascii.compare c d = (ascii_Z c ?= ascii_Z d).
Proof.
  unfold Ascii.compare, ascii_Z, nat_of_ascii. rewrite N2Nat.inj_compare, Nat2Z.inj_compare. done.
Qed.

Lemma bytes_of_bytes a : Forall is_byte a → to_bytes (of_bytes a) = a.
Proof.
  unfold to_bytes. induction 1 as [|x a Hx Ha IH]; [done|]. simpl. rewrite byte_Z by done. by f_equal.
Qed.

Definition scalar (c : Z) : Prop := is_scalar c = true.

Lemma scalar_range c : scalar c → 0 <= c <= 1114111 ∧ (c < 55296 ∨ 57343 < c).
Proof. unfold scalar, is_scalar, is_surrogate. lia. Qed.

(** The quotients and remainders of a code point, as linear facts. *)
Ltac char_arith c :=
  pose proof (Z.div_mod c 64 ltac:(lia)); pose proof (Z.mod_pos_bound c 64 ltac:(lia));
  pose proof (Z.div_mod (c / 64) 64 ltac:(lia)); pose proof (Z.mod_pos_bound (c / 64) 64 ltac:(lia));
  pose proof (Z.div_mod (c / 4096) 64 ltac:(lia)); pose proof (Z.mod_pos_bound (c / 4096) 64 ltac:(lia));
  assert (c / 64 / 64 = c / 4096) by (rewrite Z.div_div by lia; done);
  assert (c / 4096 / 64 = c / 262144) by (rewrite Z.div_div by lia; done).

Lemma encode_char_bytes c : scalar c → Forall is_byte (encode_char c).
Proof.
  intros Hc%scalar_range. unfold encode_char, is_byte. char_arith c.
  repeat case_match; zbool; repeat constructor; lia.
Qed.

Lemma encode_bytes cs : Forall scalar cs → Forall is_byte (concat (map encode_char cs)).
Proof.
  induction 1 as [|c cs Hc Hcs IH]; [by constructor|]. simpl.
  apply Forall_app. split; [by apply encode_char_bytes|done].
Qed.

Lemma decode_encode_char c acc : scalar c → fold_left decode_byte (encode_char c) acc = c :: acc.
Proof.
  intros Hc%scalar_range. unfold encode_char. char_arith c.
  repeat case_if; simpl; unfold decode_byte; repeat (case_if; try lia); f_equal; lia.
Qed.

Lemma chars_encode cs : Forall scalar cs → chars (encode cs) = cs.
Proof.
  intros Hcs. unfold chars, encode. rewrite bytes_of_bytes by by apply encode_bytes.
  assert (∀ acc, fold_left decode_byte (concat (map encode_char cs)) acc = rev cs ++ acc) as ->.
  - induction Hcs as [|c cs Hc Hcs IH]; intros acc; [done|]. simpl.
    rewrite fold_left_app, decode_encode_char, IH by done. by rewrite <- app_assoc.
  - by rewrite app_nil_r, rev_involutive.
Qed.

(** ** Lemmas on the order *)

Definition key_lt {A} (r r' : string * A) : Prop := String.compare r.1 r'.1 = Lt.

Lemma string_compare_trans a b c : String.compare a b = Lt → String.compare b c = Lt → String.compare a c = Lt.
Proof.
  revert b c. induction a as [|x a IH]; intros [|y b] [|z c]; try done. simpl. rewrite !ascii_compare_Z.
  destruct (Z.compare_spec (ascii_Z x) (ascii_Z y)) as [->|Hxy|]; [|intros _|done].
  - destruct (ascii_Z y ?= ascii_Z z); [apply IH|done|done].
  - destruct (Z.compare_spec (ascii_Z y) (ascii_Z z)) as [<-|Hyz|]; [intros _|intros _|done].
    + by apply Z.compare_lt_iff in Hxy as ->.
    + assert (ascii_Z x < ascii_Z z) as ->%Z.compare_lt_iff by lia. done.
Qed.

#[export] Instance key_lt_trans {A} : Transitive (@key_lt A).
Proof. intros r s t. unfold key_lt. apply string_compare_trans. Qed.

Lemma str_leb_spec a b : if str_leb a b then a = b ∨ String.compare a b = Lt else String.compare b a = Lt.
Proof.
  unfold str_leb. destruct (String.compare a b) eqn:E; [left; by apply String.compare_eq_iff|by right|].
  rewrite String.compare_antisym, E. done.
Qed.

Lemma str_ltb_lt a b : str_ltb a b = true ↔ String.compare a b = Lt.
Proof. unfold str_ltb. by destruct (String.compare a b). Qed.

Lemma insert_row_perm {A} (r : string * A) l : insert_row r l ≡ₚ r :: l.
Proof. induction l as [|x l IH]; [done|]. simpl. case_match; [done|]. rewrite IH. constructor. Qed.

Lemma sort_rows_perm {A} (l : list (string * A)) : sort_rows l ≡ₚ l.
Proof. induction l as [|x l IH]; [done|]. simpl. by rewrite insert_row_perm, IH. Qed.

Lemma insert_row_sorted {A} (r : string * A) l :
  r.1 ∉ map fst l → StronglySorted key_lt l → StronglySorted key_lt (insert_row r l).
Proof.
  intros Hr Hl. induction Hl as [|x l Hl IH Hx]; simpl; [by repeat constructor|].
  simpl in Hr. apply not_elem_of_cons in Hr as [Hne Hr].
  pose proof (str_leb_spec r.1 x.1) as Hc. destruct (str_leb r.1 x.1).
  - destruct Hc as [?|Hc]; [done|]. constructor; [by constructor|]. constructor; [done|].
    eapply Forall_impl; [exact Hx|]. intros y. by apply (key_lt_trans r x y).
  - constructor; [by apply IH|]. rewrite insert_row_perm. by constructor.
Qed.

Lemma sort_rows_sorted {A} (l : list (string * A)) : NoDup (map fst l) → StronglySorted key_lt (sort_rows l).
Proof.
  induction l as [|x l IH]; simpl; [constructor|]. intros [Hx Hl]%NoDup_cons.
  apply insert_row_sorted; [|by apply IH]. by rewrite sort_rows_perm.
Qed.

(** Rows in key order are determined by their set. *)
Lemma sorted_rows_unique {A} (l1 l2 : list (string * A)) :
  StronglySorted key_lt l1 → StronglySorted key_lt l2 → l1 ≡ₚ l2 → l1 = l2.
Proof.
  intros H1 H2 Hp. apply (StronglySorted_unique_strong key_lt); [|done..].
  intros x y _ _ Hxy Hyx. exfalso. pose proof (string_compare_trans _ _ _ Hxy Hyx) as Hr.
  by rewrite string_compare_refl in Hr.
Qed.

(** ** Maps

    A [BTreeMap] is a finite map; [btree_list] is what its iterator yields, and
    [map_of] collects pairs into a map, the last one of a key winning. *)

Definition btree_list {A} (m : gmap string A) : list (string * A) := sort_rows (map_to_list m).

Definition map_of {A} (l : list (string * A)) : gmap string A :=
  fold_left (λ m e, <[e.1 := e.2]> m) l ∅.

Lemma btree_list_perm {A} (m : gmap string A) : btree_list m ≡ₚ map_to_list m.
Proof. apply sort_rows_perm. Qed.

Lemma btree_list_sorted {A} (m : gmap string A) : StronglySorted key_lt (btree_list m).
Proof. apply sort_rows_sorted. apply NoDup_fst_map_to_list. Qed.

Lemma btree_list_nodup {A} (m : gmap string A) : NoDup (btree_list m).*1.
Proof. rewrite btree_list_perm. apply NoDup_fst_map_to_list. Qed.

Lemma elem_of_btree_list {A} (m : gmap string A) k x : (k, x) ∈ btree_list m ↔ m !! k = Some x.
Proof. rewrite btree_list_perm. apply elem_of_map_to_list. Qed.

Lemma map_of_onto {A} (l : list (string * A)) (m : gmap string A) :
  fold_left (λ m e, <[e.1 := e.2]> m) l m = map_of l ∪ m.
Proof.
  unfold map_of. revert m. induction l as [|[k x] l IH]; intros m; simpl; [by rewrite (left_id_L ∅ (∪))|].
  rewrite IH, (IH (<[k:=x]> ∅)), <-(assoc_L (∪)). f_equal. by rewrite insert_empty, insert_union_singleton_l.
Qed.

Lemma map_of_cons {A} k (x : A) l : map_of ((k, x) :: l) = map_of l ∪ {[k := x]}.
Proof. unfold map_of at 1. simpl. by rewrite map_of_onto, insert_empty. Qed.

Lemma map_of_app {A} (l1 l2 : list (string * A)) : map_of (l1 ++ l2) = map_of l2 ∪ map_of l1.
Proof. unfold map_of at 1. by rewrite fold_left_app, map_of_onto. Qed.

Lemma map_of_nodup {A} (l : list (string * A)) : NoDup l.*1 → map_of l = list_to_map l.
Proof.
  induction l as [|[k x] l IH]; [done|]. simpl. intros [Hk Hl]%NoDup_cons.
  rewrite map_of_cons, IH by done. rewrite insert_union_singleton_l. apply map_union_comm.
  apply map_disjoint_singleton_r. by apply not_elem_of_list_to_map_1.
Qed.

Lemma map_of_btree_list {A} (m : gmap string A) : map_of (btree_list m) = m.
Proof.
  rewrite map_of_nodup by apply btree_list_nodup.
  rewrite (list_to_map_proper _ (map_to_list m)); [apply list_to_map_to_list|apply btree_list_nodup|].
  apply btree_list_perm.
Qed.

Lemma btree_list_map_of {A} (l : list (string * A)) : StronglySorted key_lt l → btree_list (map_of l) = l.
Proof.
  intros Hs. assert (Hnd : NoDup l.*1).
  { induction Hs as [|[k x] l Hs IH Hx]; [constructor|]. simpl. constructor; [|done].
    intros ([k' y] & -> & Hy)%list_elem_of_fmap. rewrite Forall_forall in Hx. specialize (Hx _ Hy).
    unfold key_lt in Hx. simpl in Hx. by rewrite string_compare_refl in Hx. }
  apply sorted_rows_unique; [apply btree_list_sorted|done|].
  rewrite btree_list_perm, map_of_nodup by done. by apply map_to_list_to_map.
Qed.

(** ** Keys with a prefix *)

Lemma strip_prefix_app p s : strip_prefix p (p +:+ s) = Some s.
Proof. induction p as [|c p IH]; [done|]. simpl. by rewrite Ascii.eqb_refl. Qed.

Lemma strip_prefix_some p k s : strip_prefix p k = Some s → k = p +:+ s.
Proof.
  revert k. induction p as [|c p IH]; intros [|d k]; simpl; try (by intros [=]).
  destruct (Ascii.eqb_spec c d) as [->|]; [|done]. intros H. f_equal. by apply IH.
Qed.

Lemma prefix_app_inj p s t : p +:+ s = p +:+ t → s = t.
Proof. intros H. pose proof (strip_prefix_app p s) as Hs. rewrite H, strip_prefix_app in Hs. congruence. Qed.

(** The entries [p ++ name] of a map, one per name of [m]. *)
Definition prefixed {A B} (p : string) (f : A → B) (m : gmap string A) : list (string * B) :=
  map (λ e, (p +:+ e.1, f e.2)) (btree_list m).

Lemma lookup_prefixed {A B} p (f : A → B) m n : map_of (prefixed p f m) !! (p +:+ n) = f <$> m !! n.
Proof.
  assert (Hnd : NoDup (prefixed p f m).*1).
  { assert ((prefixed p f m).*1 = String.append p <$> (btree_list m).*1) as ->.
    { unfold prefixed. by induction (btree_list m) as [|e l IH]; simpl; [|f_equal]. }
    apply NoDup_fmap_2; [intros s t; apply prefix_app_inj|apply btree_list_nodup]. }
  rewrite map_of_nodup by done. destruct (m !! n) as [x|] eqn:E; simpl.
  - apply elem_of_list_to_map_1; [done|]. apply list_elem_of_fmap. exists (n, x). split; [done|].
    by apply elem_of_btree_list.
  - apply not_elem_of_list_to_map_1. intros ([k y] & Hk & Hy)%list_elem_of_fmap. simpl in Hk. subst k.
    apply list_elem_of_fmap in Hy as ([k x] & [= Hn%prefix_app_inj ->] & Hx). subst k.
    apply elem_of_btree_list in Hx. congruence.
Qed.

Lemma lookup_prefixed_other {A B} p (f : A → B) m k :
  strip_prefix p k = None → map_of (prefixed p f m) !! k = None.
Proof.
  intros Hk. unfold prefixed. induction (btree_list m) as [|[n x] l IH]; [done|]. simpl.
  rewrite map_of_cons, lookup_union_None. split; [done|]. apply lookup_singleton_ne.
  intros <-. simpl in Hk. by rewrite strip_prefix_app in Hk.
Qed.

(** ** A stable sort by a boolean order ([sort_by], [ORDER BY]) *)

Fixpoint insert_by {A} (leb : A → A → bool) (x : A) (l : list A) : list A :=
  match l with
  | [] => [x]
  | y :: r => if leb x y then x :: l else y :: insert_by leb x r
  end.

Definition sort_by {A} (leb : A → A → bool) (l : list A) : list A := foldr (insert_by leb) [] l.

Lemma sort_by_perm {A} (leb : A → A → bool) l : sort_by leb l ≡ₚ l.
Proof.
  unfold sort_by. induction l as [|x l IH]; [done|]. simpl. rewrite <-IH at 2. generalize (foldr (insert_by leb) [] l) as s.
  intros s. clear IH. induction s as [|y s IH]; [done|]. simpl. destruct (leb x y); [done|]. rewrite IH. apply perm_swap.
Qed.

Lemma elem_of_insert {A} (leb : A → A → bool) x y l : y ∈ insert_by leb x l → y = x ∨ y ∈ l.
Proof.
  induction l as [|z l IH]; simpl; [rewrite list_elem_of_singleton; tauto|]. destruct (leb x z); rewrite !elem_of_cons; tauto.
Qed.

(** *** By a number *)

Section Stable.
Context {A : Type} (key : A → Z).

Definition key_leb (a b : A) : bool := key a <=? key b.

Lemma insert_key_sorted x l : StronglySorted (λ a b, key a <= key b) l → StronglySorted (λ a b, key a <= key b) (insert_by key_leb x l).
Proof.
  induction 1 as [|y l Hl IH Hy]; simpl; [by repeat constructor|]. unfold key_leb. destruct (Z.leb_spec (key x) (key y)).
  - constructor; [by constructor|]. constructor; [done|]. eapply Forall_impl; [exact Hy|]. intros z. simpl. lia.
  - constructor; [done|]. apply Forall_forall. intros z [->|Hz]%elem_of_insert; [lia|]. rewrite Forall_forall in Hy. auto.
Qed.

Lemma sort_key_sorted l : StronglySorted (λ a b, key a <= key b) (sort_by key_leb l).
Proof. unfold sort_by. induction l; simpl; [constructor|by apply insert_key_sorted]. Qed.

(** Elements of one key keep their order. *)
Lemma sort_key_stable l r : List.filter (λ a, key a =? r) (sort_by key_leb l) = List.filter (λ a, key a =? r) l.
Proof.
  assert (Hins : ∀ x m, StronglySorted (λ a b, key a <= key b) m →
    List.filter (λ a, key a =? r) (insert_by key_leb x m) = List.filter (λ a, key a =? r) (x :: m)).
  { intros x m Hm. induction Hm as [|y m Hm IH Hy]; [done|]. cbn [insert_by]. unfold key_leb at 1. destruct (Z.leb_spec (key x) (key y)); [done|].
    cbn [List.filter] in *. rewrite IH. destruct (Z.eqb_spec (key x) r), (Z.eqb_spec (key y) r); try done. lia. }
  induction l as [|x l IH]; [done|]. change (sort_by key_leb (x :: l)) with (insert_by key_leb x (sort_by key_leb l)).
  rewrite Hins by apply sort_key_sorted. cbn [List.filter]. by rewrite IH.
Qed.

(** The head of the sorted list is the first of the least key. *)
Definition lower (w x : A) : A := if key x <? key w then x else w.

Lemma best_is_head x l : head (sort_by key_leb (x :: l)) = Some (fold_left lower l x).
Proof.
  assert (Hh : ∀ a m, head (insert_by key_leb a m) = Some (match head m with Some y => if key a <=? key y then a else y | None => a end)).
  { intros a [|y m]; [done|]. simpl. unfold key_leb. by destruct (key a <=? key y). }
  assert (Hf : ∀ m a, Some (fold_left lower m a) = Some (match head (sort_by key_leb m) with Some y => if key a <=? key y then a else y | None => a end)).
  { induction m as [|y m IH]; intros a; [done|]. cbn [fold_left]. rewrite IH. unfold sort_by. cbn [foldr]. fold (sort_by key_leb m).
    rewrite Hh. unfold lower. f_equal. destruct (head (sort_by key_leb m)) as [z|]; repeat case_match; try done; lia. }
  unfold sort_by. cbn [foldr]. fold (sort_by key_leb l). rewrite Hh. symmetry. apply Hf.
Qed.

Lemma lower_least x l : key (fold_left lower l x) <= key x ∧ Forall (λ y, key (fold_left lower l x) <= key y) l ∧ fold_left lower l x ∈ x :: l.
Proof.
  revert x. induction l as [|y l IH]; intros x; simpl; [split; [lia|]; split; [constructor|left]|].
  destruct (IH (lower x y)) as (H1 & H2 & H3). unfold lower at 3 in H1. split; [|split].
  - destruct (Z.ltb_spec (key y) (key x)); lia.
  - constructor; [destruct (Z.ltb_spec (key y) (key x)); lia|done].
  - apply elem_of_cons in H3 as [->|H3]; [|by do 2 right]. unfold lower. destruct (key y <? key x); [by right; left|by left].
Qed.
End Stable.

(** ** Membership *)

Lemma existsb_in n l : existsb (String.eqb n) l = true ↔ n ∈ l.
Proof.
  rewrite existsb_exists, list_elem_of_In. split; [by intros (x & Hx & ->%String.eqb_eq)|].
  intros Hn. exists n. by rewrite String.eqb_refl.
Qed.

Lemma elem_of_take_in {A} n (l : list A) x : x ∈ take n l → x ∈ l.
Proof. intros Hx. rewrite <-(take_drop n l). apply elem_of_app. by left. Qed.

Lemma btree_list_length {A} (m : gmap string A) : length (btree_list m) = size m.
Proof. unfold btree_list. by rewrite (Permutation_length (sort_rows_perm _)), length_map_to_list. Qed.

Lemma nodup_map_inj {A B} (f : A → B) l x y : NoDup (map f l) → x ∈ l → y ∈ l → f x = f y → x = y.
Proof.
  induction l as [|z l IH]; [by intros _ Hx%elem_of_nil|]. simpl. intros [Hz Hnd]%NoDup_cons.
  intros [->|Hx]%elem_of_cons [->|Hy]%elem_of_cons E; [done| | |by apply IH]; exfalso; apply Hz.
  - rewrite E. by apply list_elem_of_fmap_2.
  - rewrite <-E. by apply list_elem_of_fmap_2.
Qed.
