(* ===== verification/Decimal.v ===== *)
(** * DECIMAL64 arithmetic ([sutra-feel/src/numeric.rs])

    Every arithmetic site of the FEEL evaluator goes through this module: the
    exact sum, difference or product (and the quotient, which is long-divided
    here) rounded to 16 significant digits, ties to even.  The [bigdecimal]
    crate is an interface ([BigDecimalOps]): its operators are exact, which is
    all this module relies on.

    The theorems give the arithmetic its meaning over the rationals: every
    operation returns a 16-digit decimal nearest to the exact result, and the
    even one when two are equally near; the loops of the division end in
    the states the code after them needs. *)
From Stdlib Require Import ZArith Lia Bool Znumtheory QArith Qpower Qabs Lqa.
From stdpp Require Import base option.
From S2P Require Import Prelude.

Open Scope Z_scope.

(** ** Data and the [bigdecimal] interface *)

Record BigDecimal : Type := mk_decimal { mantissa : Z; scale : Z }.

#[export] Instance BigDecimal_eq_dec : EqDecision BigDecimal.
Proof. solve_decision. Defined.

(** The number a decimal denotes: [mantissa · 10^-scale]. *)
Definition value (x : BigDecimal) : Q := (inject_Z (mantissa x) * (10 # 1) ^ (- scale x))%Q.

(** The operators of the [bigdecimal] crate the module calls: exact. *)
Class BigDecimalOps : Type := {
  bd_add : BigDecimal → BigDecimal → BigDecimal;
  bd_sub : BigDecimal → BigDecimal → BigDecimal;
  bd_mul : BigDecimal → BigDecimal → BigDecimal;
  bd_add_exact a b : (value (bd_add a b) == value a + value b)%Q;
  bd_sub_exact a b : (value (bd_sub a b) == value a - value b)%Q;
  bd_mul_exact a b : (value (bd_mul a b) == value a * value b)%Q
}.

(** ** Definitions *)

Definition DECIMAL64_DIGITS : Z := 16.

Definition digits (u : Z) : Z :=
  if u =? 0 then 1 else Z.of_nat (String.length (dec_string u)).

Definition divisible_by_10 (u : Z) : bool := u mod 10 =? 0.

Definition is_odd (u : Z) : bool := negb (u mod 2 =? 0).

Fixpoint pow_loop (n : nat) (b out : Z) : Z :=
  match n with O => out | S n => pow_loop n b (out * b) end.

Definition pow (base exp : Z) : Z := pow_loop (Z.to_nat exp) base 1.

(** [while !b.is_zero()]; two iterations at least halve [b]. *)
Fixpoint gcd_loop (fuel : nat) (a b : Z) : Z :=
  match fuel with
  | O => a
  | S f => if b =? 0 then a else gcd_loop f b (a mod b)
  end.

Definition gcd (a b : Z) : Z := gcd_loop (2 * Z.to_nat (Z.log2 b + 1) + 1) a b.

(** [while (&n % p).is_zero()]: the number of divisions and what is left. *)
Fixpoint strip_factor (fuel : nat) (p n count : Z) : Z * Z :=
  match fuel with
  | O => (count, n)
  | S f => if n mod p =? 0 then strip_factor f p (n / p) (count + 1) else (count, n)
  end.

Definition strip_fuel (n : Z) : nat := S (Z.to_nat (Z.log2 n)).

Definition strip_2_5 (n : Z) : Z * Z * Z :=
  let '(p2, n2) := strip_factor (strip_fuel n) 2 n 0 in
  let '(p5, n5) := strip_factor (strip_fuel n2) 5 n2 0 in
  (p2, p5, n5).

Definition round_mantissa (u s : Z) (sticky : bool) : Z * Z :=
  let d := digits u in
  if d <=? DECIMAL64_DIGITS then (u, s)
  else
    let drop := d - DECIMAL64_DIGITS in
    let pow_d := pow 10 drop in
    let hi := u / pow_d in
    let lo := u - hi * pow_d in
    let half := pow 10 (drop - 1) * 5 in
    let round_up := (half <? lo) || ((lo =? half) && (sticky || is_odd hi)) in
    let m := if round_up then hi + 1 else hi in
    let s' := s - drop in
    if DECIMAL64_DIGITS <? digits m then (m / 10, s' - 1) else (m, s').

Definition signed (magnitude : Z) (negative : bool) (s : Z) : BigDecimal :=
  mk_decimal (if negative then - magnitude else magnitude) s.

(** [x.digits()] is the digit count of the mantissa. *)
Definition round_decimal64 (x : BigDecimal) : BigDecimal :=
  if (mantissa x =? 0) || (digits (Z.abs (mantissa x)) <=? DECIMAL64_DIGITS) then x
  else
    let negative := mantissa x <? 0 in
    let '(m, s) := round_mantissa (Z.abs (mantissa x)) (scale x) false in
    signed m negative s.

Definition add `{BigDecimalOps} (a b : BigDecimal) : BigDecimal := round_decimal64 (bd_add a b).
Definition sub `{BigDecimalOps} (a b : BigDecimal) : BigDecimal := round_decimal64 (bd_sub a b).
Definition mul `{BigDecimalOps} (a b : BigDecimal) : BigDecimal := round_decimal64 (bd_mul a b).

(** [while s > preferred_scale && divisible_by_10(&u)]. *)
Fixpoint strip_to_scale (fuel : nat) (preferred u s : Z) : Z * Z :=
  match fuel with
  | O => (u, s)
  | S f =>
      if (preferred <? s) && divisible_by_10 u then strip_to_scale f preferred (u / 10) (s - 1)
      else (u, s)
  end.

(** [while digits(&u) > DECIMAL64_DIGITS && divisible_by_10(&u)]. *)
Fixpoint fit_precision (fuel : nat) (u s : Z) : Z * Z :=
  match fuel with
  | O => (u, s)
  | S f =>
      if (DECIMAL64_DIGITS <? digits u) && divisible_by_10 u then fit_precision f (u / 10) (s - 1)
      else (u, s)
  end.

(** The branch [rest.is_one()]: the quotient [na / (2^p2·5^p5)] terminates. *)
Definition div_terminating (na p2 p5 preferred : Z) (negative : bool) : BigDecimal :=
  let m := Z.max p2 p5 in
  let u := na * pow 2 (m - p2) * pow 5 (m - p5) in
  let '(u1, s1) := strip_to_scale (Z.to_nat m) preferred u (preferred + m) in
  let '(u2, s2) := fit_precision (strip_fuel u1) u1 s1 in
  let '(m2, s3) := round_mantissa u2 s2 false in
  signed m2 negative s3.

(** The other branch: long division with guard digits and a sticky bit. *)
Definition div_non_terminating (na nb preferred : Z) (negative : bool) : BigDecimal :=
  let k := 17 - (digits na - digits nb) in
  let '(num, den) := if 0 <=? k then (na * pow 10 k, nb) else (na, nb * pow 10 (- k)) in
  let q := num / den in
  let r := num - q * den in
  let '(m2, s2) := round_mantissa q (preferred + k) (negb (r =? 0)) in
  signed m2 negative s2.

Definition div (a b : BigDecimal) : BigDecimal :=
  let preferred := scale a - scale b in
  if mantissa a =? 0 then mk_decimal 0 preferred
  else
    let negative := negb (Bool.eqb (mantissa a <? 0) (mantissa b <? 0)) in
    let g := gcd (Z.abs (mantissa a)) (Z.abs (mantissa b)) in
    let na := if g =? 1 then Z.abs (mantissa a) else Z.abs (mantissa a) / g in
    let nb := if g =? 1 then Z.abs (mantissa b) else Z.abs (mantissa b) / g in
    let '(p2, p5, rest) := strip_2_5 nb in
    if rest =? 1 then div_terminating na p2 p5 preferred negative
    else div_non_terminating na nb preferred negative.

Example div_examples :
  div (mk_decimal 1000 1) (mk_decimal 4 0) = mk_decimal 250 1 ∧
  div (mk_decimal 10 1) (mk_decimal 25 2) = mk_decimal 4 0 ∧
  div (mk_decimal 1 0) (mk_decimal 8 0) = mk_decimal 125 3 ∧
  div (mk_decimal 2 0) (mk_decimal 3 0) = mk_decimal 6666666666666667 16 ∧
  div (mk_decimal (-10) 0) (mk_decimal 3 0) = mk_decimal (-3333333333333333) 15.
Proof. vm_compute. repeat split. Qed.

(** ** Loops *)

Lemma pow_loop_spec n b out : pow_loop n b out = out * b ^ Z.of_nat n.
Proof.
  revert out. induction n as [|n IH]; intros out; simpl pow_loop; [simpl; lia|].
  rewrite IH, Nat2Z.inj_succ, Z.pow_succ_r by lia. ring.
Qed.

Lemma pow_spec base exp : 0 <= exp → pow base exp = base ^ exp.
Proof. intros. unfold pow. rewrite pow_loop_spec, Z2Nat.id by lia. ring. Qed.

Lemma gcd_loop_spec n a b :
  0 <= b < 2 ^ Z.of_nat n → gcd_loop (2 * n + 1) a b = Z.gcd b a ∨ b = 0.
Proof.
  revert a b. induction n as [|n IH]; intros a b Hb; [simpl in Hb; lia|].
  destruct (Z.eq_dec b 0) as [->|Hnz]; [by right|left].
  replace (2 * S n + 1)%nat with (S (S (2 * n + 1))) by lia.
  cbn [gcd_loop]. destruct (Z.eqb_spec b 0); [done|].
  pose proof (Z.mod_pos_bound a b ltac:(lia)) as Hr.
  rewrite <- Z.gcd_mod by done.
  destruct (Z.eqb_spec (a mod b) 0) as [->|Hr0].
  { rewrite Z.gcd_0_l. lia. }
  pose proof (Z.mod_pos_bound b (a mod b) ltac:(lia)) as Hr2.
  pose proof (Z.div_mod b (a mod b) ltac:(lia)) as Hdm.
  assert (1 <= b / (a mod b)) by (apply Z.div_le_lower_bound; lia).
  rewrite <- Z.gcd_mod by done.
  rewrite Nat2Z.inj_succ, Z.pow_succ_r in Hb by lia.
  destruct (IH (a mod b) (b mod (a mod b))) as [->|E]; [nia|done|].
  rewrite E, Z.gcd_0_l, Nat.add_1_r. cbn [gcd_loop]. simpl. lia.
Qed.

Lemma gcd_spec a b : 0 <= a → 0 <= b → gcd a b = Z.gcd a b.
Proof.
  intros Ha Hb. unfold gcd. pose proof (Z.log2_nonneg b).
  destruct (gcd_loop_spec (Z.to_nat (Z.log2 b + 1)) a b) as [E| ->].
  - rewrite Z2Nat.id by lia. split; [done|].
    destruct (Z.eq_dec b 0) as [->|]; [done|]. apply Z.log2_spec; lia.
  - by rewrite E, Z.gcd_comm.
  - rewrite Z.gcd_0_r. simpl. lia.
Qed.

Lemma log2_div n p : 2 <= p → 0 < n → n mod p = 0 → 0 < n / p ∧ Z.log2 (n / p) < Z.log2 n.
Proof.
  intros Hp Hn Hm. pose proof (Z.div_mod n p ltac:(lia)).
  assert (0 < n / p) by nia. split; [done|].
  assert (Z.log2 (2 * (n / p)) <= Z.log2 n) by (apply Z.log2_le_mono; nia).
  rewrite Z.log2_double in *; lia.
Qed.

(** The factor loop divides out every factor [p] and stops. *)
Lemma strip_factor_spec fuel p n c :
  2 <= p → 0 < n → Z.log2 n < Z.of_nat fuel → 0 <= c →
  let '(c', r) := strip_factor fuel p n c in
  c <= c' ∧ n = p ^ (c' - c) * r ∧ 0 < r ∧ r mod p ≠ 0.
Proof.
  revert n c. induction fuel as [|f IH]; intros n c Hp Hn Hf Hc.
  { pose proof (Z.log2_nonneg n). lia. }
  simpl. destruct (Z.eqb_spec (n mod p) 0) as [E|E].
  - destruct (log2_div n p) as [Hd Hl]; [done..|].
    specialize (IH (n / p) (c + 1) Hp Hd ltac:(lia) ltac:(lia)).
    destruct (strip_factor f p (n / p) (c + 1)) as [c' r].
    destruct IH as (? & Hn' & ? & ?). repeat split; [lia| |done|done].
    replace (c' - c) with (Z.succ (c' - (c + 1))) by lia. rewrite Z.pow_succ_r by lia.
    pose proof (Z.div_mod n p ltac:(lia)). rewrite E in *. nia.
  - rewrite Z.sub_diag. simpl. repeat split; lia.
Qed.

Lemma strip_fuel_enough n : Z.log2 n < Z.of_nat (strip_fuel n).
Proof. unfold strip_fuel. pose proof (Z.log2_nonneg n). lia. Qed.

Lemma strip_2_5_spec n :
  0 < n →
  let '(p2, p5, rest) := strip_2_5 n in
  0 <= p2 ∧ 0 <= p5 ∧ n = 2 ^ p2 * 5 ^ p5 * rest ∧ 0 < rest ∧ rest mod 2 ≠ 0 ∧ rest mod 5 ≠ 0.
Proof.
  intros Hn. unfold strip_2_5.
  pose proof (strip_factor_spec _ 2 n 0 ltac:(lia) Hn (strip_fuel_enough n) ltac:(lia)) as H2.
  destruct (strip_factor (strip_fuel n) 2 n 0) as [p2 n2]. destruct H2 as (? & H2 & Hn2 & Ho).
  pose proof (strip_factor_spec _ 5 n2 0 ltac:(lia) Hn2 (strip_fuel_enough n2) ltac:(lia)) as H5.
  destruct (strip_factor (strip_fuel n2) 5 n2 0) as [p5 n5]. destruct H5 as (? & H5 & Hn5 & ?).
  rewrite Z.sub_0_r in H2, H5. repeat split; [done|done| |done| |done].
  - rewrite H2, H5. ring.
  - intros Hz. apply Ho. rewrite H5, Z.mul_mod, Hz, Z.mul_0_r by lia. done.
Qed.

(** ** Digit counts *)

Lemma digits_bounds u : 0 < u → 10 ^ (digits u - 1) <= u < 10 ^ digits u ∧ 1 <= digits u.
Proof.
  intros Hu. unfold digits. destruct (Z.eqb_spec u 0); [lia|].
  destruct (dec_string_numeral u) as [_ _ H1 H2 H3]; [lia|]. specialize (H2 Hu). lia.
Qed.

Lemma digits_le u n : 0 <= u → 1 <= n → digits u <= n ↔ u < 10 ^ n.
Proof.
  intros Hu Hn. destruct (Z.eq_dec u 0) as [->|].
  { unfold digits. simpl. pose proof (Z.pow_pos_nonneg 10 n). lia. }
  destruct (digits_bounds u) as [[Hl Hh] ?]; [lia|]. split; intros Hle.
  - eapply Z.lt_le_trans; [apply Hh|]. apply Z.pow_le_mono_r; lia.
  - destruct (Z.le_gt_cases (digits u) n); [done|].
    assert (10 ^ n <= 10 ^ (digits u - 1)) by (apply Z.pow_le_mono_r; lia). lia.
Qed.

Lemma digits_le_16 u : 0 <= u → digits u <= DECIMAL64_DIGITS ↔ u < 10 ^ 16.
Proof. intros. apply digits_le; unfold DECIMAL64_DIGITS; lia. Qed.

(** ** Correct rounding *)

(** [r] is the 16-digit decimal nearest to [x]; of two equally near ones it is
    the one whose mantissa is even. *)
Record rounds_to (x : Q) (r : BigDecimal) : Prop := {
  rounds_fits : digits (Z.abs (mantissa r)) <= DECIMAL64_DIGITS;
  rounds_nearest c :
    digits (Z.abs (mantissa c)) <= DECIMAL64_DIGITS →
    (Qabs (value r - x) <= Qabs (value c - x))%Q;
  rounds_even c :
    digits (Z.abs (mantissa c)) <= DECIMAL64_DIGITS →
    ¬ (value c == value r)%Q →
    (Qabs (value c - x) == Qabs (value r - x))%Q →
    Z.Even (mantissa r)
}.

Lemma T_pos k : (0 < (10 # 1) ^ k)%Q.
Proof. apply Qpower_0_lt. lra. Qed.

Lemma T_plus a b : ((10 # 1) ^ (a + b) == (10 # 1) ^ a * (10 # 1) ^ b)%Q.
Proof. apply Qpower_plus. intros H. discriminate H. Qed.

Lemma T_inject k : 0 <= k → (inject_Z (10 ^ k) == (10 # 1) ^ k)%Q.
Proof.
  intros Hk. revert k Hk. apply natlike_ind; [reflexivity|]. intros k Hk IH.
  rewrite Z.pow_succ_r, inject_Z_mult, IH by done. unfold Z.succ.
  rewrite T_plus. simpl. ring.
Qed.

Lemma inject_inj a b : (inject_Z a == inject_Z b)%Q → a = b.
Proof. apply inject_Z_injective. Qed.

Lemma inject_nonzero z : 0 < z → ¬ (inject_Z z == 0)%Q.
Proof. intros Hz E. unfold Qeq in E. simpl in E. lia. Qed.

Ltac qify :=
  repeat match goal with
  | H : (?a <= ?b)%Z |- _ => rewrite Zle_Qle in H
  | H : (?a < ?b)%Z |- _ => rewrite Zlt_Qlt in H
  | H : ?a = ?b :> Z |- _ => apply (proj2 (inject_Z_injective _ _)) in H
  end;
  rewrite ?inject_Z_plus, ?inject_Z_mult, ?inject_Z_opp in *;
  change (inject_Z 0) with 0%Q in *; change (inject_Z 1) with 1%Q in *;
  change (inject_Z 2) with 2%Q in *; change (inject_Z (-1)) with (-1)%Q in *.

(** What [round_mantissa] does to a mantissa that is too long: [t] is the exact
    magnitude in units of the mantissa's last place, [hi·P] and [(hi+1)·P] its
    two 16-digit neighbours, [v] the one chosen and [m] its mantissa. *)
Definition picks_neighbour (t : Q) (v m hi P : Z) : Prop :=
  let lo := (t - inject_Z (hi * P))%Q in
  ((2 * lo == inject_Z P)%Q → Z.Even m) ∧
  ((v = hi * P ∧ (2 * lo <= inject_Z P)%Q) ∨
   (v = (hi + 1) * P ∧ (inject_Z P <= 2 * lo)%Q)).

Definition stands_for (u : Z) (sticky : bool) (t : Q) : Prop :=
  if sticky then (inject_Z u < t < inject_Z u + 1)%Q else (t == inject_Z u)%Q.

Lemma is_odd_spec u : is_odd u = Z.odd u.
Proof. unfold is_odd. rewrite Zmod_odd. by destruct (Z.odd u). Qed.

Lemma not_odd_Even u : is_odd u = false → Z.Even u.
Proof. rewrite is_odd_spec, <- Z.negb_even. intros H%negb_false_iff. by apply Z.even_spec. Qed.

Lemma odd_Even_succ u : is_odd u = true → Z.Even (u + 1).
Proof.
  rewrite is_odd_spec, Z.odd_spec. intros [k ->]. exists (k + 1). lia.
Qed.

(** The choice between the two neighbours, before the carry. *)
Lemma round_choice u hi lo half P sticky t :
  u = hi * P + lo → P = 2 * half → 0 <= lo < P → stands_for u sticky t →
  let up := (half <? lo) || ((lo =? half) && (sticky || is_odd hi)) in
  let m := if up then hi + 1 else hi in
  picks_neighbour t (m * P) m hi P.
Proof.
  intros Hu HP [Hlo0 HloP] Ht up m. subst up m. unfold picks_neighbour, stands_for in *.
  destruct (Z.ltb_spec half lo) as [Hlt|Hge]; simpl.
  { assert (half + 1 <= lo) by lia. clear Hlt.
    destruct sticky; qify; (split; [intros ?; exfalso; lra|right; split; [done|lra]]). }
  destruct (Z.eqb_spec lo half) as [->|Hne]; simpl.
  - destruct sticky; simpl.
    { split; [intros ?; exfalso; qify; lra|]. right. split; [done|]. qify. lra. }
    destruct (is_odd hi) eqn:Ho; split; auto using odd_Even_succ, not_odd_Even.
    + right. split; [done|]. qify. lra.
    + left. split; [done|]. qify. lra.
  - assert (lo + 1 <= half) by lia. clear Hne Hge.
    destruct sticky; qify; (split; [intros ?; exfalso; lra|left; split; [done|lra]]).
Qed.

Lemma pow10_succ k : 1 <= k → 10 ^ k = 2 * (10 ^ (k - 1) * 5) ∧ 0 < 10 ^ k.
Proof.
  intros. replace k with (Z.succ (k - 1)) at 1 3 by lia. rewrite Z.pow_succ_r by lia.
  pose proof (Z.pow_pos_nonneg 10 (k - 1)). lia.
Qed.

(** The leading 16 digits of a longer mantissa. *)
Lemma leading_digits u :
  0 < u → DECIMAL64_DIGITS < digits u →
  let P := 10 ^ (digits u - DECIMAL64_DIGITS) in
  10 ^ 15 <= u / P < 10 ^ 16 ∧ 0 <= u - u / P * P < P.
Proof.
  intros Hu Hd P. unfold DECIMAL64_DIGITS in *.
  destruct (digits_bounds u Hu) as [[Hl Hh] _].
  assert (HP : 0 < P) by (apply Z.pow_pos_nonneg; lia).
  assert (E1 : 10 ^ (digits u - 1) = 10 ^ 15 * P)
    by (unfold P; rewrite <- Z.pow_add_r by lia; f_equal; lia).
  assert (E2 : 10 ^ digits u = 10 ^ 16 * P)
    by (unfold P; rewrite <- Z.pow_add_r by lia; f_equal; lia).
  pose proof (Z.div_mod u P ltac:(lia)). pose proof (Z.mod_pos_bound u P HP).
  repeat split; [apply Z.div_le_lower_bound; lia|apply Z.div_lt_upper_bound; lia|lia|lia].
Qed.

Lemma round_mantissa_picks u s sticky t :
  0 < u → DECIMAL64_DIGITS < digits u → stands_for u sticky t →
  let '(m, s') := round_mantissa u s sticky in
  ∃ hi drop, 1 <= drop ∧ 10 ^ 15 <= hi ∧ hi * 10 ^ drop <= u < (hi + 1) * 10 ^ drop ∧
    0 <= m < 10 ^ 16 ∧ s' <= s ∧ picks_neighbour t (m * 10 ^ (s - s')) m hi (10 ^ drop).
Proof.
  intros Hu Hd Ht. destruct (leading_digits u Hu Hd) as [Hhi Hlo].
  unfold round_mantissa. destruct (Z.leb_spec (digits u) DECIMAL64_DIGITS); [lia|].
  set (drop := digits u - DECIMAL64_DIGITS) in *.
  assert (1 <= drop) by lia. destruct (pow10_succ drop) as [HP HPpos]; [lia|].
  rewrite !pow_spec by lia.
  set (hi := u / 10 ^ drop) in *. set (lo := u - hi * 10 ^ drop) in *.
  pose proof (round_choice u hi lo (10 ^ (drop - 1) * 5) (10 ^ drop) sticky t
    ltac:(lia) HP Hlo Ht) as Hc. cbv zeta in Hc.
  set (m := if (_ <? _) || _ then hi + 1 else hi) in *.
  assert (Hm : hi <= m <= hi + 1) by (unfold m; case_if; lia).
  destruct (Z.ltb_spec DECIMAL64_DIGITS (digits m)) as [Hcarry|Hfit].
  - assert (Hm16 : ¬ m < 10 ^ 16) by (rewrite <- digits_le_16 by lia; lia).
    assert (Em : m = 10 ^ 16) by lia. rewrite Em in *.
    change (10 ^ 16 / 10) with (10 ^ 15).
    exists hi, drop. do 5 (split; [lia|]).
    replace (10 ^ 15 * 10 ^ (s - (s - drop - 1))) with (10 ^ 16 * 10 ^ drop).
    2:{ replace (s - (s - drop - 1)) with (Z.succ drop) by lia. rewrite Z.pow_succ_r by lia. lia. }
    destruct Hc as [_ Hc]. split; [|done]. intros _. exists (5 * 10 ^ 14). done.
  - apply digits_le_16 in Hfit; [|lia]. exists hi, drop. do 5 (split; [lia|]).
    replace (s - (s - drop)) with drop by lia. exact Hc.
Qed.

(** No 16-digit decimal lies strictly between the two neighbours. *)
Lemma no_decimal_between c s hi drop :
  digits (Z.abs (mantissa c)) <= DECIMAL64_DIGITS → 10 ^ 15 <= hi → 1 <= drop →
  let q := (value c * (10 # 1) ^ s)%Q in
  (q <= inject_Z (hi * 10 ^ drop))%Q ∨ (inject_Z ((hi + 1) * 10 ^ drop) <= q)%Q.
Proof.
  intros Hc Hhi Hdrop q. apply digits_le_16 in Hc; [|lia].
  assert (Hq : (q == inject_Z (mantissa c) * (10 # 1) ^ (s - scale c))%Q).
  { unfold q, value, Z.sub. rewrite T_plus. ring. }
  destruct (Z.le_gt_cases drop (s - scale c)) as [Hk|Hk].
  - assert (Hq' : (q == inject_Z (mantissa c * 10 ^ (s - scale c - drop) * 10 ^ drop))%Q).
    { rewrite Hq, <- Z.mul_assoc, <- Z.pow_add_r, inject_Z_mult, T_inject by lia.
      by replace (s - scale c - drop + drop) with (s - scale c) by lia. }
    set (j := mantissa c * 10 ^ (s - scale c - drop)) in *.
    pose proof (Z.pow_pos_nonneg 10 drop ltac:(lia) ltac:(lia)).
    rewrite Hq', <- !Zle_Qle.
    destruct (Z.le_gt_cases j hi); [left|right]; apply Z.mul_le_mono_nonneg_r; lia.
  - left. rewrite Hq. apply Qle_trans with (inject_Z (10 ^ 16) * (10 # 1) ^ (drop - 1))%Q.
    + apply Qle_trans with (inject_Z (10 ^ 16) * (10 # 1) ^ (s - scale c))%Q.
      * apply Qmult_le_compat_r; [|apply Qlt_le_weak, T_pos]. rewrite <- Zle_Qle. lia.
      * apply Qmult_le_l; [done|]. apply Qpower_le_compat_l; [lia|]. done.
    + rewrite <- T_inject, <- inject_Z_mult, <- Zle_Qle by lia.
      replace drop with (Z.succ (drop - 1)) at 2 by lia. rewrite Z.pow_succ_r by lia.
      pose proof (Z.pow_pos_nonneg 10 (drop - 1)). nia.
Qed.

(** Case analysis on the sign under every absolute value of the goal. *)
Ltac qabs :=
  repeat match goal with
  | |- context [Qabs ?x] => pattern (Qabs x); apply Qabs_case; intros ?
  end.

Lemma nearest_units t v m hi P q :
  picks_neighbour t v m hi P →
  (inject_Z (hi * P) <= t <= inject_Z ((hi + 1) * P))%Q →
  (q <= inject_Z (hi * P))%Q ∨ (inject_Z ((hi + 1) * P) <= q)%Q →
  (Qabs (inject_Z v - t) <= Qabs (q - t))%Q ∧
  (¬ (q == inject_Z v)%Q → (Qabs (q - t) == Qabs (inject_Z v - t))%Q → Z.Even m).
Proof.
  intros [He Hv] Ht Hq. set (a := inject_Z (hi * P)) in *.
  assert (Hb : (inject_Z ((hi + 1) * P) == a + inject_Z P)%Q).
  { subst a. rewrite <- inject_Z_plus. replace ((hi + 1) * P) with (hi * P + P) by ring. reflexivity. }
  rewrite Hb in *. clear Hb. split.
  - destruct Hv as [[-> Hv]|[-> Hv]]; destruct Hq as [Hq|Hq]; fold a;
      rewrite ?Z.mul_add_distr_r, ?Z.mul_1_l, ?inject_Z_plus; fold a; qabs; lra.
  - intros Hne Heq. apply He. revert Hne Heq.
    destruct Hv as [[-> Hv]|[-> Hv]]; destruct Hq as [Hq|Hq]; fold a;
      rewrite ?Z.mul_add_distr_r, ?Z.mul_1_l, ?inject_Z_plus; fold a; intros Hne;
      qabs; intros Heq; try lra; destruct Hne; lra.
Qed.

Lemma Qabs_scale a b k : (0 < k)%Q → (Qabs (a * k - b * k) == Qabs (a - b) * k)%Q.
Proof.
  intros Hk. assert (E : (a * k - b * k == (a - b) * k)%Q) by ring.
  rewrite E, Qabs_Qmult, (Qabs_pos k) by lra. reflexivity.
Qed.

Lemma value_units x s : (value x == (value x * (10 # 1) ^ s) * (10 # 1) ^ (- s))%Q.
Proof.
  rewrite <- Qmult_assoc, <- T_plus. replace (s + - s) with 0 by lia. simpl. ring.
Qed.

Lemma value_mk_units m s' s :
  s' <= s → (value (mk_decimal m s') == inject_Z (m * 10 ^ (s - s')) * (10 # 1) ^ (- s))%Q.
Proof.
  intros. unfold value. simpl. rewrite inject_Z_mult, T_inject, <- Qmult_assoc, <- T_plus by lia.
  by replace (s - s' + - s) with (- s') by lia.
Qed.

#[export] Instance rounds_to_proper : Proper (Qeq ==> eq ==> iff) rounds_to.
Proof.
  assert (Himp : ∀ x y r, (x == y)%Q → rounds_to x r → rounds_to y r).
  { intros x y r E [Hf Hn He]. split; [done|..].
    - intros c Hc. rewrite <- !E. by apply Hn.
    - intros c Hc Hne. rewrite <- !E. by apply He. }
  intros x y E r ? <-. split; apply Himp; [done|by symmetry].
Qed.

Lemma exact_rounds x : digits (Z.abs (mantissa x)) <= DECIMAL64_DIGITS → rounds_to (value x) x.
Proof.
  intros Hd. split; [done|..].
  - intros c _. rewrite (Qabs_wd _ 0) by ring. apply Qabs_nonneg.
  - intros c _ Hne. rewrite (Qabs_wd (value x - value x) 0) by ring.
    change (Qabs 0) with 0%Q. intros Heq. destruct Hne. revert Heq. qabs; intros; lra.
Qed.

(** [round_mantissa] rounds the exact magnitude [t · 10^-s] correctly. *)
Lemma round_mantissa_rounds u s sticky t :
  0 < u → (sticky = true → DECIMAL64_DIGITS < digits u) → stands_for u sticky t →
  let '(m, s') := round_mantissa u s sticky in
  0 <= m ∧ rounds_to (t * (10 # 1) ^ (- s)) (mk_decimal m s').
Proof.
  intros Hu Hst Ht. destruct (Z.le_gt_cases (digits u) DECIMAL64_DIGITS) as [Hd|Hd].
  { unfold round_mantissa. destruct (Z.leb_spec (digits u) DECIMAL64_DIGITS); [|lia].
    destruct sticky; [specialize (Hst eq_refl); lia|]. simpl in Ht.
    split; [lia|]. rewrite Ht. apply (exact_rounds (mk_decimal u s)). simpl.
    by rewrite Z.abs_eq by lia. }
  pose proof (round_mantissa_picks u s sticky t Hu Hd Ht) as Hp.
  destruct (round_mantissa u s sticky) as [m s'].
  destruct Hp as (hi & drop & Hdrop & Hhi & Hu' & Hm & Hs & Hp). split; [lia|].
  assert (Hbounds : (inject_Z (hi * 10 ^ drop) <= t <= inject_Z ((hi + 1) * 10 ^ drop))%Q).
  { assert (u + 1 <= (hi + 1) * 10 ^ drop) by lia. destruct Hu' as [Hu1 _]. clear Hdrop.
    rewrite Zle_Qle in *. rewrite inject_Z_plus in H. change (inject_Z 1) with 1%Q in H.
    unfold stands_for in Ht. destruct sticky; lra. }
  assert (Hnear : ∀ c, digits (Z.abs (mantissa c)) <= DECIMAL64_DIGITS → _)
    by exact (λ c Hc, nearest_units _ _ _ _ _ _ Hp Hbounds (no_decimal_between c s hi drop Hc Hhi Hdrop)).
  pose proof (T_pos (- s)) as Hk. split.
  - simpl. apply digits_le_16; lia.
  - intros c Hc. destruct (Hnear c Hc) as [Hn _].
    rewrite (value_mk_units m s' s Hs), (value_units c s), !Qabs_scale by done.
    apply Qmult_le_compat_r; [done|lra].
  - intros c Hc Hne Heq. destruct (Hnear c Hc) as [_ Hn]. simpl. apply Hn.
    + intros E. apply Hne. rewrite (value_mk_units m s' s Hs), (value_units c s), E. reflexivity.
    + rewrite (value_mk_units m s' s Hs), (value_units c s), !Qabs_scale in Heq by done.
      apply Qmult_inj_r in Heq; [done|lra].
Qed.

Lemma value_opp m s : (value (mk_decimal (- m) s) == - value (mk_decimal m s))%Q.
Proof. unfold value. simpl. rewrite inject_Z_opp. ring. Qed.

Lemma Qabs_opp_sub a b : (Qabs (- a - b) == Qabs (a - - b))%Q.
Proof. rewrite <- Qabs_opp. apply Qabs_wd. ring. Qed.

(** Rounding commutes with the sign. *)
Lemma rounds_to_signed x m s (negative : bool) :
  rounds_to x (mk_decimal m s) →
  rounds_to (if negative then - x else x)%Q (signed m negative s).
Proof.
  destruct negative; [|done]. intros [Hf Hn He]. unfold signed.
  assert (Hneg : ∀ c, digits (Z.abs (mantissa c)) <= DECIMAL64_DIGITS →
    digits (Z.abs (mantissa (mk_decimal (- mantissa c) (scale c)))) <= DECIMAL64_DIGITS).
  { intros c. simpl. by rewrite Z.abs_opp. }
  assert (Hval : ∀ c, (value c == - value (mk_decimal (- mantissa c) (scale c)))%Q).
  { intros [cm cs]. rewrite value_opp. simpl. ring. }
  assert (Hx : (- - x == x)%Q) by ring.
  split.
  - simpl in *. by rewrite Z.abs_opp.
  - intros c Hc. rewrite value_opp, (Hval c), !Qabs_opp_sub, Hx. by apply Hn, Hneg.
  - intros c Hc Hne. rewrite value_opp, (Hval c), !Qabs_opp_sub, Hx. intros Heq.
    cut (Z.Even m); [intros [k ->]; exists (- k); simpl; lia|]. apply (He _ (Hneg c Hc)); [|done].
    intros E. apply Hne. rewrite Hval, E, value_opp. reflexivity.
Qed.

Lemma value_abs_sign x :
  (value x == if mantissa x <? 0 then - value (mk_decimal (Z.abs (mantissa x)) (scale x))
              else value (mk_decimal (Z.abs (mantissa x)) (scale x)))%Q.
Proof.
  destruct x as [m s]. simpl. destruct (Z.ltb_spec m 0).
  - rewrite Z.abs_neq, value_opp by lia. ring.
  - rewrite Z.abs_eq by lia. reflexivity.
Qed.

Lemma round_decimal64_rounds x : rounds_to (value x) (round_decimal64 x).
Proof.
  unfold round_decimal64. destruct (Z.eqb_spec (mantissa x) 0) as [E|E]; simpl.
  { apply exact_rounds. rewrite E. by vm_compute. }
  destruct (Z.leb_spec (digits (Z.abs (mantissa x))) DECIMAL64_DIGITS); [by apply exact_rounds|].
  pose proof (round_mantissa_rounds (Z.abs (mantissa x)) (scale x) false
    (inject_Z (Z.abs (mantissa x))) ltac:(lia) ltac:(done) ltac:(done)) as Hr.
  destruct (round_mantissa _ _ _) as [m s]. destruct Hr as [_ Hr].
  rewrite value_abs_sign. by apply (rounds_to_signed _ _ _ (mantissa x <? 0)) in Hr.
Qed.

(** ** Division *)

(** [u · 10^-s] is unchanged by a strip loop. *)
Lemma strip_to_scale_spec fuel preferred u s :
  0 < u → Z.of_nat fuel = s - preferred →
  let '(u', s') := strip_to_scale fuel preferred u s in
  0 < u' ∧ u = u' * 10 ^ (s - s') ∧ preferred <= s' <= s ∧
  (s' = preferred ∨ divisible_by_10 u' = false).
Proof.
  revert u s. induction fuel as [|f IH]; intros u s Hu Hf; cbn [strip_to_scale].
  { rewrite Z.sub_diag. repeat split; lia. }
  destruct (Z.ltb_spec preferred s); [|lia]. simpl.
  destruct (divisible_by_10 u) eqn:Hd; simpl.
  - unfold divisible_by_10 in Hd. zbool. pose proof (Z.div_mod u 10 ltac:(lia)).
    specialize (IH (u / 10) (s - 1) ltac:(lia) ltac:(lia)).
    destruct (strip_to_scale f preferred (u / 10) (s - 1)) as [u' s'].
    destruct IH as (? & Hu' & ? & ?). repeat split; try lia; [|done].
    replace (s - s') with (Z.succ (s - 1 - s')) by lia. rewrite Z.pow_succ_r by lia. lia.
  - rewrite Z.sub_diag. repeat split; try lia; auto.
Qed.

Lemma fit_precision_spec fuel u s :
  0 < u → Z.log2 u < Z.of_nat fuel →
  let '(u', s') := fit_precision fuel u s in
  0 < u' ∧ u = u' * 10 ^ (s - s') ∧ s' <= s ∧
  (digits u' <= DECIMAL64_DIGITS ∨ divisible_by_10 u' = false) ∧
  (s' = s ∨ 10 ^ 16 <= u' * 10).
Proof.
  revert u s. induction fuel as [|f IH]; intros u s Hu Hf; cbn [fit_precision].
  { pose proof (Z.log2_nonneg u). lia. }
  destruct (Z.ltb_spec DECIMAL64_DIGITS (digits u)) as [Hlong|Hshort]; simpl.
  2:{ rewrite Z.sub_diag. repeat split; lia. }
  destruct (divisible_by_10 u) eqn:Hd; simpl.
  2:{ rewrite Z.sub_diag. repeat split; try lia; auto. }
  unfold divisible_by_10 in Hd. zbool. pose proof (Z.div_mod u 10 ltac:(lia)).
  assert (Hu16 : ¬ u < 10 ^ 16) by (rewrite <- digits_le_16 by lia; lia).
  destruct (log2_div u 10) as [Hpos Hlog]; [lia..|].
  specialize (IH (u / 10) (s - 1) Hpos ltac:(lia)).
  destruct (fit_precision f (u / 10) (s - 1)) as [u' s'].
  destruct IH as (? & Hu' & ? & ? & Hlast). repeat split; try lia; [|done|].
  - replace (s - s') with (Z.succ (s - 1 - s')) by lia. rewrite Z.pow_succ_r by lia. lia.
  - right. destruct Hlast as [->|]; [|done]. rewrite Z.sub_diag in Hu'. simpl in Hu'. lia.
Qed.

Lemma value_shift u u' s s' :
  s' <= s → u = u' * 10 ^ (s - s') → (value (mk_decimal u s) == value (mk_decimal u' s'))%Q.
Proof. intros Hs ->. rewrite (value_mk_units u' s' s Hs). reflexivity. Qed.

(** What the loops of the terminating branch leave for the rounding step. *)
Lemma div_terminating_loops na p2 p5 preferred negative :
  0 < na → 0 <= p2 → 0 <= p5 →
  ∃ u s, 0 < u ∧
    (value (mk_decimal u s) == (inject_Z na / inject_Z (2 ^ p2 * 5 ^ p5)) * (10 # 1) ^ (- preferred))%Q ∧
    div_terminating na p2 p5 preferred negative =
      (let '(m2, s3) := round_mantissa u s false in signed m2 negative s3) ∧
    (digits u <= DECIMAL64_DIGITS ∨ divisible_by_10 u = false) ∧
    (s = preferred ∨ (preferred < s ∧ divisible_by_10 u = false) ∨ 10 ^ 16 <= u * 10).
Proof.
  intros Hna H2 H5. unfold div_terminating. set (m := Z.max p2 p5).
  rewrite !pow_spec by lia.
  assert (Hpow : 0 < 2 ^ (m - p2) ∧ 0 < 5 ^ (m - p5)) by (split; apply Z.pow_pos_nonneg; lia).
  set (u0 := na * 2 ^ (m - p2) * 5 ^ (m - p5)).
  pose proof (strip_to_scale_spec (Z.to_nat m) preferred u0 (preferred + m)
    ltac:(unfold u0; nia) ltac:(lia)) as Hs.
  destruct (strip_to_scale _ _ _ _) as [u1 s1]. destruct Hs as (Hu1 & Eu1 & Hs1 & Hstop1).
  pose proof (fit_precision_spec (strip_fuel u1) u1 s1 Hu1 (strip_fuel_enough u1)) as Hf.
  destruct (fit_precision _ _ _) as [u2 s2]. destruct Hf as (Hu2 & Eu2 & Hs2 & Hstop2 & Hlast).
  exists u2, s2. split; [done|]. split; [|split; [done|split; [done|]]].
  - rewrite <- (value_shift u1 u2 s1 s2), <- (value_shift u0 u1 (preferred + m) s1) by lia.
    assert (E10 : 10 ^ m = (2 ^ p2 * 5 ^ p5) * (2 ^ (m - p2) * 5 ^ (m - p5))).
    { change 10 with (2 * 5). rewrite Z.pow_mul_l.
      replace m with (p2 + (m - p2)) at 1 by lia. replace m with (p5 + (m - p5)) at 2 by lia.
      rewrite !Z.pow_add_r by lia. ring. }
    assert (Hd : 0 < 2 ^ p2 * 5 ^ p5)
      by (apply Z.mul_pos_pos; apply Z.pow_pos_nonneg; lia).
    unfold value, u0. simpl. rewrite Z.opp_add_distr, T_plus, (Qpower_opp _ m), <- (T_inject m), E10 by lia.
    rewrite !inject_Z_mult. field.
    repeat split; apply inject_nonzero; [apply Z.pow_pos_nonneg; lia..].
  - destruct Hlast as [->|]; [|by right; right]. rewrite Z.sub_diag, Z.mul_1_r in Eu2. subst u2.
    destruct Hstop1 as [->|]; [by left|]. destruct (Z.eq_dec s1 preferred); [by left|].
    right; left. split; [lia|done].
Qed.

(** The exact magnitude of a quotient: [na / nb · 10^-preferred]. *)
Definition quotient (na nb preferred : Z) : Q :=
  ((inject_Z na / inject_Z nb) * (10 # 1) ^ (- preferred))%Q.

Lemma div_terminating_rounds na p2 p5 preferred (negative : bool) :
  0 < na → 0 <= p2 → 0 <= p5 →
  rounds_to (if negative then - quotient na (2 ^ p2 * 5 ^ p5) preferred
             else quotient na (2 ^ p2 * 5 ^ p5) preferred)%Q
    (div_terminating na p2 p5 preferred negative).
Proof.
  intros. destruct (div_terminating_loops na p2 p5 preferred negative)
    as (u & s & Hu & Hv & -> & _); [done..|].
  pose proof (round_mantissa_rounds u s false (inject_Z u) Hu ltac:(done) ltac:(done)) as Hr.
  destruct (round_mantissa u s false) as [m s']. destruct Hr as [_ Hr].
  fold (quotient na (2 ^ p2 * 5 ^ p5) preferred) in Hv.
  apply (rounds_to_signed _ _ _ negative) in Hr. change (inject_Z u * _)%Q with (value (mk_decimal u s)) in Hr.
  destruct negative; by rewrite Hv in Hr.
Qed.

(** The long division of [num] by [den]: the integer quotient and the sticky bit
    stand for the exact quotient. *)
Lemma long_division num den :
  0 < den → stands_for (num / den) (negb (num - num / den * den =? 0)) (inject_Z num / inject_Z den).
Proof.
  intros Hd. pose proof (Z.div_mod num den ltac:(lia)) as Hdm.
  pose proof (Z.mod_pos_bound num den Hd) as Hm.
  set (q := num / den) in *. set (r := num mod den) in *.
  replace (num - q * den) with r by lia. rewrite Hdm.
  assert (Hnz := inject_nonzero den Hd).
  assert (E : (inject_Z (den * q + r) / inject_Z den == inject_Z q + inject_Z r / inject_Z den)%Q).
  { rewrite inject_Z_plus, inject_Z_mult. field. done. }
  assert (Hdq : (0 < inject_Z den)%Q) by (by rewrite Zlt_Qlt in Hd).
  unfold stands_for. destruct (Z.eqb_spec r 0) as [->|Hr]; simpl; rewrite E.
  - change (inject_Z 0) with 0%Q. field. done.
  - assert (0 < inject_Z r / inject_Z den)%Q.
    { apply Qlt_shift_div_l; [done|]. rewrite Qmult_0_l. assert (Hr0 : 0 < r) by lia.
      by rewrite Zlt_Qlt in Hr0. }
    assert (inject_Z r / inject_Z den < 1)%Q.
    { apply Qlt_shift_div_r; [done|]. rewrite Qmult_1_l, <- Zlt_Qlt. lia. }
    lra.
Qed.

(** The shift [k] gives the quotient at least 17 digits. *)
Lemma guard_digits na nb num den :
  0 < na → 0 < nb →
  let k := 17 - (digits na - digits nb) in
  (num, den) = (if 0 <=? k then (na * 10 ^ k, nb) else (na, nb * 10 ^ (- k))) →
  0 < den ∧ DECIMAL64_DIGITS < digits (num / den) ∧ 0 < num / den ∧
  (inject_Z num / inject_Z den == inject_Z na / inject_Z nb * (10 # 1) ^ k)%Q.
Proof.
  intros Hna Hnb k Hnd.
  destruct (digits_bounds na Hna) as [[Hal _] Had]. destruct (digits_bounds nb Hnb) as [[_ Hbh] Hbd].
  assert (Hmain : 0 < den ∧ 10 ^ 16 * den <= num).
  { destruct (Z.leb_spec 0 k) as [Hk|Hk]; injection Hnd as -> ->.
    - assert (E : 10 ^ (digits na - 1) * 10 ^ k = 10 ^ 16 * 10 ^ digits nb).
      { rewrite <- !Z.pow_add_r by lia. f_equal. lia. }
      pose proof (Z.pow_pos_nonneg 10 k ltac:(lia) Hk). nia.
    - assert (E : 10 ^ (digits na - 1) = 10 ^ 16 * 10 ^ digits nb * 10 ^ (- k)).
      { rewrite <- !Z.pow_add_r by lia. f_equal. lia. }
      pose proof (Z.pow_pos_nonneg 10 (- k) ltac:(lia) ltac:(lia)). nia. }
  destruct Hmain as [Hden Hnum].
  assert (10 ^ 16 <= num / den) by (apply Z.div_le_lower_bound; lia).
  split; [done|]. split; [|split; [lia|]].
  { destruct (Z.lt_ge_cases DECIMAL64_DIGITS (digits (num / den))) as [|Hle]; [done|].
    apply digits_le_16 in Hle; lia. }
  assert (Hnz := inject_nonzero nb Hnb).
  destruct (Z.leb_spec 0 k) as [Hk|Hk]; injection Hnd as -> ->; rewrite inject_Z_mult, T_inject by lia.
  - field. done.
  - rewrite Qpower_opp. field. split; [done|]. intros E. pose proof (T_pos k). lra.
Qed.

Lemma div_non_terminating_rounds na nb preferred (negative : bool) :
  0 < na → 0 < nb →
  rounds_to (if negative then - quotient na nb preferred else quotient na nb preferred)%Q
    (div_non_terminating na nb preferred negative).
Proof.
  intros Hna Hnb. unfold div_non_terminating. set (k := 17 - (digits na - digits nb)).
  destruct (if 0 <=? k then (na * pow 10 k, nb) else (na, nb * pow 10 (- k))) as [num den] eqn:E.
  assert (E' : (num, den) = (if 0 <=? k then (na * 10 ^ k, nb) else (na, nb * 10 ^ (- k)))).
  { rewrite <- E. destruct (Z.leb_spec 0 k); by rewrite pow_spec by lia. }
  destruct (guard_digits na nb num den Hna Hnb E') as (Hden & Hdig & Hpos & Hq).
  pose proof (round_mantissa_rounds (num / den) (preferred + k) _ _ Hpos (λ _, Hdig)
    (long_division num den Hden)) as Hr.
  destruct (round_mantissa _ _ _) as [m s]. destruct Hr as [_ Hr].
  assert (Ex : (inject_Z num / inject_Z den * (10 # 1) ^ (- (preferred + k)) == quotient na nb preferred)%Q).
  { rewrite Hq. unfold quotient. rewrite <- Qmult_assoc, <- T_plus.
    fold k. by replace (k + - (preferred + k)) with (- preferred) by lia. }
  apply (rounds_to_signed _ _ _ negative) in Hr. destruct negative; by rewrite Ex in Hr.
Qed.

(** The reduced magnitudes [div] works on. *)
Definition reduced (x g : Z) : Z := if g =? 1 then Z.abs x else Z.abs x / g.

Lemma reduced_spec x g : 0 < g → (g | x) → Z.abs x = reduced x g * g.
Proof.
  intros Hg [k ->]. unfold reduced. destruct (Z.eqb_spec g 1) as [->|]; [lia|].
  rewrite Z.abs_mul, (Z.abs_eq g), Z.div_mul by lia. done.
Qed.

Lemma reduced_pair x y :
  x ≠ 0 → y ≠ 0 →
  let g := gcd (Z.abs x) (Z.abs y) in
  0 < reduced x g ∧ 0 < reduced y g ∧ Z.gcd (reduced x g) (reduced y g) = 1 ∧
  0 < g ∧ Z.abs x = reduced x g * g ∧ Z.abs y = reduced y g * g.
Proof.
  intros Hx Hy g. assert (Hg : g = Z.gcd x y).
  { unfold g. rewrite gcd_spec by lia. by rewrite Z.gcd_abs_l, Z.gcd_abs_r. }
  assert (Hpos : 0 < g).
  { pose proof (Z.gcd_nonneg x y). destruct (Z.eq_dec g 0) as [E|]; [|lia].
    rewrite E in Hg. symmetry in Hg. apply Z.gcd_eq_0_l in Hg. lia. }
  assert (Ex := reduced_spec x g Hpos). assert (Ey := reduced_spec y g Hpos).
  rewrite Hg in Ex at 1. specialize (Ex (Z.gcd_divide_l x y)).
  rewrite Hg in Ey at 1. specialize (Ey (Z.gcd_divide_r x y)).
  repeat split; [nia|nia| |done|done|done].
  assert (E : Z.gcd (Z.abs x) (Z.abs y) = g) by (by rewrite Z.gcd_abs_l, Z.gcd_abs_r).
  rewrite Ex, Ey, Z.gcd_mul_mono_r_nonneg in E by lia. nia.
Qed.

Lemma value_quotient a b na nb g :
  0 < g → 0 < nb → Z.abs (mantissa a) = na * g → Z.abs (mantissa b) = nb * g →
  (value (mk_decimal (Z.abs (mantissa a)) (scale a)) /
   value (mk_decimal (Z.abs (mantissa b)) (scale b)) == quotient na nb (scale a - scale b))%Q.
Proof.
  intros Hg Hnb Ea Eb. unfold value, quotient. simpl. rewrite Ea, Eb, !inject_Z_mult.
  replace (- (scale a - scale b)) with (- scale a + scale b) by lia.
  rewrite T_plus, (Qpower_opp _ (scale b)). field.
  pose proof (T_pos (scale b)). pose proof (inject_nonzero g Hg). pose proof (inject_nonzero nb Hnb).
  repeat split; try done. intros E. lra.
Qed.

Lemma div_sign a b (q : Q) :
  (value (mk_decimal (Z.abs (mantissa a)) (scale a)) /
   value (mk_decimal (Z.abs (mantissa b)) (scale b)) == q)%Q →
  (value a / value b ==
   if negb (Bool.eqb (mantissa a <? 0)%Z (mantissa b <? 0)%Z) then - q else q)%Q.
Proof.
  intros Hq. rewrite (value_abs_sign a), (value_abs_sign b).
  assert (Hinv : ∀ x, (/ - x == - / x)%Q) by (intros [[|?|?] ?]; reflexivity).
  destruct (mantissa a <? 0), (mantissa b <? 0); unfold Qdiv in *; simpl;
    rewrite ?Hinv, <- Hq; ring.
Qed.

Lemma div_rounds a b : mantissa b ≠ 0 → rounds_to (value a / value b) (div a b).
Proof.
  intros Hb. unfold div. destruct (Z.eqb_spec (mantissa a) 0) as [Ea|Ea].
  { assert (E : (value a / value b == value (mk_decimal 0 (scale a - scale b)))%Q).
    { unfold value. rewrite Ea. simpl. unfold Qdiv. ring. }
    rewrite E. apply exact_rounds. by vm_compute. }
  fold (reduced (mantissa a) (gcd (Z.abs (mantissa a)) (Z.abs (mantissa b)))).
  fold (reduced (mantissa b) (gcd (Z.abs (mantissa a)) (Z.abs (mantissa b)))).
  destruct (reduced_pair (mantissa a) (mantissa b) Ea Hb) as (Hna & Hnb & _ & Hg & E1 & E2).
  set (g := gcd _ _) in *.
  set (na := reduced (mantissa a) g) in *. set (nb := reduced (mantissa b) g) in *.
  rewrite (div_sign a b _ (value_quotient a b na nb g Hg Hnb E1 E2)).
  pose proof (strip_2_5_spec nb Hnb) as Hs. destruct (strip_2_5 nb) as [[p2 p5] rest].
  destruct Hs as (Hp2 & Hp5 & Enb & _). destruct (Z.eqb_spec rest 1) as [->|].
  - rewrite Enb, Z.mul_1_r. by apply div_terminating_rounds.
  - by apply div_non_terminating_rounds.
Qed.

(** ** Preferred scale of an exact quotient *)

Lemma rounds_to_exact x r c :
  rounds_to x r → digits (Z.abs (mantissa c)) <= DECIMAL64_DIGITS → (value c == x)%Q →
  (value r == x)%Q.
Proof.
  intros [_ Hn _] Hc E. specialize (Hn c Hc).
  rewrite (Qabs_wd (value c - x) 0) in Hn by (rewrite E; ring).
  change (Qabs 0) with 0%Q in Hn. revert Hn. qabs; intros; lra.
Qed.

(** A decimal quotient in lowest terms has only the factors 2 and 5 below. *)
Lemma decimal_denominator na nb m e rest d :
  0 <= e → 0 <= d → na * 10 ^ e = m * nb * 10 ^ d → Z.gcd na nb = 1 →
  (rest | nb) → 0 < rest → rest mod 2 ≠ 0 → rest mod 5 ≠ 0 → rest = 1.
Proof.
  intros He Hd E Hg Hdiv Hr H2 H5.
  assert (Hnb : (nb | 10 ^ e)).
  { apply (Z.gauss nb na); [|by rewrite Z.gcd_comm]. exists (m * 10 ^ d). lia. }
  assert (Hrest : (rest | 10 ^ e)) by (by etrans).
  assert (H10 : Z.coprime rest (10 ^ e)).
  { apply Z.coprime_pow_r; [done|]. change 10 with (2 * 5).
    apply Z.coprime_mul_r; unfold Z.coprime; rewrite Z.gcd_comm, <- Z.gcd_mod by lia.
    - pose proof (Z.mod_pos_bound rest 2 ltac:(lia)). assert (rest mod 2 = 1) as -> by lia. done.
    - pose proof (Z.mod_pos_bound rest 5 ltac:(lia)).
      assert (Hm : rest mod 5 = 1 ∨ rest mod 5 = 2 ∨ rest mod 5 = 3 ∨ rest mod 5 = 4) by lia.
      destruct Hm as [->|[->|[->| ->]]]; done. }
  apply Z.divide_gcd_iff in Hrest; [|lia]. unfold Z.coprime in H10. lia.
Qed.

(** A 16-digit decimal equal to [u · 10^-s], with [u] too long, makes [u] a
    multiple of ten. *)
Lemma long_mantissa_strips c u s :
  digits (Z.abs (mantissa c)) <= DECIMAL64_DIGITS → 0 < u →
  (value c == value (mk_decimal u s))%Q → divisible_by_10 u = false → digits u <= DECIMAL64_DIGITS.
Proof.
  intros Hc Hu E Hd. apply digits_le_16 in Hc; [|lia]. apply digits_le_16; [lia|].
  destruct c as [cm cs]. simpl in Hc.
  destruct (Z.le_gt_cases s cs) as [Hs|Hs].
  - rewrite (value_mk_units u s cs Hs) in E. unfold value in E. simpl in E.
    apply Qmult_inj_r in E; [|pose proof (T_pos (- cs)); lra].
    apply inject_inj in E. pose proof (Z.pow_pos_nonneg 10 (cs - s) ltac:(lia) ltac:(lia)).
    assert (u <= u * 10 ^ (cs - s)) by (apply Z.le_mul_diag_r; lia). lia.
  - rewrite (value_mk_units cm cs s) in E by lia. unfold value in E. simpl in E.
    apply Qmult_inj_r in E; [|pose proof (T_pos (- s)); lra].
    apply inject_inj in E. unfold divisible_by_10 in Hd.
    replace (s - cs) with (Z.succ (s - cs - 1)) in E by lia. rewrite Z.pow_succ_r in E by lia.
    apply Z.eqb_neq in Hd. destruct Hd. subst u. apply Z.mod_divide; [done|].
    exists (cm * 10 ^ (s - cs - 1)). lia.
Qed.

(** Where the exact quotient's scale ends up: at the preferred one, above it
    with nothing left to strip, or below it because the mantissa is full. *)
Definition scale_settled (preferred : Z) (r : BigDecimal) : Prop :=
  scale r = preferred ∨
  (preferred < scale r ∧ mantissa r mod 10 ≠ 0) ∨
  10 ^ 16 <= Z.abs (mantissa r) * 10.

Lemma div_terminating_scale na p2 p5 preferred (negative : bool) c :
  0 < na → 0 <= p2 → 0 <= p5 → digits (Z.abs (mantissa c)) <= DECIMAL64_DIGITS →
  (value c == quotient na (2 ^ p2 * 5 ^ p5) preferred)%Q →
  scale_settled preferred (div_terminating na p2 p5 preferred negative).
Proof.
  intros Hna Hp2 Hp5 Hc Ec.
  destruct (div_terminating_loops na p2 p5 preferred negative)
    as (u & s & Hu & Hv & -> & Hstop & Hscale); [done..|].
  fold (quotient na (2 ^ p2 * 5 ^ p5) preferred) in Hv. rewrite <- Hv in Ec.
  assert (Hfit : digits u <= DECIMAL64_DIGITS).
  { destruct Hstop as [|Hd]; [done|]. by apply (long_mantissa_strips c u s). }
  unfold round_mantissa. destruct (Z.leb_spec (digits u) DECIMAL64_DIGITS); [|lia].
  unfold scale_settled, signed. simpl.
  destruct Hscale as [->|[[Hs Hd]|Hfull]]; [by left|right; left|right; right].
  - split; [done|]. unfold divisible_by_10 in Hd. zbool.
    destruct negative; [rewrite Z.mod_opp_l_nz by done|done].
    pose proof (Z.mod_pos_bound u 10 ltac:(lia)). lia.
  - destruct negative; lia.
Qed.

Lemma quotient_decimal c na nb preferred :
  0 < nb → (value c == quotient na nb preferred)%Q →
  ∃ e d, 0 <= e ∧ 0 <= d ∧ na * 10 ^ e = mantissa c * nb * 10 ^ d.
Proof.
  intros Hnb E. set (z := scale c - preferred).
  exists (Z.max 0 z), (Z.max 0 (- z)). split; [lia|]. split; [lia|].
  apply inject_inj. rewrite !inject_Z_mult, !T_inject by lia.
  unfold value, quotient in E.
  assert (E' : (inject_Z na == inject_Z (mantissa c) * inject_Z nb * (10 # 1) ^ (- z))%Q).
  { assert (En : (inject_Z na == (inject_Z na / inject_Z nb * (10 # 1) ^ (- preferred))
      * inject_Z nb * (10 # 1) ^ preferred)%Q).
    { rewrite (Qpower_opp _ preferred). field. pose proof (inject_nonzero nb Hnb).
      pose proof (T_pos preferred). repeat split; try done; intros ?; lra. }
    rewrite En, <- E. replace (- z) with (- scale c + preferred) by lia. rewrite T_plus. ring. }
  rewrite E'. replace (Z.max 0 (- z)) with (- z + Z.max 0 z) by lia. rewrite T_plus. ring.
Qed.

Lemma quotient_abs_decimal x q (negative : bool) :
  (value x == if negative then - q else q)%Q →
  ∃ c, digits (Z.abs (mantissa c)) = digits (Z.abs (mantissa x)) ∧ (value c == q)%Q.
Proof.
  destruct x as [m s], negative; intros E; [|by exists (mk_decimal m s)].
  exists (mk_decimal (- m) s). simpl. rewrite Z.abs_opp, value_opp, E. split; [done|ring].
Qed.

(** ** The crate's operators, concretely

    Aligning the two scales gives operators with the interface's laws. *)

Definition align (x : BigDecimal) (s : Z) : Z := mantissa x * 10 ^ (s - scale x).

Lemma align_value x s : scale x <= s → (value (mk_decimal (align x s) s) == value x)%Q.
Proof. intros. apply value_shift; [done|]. reflexivity. Qed.

Lemma value_plus m n s :
  (value (mk_decimal (m + n) s) == value (mk_decimal m s) + value (mk_decimal n s))%Q.
Proof. unfold value. simpl. rewrite inject_Z_plus. ring. Qed.

#[export, refine] Instance aligned_ops : BigDecimalOps := {|
  bd_add a b := let s := Z.max (scale a) (scale b) in mk_decimal (align a s + align b s) s;
  bd_sub a b := let s := Z.max (scale a) (scale b) in mk_decimal (align a s + - align b s) s;
  bd_mul a b := mk_decimal (mantissa a * mantissa b) (scale a + scale b)
|}.
Proof.
  - intros a b. cbv zeta. rewrite value_plus, !align_value by lia. reflexivity.
  - intros a b. cbv zeta. rewrite value_plus, value_opp, !align_value by lia. reflexivity.
  - intros a b. unfold value. simpl. rewrite inject_Z_mult, Z.opp_add_distr, T_plus. ring.
Defined.

(** ** Properties *)



(** An exact quotient keeps the preferred scale.  When the quotient is a
    decimal of at most 16 digits, [div] returns it exactly, at scale
    [scale a - scale b]; above that scale only while the mantissa has no trailing
    zero to strip, below it only when the mantissa would otherwise exceed 16
    digits. *)
Theorem div_exact_preferred_scale (a b c : BigDecimal) :
  mantissa a ≠ 0 → mantissa b ≠ 0 →
  digits (Z.abs (mantissa c)) <= DECIMAL64_DIGITS → (value c == value a / value b)%Q →
  (value (div a b) == value a / value b)%Q ∧ scale_settled (scale a - scale b) (div a b).
Proof.
  intros Ha Hb Hc Ec. split; [exact (rounds_to_exact _ _ c (div_rounds a b Hb) Hc Ec)|].
  unfold div. destruct (Z.eqb_spec (mantissa a) 0); [done|].
  fold (reduced (mantissa a) (gcd (Z.abs (mantissa a)) (Z.abs (mantissa b)))).
  fold (reduced (mantissa b) (gcd (Z.abs (mantissa a)) (Z.abs (mantissa b)))).
  destruct (reduced_pair (mantissa a) (mantissa b) Ha Hb) as (Hna & Hnb & Hgcd & Hg & E1 & E2).
  set (g := gcd _ _) in *.
  set (na := reduced (mantissa a) g) in *. set (nb := reduced (mantissa b) g) in *.
  rewrite (div_sign a b _ (value_quotient a b na nb g Hg Hnb E1 E2)) in Ec.
  destruct (quotient_abs_decimal _ _ _ Ec) as (c' & Hc' & Ec').
  pose proof (strip_2_5_spec nb Hnb) as Hs. destruct (strip_2_5 nb) as [[p2 p5] rest].
  destruct Hs as (Hp2 & Hp5 & Enb & Hr & Hr2 & Hr5).
  destruct (quotient_decimal c' na nb _ Hnb Ec') as (e & d & He & Hd & Eq).
  assert (rest = 1) as ->.
  { apply (decimal_denominator na nb (mantissa c') e rest d); try done. rewrite Enb. apply Z.divide_factor_r. }
  simpl. apply (div_terminating_scale _ _ _ _ _ c'); [done..|by rewrite Hc'|].
  by rewrite Enb, Z.mul_1_r in Ec'.
Qed.

Lemma div_exact_preferred_scale_witness :
  (value (div (mk_decimal 1000 1) (mk_decimal 4 0)) == value (mk_decimal 1000 1) / value (mk_decimal 4 0))%Q.
Proof.
  apply (div_exact_preferred_scale (mk_decimal 1000 1) (mk_decimal 4 0) (mk_decimal 250 1));
    [discriminate|discriminate|vm_compute; discriminate|vm_compute; reflexivity].
Defined.
