(* ===== verification/FeelValue.v ===== *)
(** * FEEL values and process variables
    ([sutra-feel/src/ast.rs], [sutra-feel/src/value.rs],
     [sutra-executor/src/variables.rs])

    The expression tree and the run-time values are one mutual inductive, as a
    function value holds its body and its captured context and a literal holds a
    value.  A [BTreeMap] is the list of its entries in key order; a process
    variable map is the list of its entries in insertion order.  An [Invocable]
    is its id (its equality in the source): the closure is the caller's.

    The theorems: type-shape coercion is idempotent and unwraps at most one list
    level; the variable map refines a finite map and keeps its keys distinct and
    their order. *)
From Stdlib Require Import ZArith Lia Bool Ascii String.
From stdpp Require Import base list option gmap strings stringmap.
From S2P Require Import Prelude Decimal.

Open Scope string_scope.
Open Scope list_scope.
Open Scope Z_scope.

(** ** Expressions and values *)

Inductive CompareOp : Type := Eq_ | Neq | Lt_ | Le_ | Gt_ | Ge_.
Inductive LogicalOp : Type := And_ | Or_.
Inductive ArithOp : Type := Plus | Minus | Times | Div_ | Pow_.

Inductive FeelTypeShape : Type :=
| ShapeAny
| ShapeBase (name : string)
| ShapeCollection (elem : FeelTypeShape)
| ShapeRecord (components : list (string * FeelTypeShape))
| ShapeRange (elem : FeelTypeShape).

Inductive ExternalFunctionBinding : Type :=
| Java (class method_signature : string)
| Pmml (document : string) (model : option string)
| MalformedBinding (detail : string).

(** Months, respectively nanoseconds. *)
Inductive FeelDuration : Type :=
| YearsMonths (months : Z)
| DaysTime (nanos : Z).

(** A zone offset is its whole seconds. *)
Inductive TimeQualifier : Type :=
| Zulu
| Offset (seconds : Z)
| Zone (name : string).

(** [OffsetDateTime]: the instant in nanoseconds of the UTC epoch and the offset
    it is shown in. *)
Record OffsetDateTime : Type := mk_odt { unix_nanos : Z; odt_offset : Z }.

Record Date : Type := mk_date { date_year : Z; date_month : Z; date_day : Z }.

Record Time : Type := mk_time { hour : Z; minute : Z; second : Z; nanosecond : Z }.

Inductive FeelExpr : Type :=
| Literal (start end_ : Z) (v : FeelValue)
| Path (start end_ : Z) (segments : list string)
| Compare (start end_ : Z) (left : FeelExpr) (op : CompareOp) (right : FeelExpr)
| BoolOp (start end_ : Z) (left : FeelExpr) (op : LogicalOp) (right : FeelExpr)
| Not (start end_ : Z) (arg : FeelExpr)
| Negate (start end_ : Z) (arg : FeelExpr)
| Arith (start end_ : Z) (left : FeelExpr) (op : ArithOp) (right : FeelExpr)
| Call (start end_ : Z) (name : string) (args : list FeelExpr) (arg_names : list (option string))
| FunctionDef (start end_ : Z) (params : list string) (param_shapes : list FeelTypeShape)
    (external : bool) (body : FeelExpr)
| IfThenElse (start end_ : Z) (cond then_ otherwise : FeelExpr)
| ListLit (start end_ : Z) (items : list FeelExpr)
| ContextLit (start end_ : Z) (entries : list (string * FeelExpr))
| RangeLit (start end_ : Z) (from to : FeelExpr) (from_inclusive to_inclusive bracketed : bool)
| Quantifier (start end_ : Z) (every : bool) (var : string) (source condition : FeelExpr)
| For (start end_ : Z) (bindings : list (string * FeelExpr)) (body : FeelExpr)
| Filter (start end_ : Z) (source predicate : FeelExpr)
| FieldAccess (start end_ : Z) (base : FeelExpr) (field : string)
| InstanceOf (start end_ : Z) (expr : FeelExpr) (type_shape : FeelTypeShape)
| In_ (start end_ : Z) (value_ test : FeelExpr)
| Invoke (start end_ : Z) (callee : FeelExpr) (args : list FeelExpr)
    (arg_names : list (option string))
| OpenRange (start end_ : Z) (op : CompareOp) (bound : FeelExpr)
with FeelValue : Type :=
| Null
| Boolean (b : bool)
| Number (n : BigDecimal)
| Str (s : string)
| Instant (at_ : OffsetDateTime) (qualifier : option TimeQualifier)
| DateV (d : Date)
| TimeV (t : Time) (qualifier : option TimeQualifier)
| Duration (d : FeelDuration)
| List (items : list FeelValue)
| Map (entries : list (string * FeelValue))
| Function (f : FeelFunction)
| Range (r : FeelRange)
| Invocable (id : string) (params : list string) (param_shapes : list FeelTypeShape)
    (return_shape : FeelTypeShape)
with FeelFunction : Type :=
| mk_function (params : list string) (body : FeelExpr) (captured : list (string * FeelValue))
    (param_shapes : list FeelTypeShape) (return_shape : FeelTypeShape)
    (external : option ExternalFunctionBinding)
with FeelRange : Type :=
| mk_range (start end_ : FeelValue) (start_inclusive end_inclusive : bool)
    (comparison_op : option CompareOp).

Definition FeelContext : Type := list (string * FeelValue).

Definition start (e : FeelExpr) : Z :=
  match e with
  | Literal s _ _ | Path s _ _ | Compare s _ _ _ _ | BoolOp s _ _ _ _ | Not s _ _
  | Negate s _ _ | Arith s _ _ _ _ | Call s _ _ _ _ | ListLit s _ _ | ContextLit s _ _
  | RangeLit s _ _ _ _ _ _ | Quantifier s _ _ _ _ _ | For s _ _ _ | Filter s _ _ _
  | FieldAccess s _ _ _ | InstanceOf s _ _ _ | FunctionDef s _ _ _ _ _ | In_ s _ _ _
  | Invoke s _ _ _ _ | OpenRange s _ _ _ | IfThenElse s _ _ _ _ => s
  end.

Definition end_ (e : FeelExpr) : Z :=
  match e with
  | Literal _ n _ | Path _ n _ | Compare _ n _ _ _ | BoolOp _ n _ _ _ | Not _ n _
  | Negate _ n _ | Arith _ n _ _ _ | Call _ n _ _ _ | ListLit _ n _ | ContextLit _ n _
  | RangeLit _ n _ _ _ _ _ | Quantifier _ n _ _ _ _ | For _ n _ _ | Filter _ n _ _
  | FieldAccess _ n _ _ | InstanceOf _ n _ _ | FunctionDef _ n _ _ _ _ | In_ _ n _ _
  | Invoke _ n _ _ _ | OpenRange _ n _ _ | IfThenElse _ n _ _ _ => n
  end.

(** [impl PartialEq for TimeQualifier]. *)
Definition qualifier_eqb (a b : TimeQualifier) : bool :=
  match a, b with
  | Zulu, Zulu => true
  | Offset x, Offset y => x =? y
  | Zulu, Offset o | Offset o, Zulu => o =? 0
  | Zone x, Zone y => String.eqb x y
  | _, _ => false
  end.

Definition is_null (v : FeelValue) : bool := match v with Null => true | _ => false end.

Definition type_name (v : FeelValue) : string :=
  match v with
  | Null => "null" | Boolean _ => "Boolean" | Number _ => "BigDecimal" | Str _ => "String"
  | Instant _ _ => "Instant" | DateV _ => "LocalDate" | TimeV _ _ => "Time"
  | Duration _ => "Duration" | Function _ => "function" | Range _ => "range"
  | Invocable _ _ _ _ => "function" | List _ => "List" | Map _ => "Map"
  end.

(** [m.get(name)] on a [BTreeMap]. *)
Fixpoint map_get {A} (name : string) (m : list (string * A)) : option A :=
  match m with
  | [] => None
  | (k, v) :: r => if String.eqb k name then Some v else map_get name r
  end.

(** [m.insert(name, v)] on a [BTreeMap]: keys stay in order. *)
Fixpoint map_insert {A} (name : string) (v : A) (m : list (string * A)) : list (string * A) :=
  match m with
  | [] => [(name, v)]
  | (k, w) :: r =>
      match String.compare name k with
      | Eq => (k, v) :: r
      | Lt => (name, v) :: (k, w) :: r
      | Gt => (k, w) :: map_insert name v r
      end
  end.

(** ** The [time] crate

    The calls into the date-time crate, as an interface; [TimeCrateLaws] is what
    its documentation promises of them. *)

Class TimeCrate : Type := {
  midnight_utc : Date → OffsetDateTime;
  utc_offset_from_hms : Z → Z → Z → option Z;
  rfc3339_parse : string → result string OffsetDateTime;
  rfc3339_format : OffsetDateTime → option string;
  duration_display : Z → string;
  instant_max : Z
}.

(** Decimal text, of the [bigdecimal] crate. *)
Class BigDecimalText : Type := {
  bd_to_string : BigDecimal → string;
  bd_parse : string → option BigDecimal
}.

(** An offset built from hours, minutes and seconds of one sign and in range is
    their sum; the RFC 3339 rendering of a UTC instant parses back to it, has no
    surrounding space and no slash. *)
Class TimeCrateLaws (tc : TimeCrate) : Prop := {
  from_hms_exact h m s :
    Z.abs h <= 23 → Z.abs m <= 59 → Z.abs s <= 59 →
    (0 <= h ∧ 0 <= m ∧ 0 <= s) ∨ (h <= 0 ∧ m <= 0 ∧ s <= 0) →
    utc_offset_from_hms h m s = Some (h * 3600 + m * 60 + s);
  rfc3339_round_trip n s :
    rfc3339_format (mk_odt n 0) = Some s → rfc3339_parse s = Ok (mk_odt n 0);
  rfc3339_plain n s :
    rfc3339_format (mk_odt n 0) = Some s → trim s = s ∧ no_char "/" s = true ∧ s ≠ ""
}.

(** ** Coercion to a type shape *)

Definition is_date_and_time_type (name : string) : bool :=
  String.eqb name "dateTime" || String.eqb name "date and time".

Definition base_shape_matches (v : FeelValue) (name : string) : bool :=
  if String.eqb name "string" then match v with Str _ => true | _ => false end
  else if String.eqb name "number" then match v with Number _ => true | _ => false end
  else if String.eqb name "boolean" then match v with Boolean _ => true | _ => false end
  else if String.eqb name "date" then match v with DateV _ => true | _ => false end
  else if String.eqb name "time" then match v with TimeV _ _ => true | _ => false end
  else if is_date_and_time_type name then match v with Instant _ _ => true | _ => false end
  else if String.eqb name "duration" || String.eqb name "dayTimeDuration"
          || String.eqb name "yearMonthDuration"
  then match v with Duration _ => true | _ => false end
  else if String.eqb name "context" then match v with Map _ => true | _ => false end
  else true.

Fixpoint conform_to_shape (v : FeelValue) (shape : FeelTypeShape) {struct shape} : option FeelValue :=
  if is_null v then Some v
  else
    match shape with
    | ShapeAny => Some v
    | ShapeBase name =>
        if base_shape_matches v name then Some v
        else match v with
             | List [x] => if base_shape_matches x name then Some x else None
             | _ => None
             end
    | ShapeCollection elem =>
        match v with
        | List items => out ← mapM (λ it, conform_to_shape it elem) items; Some (List out)
        | other => x ← conform_to_shape other elem; Some (List [x])
        end
    | ShapeRecord components =>
        let target := match v with List [x] => x | other => other end in
        match target with
        | Map m =>
            let all_conform := (fix go (cs : list (string * FeelTypeShape)) : bool :=
              match cs with
              | [] => true
              | (name, comp_shape) :: cs =>
                  match map_get name m with
                  | Some x => is_some (conform_to_shape x comp_shape) && go cs
                  | None => false
                  end
              end) components in
            if all_conform then Some target else None
        | _ => None
        end
    | ShapeRange _ => match v with Range _ => Some v | _ => None end
    end.

Definition coerce_to_shape `{TimeCrate} (v : FeelValue) (shape : FeelTypeShape) : option FeelValue :=
  match v, shape with
  | DateV d, ShapeBase name =>
      if is_date_and_time_type name then Some (Instant (midnight_utc d) (Some Zulu))
      else conform_to_shape v shape
  | _, _ => conform_to_shape v shape
  end.

(** ** External function bindings *)

Definition classify_body_value (v : FeelValue) : ExternalFunctionBinding :=
  match v with
  | Map entries =>
      match map_get "java" entries with
      | Some (Map java) =>
          match map_get "class" java, map_get "method signature" java with
          | Some (Str class), Some (Str sig) => Java class sig
          | _, _ => MalformedBinding
              "java binding requires string-valued 'class' and 'method signature' entries"
          end
      | Some _ => MalformedBinding "'java' entry is not a context"
      | None =>
          match map_get "pmml" entries with
          | Some (Map pmml) =>
              match map_get "document" pmml with
              | Some (Str document) =>
                  Pmml document (match map_get "model" pmml with Some (Str m) => Some m | _ => None end)
              | _ => MalformedBinding "pmml binding requires a string-valued 'document' entry"
              end
          | Some _ => MalformedBinding "'pmml' entry is not a context"
          | None => MalformedBinding "body context has neither a 'java' nor a 'pmml' entry"
          end
      end
  | _ => MalformedBinding ("body evaluates to " +:+ type_name v +:+
      ", expected a context of the form {java: {class, method signature}} or {pmml: {document[, model]}}")
  end.

Definition rejection_message (b : ExternalFunctionBinding) : string :=
  let base := "external function execution is not supported by this engine" in
  match b with
  | Java class sig => base +:+ " (java class '" +:+ class +:+ "', method '" +:+ sig +:+ "')"
  | Pmml document (Some model) =>
      base +:+ " (pmml document '" +:+ document +:+ "', model '" +:+ model +:+ "')"
  | Pmml document None => base +:+ " (pmml document '" +:+ document +:+ "')"
  | MalformedBinding detail =>
      base +:+ ", and its definition is not a valid java/pmml binding: " +:+ detail
  end.

(** ** Process variables *)

Definition Variables : Type := list (string * FeelValue).

Definition var_get (name : string) (vars : Variables) : option FeelValue := map_get name vars.

Definition contains_key (name : string) (vars : Variables) : bool := is_some (var_get name vars).

(** Replaces in place or appends. *)
Fixpoint var_insert (name : string) (v : FeelValue) (vars : Variables) : Variables :=
  match vars with
  | [] => [(name, v)]
  | (k, w) :: r => if String.eqb k name then (k, v) :: r else (k, w) :: var_insert name v r
  end.

Definition var_remove (name : string) (vars : Variables) : Variables :=
  List.filter (λ e, negb (String.eqb e.1 name)) vars.

Definition var_merge (vars other : Variables) : Variables :=
  fold_left (λ acc e, var_insert e.1 e.2 acc) other vars.

Definition to_feel_context (vars : Variables) : FeelContext :=
  fold_left (λ acc e, map_insert e.1 e.2 acc) vars [].

Definition var_from_iter (entries : list (string * FeelValue)) : Variables := var_merge [] entries.

(** ** Coercion: lemmas *)

Lemma base_match_null name v : base_shape_matches v name = true → conform_to_shape v (ShapeBase name) = Some v.
Proof. intros H. simpl. destruct (is_null v); [done|]. by rewrite H. Qed.

(** What a coerced value looks like at a base type. *)
Lemma conform_base v name v' :
  conform_to_shape v (ShapeBase name) = Some v' → v' = Null ∨ base_shape_matches v' name = true.
Proof.
  simpl. destruct (is_null v) eqn:Hn.
  { destruct v; try done. intros [= <-]. by left. }
  destruct (base_shape_matches v name) eqn:Hb; [intros [= <-]; by right|].
  destruct v as [| | | | | | | |[|x [|]]| | | |]; try done.
  destruct (base_shape_matches x name) eqn:Hx; [intros [= <-]; by right|done].
Qed.

Lemma mapM_fixpoint {A} (f : A → option A) l l' :
  (∀ x y, f x = Some y → f y = Some y) → mapM f l = Some l' → mapM f l' = Some l'.
Proof.
  intros Hf H. apply mapM_Some in H. apply mapM_Some.
  induction H; constructor; eauto.
Qed.

Lemma conform_idempotent shape v v' :
  conform_to_shape v shape = Some v' → conform_to_shape v' shape = Some v'.
Proof.
  revert v v'. induction shape as [|name|elem IH|components|elem _]; intros v v' H.
  - simpl in *. destruct (is_null v); injection H as <-; by destruct (is_null v).
  - destruct (conform_base v name v' H) as [->|Hm]; [done|]. by apply base_match_null.
  - simpl in H. destruct (is_null v) eqn:Hn.
    { injection H as <-. simpl. by rewrite Hn. }
    assert (Hwrap : ∀ x, conform_to_shape v elem = Some x →
      conform_to_shape (List [x]) (ShapeCollection elem) = Some (List [x])).
    { intros x Hx. simpl. by rewrite (IH _ _ Hx). }
    destruct v; try done;
      try (destruct (conform_to_shape _ elem) as [x|] eqn:Hx; simpl in H; [|done];
           injection H as <-; by apply Hwrap).
    destruct (mapM _ items) as [out|] eqn:Hm; simpl in H; [|done]. injection H as <-. simpl.
    by rewrite (mapM_fixpoint _ _ _ IH Hm).
  - simpl in H. destruct (is_null v) eqn:Hn.
    { injection H as <-. simpl. by rewrite Hn. }
    set (target := match v with List [x] => x | other => other end) in *.
    destruct target as [| | | | | | | | |m| | |] eqn:Et; try done.
    case_if; [|done]. injection H as <-. simpl.
    by match goal with |- (if ?b then _ else _) = _ => replace b with true by done end.
  - simpl in *. destruct (is_null v) eqn:Hn.
    + injection H as <-. by rewrite Hn.
    + destruct v; try done. by injection H as <-.
Qed.

(** ** Variables: lemmas *)

Definition var_keys (vars : Variables) : list string := vars.*1.

(** The finite map a variable map stands for. *)
Definition var_map (vars : Variables) : gmap string FeelValue := list_to_map vars.

Lemma var_get_map k vars : var_get k vars = var_map vars !! k.
Proof.
  induction vars as [|[k' v] vars IH]; [done|]. unfold var_get, var_map in *. simpl.
  destruct (String.eqb_spec k' k) as [->|Hne].
  - by rewrite lookup_insert_eq.
  - by rewrite lookup_insert_ne.
Qed.

Lemma var_insert_map k v vars : var_map (var_insert k v vars) = <[k := v]> (var_map vars).
Proof.
  induction vars as [|[k' w] vars IH]; [done|]. simpl. unfold var_map in *.
  destruct (String.eqb_spec k' k) as [->|Hne]; simpl.
  - by rewrite insert_insert_eq.
  - rewrite IH. by apply insert_insert_ne.
Qed.

Lemma var_insert_keys k v vars :
  var_keys (var_insert k v vars) =
  if decide (k ∈ var_keys vars) then var_keys vars else var_keys vars ++ [k].
Proof.
  induction vars as [|[k' w] vars IH]; [done|]. simpl.
  destruct (String.eqb_spec k' k) as [->|Hne]; simpl.
  - rewrite decide_True; [done|]. by left.
  - unfold var_keys in *. rewrite IH. destruct (decide (k ∈ vars.*1)) as [Hin|Hin].
    + rewrite decide_True; [done|]. by right.
    + rewrite decide_False; [done|]. intros [->|?]%elem_of_cons; done.
Qed.

Lemma var_insert_nodup k v vars : NoDup (var_keys vars) → NoDup (var_keys (var_insert k v vars)).
Proof.
  intros Hnd. rewrite var_insert_keys. case_decide as Hin; [done|].
  apply NoDup_app. split; [done|]. split; [|apply NoDup_singleton].
  intros x Hx ->%list_elem_of_singleton. done.
Qed.

Lemma var_remove_map k vars : var_map (var_remove k vars) = delete k (var_map vars).
Proof.
  induction vars as [|[k' w] vars IH]; [symmetry; apply delete_empty|]. unfold var_map in *. simpl.
  destruct (String.eqb_spec k' k) as [->|Hne]; simpl.
  - by rewrite IH, delete_insert_eq.
  - by rewrite IH, delete_insert_ne.
Qed.

Lemma var_remove_nodup k vars : NoDup (var_keys vars) → NoDup (var_keys (var_remove k vars)).
Proof.
  unfold var_keys, var_remove. induction vars as [|[k' w] vars IH]; [done|].
  intros [Hk Hnd]%NoDup_cons. simpl. case_if; [|by apply IH]. simpl. constructor; [|by apply IH].
  intros Hin. apply Hk. apply list_elem_of_fmap in Hin as ([k2 w2] & -> & Hin). simpl.
  apply list_elem_of_fmap. exists (k2, w2). split; [done|].
  apply list_elem_of_In in Hin. apply filter_In in Hin as [Hin _]. by apply list_elem_of_In.
Qed.

Lemma var_merge_nodup vars other : NoDup (var_keys vars) → NoDup (var_keys (var_merge vars other)).
Proof.
  unfold var_merge. revert vars. induction other as [|[k v] other IH]; intros vars Hnd; [done|].
  simpl. by apply IH, var_insert_nodup.
Qed.

Lemma var_merge_map vars other :
  NoDup (var_keys other) → var_map (var_merge vars other) = var_map other ∪ var_map vars.
Proof.
  unfold var_merge. revert vars. induction other as [|[k v] other IH]; intros vars Hnd.
  { simpl. unfold var_map at 2. simpl. by rewrite (left_id_L ∅ (∪)). }
  apply NoDup_cons in Hnd as [Hk Hnd]. simpl. rewrite IH by done. rewrite var_insert_map.
  unfold var_map at 2 3. simpl. rewrite <- insert_union_l, insert_union_r; [done|].
  apply not_elem_of_list_to_map_1. exact Hk.
Qed.

Lemma map_get_lookup {A} k (m : list (string * A)) :
  map_get k m = (list_to_map m : gmap string A) !! k.
Proof.
  induction m as [|[k' v] m IH]; [done|]. simpl.
  destruct (String.eqb_spec k' k) as [->|Hne].
  - by rewrite lookup_insert_eq.
  - by rewrite lookup_insert_ne.
Qed.

Lemma map_insert_map {A} k (v : A) m :
  (list_to_map (map_insert k v m) : gmap string A) = <[k := v]> (list_to_map m).
Proof.
  induction m as [|[k' w] m IH]; [done|]. simpl.
  destruct (String.compare k k') eqn:E; simpl.
  - apply String.compare_eq_iff in E as ->. by rewrite insert_insert_eq.
  - done.
  - rewrite IH. apply insert_insert_ne. intros ->. by rewrite string_compare_refl in E.
Qed.

Lemma map_get_insert {A} k k' (v : A) m : map_get k (map_insert k' v m) = if String.eqb k' k then Some v else map_get k m.
Proof.
  rewrite !map_get_lookup, map_insert_map. destruct (String.eqb_spec k' k) as [->|Hne].
  - by rewrite lookup_insert_eq.
  - by rewrite lookup_insert_ne.
Qed.

Lemma to_feel_context_map vars :
  NoDup (var_keys vars) → (list_to_map (to_feel_context vars) : gmap string FeelValue) = var_map vars.
Proof.
  intros Hnd. unfold to_feel_context.
  assert (Hgen : ∀ acc, (list_to_map (fold_left (λ acc e, map_insert e.1 e.2 acc) vars acc)
    : gmap string FeelValue) = var_map vars ∪ list_to_map acc).
  { induction vars as [|[k v] vars IH]; intros acc.
    { simpl. unfold var_map. simpl. by rewrite (left_id_L ∅ (∪)). }
    apply NoDup_cons in Hnd as [Hk Hnd]. simpl. rewrite IH by done. rewrite map_insert_map.
    unfold var_map. simpl. rewrite <- insert_union_l, insert_union_r; [done|].
    apply not_elem_of_list_to_map_1. exact Hk. }
  rewrite Hgen. simpl. by rewrite (right_id_L ∅ (∪)).
Qed.
#[export] Hint Resolve var_insert_nodup var_remove_nodup var_merge_nodup : sutra.
#[export] Hint Rewrite var_get_map var_insert_map var_remove_map : sutra.

(** A small instance: instants print as their number of nanoseconds. *)
#[export] Instance plain_time_crate : TimeCrate := {|
  midnight_utc d := mk_odt (date_day d) 0;
  utc_offset_from_hms h m s := Some (h * 3600 + m * 60 + s);
  rfc3339_parse s := match parse_unsigned u64_max s with Some n => Ok (mk_odt n 0) | None => Err s end;
  rfc3339_format t :=
    if (0 <=? unix_nanos t) && (unix_nanos t <=? u64_max) then Some (dec_string (unix_nanos t)) else None;
  duration_display d := dec_string d;
  instant_max := u64_max |}.

Lemma digits_no_space s : string_all is_ascii_digit s = true → trim s = s.
Proof.
  assert (Hns : ∀ c, is_ascii_digit c = true → is_whitespace c = false).
  { intros c. unfold is_ascii_digit, is_whitespace. lia. }
  intros H. unfold trim. destruct s as [|c s]; [done|]. simpl in H.
  apply andb_true_iff in H as [Hc Hs]. simpl. rewrite (Hns c Hc).
  assert (Hend : trim_end s = s).
  { clear Hc c. induction s as [|c s IH]; [done|]. simpl in *. apply andb_true_iff in Hs as [Hc Hs].
    rewrite (IH Hs), (Hns c Hc). by destruct s. }
  simpl. rewrite Hend, (Hns c Hc). by destruct s.
Qed.

#[export] Instance plain_time_crate_laws : TimeCrateLaws plain_time_crate.
Proof.
  split; simpl.
  - done.
  - intros n s. case_if; [|done]. intros [= <-]. by rewrite parse_unsigned_dec_string by lia.
  - intros n s. case_if; [|done]. intros [= <-].
    destruct (dec_string_numeral n) as [Hd _ _ _ Hne]; [lia|].
    split; [by apply digits_no_space|]. split; [by apply no_char_digits|].
    intros E. rewrite E in Hne. simpl in Hne. lia.
Qed.

(** ** Properties *)

(** Coercion to a declared FEEL type is idempotent and type-correct.  A value
    [coerce_to_shape] returns is its own coercion, so coercing at a call boundary
    and again inside changes nothing; at a base type it is null or a value of that
    type. *)
Theorem coerce_to_shape_idempotent `{TimeCrate} (v v' : FeelValue) (shape : FeelTypeShape) :
  coerce_to_shape v shape = Some v' →
  coerce_to_shape v' shape = Some v' ∧
  (∀ name, shape = ShapeBase name → v' = Null ∨ base_shape_matches v' name = true).
Proof.
  intros Hc.
  assert (Hconf : conform_to_shape v' shape = Some v').
  { destruct v; try exact (conform_idempotent _ _ _ Hc).
    destruct shape; try exact (conform_idempotent _ _ _ Hc). simpl in Hc.
    destruct (is_date_and_time_type name) eqn:Hd; [|by apply (conform_idempotent _ (DateV d))].
    injection Hc as <-. apply base_match_null. unfold base_shape_matches.
    apply orb_true_iff in Hd as [->%String.eqb_eq | ->%String.eqb_eq]; done. }
  assert (Hty : ∀ name, shape = ShapeBase name → v' = Null ∨ base_shape_matches v' name = true).
  { intros name ->. by apply (conform_base v'). }
  split; [|done]. destruct v'; try exact Hconf. destruct shape; try exact Hconf. simpl.
  destruct (is_date_and_time_type name) eqn:Hd; [|exact Hconf].
  destruct (Hty name eq_refl) as [|Hm]; [done|]. unfold base_shape_matches in Hm.
  apply orb_true_iff in Hd as [->%String.eqb_eq | ->%String.eqb_eq]; done.
Qed.

Lemma coerce_to_shape_idempotent_witness :
  coerce_to_shape (List [Number (mk_decimal 10 0)]) (ShapeBase "number") = Some (Number (mk_decimal 10 0)) ∧
  coerce_to_shape (Number (mk_decimal 10 0)) (ShapeBase "number") = Some (Number (mk_decimal 10 0)) ∧
  coerce_to_shape (List [List [Number (mk_decimal 10 0)]]) (ShapeBase "number") = None.
Proof.
  split; [reflexivity|]. split; [|reflexivity].
  apply (coerce_to_shape_idempotent (List [Number (mk_decimal 10 0)])). reflexivity.
Defined.

(** The process variable map is an insertion-ordered finite map.  On a map
    with distinct keys, [insert], [remove] and [merge] keep the keys distinct and
    act as insertion, deletion and right-biased union of the finite map; [get] and
    the FEEL context snapshot read that map; and an insertion keeps the position
    of an existing key and appends a new one. *)
Theorem variables_refine_finite_map (vars other : Variables) (k : string) (v : FeelValue) :
  NoDup (var_keys vars) → NoDup (var_keys other) →
  var_get k vars = var_map vars !! k ∧
  map_get k (to_feel_context vars) = var_get k vars ∧
  (NoDup (var_keys (var_insert k v vars)) ∧ var_map (var_insert k v vars) = <[k := v]> (var_map vars)) ∧
  (NoDup (var_keys (var_remove k vars)) ∧ var_map (var_remove k vars) = delete k (var_map vars)) ∧
  (NoDup (var_keys (var_merge vars other)) ∧ var_map (var_merge vars other) = var_map other ∪ var_map vars) ∧
  var_keys (var_insert k v vars) =
    (if decide (k ∈ var_keys vars) then var_keys vars else var_keys vars ++ [k]).
Proof.
  intros Hv Ho. rewrite map_get_lookup, to_feel_context_map by done. autorewrite with sutra.
  rewrite var_merge_map, var_insert_keys by done.
  assert (Hk := var_insert_nodup k v vars Hv). rewrite var_insert_keys in Hk.
  repeat split; auto with sutra.
Qed.

Lemma variables_refine_finite_map_witness :
  var_keys (var_insert "a" Null [("a", Boolean true); ("b", Null)]) = ["a"; "b"] ∧
  var_keys (var_insert "c" Null [("a", Boolean true); ("b", Null)]) = ["a"; "b"; "c"].
Proof.
  split; apply (variables_refine_finite_map [("a", Boolean true); ("b", Null)] []);
    vm_compute; repeat constructor; set_solver.
Defined.
