(* ===== verification/Temporal.v ===== *)
(** * FEEL durations and zone offsets ([sutra-feel/src/temporal.rs])

    The ISO-8601 duration parser and printer, and the numeric zone offset parser
    and printer.  Machine arithmetic on [i64] wraps, as in the release profile.
    Dates, clock times and instants are read in [TemporalParse].

    The theorems: printing a duration and parsing it back gives the duration (a
    days-and-time one without its sub-second part), and the same for every offset
    in FEEL's ±14:00 range. *)
From Stdlib Require Import ZArith Lia Bool Ascii String.
From stdpp Require Import base list option strings.
From S2P Require Import Prelude Decimal FeelValue.

Open Scope string_scope.
Open Scope list_scope.
Open Scope Z_scope.

(** ** Definitions *)

Definition wrap64 (x : Z) : Z := (x + 9223372036854775808) mod 18446744073709551616 - 9223372036854775808.

Definition sign (neg : bool) (v : Z) : Z := if neg then wrap64 (- v) else v.

(** The text before the first [.] ([num.split('.').next()]). *)
Definition int_part (num : string) : string :=
  match split_char "." num with p :: _ => p | [] => "" end.

Fixpoint iso_pairs_loop (s num : string) (out : list (Z * ascii)) : option (list (Z * ascii)) :=
  match s with
  | EmptyString => if str_is_empty num then Some out else None
  | String c r =>
      if is_ascii_digit c || Ascii.eqb c "." then iso_pairs_loop r (num +:+ String c "") out
      else if is_ascii_alphabetic c then
        if str_is_empty num then None
        else
          n ← (if str_is_empty (int_part num) then Some 0 else parse_unsigned i64_max (int_part num));
          iso_pairs_loop r "" (out ++ [(n, c)])
      else None
  end.

Definition iso_pairs (s : string) : option (list (Z * ascii)) := iso_pairs_loop s "" [].

(** [years], [months], [days], [has_ym], [has_day]. *)
Record DateAcc : Type := mk_date_acc {
  da_years : Z; da_months : Z; da_days : Z; da_has_ym : bool; da_has_day : bool }.

Definition date_pair (acc : DateAcc) (p : Z * ascii) : option DateAcc :=
  let '(num, unit) := p in
  let 'mk_date_acc years months days has_ym has_day := acc in
  if Ascii.eqb unit "Y" then Some (mk_date_acc num months days true has_day)
  else if Ascii.eqb unit "M" then Some (mk_date_acc years num days true has_day)
  else if Ascii.eqb unit "W" then Some (mk_date_acc years months (wrap64 (days + wrap64 (num * 7))) has_ym true)
  else if Ascii.eqb unit "D" then Some (mk_date_acc years months (wrap64 (days + num)) has_ym true)
  else None.

(** [hours], [mins], [secs], [has_time]. *)
Record TimeAcc : Type := mk_time_acc { ta_hours : Z; ta_mins : Z; ta_secs : Z; ta_has_time : bool }.

Definition time_pair (acc : TimeAcc) (p : Z * ascii) : option TimeAcc :=
  let '(num, unit) := p in
  let 'mk_time_acc hours mins secs _ := acc in
  if Ascii.eqb unit "H" then Some (mk_time_acc num mins secs true)
  else if Ascii.eqb unit "M" then Some (mk_time_acc hours num secs true)
  else if Ascii.eqb unit "S" then Some (mk_time_acc hours mins num true)
  else None.

Fixpoint fold_pairs {A} (f : A → Z * ascii → option A) (acc : A) (l : list (Z * ascii)) : option A :=
  match l with [] => Some acc | p :: l => acc' ← f acc p; fold_pairs f acc' l end.

Definition NANOS : Z := 1000000000.

(** The duration of the components read from the two parts. *)
Definition duration_of_parts (neg : bool) (date_part time_part : string) : option FeelDuration :=
  date_pairs ← iso_pairs date_part;
  time_pairs ← iso_pairs time_part;
  match date_pairs, time_pairs with
  | [], [] => None
  | _, _ =>
      d ← fold_pairs date_pair (mk_date_acc 0 0 0 false false) date_pairs;
      t ← fold_pairs time_pair (mk_time_acc 0 0 0 false) time_pairs;
      if da_has_ym d && negb (da_has_day d) && negb (ta_has_time t) then
        let total := wrap64 (wrap64 (da_years d * 12) + da_months d) in
        Some (YearsMonths (as_i32 (sign neg total)))
      else
        let total := wrap64 (wrap64 (wrap64 (wrap64 (da_days d * 86400) + wrap64 (ta_hours t * 3600))
                              + wrap64 (ta_mins t * 60)) + ta_secs t) in
        Some (DaysTime (sign neg total * NANOS))
  end.

Definition parse_duration (s : string) : option FeelDuration :=
  let '(neg, body) := match strip_prefix "-" s with Some r => (true, r) | None => (false, s) end in
  body ← strip_prefix "P" body;
  match split_once "T" body with
  | Some (d, t) => duration_of_parts neg d t
  | None => duration_of_parts neg body ""
  end.

Definition when (b : bool) (s : string) : string := if b then s else "".

Definition format_duration (d : FeelDuration) : string :=
  match d with
  | YearsMonths months =>
      let m := Z.abs months in
      when (months <? 0) "-" +:+ "P"
        +:+ when (0 <? m / 12) (dec_string (m / 12) +:+ "Y")
        +:+ when ((0 <? m mod 12) || (m =? 0)) (dec_string (m mod 12) +:+ "M")
  | DaysTime nanos =>
      let secs := Z.abs (Z.quot nanos NANOS) in
      let days := secs / 86400 in
      let h := secs mod 86400 / 3600 in
      let mi := secs mod 3600 / 60 in
      let se := secs mod 60 in
      when (nanos <? 0) "-" +:+ "P"
        +:+ when (0 <? days) (dec_string days +:+ "D")
        +:+ when ((0 <? h) || (0 <? mi) || (0 <? se) || (days =? 0))
              ("T" +:+ when (0 <? h) (dec_string h +:+ "H")
                   +:+ when (0 <? mi) (dec_string mi +:+ "M")
                   +:+ when ((0 <? se) || ((h =? 0) && (mi =? 0))) (dec_string se +:+ "S"))
  end.

(** [{:02}] of a number below 100. *)
Definition two_digits (n : Z) : string := String (digit_char (n / 10)) (String (digit_char (n mod 10)) "").

Definition format_offset (total : Z) : string :=
  let abs := Z.abs total in
  let h := abs / 3600 in
  let m := abs mod 3600 / 60 in
  let sec := abs mod 60 in
  (if total <? 0 then "-" else "+") +:+ two_digits h +:+ ":" +:+ two_digits m
    +:+ when (0 <? sec) (":" +:+ two_digits sec).

Definition two_digit (s : string) : option Z :=
  if (String.length s =? 2)%nat && string_all is_ascii_digit s then parse_unsigned 255 s else None.

Definition parse_numeric_offset `{TimeCrate} (s : string) : option Z :=
  let signed := match strip_prefix "-" s with
                | Some r => Some (true, r)
                | None => r ← strip_prefix "+" s; Some (false, r)
                end in
  '(neg, rest) ← signed;
  match split_char ":" rest with
  | h :: m :: more =>
      h ← two_digit h;
      m ← two_digit m;
      sec ← (match more with s :: _ => two_digit s | [] => Some 0 end);
      if (1 <? length more)%nat then None
      else if 14 * 3600 <? h * 3600 + m * 60 + sec then None
      else let sg := if (neg : bool) then -1 else 1 in utc_offset_from_hms (sg * h) (sg * m) (sg * sec)
  | _ => None
  end.

(** Sub-second suffix: nine digits, trailing zeros trimmed. *)
Fixpoint trim_end_zeros (s : string) : string :=
  match s with
  | EmptyString => EmptyString
  | String c r =>
      match trim_end_zeros r with
      | EmptyString => if Ascii.eqb c "0" then EmptyString else String c EmptyString
      | r' => String c r'
      end
  end.

Fixpoint repeat_zero (n : nat) : string := match n with O => "" | S n => String "0" (repeat_zero n) end.

(** [{n:0w}]. *)
Definition pad_left (w : nat) (n : Z) : string :=
  let s := dec_string n in repeat_zero (w - String.length s) +:+ s.

Definition format_subsecond (nanos : Z) : string :=
  if nanos =? 0 then "" else "." +:+ trim_end_zeros (pad_left 9 nanos).

Definition format_qualifier (q : option TimeQualifier) : string :=
  match q with
  | None => ""
  | Some Zulu => "Z"
  | Some (Offset o) => format_offset o
  | Some (Zone name) => "@" +:+ name
  end.

Definition format_time (t : Time) (q : option TimeQualifier) : string :=
  two_digits (hour t) +:+ ":" +:+ two_digits (minute t) +:+ ":" +:+ two_digits (second t)
    +:+ format_subsecond (nanosecond t) +:+ format_qualifier q.

Example duration_examples :
  parse_duration "P1Y2M" = Some (YearsMonths 14) ∧
  parse_duration "-P1DT2H" = Some (DaysTime (-93600 * NANOS)) ∧
  parse_duration "P0Y" = Some (YearsMonths 0) ∧
  parse_duration "PT0.000S" = Some (DaysTime 0) ∧
  parse_duration "P" = None ∧
  format_duration (DaysTime (90061 * NANOS)) = "P1DT1H1M1S" ∧
  format_duration (YearsMonths (-14)) = "-P1Y2M" ∧
  format_offset (-19800) = "-05:30" ∧ format_subsecond 120000000 = ".12".
Proof. vm_compute. repeat split. Qed.

(** ** Lemmas: scanning a printed duration *)

(** One printed component, read back. *)
Lemma iso_pairs_digits ds r num out :
  string_all is_ascii_digit ds = true →
  iso_pairs_loop (ds +:+ r) num out = iso_pairs_loop r (num +:+ ds) out.
Proof.
  revert num. induction ds as [|c ds IH]; intros num H; [by rewrite string_app_nil_r|].
  simpl in H. apply andb_true_iff in H as [Hc Hds]. simpl. rewrite Hc. simpl.
  rewrite IH, string_app_assoc by done. done.
Qed.

Lemma iso_pairs_component n u r out :
  0 <= n <= i64_max → is_ascii_alphabetic u = true → is_ascii_digit u = false → Ascii.eqb u "." = false →
  iso_pairs_loop (dec_string n +:+ String u r) "" out = iso_pairs_loop r "" (out ++ [(n, u)]).
Proof.
  intros Hn Hu Hd Hdot. destruct (dec_string_numeral n) as [Hdig _ _ _ Hne]; [lia|].
  rewrite iso_pairs_digits by done. simpl. rewrite Hd, Hdot, Hu. simpl.
  assert (Hne' := str_is_empty_length _ Hne). rewrite Hne'.
  assert (Hip : int_part (dec_string n) = dec_string n).
  { unfold int_part. rewrite split_char_none; [done|]. by apply no_char_digits. }
  rewrite Hip, Hne', parse_unsigned_dec_string by lia. done.
Qed.

Lemma iso_pairs_when b n u r out :
  0 <= n <= i64_max → is_ascii_alphabetic u = true → is_ascii_digit u = false → Ascii.eqb u "." = false →
  iso_pairs_loop (when b (dec_string n +:+ String u "") +:+ r) "" out =
  iso_pairs_loop r "" (if b then out ++ [(n, u)] else out).
Proof.
  intros. destruct b; simpl; [|done]. rewrite string_app_assoc. simpl. by apply iso_pairs_component.
Qed.

Lemma no_T_when b n u : 0 <= n → Ascii.eqb "T" u = false → no_char "T" (when b (dec_string n +:+ String u "")) = true.
Proof.
  intros Hn Hu. destruct b; [|done]. simpl. rewrite no_char_app.
  destruct (dec_string_numeral n) as [Hdig _ _ _ _]; [done|].
  rewrite no_char_digits by done. unfold no_char. cbn [string_all]. by rewrite Hu.
Qed.

Lemma wrap64_id x : - (i64_max + 1) <= x <= i64_max → wrap64 x = x.
Proof. unfold wrap64, i64_max. intros. rewrite Z.mod_small by lia. lia. Qed.

Lemma sign_neg neg v : 0 <= v <= i64_max → sign neg v = if neg then - v else v.
Proof. intros. unfold sign. destruct neg; [|done]. apply wrap64_id. unfold i64_max in *. lia. Qed.

Lemma as_i32_id x : - (i32_max + 1) <= x <= i32_max → as_i32 x = x.
Proof. unfold as_i32, i32_max. intros. rewrite Z.mod_small by lia. lia. Qed.

Lemma parse_signed_body (neg : bool) r :
  parse_duration (when neg "-" +:+ "P" +:+ r) =
  match split_once "T" r with
  | Some (d, t) => duration_of_parts neg d t
  | None => duration_of_parts neg r ""
  end.
Proof. by destruct neg. Qed.

Ltac in_i64 := unfold i64_max, i32_max in *; lia.

Lemma parse_years_months (neg : bool) y m :
  0 <= y → 0 <= m < 12 → y * 12 + m <= i32_max + 1 →
  parse_duration (when neg "-" +:+ "P" +:+ when (0 <? y) (dec_string y +:+ "Y")
                   +:+ when ((0 <? m) || (y * 12 + m =? 0)) (dec_string m +:+ "M"))
  = Some (YearsMonths (as_i32 (if neg then - (y * 12 + m) else y * 12 + m))).
Proof.
  intros Hy Hm Hmax. rewrite parse_signed_body, split_once_none.
  2:{ rewrite no_char_app, !no_T_when by (done || lia). done. }
  unfold duration_of_parts, iso_pairs. rewrite <- (string_app_nil_r (when (_ || _) _)).
  rewrite !iso_pairs_when by (done || in_i64).
  destruct (Z.ltb_spec 0 y), (Z.ltb_spec 0 m), (Z.eqb_spec (y * 12 + m) 0); try lia;
    cbn -[Z.mul Z.add Z.opp]; rewrite !(wrap64_id (_ * 12)), !wrap64_id, !sign_neg by in_i64;
    do 3 f_equal; try (destruct neg; lia).
Qed.

Lemma clock_total d h m s :
  0 <= d → 0 <= h → 0 <= m → 0 <= s → d * 86400 + h * 3600 + m * 60 + s <= i64_max →
  wrap64 (wrap64 (wrap64 (wrap64 (d * 86400) + wrap64 (h * 3600)) + wrap64 (m * 60)) + s)
  = d * 86400 + h * 3600 + m * 60 + s.
Proof.
  intros. rewrite (wrap64_id (d * _)), (wrap64_id (h * _)), (wrap64_id (m * _)) by in_i64.
  rewrite (wrap64_id (_ + h * _)), (wrap64_id (_ + m * _)), wrap64_id by in_i64. done.
Qed.

Lemma split_time_part date time :
  no_char "T" date = true →
  split_once "T" (date +:+ "T" +:+ time) = Some (date, time).
Proof. intros. by apply split_once_app. Qed.

Lemma duration_of_days_time (neg : bool) days h mi se :
  0 <= days → 0 <= h < 24 → 0 <= mi < 60 → 0 <= se < 60 →
  days * 86400 + h * 3600 + mi * 60 + se <= i64_max →
  duration_of_parts neg (when (0 <? days) (dec_string days +:+ "D"))
    (when (0 <? h) (dec_string h +:+ "H") +:+ when (0 <? mi) (dec_string mi +:+ "M")
       +:+ when ((0 <? se) || ((h =? 0) && (mi =? 0))) (dec_string se +:+ "S"))
  = Some (DaysTime ((if neg then - (days * 86400 + h * 3600 + mi * 60 + se)
                     else days * 86400 + h * 3600 + mi * 60 + se) * NANOS)).
Proof.
  intros Hd Hh Hmi Hse Hmax. unfold duration_of_parts, iso_pairs.
  rewrite <- (string_app_nil_r (when (0 <? days) _)).
  rewrite <- (string_app_nil_r (when ((0 <? se) || _) _)).
  rewrite !iso_pairs_when by (done || in_i64).
  destruct (Z.ltb_spec 0 days), (Z.ltb_spec 0 h), (Z.ltb_spec 0 mi), (Z.ltb_spec 0 se),
    (Z.eqb_spec h 0), (Z.eqb_spec mi 0); try lia;
    cbn -[Z.mul Z.add Z.opp];
    rewrite ?(wrap64_id (0 + days)), clock_total, sign_neg by in_i64;
    do 2 f_equal; unfold NANOS; destruct neg; lia.
Qed.

Lemma duration_of_days_only (neg : bool) days :
  0 < days → days * 86400 <= i64_max →
  duration_of_parts neg (dec_string days +:+ "D") "" =
  Some (DaysTime ((if neg then - (days * 86400) else days * 86400) * NANOS)).
Proof.
  intros Hd Hmax. unfold duration_of_parts, iso_pairs.
  rewrite iso_pairs_component by (done || in_i64). cbn -[Z.mul Z.add Z.opp].
  rewrite (wrap64_id (0 + days)), clock_total, sign_neg by in_i64.
  do 2 f_equal. unfold NANOS. destruct neg; lia.
Qed.

Lemma clock_split secs :
  0 <= secs →
  secs / 86400 * 86400 + secs mod 86400 / 3600 * 3600 + secs mod 3600 / 60 * 60 + secs mod 60 = secs ∧
  0 <= secs / 86400 ∧ 0 <= secs mod 86400 / 3600 < 24 ∧ 0 <= secs mod 3600 / 60 < 60 ∧ 0 <= secs mod 60 < 60.
Proof. intros. Z.div_mod_to_equations. lia. Qed.

Lemma parse_days_time (neg : bool) secs :
  0 <= secs <= i64_max →
  let days := secs / 86400 in let h := secs mod 86400 / 3600 in
  let mi := secs mod 3600 / 60 in let se := secs mod 60 in
  parse_duration (when neg "-" +:+ "P" +:+ when (0 <? days) (dec_string days +:+ "D")
    +:+ when ((0 <? h) || (0 <? mi) || (0 <? se) || (days =? 0))
          ("T" +:+ when (0 <? h) (dec_string h +:+ "H") +:+ when (0 <? mi) (dec_string mi +:+ "M")
               +:+ when ((0 <? se) || ((h =? 0) && (mi =? 0))) (dec_string se +:+ "S")))
  = Some (DaysTime ((if neg then - secs else secs) * NANOS)).
Proof.
  intros Hs days h mi se. destruct (clock_split secs) as (E & Hd & Hh & Hmi & Hse); [lia|].
  fold days h mi se in E, Hd, Hh, Hmi, Hse. rewrite parse_signed_body.
  destruct ((0 <? h) || (0 <? mi) || (0 <? se) || (days =? 0)) eqn:Ht.
  - change (when true ?x) with x. rewrite split_time_part by (apply no_T_when; done || lia).
    rewrite duration_of_days_time, E by lia. done.
  - apply orb_false_iff in Ht as [[[? ?]%orb_false_iff ?]%orb_false_iff ?]. zbool.
    change (when false ?x) with "". rewrite string_app_nil_r.
    rewrite split_once_none by (apply no_T_when; done || lia).
    destruct (Z.ltb_spec 0 days); [|lia]. change (when true ?x) with x.
    rewrite duration_of_days_only by lia. do 2 f_equal. unfold NANOS. destruct neg; lia.
Qed.

(** ** Lemmas: offsets *)

Lemma two_digits_no_colon n r : 0 <= n < 100 →
  split_char ":" (two_digits n +:+ String ":" r) = two_digits n :: split_char ":" r.
Proof.
  intros. unfold two_digits.
  assert (Hc : ∀ d, 0 <= d < 10 → Ascii.eqb ":" (digit_char d) = false).
  { intros d Hd. apply Ascii.eqb_neq. intros E. apply (f_equal ascii_Z) in E.
    rewrite digit_char_Z in E by done. change (ascii_Z ":") with 58 in E. lia. }
  simpl append. cbn [split_char]. rewrite !Hc by (Z.div_mod_to_equations; lia).
  by rewrite (Ascii.eqb_refl ":").
Qed.

Lemma two_digits_alone n : 0 <= n < 100 → split_char ":" (two_digits n) = [two_digits n].
Proof.
  intros. apply split_char_none, no_char_digits; [done|]. unfold two_digits. cbn [string_all].
  rewrite !digit_char_is_digit by (Z.div_mod_to_equations; lia). done.
Qed.

Lemma two_digit_print n : 0 <= n < 100 → two_digit (two_digits n) = Some n.
Proof.
  intros. unfold two_digit.
  assert (Hall : string_all is_ascii_digit (two_digits n) = true).
  { unfold two_digits. cbn [string_all].
    rewrite !digit_char_is_digit by (Z.div_mod_to_equations; lia). done. }
  rewrite Hall. simpl. unfold parse_unsigned, two_digits.
  rewrite is_ascii_digit_not_plus by (apply digit_char_is_digit; Z.div_mod_to_equations; lia).
  fold (two_digits n). rewrite Hall. cbn -[Z.mul Z.add Z.div Z.modulo].
  rewrite !digit_val_char by (Z.div_mod_to_equations; lia).
  replace ((0 * 10 + n / 10) * 10 + n mod 10) with n by (Z.div_mod_to_equations; lia).
  case_if; [done|lia].
Qed.

(** ** Properties *)

(** The values the source's machine integers can hold. *)
Definition representable (d : FeelDuration) : Prop :=
  match d with
  | YearsMonths m => - (i32_max + 1) <= m <= i32_max
  | DaysTime n => Z.abs (Z.quot n NANOS) <= i64_max
  end.

(** Without the sub-second part, which the printer drops. *)
Definition whole_seconds (d : FeelDuration) : FeelDuration :=
  match d with
  | YearsMonths m => YearsMonths m
  | DaysTime n => DaysTime (Z.quot n NANOS * NANOS)
  end.

(** Printing a FEEL duration and parsing it back. *)
Lemma duration_round_trip (d : FeelDuration) :
  representable d → parse_duration (format_duration d) = Some (whole_seconds d).
Proof.
  destruct d as [m|n]; cbn [representable format_duration whole_seconds]; intros Hr; cbv zeta.
  - replace (Z.abs m =? 0) with (Z.abs m / 12 * 12 + Z.abs m mod 12 =? 0)
      by (f_equal; Z.div_mod_to_equations; lia).
    rewrite parse_years_months by (unfold i32_max in *; Z.div_mod_to_equations; lia).
    do 2 f_equal.
    replace (Z.abs m / 12 * 12 + Z.abs m mod 12) with (Z.abs m) by (Z.div_mod_to_equations; lia).
    rewrite as_i32_id; destruct (Z.ltb_spec m 0); unfold i32_max in *; lia.
  - rewrite parse_days_time by lia. do 3 f_equal. unfold NANOS.
    destruct (Z.ltb_spec n 0).
    + assert (Z.quot n 1000000000 <= 0) by (Z.to_euclidean_division_equations; lia). lia.
    + assert (0 <= Z.quot n 1000000000) by (Z.to_euclidean_division_equations; lia). lia.
Qed.

(** Printing a zone offset in the ±14:00 range and parsing it back. *)
Lemma offset_round_trip (tc : TimeCrate) (total : Z) :
  TimeCrateLaws tc → Z.abs total <= 14 * 3600 →
  parse_numeric_offset (format_offset total) = Some total.
Proof.
  intros Hl Ht. unfold format_offset. set (a := Z.abs total). cbv zeta.
  assert (Hh : 0 <= a / 3600 < 24) by (unfold a; Z.div_mod_to_equations; lia).
  assert (Hm : 0 <= a mod 3600 / 60 < 60) by (Z.div_mod_to_equations; lia).
  assert (Hs : 0 <= a mod 60 < 60) by (Z.div_mod_to_equations; lia).
  assert (E : a / 3600 * 3600 + a mod 3600 / 60 * 60 + a mod 60 = a) by (Z.div_mod_to_equations; lia).
  set (h := a / 3600) in *. set (m := a mod 3600 / 60) in *. set (s := a mod 60) in *.
  set (rest := two_digits h +:+ ":" +:+ two_digits m +:+ when (0 <? s) (":" +:+ two_digits s)).
  assert (Hsplit : split_char ":" rest = two_digits h :: two_digits m :: (if 0 <? s then [two_digits s] else [])).
  { unfold rest. change (":" +:+ ?x) with (String ":" x). rewrite two_digits_no_colon by lia. f_equal.
    destruct (0 <? s).
    - change (when true (":" +:+ two_digits s)) with (String ":" (two_digits s)). by rewrite two_digits_no_colon, two_digits_alone by lia.
    - change (when false ?x) with "". by rewrite string_app_nil_r, two_digits_alone by lia. }
  assert (Hread : parse_numeric_offset ((if total <? 0 then "-" else "+") +:+ rest) =
    let sg := if total <? 0 then -1 else 1 in utc_offset_from_hms (sg * h) (sg * m) (sg * s)).
  { unfold parse_numeric_offset.
    destruct (Z.ltb_spec total 0) as [Hneg|Hneg]; cbn -[split_char two_digit rest Z.mul Z.ltb];
      rewrite Hsplit, !two_digit_print by lia; destruct (Z.ltb_spec 0 s); cbn -[two_digit Z.mul Z.ltb];
      rewrite ?two_digit_print by lia; cbn -[Z.mul Z.ltb];
      match goal with |- context [14 * 3600 <? ?x] => destruct (Z.ltb_spec (14 * 3600) x); [lia|] end;
      f_equal; lia. }
  rewrite Hread. cbv zeta. destruct (Z.ltb_spec total 0); rewrite from_hms_exact by lia; f_equal; lia.
Qed.
