(* ===== verification/Timer.v ===== *)
(** * Timers ([sutra-bpmn/src/duration.rs], [sutra-bpmn/src/timer.rs])

    Duration literals are read through [f64], kept here as IEEE binary64
    ([SpecFloat]); a [std::time::Duration] is its nanoseconds.  A panic of the
    standard library (a duration or an instant out of range) is the value
    [Panicked].

    The theorems: the cycle-advance loop equals its closed form and always ends;
    a cycle never fires more often than its repeat count; a loaded timer survives
    the trip through its persisted text; and a duration literal too long for
    [std::time::Duration] panics instead of being rejected. *)
From Stdlib Require Import ZArith Lia Bool Ascii String SpecFloat.
From stdpp Require Import base list option strings.
From S2P Require Import Prelude Decimal FeelValue Temporal.

Open Scope string_scope.
Open Scope list_scope.
Open Scope Z_scope.

(** ** Binary64 *)

Definition f64 : Type := spec_float.

Definition f64_add : f64 → f64 → f64 := SFadd 53 1024.
Definition f64_mul : f64 → f64 → f64 := SFmul 53 1024.

(** The double nearest to [m / 10^k], ties to even. *)
Definition f64_of_decimal (m : Z) (k : nat) : f64 :=
  match m, 10 ^ Z.of_nat k with
  | Zpos p, Zpos q =>
      match k with
      | O => binary_normalize 53 1024 m 0 false
      | _ => SFdiv 53 1024 (S754_finite false p 0) (S754_finite false q 0)
      end
  | _, _ => S754_zero false
  end.

Definition f64_of_int (m : Z) : f64 := f64_of_decimal m 0.

(** [str::parse::<f64>] on a text of digits and dots: at most one dot, at least
    one digit. *)
Definition parse_f64 (s : string) : option f64 :=
  match split_char "." s with
  | [a] => if str_is_empty a then None else Some (f64_of_int (dec_value 0 a))
  | [a; b] =>
      if str_is_empty a && str_is_empty b then None
      else Some (f64_of_decimal (dec_value 0 (a +:+ b)) (String.length b))
  | _ => None
  end.

Definition f64_is_finite (x : f64) : bool :=
  match x with S754_zero _ | S754_finite _ _ _ => true | _ => false end.

Definition f64_is_negative (x : f64) : bool :=
  match x with S754_finite s _ _ => s | _ => false end.

(** The integer nearest to [m · 2^e], ties to even. *)
Definition round_scaled (m e : Z) : Z :=
  if 0 <=? e then m * 2 ^ e
  else
    let d := 2 ^ (- e) in
    let q := m / d in
    let r := m mod d in
    if (d <? 2 * r) || ((2 * r =? d) && Z.odd q) then q + 1 else q.

(** [Duration::from_secs_f64] of a non-negative finite number: nanoseconds,
    rounded to nearest even; it panics when the seconds exceed [u64]. *)
Definition from_secs_f64 {E} (x : f64) : result (fault E) Z :=
  match x with
  | S754_zero _ => Ok 0
  | S754_finite false m e =>
      let nanos := round_scaled (Zpos m * NANOS) e in
      if nanos / NANOS <=? u64_max then Ok nanos else Err Panicked
  | _ => Err Panicked
  end.

(** ** Duration literals *)

Definition quote (s : string) : string := "'" +:+ s +:+ "'".

Record DurScan : Type := mk_dur_scan {
  total_secs : f64; in_time_part : bool; saw_component : bool; number : string }.

(** [seconds_per_unit], or the rejection of the unit. *)
Definition seconds_per_unit (input : string) (unit : ascii) (in_time : bool) : result string Z :=
  let u := to_ascii_uppercase unit in
  let one := String unit "" in
  if Ascii.eqb u "W" && negb in_time then Ok 604800
  else if Ascii.eqb u "D" && negb in_time then Ok 86400
  else if Ascii.eqb u "H" && in_time then Ok 3600
  else if Ascii.eqb u "M" && in_time then Ok 60
  else if Ascii.eqb u "S" && in_time then Ok 1
  else if (Ascii.eqb u "Y" || Ascii.eqb u "M") && negb in_time then
    Err (quote input +:+ " uses the calendar component " +:+ quote one +:+
         "; years/months are not exact lengths — use weeks/days/hours/minutes/seconds")
  else
    Err (quote input +:+ " has an unexpected component " +:+ quote one +:+
         (if in_time then " in the time part"
          else " (did you forget the 'T' before a time component?)")).

(** One iteration of the loop over the characters. *)
Definition dur_step (input : string) (st : DurScan) (c : ascii) : result string DurScan :=
  let 'mk_dur_scan total in_time saw num := st in
  if Ascii.eqb c "T" || Ascii.eqb c "t" then
    if in_time then Err (quote input +:+ " has more than one 'T' separator")
    else if negb (str_is_empty num) then
      Err (quote input +:+ " has a number with no unit before 'T'")
    else Ok (mk_dur_scan total true saw num)
  else if is_ascii_digit c || Ascii.eqb c "." || Ascii.eqb c "," then
    Ok (mk_dur_scan total in_time saw
          (num +:+ String (if Ascii.eqb c "," then "."%char else c) ""))
  else
    match parse_f64 num with
    | None => Err (quote input +:+ " has an unparseable number " +:+ quote num)
    | Some v =>
        spu ← seconds_per_unit input c in_time;
        Ok (mk_dur_scan (f64_add total (f64_mul v (f64_of_int spu))) in_time true "")
    end.

Fixpoint dur_loop (input : string) (st : DurScan) (s : string) : result string DurScan :=
  match s with
  | EmptyString => Ok st
  | String c r => st' ← dur_step input st c; dur_loop input st' r
  end.

Definition strip_letter (upper lower : string) (s : string) : option string :=
  match strip_prefix upper s with Some r => Some r | None => strip_prefix lower s end.

Definition parse_iso8601_duration (input : string) : result (fault string) Z :=
  let s := trim input in
  match strip_letter "P" "p" s with
  | None => Err (Rejected (quote input +:+ " is not an ISO-8601 duration (must start with 'P')"))
  | Some rest =>
      if str_is_empty rest then Err (Rejected (quote input +:+ " declares no duration components"))
      else
        match dur_loop input (mk_dur_scan (S754_zero false) false false "") rest with
        | Err e => Err (Rejected e)
        | Ok st =>
            if negb (str_is_empty (number st)) then
              Err (Rejected (quote input +:+ " ends with a number (" +:+ quote (number st)
                             +:+ ") that has no unit"))
            else if negb (saw_component st) then
              Err (Rejected (quote input +:+ " declares no duration components"))
            else if negb (f64_is_finite (total_secs st)) || f64_is_negative (total_secs st) then
              Err (Rejected (quote input +:+ " is not a non-negative finite duration"))
            else from_secs_f64 (total_secs st)
        end
  end.

Example duration_literals :
  parse_iso8601_duration "PT5S" = Ok (5 * NANOS) ∧
  parse_iso8601_duration "PT0.25S" = Ok 250000000 ∧
  parse_iso8601_duration "P1DT2H" = Ok (93600 * NANOS) ∧
  parse_iso8601_duration "P2W" = Ok (1209600 * NANOS) ∧
  parse_iso8601_duration "PT1.1S" = Ok 1100000000 ∧
  is_ok (parse_iso8601_duration "P1M") = false.
Proof. vm_compute. repeat split. Qed.

(** ** Timer specifications *)

Inductive TimerSpecRejection : Type :=
| UnsupportedForm (reason : string)
| Malformed (reason : string).

Definition reason (r : TimerSpecRejection) : string :=
  match r with UnsupportedForm s | Malformed s => s end.

Definition is_unsupported_form (r : TimerSpecRejection) : bool :=
  match r with UnsupportedForm _ => true | Malformed _ => false end.

Record TimerCycleSpec : Type := mk_cycle {
  repeats : option Z;
  start_at : option string;
  interval : string }.

Inductive TimerExpressionForm : Type := FormDuration | FormDate | FormCycle.

Inductive TimerDefinition : Type :=
| TimerDuration (d : string)
| TimerDate (d : string)
| TimerCycle (c : TimerCycleSpec)
| TimerExpression (form : TimerExpressionForm) (expression : string).

Inductive TimerTextClass : Type := ClassLiteral | ClassExpression.

#[export] Instance TimerExpressionForm_eq_dec : EqDecision TimerExpressionForm.
Proof. solve_decision. Defined.
#[export] Instance TimerCycleSpec_eq_dec : EqDecision TimerCycleSpec.
Proof. solve_decision. Defined.
#[export] Instance TimerDefinition_eq_dec : EqDecision TimerDefinition.
Proof. solve_decision. Defined.

Definition element_name (form : TimerExpressionForm) : string :=
  match form with
  | FormDuration => "timeDuration" | FormDate => "timeDate" | FormCycle => "timeCycle"
  end.

Definition TIMER_KIND_DURATION : string := "DURATION".
Definition TIMER_KIND_DATE : string := "DATE".
Definition TIMER_KIND_CYCLE : string := "CYCLE".

Definition kind_str (d : TimerDefinition) : string :=
  match d with
  | TimerDuration _ | TimerExpression FormDuration _ => TIMER_KIND_DURATION
  | TimerDate _ | TimerExpression FormDate _ => TIMER_KIND_DATE
  | TimerCycle _ | TimerExpression FormCycle _ => TIMER_KIND_CYCLE
  end.

Definition is_expression (d : TimerDefinition) : bool :=
  match d with TimerExpression _ _ => true | _ => false end.

Definition spec_text (d : TimerDefinition) : string :=
  match d with
  | TimerDuration d | TimerDate d => d
  | TimerCycle c =>
      "R" +:+ match repeats c with Some n => dec_string n | None => "" end +:+ "/"
        +:+ match start_at c with Some start => start +:+ "/" | None => "" end
        +:+ interval c
  | TimerExpression _ e => e
  end.

(** The calendar component a duration declares: the first [Y] or [M] before [T]. *)
Fixpoint find_calendar (s : string) : option ascii :=
  match s with
  | EmptyString => None
  | String c r =>
      if Ascii.eqb c "T" || Ascii.eqb c "t" then None
      else
        let u := to_ascii_uppercase c in
        if Ascii.eqb u "Y" || Ascii.eqb u "M" then Some u else find_calendar r
  end.

Definition calendar_component (input : string) : option ascii :=
  rest ← strip_letter "P" "p" (trim input); find_calendar rest.

Definition timer_result : Type → Type := result (fault TimerSpecRejection).

Definition parse_timer_duration (input : string) : timer_result Z :=
  match calendar_component input with
  | Some unit =>
      Err (Rejected (UnsupportedForm (quote input +:+ " uses the calendar component "
        +:+ quote (String unit "") +:+ " — years/months have no exact length, so a duration timer cannot schedule them; use weeks/days/hours/minutes/seconds")))
  | None => map_fault Malformed (parse_iso8601_duration input)
  end.

Section WithTime.
Context {tc : TimeCrate}.

Definition parse_timer_instant (input : string) : timer_result OffsetDateTime :=
  let s := trim input in
  if str_is_empty s then Err (Rejected (Malformed "a <timeDate> timer declares no instant"))
  else
    match rfc3339_parse s with
    | Ok at_ => Ok at_
    | Err e => Err (Rejected (Malformed (quote input +:+
        " is not an ISO-8601 datetime with an explicit zone (e.g. 2026-03-01T09:30:00Z or 2026-03-01T09:30:00+05:30): "
        +:+ e)))
    end.

(** Normalised to UTC; the empty text when the crate cannot render the year. *)
Definition format_instant (at_ : OffsetDateTime) : string :=
  match rfc3339_format (mk_odt (unix_nanos at_) 0) with Some s => s | None => "" end.

Definition parse_repeats (input count : string) : timer_result (option Z) :=
  if str_is_empty count then Ok None
  else
    match parse_unsigned u32_max count with
    | None => Err (Rejected (Malformed (quote input +:+ " has an unparseable repeat count 'R"
        +:+ count +:+ "'; use R (unbounded) or R<positive integer>")))
    | Some n =>
        if n =? 0 then
          Err (Rejected (Malformed (quote input +:+ " repeats zero times; use R (unbounded) or R<positive integer>, or drop the timer")))
        else Ok (Some n)
    end.

Definition parse_timer_cycle (input : string) : timer_result TimerCycleSpec :=
  let s := trim input in
  if str_is_empty s then Err (Rejected (Malformed "a <timeCycle> timer declares no cycle"))
  else
    match strip_letter "R" "r" s with
    | None => Err (Rejected (UnsupportedForm (quote input +:+ " is not an ISO-8601 repeating interval (it must start with 'R', as in R/PT1H, R5/PT1H or R/2026-03-01T00:00:00Z/PT1H); cron-syntax schedules are not supported by this engine")))
    | Some rest =>
        let parts := split_char "/" rest in
        let count := match parts with p :: _ => p | [] => "" end in
        reps ← parse_repeats input count;
        '(start, interval_text) ←
          (match tail parts with
           | [i] => Ok (None, i)
           | [start; i] => at_ ← parse_timer_instant start; Ok (Some at_, i)
           | [] => Err (Rejected (Malformed (quote input +:+ " declares no interval; an ISO-8601 repeating interval is R[n]/[<start>/]<duration>")))
           | _ => Err (Rejected (Malformed (quote input +:+ " has more than three '/'-separated parts; an ISO-8601 repeating interval is R[n]/[<start>/]<duration>")))
           end : timer_result (option OffsetDateTime * string));
        d ← parse_timer_duration interval_text;
        if d =? 0 then
          Err (Rejected (Malformed (quote input +:+ " has a zero-length interval; a repeating timer needs a positive interval")))
        else Ok (mk_cycle reps (format_instant <$> start) (trim interval_text))
    end.

Definition from_persisted (kind spec : string) : timer_result TimerDefinition :=
  if String.eqb kind TIMER_KIND_DURATION then
    _ ← parse_timer_duration spec; Ok (TimerDuration spec)
  else if String.eqb kind TIMER_KIND_DATE then
    _ ← parse_timer_instant spec; Ok (TimerDate spec)
  else if String.eqb kind TIMER_KIND_CYCLE then
    c ← parse_timer_cycle spec; Ok (TimerCycle c)
  else Err (Rejected (Malformed ("unknown persisted timer kind " +:+ quote kind
         +:+ " (expected one of DURATION/DATE/CYCLE)"))).

Definition total_fires (d : TimerDefinition) : option Z :=
  match d with
  | TimerDuration _ | TimerDate _ => Some 1
  | TimerCycle c => repeats c
  | TimerExpression FormCycle _ => None
  | TimerExpression _ _ => Some 1
  end.

(** [at + duration]; it panics past the crate's last representable instant. *)
Definition instant_add (at_ : OffsetDateTime) (d : Z) : timer_result OffsetDateTime :=
  if unix_nanos at_ + d <=? instant_max then Ok (mk_odt (unix_nanos at_ + d) (odt_offset at_))
  else Err Panicked.

Definition first_due_at (def : TimerDefinition) (now : OffsetDateTime) : timer_result OffsetDateTime :=
  match def with
  | TimerDuration d => n ← parse_timer_duration d; instant_add now n
  | TimerDate d => parse_timer_instant d
  | TimerCycle c =>
      match start_at c with
      | Some start => parse_timer_instant start
      | None => n ← parse_timer_duration (interval c); instant_add now n
      end
  | TimerExpression _ e =>
      Err (Rejected (Malformed ("the timer expression " +:+ quote e +:+ " must be resolved before it is scheduled")))
  end.

(** ** Advancing a cycle *)

Inductive TimerCycleAdvance : Type :=
| Next (due_at : OffsetDateTime) (remaining : option Z)
| Exhausted.

(** One repeat spent: [None] when there is none left to spend or to use. *)
Definition spend (budget : option Z) : option (option Z) :=
  match budget with
  | Some 0 => None
  | Some n => if n - 1 =? 0 then None else Some (Some (n - 1))
  | None => Some None
  end.

(** [while next <= now]. *)
Fixpoint advance_loop (fuel : nat) (ivl : Z) (now next : OffsetDateTime) (budget : option Z)
    : timer_result TimerCycleAdvance :=
  if unix_nanos next <=? unix_nanos now then
    match fuel with
    | O => Err OutOfFuel
    | S f =>
        match spend budget with
        | None => Ok Exhausted
        | Some rest => next' ← instant_add next ivl; advance_loop f ivl now next' rest
        end
    end
  else Ok (Next next budget).

Definition advance_fuel (ivl : Z) (now fired_due : OffsetDateTime) : nat :=
  Z.to_nat ((unix_nanos now - unix_nanos fired_due) / ivl).

Definition advance_cycle (spec : TimerCycleSpec) (fired_due : OffsetDateTime)
    (remaining : option Z) (now : OffsetDateTime) : timer_result TimerCycleAdvance :=
  ivl ← parse_timer_duration (interval spec);
  if ivl =? 0 then Ok Exhausted
  else
    match spend remaining with
    | None => Ok Exhausted
    | Some budget =>
        next ← instant_add fired_due ivl;
        advance_loop (advance_fuel ivl now fired_due) ivl now next budget
    end.

(** ** Expression-valued timers *)

Definition nth_char (n : nat) (s : string) : ascii :=
  match String.get n s with Some c => c | None => Ascii.zero end.

Definition digits_at (s : string) (positions : list nat) : bool :=
  forallb (λ n, is_ascii_digit (nth_char n s)) positions.

Definition is_literal_shaped (form : TimerExpressionForm) (text : string) : bool :=
  let t := trim text in
  match form with
  | FormDuration =>
      let rest := match t with
                  | String c r => if Ascii.eqb c "+" || Ascii.eqb c "-" then r else t
                  | _ => t
                  end in
      match rest with
      | String a (String b _) =>
          (Ascii.eqb a "P" || Ascii.eqb a "p") && (is_ascii_digit b || Ascii.eqb b "T" || Ascii.eqb b "t")
      | _ => false
      end
  | FormDate =>
      (10 <=? String.length t)%nat && digits_at t [0; 1; 2; 3]%nat && Ascii.eqb (nth_char 4 t) "-"
        && digits_at t [5; 6]%nat && Ascii.eqb (nth_char 7 t) "-" && digits_at t [8; 9]%nat
  | FormCycle =>
      match t with
      | String c rest =>
          if Ascii.eqb c "R" || Ascii.eqb c "r" then
            string_all is_ascii_digit rest || string_any (Ascii.eqb "/") rest
          else false
      | _ => false
      end
  end.

(** The longest prefix of characters satisfying [f], and what follows it. *)
Fixpoint take_while (f : ascii → bool) (s : string) : string * string :=
  match s with
  | EmptyString => (EmptyString, EmptyString)
  | String c r => if f c then let '(a, b) := take_while f r in (String c a, b) else (EmptyString, s)
  end.

Fixpoint string_filter_map (f : ascii → option ascii) (s : string) : string :=
  match s with
  | EmptyString => EmptyString
  | String c r => match f c with Some d => String d (string_filter_map f r) | None => string_filter_map f r end
  end.

Definition string_in (s : string) (l : list string) : bool := existsb (String.eqb s) l.

(** The unit a spelled-out unit word stands for. *)
Definition unit_of_word (word : string) (in_time : bool) : option ascii :=
  if string_in word ["S"; "SEC"; "SECS"; "SECOND"; "SECONDS"] then Some "S"%char
  else if String.eqb word "M" && in_time then Some "M"%char
  else if string_in word ["MIN"; "MINS"; "MINUTE"; "MINUTES"] then Some "M"%char
  else if string_in word ["H"; "HR"; "HRS"; "HOUR"; "HOURS"] then Some "H"%char
  else if string_in word ["D"; "DAY"; "DAYS"] then Some "D"%char
  else if string_in word ["W"; "WEEK"; "WEEKS"] then Some "W"%char
  else None.

(** [while chars.peek().is_some()]; every round reads at least one character, so
    the length of the text bounds the rounds.  The state is [in_time], [seen_unit],
    [date] and [time]. *)
Fixpoint suggest_loop (fuel : nat) (chars : string) (in_time seen : bool) (date time : string)
    : option (bool * string * string) :=
  match chars, fuel with
  | EmptyString, _ => Some (seen, date, time)
  | _, O => None
  | _, S f =>
      let '(number, rest) := take_while (λ c, is_ascii_digit c || Ascii.eqb c ".") chars in
      let '(word, rest') := take_while is_ascii_alphabetic rest in
      if str_is_empty number then
        if String.eqb word "T" && negb in_time then suggest_loop f rest' true seen date time else None
      else
        unit ← unit_of_word word in_time;
        if (Ascii.eqb unit "D" || Ascii.eqb unit "W") && negb in_time then
          suggest_loop f rest' in_time true (date +:+ number +:+ String unit "") time
        else if Ascii.eqb unit "S" || Ascii.eqb unit "M" || Ascii.eqb unit "H" then
          suggest_loop f rest' true true date (time +:+ number +:+ String unit "")
        else None
  end.

Definition suggest_duration_literal (text : string) : option string :=
  let upper := string_filter_map
    (λ c, if is_whitespace c || Ascii.eqb c "_" then None else Some (to_ascii_uppercase c)) (trim text) in
  rest ← strip_prefix "P" upper;
  let '(chars, in_time) := match rest with
    | String c r => if Ascii.eqb c "T" then (r, true) else (rest, false)
    | _ => (rest, false)
    end in
  '(seen, date, time) ← suggest_loop (String.length chars) chars in_time false "" "";
  if (seen : bool) then
    let candidate := if str_is_empty time then "P" +:+ date else "P" +:+ date +:+ "T" +:+ time in
    if negb (String.eqb candidate (trim text)) && is_ok (parse_timer_duration candidate)
    then Some candidate else None
  else None.

Definition with_reason (r : TimerSpecRejection) (s : string) : TimerSpecRejection :=
  match r with UnsupportedForm _ => UnsupportedForm s | Malformed _ => Malformed s end.

Definition validate_timer_literal (form : TimerExpressionForm) (text : string) : timer_result () :=
  match form with
  | FormDuration => _ ← parse_timer_duration text; Ok ()
  | FormDate => _ ← parse_timer_instant text; Ok ()
  | FormCycle => _ ← parse_timer_cycle text; Ok ()
  end.

(** [feel_parse] is the FEEL parser: the message of its error. *)
Definition classify_timer_text (feel_parse : string → result string FeelExpr)
    (form : TimerExpressionForm) (text : string) : timer_result TimerTextClass :=
  match validate_timer_literal form text with
  | Ok _ => Ok ClassLiteral
  | Err (Rejected literal) =>
      if str_is_empty (trim text) || is_literal_shaped form text then
        match form, suggest_duration_literal text with
        | FormDuration, Some meant =>
            Err (Rejected (with_reason literal (reason literal +:+ "; did you mean " +:+ meant +:+ "?")))
        | _, _ => Err (Rejected literal)
        end
      else
        match feel_parse (trim text) with
        | Ok _ => Ok ClassExpression
        | Err message => Err (Rejected (with_reason literal
            (reason literal +:+ "; it is not a FEEL expression either (" +:+ message +:+ ")")))
        end
  | Err Panicked => Err Panicked
  | Err OutOfFuel => Err OutOfFuel
  end.

Definition describe_feel_value `{BigDecimalText} (v : FeelValue) : string :=
  match v with
  | Null => "null"
  | Boolean b => "the boolean " +:+ (if b then "true" else "false")
  | Number n => "the number " +:+ bd_to_string n
  | Str s => "the string " +:+ String (Ascii.ascii_of_nat 34) (s +:+ String (Ascii.ascii_of_nat 34) "")
  | Instant _ _ => "a date and time"
  | DateV _ => "a date"
  | TimeV _ _ => "a time"
  | Duration (YearsMonths _) => "a years-and-months duration"
  | Duration (DaysTime _) => "a days-and-time duration"
  | List _ => "a list"
  | Map _ => "a context"
  | Function _ | Invocable _ _ _ _ => "a function"
  | Range _ => "a range"
  end.

Definition returned_string (s what : string) (r : TimerSpecRejection) : string :=
  "it returned the string " +:+ String (Ascii.ascii_of_nat 34) (s +:+ String (Ascii.ascii_of_nat 34)
    (", which is not a usable " +:+ what +:+ ": " +:+ reason r)).

Definition duration_from_feel_value `{BigDecimalText} (v : FeelValue) : result (fault string) Z :=
  match v with
  | Str s => map_fault (returned_string s "duration") (parse_timer_duration s)
  | Duration (DaysTime d) =>
      if d <? 0 then Err (Rejected ("it returned the negative duration " +:+ duration_display d
                                    +:+ "; a timer cannot wait a negative time"))
      else Ok d
  | Duration (YearsMonths _) => Err (Rejected "it returned a years-and-months duration, which has no exact length; return a days-and-time duration or compute a date and time instead")
  | other => Err (Rejected ("it returned " +:+ describe_feel_value other +:+ "; a duration timer needs an ISO-8601 duration string or a FEEL days-and-time duration"))
  end.

Definition instant_from_feel_value `{BigDecimalText} (v : FeelValue) : result (fault string) OffsetDateTime :=
  match v with
  | Str s => map_fault (returned_string s "instant") (parse_timer_instant s)
  | Instant at_ (Some _) => Ok at_
  | Instant _ None => Err (Rejected ("it returned a date and time with no offset or zone; "
      +:+ String (Ascii.ascii_of_nat 34) ("which clock?" +:+ String (Ascii.ascii_of_nat 34) " is not a question a durable timer may guess at")))
  | other => Err (Rejected ("it returned " +:+ describe_feel_value other +:+ "; a timeDate timer needs an ISO-8601 instant string or a FEEL date and time with a zone"))
  end.

Definition format_std_duration (d : Z) : string :=
  let nanos := d mod NANOS in
  if nanos =? 0 then "PT" +:+ dec_string (d / NANOS) +:+ "S"
  else "PT" +:+ dec_string (d / NANOS) +:+ "." +:+ trim_end_zeros (pad_left 9 nanos) +:+ "S".

Definition resolve_timer_expression_value `{BigDecimalText} (form : TimerExpressionForm) (v : FeelValue)
    : result (fault string) TimerDefinition :=
  match form with
  | FormDuration =>
      d ← duration_from_feel_value v;
      Ok (TimerDuration (match v with Str s => trim s | _ => format_std_duration d end))
  | FormDate => at_ ← instant_from_feel_value v; Ok (TimerDate (format_instant at_))
  | FormCycle =>
      match v with
      | Str s => map_fault (returned_string s "cycle") (c ← parse_timer_cycle s; Ok (TimerCycle c))
      | other => Err (Rejected ("it returned " +:+ describe_feel_value other +:+ "; a timeCycle timer needs an ISO-8601 repeating-interval string (R/PT1H, R5/PT1H, R/<start>/PT1H)"))
      end
  end.

End WithTime.

(** ** Lemmas: advancing a cycle *)

Lemma round_scaled_nonneg m e : 0 <= m → 0 <= round_scaled m e.
Proof.
  intros Hm. unfold round_scaled. destruct (Z.leb_spec 0 e).
  - pose proof (Z.pow_nonneg 2 e). nia.
  - assert (0 < 2 ^ (- e)) by (apply Z.pow_pos_nonneg; lia).
    assert (0 <= m / 2 ^ (- e)) by (apply Z.div_pos; lia). case_if; lia.
Qed.

Lemma from_secs_f64_nonneg {E} x d : from_secs_f64 (E := E) x = Ok d → 0 <= d.
Proof.
  destruct x as [s|s| |[] m e]; simpl; try done; [by intros [= <-]|].
  case_if; [|done]. intros [= <-]. apply round_scaled_nonneg. unfold NANOS. lia.
Qed.

Lemma parse_timer_duration_nonneg s d : parse_timer_duration s = Ok d → 0 <= d.
Proof.
  unfold parse_timer_duration. destruct (calendar_component s); [done|].
  unfold parse_iso8601_duration. destruct (strip_letter _ _ _); [|done].
  case_if; [done|]. destruct (dur_loop _ _ _); [|done].
  do 3 (case_if; [done|]). destruct (from_secs_f64 _) as [x|[]] eqn:E; try done.
  intros [= <-]. by apply (from_secs_f64_nonneg _ _ E).
Qed.

Section AdvanceSpec.
Context {tc : TimeCrate}.

(** The slots [due + ivl], [due + 2·ivl], … that are not after [now]. *)
Definition elapsed_slots (ivl due now : Z) : Z := Z.max 0 ((now - due) / ivl).

(** What advancing past [due] gives: the first slot after [now], one repeat spent
    for the fire and one for every slot skipped. *)
Definition advance_spec (ivl : Z) (due : OffsetDateTime) (remaining : option Z) (now : OffsetDateTime)
    : TimerCycleAdvance :=
  let k := elapsed_slots ivl (unix_nanos due) (unix_nanos now) in
  let next := mk_odt (unix_nanos due + (k + 1) * ivl) (odt_offset due) in
  match remaining with
  | None => Next next None
  | Some n => if n <=? k + 1 then Exhausted else Next next (Some (n - 1 - k))
  end.

Definition budget_ok (b : option Z) : Prop := match b with Some n => 1 <= n | None => True end.

Lemma spend_spec b :
  budget_ok b →
  match spend b with
  | None => b = Some 1
  | Some b' => budget_ok b' ∧ b' = (λ n, n - 1) <$> b
  end.
Proof.
  destruct b as [n|]; simpl; [|done]. intros Hn. destruct n as [|p|p]; [lia| |lia].
  destruct (Z.eqb_spec (Z.pos p - 1) 0) as [E|E]; simpl; [f_equal; lia|]. split; [lia|done].
Qed.

(** The same, counted from the slot [next] itself. *)
Definition slots_due (ivl next now : Z) : Z := if next <=? now then (now - next) / ivl + 1 else 0.

Lemma slots_due_step ivl next now :
  0 < ivl → next <= now → slots_due ivl next now = slots_due ivl (next + ivl) now + 1.
Proof.
  intros Hi Hn. unfold slots_due. destruct (Z.leb_spec next now); [|lia].
  replace (now - next) with (now - (next + ivl) + 1 * ivl) by lia.
  rewrite Z.div_add by lia. destruct (Z.leb_spec (next + ivl) now); [lia|].
  replace ((now - (next + ivl)) / ivl) with (-1); [lia|]. apply Z.div_unique with (now - next); lia.
Qed.

Lemma slots_due_nonneg ivl next now : 0 < ivl → 0 <= slots_due ivl next now.
Proof.
  intros Hi. unfold slots_due. destruct (Z.leb_spec next now); [|lia].
  assert (0 <= (now - next) / ivl) by (apply Z.div_pos; lia). lia.
Qed.

Lemma advance_loop_spec fuel ivl now next b :
  0 < ivl → budget_ok b → 
  slots_due ivl (unix_nanos next) (unix_nanos now) <= Z.of_nat fuel →
  let q := slots_due ivl (unix_nanos next) (unix_nanos now) in
  unix_nanos next + q * ivl <= instant_max →
  advance_loop fuel ivl now next b =
  Ok (match b with
      | None => Next (mk_odt (unix_nanos next + q * ivl) (odt_offset next)) None
      | Some n => if n <=? q then Exhausted
                  else Next (mk_odt (unix_nanos next + q * ivl) (odt_offset next)) (Some (n - q))
      end).
Proof.
  intros Hi. revert next b. induction fuel as [|f IH]; intros [next off] b Hb Hf q Hq; simpl in *.
  - subst q. pose proof (slots_due_nonneg ivl next (unix_nanos now) Hi).
    assert (E : slots_due ivl next (unix_nanos now) = 0) by lia. rewrite E.
    unfold slots_due in E. destruct (Z.leb_spec next (unix_nanos now)) as [Hle|Hgt].
    { assert (0 <= (unix_nanos now - next) / ivl) by (apply Z.div_pos; lia). lia. }
    rewrite Z.mul_0_l, Z.add_0_r. destruct b as [n|]; [|done]. simpl in Hb.
    destruct (Z.leb_spec n 0); [lia|]. by rewrite Z.sub_0_r.
  - destruct (Z.leb_spec next (unix_nanos now)) as [Hle|Hgt].
    + pose proof (slots_due_step ivl next (unix_nanos now) Hi Hle) as Hstep.
      pose proof (slots_due_nonneg ivl (next + ivl) (unix_nanos now) Hi).
      pose proof (spend_spec b Hb) as Hsp. destruct (spend b) as [b'|].
      * destruct Hsp as [Hb' ->]. unfold instant_add. simpl.
        destruct (Z.leb_spec (next + ivl) instant_max); [|nia]. simpl.
        rewrite IH by (simpl; done || lia || nia). simpl. subst q. rewrite Hstep.
        set (q := slots_due ivl (next + ivl) (unix_nanos now)) in *.
        replace (next + (q + 1) * ivl) with (next + ivl + q * ivl) by lia.
        destruct b as [n|]; simpl; [|done].
        destruct (Z.leb_spec (n - 1) q), (Z.leb_spec n (q + 1)); try lia; [done|].
        do 3 f_equal. lia.
      * subst b. destruct (Z.leb_spec 1 q); [done|lia].
    + subst q. unfold slots_due. destruct (Z.leb_spec next (unix_nanos now)); [lia|].
      rewrite Z.mul_0_l, Z.add_0_r. destruct b as [n|]; [|done]. simpl in Hb.
      destruct (Z.leb_spec n 0); [lia|]. by rewrite Z.sub_0_r.
Qed.

Lemma slots_due_elapsed ivl due now :
  0 < ivl → slots_due ivl (due + ivl) now = elapsed_slots ivl due now.
Proof.
  intros Hi. unfold elapsed_slots. destruct (Z.le_gt_cases due now) as [Hle|Hgt].
  - assert (E : slots_due ivl due now = (now - due) / ivl + 1)
      by (unfold slots_due; destruct (Z.leb_spec due now); lia).
    rewrite slots_due_step in E by done.
    pose proof (slots_due_nonneg ivl (due + ivl) now Hi). lia.
  - unfold slots_due. destruct (Z.leb_spec (due + ivl) now); [lia|].
    assert ((now - due) / ivl < 0) by (apply Z.div_lt_upper_bound; lia). lia.
Qed.

Definition remaining_ok (b : option Z) : Prop := match b with Some n => 0 <= n | None => True end.

Lemma spend_next b b1 :
  spend b = Some b1 → b1 = (λ n, n - 1) <$> b ∧ (budget_ok b → budget_ok b1).
Proof.
  unfold spend. destruct b as [[|p|p]|]; try done; [| |by intros [= <-]];
    case_if; try done; intros [= <-]; unfold budget_ok; split; try done; lia.
Qed.

(** What any advance leaves, in-range or not: a later slot of the same grid and
    as many repeats fewer. *)
Lemma advance_loop_next fuel ivl now next b due' b' :
  0 < ivl → advance_loop fuel ivl now next b = Ok (Next due' b') →
  ∃ j, 0 <= j ∧ unix_nanos due' = unix_nanos next + j * ivl ∧ b' = (λ n, n - j) <$> b ∧
  unix_nanos now < unix_nanos due' ∧ (budget_ok b → budget_ok b').
Proof.
  intros Hi. revert next b. induction fuel as [|f IH]; intros next b; simpl;
    (destruct (Z.leb_spec (unix_nanos next) (unix_nanos now)); [|intros [= <- <-]]).
  - done.
  - exists 0. repeat split; [lia|lia| |done|done]. destruct b; simpl; [|done]. f_equal. lia.
  - destruct (spend b) as [b1|] eqn:Hs; [|done]. unfold instant_add. case_if; [|done]. simpl.
    intros (j & Hj & Hd & Hb & Hlt & Hok)%IH. exists (j + 1). simpl in Hd.
    destruct (spend_next b b1 Hs) as [Hb1 Hok1]. repeat split; [lia|lia| |done|auto].
    rewrite Hb, Hb1. destruct b; simpl; [|done]. f_equal. lia.
  - exists 0. repeat split; [lia|lia| |done|done]. destruct b; simpl; [|done]. f_equal. lia.
Qed.

End AdvanceSpec.

(** ** Lemmas: persisted timers

    The input text of a parser matters to its result only up to surrounding
    space: beyond that it is quoted in messages. *)

Lemma seconds_per_unit_input i j u b : ok (seconds_per_unit i u b) = ok (seconds_per_unit j u b).
Proof. unfold seconds_per_unit. by repeat case_match. Qed.

Lemma dur_loop_input i j st s : ok (dur_loop i st s) = ok (dur_loop j st s).
Proof.
  revert st. induction s as [|c s IH]; intros st; [done|]. simpl.
  assert (Hs : ok (dur_step i st c) = ok (dur_step j st c)).
  { destruct st as [total in_time saw num]. unfold dur_step.
    destruct (Ascii.eqb c "T" || Ascii.eqb c "t"); [by repeat case_match|].
    destruct (is_ascii_digit c || _ || _); [done|]. destruct (parse_f64 num); [|done].
    pose proof (seconds_per_unit_input i j c in_time) as Hu.
    destruct (seconds_per_unit i c in_time), (seconds_per_unit j c in_time); simpl in *; by simplify_eq. }
  destruct (dur_step i st c), (dur_step j st c); simpl in *; simplify_eq; [apply IH|done].
Qed.

Lemma parse_timer_duration_input i j :
  trim i = trim j → ok (parse_timer_duration i) = ok (parse_timer_duration j).
Proof.
  intros Ht. unfold parse_timer_duration, calendar_component. rewrite Ht.
  destruct (x ← strip_letter "P" "p" (trim j); find_calendar x); [done|].
  unfold parse_iso8601_duration. rewrite Ht. destruct (strip_letter _ _ _) as [r|]; [|done].
  destruct (str_is_empty r); [done|].
  pose proof (dur_loop_input i j (mk_dur_scan (S754_zero false) false false "") r) as Hl.
  destruct (dur_loop i _ r), (dur_loop j _ r); simpl in Hl; simplify_eq; [|done].
  by repeat case_match.
Qed.

Lemma ok_Ok {E A} (r : result E A) a : ok r = Some a ↔ r = Ok a.
Proof. destruct r; simpl; split; congruence. Qed.

Section Persisted.
Context {tc : TimeCrate} {laws : TimeCrateLaws tc}.

Lemma instant_reparses at_ s :
  format_instant at_ = s → s ≠ "" →
  parse_timer_instant s = Ok (mk_odt (unix_nanos at_) 0) ∧ no_char "/" s = true.
Proof.
  unfold format_instant. destruct (rfc3339_format _) as [t|] eqn:Hf; [|done].
  intros -> Hne. destruct (rfc3339_plain _ _ Hf) as (Ht & Hs & _). split; [|done].
  unfold parse_timer_instant. rewrite Ht. destruct s; [done|]. simpl str_is_empty. cbv iota.
  by rewrite (rfc3339_round_trip _ _ Hf).
Qed.

(** What a loaded cycle is made of. *)
Record cycle_wf (c : TimerCycleSpec) : Prop := {
  wf_repeats : match repeats c with Some n => 1 <= n <= u32_max | None => True end;
  wf_start : match start_at c with
             | Some s => s ≠ "" → ∃ at_, s = format_instant at_ | None => True end;
  wf_interval : ∃ d, parse_timer_duration (interval c) = Ok d ∧ d ≠ 0;
  wf_interval_text : trim (interval c) = interval c ∧ no_char "/" (interval c) = true ∧ interval c ≠ ""
}.

Lemma parse_unsigned_range max s n : parse_unsigned max s = Some n → n <= max.
Proof. unfold parse_unsigned. repeat case_match; intros; simplify_eq; zbool; lia. Qed.

Lemma dec_value_nonneg acc s : 0 <= acc → string_all is_ascii_digit s = true → 0 <= dec_value acc s.
Proof.
  revert acc. induction s as [|c s IH]; simpl; intros acc Ha H; [done|].
  apply andb_true_iff in H as [Hc Hs]. apply IH; [|done]. unfold is_ascii_digit in Hc.
  unfold digit_val. lia.
Qed.

Lemma parse_unsigned_nonneg max s n : parse_unsigned max s = Some n → 0 <= n.
Proof.
  unfold parse_unsigned. intros H. repeat case_match; simplify_eq; by apply dec_value_nonneg.
Qed.

Lemma parse_repeats_wf i count r :
  parse_repeats i count = Ok r → match r with Some n => 1 <= n <= u32_max | None => True end.
Proof.
  unfold parse_repeats. case_if; [by intros [= <-]|].
  destruct (parse_unsigned u32_max count) as [n|] eqn:E; [|done].
  destruct (Z.eqb_spec n 0); [done|]. intros [= <-].
  apply parse_unsigned_range in E as Hr. apply parse_unsigned_nonneg in E. lia.
Qed.

Lemma parse_timer_cycle_wf input c : parse_timer_cycle input = Ok c → cycle_wf c.
Proof.
  unfold parse_timer_cycle. case_if; [done|]. destruct (strip_letter _ _ _) as [rest|]; [|done].
  pose proof (split_char_parts "/" rest) as Hparts. set (parts := split_char "/" rest) in *.
  intros H. apply result_bind_ok in H as (reps & Hreps & H).
  apply result_bind_ok in H as ([start i] & Hsi & H). apply result_bind_ok in H as (d & Hd & H).
  apply parse_repeats_wf in Hreps.
  destruct (Z.eqb_spec d 0); [done|]. injection H as <-.
  assert (Hi : no_char "/" i = true).
  { destruct parts as [|p ps]; [done|]. apply Forall_cons in Hparts as [_ Hps]. simpl in Hsi.
    destruct ps as [|a [|b [|? ?]]]; try done.
    - injection Hsi as <- <-. by inversion Hps.
    - apply result_bind_ok in Hsi as (? & _ & [= <- <-]). by inversion Hps as [|? ? ? Hb]; inversion Hb. }
  split; simpl; [done| | |].
  - destruct start as [at_|]; simpl; [|done]. by exists at_.
  - exists d. split; [|done]. apply ok_Ok. rewrite (parse_timer_duration_input _ i) by apply trim_idemp.
    by apply ok_Ok.
  - split; [apply trim_idemp|]. split; [by apply no_char_trim|]. intros E.
    assert (Ho := parse_timer_duration_input i "" E). by rewrite Hd in Ho.
Qed.

Lemma trim_letter c r : is_whitespace c = false → trim_end r = r → trim (String c r) = String c r.
Proof.
  intros Hc Hr. unfold trim. simpl. rewrite Hc. simpl. rewrite Hr.
  destruct r; [by rewrite Hc|done].
Qed.

(** A text [R<count>/<parts>/<interval>] is read back as these parts. *)
Lemma parse_repeats_print i n : 1 <= n <= u32_max → parse_repeats i (dec_string n) = Ok (Some n).
Proof.
  intros Hn. unfold parse_repeats.
  rewrite parse_unsigned_dec_string by lia. destruct (Z.eqb_spec n 0); [lia|].
  destruct (dec_string_numeral n) as [_ _ _ _ Hne]; [lia|]. by rewrite str_is_empty_length.
Qed.

Lemma spec_text_cycle_reparses c :
  cycle_wf c → start_at c ≠ Some "" → parse_timer_cycle (spec_text (TimerCycle c)) = Ok c.
Proof.
  destruct c as [reps start ivl]. intros [Hr Hs [d [Hd Hd0]] (Ht & Hn & Hne)] Hstart; simpl in *.
  set (count := match reps with Some n => dec_string n | None => "" end).
  set (mid := match start with Some s => s +:+ "/" | None => "" end).
  assert (Hcount : no_char "/" count = true ∧ ∀ i, parse_repeats i count = Ok reps).
  { unfold count. destruct reps as [n|]; [|done]. split; [|by intros; apply parse_repeats_print].
    destruct (dec_string_numeral n) as [Hdig _ _ _ _]; [lia|]. by apply no_char_digits. }
  destruct Hcount as [Hcn Hcp].
  assert (Htail : trim_end (count +:+ "/" +:+ mid +:+ ivl) = count +:+ "/" +:+ mid +:+ ivl).
  { rewrite <- !string_app_assoc. apply trim_end_app; [|done]. rewrite <- Ht at 1. unfold trim.
    rewrite trim_end_idemp. exact Ht. }
  unfold parse_timer_cycle.
  rewrite trim_letter by done. change (str_is_empty (String _ _)) with false. cbv iota.
  change (strip_letter "R" "r" (String "R" ?x)) with (Some x). cbv iota beta zeta.
  change ("/" +:+ ?x) with (String "/" x). rewrite split_char_app by done. rewrite Hcp. simpl.
  assert (Hparts : split_char "/" (mid +:+ ivl) = match start with Some s => [s; ivl] | None => [ivl] end
    ∧ match start with Some s => ∃ n, parse_timer_instant s = Ok (mk_odt n 0)
        ∧ format_instant (mk_odt n 0) = s | None => True end).
  { unfold mid. destruct start as [s|]; [|split; [by apply split_char_none|done]].
    assert (Hse : s ≠ "") by congruence. destruct (Hs Hse) as [at_ Eat].
    destruct (instant_reparses at_ s) as [Hp Hns]; [done|done|]. split; [|by exists (unix_nanos at_)].
    rewrite string_app_assoc. change ("/" +:+ ivl) with (String "/" ivl).
    by rewrite split_char_app, split_char_none. }
  destruct Hparts as [-> Hinst]. destruct start as [s|]; simpl.
  - destruct Hinst as (n & -> & Hf). simpl. rewrite Hd. simpl. destruct (Z.eqb_spec d 0); [done|].
    by rewrite Hf, Ht.
  - rewrite Hd. simpl. destruct (Z.eqb_spec d 0); [done|]. by rewrite Ht.
Qed.

End Persisted.

(** ** Properties *)

(** The due instants at which a claimed cycle fires, given the instants [nows] of
    the successive fires. *)
Fixpoint cycle_fires {tc : TimeCrate} (spec : TimerCycleSpec) (due : OffsetDateTime)
    (remaining : option Z) (nows : list OffsetDateTime) : list Z :=
  match nows with
  | [] => []
  | now :: rest =>
      unix_nanos due ::
      match advance_cycle spec due remaining now with
      | Ok (Next due' remaining') => cycle_fires spec due' remaining' rest
      | _ => []
      end
  end.

Lemma advance_cycle_next {tc : TimeCrate} spec ivl due b now due' b' :
  parse_timer_duration (interval spec) = Ok ivl → advance_cycle spec due b now = Ok (Next due' b') →
  0 < ivl ∧ ∃ j, 1 <= j ∧ unix_nanos due' = unix_nanos due + j * ivl ∧ b' = (λ n, n - j) <$> b ∧
  (budget_ok b → budget_ok b').
Proof.
  intros Hp. pose proof (parse_timer_duration_nonneg _ _ Hp). unfold advance_cycle. rewrite Hp. simpl.
  destruct (Z.eqb_spec ivl 0); [done|]. destruct (spend b) as [b1|] eqn:Hs; [|done].
  unfold instant_add. case_if; [|done]. cbn [mbind result_bind].
  intros (j & Hj & Hd & Hb & _ & Hok)%advance_loop_next; [|lia]. simpl in Hd. split; [lia|].
  exists (j + 1). destruct (spend_next b b1 Hs) as [Hb1 Hok1]. repeat split; [lia|lia| |auto].
  rewrite Hb, Hb1. destruct b; simpl; [|done]. f_equal. lia.
Qed.

(** Advancing a cycle computes its closed form.  The loop that walks the grid
    ends within its fuel, and the result is the first slot strictly after [now] on
    the grid of the fired occurrence; the fire and every skipped slot spend one
    repeat each, and the cycle is exhausted exactly when those use up the budget. *)
Theorem advance_cycle_closed_form `{TimeCrate} spec ivl due remaining now :
  parse_timer_duration (interval spec) = Ok ivl → 0 < ivl → remaining_ok remaining →
  unix_nanos due + (elapsed_slots ivl (unix_nanos due) (unix_nanos now) + 1) * ivl <= instant_max →
  advance_cycle spec due remaining now = Ok (advance_spec ivl due remaining now).
Proof.
  intros Hp Hi Hr Hmax. unfold advance_cycle, advance_spec. rewrite Hp. simpl.
  destruct (Z.eqb_spec ivl 0) as [|_]; [lia|].
  set (k := elapsed_slots ivl (unix_nanos due) (unix_nanos now)) in *.
  assert (Hk : 0 <= k) by (unfold k, elapsed_slots; lia).
  destruct (decide (remaining = Some 0)) as [->|Hne].
  { simpl. destruct (Z.leb_spec 0 (k + 1)); [done|lia]. }
  assert (Hb : budget_ok remaining).
  { destruct remaining as [n|]; simpl in *; [|done]. assert (n ≠ 0) by congruence. lia. }
  pose proof (spend_spec remaining Hb) as Hsp. destruct (spend remaining) as [b|].
  2:{ subst remaining. destruct (Z.leb_spec 1 (k + 1)); [done|lia]. }
  destruct Hsp as [Hb' ->]. unfold instant_add.
  destruct (Z.leb_spec (unix_nanos due + ivl) instant_max); [|nia]. simpl.
  assert (Hfuel : k <= Z.of_nat (advance_fuel ivl now due))
    by (unfold advance_fuel, k, elapsed_slots; lia).
  rewrite advance_loop_spec; cbn [unix_nanos odt_offset]; try done;
    rewrite slots_due_elapsed by done; fold k; [|lia|lia].
  - replace (unix_nanos due + (k + 1) * ivl) with (unix_nanos due + ivl + k * ivl) by lia.
    destruct remaining as [n|]; simpl; [|done].
    destruct (Z.leb_spec (n - 1) k), (Z.leb_spec n (k + 1)); try lia; [done|]. done.
Qed.

Lemma advance_cycle_closed_form_witness :
  advance_cycle (mk_cycle (Some 3) None "PT1H") (mk_odt 0 0) (Some 3) (mk_odt (90 * 60 * NANOS) 0)
  = Ok (Next (mk_odt (2 * 3600 * NANOS) 0) (Some 1)).
Proof.
  apply (advance_cycle_closed_form (mk_cycle (Some 3) None "PT1H") (3600 * NANOS));
    vm_compute; congruence.
Defined.

(** A cycle with a repeat count [n] never fires more than [n] times, whatever
    the instants of the fires, and every fire is at one of the first [n] slots of
    its grid: a skipped slot is never replayed and the schedule never outlives its
    last slot. *)
Theorem cycle_never_exceeds_repeats `{TimeCrate} spec ivl due n nows :
  parse_timer_duration (interval spec) = Ok ivl → 1 <= n →
  Z.of_nat (length (cycle_fires spec due (Some n) nows)) <= n ∧
  Forall (λ t, ∃ j, 0 <= j < n ∧ t = unix_nanos due + j * ivl) (cycle_fires spec due (Some n) nows).
Proof.
  intros Hp. revert due n. induction nows as [|now nows IH]; intros due n Hn; simpl; [split; [lia|done]|].
  assert (Hhere : ∃ j, 0 <= j < n ∧ unix_nanos due = unix_nanos due + j * ivl) by (exists 0; lia).
  destruct (advance_cycle spec due (Some n) now) as [[due' b'|]|] eqn:Ha;
    [|split; [simpl; lia|by repeat constructor]..].
  destruct (advance_cycle_next _ _ _ _ _ _ _ Hp Ha) as (Hi & j & Hj & Hd & -> & Hok).
  specialize (Hok Hn). simpl in Hok. destruct (IH due' (n - j) Hok) as [Hlen Hall].
  split; [simpl; lia|]. constructor; [done|]. eapply Forall_impl; [exact Hall|].
  intros t (i & Hi' & ->). exists (i + j). rewrite Hd. split; lia.
Qed.

Lemma cycle_never_exceeds_repeats_witness :
  Z.of_nat (length (cycle_fires (mk_cycle (Some 2) None "PT1H") (mk_odt 0 0) (Some 2)
    [mk_odt 0 0; mk_odt (3600 * NANOS) 0; mk_odt (9 * 3600 * NANOS) 0])) <= 2.
Proof.
  apply (cycle_never_exceeds_repeats (mk_cycle (Some 2) None "PT1H") (3600 * NANOS));
    [vm_compute; reflexivity|lia].
Defined.

(** A timer definition as the loader leaves it: a literal that parsed. *)
Definition loaded_timer {tc : TimeCrate} (def : TimerDefinition) : Prop :=
  match def with
  | TimerDuration d => is_ok (parse_timer_duration d) = true
  | TimerDate d => is_ok (parse_timer_instant d) = true
  | TimerCycle c => (∃ input, parse_timer_cycle input = Ok c) ∧ start_at c ≠ Some ""
  | TimerExpression _ _ => False
  end.

(** A loaded timer survives persistence.  The definition rebuilt from the
    [kind] and [spec] columns of its schedule row is the definition itself: repeat
    count, normalised anchor and interval included. *)
Theorem timer_persisted_roundtrip (tc : TimeCrate) (def : TimerDefinition) :
  TimeCrateLaws tc → loaded_timer def → from_persisted (kind_str def) (spec_text def) = Ok def.
Proof.
  intros Hl. destruct def as [d|d|c|form e]; intros Hd.
  - unfold from_persisted. simpl in *. by destruct (parse_timer_duration d).
  - unfold from_persisted. simpl in *. by destruct (parse_timer_instant d).
  - destruct Hd as [[input Hc] Hs]. unfold from_persisted.
    change (kind_str (TimerCycle c)) with TIMER_KIND_CYCLE. simpl String.eqb. cbv iota.
    rewrite spec_text_cycle_reparses; [done| |done]. by apply (parse_timer_cycle_wf input).
  - done.
Qed.

Lemma timer_persisted_roundtrip_witness :
  spec_text (TimerCycle (mk_cycle (Some 5) None "PT1H")) = "R5/PT1H" ∧
  from_persisted "CYCLE" "R5/PT1H" = Ok (TimerCycle (mk_cycle (Some 5) None "PT1H")).
Proof.
  split; [reflexivity|].
  apply (timer_persisted_roundtrip plain_time_crate (TimerCycle (mk_cycle (Some 5) None "PT1H")));
    [apply _|]. split; [exists " r+5/PT1H "; vm_compute; reflexivity|discriminate].
Defined.

(** A duration literal longer than [std::time::Duration] can hold is not
    rejected: [parse_iso8601_duration] reaches [Duration::from_secs_f64], which
    panics, although the sum of its seconds is finite and non-negative. *)
Theorem oversized_duration_panics :
  parse_iso8601_duration "PT99999999999999999999S" = Err Panicked ∧
  parse_timer_duration "P99999999999999999D" = Err Panicked ∧
  parse_iso8601_duration "PT18446744073709549568S" = Ok (18446744073709549568 * NANOS).
Proof. vm_compute. repeat split. Qed.

Example suggestions :
  suggest_duration_literal "PT10SEC" = Some "PT10S" ∧ suggest_duration_literal "pt5m" = Some "PT5M" ∧
  suggest_duration_literal "P1DAY" = Some "P1D" ∧ suggest_duration_literal "PT1H30MIN" = Some "PT1H30M" ∧
  suggest_duration_literal "PT5X" = None.
Proof. vm_compute. repeat split. Qed.

Lemma take_while_length f s a b :
  take_while f s = (a, b) → String.length s = (String.length a + String.length b)%nat.
Proof.
  revert a b. induction s as [|c s IH]; simpl; intros a b H; [by simplify_eq|].
  destruct (f c); [|by simplify_eq]. destruct (take_while f s) as [a' b'] eqn:E. simplify_eq.
  simpl. by rewrite (IH _ _ eq_refl).
Qed.

(** The length of the text is enough fuel for the suggestion scan. *)
Lemma suggest_loop_fuel f g chars in_time seen date time :
  (String.length chars <= f)%nat → (String.length chars <= g)%nat →
  suggest_loop f chars in_time seen date time = suggest_loop g chars in_time seen date time.
Proof.
  revert g chars in_time seen date time.
  induction f as [|f IH]; intros g chars in_time seen date time Hf Hg.
  { destruct chars; [by destruct g|simpl in Hf; lia]. }
  destruct chars as [|c chars]; [by destruct g|]. destruct g as [|g]; [simpl in Hg; lia|].
  cbn [suggest_loop]. destruct (take_while _ (String c chars)) as [number rest] eqn:E1.
  destruct (take_while is_ascii_alphabetic rest) as [word rest'] eqn:E2.
  apply take_while_length in E1, E2. cbn [String.length] in Hf, Hg, E1.
  destruct (str_is_empty number) eqn:En.
  - destruct (String.eqb_spec word "T") as [->|]; [|done]. cbn [String.length] in E2.
    case_if; [|done]. apply IH; lia.
  - assert (0 < String.length number)%nat by (destruct number; [done|simpl; lia]).
    destruct (unit_of_word word in_time) as [u|]; [|done]. cbn [mbind option_bind].
    case_if; [apply IH; lia|]. case_if; [apply IH; lia|done].
Qed.

(** A mistyped timer literal never turns into an expression.  A text is
    scheduled as a literal exactly when it parses as one; it becomes a FEEL
    expression only when it is neither blank nor shaped like a literal and FEEL
    accepts it; and a rejection keeps the kind (unsupported form or malformed) of
    the literal's own. *)
Theorem classify_timer_text_sound (tc : TimeCrate) (feel_parse : string → result string FeelExpr)
    (form : TimerExpressionForm) (text : string) :
  match classify_timer_text feel_parse form text with
  | Ok ClassLiteral => validate_timer_literal form text = Ok ()
  | Ok ClassExpression =>
      is_literal_shaped form text = false ∧ trim text ≠ "" ∧ is_ok (feel_parse (trim text)) = true ∧
      ∃ r, validate_timer_literal form text = Err (Rejected r)
  | Err (Rejected r) =>
      ∃ r', validate_timer_literal form text = Err (Rejected r') ∧
        is_unsupported_form r = is_unsupported_form r' ∧ starts_with (reason r') (reason r) = true
  | Err f => validate_timer_literal form text = Err f
  end.
Proof.
  assert (Hpre : ∀ a b, starts_with a (a +:+ b) = true).
  { induction a as [|c a IH]; intros b; simpl; [done|]. by rewrite Ascii.eqb_refl, IH. }
  assert (Hrefl : ∀ a, starts_with a a = true).
  { intros a. rewrite <- (string_app_nil_r a) at 2. apply Hpre. }
  unfold classify_timer_text. destruct (validate_timer_literal form text) as [[]|[r| |]] eqn:Hv; [done| |done|done].
  destruct (str_is_empty (trim text)) eqn:Hb; simpl.
  { destruct form; try (by exists r); destruct (suggest_duration_literal text); exists r; by destruct r; simpl. }
  destruct (is_literal_shaped form text) eqn:Hs.
  { destruct form; try (by exists r); destruct (suggest_duration_literal text); exists r; by destruct r; simpl. }
  destruct (feel_parse (trim text)) as [e|m] eqn:Hf.
  - repeat split; [|by eauto]. intros E. by rewrite E in Hb.
  - exists r. by destruct r; simpl.
Qed.
