(* ===== verification/ProcessModel.v ===== *)
(** * The process model ([sutra-bpmn/src/model.rs], [sutra-bpmn/src/qbindings.rs],
    [sutra-bpmn/src/error.rs])

    Nodes and process definitions are one mutual inductive, as a sub-process node
    holds a definition.  A [HashMap] is a [gmap].  Regular expressions belong to
    the [regex] crate: [select_start_events] takes the matcher as an argument.

    The theorems: the flow indices [ProcessDefinition::of] builds answer exactly
    the scan of the flow list, in declaration order; and start-event selection
    returns the highest tier that has a match. *)
From Stdlib Require Import ZArith Lia Bool Ascii String.
From stdpp Require Import base list option gmap strings.
From S2P Require Import Prelude Decimal FeelValue Timer.

Open Scope string_scope.
Open Scope list_scope.
Open Scope Z_scope.

(** ** Errors *)

Record SutraError : Type := mk_error { code : string; message : string }.

Definition PARSE_BPMN_MISSING_PROCESS : string := "SUTRA.PARSE.BPMN.MISSING_PROCESS".
Definition RESOLVE_TASK_NAME_COLLISION : string := "SUTRA.RESOLVE.TASK.NAME_COLLISION".
Definition RESOLVE_MODULE_NOT_FOUND : string := "SUTRA.RESOLVE.MODULE.NOT_FOUND".

(** ** [q:] bindings *)

Inductive AckMode : Type := OnPersist | OnComplete.
Inductive DataClass : Type := ClassNone | Pii | Pci | Phi | Financial.
Inductive OnNoMatch : Type := NoMatchError | NoMatchSkip.
Inductive AliasConflict : Type := ConflictReject | ConflictCorrelate.
Inductive AuditCapture : Type := CaptureNone | CaptureMetadata | CapturePayload | CaptureMedia.
Inductive OnValidationMode : Type := ValidationRoute | ValidationReject | ValidationError.
Inductive OutboundAuthScheme : Type := Mtls | Bearer | Apikey.
Inductive ReplyMode : Type := Native | CloudeventBinary | CloudeventStructured | MatchInbound.

Definition audit_capture_str (c : AuditCapture) : string :=
  match c with
  | CaptureNone => "none" | CaptureMetadata => "metadata"
  | CapturePayload => "payload" | CaptureMedia => "media"
  end.

Record SimpleValidator : Type := mk_simple_validator { sv_reference : string; sv_path : string }.
Record HeaderAttr : Type := mk_header_attr { ha_name : string; ha_value : string }.

Record SourceBinding : Type := mk_source_binding {
  sb_channel : string; sb_name : string; sb_ack : AckMode; sb_dedup_key : option string;
  sb_message_type : option string; sb_data_class : DataClass; sb_complex_validators : list string;
  sb_simple_validators : list SimpleValidator; sb_redactors : list string;
  message_type_value : option string; message_type_pattern : option string;
  filter_expression : option string }.

Record CaseEntry : Type := mk_case_entry { ce_when : string; ce_called_element : string }.

Record DispatchTable : Type := mk_dispatch_table {
  default_called_element : option string; on_no_match : OnNoMatch; cases : list CaseEntry }.

Record AliasBinding : Type := mk_alias_binding {
  al_name : string; al_expression : string; al_unique : bool;
  al_on_conflict : option AliasConflict; al_multi : bool }.

Record ReceiptAttribute : Type := mk_receipt_attribute { ra_name : string; ra_expression : string }.

Record MessageDecodeBinding : Type := mk_message_decode {
  md_name : string; md_expression : string; md_codec : string;
  md_content_type_expression : option string; md_redactors : list string }.

Record ReplyBinding : Type := mk_reply_binding {
  rb_mode : ReplyMode; rb_destination : option string; rb_content_type : option string;
  rb_required : bool; rb_ce_type : option string; rb_ce_source : option string;
  rb_ce_subject : option string; rb_ce_data_content_type : option string;
  rb_auth : option OutboundAuthScheme; rb_auth_secret_ref : option string;
  rb_auth_header : option string; rb_message_type : option string; rb_codec : option string;
  continue_after : bool; rb_headers : list HeaderAttr }.

Record SendBinding : Type := mk_send_binding {
  sd_mode : ReplyMode; sd_destination : option string; sd_channel : option string;
  sd_content_type : option string; sd_ce_type : option string; sd_ce_source : option string;
  sd_ce_subject : option string; sd_ce_data_content_type : option string;
  sd_auth : option OutboundAuthScheme; sd_auth_secret_ref : option string;
  sd_auth_header : option string; sd_message_type : option string; sd_codec : option string;
  sd_headers : list HeaderAttr }.

Record AuditBinding : Type := mk_audit_binding {
  ab_sink : string; ab_target : option string; ab_capture : AuditCapture }.

Record OnValidationBinding : Type := mk_on_validation {
  ov_mode : OnValidationMode; ov_error_code : option string }.

Record TimeoutBinding : Type := mk_timeout { to_duration : string; to_duration_expression : bool }.

Record RetryBinding : Type := mk_retry {
  max_attempts : Z; initial_delay : string; initial_delay_expression : bool;
  backoff_coefficient : f64; max_delay : string; max_delay_expression : bool;
  non_retryable_codes : list string }.

Record OutputBinding : Type := mk_output { ob_variable : string }.

Record NodeBindings : Type := mk_bindings {
  nb_sources : list SourceBinding; nb_on_validation : option OnValidationBinding;
  nb_dispatch : option DispatchTable; nb_reply : option ReplyBinding; nb_send : option SendBinding;
  nb_aliases : list AliasBinding; nb_audit : option AuditBinding; nb_timeout : option TimeoutBinding;
  nb_output : option OutputBinding; nb_retry : option RetryBinding }.

Definition empty_bindings : NodeBindings := mk_bindings [] None None None None [] None None None None.

Definition nb_source (b : NodeBindings) : option SourceBinding := head (nb_sources b).

Definition is_none {A} (o : option A) : bool := negb (is_some o).
Definition is_nil {A} (l : list A) : bool := match l with [] => true | _ => false end.

Definition bindings_is_empty (b : NodeBindings) : bool :=
  is_nil (nb_sources b) && is_none (nb_on_validation b) && is_none (nb_dispatch b)
  && is_none (nb_reply b) && is_none (nb_send b) && is_nil (nb_aliases b) && is_none (nb_audit b)
  && is_none (nb_timeout b) && is_none (nb_output b) && is_none (nb_retry b).

Definition is_recognised_dedup_key (key : string) : bool :=
  let key := trim key in
  let named prefix := match strip_prefix prefix key with
                      | Some rest => negb (str_is_empty rest) | None => false end in
  String.eqb key "ce.id" || String.eqb key "amqp.message-id" || named "header." || named "body.".

(** ** Data *)

Inductive ThrowKind : Type :=
  ThrowNone | ThrowCompensate | ThrowMessage | ThrowSignal | ThrowEscalation | ThrowLink.
Inductive BoundaryKind : Type :=
  BoundaryError | BoundaryCompensation | BoundaryEscalation | BoundaryCancel | BoundaryTimer.
Inductive FieldType : Type := FieldString | FieldNumber | FieldBoolean | FieldAny.
Inductive BpmnDataSpelling : Type := SpellingProperty | SpellingDataObject.

#[export] Instance ThrowKind_eq_dec : EqDecision ThrowKind.
Proof. solve_decision. Defined.
#[export] Instance BoundaryKind_eq_dec : EqDecision BoundaryKind.
Proof. solve_decision. Defined.

Definition CHANNEL_CALL_PREFIX : string := "channel:".
Definition LOOP_COUNTER_VARIABLE : string := "loopCounter".
Definition DEFAULT_LOOP_ITEM_VARIABLE : string := "item".

Record ProcessAudit : Type := mk_process_audit { pa_sink : string; pa_capture : AuditCapture }.

Record DeclaredVariable : Type := mk_declared_variable {
  dv_name : string; dv_ty : FieldType; dv_schema : option string; dv_source : option string;
  dv_transient : bool; dv_sensitive : bool; dv_subject_key : bool }.

Definition declared_scalar (name : string) (ty : FieldType) : DeclaredVariable :=
  mk_declared_variable name ty None None false false false.

Record ShadowedBpmnVariable : Type := mk_shadowed {
  shv_name : string; shv_element_id : string; shv_spelling : BpmnDataSpelling }.

Record ParamBinding : Type := mk_param { pb_name : string; pb_expression : string }.

Inductive StoreQueryMode : Type := QueryPrefix | QueryRange (to_expression : string).
Inductive StoreAggregateFunction : Type := AggCount | AggSum.

Record StoreQueryAggregate : Type := mk_aggregate {
  ag_function : StoreAggregateFunction; ag_field : option string; ag_group_by : option string }.

Record StoreQuery : Type := mk_store_query {
  sq_mode : StoreQueryMode; sq_rows : bool; sq_limit : Z; sq_after_expression : option string;
  sq_aggregates : list StoreQueryAggregate }.

Record StoreRead : Type := mk_store_read {
  sr_store : string; sr_key_expression : string; sr_for_update : bool; sr_target_var : string;
  sr_query : option StoreQuery }.

Record Assignment : Type := mk_assignment { as_expression : string; as_target_var : string }.

Record StoreWrite : Type := mk_store_write {
  sw_store : string; sw_key_expression : string; sw_field : option string; sw_value_var : string;
  sw_expect_unchanged : bool; sw_expect_absent : bool }.

Record DataMapping : Type := mk_data_mapping {
  dm_inputs : list string; dm_outputs : list string; dm_store_reads : list StoreRead;
  dm_message_decodes : list MessageDecodeBinding; dm_assignments : list Assignment;
  dm_store_writes : list StoreWrite }.

Definition empty_mapping : DataMapping := mk_data_mapping [] [] [] [] [] [].

Definition mapping_is_empty (m : DataMapping) : bool :=
  is_nil (dm_inputs m) && is_nil (dm_outputs m) && is_nil (dm_store_reads m)
  && is_nil (dm_message_decodes m) && is_nil (dm_assignments m) && is_nil (dm_store_writes m).

Definition has_store_ops (m : DataMapping) : bool :=
  negb (is_nil (dm_store_reads m)) || negb (is_nil (dm_message_decodes m))
  || negb (is_nil (dm_assignments m)) || negb (is_nil (dm_store_writes m)).

Record CoveragePath : Type := mk_coverage_path { cp_id : string; cp_flows : list string }.

Record SequenceFlow : Type := mk_flow {
  flow_id : string; source_ref : string; target_ref : string; condition : option string }.

#[export] Instance SequenceFlow_eq_dec : EqDecision SequenceFlow.
Proof. solve_decision. Defined.

Definition flows_contiguous (a b : SequenceFlow) : bool := String.eqb (target_ref a) (source_ref b).

Record BpmnImport : Type := mk_import { import_type : string; namespace : string; location : string }.

(** ** Nodes and process definitions *)

Inductive Node : Type :=
| StartEvent (id : string) (name : option string) (channels : list string)
    (timer : option TimerDefinition)
| EndEvent (id : string) (name : option string)
| TerminateEndEvent (id : string) (name : option string)
| ErrorEvent (id : string) (name : option string) (error_code : option string)
| IntermediateThrowEvent (id : string) (name : option string) (kind : ThrowKind)
    (activity_ref : option string) (reference : option string)
| LinkCatchEvent (id : string) (name : option string) (link_name : string)
| MessageCatchEvent (id : string) (name : option string) (channels : list string)
    (message_ref : option string)
| EventBasedGateway (id : string) (name : option string)
| ReceiveTask (id : string) (name : option string) (channels : list string)
    (message_ref : option string)
| TimerCatchEvent (id : string) (name : option string) (timer : TimerDefinition)
| BoundaryEvent (id : string) (name : option string) (attached_to_ref : string)
    (kind : BoundaryKind) (error_code : option string) (escalation_code : option string)
    (interrupting : bool) (timer : option TimerDefinition)
| ServiceTask (id : string) (name : option string) (implementation : string)
    (data_mapping : DataMapping) (params : list ParamBinding) (stream : bool)
| DataTask (id : string) (name : option string) (data_mapping : DataMapping)
| ScriptTask (id : string) (name : option string) (script_file : string)
| ManualTask (id : string) (name : option string) (untyped : bool)
| SendTask (id : string) (name : option string)
| BusinessRuleTask (id : string) (name : option string) (decision_file : string)
| UserTask (id : string) (name : option string) (channels : list string)
| CallActivity (id : string) (name : option string) (called_element : string)
    (called_namespace : option string)
| SubProcess (id : string) (name : option string) (inner : ProcessDefinition)
| TransactionSubProcess (id : string) (name : option string) (inner : ProcessDefinition)
| AdHocSubProcess (id : string) (name : option string) (inner : ProcessDefinition)
    (completion_condition : option string) (parallel : bool)
| EventSubProcess (id : string) (name : option string) (inner : ProcessDefinition)
    (error_code : option string) (interrupting : bool)
| CancelEndEvent (id : string) (name : option string)
| ExclusiveGateway (id : string) (name : option string) (default_flow_id : option string)
| InclusiveGateway (id : string) (name : option string) (default_flow_id : option string)
| ParallelGateway (id : string) (name : option string)
| ComplexGateway (id : string) (name : option string) (default_flow_id : option string)
    (activation_condition : option string)
| MultiInstance (id : string) (name : option string) (inner : Node) (sequential : bool)
    (loop_cardinality : option string) (loop_data_input_ref : option string)
    (input_data_item : option string) (completion_condition : option string)
| StandardLoop (id : string) (name : option string) (inner : Node)
    (loop_condition : option string) (test_before : bool) (loop_maximum : option Z)
with ProcessDefinition : Type :=
| mk_process (id : string) (name : option string) (is_executable : bool) (module_version : string)
    (nodes : list Node) (flows : list SequenceFlow)
    (outgoing_by_source incoming_by_target : gmap string (list nat))
    (bindings : gmap string NodeBindings) (declared_variables : list DeclaredVariable)
    (shadowed_bpmn_variables : list ShadowedBpmnVariable) (coverage_paths : list CoveragePath)
    (audit : option ProcessAudit) (idempotent : bool) (receipt_attributes : list ReceiptAttribute).

Definition node_id (n : Node) : string :=
  match n with
  | StartEvent id _ _ _ | EndEvent id _ | TerminateEndEvent id _ | ErrorEvent id _ _
  | IntermediateThrowEvent id _ _ _ _ | LinkCatchEvent id _ _ | MessageCatchEvent id _ _ _
  | EventBasedGateway id _ | ReceiveTask id _ _ _ | TimerCatchEvent id _ _
  | BoundaryEvent id _ _ _ _ _ _ _ | ServiceTask id _ _ _ _ _ | DataTask id _ _
  | ScriptTask id _ _ | ManualTask id _ _ | SendTask id _ | BusinessRuleTask id _ _
  | UserTask id _ _ | CallActivity id _ _ _ | SubProcess id _ _ | TransactionSubProcess id _ _
  | AdHocSubProcess id _ _ _ _ | EventSubProcess id _ _ _ _ | CancelEndEvent id _
  | ExclusiveGateway id _ _ | InclusiveGateway id _ _ | ParallelGateway id _
  | ComplexGateway id _ _ _ | MultiInstance id _ _ _ _ _ _ _ | StandardLoop id _ _ _ _ _ => id
  end.

Definition process_id (p : ProcessDefinition) : string :=
  match p with mk_process id _ _ _ _ _ _ _ _ _ _ _ _ _ _ => id end.
Definition process_nodes (p : ProcessDefinition) : list Node :=
  match p with mk_process _ _ _ _ ns _ _ _ _ _ _ _ _ _ _ => ns end.
Definition process_flows (p : ProcessDefinition) : list SequenceFlow :=
  match p with mk_process _ _ _ _ _ fs _ _ _ _ _ _ _ _ _ => fs end.
Definition outgoing_by_source (p : ProcessDefinition) : gmap string (list nat) :=
  match p with mk_process _ _ _ _ _ _ o _ _ _ _ _ _ _ _ => o end.
Definition incoming_by_target (p : ProcessDefinition) : gmap string (list nat) :=
  match p with mk_process _ _ _ _ _ _ _ i _ _ _ _ _ _ _ => i end.
Definition process_bindings (p : ProcessDefinition) : gmap string NodeBindings :=
  match p with mk_process _ _ _ _ _ _ _ _ b _ _ _ _ _ _ => b end.
Definition coverage_paths (p : ProcessDefinition) : list CoveragePath :=
  match p with mk_process _ _ _ _ _ _ _ _ _ _ _ c _ _ _ => c end.
Definition process_audit (p : ProcessDefinition) : option ProcessAudit :=
  match p with mk_process _ _ _ _ _ _ _ _ _ _ _ _ a _ _ => a end.
Definition process_module_version (p : ProcessDefinition) : string :=
  match p with mk_process _ _ _ v _ _ _ _ _ _ _ _ _ _ _ => v end.
Definition declared_variables (p : ProcessDefinition) : list DeclaredVariable :=
  match p with mk_process _ _ _ _ _ _ _ _ _ d _ _ _ _ _ => d end.
Definition receipt_attributes (p : ProcessDefinition) : list ReceiptAttribute :=
  match p with mk_process _ _ _ _ _ _ _ _ _ _ _ _ _ _ r => r end.

(** [.entry(key).or_default().push(i)]. *)
Definition push_index (key : string) (i : nat) (m : gmap string (list nat)) : gmap string (list nat) :=
  <[key := default [] (m !! key) ++ [i]]> m.

Fixpoint index_flows (key : SequenceFlow → string) (i : nat) (fs : list SequenceFlow)
    (m : gmap string (list nat)) : gmap string (list nat) :=
  match fs with
  | [] => m
  | f :: fs => index_flows key (S i) fs (push_index (key f) i m)
  end.

(** The first element whose key was already seen. *)
Fixpoint first_duplicate {A} (key : A → string) (seen : gset string) (l : list A) : option A :=
  match l with
  | [] => None
  | x :: l => if decide (key x ∈ seen) then Some x else first_duplicate key ({[key x]} ∪ seen) l
  end.

Definition process_of (id : string) (name : option string) (is_executable : bool) (module_version : string)
    (nodes : list Node) (flows : list SequenceFlow) (bindings : gmap string NodeBindings)
    (declared_variables : list DeclaredVariable) : result SutraError ProcessDefinition :=
  match first_duplicate node_id ∅ nodes with
  | Some n => Err (mk_error RESOLVE_TASK_NAME_COLLISION ("Duplicate node id in process: " +:+ node_id n))
  | None =>
      let version := if str_is_empty (trim module_version) then "1.0" else module_version in
      Ok (mk_process id name is_executable version nodes flows
            (index_flows source_ref 0 flows ∅) (index_flows target_ref 0 flows ∅)
            bindings declared_variables [] [] None false [])
  end.

Definition with_coverage_paths (p : ProcessDefinition) (paths : list CoveragePath) : ProcessDefinition :=
  match p with
  | mk_process a b c d e f g h i j k _ m n o => mk_process a b c d e f g h i j k paths m n o
  end.

Definition with_audit (p : ProcessDefinition) (audit : option ProcessAudit) : ProcessDefinition :=
  match p with
  | mk_process a b c d e f g h i j k l _ n o => mk_process a b c d e f g h i j k l audit n o
  end.

Definition process_node (p : ProcessDefinition) (id : string) : result SutraError Node :=
  ok_or (mk_error RESOLVE_MODULE_NOT_FOUND
           ("Node not found in process " +:+ process_id p +:+ ": " +:+ id))
        (List.find (λ n, String.eqb (node_id n) id) (process_nodes p)).

(** [idx.iter().map(|&i| &self.flows[i])]. *)
Definition flows_at (p : ProcessDefinition) (idx : option (list nat)) : list SequenceFlow :=
  omap (λ i, process_flows p !! i) (default [] idx).

Definition outgoing (p : ProcessDefinition) (id : string) : list SequenceFlow :=
  flows_at p (outgoing_by_source p !! id).
Definition incoming (p : ProcessDefinition) (id : string) : list SequenceFlow :=
  flows_at p (incoming_by_target p !! id).

Definition bindings_for (p : ProcessDefinition) (id : string) : NodeBindings :=
  default empty_bindings (process_bindings p !! id).

Definition is_start_event (n : Node) : bool := match n with StartEvent _ _ _ _ => true | _ => false end.

(** Stable insertion by id: [sort_by_key]. *)
Fixpoint insert_by_id (n : Node) (l : list Node) : list Node :=
  match l with
  | [] => [n]
  | m :: l' => if String.leb (node_id n) (node_id m) then n :: l else m :: insert_by_id n l'
  end.

Definition sort_by_id (l : list Node) : list Node := foldr insert_by_id [] l.

Definition start_events (p : ProcessDefinition) : list Node :=
  sort_by_id (List.filter is_start_event (process_nodes p)).

Definition start_event (p : ProcessDefinition) : result SutraError Node :=
  match start_events p with
  | [s] => Ok s
  | l => Err (mk_error PARSE_BPMN_MISSING_PROCESS
           ("Process " +:+ process_id p +:+ " must have exactly one start event, found "
            +:+ dec_string (Z.of_nat (length l))))
  end.

Definition timer_start_events (p : ProcessDefinition) : list (string * TimerDefinition) :=
  omap (λ n, match n with StartEvent id _ _ (Some t) => Some (id, t) | _ => None end) (start_events p).

Definition has_retry_policy (p : ProcessDefinition) (id : string) : bool :=
  is_some (nb_retry (bindings_for p id)).
Definition retry_policy (p : ProcessDefinition) (id : string) : option RetryBinding :=
  nb_retry (bindings_for p id).
Definition has_continue_reply (p : ProcessDefinition) (id : string) : bool :=
  match nb_reply (bindings_for p id) with Some r => continue_after r | None => false end.

Fixpoint is_wait_state (n : Node) : bool :=
  match n with
  | UserTask _ _ _ | MessageCatchEvent _ _ _ _ | ReceiveTask _ _ _ _ | TimerCatchEvent _ _ _ => true
  | ServiceTask _ _ implementation _ _ _ => starts_with CHANNEL_CALL_PREFIX implementation
  | SubProcess _ _ inner | TransactionSubProcess _ _ inner => negb (is_sync_eligible inner)
  | _ => false
  end
with is_sync_eligible (p : ProcessDefinition) : bool :=
  match p with
  | mk_process _ _ _ _ nodes _ _ _ bindings _ _ _ _ _ _ =>
      let b id := default empty_bindings (bindings !! id) in
      forallb (λ n, negb (is_wait_state n)
        && negb (match nb_reply (b (node_id n)) with Some r => continue_after r | None => false end)
        && negb (is_some (nb_retry (b (node_id n))))) nodes
  end.

(** [&dyn SourcePredicate]: whether the caller's predicate holds at a node. *)
Definition SourcePredicate : Type := string → bool.
Definition PredicateUnavailable : SourcePredicate := λ _, false.
Definition PredicateAlways (b : bool) : SourcePredicate := λ _, b.

Section SelectStart.
(** [regex::Regex::new(p)] and [is_match]: [None] when the pattern does not compile. *)
Variable regex_is_match : string → string → option bool.
Variable p : ProcessDefinition.

Definition start_source (s : Node) : option SourceBinding := nb_source (bindings_for p (node_id s)).

Definition listens_on (channel : string) (s : Node) : bool :=
  match s with StartEvent _ _ channels _ => existsb (String.eqb channel) channels | _ => false end.

Definition source_holds (predicate : SourcePredicate) (s : Node) : bool :=
  match b ← start_source s; filter_expression b with
  | Some _ => predicate (node_id s)
  | None => true
  end.

Definition is_exact (mt : string) (s : Node) : bool :=
  match b ← start_source s; message_type_value b with Some v => String.eqb v mt | None => false end.

Definition is_pattern_match (mt : string) (s : Node) : bool :=
  match b ← start_source s; message_type_pattern b with
  | Some pat => default false (regex_is_match ("^(?:" +:+ pat +:+ ")$") mt)
  | None => false
  end.

Definition is_catch_all (s : Node) : bool :=
  match start_source s with
  | Some b => negb (is_some (message_type_value b) || is_some (message_type_pattern b))
  | None => true
  end.

Definition select_start_events (channel : string) (message_type : option string)
    (predicate : SourcePredicate) : list Node :=
  let candidates := List.filter (listens_on channel) (start_events p) in
  let tier f := List.filter (source_holds predicate) (List.filter f candidates) in
  let rest := tier is_catch_all in
  match message_type with
  | Some mt =>
      match tier (is_exact mt) with
      | (_ :: _) as exact => exact
      | [] => match tier (is_pattern_match mt) with (_ :: _) as matched => matched | [] => rest end
      end
  | None => rest
  end.

Definition select_start_event (channel : string) (message_type : option string)
    (predicate : SourcePredicate) : option Node :=
  head (select_start_events channel message_type predicate).
End SelectStart.

(** ** Modules *)

Record ProcessModule : Type := mk_module {
  target_namespace : string; module_version : option string; imports : list BpmnImport;
  processes : list ProcessDefinition }.

Definition module_of (ns : string) (imports : list BpmnImport) (ps : list ProcessDefinition)
    : result SutraError ProcessModule :=
  match first_duplicate process_id ∅ ps with
  | Some q => Err (mk_error RESOLVE_TASK_NAME_COLLISION ("Duplicate process id: " +:+ process_id q))
  | None => Ok (mk_module ns None imports ps)
  end.

Definition module_process (m : ProcessModule) (id : string) : result SutraError ProcessDefinition :=
  ok_or (mk_error RESOLVE_MODULE_NOT_FOUND
           ("Process not found in module " +:+ target_namespace m +:+ ": " +:+ id))
        (List.find (λ p, String.eqb (process_id p) id) (processes m)).

Definition with_audit_default (m : ProcessModule) (dflt : option ProcessAudit) : ProcessModule :=
  match dflt with
  | Some d =>
      mk_module (target_namespace m) (module_version m) (imports m)
        (map (λ q, if is_none (process_audit q) then with_audit q (Some d) else q) (processes m))
  | None => m
  end.

(** ** Lemmas *)

Lemma first_duplicate_none {A} (key : A → string) seen l :
  first_duplicate key seen l = None ↔ NoDup (key <$> l) ∧ ∀ x, x ∈ l → key x ∉ seen.
Proof.
  revert seen. induction l as [|x l IH]; intros seen; simpl.
  { split; [|done]. intros _. split; [constructor|]. intros x Hx. by apply elem_of_nil in Hx. }
  case_decide as Hd.
  { split; [done|]. intros [_ H]. exfalso. by apply (H x); [left|]. }
  rewrite IH. split.
  - intros [Hnd Hx]. split.
    + constructor; [|done]. intros (y & Hy & Hin)%list_elem_of_fmap.
      apply (Hx y Hin). set_solver.
    + intros y [->|Hy]%elem_of_cons; [done|]. specialize (Hx y Hy). set_solver.
  - intros [[Hn Hnd]%NoDup_cons Hx]. split; [done|]. intros y Hy.
    assert (key y ≠ key x) by (intros E; apply Hn; rewrite <- E; by apply list_elem_of_fmap_2).
    assert (key y ∉ seen) by (apply Hx; by right). set_solver.
Qed.

(** The positions, from [i] on, of the flows with key [k]. *)
Fixpoint positions (key : SequenceFlow → string) (k : string) (i : nat) (fs : list SequenceFlow) : list nat :=
  match fs with
  | [] => []
  | f :: fs => if String.eqb (key f) k then i :: positions key k (S i) fs else positions key k (S i) fs
  end.

Lemma index_flows_lookup key k i fs m :
  default [] (index_flows key i fs m !! k) = default [] (m !! k) ++ positions key k i fs.
Proof.
  revert i m. induction fs as [|f fs IH]; intros i m; simpl; [by rewrite app_nil_r|].
  rewrite IH. unfold push_index. destruct (String.eqb_spec (key f) k) as [->|Hne].
  - rewrite lookup_insert_eq. simpl. by rewrite <- app_assoc.
  - by rewrite lookup_insert_ne by done.
Qed.

Lemma positions_flows key k pre fs :
  omap (λ i, (pre ++ fs) !! i) (positions key k (length pre) fs) = List.filter (λ f, String.eqb (key f) k) fs.
Proof.
  revert pre. induction fs as [|f fs IH]; intros pre; simpl; [done|].
  specialize (IH (pre ++ [f])). rewrite length_app, Nat.add_1_r, <- app_assoc in IH. simpl in IH.
  destruct (String.eqb (key f) k); simpl; [|done].
  rewrite list_lookup_middle by done. simpl. f_equal. exact IH.
Qed.

Lemma flows_at_index key k fs :
  omap (λ i, fs !! i) (default [] (index_flows key 0 fs ∅ !! k)) = List.filter (λ f, String.eqb (key f) k) fs.
Proof. rewrite index_flows_lookup, lookup_empty. apply (positions_flows key k []). Qed.

Lemma insert_by_id_elem n m l : m ∈ insert_by_id n l ↔ m = n ∨ m ∈ l.
Proof.
  induction l as [|x l IH]; simpl; [set_solver|]. destruct (String.leb _ _); set_solver.
Qed.

Lemma sort_by_id_elem n l : n ∈ sort_by_id l ↔ n ∈ l.
Proof.
  unfold sort_by_id. induction l as [|x l IH]; simpl; [done|].
  rewrite insert_by_id_elem, IH. set_solver.
Qed.

Lemma elem_of_filter_bool {A} (f : A → bool) x l : x ∈ List.filter f l ↔ x ∈ l ∧ f x = true.
Proof. rewrite !list_elem_of_In. apply filter_In. Qed.

(** A node of the process at a tier: it listens on the channel, is of the tier, and
    its predicate holds. *)
Definition at_tier (p : ProcessDefinition) (channel : string) (predicate : SourcePredicate)
    (tier : Node → bool) (s : Node) : Prop :=
  s ∈ process_nodes p ∧ listens_on channel s = true ∧ tier s = true ∧ source_holds p predicate s = true.

Lemma tier_elem p channel predicate tier s :
  s ∈ List.filter (source_holds p predicate) (List.filter tier (List.filter (listens_on channel) (start_events p)))
  ↔ at_tier p channel predicate tier s.
Proof.
  rewrite !elem_of_filter_bool. unfold start_events. rewrite sort_by_id_elem, elem_of_filter_bool.
  unfold at_tier. split; [tauto|]. intros (Hn & Hl & Ht & Hh). repeat split; try done.
  by destruct s.
Qed.

Lemma tier_empty p channel predicate tier :
  List.filter (source_holds p predicate) (List.filter tier (List.filter (listens_on channel) (start_events p))) = []
  → ∀ s, ¬ at_tier p channel predicate tier s.
Proof. intros E s Hs. apply tier_elem in Hs. rewrite E in Hs. by apply elem_of_nil in Hs. Qed.

(** The flow indices answer the scan of the flow list. *)
Definition well_indexed (p : ProcessDefinition) : Prop :=
  (∀ k, outgoing p k = List.filter (λ f, String.eqb (source_ref f) k) (process_flows p)) ∧
  (∀ k, incoming p k = List.filter (λ f, String.eqb (target_ref f) k) (process_flows p)).

Lemma process_of_well_indexed id name exec version nodes flows bindings vars p :
  process_of id name exec version nodes flows bindings vars = Ok p → well_indexed p.
Proof.
  unfold process_of. destruct (first_duplicate _ _ _); [done|]. intros [= <-]. split; intros k; apply flows_at_index.
Qed.

(** ** Properties *)

(** [ProcessDefinition::of] accepts exactly the node lists without a repeated
    id, and the process it builds answers [outgoing] and [incoming] with exactly
    the flows that leave and enter a node, in declaration order, and [node] with
    the node of that id. *)
Theorem process_of_indexes id name exec version nodes flows bindings vars :
  match process_of id name exec version nodes flows bindings vars with
  | Ok p =>
      NoDup (node_id <$> nodes) ∧
      (∀ k, outgoing p k = List.filter (λ f, String.eqb (source_ref f) k) flows) ∧
      (∀ k, incoming p k = List.filter (λ f, String.eqb (target_ref f) k) flows) ∧
      (∀ n, n ∈ nodes → process_node p (node_id n) = Ok n)
  | Err e => ¬ NoDup (node_id <$> nodes) ∧ code e = RESOLVE_TASK_NAME_COLLISION
  end.
Proof.
  unfold process_of. destruct (first_duplicate node_id ∅ nodes) as [d|] eqn:E.
  { split; [|done]. intros Hnd. cut (first_duplicate node_id ∅ nodes = None); [congruence|].
    apply first_duplicate_none. split; [done|set_solver]. }
  apply first_duplicate_none in E as [Hnd _]. split; [done|].
  split; [intros k; apply flows_at_index|]. split; [intros k; apply flows_at_index|].
  intros n Hn. unfold process_node. simpl.
  rewrite (find_unique_key node_id nodes n) by done. done.
Qed.

(** Start-event selection returns the highest tier that has a match.  A node
    is selected exactly when it listens on the channel, its predicate holds, and it
    pins the message type exactly; or matches it by pattern and no exact match
    stands; or declares neither and no exact or pattern match stands.  A start event
    whose predicate is false never occupies its tier. *)
Theorem select_start_events_tiers regex p channel message_type predicate s :
  let at_ := at_tier p channel predicate in
  s ∈ select_start_events regex p channel message_type predicate ↔
  match message_type with
  | None => at_ (is_catch_all p) s
  | Some mt =>
      at_ (is_exact p mt) s ∨
      (at_ (is_pattern_match regex p mt) s ∧ ∀ s', ¬ at_ (is_exact p mt) s') ∨
      (at_ (is_catch_all p) s ∧ (∀ s', ¬ at_ (is_exact p mt) s') ∧
       ∀ s', ¬ at_ (is_pattern_match regex p mt) s')
  end.
Proof.
  intros at_. unfold select_start_events. cbv zeta. destruct message_type as [mt|]; [|apply tier_elem].
  pose proof (tier_elem p channel predicate (is_exact p mt)) as He.
  pose proof (tier_empty p channel predicate (is_exact p mt)) as Hne.
  destruct (List.filter _ (List.filter (is_exact p mt) _)) as [|x xs].
  2:{ cbv iota. rewrite He. split; [by left|].
      assert (Hx : at_ (is_exact p mt) x) by (apply He; by left).
      intros [?|[[_ Hno]|(_ & Hno & _)]]; [done|exfalso; by apply (Hno x)..]. }
  specialize (Hne eq_refl).
  pose proof (tier_elem p channel predicate (is_pattern_match regex p mt)) as Hp.
  pose proof (tier_empty p channel predicate (is_pattern_match regex p mt)) as Hnp.
  destruct (List.filter _ (List.filter (is_pattern_match regex p mt) _)) as [|x xs].
  - specialize (Hnp eq_refl). cbv iota. rewrite tier_elem. split; [by eauto|].
    intros [H|[[H _]|[H _]]]; [by apply Hne in H|by apply Hnp in H|done].
  - cbv iota. rewrite Hp. split; [by eauto|].
    assert (Hx : at_ (is_pattern_match regex p mt) x) by (apply Hp; by left).
    intros [H|[[H _]|(_ & _ & Hno)]]; [by apply Hne in H|done|exfalso; by apply (Hno x)].
Qed.
