(* ===== verification/FeelText.v ===== *)
(** * Text and JSON forms of FEEL values ([canonical_string_of] of
    [sutra-feel/src/value.rs] and the conversions of [sutra-executor/src/variables.rs])

    A [serde_json::Value] keeps numbers as their text (arbitrary precision) and
    objects in insertion order, which is how the workspace builds the crate.  The
    decimal text is the [BigDecimalText] interface; [BigDecimalTextLaws] is what
    the crate documents of it.

    The theorem: a value made of data only survives the trip through JSON, with
    the scale of every number. *)
From Stdlib Require Import ZArith Lia Bool Ascii String.
From stdpp Require Import base list option gmap strings.
From S2P Require Import Prelude Decimal FeelValue Temporal.

Open Scope string_scope.
Open Scope list_scope.
Open Scope Z_scope.

(** ** Canonical strings *)

(** [Display] of a date, and the calendar date of an instant at its own offset. *)
Class TimeText : Type := {
  date_display : Date → string;
  odt_date : OffsetDateTime → Date
}.

(** Seconds of the day at the instant's own offset. *)
Definition second_of_day (t : OffsetDateTime) : Z := (unix_nanos t / NANOS + odt_offset t) mod 86400.

Definition format_feel_instant `{TimeText} (t : OffsetDateTime) (q : option TimeQualifier) : string :=
  let d := odt_date t in
  let s := second_of_day t in
  (if date_year d <? 0 then "-" +:+ pad_left 4 (- date_year d) else pad_left 4 (date_year d))
    +:+ "-" +:+ two_digits (date_month d) +:+ "-" +:+ two_digits (date_day d)
    +:+ "T" +:+ two_digits (s / 3600) +:+ ":" +:+ two_digits (s mod 3600 / 60) +:+ ":" +:+ two_digits (s mod 60)
    +:+ format_subsecond (unix_nanos t mod NANOS) +:+ format_qualifier q.

Definition bool_string (b : bool) : string := if b then "true" else "false".

Section Canonical.
Context `{BigDecimalText, TimeText}.

Fixpoint canonical_string_of (v : FeelValue) : string :=
  match v with
  | Null => "null"
  | Boolean b => bool_string b
  | Number n => bd_to_string n
  | Str s => s
  | Instant t q => format_feel_instant t q
  | DateV d => date_display d
  | TimeV t q => format_time t q
  | Duration d => format_duration d
  | Function (mk_function params _ _ _ _ _) => "function(" +:+ String.concat ", " params +:+ ")"
  | Invocable _ params _ _ => "function(" +:+ String.concat ", " params +:+ ")"
  | Range (mk_range s e si ei _) =>
      (if si then "[" else "(") +:+ canonical_string_of s +:+ ".." +:+ canonical_string_of e
        +:+ (if ei then "]" else ")")
  | List xs => "[" +:+ String.concat ", " (map canonical_string_of xs) +:+ "]"
  | Map m => "{" +:+ String.concat ", " (map (λ e, e.1 +:+ "=" +:+ canonical_string_of e.2) m) +:+ "}"
  end.

(** ** JSON *)

Inductive Json : Type :=
| JNull
| JBool (b : bool)
| JNumber (text : string)
| JString (s : string)
| JArray (items : list Json)
| JObject (entries : list (string * Json)).

(** [Map::insert]: in place for a key that is there, else at the end. *)
Fixpoint json_insert (k : string) (j : Json) (m : list (string * Json)) : list (string * Json) :=
  match m with
  | [] => [(k, j)]
  | (k', j') :: r => if String.eqb k' k then (k', j) :: r else (k', j') :: json_insert k j r
  end.

Definition canonical_decimal_string (n : BigDecimal) : string :=
  let s := bd_to_string n in
  if String.eqb s "0" && (0 <? scale n) then "0." +:+ repeat_zero (Z.to_nat (scale n)) else s.

Fixpoint feel_to_json (v : FeelValue) : Json :=
  match v with
  | Null => JNull
  | Boolean b => JBool b
  | Number n => JNumber (canonical_decimal_string n)
  | Str s => JString s
  | List items => JArray (map feel_to_json items)
  | Map m => JObject (map (λ e, (e.1, feel_to_json e.2)) m)
  | other => JString (canonical_string_of other)
  end.

Fixpoint json_to_feel (j : Json) : FeelValue :=
  match j with
  | JNull => Null
  | JBool b => Boolean b
  | JNumber t => match bd_parse t with Some n => Number n | None => Null end
  | JString s => Str s
  | JArray items => List (map json_to_feel items)
  | JObject m => Map (fold_left (λ acc e, map_insert e.1 e.2 acc)
                        (map (λ e, (e.1, json_to_feel e.2)) m) [])
  end.

(** [Value::to_string] and [serde_json::from_str]: the crate's. *)
Class JsonText : Type := {
  json_to_string : Json → string;
  json_from_str : string → result string Json
}.

(** [Variables::to_json]. *)
Definition to_json (vars : Variables) : Json :=
  JObject (fold_left (λ acc e, json_insert e.1 (feel_to_json e.2) acc) vars []).
End Canonical.

(** Documented behaviour of the decimal text: zero prints as [0] at every scale,
    and a decimal with a non-negative scale parses back from its text. *)
Class BigDecimalTextLaws (t : BigDecimalText) : Prop := {
  bd_zero_text s : bd_to_string (mk_decimal 0 s) = "0";
  bd_zero_parse s : 0 < s → bd_parse ("0." +:+ repeat_zero (Z.to_nat s)) = Some (mk_decimal 0 s);
  bd_round_trip n : 0 <= scale n → mantissa n ≠ 0 ∨ scale n = 0 → bd_parse (bd_to_string n) = Some n;
  bd_nonzero_text n : mantissa n ≠ 0 → bd_to_string n ≠ "0"
}.

(** The keys of a [BTreeMap], in order. *)
Fixpoint keys_sorted (ks : list string) : bool :=
  match ks with
  | [] => true
  | k :: ks => forallb (λ k', bool_decide (String.compare k k' = Lt)) ks && keys_sorted ks
  end.

(** Values built from JSON's own kinds. *)
Fixpoint is_data (v : FeelValue) : bool :=
  match v with
  | Null | Boolean _ | Str _ => true
  | Number n => 0 <=? scale n
  | List xs => forallb is_data xs
  | Map m => keys_sorted (map fst m) && forallb (λ e, is_data e.2) m
  | _ => false
  end.

(** ** Lemmas *)

Lemma compare_lt_gt a b : String.compare a b = Lt → String.compare b a = Gt.
Proof. intros H. by rewrite String.compare_antisym, H. Qed.

Lemma map_insert_last {A} k (x : A) m :
  Forall (λ e, String.compare e.1 k = Lt) m → map_insert k x m = m ++ [(k, x)].
Proof.
  induction 1 as [|[k' y] m Hk Hm IH]; [done|]. simpl in *.
  by rewrite (compare_lt_gt _ _ Hk), IH.
Qed.

Lemma map_insert_sorted {A} (l acc : list (string * A)) :
  keys_sorted (map fst l) = true →
  (∀ a b, a ∈ acc → b ∈ l → String.compare a.1 b.1 = Lt) →
  fold_left (λ acc e, map_insert e.1 e.2 acc) l acc = acc ++ l.
Proof.
  revert acc. induction l as [|[k x] l IH]; simpl; intros acc Hs Hlt; [by rewrite app_nil_r|].
  apply andb_true_iff in Hs as [Hk Hs]. rewrite forallb_forall in Hk.
  rewrite map_insert_last.
  - rewrite IH; [by rewrite <-app_assoc|done|].
    intros a b [Ha|Ha%list_elem_of_singleton]%elem_of_app Hb; [apply Hlt; [done|by right]|subst a].
    specialize (Hk b.1). rewrite bool_decide_eq_true in Hk. apply Hk.
    apply in_map. by apply list_elem_of_In.
  - apply Forall_forall. intros a Ha. apply (Hlt a (k, x)); [done|by left].
Qed.

Lemma canonical_decimal_parses `{BigDecimalTextLaws} n :
  0 <= scale n → bd_parse (canonical_decimal_string n) = Some n.
Proof.
  intros Hs. unfold canonical_decimal_string. destruct (decide (mantissa n = 0)) as [Hz|Hz].
  - destruct n as [m s]. simpl in *. subst m. rewrite bd_zero_text. simpl.
    destruct (0 <? s) eqn:E; [by apply bd_zero_parse; lia|].
    assert (s = 0) as -> by lia. rewrite <-(bd_zero_text 0). apply bd_round_trip; simpl; auto with lia.
  - destruct (String.eqb_spec (bd_to_string n) "0") as [E|_]; [by destruct (bd_nonzero_text n Hz)|].
    simpl. apply bd_round_trip; auto.
Qed.

Section JsonRoundTrip.
Context `{BigDecimalTextLaws, TimeText}.

Lemma json_round_trip_data : ∀ v, is_data v = true → json_to_feel (feel_to_json v) = v.
Proof.
  fix IH 1. intros [| | | | | | | |items|m| | |]; simpl; intros Hd; try done.
  - rewrite canonical_decimal_parses by lia. done.
  - f_equal. rewrite map_map. induction items as [|x items IHi]; [done|].
    simpl in *. apply andb_true_iff in Hd as [Hx Hi]. f_equal; [by apply IH|by apply IHi].
  - apply andb_true_iff in Hd as [Hs Hd]. f_equal. rewrite map_map. simpl.
    assert (map (λ e, (e.1, json_to_feel (feel_to_json e.2))) m = m) as ->.
    { clear Hs. induction m as [|[k x] m IHm]; [done|]. simpl in *.
      apply andb_true_iff in Hd as [Hx Hm]. f_equal; [f_equal; by apply IH|by apply IHm]. }
    rewrite map_insert_sorted; [done|done|]. intros a b Ha. by apply elem_of_nil in Ha.
Qed.
End JsonRoundTrip.

(** ** A decimal text with the laws: plain notation *)

Lemma repeat_zero_digits k : string_all is_ascii_digit (repeat_zero k) = true.
Proof. induction k; done. Qed.

Lemma dec_value_zeros k acc s : dec_value acc (repeat_zero k +:+ s) = dec_value (acc * 10 ^ Z.of_nat k) s.
Proof.
  revert acc. induction k as [|k IH]; intros acc; [f_equal; simpl; lia|].
  simpl repeat_zero. simpl String.append. cbn [dec_value]. rewrite IH. f_equal.
  rewrite Nat2Z.inj_succ, Z.pow_succ_r by lia. change (digit_val "0") with 0. lia.
Qed.

Lemma dec_value_shift acc s : dec_value acc s = acc * 10 ^ Z.of_nat (String.length s) + dec_value 0 s.
Proof.
  revert acc. induction s as [|c s IH]; intros acc; [simpl; lia|].
  cbn [dec_value String.length]. rewrite IH, (IH (0 * 10 + _)), Nat2Z.inj_succ, Z.pow_succ_r by lia. lia.
Qed.

(** Text of [n] in exactly [w] digits. *)
Lemma pad_left_numeral w n :
  0 <= n < 10 ^ Z.of_nat w → (0 < w)%nat →
  string_all is_ascii_digit (pad_left w n) = true ∧ String.length (pad_left w n) = w ∧
  dec_value 0 (pad_left w n) = n.
Proof.
  intros Hn Hw. destruct (dec_string_numeral n) as [Hd Hv Hu Hl Hne]; [lia|].
  assert (Hlen : (String.length (dec_string n) <= w)%nat).
  { destruct (decide (n = 0)) as [->|]; [change (String.length (dec_string 0)) with 1%nat; lia|].
    apply Nat2Z.inj_le. assert (10 ^ (Z.of_nat (String.length (dec_string n)) - 1) < 10 ^ Z.of_nat w) as Hp by lia.
    apply Z.pow_lt_mono_r_iff in Hp; lia. }
  unfold pad_left. rewrite string_all_app, repeat_zero_digits, Hd, string_length_app, dec_value_zeros.
  split; [done|]. split; [|done].
  assert (∀ k, String.length (repeat_zero k) = k) as -> by (induction k; simpl; congruence). lia.
Qed.

Definition plain_text (n : BigDecimal) : string :=
  let a := Z.abs (mantissa n) in
  if mantissa n =? 0 then "0"
  else when (mantissa n <? 0) "-"
    +:+ (if scale n <=? 0 then dec_string (a * 10 ^ (- scale n))
         else dec_string (a / 10 ^ scale n) +:+ "." +:+ pad_left (Z.to_nat (scale n)) (a mod 10 ^ scale n)).

Definition plain_parse (s : string) : option BigDecimal :=
  let '(sg, body) := match strip_prefix "-" s with Some r => (-1, r) | None => (1, s) end in
  let '(whole, frac) := default (body, "") (split_once "." body) in
  if string_all is_ascii_digit (whole +:+ frac) && negb (str_is_empty whole)
  then Some (mk_decimal (sg * dec_value 0 (whole +:+ frac)) (Z.of_nat (String.length frac)))
  else None.

#[export] Instance plain_decimal_text : BigDecimalText := {|
  bd_to_string := plain_text; bd_parse := plain_parse |}.

(** Parsing an unsigned numeral with a fraction, under a sign. *)
Lemma plain_parse_numeral (neg : bool) whole frac :
  string_all is_ascii_digit whole = true → string_all is_ascii_digit frac = true → whole ≠ "" →
  plain_parse (when neg "-" +:+ whole +:+ (if str_is_empty frac then "" else "." +:+ frac)) =
  Some (mk_decimal ((if neg then -1 else 1) * dec_value 0 (whole +:+ frac)) (Z.of_nat (String.length frac))).
Proof.
  intros Hw Hf Hne. set (rest := if str_is_empty frac then "" else "." +:+ frac).
  assert (Hs : match strip_prefix "-" (when neg "-" +:+ whole +:+ rest) with
               | Some r => (-1, r) | None => (1, when neg "-" +:+ whole +:+ rest) end
               = (if neg then -1 else 1, whole +:+ rest)).
  { destruct neg; [done|]. destruct whole as [|c whole]; [done|]. simpl in Hw.
    apply andb_true_iff in Hw as [Hc _].
    assert (Hneg : Ascii.eqb "-" c = false) by (apply Ascii.eqb_neq; intros <-; done).
    unfold when. cbn [String.append strip_prefix]. by rewrite Hneg. }
  unfold plain_parse. rewrite Hs.
  assert (Hsp : default (whole +:+ rest, "") (split_once "." (whole +:+ rest)) = (whole, frac)).
  { assert (no_char "." whole = true) by by apply no_char_digits.
    unfold rest. destruct frac as [|c frac]; simpl str_is_empty; cbv iota.
    - by rewrite string_app_nil_r, split_once_none.
    - change ("." +:+ String c frac) with (String "." (String c frac)). by rewrite split_once_app. }
  rewrite Hsp, string_all_app, Hw, Hf. by destruct whole.
Qed.

Lemma numeral_nonzero_text n s : numeral_of n s → 0 < n → s ≠ "0".
Proof. intros [_ Hv _ _ _] Hn ->. change (dec_value 0 "0") with 0 in Hv. lia. Qed.

Lemma numeral_not_empty n s : numeral_of n s → s ≠ "".
Proof. intros [_ _ _ _ Hne] ->. simpl in Hne. lia. Qed.

#[export] Instance plain_decimal_text_laws : BigDecimalTextLaws plain_decimal_text.
Proof.
  split; simpl.
  - done.
  - intros s Hs. pose proof (plain_parse_numeral false "0" (repeat_zero (Z.to_nat s))) as Hp.
    rewrite repeat_zero_digits in Hp.
    assert (∀ k, String.length (repeat_zero k) = k) as Hl by (induction k; simpl; congruence).
    rewrite Hl, Z2Nat.id in Hp by lia.
    destruct (repeat_zero (Z.to_nat s)) as [|c z] eqn:E; [specialize (Hl (Z.to_nat s)); rewrite E in Hl; simpl in Hl; lia|].
    simpl str_is_empty in Hp. cbv iota in Hp. unfold when in Hp. simpl String.append in *.
    rewrite Hp by done. f_equal. f_equal. rewrite <-E. change (String "0" ?z) with ("0" +:+ z).
    rewrite dec_value_app. change (dec_value 0 "0") with 0.
    rewrite <-(string_app_nil_r (repeat_zero _)), dec_value_zeros. simpl. lia.
  - intros [m s] Hs Hm. simpl in *. unfold plain_text. simpl.
    destruct (m =? 0) eqn:Ez; [assert (m = 0 ∧ s = 0) as [-> ->] by lia; done|].
    case_if.
    + assert (s = 0) as -> by lia. rewrite Z.mul_1_r.
      pose proof (dec_string_numeral (Z.abs m) ltac:(lia)) as Hq.
      pose proof (plain_parse_numeral (m <? 0) (dec_string (Z.abs m)) "" (numeral_digits _ _ Hq) eq_refl
                    (numeral_not_empty _ _ Hq)) as Hp.
      simpl str_is_empty in Hp. cbv iota in Hp. rewrite !string_app_nil_r in Hp. rewrite Hp, (numeral_value _ _ Hq).
      simpl. do 2 f_equal. case_if; lia.
    + assert (Hpos : 0 < 10 ^ s) by lia.
      pose proof (Z.mod_pos_bound (Z.abs m) (10 ^ s) Hpos). pose proof (Z.div_mod (Z.abs m) (10 ^ s) ltac:(lia)).
      assert (0 <= Z.abs m / 10 ^ s) by (apply Z.div_pos; lia).
      pose proof (dec_string_numeral (Z.abs m / 10 ^ s) ltac:(lia)) as Hq.
      destruct (pad_left_numeral (Z.to_nat s) (Z.abs m mod 10 ^ s)) as (Hd & Hl & Hv); [rewrite Z2Nat.id; lia|lia|].
      pose proof (plain_parse_numeral (m <? 0) _ _ (numeral_digits _ _ Hq) Hd (numeral_not_empty _ _ Hq)) as Hp.
      rewrite str_is_empty_length in Hp by lia. simpl String.append in Hp. rewrite Hp, Hl, dec_value_app, (numeral_value _ _ Hq).
      rewrite dec_value_shift, Hv, Hl, Z2Nat.id by lia. do 2 f_equal. case_if; lia.
  - intros [m s] Hm. simpl in *. unfold plain_text. simpl. case_if; [lia|].
    destruct (m <? 0); [done|]. simpl. case_if.
    + apply (numeral_nonzero_text (Z.abs m * 10 ^ (- s))); [apply dec_string_numeral|]; lia.
    + intros E. apply (f_equal String.length) in E. rewrite !string_length_app in E. simpl in E.
      assert (Hpos : 0 < 10 ^ s) by lia.
      destruct (dec_string_numeral (Z.abs m / 10 ^ s)) as [_ _ _ _ Hne]; [apply Z.div_pos; lia|]. lia.
Qed.

(** ** Properties *)

(** A value made of null, booleans, strings, numbers of non-negative scale,
    lists and maps comes back from JSON as it was.  A computed zero keeps its
    scale: [0.00] is written as [0.00], not as [0]. *)
Theorem feel_json_round_trip `{TimeText} (t : BigDecimalText) (v : FeelValue) :
  BigDecimalTextLaws t → is_data v = true → json_to_feel (feel_to_json v) = v.
Proof. intros Hlaws. apply json_round_trip_data. Qed.

Definition plain_time_text : TimeText := {|
  date_display d := dec_string (date_year d);
  odt_date t := mk_date 1970 1 1 |}.

Lemma feel_json_round_trip_witness :
  let v := Map [("a", Number (mk_decimal 0 2)); ("b", List [Str "x"; Boolean true; Null])] in
  @feel_to_json plain_decimal_text plain_time_text v =
    JObject [("a", JNumber "0.00"); ("b", JArray [JString "x"; JBool true; JNull])] ∧
  @json_to_feel plain_decimal_text (@feel_to_json plain_decimal_text plain_time_text v) = v.
Proof.
  intros v. split; [vm_compute; reflexivity|].
  apply (@feel_json_round_trip plain_time_text plain_decimal_text v plain_decimal_text_laws).
  vm_compute. reflexivity.
Defined.
