(* ===== verification/TemporalParse.v ===== *)
(** * Temporal literals ([sutra-feel/src/temporal.rs]: [parse_at_literal] and the
    parsers it routes to)

    The [time] crate's own parsers, its calendar and the zone database are the
    [TimeParse] interface; what is modelled is how the source routes a text, splits
    off its zone and builds the value.

    The theorem: the text the engine prints for a duration, a date, a time or an
    instant is read back as that value, qualifier included, when the crate's parsers
    read the digits of its date and clock. *)
From Stdlib Require Import ZArith Lia Bool Ascii String.
From stdpp Require Import base list option gmap strings.
From S2P Require Import Prelude Decimal FeelValue Temporal FeelText.

Open Scope string_scope.
Open Scope list_scope.
Open Scope Z_scope.

(** [Date::parse], [Time::parse] and [PrimitiveDateTime::parse] at the formats the
    source gives them (the first of each pair is the one with [.subsecond]),
    [Date::from_calendar_date] (with [Month::try_from]), [replace_year],
    [get_by_name], [assume_timezone(..).take_first()], [assume_utc] and
    [checked_add] of a day. *)
Class TimeParse : Type := {
  date_parse : string → option Date;
  date_from_calendar : Z → Z → Z → option Date;
  date_replace_year : Date → Z → option Date;
  time_parse_subsecond : string → option Time;
  time_parse_plain : string → option Time;
  datetime_parse_subsecond : string → option (Date * Time);
  datetime_parse_plain : string → option (Date * Time);
  zone_known : string → bool;
  in_zone : string → Date * Time → option OffsetDateTime;
  at_utc : Date * Time → OffsetDateTime;
  odt_year : OffsetDateTime → Z;
  odt_replace_year : OffsetDateTime → Z → option OffsetDateTime;
  odt_next_day : OffsetDateTime → option OffsetDateTime
}.

(** [str::parse::<i32>]. *)
Definition parse_i32 (s : string) : option Z :=
  match strip_prefix "-" s with
  | Some r =>
      if string_all is_ascii_digit r && negb (str_is_empty r) && (dec_value 0 r <=? i32_max + 1)
      then Some (- dec_value 0 r) else None
  | None => parse_unsigned i32_max s
  end.

(** The first four bytes and the rest ([s.get(4..)]: a character boundary). *)
Definition four_and_rest (s : string) : option (string * string) :=
  match s with
  | String a (String b (String c (String d r))) =>
      let boundary := match r with String e _ => negb ((128 <=? ascii_Z e) && (ascii_Z e <=? 191)) | _ => true end in
      if boundary then Some (String a (String b (String c (String d ""))), r) else None
  | _ => None
  end.

(** The text before the first character of [f], and the text from it on. *)
Fixpoint span_until (f : ascii → bool) (s : string) : string * string :=
  match s with
  | EmptyString => ("", "")
  | String c r => if f c then ("", s) else let '(a, b) := span_until f r in (String c a, b)
  end.

(** The text before and after the first occurrence of [p]. *)
Fixpoint split_text (p s : string) : option (string * string) :=
  match strip_prefix p s with
  | Some rest => Some ("", rest)
  | None => match s with
            | EmptyString => None
            | String c r => '(a, b) ← split_text p r; Some (String c a, b)
            end
  end.

Definition zone_mark (c : ascii) : bool := Ascii.eqb c "+" || Ascii.eqb c "Z" || Ascii.eqb c "@".
Definition offset_mark (c : ascii) : bool := Ascii.eqb c "+" || Ascii.eqb c "-" || Ascii.eqb c "Z".

Definition strip_zone (s : string) : string :=
  match s with EmptyString => "" | String c r => String c (span_until zone_mark r).1 end.

(** A text that ends in [Z] or [z]. *)
Fixpoint ends_in_z (s : string) : bool :=
  match s with
  | EmptyString => false
  | String c "" => Ascii.eqb c "Z" || Ascii.eqb c "z"
  | String _ r => ends_in_z r
  end.

Section Parse.
Context `{TimeCrate, TimeParse}.

(** The year of a five- or six-digit date, and the text after its dash. *)
Definition long_year (s : string) : option (Z * string) :=
  '(four, r) ← four_and_rest s;
  '(more, rest) ← split_once "-" r;
  if negb (str_is_empty more) && starts_with "0" s then None
  else year ← parse_i32 (four +:+ more); Some (year, rest).

Definition parse_naive_date (s : string) : option Date :=
  match date_parse s with
  | Some d => Some d
  | None =>
      '(year, rest) ← long_year s;
      '(month, day) ← split_once "-" rest;
      month ← parse_unsigned 255 month;
      day ← parse_unsigned 255 day;
      date_from_calendar year month day
  end.

Definition parse_date (s : string) : option Date :=
  if starts_with "+" s then None
  else match strip_prefix "-" s with
       | Some rest => d ← parse_naive_date rest; date_replace_year d (- date_year d)
       | None => parse_naive_date s
       end.

Definition parse_naive_time (s : string) : option Time :=
  let s := if starts_with "24:00:00" s then "00:00:00" else s in
  match time_parse_subsecond s with Some t => Some t | None => time_parse_plain s end.

Definition parse_time (s : string) : option (Time * option TimeQualifier) :=
  match split_once "@" s with
  | Some (core, zone) =>
      if str_is_empty zone || negb (zone_known zone) then None
      else t ← parse_naive_time core; Some (t, Some (Zone zone))
  | None =>
      match span_until offset_mark s with
      | (core, EmptyString) => t ← parse_naive_time s; Some (t, None)
      | (core, suffix) =>
          t ← parse_naive_time core;
          if String.eqb suffix "Z" || String.eqb suffix "z" then Some (t, Some Zulu)
          else o ← parse_numeric_offset suffix; Some (t, Some (Offset o))
      end
  end.

Definition parse_naive_date_time (s : string) : option (Date * Time) :=
  match datetime_parse_subsecond s with
  | Some dt => Some dt
  | None =>
      match datetime_parse_plain s with
      | Some dt => Some dt
      | None =>
          '(year, rest) ← long_year s;
          '(month_day, time_part) ← split_once "T" rest;
          '(month, day) ← split_once "-" month_day;
          month ← parse_unsigned 255 month;
          day ← parse_unsigned 255 day;
          date ← date_from_calendar year month day;
          time ← parse_naive_time time_part;
          Some (date, time)
      end
  end.

Definition parse_date_time_unsigned (s : string) : option (OffsetDateTime * option TimeQualifier) :=
  match split_once "@" s with
  | Some (core, zone) =>
      if str_is_empty zone || negb (zone_known zone) then None
      else naive ← parse_naive_date_time core;
           resolved ← in_zone zone naive;
           Some (resolved, Some (Zone zone))
  | None =>
      match rfc3339_parse s with
      | Ok dt =>
          if 14 * 3600 <? Z.abs (odt_offset dt) then None
          else Some (dt, Some (if (odt_offset dt =? 0) && ends_in_z s then Zulu else Offset (odt_offset dt)))
      | Err _ => naive ← parse_naive_date_time s; Some (at_utc naive, None)
      end
  end.

(** A text with the end-of-day spelling is rewritten and read again; each round
    takes one [T24:00:00] away, so the text's length bounds them. *)
Fixpoint parse_date_time_rounds (rounds : nat) (s : string) : option (OffsetDateTime * option TimeQualifier) :=
  if starts_with "+" s then None
  else
    match split_text "T24:00:00" s, rounds with
    | Some (before, after), S rounds =>
        '(dt, q) ← parse_date_time_rounds rounds (before +:+ "T00:00:00" +:+ after);
        dt ← odt_next_day dt;
        Some (dt, q)
    | Some _, O => None
    | None, _ =>
        match strip_prefix "-" s with
        | Some rest =>
            '(dt, q) ← parse_date_time_unsigned rest;
            negated ← odt_replace_year dt (- odt_year dt);
            Some (negated, q)
        | None => parse_date_time_unsigned s
        end
    end.

Definition parse_date_time (s : string) : option (OffsetDateTime * option TimeQualifier) :=
  parse_date_time_rounds (String.length s) s.

Definition parse_at_literal (s : string) : option FeelValue :=
  let t := trim s in
  if starts_with "P" t || starts_with "-P" t then Duration <$> parse_duration t
  else
    let core := strip_zone t in
    if string_any (Ascii.eqb "T") core then (λ p, Instant p.1 p.2) <$> parse_date_time t
    else if string_any (Ascii.eqb ":") core then (λ p, TimeV p.1 p.2) <$> parse_time t
    else DateV <$> parse_date t.
End Parse.

(** ** Lemmas on texts *)

Lemma string_all_impl (f g : ascii → bool) s :
  (∀ c, f c = true → g c = true) → string_all f s = true → string_all g s = true.
Proof.
  intros Hfg. induction s as [|c s IH]; [done|]. simpl. intros [Hc Hs]%andb_true_iff.
  by rewrite (Hfg c Hc), IH.
Qed.

Lemma string_any_app f s t : string_any f (s +:+ t) = string_any f s || string_any f t.
Proof. induction s as [|c s IH]; [done|]. simpl. by rewrite IH, orb_assoc. Qed.

Lemma string_any_none f g s :
  (∀ c, g c = true → f c = false) → string_all g s = true → string_any f s = false.
Proof.
  intros Hfg. induction s as [|c s IH]; [done|]. simpl. intros [Hc Hs]%andb_true_iff.
  by rewrite (Hfg c Hc), IH.
Qed.

Lemma span_until_app f g a b :
  (∀ c, g c = true → f c = false) → string_all g a = true →
  span_until f (a +:+ b) = (a +:+ (span_until f b).1, (span_until f b).2).
Proof.
  intros Hfg. induction a as [|c a IH]; simpl; [by destruct (span_until f b)|].
  intros [Hc Ha]%andb_true_iff. by rewrite (Hfg c Hc), IH.
Qed.

Lemma trim_solid s : string_all (λ c, negb (is_whitespace c)) s = true → trim s = s.
Proof.
  intros Hs. assert (He : trim_end s = s).
  { induction s as [|c s IH]; [done|]. simpl in *. apply andb_true_iff in Hs as [Hc Hs].
    rewrite (IH Hs). destruct s; [|done]. by apply negb_true_iff in Hc as ->. }
  unfold trim. destruct s as [|c s]; [done|]. simpl in Hs. apply andb_true_iff in Hs as [Hc%negb_true_iff _].
  cbn [trim_start]. by rewrite Hc.
Qed.

(** The characters of a printed clock: digits, colons and the dot. *)
Definition clock_char (c : ascii) : bool := is_ascii_digit c || Ascii.eqb c ":" || Ascii.eqb c ".".

Lemma clock_char_digit c : is_ascii_digit c = true → clock_char c = true.
Proof. unfold clock_char. by intros ->. Qed.

(** Decide a test of a character class by its sixteen characters. *)
Lemma clock_char_cases (P : ascii → Prop) :
  P "."%char → P ":"%char → P "0"%char → P "1"%char → P "2"%char → P "3"%char → P "4"%char →
  P "5"%char → P "6"%char → P "7"%char → P "8"%char → P "9"%char →
  ∀ c, clock_char c = true → P c.
Proof.
  intros ? ? ? ? ? ? ? ? ? ? ? ? c Hc.
  destruct c as [[] [] [] [] [] [] [] []]; vm_compute in Hc; try discriminate Hc; assumption.
Qed.

Ltac clock_cases := apply clock_char_cases; reflexivity.

Lemma two_digits_clock n : 0 <= n < 100 → string_all clock_char (two_digits n) = true.
Proof.
  intros. unfold two_digits. cbn [string_all].
  by rewrite !clock_char_digit by (apply digit_char_is_digit; Z.div_mod_to_equations; lia).
Qed.

Lemma trim_end_zeros_all f s : string_all f s = true → string_all f (trim_end_zeros s) = true.
Proof.
  induction s as [|c s IH]; [done|]. simpl. intros [Hc Hs]%andb_true_iff.
  destruct (trim_end_zeros s); [case_match; simpl; by rewrite ?Hc|]. simpl in *. by rewrite Hc, IH.
Qed.

Lemma subsecond_clock n : 0 <= n < 1000000000 → string_all clock_char (format_subsecond n) = true.
Proof.
  intros Hn. unfold format_subsecond. case_if; [done|]. simpl.
  apply trim_end_zeros_all, (string_all_impl is_ascii_digit); [apply clock_char_digit|].
  by apply (pad_left_numeral 9 n); [|lia].
Qed.

Definition valid_time (t : Time) : Prop :=
  0 <= hour t < 24 ∧ 0 <= minute t < 60 ∧ 0 <= second t < 60 ∧ 0 <= nanosecond t < 1000000000.

Definition time_text (t : Time) : string :=
  two_digits (hour t) +:+ ":" +:+ two_digits (minute t) +:+ ":" +:+ two_digits (second t)
    +:+ format_subsecond (nanosecond t).

Lemma format_time_text t q : format_time t q = time_text t +:+ format_qualifier q.
Proof. unfold format_time, time_text. by rewrite !string_app_assoc. Qed.

Lemma time_text_clock t : valid_time t → string_all clock_char (time_text t) = true.
Proof.
  intros (? & ? & ? & ?). unfold time_text. rewrite !string_all_app.
  rewrite !two_digits_clock, subsecond_clock by lia. done.
Qed.

Lemma time_text_head t : valid_time t → ∃ c r, time_text t = String c r ∧ is_ascii_digit c = true.
Proof.
  intros (? & _). unfold time_text, two_digits. simpl. do 2 eexists. split; [done|].
  apply digit_char_is_digit. Z.div_mod_to_equations. lia.
Qed.

Lemma time_text_colon t : string_any (Ascii.eqb ":") (time_text t) = true.
Proof. unfold time_text. rewrite !string_any_app. simpl. by rewrite orb_true_r. Qed.

Lemma not_end_of_day h r : 0 <= h < 24 → starts_with "24:00:00" (two_digits h +:+ r) = false.
Proof.
  intros Hh. unfold two_digits. cbn [String.append starts_with].
  destruct (Ascii.eqb_spec "2" (digit_char (h / 10))) as [E1|]; [|done].
  destruct (Ascii.eqb_spec "4" (digit_char (h mod 10))) as [E2|]; [|done].
  apply (f_equal ascii_Z) in E1, E2. rewrite digit_char_Z in E1, E2 by (Z.div_mod_to_equations; lia).
  change (ascii_Z "2") with 50 in E1. change (ascii_Z "4") with 52 in E2. Z.div_mod_to_equations. lia.
Qed.

(** A text that starts with a digit is not a duration and has no sign. *)
Lemma digit_head c r : is_ascii_digit c = true →
  starts_with "P" (String c r) = false ∧ starts_with "-P" (String c r) = false ∧
  starts_with "+" (String c r) = false ∧ strip_prefix "-" (String c r) = None.
Proof.
  intros Hd%clock_char_digit. cbn [starts_with strip_prefix].
  assert (∀ c, clock_char c = true → Ascii.eqb "P" c = false ∧ Ascii.eqb "-" c = false ∧ Ascii.eqb "+" c = false) as Hc
    by (apply clock_char_cases; done).
  by destruct (Hc c Hd) as (-> & -> & ->).
Qed.

(** ** Qualifiers *)

Definition solid (s : string) : bool := string_all (λ c, negb (is_whitespace c)) s.

Definition valid_qualifier `{TimeParse} (q : option TimeQualifier) : Prop :=
  match q with
  | Some (Offset o) => Z.abs o <= 14 * 3600
  | Some (Zone z) => z ≠ "" ∧ zone_known z = true ∧ solid z = true
  | _ => True
  end.

(** What of a qualifier [strip_zone] keeps: an offset behind a minus sign. *)
Definition kept_qualifier (q : option TimeQualifier) : string :=
  match q with Some (Offset o) => if o <? 0 then format_offset o else "" | _ => "" end.

Lemma format_offset_sign o : ∃ r, format_offset o = (if o <? 0 then "-" else "+") +:+ r ∧
  (Z.abs o <= 14 * 3600 → string_all clock_char r = true).
Proof.
  unfold format_offset. eexists. split; [reflexivity|]. intros Ho.
  rewrite !string_all_app. rewrite !two_digits_clock by (Z.div_mod_to_equations; lia).
  unfold when. case_if; [|done]. simpl. apply two_digits_clock. Z.div_mod_to_equations. lia.
Qed.

Lemma qualifier_solid `{TimeParse} q : valid_qualifier q → solid (format_qualifier q) = true.
Proof.
  destruct q as [[|o|z]|]; simpl; [done| |by intros (_ & _ & Hz)|done].
  intros Ho. destruct (format_offset_sign o) as (r & -> & Hr). specialize (Hr Ho).
  unfold solid. rewrite string_all_app. rewrite (string_all_impl clock_char _ r); [|clock_cases|done].
  by case_if.
Qed.

Lemma clock_solid s : string_all clock_char s = true → solid s = true.
Proof. apply string_all_impl. clock_cases. Qed.

Lemma span_zone_qualifier `{TimeParse} q :
  valid_qualifier q → (span_until zone_mark (format_qualifier q)).1 = kept_qualifier q.
Proof.
  destruct q as [[|o|z]|]; simpl; [done| |done|done].
  intros Ho. destruct (format_offset_sign o) as (r & -> & Hr). specialize (Hr Ho).
  case_if; [|done]. simpl. rewrite <-(string_app_nil_r r) at 1.
  rewrite (span_until_app _ clock_char); [simpl; by rewrite string_app_nil_r|clock_cases|done].
Qed.

Lemma strip_zone_app `{TimeParse} f a q :
  (∀ c, f c = true → zone_mark c = false) → string_all f a = true → a ≠ "" → valid_qualifier q →
  strip_zone (a +:+ format_qualifier q) = a +:+ kept_qualifier q.
Proof.
  intros Hf Ha Hne Hq. destruct a as [|c a]; [done|]. simpl in *. apply andb_true_iff in Ha as [_ Ha].
  rewrite (span_until_app _ f) by done. simpl. by rewrite span_zone_qualifier.
Qed.

Lemma kept_qualifier_any `{TimeParse} f q :
  f "-"%char = false → (∀ c, clock_char c = true → f c = false) → valid_qualifier q →
  string_any f (kept_qualifier q) = false.
Proof.
  intros Hm Hf Hq. destruct q as [[|o|z]|]; simpl; try done. destruct (format_offset_sign o) as (r & Hr & Hc).
  case_if; [|done]. rewrite Hr. simpl. rewrite Hm. by apply (string_any_none _ clock_char); [|apply Hc].
Qed.

Lemma split_qualifier `{TimeParse} q :
  valid_qualifier q → (∀ z, q ≠ Some (Zone z)) → no_char "@" (format_qualifier q) = true.
Proof.
  intros Hq Hz. destruct q as [[|o|z]|]; simpl; try done; [|by destruct (Hz z)].
  destruct (format_offset_sign o) as (r & -> & Hr). rewrite no_char_app.
  unfold no_char. rewrite (string_all_impl clock_char _ r); [by case_if|clock_cases|by apply Hr].
Qed.

(** ** Times *)

(** The crate's parsers read the clock text of [t]. *)
Definition reads_time `{TimeParse} (t : Time) : Prop :=
  if nanosecond t =? 0 then time_parse_subsecond (time_text t) = None ∧ time_parse_plain (time_text t) = Some t
  else time_parse_subsecond (time_text t) = Some t.

Lemma parse_naive_time_text `{TimeParse} t :
  valid_time t → reads_time t → parse_naive_time (time_text t) = Some t.
Proof.
  intros Hv Hr. unfold parse_naive_time, reads_time in *.
  assert (starts_with "24:00:00" (time_text t) = false) as -> by apply not_end_of_day, Hv.
  destruct (nanosecond t =? 0); [by destruct Hr as [-> ->]|by rewrite Hr].
Qed.

Section RoundTrip.
Context `{TimeParse} (tc : TimeCrate) (Hlaws : TimeCrateLaws tc).

Lemma parse_time_text s t q :
  string_all clock_char s = true → parse_naive_time s = Some t → valid_qualifier q →
  parse_time (s +:+ format_qualifier q) = Some (t, q).
Proof using Hlaws.
  intros Hc Hp Hq.
  assert (Hat : no_char "@" (s) = true) by (apply (string_all_impl clock_char); [clock_cases|done]).
  unfold parse_time. destruct q as [[|o|z]|].
  - rewrite split_once_none by (rewrite no_char_app, Hat; done).
    rewrite (span_until_app _ clock_char); [|clock_cases|done]. simpl. rewrite string_app_nil_r, Hp. done.
  - rewrite split_once_none by (rewrite no_char_app, Hat; by apply split_qualifier).
    rewrite (span_until_app _ clock_char); [|clock_cases|done]. cbn [format_qualifier].
    pose proof (offset_round_trip tc o Hlaws Hq) as Ho.
    destruct (format_offset_sign o) as (r & Hf & _). rewrite Hf in Ho |- *.
    destruct (o <? 0); simpl in *; rewrite string_app_nil_r, Hp; simpl; by rewrite Ho.
  - cbn [format_qualifier]. change ("@" +:+ z) with (String "@" z). rewrite split_once_app by done.
    destruct Hq as (Hne & -> & _). destruct z; [done|]. simpl. by rewrite Hp.
  - simpl. rewrite string_app_nil_r. rewrite split_once_none by done.
    rewrite <-(string_app_nil_r (s)) at 1. rewrite (span_until_app _ clock_char); [|clock_cases|done].
    simpl. by rewrite Hp.
Qed.

Lemma at_literal_time t q :
  valid_time t → reads_time t → valid_qualifier q → parse_at_literal (format_time t q) = Some (TimeV t q).
Proof using Hlaws.
  intros Hv Hr Hq. rewrite format_time_text. pose proof (time_text_clock t Hv) as Hc.
  destruct (time_text_head t Hv) as (c & r & Ht & Hd). unfold parse_at_literal.
  rewrite trim_solid by (rewrite string_all_app; unfold solid in *; by rewrite clock_solid, qualifier_solid).
  assert (starts_with "P" (time_text t +:+ format_qualifier q) = false ∧
          starts_with "-P" (time_text t +:+ format_qualifier q) = false) as [-> ->].
  { rewrite Ht. by destruct (digit_head c (r +:+ format_qualifier q) Hd) as (? & ? & _). }
  rewrite (strip_zone_app clock_char); [|clock_cases|done|by rewrite Ht|done]. cbn [orb].
  rewrite !string_any_app, time_text_colon.
  rewrite (string_any_none (Ascii.eqb "T") clock_char (time_text t)); [|clock_cases|done].
  rewrite kept_qualifier_any; [|done|clock_cases|done]. cbn [orb].
  by rewrite (parse_time_text _ t) by (try apply parse_naive_time_text; done).
Qed.
End RoundTrip.

(** ** Dates and instants *)

(** The characters of a printed date or local date and time. *)
Definition stamp_char (c : ascii) : bool := clock_char c || Ascii.eqb c "-" || Ascii.eqb c "T".

Lemma stamp_char_clock c : clock_char c = true → stamp_char c = true.
Proof. unfold stamp_char. by intros ->. Qed.

Lemma stamp_char_cases (P : ascii → Prop) :
  P "-"%char → P "T"%char → (∀ c, clock_char c = true → P c) → ∀ c, stamp_char c = true → P c.
Proof.
  intros ? ? Hc c Hs. unfold stamp_char in Hs. apply orb_true_iff in Hs as [Hs| ->%Ascii.eqb_eq]; [|done].
  apply orb_true_iff in Hs as [Hs| ->%Ascii.eqb_eq]; [by apply Hc|done].
Qed.

Ltac stamp_cases := apply stamp_char_cases; [reflexivity|reflexivity|clock_cases].

Definition valid_date (d : Date) : Prop :=
  0 <= date_year d <= 9999 ∧ 0 <= date_month d < 100 ∧ 0 <= date_day d < 100.

Definition date_text (d : Date) : string :=
  pad_left 4 (date_year d) +:+ "-" +:+ two_digits (date_month d) +:+ "-" +:+ two_digits (date_day d).

Lemma date_text_stamp d : valid_date d → string_all (λ c, is_ascii_digit c || Ascii.eqb c "-") (date_text d) = true.
Proof.
  intros (Hy & Hm & Hd). unfold date_text. rewrite !string_all_app. simpl.
  assert (∀ s, string_all is_ascii_digit s = true →
    string_all (λ c, is_ascii_digit c || Ascii.eqb c "-") s = true) as Hi.
  { intros s. apply string_all_impl. by intros c ->. }
  rewrite (Hi (pad_left 4 _)) by (apply pad_left_numeral; lia).
  rewrite !digit_char_is_digit by (Z.div_mod_to_equations; lia). done.
Qed.

Lemma date_char_stamp c : is_ascii_digit c || Ascii.eqb c "-" = true → stamp_char c = true.
Proof. unfold stamp_char. intros [H%clock_char_digit| ->]%orb_true_iff; [by rewrite H|by rewrite orb_true_r]. Qed.

Lemma date_text_head d : valid_date d → ∃ c r, date_text d = String c r ∧ is_ascii_digit c = true.
Proof.
  intros (Hy & _). destruct (pad_left_numeral 4 (date_year d)) as (Hd & Hl & _); [lia..|].
  unfold date_text. destruct (pad_left 4 (date_year d)) as [|c r]; [done|]. simpl in *.
  apply andb_true_iff in Hd as [Hd _]. eauto.
Qed.

Lemma split_text_no_char c p s : no_char c s = true → split_text (String c p) s = None.
Proof.
  unfold no_char. induction s as [|d s IH]; [done|]. cbn [string_all split_text strip_prefix].
  intros [Hd%negb_true_iff Hs]%andb_true_iff. by rewrite Hd, IH.
Qed.

Lemma split_text_skip c p a b : no_char c a = true → split_text (String c p) b = None →
  split_text (String c p) (a +:+ b) = None.
Proof.
  unfold no_char. induction a as [|d a IH]; [done|]. cbn [String.append string_all split_text strip_prefix].
  intros [Hd%negb_true_iff Ha]%andb_true_iff Hb. by rewrite Hd, IH.
Qed.

Lemma strip_starts p s : starts_with p s = false → strip_prefix p s = None.
Proof.
  revert s. induction p as [|c p IH]; intros [|d s]; try done. cbn [starts_with strip_prefix].
  destruct (Ascii.eqb c d); [apply IH|done].
Qed.

Lemma ends_in_z_app a b : b ≠ "" → ends_in_z (a +:+ b) = ends_in_z b.
Proof.
  intros Hb. induction a as [|c a IH]; [done|]. simpl. rewrite IH.
  destruct (a +:+ b) eqn:E; [|done]. destruct a; [|done]. by destruct b.
Qed.

Lemma ends_in_z_none f s :
  (∀ c, f c = true → Ascii.eqb c "Z" || Ascii.eqb c "z" = false) → string_all f s = true → ends_in_z s = false.
Proof.
  intros Hf. induction s as [|c s IH]; [done|]. cbn [string_all]. intros [Hc Hs]%andb_true_iff.
  destruct s; [by apply Hf|by apply IH].
Qed.

Lemma ends_in_z_offset o : Z.abs o <= 14 * 3600 → ends_in_z (format_offset o) = false.
Proof.
  intros Ho. destruct (format_offset_sign o) as (u & -> & Hu). specialize (Hu Ho).
  apply (ends_in_z_none (λ c, stamp_char c || Ascii.eqb c "+")).
  - intros c [Hc| ->%Ascii.eqb_eq]%orb_true_iff; [|done]. revert c Hc. stamp_cases.
  - rewrite string_all_app, (string_all_impl clock_char _ u); [by destruct (o <? 0)| |done].
    intros c Hc. by rewrite (stamp_char_clock c Hc).
Qed.

(** The wall clock of an instant at its own offset. *)
Definition time_of_day (i : OffsetDateTime) : Time :=
  let s := second_of_day i in mk_time (s / 3600) (s mod 3600 / 60) (s mod 60) (unix_nanos i mod NANOS).

Lemma time_of_day_valid i : valid_time (time_of_day i).
Proof.
  unfold valid_time, time_of_day, second_of_day, NANOS. simpl. repeat split; Z.div_mod_to_equations; lia.
Qed.

Lemma format_feel_instant_text `{TimeText} i q :
  0 <= date_year (odt_date i) →
  format_feel_instant i q = date_text (odt_date i) +:+ String "T" (time_text (time_of_day i) +:+ format_qualifier q).
Proof.
  intros Hy. unfold format_feel_instant, date_text, time_text. case_if; [lia|].
  cbn [hour minute second nanosecond time_of_day]. by rewrite !string_app_assoc.
Qed.

(** The crate's parsers read the text of [i]: a local one as its date and clock at
    UTC, one with an offset or [Z] as RFC 3339. *)
Definition reads_instant `{TimeCrate, TimeText, TimeParse} (i : OffsetDateTime) (q : option TimeQualifier) : Prop :=
  let local := date_text (odt_date i) +:+ String "T" (time_text (time_of_day i)) in
  let dt := (odt_date i, time_of_day i) in
  match q with
  | None => odt_offset i = 0 ∧ (∃ e, rfc3339_parse local = Err e) ∧ at_utc dt = i ∧
      (datetime_parse_subsecond local = Some dt ∨
       datetime_parse_subsecond local = None ∧ datetime_parse_plain local = Some dt)
  | Some Zulu => odt_offset i = 0 ∧ rfc3339_parse (local +:+ "Z") = Ok i
  | Some (Offset o) => odt_offset i = o ∧ Z.abs o <= 14 * 3600 ∧ rfc3339_parse (local +:+ format_offset o) = Ok i
  | Some (Zone _) => False
  end.

Section Stamps.
Context `{TimeCrate, TimeText, TimeParse}.

(** The crate prints a date of a four-digit year as [date_text] and reads that. *)
Definition reads_date (d : Date) : Prop :=
  valid_date d ∧ date_display d = date_text d ∧ date_parse (date_text d) = Some d.

Lemma at_literal_date d : reads_date d → parse_at_literal (date_display d) = Some (DateV d).
Proof.
  intros (Hv & -> & Hp). pose proof (date_text_stamp d Hv) as Hs.
  assert (Hstamp : string_all stamp_char (date_text d) = true) by (apply (string_all_impl _ _ _ date_char_stamp Hs)).
  destruct (date_text_head d Hv) as (c & r & Ht & Hd). unfold parse_at_literal.
  rewrite trim_solid by (apply (string_all_impl stamp_char); [stamp_cases|done]).
  assert (strip_zone (date_text d) = date_text d) as ->.
  { rewrite <-(string_app_nil_r (date_text d)) at 1.
    change "" with (format_qualifier None).
    rewrite (strip_zone_app stamp_char (date_text d) None); [apply string_app_nil_r|stamp_cases|done|by rewrite Ht|done]. }
  assert (∀ c, is_ascii_digit c || Ascii.eqb c "-" = true → Ascii.eqb "T" c = false ∧ Ascii.eqb ":" c = false) as Hc.
  { intros e. destruct e as [[] [] [] [] [] [] [] []]; vm_compute; by auto. }
  rewrite (string_any_none (Ascii.eqb "T") (λ c, is_ascii_digit c || Ascii.eqb c "-")) by (done || apply Hc).
  rewrite (string_any_none (Ascii.eqb ":") (λ c, is_ascii_digit c || Ascii.eqb c "-")) by (done || apply Hc).
  rewrite Ht in Hp |- *. destruct (digit_head c r Hd) as (-> & -> & Hplus & Hm). cbn [orb].
  unfold parse_date, parse_naive_date. by rewrite Hplus, Hm, Hp.
Qed.

Lemma no_T_clock s : string_all clock_char s = true → no_char "T" s = true.
Proof. apply string_all_impl. clock_cases. Qed.

Lemma no_T_qualifier q : valid_qualifier q → (∀ z, q ≠ Some (Zone z)) → no_char "T" (format_qualifier q) = true.
Proof.
  intros Hq Hz. destruct q as [[|o|z]|]; simpl; try done; [|by destruct (Hz z)].
  destruct (format_offset_sign o) as (r & -> & Hr). rewrite no_char_app, (no_T_clock r (Hr Hq)). by case_if.
Qed.

(** A stamp with a qualifier other than a zone goes to the unsigned reader. *)
Lemma parse_date_time_stamp d t q :
  valid_date d → valid_time t → valid_qualifier q → (∀ z, q ≠ Some (Zone z)) →
  let s := date_text d +:+ String "T" (time_text t +:+ format_qualifier q) in
  parse_date_time s = parse_date_time_unsigned s ∧ split_once "@" s = None.
Proof.
  intros Hd Ht Hq Hz s. pose proof (date_text_stamp d Hd) as Hs. pose proof (time_text_clock t Ht) as Hc.
  assert (Hno : ∀ c, (is_ascii_digit c || Ascii.eqb c "-" = false) → no_char c (date_text d) = true).
  { intros e He. revert Hs. apply string_all_impl. intros c Hcc. apply negb_true_iff, Ascii.eqb_neq.
    intros ->. congruence. }
  assert (Hend : split_text "T24:00:00" s = None).
  { apply split_text_skip; [by apply Hno|]. cbn [split_text].
    assert (strip_prefix "T24:00:00" (String "T" (time_text t +:+ format_qualifier q)) = None) as ->.
    { apply strip_starts. apply (not_end_of_day (hour t)), Ht. }
    rewrite split_text_no_char; [done|]. rewrite no_char_app, no_T_clock by done. by apply no_T_qualifier. }
  split.
  - destruct (date_text_head d Hd) as (c & r & Ed & Hdig). unfold parse_date_time.
    assert (∃ r', s = String c r') as [r' Es] by (unfold s; rewrite Ed; by eexists).
    destruct (digit_head c r' Hdig) as (_ & _ & Hplus & Hm). rewrite <-Es in Hplus, Hm.
    assert (∀ n, parse_date_time_rounds n s = parse_date_time_unsigned s) as H'; [|apply H'].
    intros n. destruct n; cbn [parse_date_time_rounds]; by rewrite Hplus, Hend, Hm.
  - apply split_once_none. unfold s. rewrite no_char_app, (Hno "@"%char eq_refl).
    change (String "T" ?x) with ("T" +:+ x). rewrite !no_char_app, split_qualifier by done.
    rewrite andb_true_r. apply (string_all_impl clock_char); [clock_cases|done].
Qed.

Lemma reads_instant_qualifier i q : reads_instant i q → valid_qualifier q ∧ ∀ z, q ≠ Some (Zone z).
Proof. destruct q as [[|o|z]|]; simpl; try done. by intros (_ & Ho & _). Qed.

Lemma at_literal_instant i q :
  valid_date (odt_date i) → reads_instant i q →
  parse_at_literal (format_feel_instant i q) = Some (Instant i q).
Proof.
  intros Hd Hr. destruct (reads_instant_qualifier i q Hr) as [Hq Hz].
  pose proof (time_of_day_valid i) as Ht. rewrite format_feel_instant_text by apply Hd.
  destruct (parse_date_time_stamp _ _ q Hd Ht Hq Hz) as [Hp Hat].
  unfold reads_instant in Hr. set (d := date_text (odt_date i)) in *. set (t := time_text (time_of_day i)) in *.
  assert (Hs : string_all stamp_char (d +:+ String "T" t) = true).
  { unfold d. rewrite string_all_app, (string_all_impl _ _ _ date_char_stamp (date_text_stamp _ Hd)).
    change (string_all stamp_char (String "T" t)) with (string_all stamp_char t). cbn [andb].
    apply (string_all_impl clock_char); [apply stamp_char_clock|by apply time_text_clock]. }
  assert (Hcat : ∀ u, d +:+ String "T" (t +:+ u) = (d +:+ String "T" t) +:+ u) by (intros u; by rewrite string_app_assoc).
  destruct (date_text_head _ Hd) as (c & r & Ed & Hdig). unfold parse_at_literal.
  rewrite trim_solid; [|rewrite Hcat, string_all_app; rewrite (string_all_impl stamp_char _ _); [by apply qualifier_solid|stamp_cases|done]].
  assert (starts_with "P" (d +:+ String "T" (t +:+ format_qualifier q)) = false ∧
          starts_with "-P" (d +:+ String "T" (t +:+ format_qualifier q)) = false) as [-> ->].
  { unfold d. rewrite Ed. by destruct (digit_head c (r +:+ String "T" (t +:+ format_qualifier q)) Hdig) as (? & ? & _). }
  rewrite Hcat, (strip_zone_app stamp_char); [|stamp_cases|done|unfold d; by rewrite Ed|done].
  rewrite !string_any_app. cbn [string_any]. rewrite (Ascii.eqb_refl "T"). cbn [orb]. rewrite orb_true_r. cbn [orb].
  rewrite <-Hcat, Hp. unfold parse_date_time_unsigned. rewrite Hat, Hcat.
  destruct q as [[|o|z]|]; cbn [format_qualifier].
  - destruct Hr as [Ho ->]. rewrite Ho, ends_in_z_app by done. done.
  - destruct Hr as (Ho & Hb & ->). rewrite Ho. destruct (format_offset_sign o) as (u & Hu & _).
    case_if; [lia|]. rewrite ends_in_z_app by (rewrite Hu; by destruct (o <? 0)).
    rewrite ends_in_z_offset, andb_false_r by done. done.
  - done.
  - destruct Hr as (Ho & [e He] & Hi & Hpd). rewrite string_app_nil_r, He. unfold parse_naive_date_time.
    destruct Hpd as [-> | [-> ->]]; simpl; by rewrite Hi.
Qed.
End Stamps.

(** ** Durations *)

Lemma dec_string_solid n : 0 <= n → solid (dec_string n) = true.
Proof.
  intros Hn. apply clock_solid, (string_all_impl is_ascii_digit); [apply clock_char_digit|].
  apply (dec_string_numeral n Hn).
Qed.

Lemma format_duration_solid d : solid (format_duration d) = true.
Proof.
  unfold solid. destruct d as [m|n]; cbn [format_duration]; cbv zeta; unfold when;
    repeat case_if; rewrite ?string_all_app; fold (solid (dec_string 0));
    repeat match goal with |- context [string_all ?f (dec_string ?x)] =>
      change (string_all f (dec_string x)) with (solid (dec_string x));
      rewrite (dec_string_solid x) by (Z.div_mod_to_equations; lia) end; done.
Qed.

Lemma at_literal_duration `{TimeCrate, TimeParse} d :
  representable d → parse_at_literal (format_duration d) = Some (Duration (whole_seconds d)).
Proof.
  intros Hr. unfold parse_at_literal. rewrite trim_solid by apply format_duration_solid.
  assert (starts_with "P" (format_duration d) || starts_with "-P" (format_duration d) = true) as ->.
  { destruct d as [m|n]; cbn [format_duration]; cbv zeta; unfold when at 1; by case_if. }
  by rewrite duration_round_trip.
Qed.

(** ** Properties *)

(** The temporal values whose text can be read back: a duration of whole seconds, a
    date, a time, and an instant that is local or has an offset. *)
Definition readable `{TimeCrate, TimeText, TimeParse} (v : FeelValue) : Prop :=
  match v with
  | Duration d => representable d ∧ whole_seconds d = d
  | DateV d => reads_date d
  | TimeV t q => valid_time t ∧ reads_time t ∧ valid_qualifier q
  | Instant i q => valid_date (odt_date i) ∧ reads_instant i q
  | _ => False
  end.

Lemma at_literal_canonical `{BigDecimalText, TimeText, TimeParse} (tc : TimeCrate) (v : FeelValue) :
  TimeCrateLaws tc → readable v → parse_at_literal (canonical_string_of v) = Some v.
Proof.
  intros Hl. destruct v as [| | | |i q|d|t q|d| | | | |]; simpl; try done.
  - intros [Hd Hr]. by apply at_literal_instant.
  - apply at_literal_date.
  - intros (Hv & Hr & Hq). by apply at_literal_time.
  - intros [Hr Hw]. by rewrite at_literal_duration, Hw.
Qed.


(** A reader of [hh:mm:ss], and no calendar. *)
Definition plain_clock (s : string) : option Time :=
  match split_char ":" s with
  | [h; m; s] => h ← two_digit h; m ← two_digit m; s ← two_digit s; Some (mk_time h m s 0)
  | _ => None
  end.

Definition plain_time_parse : TimeParse := {|
  date_parse _ := None; date_from_calendar y m d := Some (mk_date y m d);
  date_replace_year d y := Some (mk_date y (date_month d) (date_day d));
  time_parse_subsecond _ := None; time_parse_plain := plain_clock;
  datetime_parse_subsecond _ := None; datetime_parse_plain _ := None;
  zone_known z := String.eqb z "Etc/UTC"; in_zone _ _ := None; at_utc _ := mk_odt 0 0;
  odt_year _ := 1970; odt_replace_year _ _ := None; odt_next_day _ := None |}.

