(* ===== verification/Container.v ===== *)
(** * The containers of a persisted snapshot
    ([sutra-persistence/src/snapshot_container.rs] and [props.rs])

    A snapshot is a map of texts.  [Module Container] is the binary form it is
    written in: a marker, the number of entries, then keys and values behind their
    lengths, keys ascending.  [Module Props] is the reader of the Properties lines
    that earlier releases wrote.  Bytes are the characters of a string; a length that
    does not fit 32 bits makes the writer panic ([None]).

    The theorems: what is written is read back, key by key; the reader is fail-closed
    (no accepted form is a proper prefix of another, so a cut or a trailing byte is an
    error); and the text reader refuses every binary form. *)
From Stdlib Require Import ZArith Lia Bool Ascii String.
From stdpp Require Import base list option gmap strings sorting.
From S2P Require Import Prelude Texts.

Open Scope string_scope.
Open Scope list_scope.
Open Scope Z_scope.

Module Container.

Definition newline : ascii := "010".

(** [b"\\uSNAPSHOT/5\n"]. *)
Definition MAGIC : string := "\uSNAPSHOT/5" +:+ String newline "".

#[global] Arguments MAGIC : simpl never.

Definition is_binary (bytes : string) : bool := starts_with MAGIC bytes.

(** [u32::to_le_bytes] and [u32::from_le_bytes]. *)
Definition to_le_bytes (n : Z) : string :=
  of_bytes [n mod 256; n / 256 mod 256; n / 65536 mod 256; n / 16777216 mod 256].

#[global] Arguments to_le_bytes : simpl never.

Definition from_le_bytes (a b c d : ascii) : Z :=
  ascii_Z a + 256 * (ascii_Z b + 256 * (ascii_Z c + 256 * ascii_Z d)).

Definition len (s : string) : Z := Z.of_nat (String.length s).

Definition len_u32 (n : Z) : option Z := if n <=? u32_max then Some n else None.

Definition put_text (s : string) : option string :=
  n ← len_u32 (len s); Some (to_le_bytes n +:+ s).

Fixpoint put_entries (entries : list (string * string)) : option string :=
  match entries with
  | [] => Some ""
  | (k, v) :: rest =>
      k ← put_text k;
      v ← put_text v;
      rest ← put_entries rest;
      Some (k +:+ v +:+ rest)
  end.

Definition encode (entries : list (string * string)) : option string :=
  let sorted := btree_list (map_of entries) in
  count ← len_u32 (Z.of_nat (length sorted));
  body ← put_entries sorted;
  Some (MAGIC +:+ to_le_bytes count +:+ body).

Inductive error : Type :=
| MissingMarker
| Truncated (what : string)
| DeclaresTooMany (count held : Z)
| PastTheEnd (entry : Z) (what : string) (length : Z)
| NotUtf8 (entry : Z) (what : string)
| Trailing (bytes count : Z).

Definition take_u32 (rest what : string) : result error (Z * string) :=
  match rest with
  | String a (String b (String c (String d tail))) => Ok (from_le_bytes a b c d, tail)
  | _ => Err (Truncated what)
  end.

(** [slice::split_at] within the bounds. *)
Fixpoint split_at (n : nat) (s : string) : string * string :=
  match n, s with
  | S n, String c r => let '(a, b) := split_at n r in (String c a, b)
  | _, _ => ("", s)
  end.

Definition take_text (rest : string) (entry : Z) (what : string) : result error (string * string) :=
  '(n, rest) ← take_u32 rest what;
  if len rest <? n then Err (PastTheEnd entry what n)
  else
    let '(text, tail) := split_at (Z.to_nat n) rest in
    if utf8_valid text then Ok (text, tail) else Err (NotUtf8 entry what).

Fixpoint take_entries (count : nat) (i : Z) (rest : string) : result error (list (string * string) * string) :=
  match count with
  | O => Ok ([], rest)
  | S count =>
      '(key, rest) ← take_text rest i "key";
      '(value, rest) ← take_text rest i "value";
      '(pairs, rest) ← take_entries count (i + 1) rest;
      Ok ((key, value) :: pairs, rest)
  end.

Definition decode (bytes : string) : result error (list (string * string)) :=
  match strip_prefix MAGIC bytes with
  | None => Err MissingMarker
  | Some rest =>
      '(count, rest) ← take_u32 rest "entry count";
      if len rest / 8 <? count then Err (DeclaresTooMany count (len rest))
      else
        '(pairs, rest) ← take_entries (Z.to_nat count) 0 rest;
        if str_is_empty rest then Ok pairs else Err (Trailing (len rest) count)
  end.

(** ** Lemmas *)

Lemma len_app s t : len (s +:+ t) = len s + len t.
Proof. unfold len. rewrite string_length_app. lia. Qed.

Lemma len_nonneg s : 0 <= len s.
Proof. unfold len. lia. Qed.

Lemma take_u32_le n tail what : 0 <= n <= u32_max → take_u32 (to_le_bytes n +:+ tail) what = Ok (n, tail).
Proof.
  intros Hn. unfold u32_max in Hn. unfold to_le_bytes. simpl. unfold from_le_bytes. rewrite !byte_Z by (split; apply Z.mod_pos_bound; lia).
  do 2 f_equal. Z.div_mod_to_equations. lia.
Qed.

Lemma split_at_app s t : split_at (String.length s) (s +:+ t) = (s, t).
Proof. induction s as [|c s IH]; simpl; [by destruct t|]. by rewrite IH. Qed.

Lemma split_at_inv n s : let '(a, b) := split_at n s in s = a +:+ b.
Proof.
  revert s. induction n as [|n IH]; intros [|c s]; [done..|]. simpl.
  specialize (IH s). destruct (split_at n s) as [a b]. by rewrite IH.
Qed.

Lemma split_at_length n s : (n <= String.length s)%nat → String.length (split_at n s).1 = n.
Proof.
  revert s. induction n as [|n IH]; intros [|c s] Hn; simpl in *; [done..|lia|].
  specialize (IH s). destruct (split_at n s) as [a b]. simpl in *. rewrite IH; lia.
Qed.

Lemma put_text_some s t : put_text s = Some t → 0 <= len s <= u32_max ∧ t = to_le_bytes (len s) +:+ s.
Proof.
  unfold put_text, len_u32. pose proof (len_nonneg s). case_if; [|done].
  intros [= <-]. split; [lia|done].
Qed.

Lemma take_put_text s t tail i what :
  put_text s = Some t → utf8_valid s = true → take_text (t +:+ tail) i what = Ok (s, tail).
Proof.
  intros [Hs ->]%put_text_some Hv. unfold take_text. rewrite string_app_assoc, take_u32_le by done. simpl.
  case_if; [pose proof (len_nonneg tail); rewrite len_app in *; lia|].
  unfold len at 1. by rewrite Nat2Z.id, split_at_app, Hv.
Qed.

(** Keys and values are Rust strings. *)
Definition texts (entries : list (string * string)) : Prop :=
  Forall (λ e, utf8_valid e.1 = true ∧ utf8_valid e.2 = true) entries.

Lemma take_put_entries entries body i :
  put_entries entries = Some body → texts entries → take_entries (length entries) i body = Ok (entries, "").
Proof.
  intros Hp Ht. revert body i Hp.
  induction Ht as [|[k v] entries [Hk Hv] Ht IH]; intros body i Hp; simpl in Hp; [by injection Hp as <-|].
  destruct (put_text k) as [k'|] eqn:Ek; [|done]. destruct (put_text v) as [v'|] eqn:Ev; [|done].
  destruct (put_entries entries) as [rest|] eqn:Er; [|done]. simpl in Hp. injection Hp as <-.
  simpl. rewrite (take_put_text _ _ _ _ _ Ek Hk). simpl. rewrite (take_put_text _ _ _ _ _ Ev Hv). simpl.
  by rewrite IH.
Qed.

Lemma put_entries_len entries body : put_entries entries = Some body → 8 * Z.of_nat (length entries) <= len body.
Proof.
  revert body. induction entries as [|[k v] entries IH]; intros body; simpl; [intros [= <-]; done|].
  destruct (put_text k) as [k'|] eqn:Ek; [|done]. destruct (put_text v) as [v'|] eqn:Ev; [|done].
  destruct (put_entries entries) as [rest|]; [|done]. intros [= <-]. specialize (IH rest eq_refl).
  apply put_text_some in Ek as [_ ->]. apply put_text_some in Ev as [_ ->].
  rewrite !len_app. pose proof (len_nonneg k). pose proof (len_nonneg v).
  assert (∀ n, len (to_le_bytes n) = 4) as Hl by done. rewrite !Hl. lia.
Qed.

Lemma texts_map_of entries : texts entries → texts (btree_list (map_of entries)).
Proof.
  intros Ht. apply Forall_forall. intros [k v] Hin%elem_of_btree_list. revert Hin. unfold map_of.
  assert (∀ m : gmap string string, (∀ k v, m !! k = Some v → utf8_valid k = true ∧ utf8_valid v = true) →
    ∀ k v, fold_left (λ m e, <[e.1:=e.2]> m) entries m !! k = Some v → utf8_valid k = true ∧ utf8_valid v = true) as Hm.
  { induction Ht as [|[k' v'] l [Hk Hv] Ht IH]; [done|]. intros m Hm. apply IH. intros k0 v0.
    rewrite lookup_insert_Some. simpl. intros [[<- <-]|[_ H]]; [done|by apply Hm]. }
  apply Hm. intros k0 v0. by rewrite lookup_empty.
Qed.

(** ** What the reader accepts *)

Lemma byte_ascii a : byte (ascii_Z a) = a.
Proof. unfold byte, ascii_Z. by rewrite Nat2Z.id, ascii_nat_embedding. Qed.

Lemma take_u32_inv rest what n tail :
  take_u32 rest what = Ok (n, tail) → 0 <= n <= u32_max ∧ rest = to_le_bytes n +:+ tail.
Proof.
  destruct rest as [|a [|b [|c [|d r]]]]; try done. simpl. intros [= <- <-].
  pose proof (ascii_Z_range a). pose proof (ascii_Z_range b). pose proof (ascii_Z_range c). pose proof (ascii_Z_range d).
  unfold from_le_bytes, u32_max. split; [lia|]. unfold to_le_bytes. simpl.
  rewrite <-(byte_ascii a), <-(byte_ascii b), <-(byte_ascii c), <-(byte_ascii d) at 1.
  repeat f_equal; Z.div_mod_to_equations; lia.
Qed.

Lemma take_text_inv rest i what x tail :
  take_text rest i what = Ok (x, tail) → utf8_valid x = true ∧ ∃ t, put_text x = Some t ∧ rest = t +:+ tail.
Proof.
  unfold take_text. intros ([n r] & [Hn ->]%take_u32_inv & H)%result_bind_ok.
  destruct (len r <? n) eqn:E; [done|]. zbool.
  pose proof (split_at_inv (Z.to_nat n) r) as Hs.
  pose proof (split_at_length (Z.to_nat n) r) as Hl. destruct (split_at (Z.to_nat n) r) as [a b].
  destruct (utf8_valid a) eqn:Ea; [|done]. injection H as <- <-. split; [done|]. simpl in Hl.
  assert (len a = n) as Ha by (unfold len in *; rewrite Hl; lia).
  exists (to_le_bytes n +:+ a). rewrite string_app_assoc, <-Hs. split; [|done].
  unfold put_text, len_u32. rewrite Ha. case_if; [done|lia].
Qed.

Lemma take_entries_inv count i rest pairs tail :
  take_entries count i rest = Ok (pairs, tail) →
  texts pairs ∧ length pairs = count ∧ ∃ body, put_entries pairs = Some body ∧ rest = body +:+ tail.
Proof.
  revert i rest pairs. induction count as [|count IH]; intros i rest pairs; simpl.
  { intros [= <- <-]. split; [constructor|]. split; [done|]. by exists "". }
  intros ([k r1] & [Hk (tk & Ek & ->)]%take_text_inv &
    ([v r2] & [Hv (tv & Ev & ->)]%take_text_inv & ([ps r3] & H3 & H)%result_bind_ok)%result_bind_ok)%result_bind_ok.
  injection H as <- <-. apply IH in H3 as (Ht & Hl & body & Hb & ->).
  split; [by constructor|]. split; [simpl; lia|]. exists (tk +:+ tv +:+ body). simpl.
  rewrite Ek, Ev, Hb. simpl. split; [done|]. by rewrite !string_app_assoc.
Qed.

(** The bytes of rows in the order given. *)
Definition layout (rows : list (string * string)) : option string :=
  count ← len_u32 (Z.of_nat (length rows));
  body ← put_entries rows;
  Some (MAGIC +:+ to_le_bytes count +:+ body).

Lemma layout_some rows bytes :
  layout rows = Some bytes ↔
  ∃ body, Z.of_nat (length rows) <= u32_max ∧ put_entries rows = Some body ∧
    bytes = MAGIC +:+ to_le_bytes (Z.of_nat (length rows)) +:+ body.
Proof.
  unfold layout, len_u32. case_if; cbn [mbind option_bind]; destruct (put_entries rows) as [body|]; cbn [option_bind]; split;
    try (by intros (? & ? & ? & ?)); try done; try (intros (? & ? & ? & ?); lia).
  - intros H%(inj Some). by exists body.
  - by intros (? & _ & [= ->] & ->).
Qed.

Lemma decode_layout rows bytes : layout rows = Some bytes → texts rows → decode bytes = Ok rows.
Proof.
  intros (body & Hc & Hb & ->)%layout_some Ht. unfold decode. rewrite strip_prefix_app, take_u32_le by lia. simpl.
  pose proof (put_entries_len _ _ Hb). case_if; [Z.div_mod_to_equations; lia|].
  rewrite Nat2Z.id, (take_put_entries _ _ _ Hb Ht). done.
Qed.

Lemma decode_inv bytes rows : decode bytes = Ok rows → texts rows ∧ layout rows = Some bytes.
Proof.
  unfold decode. destruct (strip_prefix MAGIC bytes) as [rest|] eqn:Es; [|done]. apply strip_prefix_some in Es as ->.
  intros ([count body] & [Hn ->]%take_u32_inv & H)%result_bind_ok. destruct (len body / 8 <? count) eqn:E; [done|].
  apply result_bind_ok in H as ([ps r] & (Ht & Hl & b & Hb & ->)%take_entries_inv & H). destruct r; [|done].
  injection H as <-. split; [done|]. apply layout_some. exists b. rewrite Hl, Z2Nat.id by lia.
  split; [lia|]. split; [done|]. by rewrite string_app_nil_r.
Qed.

(** One sequence of rows is never the beginning of another one's bytes. *)
Lemma put_entries_prefix l1 l2 b1 b2 t :
  length l1 = length l2 → texts l1 → texts l2 → put_entries l1 = Some b1 → put_entries l2 = Some b2 →
  b2 = b1 +:+ t → t = "".
Proof.
  intros Hl. revert l2 b1 b2 Hl. induction l1 as [|[k v] l1 IH]; intros [|[k2 v2] l2] b1 b2 Hl H1 H2; try done.
  { simpl. by intros [= <-] [= <-] H. }
  inversion H1 as [|? ? [Hk Hv] Ht1]; subst. inversion H2 as [|? ? [Hk2 Hv2] Ht2]; subst. simpl in *.
  destruct (put_text k) as [tk|] eqn:Ek; [|done]. destruct (put_text v) as [tv|] eqn:Ev; [|done].
  destruct (put_entries l1) as [r1|] eqn:E1; [|done]. simpl. intros [= <-].
  destruct (put_text k2) as [tk2|] eqn:Ek2; [|done]. destruct (put_text v2) as [tv2|] eqn:Ev2; [|done].
  destruct (put_entries l2) as [r2|] eqn:E2; [|done]. simpl. intros [= <-]. rewrite !string_app_assoc. intros Heq.
  pose proof (take_put_text k2 _ (tv2 +:+ r2) 0 "" Ek2 Hk2) as A. rewrite Heq, (take_put_text k _ _ 0 "" Ek Hk) in A.
  injection A as <- A. pose proof (take_put_text v2 _ r2 0 "" Ev2 Hv2) as B.
  rewrite <-A, (take_put_text v _ _ 0 "" Ev Hv) in B. injection B as <- B. by eapply (IH l2 r1 r2); eauto; lia.
Qed.

Lemma layout_prefix l1 l2 b1 b2 t :
  texts l1 → texts l2 → layout l1 = Some b1 → layout l2 = Some b2 → b2 = b1 +:+ t → t = "".
Proof.
  intros H1 H2 (c1 & Hc1 & Hb1 & ->)%layout_some (c2 & Hc2 & Hb2 & ->)%layout_some Heq.
  rewrite !string_app_assoc in Heq. apply prefix_app_inj in Heq.
  pose proof (take_u32_le (Z.of_nat (length l2)) c2 "" ltac:(lia)) as A. rewrite Heq, take_u32_le in A by lia.
  injection A as Hl Hc. apply (put_entries_prefix l1 l2 c1 c2 t); auto. lia.
Qed.
End Container.

Module Props.

Inductive error : Type := MalformedEscape | InvalidUtf16.

Definition backslash : ascii := "092".
Definition carriage_return : ascii := "013".
Definition tab : ascii := "009".
Definition form_feed : ascii := "012".

Definition is_ws (c : ascii) : bool := Ascii.eqb c " " || Ascii.eqb c tab || Ascii.eqb c form_feed.

(** The natural lines: ended by a line feed, a carriage return or both, or by the
    end of the input. *)
Definition push_char (c : ascii) (ls : list (list ascii)) : list (list ascii) :=
  match ls with [] => [[c]] | l :: ls => (c :: l) :: ls end.

Fixpoint natural_lines (cs : list ascii) : list (list ascii) :=
  match cs with
  | [] => []
  | c :: r =>
      if Ascii.eqb c Container.newline then [] :: natural_lines r
      else if Ascii.eqb c carriage_return then
        [] :: match r with
              | d :: r' => if Ascii.eqb d Container.newline then natural_lines r' else natural_lines r
              | [] => []
              end
      else push_char c (natural_lines r)
  end.

Fixpoint drop_ws (line : list ascii) : list ascii :=
  match line with c :: r => if is_ws c then drop_ws r else line | [] => [] end.

Fixpoint leading_backslashes (l : list ascii) : nat :=
  match l with c :: r => if Ascii.eqb c backslash then S (leading_backslashes r) else O | [] => O end.

Definition ends_with_odd_backslashes (line : list ascii) : bool := Nat.odd (leading_backslashes (rev line)).

(** The key, and the line from the first separator that no backslash escapes. *)
Fixpoint split_key (line : list ascii) : list ascii * list ascii :=
  match line with
  | [] => ([], [])
  | c :: r =>
      if Ascii.eqb c backslash then
        match r with
        | [] => ([c], [])
        | d :: r' => let '(k, v) := split_key r' in (c :: d :: k, v)
        end
      else if Ascii.eqb c "=" || Ascii.eqb c ":" || is_ws c then ([], line)
      else let '(k, v) := split_key r in (c :: k, v)
  end.

Definition value_part (line : list ascii) : list ascii :=
  match drop_ws line with
  | c :: r => if Ascii.eqb c "=" || Ascii.eqb c ":" then drop_ws r else c :: r
  | [] => []
  end.

(** [char::to_digit(16)]. *)
Definition to_digit16 (c : ascii) : option Z :=
  if between 48 57 c then Some (ascii_Z c - 48)
  else if between 65 70 c then Some (ascii_Z c - 55)
  else if between 97 102 c then Some (ascii_Z c - 87)
  else None.

(** The code units of an escaped text. *)
Fixpoint units (cs : list ascii) : result error (list Z) :=
  match cs with
  | [] => Ok []
  | c :: r =>
      if negb (Ascii.eqb c backslash) then us ← units r; Ok (ascii_Z c :: us)
      else
        match r with
        | [] => Ok []
        | e :: r =>
            if Ascii.eqb e "u" then
              match r with
              | h1 :: h2 :: h3 :: h4 :: r =>
                  match to_digit16 h1, to_digit16 h2, to_digit16 h3, to_digit16 h4 with
                  | Some a, Some b, Some c, Some d =>
                      us ← units r; Ok (4096 * a + 256 * b + 16 * c + d :: us)
                  | _, _, _, _ => Err MalformedEscape
                  end
              | _ => Err MalformedEscape
              end
            else
              us ← units r;
              Ok ((if Ascii.eqb e "t" then 9 else if Ascii.eqb e "n" then 10 else if Ascii.eqb e "r" then 13
                   else if Ascii.eqb e "f" then 12 else ascii_Z e) :: us)
        end
  end.

(** [String::from_utf16], as code points. *)
Fixpoint from_utf16 (us : list Z) : option (list Z) :=
  match us with
  | [] => Some []
  | u :: r =>
      if negb (is_surrogate u) then cs ← from_utf16 r; Some (u :: cs)
      else
        match r with
        | l :: r =>
            if (u <=? 56319) && (56320 <=? l) && (l <=? 57343)
            then cs ← from_utf16 r; Some (65536 + (u - 55296) * 1024 + (l - 56320) :: cs)
            else None
        | [] => None
        end
  end.

Definition load_convert (cs : list ascii) : result error string :=
  us ← units cs;
  ok_or InvalidUtf16 (encode <$> from_utf16 us).

Definition pair_of (line : list ascii) : result error (string * string) :=
  let '(k, rest) := split_key line in
  k ← load_convert k;
  v ← load_convert (value_part rest);
  Ok (k, v).

(** [pending]: a logical line whose last natural line ended in a continuation
    backslash, which is dropped. *)
Fixpoint read_logical (pending : option (list ascii)) (lines : list (list ascii)) : result error (list (string * string)) :=
  match lines with
  | [] => match pending with Some line => p ← pair_of line; Ok [p] | None => Ok [] end
  | next :: rest =>
      let text := drop_ws next in
      match pending, text with
      | None, [] => read_logical None rest
      | _, _ =>
          if match pending, text with
             | None, c :: _ => Ascii.eqb c "#" || Ascii.eqb c "!"
             | _, _ => false
             end
          then read_logical None rest
          else
            let line := default [] pending ++ text in
            if ends_with_odd_backslashes line then read_logical (Some (removelast line)) rest
            else p ← pair_of line; ps ← read_logical None rest; Ok (p :: ps)
      end
  end.

Definition read_lines (bytes : string) : result error (list (string * string)) :=
  read_logical None (natural_lines (list_ascii_of_string bytes)).

(** A logical line joined from two, escapes and a surrogate pair. *)
Example read_lines_example :
  read_lines ("# note" +:+ String Container.newline ("a\ b = x\" +:+ String Container.newline
    ("  y" +:+ String Container.newline "k:\ud83d\ude00"))) =
  Ok [("a b", "x" +:+ "y"); ("k", encode [128512])].
Proof. vm_compute. reflexivity. Qed.

(** The text reader refuses the binary form. *)
Lemma refuses_binary rest : read_lines (Container.MAGIC +:+ rest) = Err MalformedEscape.
Proof. unfold read_lines, Container.MAGIC. simpl. reflexivity. Qed.
End Props.

(** ** Properties *)

Lemma encode_layout entries : Container.encode entries = Container.layout (btree_list (map_of entries)).
Proof. done. Qed.

(** The binary container is self-delimiting and fail-closed.  What the writer
    makes of any entries is read back as their last values in key order; no proper
    prefix and no extension of it is accepted; and the Properties reader of an earlier
    release refuses it instead of misreading it. *)
Theorem container_round_trip_fail_closed (entries : list (string * string)) (bytes : string) :
  Container.texts entries → Container.encode entries = Some bytes →
  Container.decode bytes = Ok (btree_list (map_of entries)) ∧
  (∀ t rows, t ≠ "" → Container.decode (bytes +:+ t) ≠ Ok rows) ∧
  (∀ cut t rows, bytes = cut +:+ t → t ≠ "" → Container.decode cut ≠ Ok rows) ∧
  Props.read_lines bytes = Err Props.MalformedEscape.
Proof.
  intros Ht%Container.texts_map_of He. rewrite encode_layout in He. split; [by apply Container.decode_layout|].
  split; [|split].
  - intros t rows Hne (Hr & Hl)%Container.decode_inv. apply Hne. by apply (Container.layout_prefix (btree_list (map_of entries)) rows bytes (bytes +:+ t) t).
  - intros cut t rows Heq Hne (Hr & Hl)%Container.decode_inv. apply Hne.
    by apply (Container.layout_prefix rows (btree_list (map_of entries)) cut bytes t).
  - apply Container.layout_some in He as (body & _ & _ & ->). apply Props.refuses_binary.
Qed.

Lemma container_round_trip_fail_closed_witness :
  let entries := [("b", "2"); ("a", "1"); ("b", "3"); ("", "")] in
  ∃ bytes, Container.encode entries = Some bytes ∧ Container.decode bytes = Ok [("", ""); ("a", "1"); ("b", "3")].
Proof.
  intros entries. destruct (Container.encode entries) as [bytes|] eqn:E; [|discriminate E].
  exists bytes. split; [reflexivity|]. destruct (container_round_trip_fail_closed entries bytes) as (H & _).
  - repeat constructor.
  - exact E.
  - rewrite H. vm_compute. reflexivity.
Defined.
