(* ===== verification/Crypto.v ===== *)
(** * Keys and ciphers ([sutra-crypto/src/lib.rs])

    The primitives (AES-256-GCM, HKDF-SHA256, HMAC-SHA256) are the [Primitives]
    interface; [PrimitiveLaws] says what the crates document: a message opened under
    the key, nonce and associated data it was sealed with is the message.  The random
    nonce of a call is an argument; a cipher handed to a caller draws one per
    associated data, so every choice is covered.

    The lemmas: sealing and opening, wrapping a data key and unwrapping it, and the
    envelope provider returning the key that was provisioned. *)
From Stdlib Require Import ZArith Lia Bool Ascii String.
From stdpp Require Import base list option gmap strings.
From S2P Require Import Prelude Texts Container.

Open Scope string_scope.
Open Scope list_scope.
Open Scope Z_scope.

Inductive CipherError : Type :=
| Encrypt (msg : string)
| Decrypt (msg : string)
| KeyDerivation (msg : string).

Class Primitives : Type := {
  aes_seal : string → string → string → string → result string string;
  aes_open : string → string → string → string → result string string;
  hkdf_expand : string → string → result string string;
  hmac_sha256 : string → string → string
}.

Definition BLIND_INDEX_LABEL : string := String "031" "blind-index".
Definition KEK_FROM_SECRET_LABEL : string := "sutra-crypto-kek".
Definition NONCE_LEN : nat := 12.

Class PrimitiveLaws (p : Primitives) : Prop := {
  open_seal key nonce msg aad c : aes_seal key nonce msg aad = Ok c → aes_open key nonce c aad = Ok msg
}.

(** ** Data keys and ciphers *)

Record DataKey : Type := mk_data_key { dk_key_id : string; dk_material : string }.

Record PayloadCipher : Type := mk_cipher {
  pc_encrypt : string → string → result CipherError string;
  pc_decrypt : string → string → result CipherError string }.

Record BlindIndexer : Type := mk_indexer { bi_key : string }.

Record KeyProvider : Type := mk_provider {
  data_key : string → result CipherError DataKey;
  blind_index_key : string → result CipherError BlindIndexer }.

Section Ciphers.
Context `{Primitives}.

(** [nonce || body], under [key]. *)
Definition seal (key nonce plaintext aad : string) : result CipherError string :=
  body ← map_err Encrypt (aes_seal key nonce plaintext aad);
  Ok (nonce +:+ body).

Definition open_sealed (short key ciphertext aad : string) : result CipherError string :=
  if (String.length ciphertext <? NONCE_LEN)%nat then Err (Decrypt short)
  else
    let '(nonce, body) := Container.split_at NONCE_LEN ciphertext in
    map_err Decrypt (aes_open key nonce body aad).

Definition Aes256GcmCipher (key : DataKey) (nonces : string → string) : PayloadCipher :=
  mk_cipher (λ plaintext aad, seal (dk_material key) (nonces aad) plaintext aad)
            (open_sealed "ciphertext shorter than the nonce prefix" (dk_material key)).

(** ** Key providers *)

Definition HkdfKeyProvider (master : string) : KeyProvider :=
  mk_provider
    (λ key_id, material ← map_err KeyDerivation (hkdf_expand master key_id); Ok (mk_data_key key_id material))
    (λ key_id, key ← map_err KeyDerivation (hkdf_expand master (key_id +:+ BLIND_INDEX_LABEL)); Ok (mk_indexer key)).

Record Kek : Type := mk_kek { kek_material : string }.

Record WrappedDataKey : Type := mk_wrapped { wk_key_id : string; wk_wrapped : string }.

(** [Kek::from_secret]; a failed expansion is a panic. *)
Definition kek_from_secret (secret : string) : option Kek :=
  mk_kek <$> ok (hkdf_expand secret KEK_FROM_SECRET_LABEL).

Definition wrap (kek : Kek) (nonce : string) (dek : DataKey) : result CipherError WrappedDataKey :=
  wrapped ← seal (kek_material kek) nonce (dk_material dek) (dk_key_id dek);
  Ok (mk_wrapped (dk_key_id dek) wrapped).

Definition unwrap (kek : Kek) (wrapped : WrappedDataKey) : result CipherError DataKey :=
  material ← open_sealed "wrapped key shorter than the nonce prefix" (kek_material kek) (wk_wrapped wrapped) (wk_key_id wrapped);
  if (String.length material =? 32)%nat then Ok (mk_data_key (wk_key_id wrapped) material)
  else Err (Decrypt "unwrapped DEK material is not 32 bytes").

Definition wrap_fresh_dek (kek : Kek) (nonce key_id dek_material : string) : result CipherError WrappedDataKey :=
  wrap kek nonce (mk_data_key key_id dek_material).

Definition envelope_data_key (kek : Kek) (wrapped : gmap string WrappedDataKey) (key_id : string) : result CipherError DataKey :=
  w ← ok_or (KeyDerivation ("no wrapped DEK registered for key_id " +:+ key_id)) (wrapped !! key_id);
  unwrap kek w.

Definition EnvelopeKeyProvider (kek : Kek) (wrapped : gmap string WrappedDataKey) : KeyProvider :=
  mk_provider (envelope_data_key kek wrapped)
    (λ key_id,
      dek ← envelope_data_key kek wrapped key_id;
      key ← map_err KeyDerivation (hkdf_expand (dk_material dek) (key_id +:+ BLIND_INDEX_LABEL));
      Ok (mk_indexer key)).

(** ** Blind indexes *)

Definition hex_digit (n : Z) : ascii := if n <? 10 then digit_char n else ascii_of_nat (Z.to_nat (87 + n)).

Fixpoint hex_lower (bytes : string) : string :=
  match bytes with
  | EmptyString => ""
  | String b r => String (hex_digit (ascii_Z b / 16)) (String (hex_digit (ascii_Z b mod 16)) (hex_lower r))
  end.

Definition blind (i : BlindIndexer) (value : string) : string := hex_lower (hmac_sha256 (bi_key i) (trim value)).
End Ciphers.

(** ** Lemmas *)

(** What a cipher promises to a caller. *)
Class CipherLaws (c : PayloadCipher) : Prop := {
  decrypt_encrypt plaintext aad ciphertext :
    pc_encrypt c plaintext aad = Ok ciphertext → pc_decrypt c ciphertext aad = Ok plaintext
}.

Lemma open_seal_round_trip `{PrimitiveLaws} short key nonce plaintext aad c :
  String.length nonce = NONCE_LEN → seal key nonce plaintext aad = Ok c → open_sealed short key c aad = Ok plaintext.
Proof.
  intros Hn. unfold seal, open_sealed. destruct (aes_seal key nonce plaintext aad) as [body|] eqn:E; [|done].
  intros [= <-]. rewrite string_length_app, Hn.
  assert ((NONCE_LEN + String.length body <? NONCE_LEN)%nat = false) as -> by (apply Nat.ltb_ge; lia).
  rewrite <-Hn, Container.split_at_app. by rewrite (open_seal _ _ _ _ _ E).
Qed.

#[export] Instance aes_cipher_laws `{PrimitiveLaws} key nonces :
  (∀ aad, String.length (nonces aad) = NONCE_LEN) → CipherLaws (Aes256GcmCipher key nonces).
Proof. intros Hn. split. intros plaintext aad c Hc. by apply (open_seal_round_trip _ _ (nonces aad)). Qed.

Lemma unwrap_wrap `{PrimitiveLaws} kek nonce dek w :
  String.length nonce = NONCE_LEN → String.length (dk_material dek) = 32%nat →
  wrap kek nonce dek = Ok w → unwrap kek w = Ok dek.
Proof.
  intros Hn Hd. unfold wrap, unwrap. intros (c & Hc & [= <-])%result_bind_ok. simpl.
  rewrite (open_seal_round_trip _ _ nonce (dk_material dek) _ _ Hn Hc). simpl. rewrite Hd. simpl. by destruct dek.
Qed.

(** A provisioned data key is the one the envelope provider hands out. *)
Lemma envelope_data_key_provisioned `{PrimitiveLaws} kek nonce dek w (others : gmap string WrappedDataKey) :
  String.length nonce = NONCE_LEN → String.length (dk_material dek) = 32%nat → wrap kek nonce dek = Ok w →
  data_key (EnvelopeKeyProvider kek (<[dk_key_id dek := w]> others)) (dk_key_id dek) = Ok dek.
Proof.
  intros Hn Hd Hw. simpl. unfold envelope_data_key. rewrite lookup_insert_eq. simpl. by apply (unwrap_wrap kek nonce).
Qed.

(** Blind indexes do not see white space around a value. *)
Lemma blind_trim `{Primitives} i v : blind i (trim v) = blind i v.
Proof. unfold blind. by rewrite trim_idemp. Qed.
