(* ===== verification/SnapshotValue.v ===== *)
(** * Typed values of a snapshot ([sutra-persistence/src/value.rs] and
    [sutra-engine/src/snapshot_values.rs])

    [Module Value] is the persisted model of one variable and its tagged wire form;
    [to_snapshot] and [to_feel] go between it and the FEEL value of the executor.
    The JSON text is the crate's ([JsonText]); [JsonTextLaws] says that it reads back
    a document it wrote: distinct keys, JSON numbers, and a nesting below the crate's
    recursion limit of 128.

    The theorems: a value survives a wait state, scale of every number and kind of
    every temporal value included; a user's context is never mistaken for the
    envelope of a temporal value. *)
From Stdlib Require Import ZArith Lia Bool Ascii String.
From stdpp Require Import base countable option gmap strings list.
From S2P Require Import Prelude Texts Decimal FeelValue Temporal FeelText TemporalParse.

Open Scope string_scope.
Open Scope list_scope.
Open Scope Z_scope.

Module Value.

Inductive SnapshotValue : Type :=
| Null
| Boolean (b : bool)
| Number (n : BigDecimal)
| String (s : string)
| Date (text : string)
| Time (text : string)
| DateTime (text : string)
| Duration (text : string)
| List (items : list SnapshotValue)
| Context (entries : list (string * SnapshotValue)).

Definition TAG_SEP : ascii := "|".
Definition TAG_NULL : ascii := "z".
Definition TAG_BOOLEAN : ascii := "b".
Definition TAG_NUMBER : ascii := "n".
Definition TAG_STRING : ascii := "s".
Definition TAG_DATE : ascii := "d".
Definition TAG_TIME : ascii := "t".
Definition TAG_DATE_TIME : ascii := "i".
Definition TAG_DURATION : ascii := "u".
Definition TAG_JSON : ascii := "j".

Definition JSON_DATE : string := "@d".
Definition JSON_TIME : string := "@t".
Definition JSON_DATE_TIME : string := "@i".
Definition JSON_DURATION : string := "@u".

Definition needs_typed_encoding (v : SnapshotValue) : bool :=
  match v with String _ => false | _ => true end.

Definition temporal_json (key text : string) : Json := JObject [(key, JString text)].

Definition escape_context_key (key : string) : string :=
  match strip_prefix "@" key with Some rest => "@@" +:+ rest | None => key end.

Definition unescape_context_key (key : string) : string :=
  match strip_prefix "@@" key with Some rest => "@" +:+ rest | None => key end.

Section Codec.
Context `{BigDecimalText, JsonText}.

Fixpoint to_canonical_string (v : SnapshotValue) : string :=
  match v with
  | Null => "null"
  | Boolean b => bool_string b
  | Number n => bd_to_string n
  | String s | Date s | Time s | DateTime s | Duration s => s
  | List items => "[" +:+ String.concat ", " (map to_canonical_string items) +:+ "]"
  | Context entries =>
      "{" +:+ String.concat ", " (map (λ e, e.1 +:+ "=" +:+ to_canonical_string e.2) entries) +:+ "}"
  end.

Fixpoint to_json (v : SnapshotValue) : Json :=
  match v with
  | Null => JNull
  | Boolean b => JBool b
  | Number n => JNumber (canonical_decimal_string n)
  | String s => JString s
  | Date s => temporal_json JSON_DATE s
  | Time s => temporal_json JSON_TIME s
  | DateTime s => temporal_json JSON_DATE_TIME s
  | Duration s => temporal_json JSON_DURATION s
  | List items => JArray (map to_json items)
  | Context entries =>
      JObject (fold_left (λ m e, json_insert e.1 e.2 m)
                 (map (λ e, (escape_context_key e.1, to_json e.2)) entries) [])
  end.

(** The temporal value of a single-key object under an envelope key. *)
Definition envelope (m : list (string * Json)) : option SnapshotValue :=
  match m with
  | [(key, JString text)] =>
      if String.eqb key JSON_DATE then Some (Date text)
      else if String.eqb key JSON_TIME then Some (Time text)
      else if String.eqb key JSON_DATE_TIME then Some (DateTime text)
      else if String.eqb key JSON_DURATION then Some (Duration text)
      else None
  | _ => None
  end.

Fixpoint from_json (j : Json) : SnapshotValue :=
  match j with
  | JNull => Null
  | JBool b => Boolean b
  | JNumber t => match bd_parse t with Some d => Number d | None => String t end
  | JString s => String s
  | JArray items => List (map from_json items)
  | JObject m =>
      match envelope m with
      | Some v => v
      | None => Context (fold_left (λ acc e, map_insert e.1 e.2 acc)
                           (map (λ e, (unescape_context_key e.1, from_json e.2)) m) [])
      end
  end.

Definition tagged (tag : ascii) (payload : string) : string :=
  Strings.String.String tag (Strings.String.String TAG_SEP payload).

Definition encode (v : SnapshotValue) : string :=
  match v with
  | Null => tagged TAG_NULL ""
  | Boolean b => tagged TAG_BOOLEAN (bool_string b)
  | Number n => tagged TAG_NUMBER (canonical_decimal_string n)
  | String s => tagged TAG_STRING s
  | Date s => tagged TAG_DATE s
  | Time s => tagged TAG_TIME s
  | DateTime s => tagged TAG_DATE_TIME s
  | Duration s => tagged TAG_DURATION s
  | List _ | Context _ => tagged TAG_JSON (json_to_string (to_json v))
  end.

Definition decode (raw : string) : SnapshotValue :=
  match raw with
  | Strings.String.String tag (Strings.String.String sep payload) =>
      if negb (Ascii.eqb sep TAG_SEP) then String raw
      else if Ascii.eqb tag TAG_NULL then Null
      else if Ascii.eqb tag TAG_BOOLEAN then
        if String.eqb payload "true" then Boolean true
        else if String.eqb payload "false" then Boolean false
        else String raw
      else if Ascii.eqb tag TAG_NUMBER then
        match bd_parse payload with Some n => Number n | None => String raw end
      else if Ascii.eqb tag TAG_STRING then String payload
      else if Ascii.eqb tag TAG_DATE then Date payload
      else if Ascii.eqb tag TAG_TIME then Time payload
      else if Ascii.eqb tag TAG_DATE_TIME then DateTime payload
      else if Ascii.eqb tag TAG_DURATION then Duration payload
      else if Ascii.eqb tag TAG_JSON then
        match json_from_str payload with
        | Ok (JArray items) => from_json (JArray items)
        | Ok (JObject m) => from_json (JObject m)
        | _ => String raw
        end
      else String raw
  | _ => String raw
  end.
End Codec.
End Value.

(** ** The seam with FEEL *)

Section Seam.
Context `{BigDecimalText, TimeText, TimeCrate, TimeParse}.

Fixpoint to_snapshot (v : FeelValue) : Value.SnapshotValue :=
  match v with
  | Null => Value.Null
  | Boolean b => Value.Boolean b
  | Number n => Value.Number n
  | Str s => Value.String s
  | DateV _ => Value.Date (canonical_string_of v)
  | TimeV _ _ => Value.Time (canonical_string_of v)
  | Instant _ _ => Value.DateTime (canonical_string_of v)
  | Duration _ => Value.Duration (canonical_string_of v)
  | List items => Value.List (map to_snapshot items)
  | Map entries => Value.Context (map (λ e, (e.1, to_snapshot e.2)) entries)
  | Function _ | Invocable _ _ _ _ | Range _ => Value.String (canonical_string_of v)
  end.

Definition temporal (text : string) (is_expected_kind : FeelValue → bool) : FeelValue :=
  match parse_at_literal text with
  | Some value => if is_expected_kind value then value else Str text
  | None => Str text
  end.

Fixpoint to_feel (v : Value.SnapshotValue) : FeelValue :=
  match v with
  | Value.Null => Null
  | Value.Boolean b => Boolean b
  | Value.Number n => Number n
  | Value.String s => Str s
  | Value.Date text => temporal text (λ v, match v with DateV _ => true | _ => false end)
  | Value.Time text => temporal text (λ v, match v with TimeV _ _ => true | _ => false end)
  | Value.DateTime text => temporal text (λ v, match v with Instant _ _ => true | _ => false end)
  | Value.Duration text => temporal text (λ v, match v with Duration _ => true | _ => false end)
  | Value.List items => List (map to_feel items)
  | Value.Context entries => Map (map (λ e, (e.1, to_feel e.2)) entries)
  end.
End Seam.

(** ** JSON documents *)

(** A JSON number: an integer without leading zeros, a fraction, an exponent. *)
Definition span_digits (s : string) : string * string := span_until (λ c, negb (is_ascii_digit c)) s.

Definition json_exponent (s : string) : bool :=
  match s with
  | EmptyString => true
  | String c r =>
      (Ascii.eqb c "e" || Ascii.eqb c "E")
      && let '(ds, rest) := span_digits (match r with
                                         | String c' r' => if Ascii.eqb c' "+" || Ascii.eqb c' "-" then r' else r
                                         | EmptyString => r
                                         end)
         in negb (str_is_empty ds) && str_is_empty rest
  end.

Definition json_number (t : string) : bool :=
  let '(int, rest) := span_digits (default t (strip_prefix "-" t)) in
  negb (str_is_empty int) && (negb (starts_with "0" int) || String.eqb int "0")
  && match strip_prefix "." rest with
     | Some r => let '(frac, e) := span_digits r in negb (str_is_empty frac) && json_exponent e
     | None => json_exponent rest
     end.

Fixpoint json_document (j : Json) : bool :=
  match j with
  | JNull | JBool _ | JString _ => true
  | JNumber t => json_number t
  | JArray items => forallb json_document items
  | JObject m => bool_decide (NoDup (map fst m)) && forallb (λ e, json_document e.2) m
  end.

Fixpoint json_depth (j : Json) : nat :=
  match j with
  | JArray items => S (list_max (map json_depth items))
  | JObject m => S (list_max (map (λ e, json_depth e.2) m))
  | _ => O
  end.

(** The crate reads back what it wrote, up to its recursion limit. *)
Class JsonTextLaws (jt : JsonText) : Prop := {
  json_round_trip j : json_document j = true → (json_depth j <= 127)%nat → json_from_str (json_to_string j) = Ok j
}.

(** ** Lemmas *)

Lemma unescape_escape k : Value.unescape_context_key (Value.escape_context_key k) = k.
Proof.
  unfold Value.unescape_context_key, Value.escape_context_key.
  destruct (strip_prefix "@" k) as [r|] eqn:E.
  - rewrite strip_prefix_app. by apply strip_prefix_some in E as ->.
  - destruct (strip_prefix "@@" k) as [r|] eqn:E2; [|done]. apply strip_prefix_some in E2 as ->. discriminate E.
Qed.

#[export] Instance escape_inj : Inj (=) (=) Value.escape_context_key.
Proof. intros k k' E. by rewrite <-(unescape_escape k), E, unescape_escape. Qed.

(** An escaped key is no envelope key. *)
Lemma escape_not_envelope k j : Value.envelope [(Value.escape_context_key k, j)] = None.
Proof.
  simpl. destruct j as [| | |text| |]; try done.
  assert (∀ e, strip_prefix "@" e ≠ None → strip_prefix "@@" e = None → String.eqb (Value.escape_context_key k) e = false) as Hne.
  { intros e H1 H2. apply String.eqb_neq. unfold Value.escape_context_key.
    destruct (strip_prefix "@" k) as [r|] eqn:E; intros <-; [by rewrite strip_prefix_app in H2|done]. }
  by rewrite !Hne.
Qed.

Lemma json_insert_new k j m : k ∉ map fst m → json_insert k j m = m ++ [(k, j)].
Proof.
  induction m as [|[k' j'] m IH]; [done|]. simpl. intros [Hk Hm]%not_elem_of_cons.
  destruct (String.eqb_spec k' k) as [->|]; [done|]. by rewrite IH.
Qed.

Lemma json_insert_all (l acc : list (string * Json)) :
  NoDup (map fst (acc ++ l)) → fold_left (λ m e, json_insert e.1 e.2 m) l acc = acc ++ l.
Proof.
  revert acc. induction l as [|[k j] l IH]; intros acc Hnd; simpl; [by rewrite app_nil_r|].
  rewrite json_insert_new.
  - rewrite IH; by rewrite <-app_assoc.
  - rewrite map_app in Hnd. apply list.NoDup_app in Hnd as (_ & Hk & _). intros Hin. apply (Hk k Hin). by left.
Qed.

Lemma keys_sorted_nodup ks : keys_sorted ks = true → NoDup ks.
Proof.
  induction ks as [|k ks IH]; [constructor|]. simpl. intros [Hk Hs]%andb_true_iff. constructor; [|by apply IH].
  intros Hin%list_elem_of_In. rewrite forallb_forall in Hk. specialize (Hk k Hin).
  rewrite bool_decide_eq_true, string_compare_refl in Hk. done.
Qed.

Lemma Forall_forallb {A} (f : A → bool) l : forallb f l = true ↔ Forall (λ x, f x = true) l.
Proof. induction l as [|x l IH]; simpl; [done|]. rewrite Forall_cons. rewrite andb_true_iff. tauto. Qed.

Lemma Forall_apply {A} (P Q : A → Prop) l : Forall (λ x, P x → Q x) l → Forall P l → Forall Q l.
Proof. induction 1; inversion 1; constructor; auto. Qed.

(** Induction on the values of a snapshot, through lists and contexts. *)
Lemma snapshot_value_ind (P : Value.SnapshotValue → Prop) :
  (∀ v, (∀ items, v ≠ Value.List items) → (∀ m, v ≠ Value.Context m) → P v) →
  (∀ items, Forall P items → P (Value.List items)) →
  (∀ m, Forall (λ e, P e.2) m → P (Value.Context m)) →
  ∀ v, P v.
Proof.
  intros Hs Hl Hc. fix IH 1. intros v. destruct v as [| | | | | | | |items|m];
    try (apply Hs; intros; discriminate).
  - apply Hl. induction items; constructor; auto.
  - apply Hc. induction m as [|[k x] m IHm]; constructor; auto.
Qed.

(** ** The codec *)

Section Laws.
Context `{Hbd : BigDecimalTextLaws} `{Hjs : JsonTextLaws}.

(** What the wire form carries: numbers of non-negative scale that print as JSON
    numbers, contexts in key order. *)
Fixpoint storable (v : Value.SnapshotValue) : bool :=
  match v with
  | Value.Number n => (0 <=? scale n) && json_number (canonical_decimal_string n)
  | Value.List items => forallb storable items
  | Value.Context m => keys_sorted (map fst m) && forallb (λ e, storable e.2) m
  | _ => true
  end.

Lemma to_json_context m :
  keys_sorted (map fst m) = true →
  NoDup (map fst (map (λ e, (Value.escape_context_key e.1, Value.to_json e.2)) m)) ∧
  Value.to_json (Value.Context m) = JObject (map (λ e, (Value.escape_context_key e.1, Value.to_json e.2)) m).
Proof.
  intros Hs%keys_sorted_nodup.
  assert (NoDup (map fst (map (λ e, (Value.escape_context_key e.1, Value.to_json e.2)) m))) as Hnd.
  { rewrite map_map. simpl. rewrite <-(map_map fst). by apply NoDup_fmap_2; [apply _|]. }
  split; [done|]. simpl. f_equal. by apply json_insert_all.
Qed.

Lemma to_json_document v : storable v = true → json_document (Value.to_json v) = true.
Proof.
  induction v as [v Hl Hc|items IH|m IH] using snapshot_value_ind.
  - destruct v; simpl; try done; [by intros [_ ->]%andb_true_iff|by destruct (Hl items)|by destruct (Hc entries)].
  - simpl. rewrite !Forall_forallb, Forall_map. intros Hs. by apply (Forall_apply _ _ _ IH).
  - cbn [storable]. intros [Hs Hm]%andb_true_iff. destruct (to_json_context m Hs) as [Hnd ->]. simpl.
    rewrite bool_decide_eq_true_2 by done. simpl. apply Forall_forallb in Hm. apply Forall_forallb. rewrite Forall_map.
    by apply (Forall_apply _ _ _ IH).
Qed.

Lemma from_to_json v : storable v = true → Value.from_json (Value.to_json v) = v.
Proof using Hbd.
  induction v as [v Hl Hc|items IH|m IH] using snapshot_value_ind.
  - destruct v; simpl; try done; [|by destruct (Hl items)|by destruct (Hc entries)].
    intros [Hn%Z.leb_le _]%andb_true_iff. by rewrite canonical_decimal_parses.
  - simpl. rewrite Forall_forallb. intros Hs. f_equal. rewrite map_map. rewrite <-(map_id items) at 2.
    apply map_ext_Forall. by apply (Forall_apply _ _ _ IH).
  - cbn [storable]. intros [Hs Hm]%andb_true_iff. destruct (to_json_context m Hs) as [_ ->]. cbn [Value.from_json].
    assert (Value.envelope (map (λ e, (Value.escape_context_key e.1, Value.to_json e.2)) m) = None) as ->.
    { destruct m as [|[k x] [|? ?]]; [done|apply escape_not_envelope|]. simpl. by destruct (Value.to_json x). }
    f_equal. rewrite map_map. simpl.
    assert (map (λ e, (Value.unescape_context_key (Value.escape_context_key e.1), Value.from_json (Value.to_json e.2))) m = m) as ->.
    { rewrite <-(map_id m) at 2. apply map_ext_Forall. apply Forall_forallb in Hm.
      eapply Forall_impl; [exact (Forall_apply _ _ _ IH Hm)|]. intros [k x] Hx. simpl in *.
      by rewrite unescape_escape, Hx. }
    rewrite map_insert_sorted; [done|done|]. intros a b Ha. by apply elem_of_nil in Ha.
Qed.

Lemma decode_encode v :
  storable v = true → (json_depth (Value.to_json v) <= 127)%nat → Value.decode (Value.encode v) = v.
Proof.
  intros Hs Hd. pose proof (from_to_json v Hs) as Hf. pose proof (json_round_trip _ (to_json_document v Hs) Hd) as Hj.
  destruct v as [|[]|n| | | | | |items|m]; try done.
  - simpl in *. apply andb_true_iff in Hs as [Hn%Z.leb_le _]. by rewrite canonical_decimal_parses.
  - cbn -[Value.to_json]. rewrite Hj. exact Hf.
  - cbn [storable] in Hs. apply andb_true_iff in Hs as [Hs _]. destruct (to_json_context m Hs) as [_ Ht].
    cbn -[Value.to_json]. rewrite Hj. rewrite Ht in Hf |- *. exact Hf.
Qed.
End Laws.

(** ** Values across a wait state *)

Section Park.
Context `{BigDecimalText, TimeText, TimeParse} (tc : TimeCrate).

(** The values a snapshot carries: data, and temporal values whose text reads back. *)
Fixpoint parkable (v : FeelValue) : Prop :=
  match v with
  | Null | Boolean _ | Str _ => True
  | Number n => 0 <= scale n ∧ json_number (canonical_decimal_string n) = true
  | List items => foldr (λ x P, parkable x ∧ P) True items
  | Map m => keys_sorted (map fst m) = true ∧ foldr (λ e P, parkable e.2 ∧ P) True m
  | v => readable v
  end.

Lemma to_feel_temporal v kind :
  TimeCrateLaws tc → readable v → kind v = true → temporal (canonical_string_of v) kind = v.
Proof. intros Hl Hr Hk. unfold temporal. by rewrite at_literal_canonical, Hk. Qed.

Lemma to_feel_to_snapshot (Hl : TimeCrateLaws tc) : ∀ v, parkable v → to_feel (to_snapshot v) = v.
Proof.
  fix IH 1. intros [| | | |i q|d|t q|d|items|m| | |]; intros Hp;
    try done; try (by apply (to_feel_temporal _ _ Hl Hp)).
  - simpl. f_equal. rewrite map_map. simpl in Hp. induction items as [|x items IHi]; [done|].
    simpl in *. destruct Hp as [Hx Hi]. f_equal; [by apply IH|by apply IHi].
  - simpl. f_equal. rewrite map_map. destruct Hp as [_ Hp]. simpl in Hp. induction m as [|[k x] m IHm]; [done|].
    simpl in *. destruct Hp as [Hx Hm]. f_equal; [f_equal; by apply IH|by apply IHm].
Qed.

Lemma to_snapshot_storable : ∀ v, parkable v → storable (to_snapshot v) = true.
Proof.
  fix IH 1. intros [| | | |i q|d|t q|d|items|m| | |]; intros Hp; try done.
  - simpl in *. destruct Hp as [Hn ->]. rewrite andb_true_r. by apply Z.leb_le.
  - simpl in *. induction items as [|x items IHi]; [done|]. simpl in *. destruct Hp as [Hx Hi].
    by rewrite IH, IHi.
  - simpl in *. destruct Hp as [Hs Hp]. rewrite map_map.
    change (map (λ e, (e.1, to_snapshot e.2).1) m) with (map fst m). rewrite Hs. clear Hs. induction m as [|[k x] m IHm]; [done|]. simpl in *. destruct Hp as [Hx Hm]. by rewrite IH, IHm.
Qed.
End Park.

(** ** Properties *)

(** A variable survives a wait state as the value it was.  Encoding the
    persisted form of a value and decoding it gives the value back: every number with
    its scale, every temporal value with its kind and qualifier, nested lists and
    contexts, and context keys that look like the envelope of a temporal value. *)
Theorem parked_value_round_trip `{TimeText, TimeParse} (bt : BigDecimalText) (jt : JsonText) (tc : TimeCrate) (v : FeelValue) :
  BigDecimalTextLaws bt → JsonTextLaws jt → TimeCrateLaws tc →
  parkable tc v → (json_depth (Value.to_json (to_snapshot v)) <= 127)%nat →
  to_feel (Value.decode (Value.encode (to_snapshot v))) = v.
Proof.
  intros Hb Hj Ht Hp Hd. rewrite decode_encode; [by apply (to_feel_to_snapshot tc)|by apply (to_snapshot_storable tc)|done].
Qed.

(** *** A JSON text with the laws: the numeral of the document *)

Fixpoint json_tree (j : Json) : gen_tree string :=
  match j with
  | JNull => GenNode 0 []
  | JBool b => GenNode (if b then 1 else 2) []
  | JNumber t => GenNode 3 [GenLeaf t]
  | JString s => GenNode 4 [GenLeaf s]
  | JArray items => GenNode 5 (map json_tree items)
  | JObject m => GenNode 6 (map (λ e, GenNode 7 [GenLeaf e.1; json_tree e.2]) m)
  end.

Fixpoint tree_json (t : gen_tree string) : Json :=
  match t with
  | GenLeaf s => JString s
  | GenNode 0 _ => JNull
  | GenNode 1 _ => JBool true
  | GenNode 2 _ => JBool false
  | GenNode 3 [GenLeaf t] => JNumber t
  | GenNode 4 [GenLeaf s] => JString s
  | GenNode 5 items => JArray (map tree_json items)
  | GenNode 6 es => JObject (map (λ e, match e with GenNode 7 [GenLeaf k; x] => (k, tree_json x) | _ => ("", JNull) end) es)
  | GenNode _ _ => JNull
  end.

Lemma tree_json_tree : ∀ j, tree_json (json_tree j) = j.
Proof.
  fix IH 1. intros [|[]| | |items|m]; simpl; try done.
  - f_equal. rewrite map_map. induction items as [|x items IHi]; simpl; [done|]. by rewrite IH, IHi.
  - f_equal. rewrite map_map. induction m as [|[k x] m IHm]; simpl; [done|]. by rewrite IH, IHm.
Qed.

Definition numeral_json_text : JsonText := {|
  json_to_string j := dec_string (Z.pos (countable.encode (json_tree j)));
  json_from_str s := match countable.decode (Z.to_pos (dec_value 0 s)) with
                     | Some t => Ok (tree_json t)
                     | None => Err "not a document"
                     end |}.

#[export] Instance numeral_json_text_laws : JsonTextLaws numeral_json_text.
Proof.
  split. intros j _ _. simpl. rewrite (numeral_value _ _ (dec_string_numeral (Z.pos _) ltac:(lia))). simpl.
  by rewrite countable.decode_encode, tree_json_tree.
Qed.

Lemma parked_value_round_trip_witness :
  let v := Map [("@d", Str "2021-01-01"); ("amount", Number (mk_decimal 10000 2));
                ("at", List [TimeV (mk_time 10 10 10 0) (Some (Offset (-19800))); Null])] in
  @to_feel plain_time_crate plain_time_parse
    (@Value.decode plain_decimal_text numeral_json_text
      (@Value.encode plain_decimal_text numeral_json_text (@to_snapshot plain_decimal_text plain_time_text v))) = v.
Proof.
  intros v.
  apply (@parked_value_round_trip plain_time_text plain_time_parse plain_decimal_text numeral_json_text plain_time_crate v);
    [apply _|apply _|apply _| |vm_compute; lia].
  repeat split; vm_compute; congruence.
Defined.

(** A duration of half a second, such as the difference of two times gives, comes
    back from a wait state as zero: its text has whole seconds only. *)
Theorem subsecond_duration_is_lost :
  let v := Duration (DaysTime 500000000) in
  @to_feel plain_time_crate plain_time_parse
    (@Value.decode plain_decimal_text numeral_json_text
      (@Value.encode plain_decimal_text numeral_json_text (@to_snapshot plain_decimal_text plain_time_text v)))
  = Duration (DaysTime 0).
Proof. vm_compute. reflexivity. Qed.
