(* ===== verification/Snapshot.v ===== *)
(** * The instance snapshot ([sutra-persistence/src/snapshot.rs])

    [InstanceSnapshot] is one in-flight instance; [write_encrypted] makes the key/value
    map of it (the key families and the generations 2, 3 and 4) and its bytes, and
    [from_raw] reads a map back.  The patches ([mark_failed], [mark_terminal],
    [resume_from_failed], [migrate_pinned]) rewrite keys of the stored map without
    decoding it.  The cipher and base64 are interfaces; a length the container cannot
    hold makes a writer panic.

    The theorem: reading what was written gives the snapshot back, encrypted
    variables included.  The theorems about the patches are in [SnapshotPatch]. *)
From Stdlib Require Import ZArith Lia Bool Ascii String.
From stdpp Require Import base sorting option gmap strings list.
From S2P Require Import Prelude Texts Decimal FeelValue Temporal FeelText TemporalParse Container Crypto SnapshotValue.

Open Scope string_scope.
Open Scope list_scope.
Open Scope Z_scope.

(** [base64]'s standard engine. *)
Class Base64 : Type := { b64_encode : string → string; b64_decode : string → option string }.
Class Base64Laws (b : Base64) : Prop := { b64_round_trip s : b64_decode (b64_encode s) = Some s }.

(** ** Keys *)

Definition STATUS_RUNNING : string := "RUNNING".
Definition STATUS_SUSPENDED : string := "SUSPENDED".
Definition STATUS_COMPLETED : string := "COMPLETED".
Definition STATUS_TERMINATED : string := "TERMINATED".
Definition STATUS_FAILED : string := "FAILED".

Definition FORMAT_VERSION : Z := 2.
Definition FORMAT_VERSION_ENCRYPTED : Z := 3.
Definition FORMAT_VERSION_TYPED : Z := 4.

Definition K_SNAPSHOT_VERSION : string := "sutra.snapshot".
Definition K_DEPLOYMENT_ID : string := "sutra.deploymentId".
Definition K_PROCESS_ID : string := "sutra.processId".
Definition K_STATUS : string := "sutra.status".
Definition K_COMPLETED : string := "sutra.completedNodes".
Definition K_WAITING : string := "sutra.waitingNodes".
Definition K_START_NODE : string := "sutra.startNode".
Definition K_AUDIT_SEQ : string := "sutra.auditSeq".
Definition K_SENSITIVE : string := "sutra.sensitive".
Definition K_FAILURE_CODE : string := "sutra.failureCode".
Definition K_FAILURE_DETAIL : string := "sutra.failureDetail".
Definition K_KEY_ID : string := "sutra.keyId".
Definition K_VAR_PREFIX : string := "sutra.var.".
Definition K_ENC_PREFIX : string := "sutra.enc.".
Definition K_COVERAGE_PREFIX : string := "sutra.coverage.".
Definition K_RETRY_PREFIX : string := "sutra.retry.".
Definition K_RETRY_WAIT_PREFIX : string := "sutra.retryWait.".

(** ** The snapshot *)

Record InstanceSnapshot : Type := mk_snapshot {
  sn_process_id : string; sn_deployment_id : string; sn_status : string;
  sn_completed_nodes : list string; sn_variables : gmap string Value.SnapshotValue;
  sn_waiting_nodes : list string; sn_start_node : string; sn_audit_seq : Z;
  sn_sensitive : list string; sn_coverage : gmap string Z; sn_retry_attempts : gmap string Z;
  sn_retry_backoff : gmap string string; sn_failure_code : string; sn_failure_detail : string }.

Definition of_suspended (process_id deployment_id : string) (completed_nodes : list string)
    (variables : gmap string string) (waiting_nodes : list string) (start_node : string) (audit_seq : Z)
    : InstanceSnapshot :=
  mk_snapshot process_id deployment_id STATUS_SUSPENDED completed_nodes (Value.String <$> variables)
    waiting_nodes start_node audit_seq [] ∅ ∅ ∅ "" "".

Definition of_ (process_id deployment_id status : string) (completed_nodes : list string)
    (variables : gmap string string) : InstanceSnapshot :=
  mk_snapshot process_id deployment_id status completed_nodes (Value.String <$> variables)
    [] "" 0 [] ∅ ∅ ∅ "" "".

Definition with_failure (code detail : string) (s : InstanceSnapshot) : InstanceSnapshot :=
  mk_snapshot (sn_process_id s) (sn_deployment_id s) STATUS_FAILED (sn_completed_nodes s) (sn_variables s)
    (sn_waiting_nodes s) (sn_start_node s) (sn_audit_seq s) (sn_sensitive s) (sn_coverage s)
    (sn_retry_attempts s) (sn_retry_backoff s) code detail.

Definition with_variables (variables : gmap string Value.SnapshotValue) (s : InstanceSnapshot) : InstanceSnapshot :=
  mk_snapshot (sn_process_id s) (sn_deployment_id s) (sn_status s) (sn_completed_nodes s) variables
    (sn_waiting_nodes s) (sn_start_node s) (sn_audit_seq s) (sn_sensitive s) (sn_coverage s)
    (sn_retry_attempts s) (sn_retry_backoff s) (sn_failure_code s) (sn_failure_detail s).

Definition canonical_names (names : list string) : list string :=
  List.filter (λ n, negb (str_is_empty n)) (dedup (sort_texts names)).

Definition with_sensitive (names : list string) (s : InstanceSnapshot) : InstanceSnapshot :=
  mk_snapshot (sn_process_id s) (sn_deployment_id s) (sn_status s) (sn_completed_nodes s) (sn_variables s)
    (sn_waiting_nodes s) (sn_start_node s) (sn_audit_seq s) (canonical_names names) (sn_coverage s)
    (sn_retry_attempts s) (sn_retry_backoff s) (sn_failure_code s) (sn_failure_detail s).

Definition positive (n : Z) : bool := 0 <? n.
Definition not_blank (s : string) : bool := negb (str_is_empty (trim s)).

(** [into_iter().filter(..).collect()]. *)
Definition keep {A} (f : A → bool) (m : gmap string A) : gmap string A := filter (λ e, f e.2 = true) m.

Definition with_coverage (coverage : gmap string Z) (s : InstanceSnapshot) : InstanceSnapshot :=
  mk_snapshot (sn_process_id s) (sn_deployment_id s) (sn_status s) (sn_completed_nodes s) (sn_variables s)
    (sn_waiting_nodes s) (sn_start_node s) (sn_audit_seq s) (sn_sensitive s) (keep positive coverage)
    (sn_retry_attempts s) (sn_retry_backoff s) (sn_failure_code s) (sn_failure_detail s).

Definition with_retry_attempts (retry_attempts : gmap string Z) (s : InstanceSnapshot) : InstanceSnapshot :=
  mk_snapshot (sn_process_id s) (sn_deployment_id s) (sn_status s) (sn_completed_nodes s) (sn_variables s)
    (sn_waiting_nodes s) (sn_start_node s) (sn_audit_seq s) (sn_sensitive s) (sn_coverage s)
    (keep positive retry_attempts) (sn_retry_backoff s) (sn_failure_code s) (sn_failure_detail s).

Definition with_retry_backoff (retry_backoff : gmap string string) (s : InstanceSnapshot) : InstanceSnapshot :=
  mk_snapshot (sn_process_id s) (sn_deployment_id s) (sn_status s) (sn_completed_nodes s) (sn_variables s)
    (sn_waiting_nodes s) (sn_start_node s) (sn_audit_seq s) (sn_sensitive s) (sn_coverage s)
    (sn_retry_attempts s) (keep not_blank retry_backoff) (sn_failure_code s) (sn_failure_detail s).

Definition is_suspended (s : InstanceSnapshot) : bool := String.eqb (sn_status s) STATUS_SUSPENDED.
Definition is_failed (s : InstanceSnapshot) : bool := String.eqb (sn_status s) STATUS_FAILED.

Definition is_terminal_status (status : string) : bool :=
  String.eqb status STATUS_COMPLETED || String.eqb status STATUS_TERMINATED.

(** ** Encryption context *)

Record SnapshotCrypto : Type := mk_crypto {
  sc_cipher : PayloadCipher; sc_key_id : string; sc_instance_id : string }.

Definition AAD_SEP : ascii := "031".

Definition aad (c : SnapshotCrypto) (var_name : string) : string :=
  sc_key_id c +:+ String AAD_SEP (sc_instance_id c +:+ String AAD_SEP var_name).

(** A snapshot's key/value map, neither decoded nor decrypted. *)
Abbreviation RawSnapshot := (gmap string string) (only parsing).

(** ** Writing *)

Section Codec.
Context `{BigDecimalText, JsonText, Base64}.

Definition render (typed : bool) (v : Value.SnapshotValue) : string :=
  if typed then Value.encode v else Value.to_canonical_string v.

Definition is_typed (variables : gmap string Value.SnapshotValue) : bool :=
  existsb (λ e, Value.needs_typed_encoding e.2) (btree_list variables).

(** The loop over the variables: the plaintext pairs and the encrypted ones. *)
Fixpoint partition_variables (crypto : option SnapshotCrypto) (encrypt_names : gset string) (typed : bool)
    (vars : list (string * Value.SnapshotValue))
    : result CipherError (list (string * string) * list (string * string)) :=
  match vars with
  | [] => Ok ([], [])
  | (name, value) :: rest =>
      let rendered := render typed value in
      match crypto with
      | Some c =>
          if bool_decide (name ∈ encrypt_names) then
            ciphertext ← pc_encrypt (sc_cipher c) rendered (aad c name);
            '(plain, enc) ← partition_variables crypto encrypt_names typed rest;
            Ok (plain, (K_ENC_PREFIX +:+ name, b64_encode ciphertext) :: enc)
          else
            '(plain, enc) ← partition_variables crypto encrypt_names typed rest;
            Ok ((K_VAR_PREFIX +:+ name, rendered) :: plain, enc)
      | None =>
          '(plain, enc) ← partition_variables crypto encrypt_names typed rest;
          Ok ((K_VAR_PREFIX +:+ name, rendered) :: plain, enc)
      end
  end.

Definition version_of (typed : bool) (enc_pairs : list (string * string)) : Z :=
  if typed then FORMAT_VERSION_TYPED
  else match enc_pairs with [] => FORMAT_VERSION | _ => FORMAT_VERSION_ENCRYPTED end.

(** An entry that is written only when it says something. *)
Definition entry_when (b : bool) (key value : string) : list (string * string) :=
  if b then [(key, value)] else [].

Definition is_nil {A} (l : list A) : bool := match l with [] => true | _ => false end.

(** The keys that are not of a family. *)
Definition head_entries (s : InstanceSnapshot) (crypto : option SnapshotCrypto) (typed : bool)
    (enc_pairs : list (string * string)) : list (string * string) :=
  [(K_SNAPSHOT_VERSION, dec_string (version_of typed enc_pairs));
   (K_DEPLOYMENT_ID, sn_deployment_id s);
   (K_PROCESS_ID, sn_process_id s);
   (K_STATUS, sn_status s);
   (K_COMPLETED, String.concat "," (sn_completed_nodes s))]
  ++ match crypto with Some c => entry_when (negb (is_nil enc_pairs)) K_KEY_ID (sc_key_id c) | None => [] end
  ++ entry_when (negb (is_nil (sn_waiting_nodes s))) K_WAITING (String.concat "," (sn_waiting_nodes s))
  ++ entry_when (negb (str_is_empty (sn_start_node s))) K_START_NODE (sn_start_node s)
  ++ entry_when (positive (sn_audit_seq s)) K_AUDIT_SEQ (dec_string (sn_audit_seq s))
  ++ entry_when (negb (is_nil (sn_sensitive s))) K_SENSITIVE (String.concat "," (sn_sensitive s))
  ++ entry_when (negb (str_is_empty (sn_failure_code s))) K_FAILURE_CODE (sn_failure_code s)
  ++ entry_when (negb (str_is_empty (sn_failure_detail s))) K_FAILURE_DETAIL (sn_failure_detail s).

Definition entries_of (s : InstanceSnapshot) (crypto : option SnapshotCrypto) (typed : bool)
    (var_pairs enc_pairs : list (string * string)) : list (string * string) :=
  head_entries s crypto typed enc_pairs
  ++ prefixed K_COVERAGE_PREFIX dec_string (keep positive (sn_coverage s))
  ++ prefixed K_RETRY_PREFIX dec_string (keep positive (sn_retry_attempts s))
  ++ prefixed K_RETRY_WAIT_PREFIX id (keep not_blank (sn_retry_backoff s))
  ++ var_pairs ++ enc_pairs.

Definition write_entries (s : InstanceSnapshot) (crypto : option SnapshotCrypto) (encrypt_names : gset string)
    : result CipherError (list (string * string)) :=
  let typed := is_typed (sn_variables s) in
  '(var_pairs, enc_pairs) ← partition_variables crypto encrypt_names typed (btree_list (sn_variables s));
  Ok (entries_of s crypto typed var_pairs enc_pairs).

Definition pack {E} (entries : list (string * string)) : result (fault E) string :=
  match Container.encode entries with Some bytes => Ok bytes | None => Err Panicked end.

Definition write_encrypted (s : InstanceSnapshot) (crypto : option SnapshotCrypto) (encrypt_names : gset string)
    : result (fault CipherError) string :=
  entries ← map_err Rejected (write_entries s crypto encrypt_names);
  pack entries.

Definition write (s : InstanceSnapshot) : result (fault CipherError) string :=
  match write_encrypted s None ∅ with Ok bytes => Ok bytes | Err _ => Err Panicked end.

(** ** Reading *)

Inductive raw_error : Type := BadContainer (e : Container.error) | BadText (e : Props.error).

Definition raw_map (bytes : string) : result raw_error RawSnapshot :=
  pairs ← (if Container.is_binary bytes then map_err BadContainer (Container.decode bytes)
           else map_err BadText (Props.read_lines bytes));
  Ok (map_of pairs).

Definition key_id (raw : RawSnapshot) : option string := raw !! K_KEY_ID.

Inductive read_error : Type :=
| Unreadable (e : raw_error)
| NoCipher (name : string)
| BadBase64 (name : string)
| FailedDecrypt (name : string) (e : CipherError)
| NotUtf8 (name : string).

Definition get (m : RawSnapshot) (key : string) : string := default "" (m !! key).

Definition split_list (raw : string) : list string :=
  List.filter (λ s, negb (str_is_empty s)) (map trim (split_char "," raw)).

Definition parse_or (default_value max : Z) (text : string) : Z := default default_value (parse_unsigned max (trim text)).

Definition raw_is_typed (m : RawSnapshot) : bool :=
  match m !! K_SNAPSHOT_VERSION with
  | Some v => FORMAT_VERSION_TYPED <=? parse_or FORMAT_VERSION u32_max v
  | None => false
  end.

Definition decode_value (typed : bool) (raw : string) : Value.SnapshotValue :=
  if typed then Value.decode raw else Value.String raw.

Definition decrypt_value (crypto : option SnapshotCrypto) (name value : string) : result read_error string :=
  c ← ok_or (NoCipher name) crypto;
  ciphertext ← ok_or (BadBase64 name) (b64_decode value);
  plaintext ← map_err (FailedDecrypt name) (pc_decrypt (sc_cipher c) ciphertext (aad c name));
  if utf8_valid plaintext then Ok plaintext else Err (NotUtf8 name).

(** What the loop over the map collects. *)
Record Families : Type := mk_families {
  f_variables : gmap string Value.SnapshotValue; f_coverage : gmap string Z;
  f_retry_attempts : gmap string Z; f_retry_backoff : gmap string string }.

Definition decode_entry (crypto : option SnapshotCrypto) (typed : bool) (f : Families) (e : string * string)
    : result read_error Families :=
  let '(key, value) := e in
  let '(mk_families vars coverage retries backoff) := f in
  match strip_prefix K_VAR_PREFIX key with
  | Some name => Ok (mk_families (<[name := decode_value typed value]> vars) coverage retries backoff)
  | None =>
      match strip_prefix K_ENC_PREFIX key with
      | Some name =>
          text ← decrypt_value crypto name value;
          Ok (mk_families (<[name := decode_value typed text]> vars) coverage retries backoff)
      | None =>
          match strip_prefix K_COVERAGE_PREFIX key with
          | Some path_id =>
              let count := parse_or 0 u64_max value in
              Ok (mk_families vars (if positive count then <[path_id := count]> coverage else coverage) retries backoff)
          | None =>
              match strip_prefix K_RETRY_WAIT_PREFIX key with
              | Some node_id =>
                  Ok (mk_families vars coverage retries
                        (if not_blank value then <[node_id := trim value]> backoff else backoff))
              | None =>
                  match strip_prefix K_RETRY_PREFIX key with
                  | Some node_id =>
                      let attempts := parse_or 0 u32_max value in
                      Ok (mk_families vars coverage
                            (if positive attempts then <[node_id := attempts]> retries else retries) backoff)
                  | None => Ok f
                  end
              end
          end
      end
  end.

Fixpoint decode_entries (crypto : option SnapshotCrypto) (typed : bool) (f : Families) (l : list (string * string))
    : result read_error Families :=
  match l with
  | [] => Ok f
  | e :: l => f ← decode_entry crypto typed f e; decode_entries crypto typed f l
  end.

Definition from_raw (m : RawSnapshot) (crypto : option SnapshotCrypto) : result read_error InstanceSnapshot :=
  f ← decode_entries crypto (raw_is_typed m) (mk_families ∅ ∅ ∅ ∅) (btree_list m);
  Ok (mk_snapshot (get m K_PROCESS_ID) (get m K_DEPLOYMENT_ID) (default STATUS_RUNNING (m !! K_STATUS))
        (split_list (get m K_COMPLETED)) (f_variables f) (split_list (get m K_WAITING)) (get m K_START_NODE)
        (parse_or 0 u32_max (get m K_AUDIT_SEQ)) (dedup (sort_texts (split_list (get m K_SENSITIVE))))
        (f_coverage f) (f_retry_attempts f) (f_retry_backoff f) (get m K_FAILURE_CODE) (get m K_FAILURE_DETAIL)).

Definition read_encrypted (bytes : string) (crypto : option SnapshotCrypto) : result read_error InstanceSnapshot :=
  raw ← map_err Unreadable (raw_map bytes);
  from_raw raw crypto.

Definition read (bytes : string) : result read_error InstanceSnapshot := read_encrypted bytes None.
End Codec.

(** ** Peeking *)

Record ResumeKeys : Type := mk_resume_keys {
  rk_process_id : string; rk_deployment_id : string; rk_status : string; rk_suspended : bool; rk_audit_seq : Z }.

Definition status_of (m : RawSnapshot) : string := default STATUS_RUNNING (m !! K_STATUS).

Definition peek (bytes : string) : result raw_error ResumeKeys :=
  m ← raw_map bytes;
  let status := status_of m in
  Ok (mk_resume_keys (get m K_PROCESS_ID) (get m K_DEPLOYMENT_ID) status (String.eqb status STATUS_SUSPENDED)
        (parse_or 0 u32_max (get m K_AUDIT_SEQ))).

Record SnapshotLoci : Type := mk_loci {
  sl_process_id : string; sl_deployment_id : string; sl_status : string; sl_waiting_nodes : list string;
  sl_completed_nodes : list string; sl_start_node : string; sl_retry_nodes : gset string; sl_audit_seq : Z }.

(** The names of the entries under [prefix] whose value passes. *)
Definition names_under (prefix : string) (f : string → bool) (m : RawSnapshot) : gset string :=
  list_to_set (omap (λ e, n ← strip_prefix prefix e.1; if f e.2 then Some n else None) (btree_list m)).

Definition loci_of (m : RawSnapshot) : SnapshotLoci :=
  mk_loci (get m K_PROCESS_ID) (get m K_DEPLOYMENT_ID) (status_of m) (split_list (get m K_WAITING))
    (split_list (get m K_COMPLETED)) (get m K_START_NODE)
    (names_under K_RETRY_PREFIX (λ v, positive (parse_or 0 u32_max v)) m)
    (parse_or 0 u32_max (get m K_AUDIT_SEQ)).

Definition peek_loci (bytes : string) : result raw_error SnapshotLoci := m ← raw_map bytes; Ok (loci_of m).

Definition peek_key_id (bytes : string) : result raw_error (option string) := m ← raw_map bytes; Ok (key_id m).

(** ** Patches of the stored map *)

Inductive patch_error : Type :=
| Undecodable (e : raw_error)
| NotATerminalStatus (status : string)
| NotFailed (status : string)
| TerminalInstance (status : string).

Definition raw_for_patch (bytes : string) : result (fault patch_error) RawSnapshot :=
  map_err (λ e, Rejected (Undecodable e)) (raw_map bytes).

(** [map.insert] of a text that is not empty, else [map.remove]. *)
Definition set_or_remove (key value : string) (m : RawSnapshot) : RawSnapshot :=
  if str_is_empty value then delete key m else <[key := value]> m.

Definition fail_map (failure_code detail : string) (m : RawSnapshot) : RawSnapshot :=
  set_or_remove K_FAILURE_DETAIL detail
    (set_or_remove K_FAILURE_CODE failure_code (<[K_STATUS := STATUS_FAILED]> m)).

Definition mark_failed (bytes failure_code detail : string) : result (fault patch_error) string :=
  m ← raw_for_patch bytes;
  pack (btree_list (fail_map failure_code detail m)).

Definition mark_terminal (bytes status : string) : result (fault patch_error) string :=
  if negb (is_terminal_status status) then Err (Rejected (NotATerminalStatus status))
  else m ← raw_for_patch bytes; pack (btree_list (<[K_STATUS := status]> m)).

Definition unfail_map (m : RawSnapshot) : RawSnapshot :=
  delete K_FAILURE_DETAIL (delete K_FAILURE_CODE (<[K_STATUS := STATUS_SUSPENDED]> m)).

Definition resume_from_failed (bytes : string) : result (fault patch_error) string :=
  m ← raw_for_patch bytes;
  if negb (String.eqb (status_of m) STATUS_FAILED) then Err (Rejected (NotFailed (status_of m)))
  else pack (btree_list (unfail_map m)).

(** *** Migration *)

Definition map_one (node_mapping : gmap string string) (id : string) : string := default id (node_mapping !! id).

Definition map_list (node_mapping : gmap string string) (raw : string) : string :=
  String.concat "," (map (map_one node_mapping) (split_list raw)).

Definition map_key (f : string → string) (key : string) (m : RawSnapshot) : RawSnapshot :=
  match m !! key with Some raw => <[key := f raw]> m | None => m end.

Definition map_start_node (node_mapping : gmap string string) (m : RawSnapshot) : RawSnapshot :=
  match m !! K_START_NODE with
  | Some start => if str_is_empty start then m else <[K_START_NODE := map_one node_mapping start]> m
  | None => m
  end.

(** Each key under [prefix] and the node it is to name, in key order. *)
Definition keyed_nodes (prefix : string) (node_mapping : gmap string string) (m : RawSnapshot) : list (string * string) :=
  omap (λ e, node ← strip_prefix prefix e.1; Some (e.1, map_one node_mapping node)) (btree_list m).

Definition rename_key (prefix : string) (m : RawSnapshot) (k : string * string) : RawSnapshot :=
  let '(old_key, mapped_node) := k in
  let new_key := prefix +:+ mapped_node in
  if String.eqb new_key old_key then m
  else match m !! old_key with Some value => <[new_key := value]> (delete old_key m) | None => m end.

Definition rename_nodes (prefix : string) (node_mapping : gmap string string) (m : RawSnapshot) : RawSnapshot :=
  fold_left (rename_key prefix) (keyed_nodes prefix node_mapping m) m.

Definition set_process_id (new_process_id : option string) (m : RawSnapshot) : RawSnapshot :=
  match new_process_id with
  | Some p => if str_is_empty p then m else <[K_PROCESS_ID := p]> m
  | None => m
  end.

Definition set_audit_seq (audit_seq : option Z) (m : RawSnapshot) : RawSnapshot :=
  match audit_seq with
  | Some seq => if positive seq then <[K_AUDIT_SEQ := dec_string seq]> m else m
  | None => m
  end.

Definition migrate_map (new_deployment_id : string) (new_process_id : option string)
    (node_mapping : gmap string string) (audit_seq : option Z) (m : RawSnapshot) : RawSnapshot :=
  let m := set_process_id new_process_id (<[K_DEPLOYMENT_ID := new_deployment_id]> m) in
  let m := map_key (map_list node_mapping) K_COMPLETED (map_key (map_list node_mapping) K_WAITING m) in
  let m := map_start_node node_mapping m in
  let m := rename_nodes K_RETRY_WAIT_PREFIX node_mapping (rename_nodes K_RETRY_PREFIX node_mapping m) in
  set_audit_seq audit_seq m.

Definition migrate_pinned (bytes new_deployment_id : string) (new_process_id : option string)
    (node_mapping : gmap string string) (audit_seq : option Z) : result (fault patch_error) string :=
  m ← raw_for_patch bytes;
  if is_terminal_status (status_of m) then Err (Rejected (TerminalInstance (status_of m)))
  else pack (btree_list (migrate_map new_deployment_id new_process_id node_mapping audit_seq m)).

Definition with_deployment_id (new_deployment_id : string) (s : InstanceSnapshot) : InstanceSnapshot :=
  mk_snapshot (sn_process_id s) new_deployment_id (sn_status s) (sn_completed_nodes s) (sn_variables s)
    (sn_waiting_nodes s) (sn_start_node s) (sn_audit_seq s) (sn_sensitive s) (sn_coverage s)
    (sn_retry_attempts s) (sn_retry_backoff s) (sn_failure_code s) (sn_failure_detail s).

(** ** Lemmas: bytes and maps *)

Lemma starts_with_app p s : starts_with p (p +:+ s) = true.
Proof. induction p as [|c p IH]; [done|]. simpl. by rewrite Ascii.eqb_refl. Qed.

Lemma pack_some {E} entries bytes : @pack E entries = Ok bytes → Container.layout (btree_list (map_of entries)) = Some bytes.
Proof. unfold pack. rewrite encode_layout. destruct (Container.layout _); congruence. Qed.

(** Reading what was packed gives the map of the entries. *)
Lemma raw_map_pack {E} entries bytes :
  @pack E entries = Ok bytes → Container.texts entries → raw_map bytes = Ok (map_of entries).
Proof.
  intros Hp%pack_some Ht%Container.texts_map_of. pose proof (Container.decode_layout _ _ Hp Ht) as Hd.
  apply Container.layout_some in Hp as (body & _ & _ & Hb).
  assert (Container.is_binary bytes = true) as Hbin by (unfold Container.is_binary; rewrite Hb; apply starts_with_app).
  unfold raw_map. rewrite Hbin, Hd. simpl. by rewrite map_of_btree_list.
Qed.

(** The texts of a map are those of its rows. *)
Definition text_map (m : RawSnapshot) : Prop := ∀ k v, m !! k = Some v → utf8_valid k = true ∧ utf8_valid v = true.

Lemma text_map_rows m : text_map m ↔ Container.texts (btree_list m).
Proof.
  unfold text_map, Container.texts. rewrite Forall_forall. split.
  - intros Hm [k v] Hin%elem_of_btree_list. by apply Hm.
  - intros Hr k v Hk%elem_of_btree_list. by apply (Hr (k, v)).
Qed.

Lemma raw_map_repack {E} m bytes : @pack E (btree_list m) = Ok bytes → text_map m → raw_map bytes = Ok m.
Proof.
  intros Hp Ht%text_map_rows. rewrite (raw_map_pack _ _ Hp Ht). by rewrite map_of_btree_list.
Qed.

Lemma pack_repack {E F} m bytes : @pack E (btree_list m) = Ok bytes → @pack F (btree_list m) = Ok bytes.
Proof. unfold pack. destruct (Container.encode _); congruence. Qed.

Lemma lookup_map_of_app {A} (l1 l2 : list (string * A)) k :
  map_of (l1 ++ l2) !! k = match map_of l2 !! k with Some v => Some v | None => map_of l1 !! k end.
Proof. rewrite map_of_app, lookup_union. by destruct (map_of l2 !! k), (map_of l1 !! k). Qed.

Lemma lookup_map_of_cons_last {A} k (v : A) l key :
  map_of ((k, v) :: l) !! key =
  match map_of l !! key with Some x => Some x | None => if String.eqb k key then Some v else None end.
Proof.
  rewrite map_of_cons, lookup_union. destruct (String.eqb_spec k key) as [->|Hne].
  - rewrite lookup_singleton_eq. by destruct (map_of l !! key).
  - rewrite lookup_singleton_ne by done. by destruct (map_of l !! key).
Qed.

Lemma lookup_entry_when b key value k :
  map_of (entry_when b key value) !! k = if String.eqb key k then (if b then Some value else None) else None.
Proof.
  destruct b; simpl; [by rewrite lookup_map_of_cons_last|by destruct (String.eqb key k)].
Qed.

(** ** Lemmas: lists of node ids *)

(** An id the comma-joined lists can hold. *)
Definition list_id (id : string) : bool := negb (str_is_empty id) && no_char "," id && String.eqb (trim id) id.

Lemma list_id_true id : list_id id = true → id ≠ "" ∧ no_char "," id = true ∧ trim id = id.
Proof.
  unfold list_id. intros [[Hne Hc]%andb_true_iff Ht%String.eqb_eq]%andb_true_iff. repeat split; [|done..]. by intros ->.
Qed.

Lemma split_list_concat ids : Forall (λ id, list_id id = true) ids → split_list (String.concat "," ids) = ids.
Proof.
  unfold split_list. induction 1 as [|id ids Hid Hids IH]; [done|].
  destruct (list_id_true _ Hid) as (Hne & Hc & Ht).
  assert (Hhead : negb (str_is_empty (trim id)) = true) by (rewrite Ht; by destruct id).
  destruct ids as [|id' ids].
  - simpl. rewrite split_char_none by done. simpl. by rewrite Hhead, Ht.
  - change (String.concat "," (id :: id' :: ids)) with (id +:+ String "," (String.concat "," (id' :: ids))).
    rewrite split_char_app by done. cbn [map List.filter]. by rewrite Hhead, Ht, IH.
Qed.

(** Names in strictly ascending order. *)
Definition names_sorted (l : list string) : Prop := StronglySorted (λ a b, String.compare a b = Lt) l.

Lemma sort_texts_sorted l : names_sorted l → sort_texts l = l.
Proof.
  induction 1 as [|x l Hl IH Hx]; [done|]. cbn [sort_texts foldr]. fold (sort_texts l). rewrite IH.
  destruct Hx as [|y l Hy _]; [done|]. cbn [insert_text]. unfold String.leb. by rewrite Hy.
Qed.

Lemma dedup_sorted l : names_sorted l → dedup l = l.
Proof.
  induction 1 as [|x l Hl IH Hx]; [done|]. destruct Hx as [|y l Hy _]; [done|]. cbn [dedup] in *.
  destruct (String.eqb_spec x y) as [->|_]; [by rewrite string_compare_refl in Hy|]. by rewrite IH.
Qed.

(** ** Lemmas: the loop over the map *)

Section Families.
Context `{BigDecimalText, JsonText, Base64} (crypto : option SnapshotCrypto) (typed : bool).

(** What one entry changes. *)
Inductive entry_effect (f : Families) (v : string) : string → Families → Prop :=
| effect_var n : entry_effect f v (K_VAR_PREFIX +:+ n)
    (mk_families (<[n := decode_value typed v]> (f_variables f)) (f_coverage f) (f_retry_attempts f) (f_retry_backoff f))
| effect_enc n t : decrypt_value crypto n v = Ok t → entry_effect f v (K_ENC_PREFIX +:+ n)
    (mk_families (<[n := decode_value typed t]> (f_variables f)) (f_coverage f) (f_retry_attempts f) (f_retry_backoff f))
| effect_coverage n : entry_effect f v (K_COVERAGE_PREFIX +:+ n)
    (mk_families (f_variables f)
       (if positive (parse_or 0 u64_max v) then <[n := parse_or 0 u64_max v]> (f_coverage f) else f_coverage f)
       (f_retry_attempts f) (f_retry_backoff f))
| effect_wait n : entry_effect f v (K_RETRY_WAIT_PREFIX +:+ n)
    (mk_families (f_variables f) (f_coverage f) (f_retry_attempts f)
       (if not_blank v then <[n := trim v]> (f_retry_backoff f) else f_retry_backoff f))
| effect_retry n : entry_effect f v (K_RETRY_PREFIX +:+ n)
    (mk_families (f_variables f) (f_coverage f)
       (if positive (parse_or 0 u32_max v) then <[n := parse_or 0 u32_max v]> (f_retry_attempts f) else f_retry_attempts f)
       (f_retry_backoff f))
| effect_none k : strip_prefix K_VAR_PREFIX k = None → strip_prefix K_ENC_PREFIX k = None →
    strip_prefix K_COVERAGE_PREFIX k = None → strip_prefix K_RETRY_WAIT_PREFIX k = None →
    strip_prefix K_RETRY_PREFIX k = None → entry_effect f v k f.

Lemma decode_entry_effect f k v f' : decode_entry crypto typed f (k, v) = Ok f' → entry_effect f v k f'.
Proof.
  unfold decode_entry. destruct f as [vars cov ret back].
  destruct (strip_prefix K_VAR_PREFIX k) as [n|] eqn:E1.
  { apply strip_prefix_some in E1 as ->. intros [= <-]. apply (effect_var (mk_families vars cov ret back)). }
  destruct (strip_prefix K_ENC_PREFIX k) as [n|] eqn:E2.
  { apply strip_prefix_some in E2 as ->. intros (t & Ht & [= <-])%result_bind_ok.
    by apply (effect_enc (mk_families vars cov ret back)). }
  destruct (strip_prefix K_COVERAGE_PREFIX k) as [n|] eqn:E3.
  { apply strip_prefix_some in E3 as ->. intros [= <-]. apply (effect_coverage (mk_families vars cov ret back)). }
  destruct (strip_prefix K_RETRY_WAIT_PREFIX k) as [n|] eqn:E4.
  { apply strip_prefix_some in E4 as ->. intros [= <-]. apply (effect_wait (mk_families vars cov ret back)). }
  destruct (strip_prefix K_RETRY_PREFIX k) as [n|] eqn:E5.
  { apply strip_prefix_some in E5 as ->. intros [= <-]. apply (effect_retry (mk_families vars cov ret back)). }
  intros [= <-]. by apply effect_none.
Qed.

Lemma decode_entry_ok f k v :
  (∀ n, strip_prefix K_ENC_PREFIX k = Some n → is_ok (decrypt_value crypto n v) = true) →
  ∃ f', decode_entry crypto typed f (k, v) = Ok f'.
Proof.
  intros Henc. unfold decode_entry. destruct f as [vars cov ret back].
  destruct (strip_prefix K_VAR_PREFIX k); [by eexists|].
  destruct (strip_prefix K_ENC_PREFIX k) as [n|].
  { specialize (Henc n eq_refl). destruct (decrypt_value crypto n v); [by eexists|done]. }
  repeat (case_match; try by eexists).
Qed.

(** The loop over rows with distinct keys, family by family. *)
Record families_spec (l : list (string * string)) (f f' : Families) : Prop := {
  spec_coverage p : f_coverage f' !! p =
    match map_of l !! (K_COVERAGE_PREFIX +:+ p) with
    | Some v => if positive (parse_or 0 u64_max v) then Some (parse_or 0 u64_max v) else f_coverage f !! p
    | None => f_coverage f !! p
    end;
  spec_retry n : f_retry_attempts f' !! n =
    match map_of l !! (K_RETRY_PREFIX +:+ n) with
    | Some v => if positive (parse_or 0 u32_max v) then Some (parse_or 0 u32_max v) else f_retry_attempts f !! n
    | None => f_retry_attempts f !! n
    end;
  spec_wait n : f_retry_backoff f' !! n =
    match map_of l !! (K_RETRY_WAIT_PREFIX +:+ n) with
    | Some v => if not_blank v then Some (trim v) else f_retry_backoff f !! n
    | None => f_retry_backoff f !! n
    end;
  spec_variables n :
    map_of l !! (K_VAR_PREFIX +:+ n) = None ∨ map_of l !! (K_ENC_PREFIX +:+ n) = None →
    f_variables f' !! n =
    match map_of l !! (K_VAR_PREFIX +:+ n), map_of l !! (K_ENC_PREFIX +:+ n) with
    | Some v, _ => Some (decode_value typed v)
    | None, Some v => decode_value typed <$> ok (decrypt_value crypto n v)
    | None, None => f_variables f !! n
    end
}.

Lemma lookup_map_of_cons {A} k (v : A) l key :
  k ∉ l.*1 → map_of ((k, v) :: l) !! key = if String.eqb k key then Some v else map_of l !! key.
Proof.
  intros Hk. rewrite map_of_cons, lookup_union. destruct (String.eqb_spec k key) as [<-|Hne].
  - assert (map_of l !! k = None) as ->; [|by rewrite lookup_singleton_eq]. clear v. induction l as [|[k' v'] l IH]; [done|].
    simpl in Hk. apply not_elem_of_cons in Hk as [Hne Hk]. rewrite map_of_cons, lookup_union_None. split; [by apply IH|].
    by apply lookup_singleton_ne.
  - rewrite lookup_singleton_ne by done. by destruct (map_of l !! key).
Qed.

Lemma lookup_map_of_not_in {A} k (l : list (string * A)) : k ∉ l.*1 → map_of l !! k = None.
Proof.
  intros Hk. induction l as [|[k' v'] l IH]; [done|]. simpl in Hk. apply not_elem_of_cons in Hk as [Hne Hk].
  rewrite map_of_cons, lookup_union_None. split; [by apply IH|]. by apply lookup_singleton_ne.
Qed.

Lemma eqb_prefixed p s t : String.eqb (p +:+ s) (p +:+ t) = String.eqb s t.
Proof. induction p as [|c p IH]; [done|]. simpl. by rewrite Ascii.eqb_refl. Qed.

Lemma eqb_other p k s : strip_prefix p k = None → String.eqb k (p +:+ s) = false.
Proof. intros Hk. apply String.eqb_neq. intros ->. by rewrite strip_prefix_app in Hk. Qed.

(** Whether a key of one family, or of none, is the one looked up. *)
Ltac family_eqb := repeat first [rewrite eqb_prefixed | rewrite eqb_other by done].

(** The entry looked up is this one, or it is in the rest. *)
Ltac this_entry n0 n :=
  destruct (String.eqb_spec n0 n) as [->|?]; [rewrite lookup_map_of_not_in by done|];
  case_if; rewrite ?lookup_insert_eq, ?lookup_insert_ne by done; done.

Lemma decode_entries_spec l f f' :
  decode_entries crypto typed f l = Ok f' → NoDup l.*1 → families_spec l f f'.
Proof.
  revert f. induction l as [|[k v] l IH]; intros f Hd Hnd.
  { injection Hd as <-. by split. }
  apply NoDup_cons in Hnd as [Hk Hnd]. apply result_bind_ok in Hd as (f1 & He%decode_entry_effect & Hd).
  destruct (IH f1 Hd Hnd) as [IHc IHr IHw IHv]. change (k ∉ l.*1) in Hk.
  split; intros n; rewrite !lookup_map_of_cons by done; clear IH Hd Hnd.
  - rewrite IHc. destruct He; family_eqb; cbn [f_coverage]; try done. this_entry n0 n.
  - rewrite IHr. destruct He; family_eqb; cbn [f_retry_attempts]; try done. this_entry n0 n.
  - rewrite IHw. destruct He; family_eqb; cbn [f_retry_backoff]; try done. this_entry n0 n.
  - destruct He as [n0|n0 t Ht|n0|n0|n0|k0]; family_eqb; cbn [f_variables]; try (by intros Hor; apply IHv).
    + destruct (String.eqb_spec n0 n) as [->|Hne]; intros Hor.
      * destruct Hor as [|He]; [done|]. rewrite IHv by (by right). rewrite lookup_map_of_not_in, He by done.
        cbn [f_variables]. by rewrite lookup_insert_eq.
      * rewrite IHv by done. cbn [f_variables]. by rewrite lookup_insert_ne.
    + destruct (String.eqb_spec n0 n) as [->|Hne]; intros Hor.
      * destruct Hor as [He|]; [|done]. rewrite IHv by (by left). rewrite He, Ht, lookup_map_of_not_in by done.
        cbn [f_variables]. by rewrite lookup_insert_eq.
      * rewrite IHv by done. cbn [f_variables]. by rewrite lookup_insert_ne.
Qed.

Lemma decode_entries_ok l f :
  (∀ n v, (K_ENC_PREFIX +:+ n, v) ∈ l → is_ok (decrypt_value crypto n v) = true) →
  ∃ f', decode_entries crypto typed f l = Ok f'.
Proof.
  revert f. induction l as [|[k v] l IH]; intros f Hl; [by eexists|]. cbn [decode_entries].
  destruct (decode_entry_ok f k v) as [f1 ->].
  { intros n ->%strip_prefix_some. apply Hl. by left. }
  cbn [mbind result_bind].
  apply IH. intros n v' Hin. apply Hl. by right.
Qed.
End Families.

(** ** Lemmas: the variables that are written *)

Section Partition.
Context `{BigDecimalText, JsonText, Base64} (crypto : option SnapshotCrypto) (encrypt_names : gset string) (typed : bool).

(** Whether the writer encrypts a variable. *)
Definition encrypted (n : string) : bool := is_some crypto && bool_decide (n ∈ encrypt_names).

Lemma encrypted_eq n : encrypted n = is_some crypto && bool_decide (n ∈ encrypt_names).
Proof. done. Qed.

Lemma partition_plain vars plain enc :
  partition_variables crypto encrypt_names typed vars = Ok (plain, enc) →
  plain = map (λ e, (K_VAR_PREFIX +:+ e.1, render typed e.2)) (List.filter (λ e, negb (encrypted e.1)) vars).
Proof.
  revert plain enc. induction vars as [|[n v] vars IH]; intros plain enc; [by intros [= <- _]|].
  cbn [partition_variables List.filter fst]. rewrite encrypted_eq. destruct crypto as [c|]; cbn [is_some andb].
  - case_bool_decide; cbn [negb].
    + intros (t & _ & ([p e] & Hp & [= <- _])%result_bind_ok)%result_bind_ok. by apply (IH _ e).
    + intros ([p e] & Hp & [= <- _])%result_bind_ok. simpl. f_equal. by apply (IH _ e).
  - intros ([p e] & Hp & [= <- _])%result_bind_ok. simpl. f_equal. by apply (IH _ e).
Qed.

(** The encrypted form of a variable. *)
Definition sealed (e : string * Value.SnapshotValue) (x : string * string) : Prop :=
  ∃ c t, crypto = Some c ∧ pc_encrypt (sc_cipher c) (render typed e.2) (aad c e.1) = Ok t ∧
    x = (K_ENC_PREFIX +:+ e.1, b64_encode t).

Lemma sealed_keys vars enc : Forall2 sealed vars enc → enc.*1 = String.append K_ENC_PREFIX <$> vars.*1.
Proof. induction 1 as [|e x vars enc (c & t & _ & _ & ->) _ IH]; [done|]. cbn. by f_equal. Qed.

Lemma partition_enc vars plain enc :
  partition_variables crypto encrypt_names typed vars = Ok (plain, enc) →
  Forall2 sealed (List.filter (λ e, encrypted e.1) vars) enc.
Proof.
  revert plain enc. induction vars as [|[n v] vars IH]; intros plain enc; [intros [= _ <-]; constructor|].
  cbn [partition_variables List.filter fst]. rewrite encrypted_eq. destruct crypto as [c|] eqn:Ec; cbn [is_some andb].
  - case_bool_decide.
    + intros (t & Ht & ([p e] & Hp & [= _ <-])%result_bind_ok)%result_bind_ok.
      constructor; [by exists c, t|]. by apply (IH p).
    + intros ([p e] & Hp & [= _ <-])%result_bind_ok. by apply (IH p).
  - intros ([p e] & Hp & [= _ <-])%result_bind_ok. by apply (IH p).
Qed.
End Partition.

(** ** Lemmas: what is written where *)

Lemma lookup_map_of_elem {A} (l : list (string * A)) k x : NoDup l.*1 → map_of l !! k = Some x ↔ (k, x) ∈ l.
Proof. intros Hnd. rewrite map_of_nodup by done. symmetry. by apply elem_of_list_to_map. Qed.

Section Written.
Context `{BigDecimalText, JsonText, Base64} (s : InstanceSnapshot) (crypto : option SnapshotCrypto) (encrypt_names : gset string).

Abbreviation typed := (is_typed (sn_variables s)).
Abbreviation encrypted := (encrypted crypto encrypt_names).

Context (plain enc : list (string * string)).
Hypothesis Hpart : partition_variables crypto encrypt_names typed (btree_list (sn_variables s)) = Ok (plain, enc).

Abbreviation written := (map_of (entries_of s crypto typed plain enc)).

Lemma filter_nodup (f : string * Value.SnapshotValue → bool) l : NoDup l.*1 → NoDup (List.filter f l).*1.
Proof.
  induction l as [|e l IH]; [done|]. simpl. intros [He Hl]%NoDup_cons. destruct (f e); [|by apply IH].
  simpl. constructor; [|by apply IH]. intros ([k v] & Hk & Hin)%list_elem_of_fmap. apply He. apply list_elem_of_fmap.
  exists (k, v). split; [done|]. apply list_elem_of_In. apply list_elem_of_In, filter_In in Hin. by destruct Hin.
Qed.

Lemma plain_keys : plain.*1 = String.append K_VAR_PREFIX <$> (List.filter (λ e, negb (encrypted e.1)) (btree_list (sn_variables s))).*1.
Proof using Hpart.
  rewrite (partition_plain _ _ _ _ _ _ Hpart). induction (List.filter _ _) as [|e l IH]; [done|]. cbn. by f_equal.
Qed.

Lemma enc_keys : enc.*1 = String.append K_ENC_PREFIX <$> (List.filter (λ e, encrypted e.1) (btree_list (sn_variables s))).*1.
Proof using Hpart.
  by apply (sealed_keys crypto typed), (partition_enc _ _ _ _ _ _ Hpart).
Qed.

Lemma plain_nodup : NoDup plain.*1.
Proof using Hpart.
  rewrite plain_keys. apply NoDup_fmap_2; [intros a b; apply prefix_app_inj|apply filter_nodup, btree_list_nodup].
Qed.

Lemma enc_nodup : NoDup enc.*1.
Proof using Hpart.
  rewrite enc_keys. apply NoDup_fmap_2; [intros a b; apply prefix_app_inj|apply filter_nodup, btree_list_nodup].
Qed.

Lemma elem_of_filter_vars (f : string * Value.SnapshotValue → bool) n v :
  (n, v) ∈ List.filter f (btree_list (sn_variables s)) ↔ sn_variables s !! n = Some v ∧ f (n, v) = true.
Proof. rewrite list_elem_of_In, filter_In, <-list_elem_of_In. by rewrite elem_of_btree_list. Qed.

Lemma plain_lookup n x :
  map_of plain !! (K_VAR_PREFIX +:+ n) = Some x ↔
  ∃ v, sn_variables s !! n = Some v ∧ encrypted n = false ∧ x = render typed v.
Proof using Hpart.
  rewrite lookup_map_of_elem by apply plain_nodup. rewrite (partition_plain _ _ _ _ _ _ Hpart). split.
  - intros ([m v] & [= -> ->] & [Hv Hf]%elem_of_filter_vars)%list_elem_of_fmap. exists v. by apply negb_true_iff in Hf.
  - intros (v & Hv & Hf & ->). apply list_elem_of_fmap. exists (n, v). split; [done|]. apply elem_of_filter_vars.
    simpl. by rewrite Hf.
Qed.

Lemma enc_lookup n x :
  map_of enc !! (K_ENC_PREFIX +:+ n) = Some x →
  ∃ v c t, sn_variables s !! n = Some v ∧ encrypted n = true ∧ crypto = Some c ∧
    pc_encrypt (sc_cipher c) (render typed v) (aad c n) = Ok t ∧ x = b64_encode t.
Proof using Hpart.
  rewrite lookup_map_of_elem by apply enc_nodup. intros [i Hi]%list_elem_of_lookup.
  destruct (Forall2_lookup_r _ _ _ _ _ (partition_enc _ _ _ _ _ _ Hpart) Hi) as ([m v] & Hm & c & t & Hc & Ht & [= -> ->]).
  apply list_elem_of_lookup_2, elem_of_filter_vars in Hm as [Hv Hf].
  by exists v, c, t.
Qed.

Lemma enc_present n v : sn_variables s !! n = Some v → encrypted n = true → is_Some (map_of enc !! (K_ENC_PREFIX +:+ n)).
Proof using Hpart.
  intros Hv He. destruct (map_of enc !! _) as [x|] eqn:E; [by eexists|]. exfalso.
  assert (Hin : K_ENC_PREFIX +:+ n ∈ enc.*1).
  { rewrite enc_keys. apply list_elem_of_fmap_2. apply (list_elem_of_fmap_2 fst _ (n, v)). by apply elem_of_filter_vars. }
  apply list_elem_of_fmap in Hin as ([k x] & Hk & Hin). cbn [fst] in Hk. subst k.
  apply lookup_map_of_elem in Hin; [congruence|apply enc_nodup].
Qed.

Lemma plain_other k : strip_prefix K_VAR_PREFIX k = None → map_of plain !! k = None.
Proof using Hpart.
  intros Hk. apply lookup_map_of_not_in. rewrite plain_keys. intros (n & -> & _)%list_elem_of_fmap.
  by rewrite strip_prefix_app in Hk.
Qed.

Lemma enc_other k : strip_prefix K_ENC_PREFIX k = None → map_of enc !! k = None.
Proof using Hpart.
  intros Hk. apply lookup_map_of_not_in. rewrite enc_keys. intros (n & -> & _)%list_elem_of_fmap.
  by rewrite strip_prefix_app in Hk.
Qed.

(** The head has no key of a family. *)
Lemma head_family p n : p ∈ [K_COVERAGE_PREFIX; K_RETRY_PREFIX; K_RETRY_WAIT_PREFIX; K_VAR_PREFIX; K_ENC_PREFIX] →
  map_of (head_entries s crypto typed enc) !! (p +:+ n) = None.
Proof.
  intros Hp. unfold head_entries. rewrite !lookup_map_of_app, !lookup_entry_when, !lookup_map_of_cons_last.
  repeat (apply elem_of_cons in Hp as [->|Hp]; [by destruct crypto; rewrite ?lookup_entry_when|]). by apply elem_of_nil in Hp.
Qed.

Lemma written_lookup k :
  written !! k =
  match map_of enc !! k with Some v => Some v | None =>
  match map_of plain !! k with Some v => Some v | None =>
  match map_of (prefixed K_RETRY_WAIT_PREFIX id (keep not_blank (sn_retry_backoff s))) !! k with Some v => Some v | None =>
  match map_of (prefixed K_RETRY_PREFIX dec_string (keep positive (sn_retry_attempts s))) !! k with Some v => Some v | None =>
  match map_of (prefixed K_COVERAGE_PREFIX dec_string (keep positive (sn_coverage s))) !! k with Some v => Some v | None =>
  map_of (head_entries s crypto typed enc) !! k end end end end end.
Proof.
  unfold entries_of. rewrite !lookup_map_of_app.
  repeat (match goal with |- context [match map_of ?l !! k with Some _ => _ | None => _ end] => destruct (map_of l !! k) end; try done).
Qed.

Lemma written_head k :
  (∀ p, p ∈ [K_COVERAGE_PREFIX; K_RETRY_PREFIX; K_RETRY_WAIT_PREFIX; K_VAR_PREFIX; K_ENC_PREFIX] → strip_prefix p k = None) →
  written !! k = map_of (head_entries s crypto typed enc) !! k.
Proof using Hpart.
  intros Hk. rewrite written_lookup, enc_other, plain_other, !lookup_prefixed_other; [done|..]; apply Hk; set_solver.
Qed.

(** A key of the head: decide where it is written. *)
Ltac head_key :=
  rewrite written_head; [unfold head_entries; rewrite !lookup_map_of_app, !lookup_entry_when, !lookup_map_of_cons_last;
    destruct crypto; rewrite ?lookup_entry_when;
    first [reflexivity|match goal with |- _ = if ?b then _ else _ => destruct b; reflexivity end]|];
  intros p Hp; repeat (apply elem_of_cons in Hp as [->|Hp]; [reflexivity|]); by apply elem_of_nil in Hp.

Lemma written_version : written !! K_SNAPSHOT_VERSION = Some (dec_string (version_of typed enc)).
Proof using Hpart. head_key. Qed.
Lemma written_deployment : written !! K_DEPLOYMENT_ID = Some (sn_deployment_id s).
Proof using Hpart. head_key. Qed.
Lemma written_process : written !! K_PROCESS_ID = Some (sn_process_id s).
Proof using Hpart. head_key. Qed.
Lemma written_status : written !! K_STATUS = Some (sn_status s).
Proof using Hpart. head_key. Qed.
Lemma written_completed : written !! K_COMPLETED = Some (String.concat "," (sn_completed_nodes s)).
Proof using Hpart. head_key. Qed.
Lemma written_waiting : written !! K_WAITING =
  if negb (is_nil (sn_waiting_nodes s)) then Some (String.concat "," (sn_waiting_nodes s)) else None.
Proof using Hpart. head_key. Qed.
Lemma written_start : written !! K_START_NODE =
  if negb (str_is_empty (sn_start_node s)) then Some (sn_start_node s) else None.
Proof using Hpart. head_key. Qed.
Lemma written_audit : written !! K_AUDIT_SEQ =
  if positive (sn_audit_seq s) then Some (dec_string (sn_audit_seq s)) else None.
Proof using Hpart. head_key. Qed.
Lemma written_sensitive : written !! K_SENSITIVE =
  if negb (is_nil (sn_sensitive s)) then Some (String.concat "," (sn_sensitive s)) else None.
Proof using Hpart. head_key. Qed.
Lemma written_failure_code : written !! K_FAILURE_CODE =
  if negb (str_is_empty (sn_failure_code s)) then Some (sn_failure_code s) else None.
Proof using Hpart. head_key. Qed.
Lemma written_failure_detail : written !! K_FAILURE_DETAIL =
  if negb (str_is_empty (sn_failure_detail s)) then Some (sn_failure_detail s) else None.
Proof using Hpart. head_key. Qed.
Lemma written_key_id : written !! K_KEY_ID =
  match crypto with Some c => if negb (is_nil enc) then Some (sc_key_id c) else None | None => None end.
Proof using Hpart. head_key. Qed.

Ltac family_key := rewrite written_lookup; rewrite ?enc_other, ?plain_other by done;
  rewrite ?lookup_prefixed; rewrite ?lookup_prefixed_other by done; rewrite head_family by set_solver.

Lemma written_coverage p : written !! (K_COVERAGE_PREFIX +:+ p) = dec_string <$> keep positive (sn_coverage s) !! p.
Proof using Hpart. family_key. by destruct (keep positive (sn_coverage s) !! p). Qed.
Lemma written_retry n : written !! (K_RETRY_PREFIX +:+ n) = dec_string <$> keep positive (sn_retry_attempts s) !! n.
Proof using Hpart. family_key. by destruct (keep positive (sn_retry_attempts s) !! n). Qed.
Lemma written_wait n : written !! (K_RETRY_WAIT_PREFIX +:+ n) = keep not_blank (sn_retry_backoff s) !! n.
Proof using Hpart. family_key. by destruct (keep not_blank (sn_retry_backoff s) !! n). Qed.
Lemma written_var n : written !! (K_VAR_PREFIX +:+ n) = map_of plain !! (K_VAR_PREFIX +:+ n).
Proof using Hpart. family_key. by destruct (map_of plain !! (K_VAR_PREFIX +:+ n)). Qed.
Lemma written_enc n : written !! (K_ENC_PREFIX +:+ n) = map_of enc !! (K_ENC_PREFIX +:+ n).
Proof using Hpart. family_key. by destruct (map_of enc !! (K_ENC_PREFIX +:+ n)). Qed.
End Written.

(** ** The round trip *)

Section RoundTrip.
Context {bt : BigDecimalText} {jt : JsonText} {b64 : Base64}.
Context {Hbd : BigDecimalTextLaws bt} {Hjs : JsonTextLaws jt} {Hb64 : Base64Laws b64}.

(** What the codec carries: node ids and names the joined lists can hold, counters in
    their type's range, values the tagged form can hold. *)
Record canonical (s : InstanceSnapshot) : Prop := {
  can_completed : Forall (λ id, list_id id = true) (sn_completed_nodes s);
  can_waiting : Forall (λ id, list_id id = true) (sn_waiting_nodes s);
  can_sensitive : Forall (λ id, list_id id = true) (sn_sensitive s);
  can_sorted : names_sorted (sn_sensitive s);
  can_audit : 0 <= sn_audit_seq s <= u32_max;
  can_coverage p n : sn_coverage s !! p = Some n → 0 < n <= u64_max;
  can_retry id n : sn_retry_attempts s !! id = Some n → 0 < n <= u32_max;
  can_backoff id c : sn_retry_backoff s !! id = Some c → trim c = c ∧ c ≠ "";
  can_values n v : sn_variables s !! n = Some v → storable v = true ∧ (json_depth (Value.to_json v) <= 127)%nat
}.

Lemma keep_all {A} (f : A → bool) (m : gmap string A) : (∀ k x, m !! k = Some x → f x = true) → keep f m = m.
Proof. intros Hf. unfold keep. apply map_filter_id. intros k x Hk. by apply (Hf k). Qed.

Lemma parse_or_dec d max n : 0 <= n <= max → parse_or d max (dec_string n) = n.
Proof.
  intros Hn. unfold parse_or. rewrite digits_no_space by (apply (dec_string_numeral n); lia).
  by rewrite parse_unsigned_dec_string.
Qed.

Lemma positive_true n : positive n = true ↔ 0 < n.
Proof. apply Z.ltb_lt. Qed.

Lemma is_typed_false vars n v : is_typed vars = false → vars !! n = Some v → ∃ t, v = Value.String t.
Proof.
  unfold is_typed. intros Ht Hv. destruct v as [| | |t| | | | | |]; try by exists t.
  all: exfalso; apply not_true_iff_false in Ht; apply Ht; apply existsb_exists; eexists; split;
    [apply list_elem_of_In; by apply elem_of_btree_list|done].
Qed.

Lemma render_decode vars n v :
  vars !! n = Some v → storable v = true → (json_depth (Value.to_json v) <= 127)%nat →
  decode_value (is_typed vars) (render (is_typed vars) v) = v.
Proof using Hbd Hjs.
  intros Hv Hs Hd. unfold decode_value, render. destruct (is_typed vars) eqn:E; [by apply decode_encode|].
  by destruct (is_typed_false vars n v E Hv) as [t ->].
Qed.

Section Snapshot.
Context (s : InstanceSnapshot) (crypto : option SnapshotCrypto) (encrypt_names : gset string).
Context (plain enc : list (string * string)).
Abbreviation typed := (is_typed (sn_variables s)).
Abbreviation written := (map_of (entries_of s crypto typed plain enc)).
Hypothesis Hpart : partition_variables crypto encrypt_names typed (btree_list (sn_variables s)) = Ok (plain, enc).
Hypothesis Hcan : canonical s.
Hypothesis Hcipher : ∀ c, crypto = Some c → CipherLaws (sc_cipher c).
Hypothesis Hutf8 : ∀ n v, sn_variables s !! n = Some v → utf8_valid (render typed v) = true.

Lemma written_typed : raw_is_typed written = typed.
Proof using Hpart.
  unfold raw_is_typed. rewrite (written_version _ _ _ _ _ Hpart). unfold version_of.
  generalize typed as b, enc as e. by intros [] [].
Qed.

Lemma decrypt_written n x :
  map_of enc !! (K_ENC_PREFIX +:+ n) = Some x →
  ∃ v, sn_variables s !! n = Some v ∧ decrypt_value crypto n x = Ok (render typed v).
Proof using Hpart Hcipher Hutf8 Hb64.
  intros (v & c & t & Hv & _ & Hc & Ht & ->)%(enc_lookup _ _ _ _ _ Hpart). exists v. split; [done|].
  unfold decrypt_value. rewrite Hc. simpl. rewrite b64_round_trip. simpl.
  destruct (Hcipher c Hc) as [Hdec]. rewrite (Hdec _ _ _ Ht). simpl. by rewrite (Hutf8 n v Hv).
Qed.

Lemma decoded_variables f n :
  families_spec crypto typed (btree_list written) (mk_families ∅ ∅ ∅ ∅) f → f_variables f !! n = sn_variables s !! n.
Proof using Hpart Hcan Hcipher Hutf8 Hbd Hjs Hb64.
  intros Hf. pose proof (spec_variables _ _ _ _ _ Hf n) as Hs. rewrite map_of_btree_list in Hs.
  rewrite (written_var _ _ _ _ _ Hpart), (written_enc _ _ _ _ _ Hpart) in Hs.
  destruct (map_of plain !! (K_VAR_PREFIX +:+ n)) as [x|] eqn:Ep.
  - apply (plain_lookup _ _ _ _ _ Hpart) in Ep as (v & Hv & He & ->).
    destruct (can_values s Hcan n v Hv) as [Hst Hd]. rewrite Hs, Hv, (render_decode _ n v Hv Hst Hd); [done|].
    right. destruct (map_of enc !! _) as [x|] eqn:Ee; [|done].
    apply (enc_lookup _ _ _ _ _ Hpart) in Ee as (? & ? & ? & _ & He' & _). congruence.
  - rewrite Hs by by left. destruct (map_of enc !! _) as [x|] eqn:Ee.
    + destruct (decrypt_written n x Ee) as (v & Hv & ->). destruct (can_values s Hcan n v Hv) as [Hst Hd].
      simpl. by rewrite Hv, (render_decode _ n v Hv Hst Hd).
    + simpl. rewrite lookup_empty. destruct (sn_variables s !! n) as [v|] eqn:Hv; [|done]. exfalso.
      destruct (encrypted crypto encrypt_names n) eqn:He.
      * destruct (enc_present _ _ _ _ _ Hpart n v Hv He) as [x Hx]. congruence.
      * assert (map_of plain !! (K_VAR_PREFIX +:+ n) = Some (render typed v)) as Hp; [|congruence].
        apply (plain_lookup _ _ _ _ _ Hpart). eauto.
Qed.

Lemma decoded_counters f :
  families_spec crypto typed (btree_list written) (mk_families ∅ ∅ ∅ ∅) f →
  f_coverage f = sn_coverage s ∧ f_retry_attempts f = sn_retry_attempts s ∧ f_retry_backoff f = sn_retry_backoff s.
Proof using Hpart Hcan.
  intros Hf. split; [|split]; apply map_eq; intros n.
  - rewrite (spec_coverage _ _ _ _ _ Hf), map_of_btree_list, (written_coverage _ _ _ _ _ Hpart), keep_all
      by (intros k x Hx; apply positive_true, (can_coverage s Hcan k x Hx)).
    destruct (sn_coverage s !! n) as [x|] eqn:E; simpl; [|done]. apply (can_coverage s Hcan) in E.
    rewrite parse_or_dec by lia. rewrite (proj2 (positive_true x)) by lia. done.
  - rewrite (spec_retry _ _ _ _ _ Hf), map_of_btree_list, (written_retry _ _ _ _ _ Hpart), keep_all
      by (intros k x Hx; apply positive_true, (can_retry s Hcan k x Hx)).
    destruct (sn_retry_attempts s !! n) as [x|] eqn:E; simpl; [|done]. apply (can_retry s Hcan) in E.
    rewrite parse_or_dec by lia. rewrite (proj2 (positive_true x)) by lia. done.
  - assert (Hb : ∀ k x, sn_retry_backoff s !! k = Some x → not_blank x = true).
    { intros k x [Ht Hne]%(can_backoff s Hcan). unfold not_blank. rewrite Ht. by destruct x. }
    rewrite (spec_wait _ _ _ _ _ Hf), map_of_btree_list, (written_wait _ _ _ _ _ Hpart), keep_all by done.
    destruct (sn_retry_backoff s !! n) as [x|] eqn:E; [|done]. rewrite (Hb n x E).
    apply (can_backoff s Hcan) in E as [-> _]. done.
Qed.

Lemma from_raw_written : from_raw written crypto = Ok s.
Proof using Hpart Hcan Hcipher Hutf8 Hbd Hjs Hb64.
  unfold from_raw. rewrite written_typed.
  destruct (decode_entries_ok crypto typed (btree_list written) (mk_families ∅ ∅ ∅ ∅)) as [f Hf].
  { intros n x Hx%elem_of_btree_list. rewrite (written_enc _ _ _ _ _ Hpart) in Hx.
    by destruct (decrypt_written n x Hx) as (v & _ & ->). }
  rewrite Hf. cbn [mbind result_bind]. apply decode_entries_spec in Hf; [|apply btree_list_nodup].
  assert (f_variables f = sn_variables s) as -> by (apply map_eq; intros n; by apply decoded_variables).
  destruct (decoded_counters f Hf) as (-> & -> & ->).
  unfold get. rewrite (written_deployment _ _ _ _ _ Hpart), (written_process _ _ _ _ _ Hpart), (written_status _ _ _ _ _ Hpart),
    (written_completed _ _ _ _ _ Hpart), (written_waiting _ _ _ _ _ Hpart), (written_start _ _ _ _ _ Hpart),
    (written_audit _ _ _ _ _ Hpart), (written_sensitive _ _ _ _ _ Hpart), (written_failure_code _ _ _ _ _ Hpart),
    (written_failure_detail _ _ _ _ _ Hpart).
  assert (Hopt : ∀ x : string, default "" (if negb (str_is_empty x) then Some x else None) = x) by (by intros []).
  assert (Hlist : ∀ l, Forall (λ id, list_id id = true) l →
    split_list (default "" (if negb (is_nil l) then Some (String.concat "," l) else None)) = l).
  { intros [|id l] Hl; [done|]. cbn [is_nil negb default from_option Datatypes.id]. by apply split_list_concat. }
  rewrite !Hopt, !Hlist by (apply Hcan). cbn [default from_option Datatypes.id].
  rewrite split_list_concat, sort_texts_sorted, dedup_sorted by apply Hcan.
  assert (parse_or 0 u32_max (default "" (if positive (sn_audit_seq s) then Some (dec_string (sn_audit_seq s)) else None))
          = sn_audit_seq s) as ->.
  { pose proof (can_audit s Hcan). unfold positive. case_if; cbn [default from_option Datatypes.id]; [by apply parse_or_dec|].
    change (0 = sn_audit_seq s). lia. }
  by destruct s.
Qed.
End Snapshot.
End RoundTrip.

(** ** Properties *)

Lemma write_encrypted_ok `{BigDecimalText, JsonText, Base64} s crypto names bytes :
  write_encrypted s crypto names = Ok bytes →
  ∃ plain enc,
    partition_variables crypto names (is_typed (sn_variables s)) (btree_list (sn_variables s)) = Ok (plain, enc) ∧
    write_entries s crypto names = Ok (entries_of s crypto (is_typed (sn_variables s)) plain enc) ∧
    @pack CipherError (entries_of s crypto (is_typed (sn_variables s)) plain enc) = Ok bytes.
Proof.
  unfold write_encrypted, write_entries. intros (entries & He & Hp)%result_bind_ok.
  destruct (partition_variables _ _ _ _) as [[plain enc]|e] eqn:E; [|done]. injection He as <-. by exists plain, enc.
Qed.

(** The texts of the entries are Rust strings. *)
Definition snapshot_texts `{BigDecimalText, JsonText, Base64} (s : InstanceSnapshot) (crypto : option SnapshotCrypto)
    (names : gset string) : Prop :=
  (∀ entries, write_entries s crypto names = Ok entries → Container.texts entries) ∧
  (∀ n v, sn_variables s !! n = Some v → utf8_valid (render (is_typed (sn_variables s)) v) = true).

Lemma read_write_encrypted {bt : BigDecimalText} {jt : JsonText} {b64 : Base64} s crypto names bytes :
  BigDecimalTextLaws bt → JsonTextLaws jt → Base64Laws b64 →
  (∀ c, crypto = Some c → CipherLaws (sc_cipher c)) → canonical s → snapshot_texts s crypto names →
  write_encrypted s crypto names = Ok bytes → read_encrypted bytes crypto = Ok s.
Proof.
  intros Hb Hj H64 Hc Hcan [Ht Hu] (plain & enc & Hpart & He & Hp)%write_encrypted_ok.
  unfold read_encrypted. rewrite (raw_map_pack _ _ Hp (Ht _ He)). cbn [map_err mbind result_bind].
  by apply (from_raw_written s crypto names plain enc).
Qed.

(** C4: an instance snapshot is read back as it was written: the wait frontier, the
    completed set, every variable with its type whether stored in the clear or
    encrypted under the instance's key, the sensitive names, the coverage and retry
    counters, the backoff markers and the failure, for each of the three generations
    the writer chooses from. *)
Theorem snapshot_round_trip (bt : BigDecimalText) (jt : JsonText) (b64 : Base64)
    (s : InstanceSnapshot) (crypto : option SnapshotCrypto) (names : gset string) (bytes : string) :
  BigDecimalTextLaws bt → JsonTextLaws jt → Base64Laws b64 →
  (∀ c, crypto = Some c → CipherLaws (sc_cipher c)) → canonical s → snapshot_texts s crypto names →
  write_encrypted s crypto names = Ok bytes → read_encrypted bytes crypto = Ok s.
Proof. apply read_write_encrypted. Qed.

(** Primitives and an encoding with the laws, for evaluation. *)
Definition plain_primitives : Primitives := {|
  aes_seal key nonce msg aad := Ok (aad +:+ msg);
  aes_open key nonce body aad := ok_or "authentication failed" (strip_prefix aad body);
  hkdf_expand ikm info := Ok (ikm +:+ info); hmac_sha256 key msg := key +:+ msg |}
  .
#[export] Instance plain_primitives_laws : PrimitiveLaws plain_primitives.
Proof. split. intros key nonce msg aad c [= <-]. simpl. by rewrite strip_prefix_app. Qed.

Definition plain_base64 : Base64 := {| b64_encode s := s; b64_decode := Some |}.
#[export] Instance plain_base64_laws : Base64Laws plain_base64.
Proof. by split. Qed.

Definition twelve_bytes (aad : string) : string := "nonce-123456".

Definition plain_crypto (instance_id : string) : SnapshotCrypto :=
  mk_crypto (@Aes256GcmCipher plain_primitives (mk_data_key "tenant" "key") twelve_bytes) "tenant" instance_id.

Definition parked_example : InstanceSnapshot :=
  with_retry_attempts {["charge" := 2]}
    (with_coverage {["happy" := 3; "sad" := 0]}
      (with_sensitive ["ssn"; "amount"; "ssn"]
        (with_variables {["amount" := Value.Number (mk_decimal 10000 2); "ssn" := Value.String "a|b"]}
          (of_suspended "orders" "dep-1" ["start"; "charge"] ∅ ["approve"] "" 7)))).

(** *** Deciding the conditions on a concrete snapshot *)

Definition map_all {A} (f : A → bool) (m : gmap string A) : bool := forallb (λ e, f e.2) (btree_list m).

Lemma map_all_true {A} (f : A → bool) (m : gmap string A) k x : map_all f m = true → m !! k = Some x → f x = true.
Proof.
  unfold map_all. rewrite forallb_forall. intros Hf Hk%elem_of_btree_list. apply (Hf (k, x)). by apply list_elem_of_In.
Qed.

Lemma keys_sorted_strongly l : keys_sorted l = true → names_sorted l.
Proof.
  unfold names_sorted. induction l as [|x l IH]; [constructor|]. simpl. intros [Hx Hl]%andb_true_iff. constructor; [by apply IH|].
  apply Forall_forallb in Hx. eapply Forall_impl; [exact Hx|]. intros y. by rewrite bool_decide_eq_true.
Qed.

Definition counter_ok (max n : Z) : bool := (0 <? n) && (n <=? max).
Definition code_ok (c : string) : bool := String.eqb (trim c) c && negb (str_is_empty c).
Definition value_ok `{BigDecimalText} (v : Value.SnapshotValue) : bool := storable v && (json_depth (Value.to_json v) <=? 127)%nat.

Definition canonicalb `{BigDecimalText} (s : InstanceSnapshot) : bool :=
  forallb list_id (sn_completed_nodes s) && forallb list_id (sn_waiting_nodes s) && forallb list_id (sn_sensitive s)
  && keys_sorted (sn_sensitive s) && (0 <=? sn_audit_seq s) && (sn_audit_seq s <=? u32_max)
  && map_all (counter_ok u64_max) (sn_coverage s) && map_all (counter_ok u32_max) (sn_retry_attempts s)
  && map_all code_ok (sn_retry_backoff s) && map_all value_ok (sn_variables s).

Lemma canonicalb_true `{BigDecimalText} s : canonicalb s = true → canonical s.
Proof.
  unfold canonicalb. intros H'. repeat (apply andb_true_iff in H' as [H' ?]).
  split; try (by apply Forall_forallb); try (by apply keys_sorted_strongly); try lia.
  - intros p n Hp. assert (counter_ok u64_max n = true) as Hc by (by eapply map_all_true). unfold counter_ok in Hc. lia.
  - intros p n Hp. assert (counter_ok u32_max n = true) as Hc by (by eapply map_all_true). unfold counter_ok in Hc. lia.
  - intros p c Hp. assert (code_ok c = true) as Hc by (by eapply map_all_true). unfold code_ok in Hc.
    apply andb_true_iff in Hc as [Ht%String.eqb_eq Hne]. split; [done|]. by intros ->.
  - intros n v Hv. assert (value_ok v = true) as Hc by (by eapply map_all_true). unfold value_ok in Hc.
    apply andb_true_iff in Hc as [Hs Hd%Nat.leb_le]. done.
Qed.

Definition textsb (entries : list (string * string)) : bool := forallb (λ e, utf8_valid e.1 && utf8_valid e.2) entries.

Lemma textsb_true entries : textsb entries = true → Container.texts entries.
Proof.
  intros H'%Forall_forallb. eapply Forall_impl; [exact H'|]. intros e. by rewrite andb_true_iff.
Qed.

Definition snapshot_textsb `{BigDecimalText, JsonText, Base64} (s : InstanceSnapshot) (crypto : option SnapshotCrypto)
    (names : gset string) : bool :=
  match write_entries s crypto names with Ok entries => textsb entries | Err _ => true end
  && map_all (λ v, utf8_valid (render (is_typed (sn_variables s)) v)) (sn_variables s).

Lemma snapshot_textsb_true `{BigDecimalText, JsonText, Base64} s crypto names :
  snapshot_textsb s crypto names = true → snapshot_texts s crypto names.
Proof.
  unfold snapshot_textsb. intros [He Hv]%andb_true_iff. split.
  - intros entries E. rewrite E in He. by apply textsb_true.
  - intros n v Hn. exact (map_all_true _ _ n v Hv Hn).
Qed.

Lemma snapshot_round_trip_witness :
  let crypto := Some (plain_crypto "i-1") in
  ∃ bytes, @write_encrypted plain_decimal_text numeral_json_text plain_base64 parked_example crypto {["ssn"]} = Ok bytes ∧
    @read_encrypted plain_decimal_text numeral_json_text plain_base64 bytes crypto = Ok parked_example.
Proof.
  intros crypto.
  destruct (@write_encrypted plain_decimal_text numeral_json_text plain_base64 parked_example crypto {["ssn"]}) as [bytes|e] eqn:E;
    [|vm_compute in E; discriminate E].
  exists bytes. split; [reflexivity|].
  apply (snapshot_round_trip plain_decimal_text numeral_json_text plain_base64 parked_example crypto {["ssn"]} bytes); try apply _.
  - intros c [= <-]. apply aes_cipher_laws. intros aad. reflexivity.
  - apply canonicalb_true. vm_compute. reflexivity.
  - apply snapshot_textsb_true. vm_compute. reflexivity.
  - exact E.
Defined.
