(* ===== verification/SnapshotPatch.v ===== *)
(** * Patches of a stored snapshot ([sutra-persistence/src/snapshot.rs]:
    [mark_failed], [resume_from_failed], [migrate_pinned])

    The engine re-stamps an instance without decoding its variables, so a patch must
    change exactly the keys it names.  The theorems: what [raw_map] accepts is a map
    of well-formed texts, whatever the container; marking an instance failed is
    [with_failure] on the decoded snapshot, encrypted variables included; clearing the
    failure gives the stored bytes back; and a migration without colliding retry
    counters moves every locus through the node mapping and nothing else. *)
From Stdlib Require Import ZArith Lia Bool Ascii String.
From stdpp Require Import base sorting option gmap strings list.
From S2P Require Import Prelude Texts Decimal FeelValue Temporal FeelText TemporalParse Container Crypto SnapshotValue Snapshot.

Open Scope string_scope.
Open Scope list_scope.
Open Scope Z_scope.

(** ** What the readers accept are texts *)

Lemma between_byte lo hi b : is_byte b → between lo hi (byte b) = (lo <=? b) && (b <=? hi).
Proof. intros Hb. unfold between. by rewrite byte_Z. Qed.

Lemma utf8_encode_char c s : scalar c → utf8_valid (of_bytes (encode_char c) +:+ s) = utf8_valid s.
Proof.
  intros Hc. pose proof (encode_char_bytes c Hc) as Hb. apply scalar_range in Hc. unfold encode_char in *. char_arith c.
  repeat case_if; simpl in *; repeat match goal with Hf : Forall _ (_ :: _) |- _ => apply Forall_cons in Hf as [? Hf] end;
    cbn [utf8_valid]; rewrite ?between_byte, ?byte_Z by done;
    repeat match goal with
    | |- context [?a =? ?b] => destruct (Z.eqb_spec a b); cbn [andb]; try lia
    | |- context [?a <=? ?b] => destruct (Z.leb_spec a b); cbn [andb]; try lia
    end; done.
Qed.

Lemma of_bytes_app a b : of_bytes (a ++ b) = of_bytes a +:+ of_bytes b.
Proof. induction a as [|x a IH]; [done|]. simpl. by rewrite IH. Qed.

Lemma utf8_encode cs : Forall scalar cs → utf8_valid (encode cs) = true.
Proof.
  unfold encode. induction 1 as [|c cs Hc _ IH]; [done|]. simpl. by rewrite of_bytes_app, utf8_encode_char.
Qed.

Lemma utf8_app a b : utf8_valid a = true → utf8_valid (a +:+ b) = utf8_valid b.
Proof.
  remember (String.length a) as n eqn:Hn. revert a Hn. induction (lt_wf n) as [n _ IH]. intros a ->.
  assert (IH' : ∀ r, (String.length r < String.length a)%nat → utf8_valid r = true → utf8_valid (r +:+ b) = utf8_valid b)
    by (intros r Hr; exact (IH _ Hr r eq_refl)). clear IH.
  destruct a as [|x r]; [done|]. cbn [utf8_valid append String.length] in *. case_if; [intros; apply IH'; [lia|done]|].
  destruct r as [|y r]; [done|]. cbn [append String.length] in *.
  case_if; [intros [-> ?]%andb_true_iff; intros; apply IH'; [lia|done]|].
  destruct r as [|z r]; [done|]. cbn [append String.length] in *.
  case_if; [intros [[-> ->]%andb_true_iff ?]%andb_true_iff; intros; apply IH'; [lia|done]|].
  destruct r as [|w r]; [done|]. cbn [append String.length] in *.
  intros [[[[-> ->]%andb_true_iff ->]%andb_true_iff ->]%andb_true_iff ?]%andb_true_iff. intros; apply IH'; [lia|done].
Qed.

Lemma utf8_concat ids : Forall (λ id, utf8_valid id = true) ids → utf8_valid (String.concat "," ids) = true.
Proof.
  induction 1 as [|id ids Hid Hids IH]; [done|]. simpl. destruct ids as [|id' ids]; [done|].
  rewrite utf8_app by done. done.
Qed.

Lemma utf8_digits s : string_all is_ascii_digit s = true → utf8_valid s = true.
Proof.
  induction s as [|c s IH]; [done|]. cbn [string_all utf8_valid]. intros [Hc Hs]%andb_true_iff.
  assert (between 0 127 c = true) as ->; [|by apply IH].
  unfold between. unfold is_ascii_digit in Hc. lia.
Qed.

Lemma from_utf16_scalars us cs :
  Forall (λ u, 0 <= u < 65536) us → Props.from_utf16 us = Some cs → Forall scalar cs.
Proof.
  intros Hu. revert cs. remember (length us) as n eqn:Hn. revert us Hn Hu.
  induction (lt_wf n) as [n _ IH]. intros [|u us] -> Hu cs; [by intros [= <-]|]. cbn [Props.from_utf16].
  apply Forall_cons in Hu as [Hu Hus]. destruct (is_surrogate u) eqn:Es; cbn [negb].
  - destruct us as [|l us]; [done|]. apply Forall_cons in Hus as [Hl Hus]. case_if; [|done].
    destruct (Props.from_utf16 us) as [cs'|] eqn:E; [|done]. intros [= <-]. constructor.
    + unfold scalar, is_scalar. unfold is_surrogate in *. lia.
    + by apply (IH (length us) ltac:(simpl; lia) us).
  - destruct (Props.from_utf16 us) as [cs'|] eqn:E; [|done]. intros [= <-]. constructor.
    + unfold scalar, is_scalar. rewrite Es. lia.
    + by apply (IH (length us) ltac:(simpl; lia) us).
Qed.

Lemma to_digit16_range c d : Props.to_digit16 c = Some d → 0 <= d < 16.
Proof. unfold Props.to_digit16, between. repeat case_if; intros [= <-]; lia. Qed.

Lemma units_range cs us : Props.units cs = Ok us → Forall (λ u, 0 <= u < 65536) us.
Proof.
  remember (length cs) as n eqn:Hn. revert cs us Hn. induction (lt_wf n) as [n _ IH]. intros [|c cs] us ->; [by intros [= <-]|].
  pose proof (ascii_Z_range c). cbn [Props.units]. destruct (Ascii.eqb c Props.backslash); cbn [negb].
  - destruct cs as [|e cs]; [by intros [= <-]|]. pose proof (ascii_Z_range e). destruct (Ascii.eqb e "u").
    + destruct cs as [|h1 [|h2 [|h3 [|h4 cs]]]]; try done.
      destruct (Props.to_digit16 h1) as [d1|] eqn:E1, (Props.to_digit16 h2) as [d2|] eqn:E2,
        (Props.to_digit16 h3) as [d3|] eqn:E3, (Props.to_digit16 h4) as [d4|] eqn:E4; try done.
      apply to_digit16_range in E1, E2, E3, E4.
      intros (us' & Hus & [= <-])%result_bind_ok. constructor; [lia|]. by apply (IH (length cs) ltac:(simpl; lia) cs).
    + intros (us' & Hus & [= <-])%result_bind_ok. constructor; [repeat case_if; lia|].
      by apply (IH (length cs) ltac:(simpl; lia) cs).
  - intros (us' & Hus & [= <-])%result_bind_ok. constructor; [lia|]. by apply (IH (length cs) ltac:(simpl; lia) cs).
Qed.

Lemma load_convert_text cs s : Props.load_convert cs = Ok s → utf8_valid s = true.
Proof.
  unfold Props.load_convert. intros (us & Hu%units_range & Hs)%result_bind_ok.
  destruct (Props.from_utf16 us) as [scs|] eqn:E; [|done]. injection Hs as <-.
  by apply utf8_encode, (from_utf16_scalars us).
Qed.

Lemma pair_of_text line p : Props.pair_of line = Ok p → utf8_valid p.1 = true ∧ utf8_valid p.2 = true.
Proof.
  unfold Props.pair_of. destruct (Props.split_key line) as [k rest].
  intros (k' & Hk & (v' & Hv & [= <-])%result_bind_ok)%result_bind_ok. split; [exact (load_convert_text _ _ Hk)|exact (load_convert_text _ _ Hv)].
Qed.

Lemma read_logical_texts lines pending ps : Props.read_logical pending lines = Ok ps → Container.texts ps.
Proof.
  revert pending ps. unfold Container.texts. induction lines as [|next lines IH]; intros pending ps; cbn [Props.read_logical].
  { destruct pending as [line|]; [|by intros [= <-]]. intros (p & Hp%pair_of_text & [= <-])%result_bind_ok. by constructor. }
  assert (Hline : ∀ line, (if Props.ends_with_odd_backslashes line then Props.read_logical (Some (removelast line)) lines
    else p ← Props.pair_of line; ps ← Props.read_logical None lines; Ok (p :: ps)) = Ok ps →
    Forall (λ e, utf8_valid e.1 = true ∧ utf8_valid e.2 = true) ps).
  { intros line. case_match; [by apply IH|].
    intros (p & Hp%pair_of_text & (qs & Hq & [= <-])%result_bind_ok)%result_bind_ok. constructor; [done|by eapply IH]. }
  destruct pending as [line|]; [apply Hline|]. destruct (Props.drop_ws next) as [|c r]; [apply IH|].
  destruct (Ascii.eqb c "#" || Ascii.eqb c "!"); [apply IH|apply Hline].
Qed.

(** Whatever the container, the map read from stored bytes holds well-formed text. *)
Lemma raw_map_text bytes m : raw_map bytes = Ok m → text_map m.
Proof.
  unfold raw_map. intros (pairs & Hp & [= <-])%result_bind_ok. apply text_map_rows, Container.texts_map_of.
  destruct (Container.is_binary bytes).
  - destruct (Container.decode bytes) as [rows|] eqn:E; [|done]. injection Hp as <-. by apply Container.decode_inv in E as [? _].
  - destruct (Props.read_lines bytes) as [rows|] eqn:E; [|done]. injection Hp as <-. by apply read_logical_texts in E.
Qed.

(** ** The families a patch leaves alone *)

Definition FAMILIES : list string :=
  [K_VAR_PREFIX; K_ENC_PREFIX; K_COVERAGE_PREFIX; K_RETRY_WAIT_PREFIX; K_RETRY_PREFIX].

Definition in_family (k : string) : bool := existsb (λ p, is_some (strip_prefix p k)) FAMILIES.

Section Agree.
Context `{BigDecimalText, JsonText, Base64} (crypto : option SnapshotCrypto) (typed : bool).

Lemma decode_entry_head f k v : in_family k = false → decode_entry crypto typed f (k, v) = Ok f.
Proof.
  unfold in_family, FAMILIES, decode_entry. cbn [existsb]. destruct f as [vars cov ret back].
  destruct (strip_prefix K_VAR_PREFIX k), (strip_prefix K_ENC_PREFIX k), (strip_prefix K_COVERAGE_PREFIX k),
    (strip_prefix K_RETRY_WAIT_PREFIX k), (strip_prefix K_RETRY_PREFIX k); done.
Qed.

Lemma decode_entries_family f l :
  decode_entries crypto typed f l = decode_entries crypto typed f (List.filter (λ e, in_family e.1) l).
Proof.
  revert f. induction l as [|[k v] l IH]; intros f; [done|]. cbn [List.filter fst]. destruct (in_family k) eqn:E.
  - cbn [decode_entries]. destruct (decode_entry crypto typed f (k, v)); [apply IH|done].
  - cbn [decode_entries]. rewrite decode_entry_head by done. apply IH.
Qed.

Lemma filter_rows_sorted {A} (f : string * A → bool) l : StronglySorted key_lt l → StronglySorted key_lt (List.filter f l).
Proof.
  induction 1 as [|e l Hl IH He]; [constructor|]. simpl. destruct (f e); [|done]. constructor; [done|].
  apply Forall_forall. intros x Hx. rewrite Forall_forall in He. apply He.
  apply list_elem_of_In. apply list_elem_of_In, filter_In in Hx. by destruct Hx.
Qed.

Lemma sorted_rows_nodup {A} (l : list (string * A)) : StronglySorted key_lt l → NoDup l.
Proof.
  induction 1 as [|e l Hl IH He]; [constructor|]. constructor; [|done]. intros Hin.
  rewrite Forall_forall in He. specialize (He e Hin). unfold key_lt in He. by rewrite string_compare_refl in He.
Qed.

(** Two maps that agree on the families are read alike. *)
Lemma decode_entries_agree f (m m' : RawSnapshot) :
  (∀ k, in_family k = true → m !! k = m' !! k) →
  decode_entries crypto typed f (btree_list m) = decode_entries crypto typed f (btree_list m').
Proof.
  intros Hm. rewrite (decode_entries_family f (btree_list m)), (decode_entries_family f (btree_list m')). f_equal.
  assert (Hs : ∀ m : RawSnapshot, StronglySorted key_lt (List.filter (λ e, in_family e.1) (btree_list m)))
    by (intros; apply filter_rows_sorted, btree_list_sorted).
  apply sorted_rows_unique; [done..|]. apply NoDup_Permutation; [by apply sorted_rows_nodup..|].
  intros [k v]. rewrite !list_elem_of_In, !filter_In, <-!list_elem_of_In, !elem_of_btree_list. simpl.
  split; intros [Hk Hf]; (split; [|done]); by rewrite ?Hm, <-?Hm in * by done.
Qed.
End Agree.

(** ** Marking an instance failed *)

Lemma lookup_set_or_remove key value (m : RawSnapshot) k :
  set_or_remove key value m !! k =
  if String.eqb key k then (if str_is_empty value then None else Some value) else m !! k.
Proof.
  unfold set_or_remove. destruct (String.eqb_spec key k) as [->|Hne], (str_is_empty value);
    rewrite ?lookup_delete_eq, ?lookup_insert_eq, ?lookup_delete_ne, ?lookup_insert_ne by done; done.
Qed.

Lemma lookup_fail_map code detail (m : RawSnapshot) k :
  fail_map code detail m !! k =
  if String.eqb K_FAILURE_DETAIL k then (if str_is_empty detail then None else Some detail)
  else if String.eqb K_FAILURE_CODE k then (if str_is_empty code then None else Some code)
  else if String.eqb K_STATUS k then Some STATUS_FAILED
  else m !! k.
Proof.
  unfold fail_map. rewrite !lookup_set_or_remove. repeat case_match; try done.
  - apply String.eqb_eq in H1 as <-. by rewrite lookup_insert_eq.
  - apply String.eqb_neq in H1. by rewrite lookup_insert_ne.
Qed.

Lemma fail_map_family code detail m k : in_family k = true → fail_map code detail m !! k = m !! k.
Proof.
  intros Hk. rewrite lookup_fail_map.
  destruct (String.eqb_spec K_FAILURE_DETAIL k) as [<-|]; [done|].
  destruct (String.eqb_spec K_FAILURE_CODE k) as [<-|]; [done|].
  destruct (String.eqb_spec K_STATUS k) as [<-|]; [done|]. done.
Qed.

Definition map_ok {E A B} (f : A → B) (r : result E A) : result E B :=
  match r with Ok a => Ok (f a) | Err e => Err e end.

Lemma from_raw_fail_map `{BigDecimalText, JsonText, Base64} code detail m crypto :
  from_raw (fail_map code detail m) crypto = map_ok (with_failure code detail) (from_raw m crypto).
Proof.
  unfold from_raw. assert (raw_is_typed (fail_map code detail m) = raw_is_typed m) as ->.
  { unfold raw_is_typed. by rewrite lookup_fail_map. }
  rewrite (decode_entries_agree crypto _ _ (fail_map code detail m) m) by (intros; by apply fail_map_family).
  destruct (decode_entries _ _ _ (btree_list m)) as [f|e]; [|done]. cbn [mbind result_bind map_ok].
  unfold get. rewrite !lookup_fail_map. cbn [String.eqb]. by destruct code, detail.
Qed.

Lemma fail_map_text code detail m :
  utf8_valid code = true → utf8_valid detail = true → text_map m → text_map (fail_map code detail m).
Proof.
  intros Hc Hd Hm k v. rewrite lookup_fail_map.
  destruct (String.eqb_spec K_FAILURE_DETAIL k) as [<-|]; [destruct (str_is_empty detail); [done|by intros [= <-]]|].
  destruct (String.eqb_spec K_FAILURE_CODE k) as [<-|]; [destruct (str_is_empty code); [done|by intros [= <-]]|].
  destruct (String.eqb_spec K_STATUS k) as [<-|]; [by intros [= <-]|]. apply Hm.
Qed.

(** ** Clearing the failure *)

Lemma unfail_fail_map code detail m :
  m !! K_STATUS = Some STATUS_SUSPENDED → m !! K_FAILURE_CODE = None → m !! K_FAILURE_DETAIL = None →
  unfail_map (fail_map code detail m) = m.
Proof.
  intros Hs Hc Hd. apply map_eq. intros k. unfold unfail_map.
  destruct (decide (k = K_FAILURE_DETAIL)) as [->|]; [by rewrite lookup_delete_eq|]. rewrite lookup_delete_ne by done.
  destruct (decide (k = K_FAILURE_CODE)) as [->|]; [by rewrite lookup_delete_eq|]. rewrite lookup_delete_ne by done.
  destruct (decide (k = K_STATUS)) as [->|]; [by rewrite lookup_insert_eq|]. rewrite lookup_insert_ne by done.
  rewrite lookup_fail_map.
  assert (∀ a b : string, b ≠ a → String.eqb a b = false) as Hne by (intros; apply String.eqb_neq; congruence).
  by rewrite !Hne.
Qed.

Lemma raw_for_patch_ok bytes m : raw_for_patch bytes = Ok m ↔ raw_map bytes = Ok m.
Proof. unfold raw_for_patch. destruct (raw_map bytes); simpl; split; congruence. Qed.

Lemma mark_failed_ok bytes code detail bytes' :
  mark_failed bytes code detail = Ok bytes' → utf8_valid code = true → utf8_valid detail = true →
  ∃ m, raw_map bytes = Ok m ∧ raw_map bytes' = Ok (fail_map code detail m).
Proof.
  unfold mark_failed. intros (m & Hm%raw_for_patch_ok & Hp)%result_bind_ok Hc Hd. exists m. split; [done|].
  apply (raw_map_repack _ _ Hp). apply fail_map_text; [done..|]. by apply (raw_map_text bytes).
Qed.

Lemma pack_rows {E} entries : @pack E (btree_list (map_of entries)) = pack entries.
Proof. unfold pack, Container.encode. by rewrite map_of_btree_list. Qed.

(** ** Properties: failure *)

(** Marking stored bytes failed is re-stamping the snapshot.  Whichever
    container the bytes are in, and without the key of a single encrypted variable,
    the patched bytes read as the old snapshot with the status FAILED and the given
    code and detail, and as nothing else changed; what could not be read before
    cannot be read after, with the same error. *)
Theorem mark_failed_restamps `{BigDecimalText, JsonText, Base64} (bytes code detail bytes' : string)
    (crypto : option SnapshotCrypto) :
  mark_failed bytes code detail = Ok bytes' → utf8_valid code = true → utf8_valid detail = true →
  read_encrypted bytes' crypto = map_ok (with_failure code detail) (read_encrypted bytes crypto).
Proof.
  intros Hm Hc Hd. destruct (mark_failed_ok _ _ _ _ Hm Hc Hd) as (m & Hr & Hr').
  unfold read_encrypted. rewrite Hr, Hr'. cbn [map_err mbind result_bind]. apply from_raw_fail_map.
Qed.

(** [resume_from_failed] is the inverse of [mark_failed].  On what the engine
    wrote for a suspended instance, clearing the failure gives the very bytes that
    were stored before it; and it refuses every snapshot that is not FAILED. *)
Theorem resume_undoes_failure `{BigDecimalText, JsonText, Base64} (s : InstanceSnapshot) (crypto : option SnapshotCrypto)
    (names : gset string) (bytes code detail failed : string) :
  write_encrypted s crypto names = Ok bytes → snapshot_texts s crypto names →
  sn_status s = STATUS_SUSPENDED → sn_failure_code s = "" → sn_failure_detail s = "" →
  utf8_valid code = true → utf8_valid detail = true → mark_failed bytes code detail = Ok failed →
  resume_from_failed failed = Ok bytes ∧
  resume_from_failed bytes = Err (Rejected (NotFailed STATUS_SUSPENDED)).
Proof.
  intros (plain & enc & Hpart & He & Hp)%write_encrypted_ok [Ht _] Hs Hfc Hfd Hc Hd Hm.
  set (m := map_of (entries_of s crypto (is_typed (sn_variables s)) plain enc)).
  assert (Hr : raw_map bytes = Ok m) by exact (raw_map_pack _ _ Hp (Ht _ He)).
  assert (Hst : m !! K_STATUS = Some STATUS_SUSPENDED) by (unfold m; rewrite (written_status _ _ _ _ _ Hpart); by rewrite Hs).
  destruct (mark_failed_ok _ _ _ _ Hm Hc Hd) as (m' & Hr1 & Hr2). assert (m' = m) as -> by congruence.
  split; unfold resume_from_failed.
  - rewrite (proj2 (raw_for_patch_ok failed _) Hr2). cbn [mbind result_bind].
    assert (status_of (fail_map code detail m) = STATUS_FAILED) as -> by (unfold status_of; by rewrite lookup_fail_map).
    rewrite String.eqb_refl. cbn [negb]. rewrite unfail_fail_map; [|done|unfold m; rewrite (written_failure_code _ _ _ _ _ Hpart), Hfc; done
      |unfold m; rewrite (written_failure_detail _ _ _ _ _ Hpart), Hfd; done].
    unfold m. rewrite pack_rows. unfold pack in *. destruct (Container.encode _); congruence.
  - rewrite (proj2 (raw_for_patch_ok bytes _) Hr). cbn [mbind result_bind]. unfold status_of. by rewrite Hst.
Qed.

Lemma mark_failed_restamps_witness :
  let crypto := Some (plain_crypto "i-1") in
  ∃ bytes failed,
    @write_encrypted plain_decimal_text numeral_json_text plain_base64 parked_example crypto {["ssn"]} = Ok bytes ∧
    mark_failed bytes "SUTRA.X" "boom" = Ok failed ∧
    @read_encrypted plain_decimal_text numeral_json_text plain_base64 failed crypto =
      map_ok (with_failure "SUTRA.X" "boom") (@read_encrypted plain_decimal_text numeral_json_text plain_base64 bytes crypto).
Proof.
  intros crypto.
  destruct (@write_encrypted plain_decimal_text numeral_json_text plain_base64 parked_example crypto {["ssn"]}) as [bytes|e] eqn:E;
    [|vm_compute in E; discriminate E].
  destruct (mark_failed bytes "SUTRA.X" "boom") as [failed|e] eqn:F.
  - exists bytes, failed. split; [reflexivity|]. split; [exact F|].
    exact (mark_failed_restamps bytes "SUTRA.X" "boom" failed crypto F eq_refl eq_refl).
  - exfalso. vm_compute in E. injection E as <-. vm_compute in F. discriminate F.
Defined.

Lemma resume_undoes_failure_witness :
  let crypto := Some (plain_crypto "i-1") in
  ∃ bytes failed,
    @write_encrypted plain_decimal_text numeral_json_text plain_base64 parked_example crypto {["ssn"]} = Ok bytes ∧
    mark_failed bytes "SUTRA.X" "boom" = Ok failed ∧ resume_from_failed failed = Ok bytes.
Proof.
  intros crypto.
  destruct (@write_encrypted plain_decimal_text numeral_json_text plain_base64 parked_example crypto {["ssn"]}) as [bytes|e] eqn:E;
    [|vm_compute in E; discriminate E].
  destruct (mark_failed bytes "SUTRA.X" "boom") as [failed|e] eqn:F.
  - exists bytes, failed. split; [reflexivity|]. split; [exact F|].
    refine (proj1 (resume_undoes_failure parked_example crypto {["ssn"]} bytes "SUTRA.X" "boom" failed E _ _ _ _ _ _ F));
      try reflexivity. apply snapshot_textsb_true. vm_compute. reflexivity.
  - exfalso. vm_compute in E. injection E as <-. vm_compute in F. discriminate F.
Defined.

(** ** Renaming the keys of a family *)

Section Rename.
Context (prefix : string) (f : string → string).

(** The counters of the nodes [ns] can be renamed one by one: each is there, no
    target is occupied, and no two share one. *)
Record renamable (ns : list string) (m : RawSnapshot) : Prop := {
  ren_there n : n ∈ ns → is_Some (m !! (prefix +:+ n));
  ren_free n : n ∈ ns → f n ≠ n → m !! (prefix +:+ f n) = None;
  ren_inj n n' : n ∈ ns → n' ∈ ns → f n = f n' → n = n'
}.

Definition rename_one (m : RawSnapshot) (n : string) : RawSnapshot := rename_key prefix m (prefix +:+ n, f n).

Lemma rename_one_same m n : f n = n → rename_one m n = m.
Proof. intros Hf. unfold rename_one, rename_key. by rewrite Hf, String.eqb_refl. Qed.

Lemma rename_one_moved m n v :
  f n ≠ n → m !! (prefix +:+ n) = Some v → rename_one m n = <[prefix +:+ f n := v]> (delete (prefix +:+ n) m).
Proof.
  intros Hf Hv. unfold rename_one, rename_key. destruct (String.eqb_spec (prefix +:+ f n) (prefix +:+ n)) as [E|_].
  - by apply prefix_app_inj in E.
  - by rewrite Hv.
Qed.

Lemma prefixed_ne n n' : n ≠ n' → prefix +:+ n ≠ prefix +:+ n'.
Proof. intros Hne E. by apply prefix_app_inj in E. Qed.

(** Renaming the head keeps the rest renamable, and the counters of the rest. *)
Lemma rename_one_tail n ns m :
  n ∉ ns → renamable (n :: ns) m →
  renamable ns (rename_one m n) ∧ (∀ n', n' ∈ ns → rename_one m n !! (prefix +:+ n') = m !! (prefix +:+ n')).
Proof.
  intros Hn [Ht Hf Hi]. destruct (decide (f n = n)) as [E|E].
  { rewrite rename_one_same by done. split; [|done]. split; intros; [apply Ht|apply Hf|apply Hi]; set_solver. }
  destruct (Ht n) as [v Hv]; [set_solver|]. rewrite (rename_one_moved _ _ v E Hv).
  assert (Hk : ∀ n', n' ∈ ns → <[prefix +:+ f n := v]> (delete (prefix +:+ n) m) !! (prefix +:+ n') = m !! (prefix +:+ n')).
  { intros n' Hn'. assert (n' ≠ n) by set_solver. assert (n' ≠ f n).
    { intros ->. destruct (Ht (f n)) as [x Hx]; [set_solver|]. rewrite Hf in Hx by set_solver. done. }
    rewrite lookup_insert_ne, lookup_delete_ne by (apply prefixed_ne; done). done. }
  split; [|done]. split.
  - intros n' Hn'. rewrite Hk by done. apply Ht. set_solver.
  - intros n' Hn' E'. assert (f n ≠ f n') by (intros Ef; assert (n = n') by (apply Hi; set_solver); set_solver).
    rewrite lookup_insert_ne by (by apply prefixed_ne). destruct (decide (f n' = n)) as [->|]; [by rewrite lookup_delete_eq|].
    rewrite lookup_delete_ne by (apply prefixed_ne; done). apply Hf; set_solver.
  - intros; apply Hi; set_solver.
Qed.

Lemma rename_one_lookup m n k v :
  m !! (prefix +:+ n) = Some v →
  rename_one m n !! k = if decide (k = prefix +:+ f n) then Some v else if decide (k = prefix +:+ n) then None else m !! k.
Proof.
  intros Hv. destruct (decide (f n = n)) as [E|E].
  - rewrite rename_one_same by done. rewrite E. by case_decide; subst.
  - rewrite (rename_one_moved _ _ v E Hv). repeat case_decide; subst.
    + by rewrite lookup_insert_eq.
    + rewrite lookup_insert_ne by done. by rewrite lookup_delete_eq.
    + by rewrite lookup_insert_ne, lookup_delete_ne by done.
Qed.

(** Renaming them all: every counter follows its node, a vacated key is gone, and
    every other key is as it was. *)
Record renamed (ns : list string) (m m' : RawSnapshot) : Prop := {
  renamed_moved n : n ∈ ns → m' !! (prefix +:+ f n) = m !! (prefix +:+ n);
  renamed_from k v : m' !! k = Some v → m !! k = Some v ∧ (∀ n, n ∈ ns → k ≠ prefix +:+ n) ∨ ∃ n, n ∈ ns ∧ k = prefix +:+ f n;
  renamed_other k : (∀ n, n ∈ ns → k ≠ prefix +:+ n ∧ k ≠ prefix +:+ f n) → m' !! k = m !! k
}.

Lemma rename_all ns m : NoDup ns → renamable ns m → renamed ns m (fold_left rename_one ns m).
Proof.
  revert m. induction ns as [|n ns IH]; intros m Hnd Hr.
  { split; [intros n Hn; by apply elem_of_nil in Hn| |done]. intros k v Hk. left. split; [done|]. intros n Hn; by apply elem_of_nil in Hn. }
  apply NoDup_cons in Hnd as [Hn Hnd]. destruct (rename_one_tail n ns m Hn Hr) as [Hr1 Hk].
  destruct (ren_there _ _ Hr n) as [v Hv]; [by left|]. specialize (IH (rename_one m n) Hnd Hr1) as [M F O].
  cbn [fold_left]. split.
  - intros n' [->|Hn']%elem_of_cons.
    + rewrite O; [rewrite (rename_one_lookup _ _ _ v Hv); by case_decide|]. intros n' Hn'. split; intros E%prefix_app_inj.
      * destruct (decide (f n = n)) as [E'|E']; [congruence|]. destruct (ren_there _ _ Hr n') as [x Hx]; [by right|].
        rewrite <-E, (ren_free _ _ Hr n) in Hx by (done || by left). done.
      * assert (n = n') by (apply (ren_inj _ _ Hr); [by left|by right|done]). congruence.
    + rewrite M by done. by apply Hk.
  - intros k x [[Hx Hk']|(n' & Hn' & ->)]%F; [|right; exists n'; split; [by right|done]].
    rewrite (rename_one_lookup _ _ _ v Hv) in Hx. repeat case_decide; try done; [right; exists n; split; [by left|done]|].
    left. split; [done|]. intros n' [->|Hn']%elem_of_cons; auto.
  - intros k Hk'. rewrite O by (intros n' Hn'; apply Hk'; by right). rewrite (rename_one_lookup _ _ _ v Hv).
    destruct (Hk' n) as [? ?]; [by left|]. by repeat case_decide.
Qed.
End Rename.

(** ** Migration *)

(** The nodes that have a key under [prefix]. *)
Definition family_nodes (prefix : string) (m : RawSnapshot) : list string :=
  omap (λ e, strip_prefix prefix e.1) (btree_list m).

Lemma elem_of_family_nodes prefix m n : n ∈ family_nodes prefix m ↔ is_Some (m !! (prefix +:+ n)).
Proof.
  unfold family_nodes. rewrite list_elem_of_omap. split.
  - intros ([k v] & Hk%elem_of_btree_list & E). cbn [fst] in E. apply strip_prefix_some in E as ->. by exists v.
  - intros [v Hv]. exists (prefix +:+ n, v). split; [by apply elem_of_btree_list|apply strip_prefix_app].
Qed.

Lemma family_nodes_nodup prefix m : NoDup (family_nodes prefix m).
Proof.
  unfold family_nodes. pose proof (btree_list_nodup m) as Hnd. induction (btree_list m) as [|[k v] l IH]; [constructor|].
  simpl in *. apply NoDup_cons in Hnd as [Hk Hnd]. destruct (strip_prefix prefix k) as [n|] eqn:E; [|by apply IH].
  constructor; [|by apply IH]. intros ([k' v'] & Hin & E')%list_elem_of_omap. apply Hk. simpl in E'.
  apply strip_prefix_some in E as ->. apply strip_prefix_some in E' as ->. by apply (list_elem_of_fmap_2 fst _ _ Hin).
Qed.

Lemma rename_nodes_fold prefix mapping m :
  rename_nodes prefix mapping m = fold_left (rename_one prefix (map_one mapping)) (family_nodes prefix m) m.
Proof.
  unfold rename_nodes, keyed_nodes, family_nodes. generalize m at 2 4 as m0.
  induction (btree_list m) as [|[k v] l IH]; intros m0; [done|]. simpl.
  destruct (strip_prefix prefix k) as [n|] eqn:E; simpl; [|apply IH].
  rewrite IH. apply strip_prefix_some in E as ->. done.
Qed.

(** No counter under [prefix] is renamed onto another. *)
Definition no_collision (prefix : string) (mapping : gmap string string) (m : RawSnapshot) : Prop :=
  (∀ n, is_Some (m !! (prefix +:+ n)) → map_one mapping n ≠ n → m !! (prefix +:+ map_one mapping n) = None) ∧
  (∀ n n', is_Some (m !! (prefix +:+ n)) → is_Some (m !! (prefix +:+ n')) → map_one mapping n = map_one mapping n' → n = n').

Lemma rename_nodes_spec prefix mapping m :
  no_collision prefix mapping m →
  renamed prefix (map_one mapping) (family_nodes prefix m) m (rename_nodes prefix mapping m).
Proof.
  intros [Hf Hi]. rewrite rename_nodes_fold. apply rename_all; [apply family_nodes_nodup|].
  split; intros *; rewrite ?elem_of_family_nodes; auto.
Qed.

Lemma rename_nodes_other prefix mapping m k :
  no_collision prefix mapping m → strip_prefix prefix k = None → rename_nodes prefix mapping m !! k = m !! k.
Proof.
  intros Hc Hk. apply (renamed_other _ _ _ _ _ (rename_nodes_spec prefix mapping m Hc)).
  intros n _. split; intros ->; by rewrite strip_prefix_app in Hk.
Qed.

(** What the first steps of a migration do to the keys of the head. *)
Definition migrate_head (dep : string) (proc : option string) (mapping : gmap string string) (m : RawSnapshot) : RawSnapshot :=
  map_start_node mapping (map_key (map_list mapping) K_COMPLETED
    (map_key (map_list mapping) K_WAITING (set_process_id proc (<[K_DEPLOYMENT_ID := dep]> m)))).

Lemma lookup_map_key g key (m : RawSnapshot) k :
  map_key g key m !! k = if String.eqb key k then g <$> m !! key else m !! k.
Proof.
  unfold map_key. destruct (String.eqb_spec key k) as [->|Hne].
  - destruct (m !! k) eqn:E; simpl; [by rewrite lookup_insert_eq|done].
  - destruct (m !! key); [by rewrite lookup_insert_ne|done].
Qed.

Lemma lookup_map_start mapping (m : RawSnapshot) k :
  map_start_node mapping m !! k =
  if String.eqb K_START_NODE k then (λ s, if str_is_empty s then s else map_one mapping s) <$> m !! K_START_NODE else m !! k.
Proof.
  unfold map_start_node. destruct (String.eqb_spec K_START_NODE k) as [<-|Hne].
  - destruct (m !! K_START_NODE) as [s|] eqn:E; [|done]. simpl. destruct (str_is_empty s); [done|by rewrite lookup_insert_eq].
  - destruct (m !! K_START_NODE) as [s|]; [|done]. destruct (str_is_empty s); [done|by rewrite lookup_insert_ne].
Qed.

(** The process an instance is in after the move. *)
Definition moved_process (proc : option string) (old : option string) : option string :=
  match proc with Some p => if str_is_empty p then old else Some p | None => old end.

Lemma lookup_set_process proc (m : RawSnapshot) k :
  set_process_id proc m !! k = if String.eqb K_PROCESS_ID k then moved_process proc (m !! K_PROCESS_ID) else m !! k.
Proof.
  unfold set_process_id, moved_process. destruct (String.eqb_spec K_PROCESS_ID k) as [<-|Hne].
  - destruct proc as [p|]; [|done]. destruct (str_is_empty p); [done|by rewrite lookup_insert_eq].
  - destruct proc as [p|]; [|done]. destruct (str_is_empty p); [done|by rewrite lookup_insert_ne].
Qed.

Lemma lookup_migrate_head dep proc mapping m k :
  migrate_head dep proc mapping m !! k =
  if String.eqb K_START_NODE k then (λ s, if str_is_empty s then s else map_one mapping s) <$> m !! K_START_NODE
  else if String.eqb K_COMPLETED k then map_list mapping <$> m !! K_COMPLETED
  else if String.eqb K_WAITING k then map_list mapping <$> m !! K_WAITING
  else if String.eqb K_PROCESS_ID k then moved_process proc (m !! K_PROCESS_ID)
  else if String.eqb K_DEPLOYMENT_ID k then Some dep
  else m !! k.
Proof.
  unfold migrate_head. rewrite lookup_map_start, !lookup_map_key, !lookup_set_process. cbn [String.eqb].
  assert (Hd : ∀ k, <[K_DEPLOYMENT_ID := dep]> m !! k = if String.eqb K_DEPLOYMENT_ID k then Some dep else m !! k).
  { intros k'. destruct (String.eqb_spec K_DEPLOYMENT_ID k') as [<-|Hne]; [by rewrite lookup_insert_eq|by rewrite lookup_insert_ne]. }
  rewrite !Hd. done.
Qed.

Lemma migrate_head_family dep proc mapping m k : in_family k = true → migrate_head dep proc mapping m !! k = m !! k.
Proof.
  intros Hk. rewrite lookup_migrate_head.
  repeat match goal with |- context [String.eqb ?a k] => destruct (String.eqb_spec a k) as [<-|]; [done|] end. done.
Qed.

Lemma elem_of_names_under prefix (f : string → bool) m n :
  n ∈ names_under prefix f m ↔ ∃ v, m !! (prefix +:+ n) = Some v ∧ f v = true.
Proof.
  unfold names_under. rewrite elem_of_list_to_set, list_elem_of_omap. split.
  - intros ([k v] & Hk%elem_of_btree_list & E). cbn [fst snd] in E.
    destruct (strip_prefix prefix k) as [n'|] eqn:Es; [|done]. apply strip_prefix_some in Es as ->. simpl in E.
    destruct (f v) eqn:Ef; [|done]. injection E as ->. by exists v.
  - intros (v & Hv & Hf). exists (prefix +:+ n, v). split; [by apply elem_of_btree_list|]. cbn [fst snd].
    rewrite strip_prefix_app. simpl. by rewrite Hf.
Qed.

Lemma no_collision_agree prefix mapping m m' :
  (∀ n, m' !! (prefix +:+ n) = m !! (prefix +:+ n)) → no_collision prefix mapping m → no_collision prefix mapping m'.
Proof. intros Ha [Hf Hi]. split; intros *; rewrite !Ha; auto. Qed.

(** The renamed family, by the counters before. *)
Lemma rename_nodes_names prefix mapping m (f : string → bool) :
  no_collision prefix mapping m →
  names_under prefix f (rename_nodes prefix mapping m) = set_map (map_one mapping) (names_under prefix f m).
Proof.
  intros Hc. pose proof (rename_nodes_spec prefix mapping m Hc) as [Hm Hf _]. apply set_eq. intros x.
  rewrite elem_of_map, elem_of_names_under. split.
  - intros (v & Hv & Ev). destruct (Hf _ _ Hv) as [[Hv' Hne]|(n & Hn & Ek)].
    + exfalso. apply (Hne x); [|done]. apply elem_of_family_nodes. by exists v.
    + apply prefix_app_inj in Ek as ->. exists n. split; [done|]. rewrite Hm in Hv by done.
      apply elem_of_names_under. by exists v.
  - intros (n & -> & (v & Hv & Ev)%elem_of_names_under). exists v. split; [|done].
    rewrite Hm by (apply elem_of_family_nodes; by exists v). done.
Qed.

Lemma rename_nodes_text prefix mapping m :
  no_collision prefix mapping m → text_map m →
  (∀ n, is_Some (m !! (prefix +:+ n)) → utf8_valid (prefix +:+ map_one mapping n) = true) →
  text_map (rename_nodes prefix mapping m).
Proof.
  intros Hc Ht Hn k v Hk. pose proof (rename_nodes_spec prefix mapping m Hc) as [Hm Hf _].
  destruct (Hf _ _ Hk) as [[Hk' _]|(n & Hin & ->)]; [by apply Ht|].
  rewrite Hm in Hk by done. split; [|by apply (Ht _ _ Hk)]. apply Hn. by exists v.
Qed.

(** What a plan promises for one stored map: the ids its nodes are mapped to are
    ids, and no counter meets another on its way. *)
Definition id_text (id : string) : Prop := list_id id = true ∧ utf8_valid id = true.

Record movable (mapping : gmap string string) (m : RawSnapshot) : Prop := {
  mv_waiting : Forall (λ id, id_text (map_one mapping id)) (split_list (get m K_WAITING));
  mv_completed : Forall (λ id, id_text (map_one mapping id)) (split_list (get m K_COMPLETED));
  mv_start : utf8_valid (map_one mapping (get m K_START_NODE)) = true;
  mv_retry n : is_Some (m !! (K_RETRY_PREFIX +:+ n)) → utf8_valid (K_RETRY_PREFIX +:+ map_one mapping n) = true;
  mv_retry_wait n : is_Some (m !! (K_RETRY_WAIT_PREFIX +:+ n)) → utf8_valid (K_RETRY_WAIT_PREFIX +:+ map_one mapping n) = true;
  mv_retry_free : no_collision K_RETRY_PREFIX mapping m;
  mv_wait_free : no_collision K_RETRY_WAIT_PREFIX mapping m
}.

(** The loci of the instance after the move. *)
Definition move_loci (dep : string) (proc : option string) (mapping : gmap string string) (seq : option Z)
    (l : SnapshotLoci) : SnapshotLoci :=
  mk_loci (default "" (moved_process proc (Some (sl_process_id l)))) dep (sl_status l)
    (map (map_one mapping) (sl_waiting_nodes l)) (map (map_one mapping) (sl_completed_nodes l))
    (if str_is_empty (sl_start_node l) then "" else map_one mapping (sl_start_node l))
    (set_map (map_one mapping) (sl_retry_nodes l))
    (match seq with Some s => if positive s then s else sl_audit_seq l | None => sl_audit_seq l end).

Lemma lookup_set_audit seq (m' : RawSnapshot) k :
  set_audit_seq seq m' !! k =
  if String.eqb K_AUDIT_SEQ k
  then match seq with Some s => if positive s then Some (dec_string s) else m' !! K_AUDIT_SEQ | None => m' !! K_AUDIT_SEQ end
  else m' !! k.
Proof.
  unfold set_audit_seq. destruct (String.eqb_spec K_AUDIT_SEQ k) as [<-|Hne], seq as [s|]; try done; destruct (positive s);
    rewrite ?lookup_insert_eq, ?lookup_insert_ne by done; done.
Qed.

Section Migrate.
Context (dep : string) (proc : option string) (mapping : gmap string string) (seq : option Z) (m : RawSnapshot).

Let head := migrate_head dep proc mapping m.
Let retried := rename_nodes K_RETRY_PREFIX mapping head.
Let moved := migrate_map dep proc mapping seq m.

Lemma moved_eq : moved = set_audit_seq seq (rename_nodes K_RETRY_WAIT_PREFIX mapping retried).
Proof. done. Qed.

Context (Hm : movable mapping m).

Lemma head_free : no_collision K_RETRY_PREFIX mapping head.
Proof using Hm. apply (no_collision_agree _ _ m); [|apply Hm]. intros n. by apply migrate_head_family. Qed.

Lemma retried_free : no_collision K_RETRY_WAIT_PREFIX mapping retried.
Proof using Hm.
  apply (no_collision_agree _ _ m); [|apply Hm]. intros n. unfold retried.
  rewrite rename_nodes_other by (apply head_free || done). by apply migrate_head_family.
Qed.

Lemma moved_other k :
  strip_prefix K_RETRY_PREFIX k = None → strip_prefix K_RETRY_WAIT_PREFIX k = None → K_AUDIT_SEQ ≠ k →
  moved !! k = head !! k.
Proof using Hm.
  intros Hr Hw Hk. rewrite moved_eq, lookup_set_audit. destruct (String.eqb_spec K_AUDIT_SEQ k); [done|].
  rewrite rename_nodes_other by (apply retried_free || done). unfold retried.
  by rewrite rename_nodes_other by (apply head_free || done).
Qed.

Lemma moved_retry n : moved !! (K_RETRY_PREFIX +:+ n) = retried !! (K_RETRY_PREFIX +:+ n).
Proof using Hm.
  rewrite moved_eq, lookup_set_audit. destruct (String.eqb_spec K_AUDIT_SEQ (K_RETRY_PREFIX +:+ n)) as [E|_]; [done|].
  by rewrite rename_nodes_other by (apply retried_free || done).
Qed.

Lemma moved_list key :
  strip_prefix K_RETRY_PREFIX key = None → strip_prefix K_RETRY_WAIT_PREFIX key = None → K_AUDIT_SEQ ≠ key →
  head !! key = map_list mapping <$> m !! key →
  Forall (λ id, id_text (map_one mapping id)) (split_list (get m key)) →
  split_list (get moved key) = map (map_one mapping) (split_list (get m key)).
Proof using Hm.
  intros Hr Hw Ha Hh Hf. unfold get in *. rewrite moved_other, Hh by done. destruct (m !! key) as [raw|]; [|done].
  cbn [fmap option_fmap option_map default from_option Datatypes.id] in *. apply split_list_concat, Forall_map.
  apply (Forall_impl _ _ _ Hf). by intros id [? _].
Qed.

Lemma moved_loci :
  (∀ s, seq = Some s → s <= u32_max) → loci_of moved = move_loci dep proc mapping seq (loci_of m).
Proof using Hm.
  intros Hs. unfold loci_of at 1, move_loci. f_equal.
  - unfold get. rewrite moved_other by done. unfold head. rewrite lookup_migrate_head. cbn [loci_of sl_process_id]. unfold get.
    unfold moved_process. destruct proc as [p|]; [|done]. by destruct (str_is_empty p).
  - unfold get. rewrite moved_other by done. done || (unfold head; by rewrite lookup_migrate_head).
  - unfold loci_of, sl_status, status_of. rewrite moved_other by done. unfold head. by rewrite lookup_migrate_head.
  - apply moved_list; try done; [unfold head; by rewrite lookup_migrate_head|apply Hm].
  - apply moved_list; try done; [unfold head; by rewrite lookup_migrate_head|apply Hm].
  - unfold get. rewrite moved_other by done. unfold head. rewrite lookup_migrate_head. cbn [loci_of sl_start_node]. unfold get.
    destruct (m !! K_START_NODE) as [s|]; [|done]. simpl. by destruct s.
  - cbn [loci_of sl_retry_nodes]. trans (names_under K_RETRY_PREFIX (λ v, positive (parse_or 0 u32_max v)) retried).
    + apply set_eq. intros n. rewrite !elem_of_names_under. by setoid_rewrite moved_retry.
    + unfold retried. rewrite rename_nodes_names by apply head_free. f_equal. apply set_eq. intros n.
      rewrite !elem_of_names_under. unfold head. by rewrite migrate_head_family.
  - unfold get. rewrite moved_eq, lookup_set_audit. change (String.eqb K_AUDIT_SEQ K_AUDIT_SEQ) with true. cbn [loci_of sl_audit_seq].
    assert (rename_nodes K_RETRY_WAIT_PREFIX mapping retried !! K_AUDIT_SEQ = m !! K_AUDIT_SEQ) as ->.
    { rewrite rename_nodes_other by (apply retried_free || done). unfold retried.
      rewrite rename_nodes_other by (apply head_free || done). unfold head. by rewrite lookup_migrate_head. }
    destruct seq as [s|]; [|done]. specialize (Hs s eq_refl). destruct (positive s) eqn:Ep; [|done].
    apply positive_true in Ep. apply parse_or_dec. lia.
Qed.

Lemma head_text :
  text_map m → utf8_valid dep = true → (∀ p, proc = Some p → utf8_valid p = true) → text_map head.
Proof using Hm.
  clear moved. intros Ht Hd Hp k v. unfold head. rewrite lookup_migrate_head.
  assert (Hlist : ∀ key, Forall (λ id, id_text (map_one mapping id)) (split_list (get m key)) →
    (map_list mapping <$> m !! key) = Some v → utf8_valid v = true).
  { intros key Hf. unfold get in Hf. destruct (m !! key) as [raw|]; [|done].
    cbn [default from_option Datatypes.id] in Hf. intros [= <-]. unfold map_list. apply utf8_concat. apply Forall_map. apply (Forall_impl _ _ _ Hf). by intros id [_ ?]. }
  destruct (String.eqb_spec K_START_NODE k) as [<-|].
  { pose proof (mv_start _ _ Hm) as Hs. unfold get in Hs. destruct (m !! K_START_NODE) as [s|]; [|done].
    cbn [default from_option Datatypes.id] in Hs. intros [= <-]. by destruct s. }
  destruct (String.eqb_spec K_COMPLETED k) as [<-|]; [intros E; split; [done|by apply (Hlist K_COMPLETED), E; apply Hm]|].
  destruct (String.eqb_spec K_WAITING k) as [<-|]; [intros E; split; [done|by apply (Hlist K_WAITING), E; apply Hm]|].
  destruct (String.eqb_spec K_PROCESS_ID k) as [<-|].
  { unfold moved_process. destruct proc as [p|]; [|apply Ht]. destruct (str_is_empty p); [apply Ht|]. intros [= <-]. auto. }
  destruct (String.eqb_spec K_DEPLOYMENT_ID k) as [<-|]; [by intros [= <-]|]. apply Ht.
Qed.

Lemma moved_text :
  text_map m → utf8_valid dep = true → (∀ p, proc = Some p → utf8_valid p = true) → text_map moved.
Proof using Hm.
  intros Ht Hd Hp. rewrite moved_eq. intros k v. rewrite lookup_set_audit.
  assert (Hw : text_map (rename_nodes K_RETRY_WAIT_PREFIX mapping retried)).
  { apply rename_nodes_text; [apply retried_free| |].
    - apply rename_nodes_text; [apply head_free|by apply head_text|]. intros n. unfold head.
      rewrite migrate_head_family by done. apply (mv_retry _ _ Hm).
    - intros n. unfold retried. rewrite rename_nodes_other by (apply head_free || done). unfold head.
      rewrite migrate_head_family by done. apply (mv_retry_wait _ _ Hm). }
  destruct (String.eqb_spec K_AUDIT_SEQ k) as [<-|]; [|apply Hw].
  destruct seq as [s|]; [|apply Hw]. destruct (positive s) eqn:Ep; [|apply Hw]. intros [= <-]. split; [done|].
  apply utf8_digits, dec_string_numeral. apply positive_true in Ep. lia.
Qed.
End Migrate.

Lemma moved_counter dep proc mapping seq m n c :
  movable mapping m → m !! (K_RETRY_PREFIX +:+ n) = Some c →
  migrate_map dep proc mapping seq m !! (K_RETRY_PREFIX +:+ map_one mapping n) = Some c.
Proof.
  intros Hm Hc. rewrite moved_retry by done.
  rewrite (renamed_moved _ _ _ _ _ (rename_nodes_spec _ _ _ (head_free dep proc mapping m Hm))).
  - by rewrite migrate_head_family.
  - apply elem_of_family_nodes. rewrite migrate_head_family by done. by exists c.
Qed.

Lemma moved_wait dep proc mapping seq m n code :
  movable mapping m → m !! (K_RETRY_WAIT_PREFIX +:+ n) = Some code →
  migrate_map dep proc mapping seq m !! (K_RETRY_WAIT_PREFIX +:+ map_one mapping n) = Some code.
Proof.
  intros Hm Hc. rewrite (moved_eq dep proc mapping seq m), lookup_set_audit.
  destruct (String.eqb_spec K_AUDIT_SEQ (K_RETRY_WAIT_PREFIX +:+ map_one mapping n)) as [E|_]; [done|].
  assert (Hr : rename_nodes K_RETRY_PREFIX mapping (migrate_head dep proc mapping m) !! (K_RETRY_WAIT_PREFIX +:+ n) = Some code).
  { rewrite rename_nodes_other by (by apply head_free || done). by rewrite migrate_head_family. }
  rewrite (renamed_moved _ _ _ _ _ (rename_nodes_spec _ _ _ (retried_free dep proc mapping m Hm))); [done|].
  apply elem_of_family_nodes. by exists code.
Qed.

Lemma migrate_pinned_ok bytes dep proc mapping seq bytes' m :
  migrate_pinned bytes dep proc mapping seq = Ok bytes' → raw_map bytes = Ok m → movable mapping m →
  utf8_valid dep = true → (∀ p, proc = Some p → utf8_valid p = true) →
  is_terminal_status (status_of m) = false ∧ raw_map bytes' = Ok (migrate_map dep proc mapping seq m).
Proof.
  unfold migrate_pinned. intros (m' & Hr%raw_for_patch_ok & Hp)%result_bind_ok Hm Hmv Hd Hpr.
  assert (m' = m) as -> by congruence. destruct (is_terminal_status (status_of m)); [done|]. split; [done|].
  apply (raw_map_repack _ _ Hp). apply moved_text; try done. by apply (raw_map_text bytes).
Qed.

(** ** Property: migration *)

(** A migration moves every locus of an instance through the node mapping and
    nothing else.  For stored bytes whose retry counters do not meet under the
    mapping, the patched bytes show the new deployment and process, the old status,
    and the waiting, completed, start and retrying nodes mapped one by one; each
    retry counter and backoff marker is under its node's new id with its value; the
    variables, encrypted ones included, and the coverage cursors are as they were.
    The instance was live: a terminal one is refused. *)
Theorem migrate_moves_loci (bytes dep : string) (proc : option string) (mapping : gmap string string)
    (seq : option Z) (bytes' : string) (m : RawSnapshot) :
  migrate_pinned bytes dep proc mapping seq = Ok bytes' → raw_map bytes = Ok m → movable mapping m →
  utf8_valid dep = true → (∀ p, proc = Some p → utf8_valid p = true) → (∀ s, seq = Some s → s <= u32_max) →
  is_terminal_status (status_of m) = false ∧
  peek_loci bytes' = map_ok (move_loci dep proc mapping seq) (peek_loci bytes) ∧
  ∃ m', raw_map bytes' = Ok m' ∧
    (∀ n c, m !! (K_RETRY_PREFIX +:+ n) = Some c → m' !! (K_RETRY_PREFIX +:+ map_one mapping n) = Some c) ∧
    (∀ n c, m !! (K_RETRY_WAIT_PREFIX +:+ n) = Some c → m' !! (K_RETRY_WAIT_PREFIX +:+ map_one mapping n) = Some c) ∧
    (∀ prefix n, prefix ∈ [K_VAR_PREFIX; K_ENC_PREFIX; K_COVERAGE_PREFIX] → m' !! (prefix +:+ n) = m !! (prefix +:+ n)).
Proof.
  intros Hp Hr Hm Hd Hpr Hs. destruct (migrate_pinned_ok _ _ _ _ _ _ _ Hp Hr Hm Hd Hpr) as [Ht Hr'].
  split; [done|]. split.
  - unfold peek_loci. rewrite Hr, Hr'. cbn [mbind result_bind map_ok]. f_equal. by apply moved_loci.
  - exists (migrate_map dep proc mapping seq m). split; [done|]. split; [intros; by apply moved_counter|].
    split; [intros; by apply moved_wait|]. intros prefix n Hin. set_unfold in Hin.
    destruct Hin as [->|[->|[->|[]]]]; rewrite moved_other by done; by apply migrate_head_family.
Qed.

(** A boolean form of [movable]. *)
Definition no_collisionb (prefix : string) (mapping : gmap string string) (m : RawSnapshot) : bool :=
  let ns := family_nodes prefix m in
  forallb (λ n, String.eqb (map_one mapping n) n || negb (existsb (String.eqb (map_one mapping n)) ns)) ns &&
  forallb (λ n, forallb (λ n', negb (String.eqb (map_one mapping n) (map_one mapping n')) || String.eqb n n') ns) ns.

Lemma no_collisionb_true prefix mapping m : no_collisionb prefix mapping m = true → no_collision prefix mapping m.
Proof.
  unfold no_collisionb. rewrite andb_true_iff, !forallb_forall. intros [Hf Hi]. split.
  - intros n Hn%elem_of_family_nodes%list_elem_of_In Hne. specialize (Hf n Hn). apply orb_true_iff in Hf as [?%String.eqb_eq|Hf]; [done|].
    apply negb_true_iff in Hf. destruct (m !! (prefix +:+ map_one mapping n)) as [v|] eqn:E; [|done]. exfalso.
    rewrite <-not_true_iff_false, existsb_exists in Hf. apply Hf. exists (map_one mapping n).
    rewrite String.eqb_refl. split; [|done]. apply list_elem_of_In, elem_of_family_nodes. by exists v.
  - intros n n' Hn%elem_of_family_nodes%list_elem_of_In Hn'%elem_of_family_nodes%list_elem_of_In E.
    specialize (Hi n Hn). rewrite forallb_forall in Hi. specialize (Hi n' Hn'). rewrite E, String.eqb_refl in Hi. by apply String.eqb_eq.
Qed.

Definition id_textb (id : string) : bool := list_id id && utf8_valid id.

Definition movableb (mapping : gmap string string) (m : RawSnapshot) : bool :=
  forallb (λ id, id_textb (map_one mapping id)) (split_list (get m K_WAITING)) &&
  forallb (λ id, id_textb (map_one mapping id)) (split_list (get m K_COMPLETED)) &&
  utf8_valid (map_one mapping (get m K_START_NODE)) &&
  forallb (λ n, utf8_valid (K_RETRY_PREFIX +:+ map_one mapping n)) (family_nodes K_RETRY_PREFIX m) &&
  forallb (λ n, utf8_valid (K_RETRY_WAIT_PREFIX +:+ map_one mapping n)) (family_nodes K_RETRY_WAIT_PREFIX m) &&
  no_collisionb K_RETRY_PREFIX mapping m && no_collisionb K_RETRY_WAIT_PREFIX mapping m.

Lemma movableb_true mapping m : movableb mapping m = true → movable mapping m.
Proof.
  unfold movableb. rewrite !andb_true_iff. intros [[[[[[Hw Hc] Hs] Hr] Hrw] Hn] Hnw].
  assert (Hid : ∀ l, forallb (λ id, id_textb (map_one mapping id)) l = true → Forall (λ id, id_text (map_one mapping id)) l).
  { intros l Hl. rewrite forallb_forall in Hl. apply Forall_forall. intros id Hin%list_elem_of_In. by apply andb_true_iff, Hl. }
  assert (Hfam : ∀ prefix (P : string → bool), forallb P (family_nodes prefix m) = true → ∀ n, is_Some (m !! (prefix +:+ n)) → P n = true).
  { intros prefix P HP n Hx%elem_of_family_nodes%list_elem_of_In. rewrite forallb_forall in HP. by apply HP. }
  split; [by apply Hid|by apply Hid|exact Hs|apply (Hfam _ _ Hr)|apply (Hfam _ _ Hrw)|by apply no_collisionb_true..].
Qed.

Lemma migrate_moves_loci_witness :
  let crypto := Some (plain_crypto "i-1") in
  let mapping : gmap string string := {["charge" := "pay"; "approve" := "sign"]} in
  ∃ bytes bytes',
    @write_encrypted plain_decimal_text numeral_json_text plain_base64 parked_example crypto {["ssn"]} = Ok bytes ∧
    migrate_pinned bytes "d-2" (Some "p2") mapping (Some 9) = Ok bytes' ∧
    peek_loci bytes' = map_ok (move_loci "d-2" (Some "p2") mapping (Some 9)) (peek_loci bytes).
Proof.
  intros crypto mapping.
  destruct (@write_encrypted plain_decimal_text numeral_json_text plain_base64 parked_example crypto {["ssn"]}) as [bytes|e] eqn:E;
    [|vm_compute in E; discriminate E].
  assert (B : match raw_map bytes with Ok m => movableb mapping m | Err _ => false end = true)
    by (vm_compute in E; injection E as <-; vm_compute; reflexivity).
  destruct (raw_map bytes) as [m|e] eqn:R; [|discriminate B].
  destruct (migrate_pinned bytes "d-2" (Some "p2") mapping (Some 9)) as [bytes'|e] eqn:F;
    [|exfalso; vm_compute in E; injection E as <-; vm_compute in F; discriminate F].
  exists bytes, bytes'. split; [reflexivity|]. split; [exact F|].
  refine (proj1 (proj2 (migrate_moves_loci bytes "d-2" (Some "p2") mapping (Some 9) bytes' m F R _ _ _ _))).
  - apply movableb_true. exact B.
  - reflexivity.
  - intros p [= <-]. reflexivity.
  - intros s [= <-]. vm_compute. discriminate.
Defined.
