(* ===== verification/Migration.v ===== *)
(** * Validating an instance migration ([sutra-engine/src/migrate.rs])

    Moving a live instance onto another deployment is refused unless every node its
    durable state names — a wait frontier, a parked timer, a retry budget, the routed
    start — lands on a node of the target that can do there what a resume does.  The
    module models the node index of a deployment ([index_process], [shape_of]), the
    derivation of the loci from the durable facts ([derive_loci]) and the validator
    with its full report ([validate]).

    The theorems: the validator accepts exactly the admissible migrations
    ([validate_sound_complete]); and one thing it does not check, the renaming of the
    retry counters, can still lose a counter under a plan it accepts
    ([accepted_plan_loses_counter]). *)
From Stdlib Require Import ZArith Lia Bool Ascii String.
From stdpp Require Import base sorting option gmap strings list.
From S2P Require Import Prelude Texts Decimal FeelValue Temporal Timer ProcessModel FeelText Container Crypto SnapshotValue Snapshot SnapshotPatch.

Open Scope string_scope.
Open Scope list_scope.
Open Scope Z_scope.

(** ** Codes *)

Definition MIGRATE_PROCESS_ABSENT : string := "SUTRA.ADMIN.MIGRATE.PROCESS_ABSENT".
Definition MIGRATE_NODE_UNMAPPED : string := "SUTRA.ADMIN.MIGRATE.NODE_UNMAPPED".
Definition MIGRATE_NODE_INCOMPATIBLE : string := "SUTRA.ADMIN.MIGRATE.NODE_INCOMPATIBLE".
Definition MIGRATE_MAPPING_INVALID : string := "SUTRA.ADMIN.MIGRATE.MAPPING_INVALID".
Definition MIGRATE_INSTANCE_TERMINAL : string := "SUTRA.ADMIN.MIGRATE.INSTANCE_TERMINAL".
Definition MIGRATE_CROSS_PROCESS_UNMAPPED : string := "SUTRA.ADMIN.MIGRATE.CROSS_PROCESS_UNMAPPED".
Definition MIGRATE_RESUME_NOT_FAILED : string := "SUTRA.ADMIN.MIGRATE.RESUME_NOT_FAILED".
Definition MIGRATE_COMPLETED_NODE_ABSENT : string := "SUTRA.ADMIN.MIGRATE.COMPLETED_NODE_ABSENT".
Definition MIGRATE_FRONTIER_WITHOUT_WAIT_ROW : string := "SUTRA.ADMIN.MIGRATE.FRONTIER_WITHOUT_WAIT_ROW".
Definition MIGRATE_OUTBOX_PENDING_ON_SOURCE : string := "SUTRA.ADMIN.MIGRATE.OUTBOX_PENDING_ON_SOURCE".

(** ** The node index *)

Record NodeShape : Type := mk_shape {
  construct : string; relay_resumable : bool; timer_capable : bool;
  retryable_task : bool; continue_reply : bool; start_event : bool }.

Abbreviation ProcessNodeIndex := (gmap string NodeShape) (only parsing).

Definition construct_name (n : Node) : string :=
  match n with
  | StartEvent _ _ _ _ => "startEvent"
  | EndEvent _ _ => "endEvent"
  | TerminateEndEvent _ _ => "terminateEndEvent"
  | ErrorEvent _ _ _ => "errorEndEvent"
  | IntermediateThrowEvent _ _ _ _ _ => "intermediateThrowEvent"
  | LinkCatchEvent _ _ _ => "linkCatchEvent"
  | MessageCatchEvent _ _ _ _ => "messageCatchEvent"
  | TimerCatchEvent _ _ _ => "timerCatchEvent"
  | BoundaryEvent _ _ _ _ _ _ _ _ => "boundaryEvent"
  | ServiceTask _ _ _ _ _ _ => "serviceTask"
  | DataTask _ _ _ => "dataTask"
  | ScriptTask _ _ _ => "scriptTask"
  | ManualTask _ _ _ => "manualTask"
  | ReceiveTask _ _ _ _ => "receiveTask"
  | SendTask _ _ => "sendTask"
  | BusinessRuleTask _ _ _ => "businessRuleTask"
  | UserTask _ _ _ => "userTask"
  | CallActivity _ _ _ _ => "callActivity"
  | SubProcess _ _ _ => "subProcess"
  | TransactionSubProcess _ _ _ => "transaction"
  | AdHocSubProcess _ _ _ _ _ => "adHocSubProcess"
  | EventSubProcess _ _ _ _ _ => "eventSubProcess"
  | CancelEndEvent _ _ => "cancelEndEvent"
  | EventBasedGateway _ _ => "eventBasedGateway"
  | ExclusiveGateway _ _ _ => "exclusiveGateway"
  | InclusiveGateway _ _ _ => "inclusiveGateway"
  | ParallelGateway _ _ => "parallelGateway"
  | ComplexGateway _ _ _ _ => "complexGateway"
  | MultiInstance _ _ _ _ _ _ _ _ => "multiInstance"
  | StandardLoop _ _ _ _ _ _ => "standardLoop"
  end.

Definition shape_of (process : ProcessDefinition) (n : Node) : NodeShape :=
  let timer_catch := match n with TimerCatchEvent _ _ _ => true | _ => false end in
  mk_shape (construct_name n)
    (is_wait_state n && negb timer_catch)
    (timer_catch || match n with BoundaryEvent _ _ _ BoundaryTimer _ _ _ _ => true | _ => false end)
    (has_retry_policy process (node_id n)) (has_continue_reply process (node_id n))
    (match n with StartEvent _ _ _ _ => true | _ => false end).

(** The bodies of sub-processes are flattened into the same map; the activity inside
    a loop is indexed beside its wrapper, against the process around it. *)
Fixpoint index_process (process : ProcessDefinition) (out : ProcessNodeIndex) {struct process} : ProcessNodeIndex :=
  match process with
  | mk_process _ _ _ _ nodes _ _ _ _ _ _ _ _ _ _ =>
      (fix go (ns : list Node) (out : ProcessNodeIndex) {struct ns} : ProcessNodeIndex :=
        match ns with
        | [] => out
        | n :: ns =>
            let out := <[node_id n := shape_of process n]> out in
            go ns (match n with
                   | SubProcess _ _ inner | TransactionSubProcess _ _ inner
                   | AdHocSubProcess _ _ inner _ _ | EventSubProcess _ _ inner _ _ => index_process inner out
                   | MultiInstance _ _ inner _ _ _ _ _ | StandardLoop _ _ inner _ _ _ =>
                       <[node_id inner := shape_of process inner]> out
                   | _ => out
                   end)
        end) nodes out
  end.

Record DeploymentNodeIndex : Type := mk_node_index { index_processes : gmap string ProcessNodeIndex; tenant : string }.

Definition of_modules (modules : list ProcessModule) : DeploymentNodeIndex :=
  mk_node_index
    (fold_left (λ m p, <[process_id p := index_process p ∅]> m) (flat_map processes modules) ∅) "".

Definition with_tenant (i : DeploymentNodeIndex) (t : string) : DeploymentNodeIndex := mk_node_index (index_processes i) t.

Definition index_of_process (i : DeploymentNodeIndex) (process_id : string) : option ProcessNodeIndex :=
  index_processes i !! process_id.

Definition process_ids (i : DeploymentNodeIndex) : list string := map fst (btree_list (index_processes i)).

(** ** Loci and the compatibility matrix *)

Inductive LocusKind : Type := MessageWait | TimerWait | RetryPark | ContinueReplyPark | RoutedStart | RetryBudget.

#[export] Instance locus_kind_eq_dec : EqDecision LocusKind.
Proof. solve_decision. Defined.

(** The derived order of the enum: its declaration order. *)
Definition kind_rank (k : LocusKind) : Z :=
  match k with MessageWait => 0 | TimerWait => 1 | RetryPark => 2 | ContinueReplyPark => 3 | RoutedStart => 4 | RetryBudget => 5 end.

Definition label (k : LocusKind) : string :=
  match k with
  | MessageWait => "MESSAGE_WAIT" | TimerWait => "TIMER_WAIT" | RetryPark => "RETRY_PARK"
  | ContinueReplyPark => "CONTINUE_REPLY_PARK" | RoutedStart => "ROUTED_START" | RetryBudget => "RETRY_BUDGET"
  end.

Definition accepts (k : LocusKind) (shape : NodeShape) : bool :=
  match k with
  | MessageWait => relay_resumable shape
  | TimerWait => timer_capable shape
  | RetryPark | RetryBudget => retryable_task shape
  | ContinueReplyPark => continue_reply shape
  | RoutedStart => start_event shape
  end.

Definition requirement (k : LocusKind) : string :=
  match k with
  | MessageWait =>
      "a relay-resumable wait construct (userTask, intermediate message catch event, or a channel-call serviceTask)"
  | TimerWait =>
      "a timer-capable construct (timer catch event, timer boundary event, or a <q:timeout>-synthesized #timeout boundary)"
  | RetryPark => "a serviceTask carrying a <q:retry> policy (the park re-drives it)"
  | ContinueReplyPark =>
      "a node carrying <q:reply continue=" +:+ dq "true" +:+ "> (the park self-resumes its tail)"
  | RoutedStart => "a start event"
  | RetryBudget => "a node carrying a <q:retry> policy (it owns a burned attempt budget)"
  end.

Record Locus : Type := mk_locus { lo_kind : LocusKind; lo_source : string; lo_target : string }.

Record InstanceFacts : Type := mk_facts {
  fa_process_id : string; fa_status : string; fa_waiting_nodes : list string; fa_completed_nodes : list string;
  fa_start_node : string; fa_retry_nodes : gset string; fa_wait_rows : list (string * bool); fa_pending_outbox : Z }.

Record MigrationPlan : Type := mk_plan {
  pl_mapping : gmap string string; pl_target_process_id : option string; pl_dry_run : bool; pl_resume : bool }.

Definition target_process_for (plan : MigrationPlan) (process_id : string) : string :=
  match pl_target_process_id plan with
  | Some p => if str_is_empty p then process_id else p
  | None => process_id
  end.

Definition is_cross_process (plan : MigrationPlan) (process_id : string) : bool :=
  negb (String.eqb (target_process_for plan process_id) process_id).

Definition mapping_source (plan : MigrationPlan) : string :=
  if is_nil (map_to_list (pl_mapping plan)) then "identity" else "explicit".

(** ** The parks of an instance *)

Definition KIND_TIMER : string := "TIMER".
Definition KIND_MESSAGE : string := "MESSAGE".
Definition STATUS_WAITING : string := "WAITING".

(** A row of [waiting_event], with [OffsetDateTime] columns as instants. *)
Record InstanceWait : Type := mk_instance_wait {
  iw_node_id : string; iw_process_id : string; iw_kind : string; iw_status : string;
  iw_timer_due_at : option Z; iw_resolved_at : option Z }.

Definition max_instant (l : list Z) : option Z :=
  fold_left (λ acc x, Some (match acc with Some y => Z.max y x | None => x end)) l None.

Definition live_park_rows (status : string) (frontier : list string) (rows : list InstanceWait) : list (string * bool) :=
  let torn_down :=
    if String.eqb status STATUS_FAILED && negb (is_nil frontier) then max_instant (omap iw_resolved_at rows) else None in
  map (λ row, (iw_node_id row, String.eqb (iw_kind row) KIND_TIMER))
    (List.filter (λ row, String.eqb (iw_status row) STATUS_WAITING
       || (is_some torn_down && is_some (iw_resolved_at row) && bool_decide (iw_resolved_at row = torn_down))) rows).

(** ** The report *)

Record Finding : Type := mk_finding {
  fi_code : string; fi_source_node_id : option string; fi_target_node_id : option string; fi_detail : string }.

Definition finding_of (code detail : string) : Finding := mk_finding code None None detail.
Definition finding_at (code source target detail : string) : Finding := mk_finding code (Some source) (Some target) detail.

Record MigrationReport : Type := mk_report {
  rp_loci : list (Locus * option string); rp_violations : list Finding; rp_warnings : list Finding;
  rp_effective_mapping : gmap string string }.

Definition report_valid (r : MigrationReport) : bool := is_nil (rp_violations r).

(** ** The loci of an instance *)

Definition park_kind (facts : InstanceFacts) (source : option ProcessNodeIndex) (node_id : string) (is_timer : bool) : LocusKind :=
  if negb is_timer then MessageWait
  else if bool_decide (node_id ∈ fa_retry_nodes facts) && negb (existsb (String.eqb node_id) (fa_completed_nodes facts)) then RetryPark
  else if match p ← source; p !! node_id with Some shape => continue_reply shape | None => false end then ContinueReplyPark
  else TimerWait.

Definition row_kinds (facts : InstanceFacts) (source : option ProcessNodeIndex) : gmap string LocusKind :=
  fold_left (λ kinds row, <[row.1 := park_kind facts source row.1 row.2]> kinds) (fa_wait_rows facts) ∅.

Definition frontier_without_row (mapping : gmap string string) (node_id : string) : Finding :=
  finding_at MIGRATE_FRONTIER_WITHOUT_WAIT_ROW node_id (map_one mapping node_id)
    ("the snapshot's wait frontier names '" +:+ node_id +:+ "' but no waiting_event row backs it; the locus is migrated and validated as a message wait").

Fixpoint frontier_kinds (mapping : gmap string string) (waiting : list string) (kinds : gmap string LocusKind)
    (warnings : list Finding) : gmap string LocusKind * list Finding :=
  match waiting with
  | [] => (kinds, warnings)
  | n :: rest =>
      match kinds !! n with
      | Some _ => frontier_kinds mapping rest kinds warnings
      | None => frontier_kinds mapping rest (<[n := MessageWait]> kinds) (warnings ++ [frontier_without_row mapping n])
      end
  end.

(** [entry(node).or_insert(RetryBudget)] for each counter. *)
Definition budget_kinds (retry_nodes : gset string) (kinds : gmap string LocusKind) : gmap string LocusKind :=
  kinds ∪ gset_to_gmap RetryBudget retry_nodes.

Definition locus_leb (a b : Locus) : bool :=
  (kind_rank (lo_kind a) <? kind_rank (lo_kind b))
  || ((kind_rank (lo_kind a) =? kind_rank (lo_kind b)) && str_leb (lo_source a) (lo_source b)).

Definition sort_loci (l : list Locus) : list Locus := sort_by locus_leb l.

Definition derive_loci (facts : InstanceFacts) (source : option ProcessNodeIndex) (mapping : gmap string string)
    (warnings : list Finding) : list Locus * list Finding :=
  let '(kinds, warnings) := frontier_kinds mapping (fa_waiting_nodes facts) (row_kinds facts source) warnings in
  let kinds := budget_kinds (fa_retry_nodes facts) kinds in
  let loci := map (λ e, mk_locus e.2 e.1 (map_one mapping e.1)) (btree_list kinds) in
  let loci :=
    if str_is_empty (fa_start_node facts) then loci
    else loci ++ [mk_locus RoutedStart (fa_start_node facts) (map_one mapping (fa_start_node facts))] in
  (sort_loci loci, warnings).

(** ** The validator *)

Section Validate.
Context (facts : InstanceFacts) (source target : option ProcessNodeIndex) (target_process_ids : list string)
  (plan : MigrationPlan).

Definition terminal_violations : list Finding :=
  if is_terminal_status (fa_status facts) then
    [finding_of MIGRATE_INSTANCE_TERMINAL
       ("instance already reached " +:+ fa_status facts +:+ " — a finished instance is retained history, not live state, and migrating it would rewrite the record of where it ran")]
  else [].

Definition resume_violations : list Finding :=
  if pl_resume plan && negb (String.eqb (fa_status facts) STATUS_FAILED) then
    [finding_of MIGRATE_RESUME_NOT_FAILED
       ("'resume' was requested but the instance is " +:+ fa_status facts +:+ " — only a FAILED instance has failure state to clear and parks to re-arm; a suspended instance resumes by correlation or by its timers, with no operator action at all")]
  else [].

Definition cross_violation (l : Locus) : option Finding :=
  match pl_mapping plan !! lo_source l with
  | Some _ => None
  | None =>
      Some (finding_at MIGRATE_CROSS_PROCESS_UNMAPPED (lo_source l) (lo_target l)
        ("this is a CROSS-PROCESS migration ('" +:+ fa_process_id facts +:+ "' → '" +:+ target_process_for plan (fa_process_id facts) +:+ "'), so the " +:+ label (lo_kind l) +:+ " at '" +:+ lo_source l +:+ "' needs an explicit nodeMapping entry — identity is never implicit across process ids, even when the target happens to declare the same id"))
  end.

Definition cross_violations (loci : list Locus) : list Finding :=
  if is_cross_process plan (fa_process_id facts) then omap cross_violation loci else [].

Definition mapping_violation (loci : list Locus) (e : string * string) : option Finding :=
  if existsb (λ l, String.eqb (lo_source l) e.1) loci || existsb (String.eqb e.1) (fa_completed_nodes facts) then None
  else Some (finding_at MIGRATE_MAPPING_INVALID e.1 e.2
         ("nodeMapping names source node '" +:+ e.1 +:+ "', which this instance neither parks at nor has completed — the entry would do nothing")).

Definition mapping_violations (loci : list Locus) : list Finding :=
  omap (mapping_violation loci) (btree_list (pl_mapping plan)).

(** Whether the locus is a token position. *)
Definition is_park (l : Locus) : bool :=
  match lo_kind l with RoutedStart | RetryBudget => false | _ => true end.

Fixpoint fold_violations (seen : gmap string string) (loci : list Locus) : list Finding :=
  match loci with
  | [] => []
  | l :: rest =>
      if negb (is_park l) then fold_violations seen rest
      else
        let more := fold_violations (<[lo_target l := lo_source l]> seen) rest in
        match seen !! lo_target l with
        | Some previous =>
            finding_at MIGRATE_MAPPING_INVALID (lo_source l) (lo_target l)
              ("nodeMapping folds both '" +:+ previous +:+ "' and '" +:+ lo_source l +:+ "' onto target node '" +:+ lo_target l +:+ "' — two parked wait points cannot share one node") :: more
        | None => more
        end
  end.

Definition absent_violation : Finding :=
  finding_of MIGRATE_PROCESS_ABSENT
    ("the target deployment declares no process '" +:+ target_process_for plan (fa_process_id facts) +:+ "' (it declares: "
     +:+ (if is_nil target_process_ids then "none" else String.concat ", " target_process_ids) +:+ ")").

Definition locus_text (l : Locus) : string :=
  "the instance's " +:+ label (lo_kind l) +:+ " at '" +:+ lo_source l +:+ "' maps to '" +:+ lo_target l +:+ "', which ".

(** The construct a locus lands on, or the violation. *)
Definition check_locus (index : ProcessNodeIndex) (l : Locus) : Finding + string :=
  match index !! lo_target l with
  | None =>
      inl (finding_at MIGRATE_NODE_UNMAPPED (lo_source l) (lo_target l)
             (locus_text l +:+ "does not exist in the target process — supply a nodeMapping entry for it"))
  | Some shape =>
      if negb (accepts (lo_kind l) shape) then
        inl (finding_at MIGRATE_NODE_INCOMPATIBLE (lo_source l) (lo_target l)
               (locus_text l +:+ "is a <" +:+ construct shape +:+ "> — this locus needs " +:+ requirement (lo_kind l)))
      else inr (construct shape)
  end.

Definition completed_warning (index : ProcessNodeIndex) (n : string) : option Finding :=
  let mapped := map_one (pl_mapping plan) n in
  match index !! mapped with
  | Some _ => None
  | None =>
      Some (finding_at MIGRATE_COMPLETED_NODE_ABSENT n mapped
        ("completed node '" +:+ n +:+ "' maps to '" +:+ mapped +:+ "', which the target process does not declare; replay-as-done matches by id, so if the target still reaches that node it will be EXECUTED again on the next resume"))
  end.

Definition outbox_warnings : list Finding :=
  if positive (fa_pending_outbox facts) then
    [finding_of MIGRATE_OUTBOX_PENDING_ON_SOURCE
       (dec_string (fa_pending_outbox facts) +:+ " pending outbox row(s) stay pinned to the SOURCE deployment — they were minted by its channel bindings and are dispatched against them (the dispatcher covers draining deployments), so they drain where they were made")]
  else [].

Definition effective_mapping (loci : list (Locus * option string)) : gmap string string :=
  let out := fold_left (λ m l, <[lo_source l.1 := lo_target l.1]> m) loci (∅ : gmap string string) in
  let out := fold_left (λ m n, match m !! n with Some _ => m | None => <[n := n]> m end) (fa_completed_nodes facts) out in
  pl_mapping plan ∪ out.

Definition validate : MigrationReport :=
  let '(loci, warnings) := derive_loci facts source (pl_mapping plan) [] in
  let violations := terminal_violations ++ resume_violations ++ cross_violations loci ++ mapping_violations loci
                      ++ fold_violations ∅ loci in
  match target with
  | None =>
      let checked := map (λ l, (l, None)) loci in
      mk_report checked (violations ++ [absent_violation]) warnings (effective_mapping checked)
  | Some index =>
      let checked := map (λ l, (l, match check_locus index l with inr c => Some c | inl _ => None end)) loci in
      mk_report checked
        (violations ++ omap (λ l, match check_locus index l with inl f => Some f | inr _ => None end) loci)
        (warnings ++ omap (completed_warning index) (fa_completed_nodes facts) ++ outbox_warnings)
        (effective_mapping checked)
  end.
End Validate.

(** ** Outcomes *)

Inductive MigrationOutcome : Type := Migrated | DryRunValid | Refused | Bounced | NotFound | AttemptError.

Definition outcome_label (o : MigrationOutcome) : string :=
  match o with
  | Migrated => "MIGRATED" | DryRunValid => "VALID" | Refused => "REFUSED"
  | Bounced => "BOUNCED" | NotFound => "NOT_FOUND" | AttemptError => "ERROR"
  end.

Definition retry_safe (o : MigrationOutcome) : bool := match o with Bounced => true | _ => false end.

Definition http_status (o : MigrationOutcome) : Z :=
  match o with Migrated | DryRunValid => 200 | Refused => 422 | Bounced => 409 | NotFound => 404 | AttemptError => 500 end.

Definition BATCH_LIMIT_DEFAULT : Z := 100.
Definition BATCH_LIMIT_MAX : Z := 1000.

(** ** What the validator decides *)

(** The row of a node: rows are keyed by node, and a later one would replace an earlier. *)
Definition last_row (rows : list (string * bool)) (n : string) : option bool :=
  fold_left (λ acc row, if String.eqb row.1 n then Some row.2 else acc) rows None.

(** The kind of the live locus at a node, from the durable facts alone: its row
    decides; without a row the frontier makes it a message wait; and a counter with
    neither is a budget. *)
Definition node_kind (facts : InstanceFacts) (source : option ProcessNodeIndex) (n : string) : option LocusKind :=
  match last_row (fa_wait_rows facts) n with
  | Some is_timer => Some (park_kind facts source n is_timer)
  | None =>
      if existsb (String.eqb n) (fa_waiting_nodes facts) then Some MessageWait
      else if bool_decide (n ∈ fa_retry_nodes facts) then Some RetryBudget
      else None
  end.

(** Node [n] is a live locus of kind [k]. *)
Definition locus_at (facts : InstanceFacts) (source : option ProcessNodeIndex) (n : string) (k : LocusKind) : Prop :=
  node_kind facts source n = Some k ∨ (k = RoutedStart ∧ n = fa_start_node facts ∧ n ≠ "").

(** The migrations that may go ahead. *)
Record admissible (facts : InstanceFacts) (source : option ProcessNodeIndex) (index : ProcessNodeIndex)
    (plan : MigrationPlan) : Prop := {
  ad_live : is_terminal_status (fa_status facts) = false;
  ad_resume : pl_resume plan = true → fa_status facts = STATUS_FAILED;
  ad_hosted n k : locus_at facts source n k →
    ∃ shape, index !! map_one (pl_mapping plan) n = Some shape ∧ accepts k shape = true;
  ad_explicit n k : is_cross_process plan (fa_process_id facts) = true → locus_at facts source n k →
    is_Some (pl_mapping plan !! n);
  ad_parks n n' k k' : node_kind facts source n = Some k → node_kind facts source n' = Some k' →
    k ≠ RetryBudget → k' ≠ RetryBudget →
    map_one (pl_mapping plan) n = map_one (pl_mapping plan) n' → n = n';
  ad_named n : is_Some (pl_mapping plan !! n) → (∃ k, locus_at facts source n k) ∨ n ∈ fa_completed_nodes facts
}.

Lemma lookup_row_kinds_from facts source rows (kinds : gmap string LocusKind) (acc : option bool) n :
  kinds !! n = park_kind facts source n <$> acc →
  fold_left (λ kinds row, <[row.1 := park_kind facts source row.1 row.2]> kinds) rows kinds !! n =
  park_kind facts source n <$> fold_left (λ acc row, if String.eqb row.1 n then Some row.2 else acc) rows acc.
Proof.
  revert kinds acc. induction rows as [|[m t] rows IH]; intros kinds acc Hk; [done|]. simpl. apply IH.
  destruct (String.eqb_spec m n) as [->|Hne]; [by rewrite lookup_insert_eq|by rewrite lookup_insert_ne].
Qed.

Lemma lookup_row_kinds facts source n :
  row_kinds facts source !! n = park_kind facts source n <$> last_row (fa_wait_rows facts) n.
Proof. by apply lookup_row_kinds_from. Qed.

Lemma lookup_frontier_kinds mapping waiting kinds warnings n :
  (frontier_kinds mapping waiting kinds warnings).1 !! n =
  match kinds !! n with Some k => Some k | None => if existsb (String.eqb n) waiting then Some MessageWait else None end.
Proof.
  revert kinds warnings. induction waiting as [|m waiting IH]; intros kinds warnings; simpl; [by destruct (kinds !! n)|].
  destruct (kinds !! m) as [k|] eqn:E; rewrite IH.
  - destruct (String.eqb_spec n m) as [->|Hne]; [by rewrite E|done].
  - destruct (String.eqb_spec n m) as [->|Hne]; [by rewrite lookup_insert_eq, E|by rewrite lookup_insert_ne].
Qed.

Section Derived.
Context (facts : InstanceFacts) (source : option ProcessNodeIndex) (mapping : gmap string string) (warnings : list Finding).

Definition node_kinds : gmap string LocusKind :=
  budget_kinds (fa_retry_nodes facts) (frontier_kinds mapping (fa_waiting_nodes facts) (row_kinds facts source) warnings).1.

Definition node_loci : list Locus := map (λ e, mk_locus e.2 e.1 (map_one mapping e.1)) (btree_list node_kinds).

Definition start_loci : list Locus :=
  if str_is_empty (fa_start_node facts) then []
  else [mk_locus RoutedStart (fa_start_node facts) (map_one mapping (fa_start_node facts))].

Lemma lookup_node_kinds n : node_kinds !! n = node_kind facts source n.
Proof.
  unfold node_kinds, budget_kinds, node_kind. rewrite lookup_union, lookup_frontier_kinds, lookup_row_kinds, lookup_gset_to_gmap.
  destruct (last_row (fa_wait_rows facts) n) as [t|]; simpl.
  - by case_guard.
  - destruct (existsb _ _); case_guard; try case_bool_decide; done.
Qed.

Lemma derived_perm : (derive_loci facts source mapping warnings).1 ≡ₚ node_loci ++ start_loci.
Proof.
  unfold derive_loci, node_loci, start_loci, node_kinds. destruct (frontier_kinds _ _ _ _) as [kinds ws]. cbn [fst].
  unfold sort_loci. rewrite sort_by_perm. destruct (str_is_empty (fa_start_node facts)); [by rewrite app_nil_r|done].
Qed.

Lemma elem_of_node_loci l :
  l ∈ node_loci ↔ node_kind facts source (lo_source l) = Some (lo_kind l) ∧ lo_target l = map_one mapping (lo_source l).
Proof.
  unfold node_loci. rewrite list_elem_of_fmap. split.
  - intros ([n k] & -> & Hk%elem_of_btree_list). simpl. by rewrite <-lookup_node_kinds.
  - destruct l as [k n t]. simpl. intros [Hk ->]. exists (n, k). split; [done|]. apply elem_of_btree_list. by rewrite lookup_node_kinds.
Qed.

Lemma elem_of_derived l :
  l ∈ (derive_loci facts source mapping warnings).1 ↔
  locus_at facts source (lo_source l) (lo_kind l) ∧ lo_target l = map_one mapping (lo_source l).
Proof.
  rewrite derived_perm, elem_of_app, elem_of_node_loci. unfold locus_at, start_loci. destruct l as [k n t]. simpl. split.
  - intros [[Hk ->]|Hs]; [by auto|]. destruct (fa_start_node facts) as [|c s] eqn:E; [by apply elem_of_nil in Hs|].
    apply list_elem_of_singleton in Hs. injection Hs as -> -> ->. split; [right|]; done.
  - intros [[Hk|(-> & -> & Hne)] ->]; [by left|right]. destruct (fa_start_node facts); [done|]. apply list_elem_of_singleton. done.
Qed.

Lemma node_loci_sources : NoDup (map lo_source node_loci).
Proof.
  unfold node_loci. rewrite map_map. change (NoDup (map (λ e : string * LocusKind, fst e) (btree_list node_kinds))).
  apply btree_list_nodup.
Qed.
End Derived.

Lemma omap_nil {A B} (f : A → option B) l : omap f l = [] ↔ ∀ x, x ∈ l → f x = None.
Proof.
  induction l as [|x l IH]; [split; [by intros _ y Hy%elem_of_nil|done]|]. simpl. split.
  - destruct (f x) eqn:E; [done|]. intros Hl y [->|Hy]%elem_of_cons; [done|]. by apply IH.
  - intros Hl. rewrite (Hl x) by (by left). apply IH. intros y Hy. apply Hl. by right.
Qed.

Lemma elem_of_filter_b {A} (f : A → bool) l x : x ∈ List.filter f l ↔ f x = true ∧ x ∈ l.
Proof. rewrite !list_elem_of_In, filter_In. naive_solver. Qed.

Lemma fold_violations_nil seen loci :
  fold_violations seen loci = [] ↔
  NoDup (map lo_target (List.filter is_park loci)) ∧ ∀ l, l ∈ loci → is_park l = true → seen !! lo_target l = None.
Proof.
  revert seen. induction loci as [|l loci IH]; intros seen; simpl.
  { split; [|done]. intros _. split; [constructor|by intros l Hl%elem_of_nil]. }
  destruct (is_park l) eqn:Ep; cbn [negb].
  - cbn [map]. rewrite NoDup_cons. split.
    + destruct (seen !! lo_target l) as [p|] eqn:Es; [done|]. intros [Hnd Hs]%IH. split; [split; [|done]|].
      * intros (y & Hy & [Hp Hin]%elem_of_filter_b)%list_elem_of_fmap. specialize (Hs y Hin Hp).
        rewrite <-Hy, lookup_insert_eq in Hs. done.
      * intros y [->|Hy]%elem_of_cons Hp; [done|]. specialize (Hs y Hy Hp).
        destruct (decide (lo_target y = lo_target l)) as [E|E]; [by rewrite E|]. by rewrite lookup_insert_ne in Hs.
    + intros [[Hn Hnd] Hs]. rewrite (Hs l) by (by left || done). apply IH. split; [done|]. intros y Hy Hp.
      destruct (decide (lo_target y = lo_target l)) as [E|E].
      * exfalso. apply Hn. rewrite <-E. apply list_elem_of_fmap_2, elem_of_filter_b. done.
      * rewrite lookup_insert_ne by done. apply Hs; [by right|done].
  - rewrite IH. split; intros [Hnd Hs]; (split; [done|]).
    + intros y [->|Hy]%elem_of_cons Hp; [congruence|by apply Hs].
    + intros y Hy Hp. apply Hs; [by right|done].
Qed.

Lemma filter_perm {A} (f : A → bool) l l' : l ≡ₚ l' → List.filter f l ≡ₚ List.filter f l'.
Proof.
  induction 1 as [|x l l' _ IH|x y l|l1 l2 l3 _ IH1 _ IH2]; simpl; [done| | |by rewrite IH1].
  - destruct (f x); by rewrite IH.
  - destruct (f x), (f y); try done. apply perm_swap.
Qed.

Lemma park_kinds facts source n k : node_kind facts source n = Some k → is_park (mk_locus k n "") = true ↔ k ≠ RetryBudget.
Proof.
  intros Hk. unfold is_park. cbn [lo_kind]. destruct k; try (split; done).
  unfold node_kind, park_kind in Hk. repeat case_match; try done; congruence.
Qed.

(** No two parks on one target node. *)
Lemma fold_violations_parks facts source mapping warnings :
  fold_violations ∅ (derive_loci facts source mapping warnings).1 = [] ↔
  ∀ n n' k k', node_kind facts source n = Some k → node_kind facts source n' = Some k' →
    k ≠ RetryBudget → k' ≠ RetryBudget → map_one mapping n = map_one mapping n' → n = n'.
Proof.
  rewrite fold_violations_nil. set (loci := node_loci facts source mapping warnings).
  assert (Hp : map lo_target (List.filter is_park (derive_loci facts source mapping warnings).1)
    ≡ₚ map lo_target (List.filter is_park loci)).
  { apply Permutation_map. rewrite (filter_perm _ _ _ (derived_perm facts source mapping warnings)).
    rewrite List.filter_app. unfold start_loci. case_if; simpl; by rewrite app_nil_r. }
  rewrite Hp. assert (Hnd : NoDup (List.filter is_park loci)).
  { apply NoDup_ListNoDup, List.NoDup_filter, NoDup_ListNoDup.
    apply (NoDup_fmap_1 lo_source). apply node_loci_sources. }
  split.
  - intros [Ht _] n n' k k' Hk Hk' Hb Hb' E.
    assert (Hin : ∀ m j, node_kind facts source m = Some j → j ≠ RetryBudget →
      mk_locus j m (map_one mapping m) ∈ List.filter is_park loci).
    { intros m j Hm Hj. apply elem_of_filter_b. split; [by apply (park_kinds facts source m j Hm)|].
      apply elem_of_node_loci. done. }
    by assert (mk_locus k n (map_one mapping n) = mk_locus k' n' (map_one mapping n')) as [= _ ->]
      by (apply (nodup_map_inj lo_target _ _ _ Ht); auto).
  - intros Hi. split; [|by intros; rewrite lookup_empty]. apply (NoDup_fmap_2_strong lo_target); [|done].
    intros [k n t] [k' n' t'] [Hp1 [Hk Et]%elem_of_node_loci]%elem_of_filter_b [Hp2 [Hk' Et']%elem_of_node_loci]%elem_of_filter_b E.
    simpl in *. subst t t'. assert (n = n') as ->; [|congruence].
    apply (Hi n n' k k' Hk Hk'); [by apply (park_kinds facts source n k Hk)|by apply (park_kinds facts source n' k' Hk')|done].
Qed.

Lemma is_nil_true {A} (l : list A) : is_nil l = true ↔ l = [].
Proof. by destruct l. Qed.

Section Verdict.
Context (facts : InstanceFacts) (source : option ProcessNodeIndex) (plan : MigrationPlan).

Let loci := (derive_loci facts source (pl_mapping plan) []).1.

Lemma locus_derived n k :
  locus_at facts source n k → mk_locus k n (map_one (pl_mapping plan) n) ∈ loci.
Proof. intros Hl. by apply elem_of_derived. Qed.

Lemma terminal_nil : terminal_violations facts = [] ↔ is_terminal_status (fa_status facts) = false.
Proof. unfold terminal_violations. by destruct (is_terminal_status _). Qed.

Lemma resume_nil : resume_violations facts plan = [] ↔ (pl_resume plan = true → fa_status facts = STATUS_FAILED).
Proof.
  unfold resume_violations. destruct (pl_resume plan); [|done].
  destruct (String.eqb_spec (fa_status facts) STATUS_FAILED) as [E|E]; simpl; split; auto; done || naive_solver.
Qed.

Lemma cross_nil :
  cross_violations facts plan loci = [] ↔
  (∀ n k, is_cross_process plan (fa_process_id facts) = true → locus_at facts source n k → is_Some (pl_mapping plan !! n)).
Proof.
  unfold cross_violations. destruct (is_cross_process _ _); [|split; done]. rewrite omap_nil. split.
  - intros Hl n k _ Hk. specialize (Hl _ (locus_derived n k Hk)). unfold cross_violation in Hl. cbn [lo_source] in Hl.
    destruct (pl_mapping plan !! n) as [t|]; [by exists t|done].
  - intros Hs l [Hl _]%elem_of_derived. unfold cross_violation. by destruct (Hs _ _ eq_refl Hl) as [t ->].
Qed.

Lemma mapping_nil :
  mapping_violations facts plan loci = [] ↔
  (∀ n, is_Some (pl_mapping plan !! n) → (∃ k, locus_at facts source n k) ∨ n ∈ fa_completed_nodes facts).
Proof.
  unfold mapping_violations. rewrite omap_nil.
  assert (Hl : ∀ n, existsb (λ l, String.eqb (lo_source l) n) loci = true ↔ ∃ k, locus_at facts source n k).
  { intros n. rewrite existsb_exists. split.
    - intros (l & Hin%list_elem_of_In & <-%String.eqb_eq). apply elem_of_derived in Hin as [Hin _]. by exists (lo_kind l).
    - intros [k Hk]. eexists. split; [apply list_elem_of_In, (locus_derived _ _ Hk)|]. apply String.eqb_refl. }
  unfold mapping_violation. split.
  - intros Hm n [t Ht]. specialize (Hm (n, t)). cbn [fst snd] in Hm. rewrite elem_of_btree_list in Hm. specialize (Hm Ht).
    destruct (existsb _ loci) eqn:E1; [left; by apply Hl|]. destruct (existsb _ (fa_completed_nodes facts)) eqn:E2; [|done].
    right. by apply existsb_in.
  - intros Hm [n t] Ht%elem_of_btree_list. cbn [fst snd]. destruct (Hm n) as [Hk|Hc]; [by exists t| |].
    + by rewrite (proj2 (Hl n) Hk).
    + rewrite (proj2 (existsb_in _ _) Hc). by rewrite orb_true_r.
Qed.

Lemma hosted_nil index :
  omap (λ l, match check_locus index l with inl f => Some f | inr _ => None end) loci = [] ↔
  (∀ n k, locus_at facts source n k → ∃ shape, index !! map_one (pl_mapping plan) n = Some shape ∧ accepts k shape = true).
Proof.
  rewrite omap_nil. unfold check_locus. split.
  - intros Hl n k Hk. specialize (Hl _ (locus_derived n k Hk)). cbn [lo_target lo_kind] in Hl.
    destruct (index !! _) as [shape|]; [|done]. exists shape. split; [done|]. by destruct (accepts k shape).
  - intros Hs l [Hl Ht]%elem_of_derived. destruct (Hs _ _ Hl) as (shape & Hi & Ha). by rewrite Ht, Hi, Ha.
Qed.

Lemma validate_valid target target_process_ids :
  report_valid (validate facts source target target_process_ids plan) = true ↔
  ∃ index, target = Some index ∧ admissible facts source index plan.
Proof.
  unfold report_valid. rewrite is_nil_true. unfold validate.
  rewrite (surjective_pairing (derive_loci facts source (pl_mapping plan) [])). fold loci. cbv iota.
  destruct target as [index|]; cbn [rp_violations].
  - rewrite !app_nil, terminal_nil, resume_nil, cross_nil, mapping_nil, hosted_nil. unfold loci. rewrite fold_violations_parks.
    split; [|by intros (i & [= <-] & [])]. intros ((Ht & Hr & Hc & Hm & Hf) & Hh). exists index. by split.
  - split; [by intros [_ ?]%app_nil|by intros (? & ? & _)].
Qed.
End Verdict.

Lemma effective_maps facts plan loci n :
  (∀ l, l ∈ loci → lo_target l.1 = map_one (pl_mapping plan) (lo_source l.1)) →
  map_one (effective_mapping facts plan loci) n = map_one (pl_mapping plan) n.
Proof.
  intros Hl. unfold effective_mapping.
  set (inv := λ m : gmap string string, ∀ n t, m !! n = Some t → t = map_one (pl_mapping plan) n ∨ t = n).
  assert (H0 : ∀ m : gmap string string, inv m →
    inv (fold_left (λ m l, <[lo_source l.1 := lo_target l.1]> m) loci m)).
  { induction loci as [|l ls IH]; intros m Hm; [done|]. simpl. apply IH; [intros; apply Hl; by right|].
    intros x t. destruct (decide (x = lo_source l.1)) as [->|]; [rewrite lookup_insert_eq; intros [= <-]; left; apply Hl; by left|].
    rewrite lookup_insert_ne by done. apply Hm. }
  assert (H1 : ∀ ns (m : gmap string string), inv m →
    inv (fold_left (λ m n, match m !! n with Some _ => m | None => <[n := n]> m end) ns m)).
  { induction ns as [|x ns IH]; intros m Hm; [done|]. simpl. apply IH. destruct (m !! x); [done|].
    intros y t. destruct (decide (y = x)) as [->|]; [rewrite lookup_insert_eq; intros [= <-]; by right|].
    rewrite lookup_insert_ne by done. apply Hm. }
  specialize (H1 (fa_completed_nodes facts) _ (H0 ∅ ltac:(intros ? ?; by rewrite lookup_empty))).
  set (out := fold_left _ (fa_completed_nodes facts) _) in *. unfold map_one. rewrite lookup_union.
  destruct (pl_mapping plan !! n) as [t|] eqn:E; [by destruct (out !! n)|]. rewrite (left_id_L None union).
  destruct (out !! n) as [t|] eqn:Eo; [|done]. simpl. apply H1 in Eo as [->| ->]; [|done]. unfold map_one. by rewrite E.
Qed.

Lemma validate_effective facts source target target_process_ids plan n :
  map_one (rp_effective_mapping (validate facts source target target_process_ids plan)) n = map_one (pl_mapping plan) n.
Proof.
  unfold validate. rewrite (surjective_pairing (derive_loci _ _ _ _)). cbv iota.
  destruct target as [index|]; cbn [rp_effective_mapping]; apply effective_maps;
    intros l (x & -> & [_ Ht]%elem_of_derived)%list_elem_of_fmap; exact Ht.
Qed.

Lemma last_row_some rows n t : (n, t) ∈ rows → is_Some (last_row rows n).
Proof.
  unfold last_row. generalize (@None bool) as acc. induction rows as [|[m u] rows IH]; intros acc; [by intros Hin%elem_of_nil|].
  intros [[= <- <-]|Hin]%elem_of_cons; [|by apply IH]. simpl. rewrite String.eqb_refl.
  clear IH. revert t. induction rows as [|[m' u'] rows IH]; intros t; [by exists t|]. simpl.
  destruct (String.eqb m' n); apply IH.
Qed.

(** What [migrate_one] hands to the validator ([server.rs]). *)
Definition instance_facts (loci : SnapshotLoci) (rows : list InstanceWait) (pending_outbox : Z) : InstanceFacts :=
  mk_facts (sl_process_id loci) (sl_status loci) (sl_waiting_nodes loci) (sl_completed_nodes loci) (sl_start_node loci)
    (sl_retry_nodes loci) (live_park_rows (sl_status loci) (sl_waiting_nodes loci) rows) pending_outbox.

(** ** Properties *)


Definition retry_shape : NodeShape := mk_shape "serviceTask" false false true false false.
Definition wait_shape : NodeShape := mk_shape "userTask" true false false false false.

(** An instance parked at [approve], with attempts burned by two tasks of other branches. *)
Definition retried_example : InstanceSnapshot :=
  with_retry_attempts {["Task_1" := 1; "Task_2" := 2]} (of_suspended "orders" "dep-1" ["start"] ∅ ["approve"] "" 7).

(** The new model put a task in front: each old task is the next one there. *)
Definition shift_plan : MigrationPlan := mk_plan {["Task_1" := "Task_2"; "Task_2" := "Task_3"]} None false false.

Definition shift_report (loci : SnapshotLoci) : MigrationReport :=
  validate (instance_facts loci [mk_instance_wait "approve" "orders" KIND_MESSAGE STATUS_WAITING None None] 0)
    (Some {["Task_1" := retry_shape; "Task_2" := retry_shape; "approve" := wait_shape]})
    (Some {["Task_2" := retry_shape; "Task_3" := retry_shape; "approve" := wait_shape]}) ["orders"] shift_plan.

(** C35: a plan the validator accepts can lose a retry counter.  The mapping takes
    [Task_1] to [Task_2] and [Task_2] to [Task_3]; the report is clean; but the keys
    are renamed one after the other in the same map, so the counter of [Task_1]
    overwrites that of [Task_2] and is then itself carried on to [Task_3]: of the two
    counters one is left, on the wrong task. *)
Theorem accepted_plan_loses_counter :
  ∃ bytes bytes' loci m',
    @write plain_decimal_text numeral_json_text plain_base64 retried_example = Ok bytes ∧
    peek_loci bytes = Ok loci ∧ sl_retry_nodes loci = {["Task_1"; "Task_2"]} ∧
    report_valid (shift_report loci) = true ∧
    migrate_pinned bytes "dep-2" None (rp_effective_mapping (shift_report loci)) (Some 8) = Ok bytes' ∧
    raw_map bytes' = Ok m' ∧
    m' !! (K_RETRY_PREFIX +:+ "Task_2") = None ∧ m' !! (K_RETRY_PREFIX +:+ "Task_3") = Some "1".
Proof.
  assert (B : match @write plain_decimal_text numeral_json_text plain_base64 retried_example with
    | Ok bytes => match peek_loci bytes with
      | Ok loci => match migrate_pinned bytes "dep-2" None (rp_effective_mapping (shift_report loci)) (Some 8) with
        | Ok bytes' => match raw_map bytes' with
          | Ok m' => bool_decide (sl_retry_nodes loci = {["Task_1"; "Task_2"]}) && report_valid (shift_report loci) &&
              bool_decide (m' !! (K_RETRY_PREFIX +:+ "Task_2") = None) && bool_decide (m' !! (K_RETRY_PREFIX +:+ "Task_3") = Some "1")
          | Err _ => false end
        | Err _ => false end
      | Err _ => false end
    | Err _ => false end = true) by (vm_compute; reflexivity).
  destruct (write retried_example) as [bytes|] eqn:Ew; [|done]. destruct (peek_loci bytes) as [loci|] eqn:El; [|done].
  destruct (migrate_pinned _ _ _ _ _) as [bytes'|] eqn:Em; [|done]. destruct (raw_map bytes') as [m'|] eqn:Er; [|done].
  rewrite !andb_true_iff, !bool_decide_eq_true in B. destruct B as [[[B1 B2] B3] B4].
  exists bytes, bytes', loci, m'. repeat split; assumption.
Qed.
