(* ===== verification/Stores.v ===== *)
(** * The PostgreSQL stores ([sutra-persistence/src/stores/])

    One module per table: [Instance] ([instance_state]), [Wait] ([waiting_event]),
    [Alias] ([alias_index]), [Subject] ([subject_index]), [Inbox] ([inbox_seen]),
    [Outbox] ([outbox_entry]) and [Journal] ([audit_event]).  A table is a finite map
    from its primary key to the other columns; an operation is the effect of its SQL
    statement on the map, with the number of rows it reports.  Instants are whole
    microseconds, [CURRENT_TIMESTAMP] is the argument [now], and a row another
    transaction has locked is an element of the argument [locked] of a statement with
    [SKIP LOCKED].  Where SQL leaves the order of equal rows open, the model takes the
    order of the keys, or a parameter ([Alias.pick]) where a theorem must not depend
    on it.  Row-level security repeats the deployment predicate every statement
    already has and is not modelled.

    The theorems about these tables are in [Leases], for claims and leases under
    interleaved replicas, and in [Steps], for the transactions made of them. *)
From Stdlib Require Import ZArith Lia Bool Ascii String.
From stdpp Require Import base countable sorting option gmap fin_maps strings list.
From S2P Require Import Prelude Texts.

Open Scope string_scope.
Open Scope list_scope.
Open Scope Z_scope.

(** ** [instance_state] *)

Module Instance.
Record Row : Type := mk_row {
  serialised : string; updated_at : Z; terminal_at : option Z;
  claim_owner : option string; claimed_at : option Z; last_heartbeat_at : option Z }.

(** Keyed by deployment and instance. *)
Abbreviation Table := (gmap (string * string) Row) (only parsing).

Definition with_claim (owner : option string) (at_ : option Z) (r : Row) : Row :=
  mk_row (serialised r) (updated_at r) (terminal_at r) owner at_ at_.

(** [SQL_UPSERT]: the claim and the terminal stamp of an existing row stay. *)
Definition persist_in (now : Z) (dep id bytes : string) (t : Table) : Table :=
  match t !! (dep, id) with
  | Some r => <[(dep, id) := mk_row bytes now (terminal_at r) (claim_owner r) (claimed_at r) (last_heartbeat_at r)]> t
  | None => <[(dep, id) := mk_row bytes now None None None None]> t
  end.

Definition load (dep id : string) (t : Table) : option string := serialised <$> t !! (dep, id).

(** [load_owned_for_update]: the bytes, the owner, whether the row is terminal. *)
Definition load_owned_for_update (dep id : string) (t : Table) : option (string * option string * bool) :=
  (λ r, (serialised r, claim_owner r, is_some (terminal_at r))) <$> t !! (dep, id).

Definition is_active (r : Row) : bool := negb (is_some (terminal_at r)).

Definition count_active (dep : string) (t : Table) : Z :=
  Z.of_nat (length (List.filter (λ e, String.eqb e.1.1 dep && is_active e.2) (map_to_list t))).

Definition delete_row (dep id : string) (t : Table) : Table := delete (dep, id) t.

Definition may_claim (owner : string) (r : Row) : bool :=
  match claim_owner r with None => true | Some o => String.eqb o owner end.

(** [SQL_CLAIM]: unowned, or already ours. *)
Definition claim (now : Z) (owner dep id : string) (t : Table) : bool * Table :=
  match t !! (dep, id) with
  | Some r => if may_claim owner r then (true, <[(dep, id) := with_claim (Some owner) (Some now) r]> t) else (false, t)
  | None => (false, t)
  end.

Definition owned_by (owner : string) (r : Row) : bool :=
  match claim_owner r with Some o => String.eqb o owner | None => false end.

(** An update of the one row the owner holds: the rows updated and the table. *)
Definition update_owned (owner dep id : string) (f : Row → Row) (t : Table) : Z * Table :=
  match t !! (dep, id) with
  | Some r => if owned_by owner r then (1, <[(dep, id) := f r]> t) else (0, t)
  | None => (0, t)
  end.

Definition heartbeat (now : Z) (owner dep id : string) (t : Table) : Z * Table :=
  update_owned owner dep id
    (λ r, mk_row (serialised r) (updated_at r) (terminal_at r) (claim_owner r) (claimed_at r) (Some now)) t.

Definition release_in (owner dep id : string) (t : Table) : Z * Table :=
  update_owned owner dep id (with_claim None None) t.

Definition is_stuck (now timeout : Z) (r : Row) : bool :=
  match last_heartbeat_at r with Some h => h <? now - timeout | None => false end.

Definition sweep_stuck (now timeout : Z) (dep : string) (t : Table) : Z * Table :=
  (Z.of_nat (length (List.filter (λ e, String.eqb e.1.1 dep && is_stuck now timeout e.2) (map_to_list t))),
   map_imap (λ k r, Some (if String.eqb k.1 dep && is_stuck now timeout r then with_claim None None r else r)) t).

(** [SQL_MARK_TERMINAL]: whoever owns the row. *)
Definition mark_terminal_in (now : Z) (dep id bytes : string) (t : Table) : Z * Table :=
  match t !! (dep, id) with
  | Some _ => (1, <[(dep, id) := mk_row bytes now (Some now) None None None]> t)
  | None => (0, t)
  end.

Definition is_expired (now retention : Z) (r : Row) : bool :=
  match terminal_at r with Some at_ => at_ <=? now - retention | None => false end.

Definition purge_terminal_except (now retention : Z) (dep : string) (keep : list string) (t : Table) : Table :=
  map_imap (λ k r, if String.eqb k.1 dep && is_expired now retention r && negb (existsb (String.eqb k.2) keep) then None else Some r) t.

Definition purge_terminal (now retention : Z) (dep : string) (t : Table) : Table :=
  purge_terminal_except now retention dep [] t.
End Instance.

(** ** [waiting_event] *)

Module Wait.
Definition STATUS_WAITING : string := "WAITING".
Definition STATUS_RESOLVED : string := "RESOLVED".
Definition KIND_MESSAGE : string := "MESSAGE".
Definition KIND_TIMER : string := "TIMER".

Record Row : Type := mk_row {
  process_id : string; correlation_key : option string; status : string; created_at : Z;
  resolved_at : option Z; kind : string; timer_due_at : option Z }.

(** Keyed by deployment, instance and node. *)
Abbreviation Table := (gmap (string * string * string) Row) (only parsing).

(** [SQL_RECORD]: the kind and the due time of an existing row stay. *)
Definition record_waiting_in (now : Z) (dep inst process node : string) (key : option string) (t : Table) : Table :=
  <[(dep, inst, node) :=
     match t !! (dep, inst, node) with
     | Some r => mk_row process key STATUS_WAITING (created_at r) None (kind r) (timer_due_at r)
     | None => mk_row process key STATUS_WAITING now None KIND_MESSAGE None
     end]> t.

(** [SQL_RECORD_FRESH]: the kind and the due time are reset. *)
Definition record_waiting_fresh_in (now : Z) (dep inst process node : string) (key : option string) (t : Table) : Table :=
  <[(dep, inst, node) :=
     mk_row process key STATUS_WAITING (match t !! (dep, inst, node) with Some r => created_at r | None => now end)
       None KIND_MESSAGE None]> t.

(** [SQL_RECORD_TIMER]: the correlation key of an existing row stays. *)
Definition record_timer_waiting_in (now : Z) (dep inst process node : string) (due_at : Z) (t : Table) : Table :=
  <[(dep, inst, node) :=
     match t !! (dep, inst, node) with
     | Some r => mk_row process (correlation_key r) STATUS_WAITING (created_at r) None KIND_TIMER (Some due_at)
     | None => mk_row process None STATUS_WAITING now None KIND_TIMER (Some due_at)
     end]> t.

Definition is_waiting (r : Row) : bool := String.eqb (status r) STATUS_WAITING.

Definition resolved (now : Z) (r : Row) : Row :=
  mk_row (process_id r) (correlation_key r) STATUS_RESOLVED (created_at r) (Some now) (kind r) (timer_due_at r).

Definition resolve (now : Z) (dep inst node : string) (t : Table) : Table :=
  match t !! (dep, inst, node) with
  | Some r => if is_waiting r then <[(dep, inst, node) := resolved now r]> t else t
  | None => t
  end.

Definition of_instance (dep inst : string) (k : string * string * string) : bool :=
  String.eqb k.1.1 dep && String.eqb k.1.2 inst.

Definition resolve_all (now : Z) (dep inst : string) (t : Table) : Table :=
  map_imap (λ k r, Some (if of_instance dep inst k && is_waiting r then resolved now r else r)) t.

(** The rows of one instance by node. *)
Definition list_for_instance (dep inst : string) (t : Table) : list (string * Row) :=
  sort_rows (omap (λ e, if of_instance dep inst e.1 then Some (e.1.2, e.2) else None) (map_to_list t)).

Definition is_due (dep : string) (now : Z) (e : string * string * string * Row) : bool :=
  String.eqb e.1.1.1 dep && String.eqb (kind e.2) KIND_TIMER && is_waiting e.2
  && match timer_due_at e.2 with Some due => due <=? now | None => false end.

(** [ORDER BY timer_due_at LIMIT ... FOR UPDATE SKIP LOCKED]. *)
Definition claim_due_timers (dep : string) (now max_entries : Z) (locked : list (string * string * string)) (t : Table)
    : list (string * string * string * Row) :=
  take (Z.to_nat max_entries)
    (sort_by (λ a b, default 0 (timer_due_at a.2) <=? default 0 (timer_due_at b.2))
      (List.filter (λ e, is_due dep now e && negb (bool_decide (e.1 ∈ locked))) (map_to_list t))).

Definition defer_timer (dep inst node : string) (new_due_at : Z) (t : Table) : Table :=
  match t !! (dep, inst, node) with
  | Some r =>
      if String.eqb (kind r) KIND_TIMER && is_waiting r then
        <[(dep, inst, node) := mk_row (process_id r) (correlation_key r) (status r) (created_at r) (resolved_at r) (kind r) (Some new_due_at)]> t
      else t
  | None => t
  end.
End Wait.

(** ** [alias_index] *)

Module Alias.
Record Row : Type := mk_row { unique_alias : bool; live : bool; created_at : Z }.

(** Keyed by deployment, instance, name and value. *)
Abbreviation Key := (string * string * string * string)%type (only parsing).
Abbreviation Table := (gmap (string * string * string * string) Row) (only parsing).

(** The partial unique index: a live unique row of another instance. *)
Definition taken (dep inst name value : string) (t : Table) : bool :=
  existsb (λ e, String.eqb e.1.1.1.1 dep && negb (String.eqb e.1.1.1.2 inst) && String.eqb e.1.1.2 name
                && String.eqb e.1.2 value && unique_alias e.2 && live e.2) (map_to_list t).

(** The instances with a live row for the name and value. *)
Definition live_owners (dep name value : string) (t : Table) : list string :=
  omap (λ e, if String.eqb e.1.1.1.1 dep && String.eqb e.1.1.2 name && String.eqb e.1.2 value && live e.2
             then Some e.1.1.1.2 else None) (map_to_list t).

(** [INSERT ... ON CONFLICT DO NOTHING], with the rows written. *)
Definition insert_row (dep inst name value : string) (r : Row) (t : Table) : bool * Table :=
  match t !! (dep, inst, name, value) with
  | Some _ => (false, t)
  | None => if unique_alias r && live r && taken dep inst name value t then (false, t)
            else (true, <[(dep, inst, name, value) := r]> t)
  end.

Section Record_.
(** The row of [LIMIT 1]. *)
Context (pick : list string → option string).

Definition find_live (dep name value : string) (t : Table) : option string := pick (live_owners dep name value t).

(** Outcome of the update that revives a row: [None] is a violation of the index. *)
Definition revive (dep inst name value : string) (unique : bool) (t : Table) : option (bool * Table) :=
  match t !! (dep, inst, name, value) with
  | Some r =>
      if live r then Some (false, t)
      else if unique && taken dep inst name value t then None
      else Some (true, <[(dep, inst, name, value) := mk_row unique true (created_at r)]> t)
  | None => Some (false, t)
  end.

Definition record_in (now : Z) (dep inst name value : string) (unique : bool) (t : Table) : option (bool * Table) :=
  let '(inserted, t1) := insert_row dep inst name value (mk_row unique true now) t in
  if inserted then Some (true, t1)
  else
    match (if unique then find_live dep name value t else None) with
    | Some owner => Some (String.eqb owner inst, t)
    | None =>
        '(revived, t2) ← revive dep inst name value unique t;
        Some (revived || negb unique, t2)
    end.
End Record_.

Definition retired (r : Row) : Row := mk_row (unique_alias r) false (created_at r).

Definition retire_one_in (dep inst name value : string) (t : Table) : Table :=
  match t !! (dep, inst, name, value) with
  | Some r => if live r then <[(dep, inst, name, value) := retired r]> t else t
  | None => t
  end.

Definition of_instance (dep inst : string) (k : Key) : bool := String.eqb k.1.1.1 dep && String.eqb k.1.1.2 inst.

Definition retire (dep inst : string) (t : Table) : Table :=
  map_imap (λ k r, Some (if of_instance dep inst k then retired r else r)) t.

Definition delete_all (dep inst : string) (t : Table) : Table :=
  map_imap (λ k r, if of_instance dep inst k then None else Some r) t.
End Alias.

(** ** [subject_index] *)

Module Subject.
Record Row : Type := mk_row { live : bool; created_at : Z }.

(** Keyed by deployment, instance, subject name and blind value. *)
Abbreviation Key := (string * string * string * string)%type (only parsing).
Abbreviation Table := (gmap (string * string * string * string) Row) (only parsing).

Definition record_in (now : Z) (dep inst name blind : string) (t : Table) : Table :=
  match t !! (dep, inst, name, blind) with
  | Some _ => t
  | None => <[(dep, inst, name, blind) := mk_row true now]> t
  end.

Definition of_instance (dep inst : string) (k : Key) : bool := String.eqb k.1.1.1 dep && String.eqb k.1.1.2 inst.

(** The disclosure query: retired rows included. *)
Definition find_instances (dep name blind : string) (t : Table) : list string :=
  omap (λ e, if String.eqb e.1.1.1.1 dep && String.eqb e.1.1.2 name && String.eqb e.1.2 blind then Some e.1.1.1.2 else None)
    (map_to_list t).

Definition retire (dep inst : string) (t : Table) : Table :=
  map_imap (λ k r, Some (if of_instance dep inst k then mk_row false (created_at r) else r)) t.

Definition delete_all (dep inst : string) (t : Table) : Table :=
  map_imap (λ k r, if of_instance dep inst k then None else Some r) t.
End Subject.

(** ** [inbox_seen] *)

Module Inbox.
Record Row : Type := mk_row { seen_at : Z; instance_id : option string }.

(** Keyed by deployment, channel and event. *)
Abbreviation Table := (gmap (string * string * string) Row) (only parsing).

Definition record_seen_for_in (now : Z) (dep channel event : string) (inst : option string) (t : Table) : bool * Table :=
  match t !! (dep, channel, event) with
  | Some _ => (false, t)
  | None => (true, <[(dep, channel, event) := mk_row now inst]> t)
  end.

Definition seen (dep channel event : string) (t : Table) : bool := is_some (t !! (dep, channel, event)).

Definition original_instance (dep channel event : string) (t : Table) : option string :=
  r ← t !! (dep, channel, event); instance_id r.

Definition forget (dep channel event : string) (t : Table) : bool * Table :=
  (seen dep channel event t, delete (dep, channel, event) t).

Definition prune_older_than (now age : Z) (t : Table) : Table :=
  map_imap (λ _ r, if seen_at r <? now - age then None else Some r) t.
End Inbox.

(** ** [outbox_entry] *)

Module Outbox.
(** The columns the statements read or write; the reply itself is opaque here. *)
Record Row : Type := mk_row {
  deployment : string; instance_id : string; node_id : option string; reply : string;
  created_at : Z; next_attempt_at : Z; attempt_count : Z; last_diagnostic_json : option string; poisoned : bool }.

(** Keyed by entry. *)
Abbreviation Table := (gmap string Row) (only parsing).

Definition with_due (due : Z) (r : Row) : Row :=
  mk_row (deployment r) (instance_id r) (node_id r) (reply r) (created_at r) due (attempt_count r) (last_diagnostic_json r) (poisoned r).

(** [None]: the entry exists already. *)
Definition enqueue_in (entry : string) (r : Row) (t : Table) : option Table :=
  match t !! entry with Some _ => None | None => Some (<[entry := r]> t) end.

Definition emitted_by (dep inst node : string) (r : Row) : bool :=
  String.eqb (deployment r) dep && String.eqb (instance_id r) inst
  && match node_id r with Some n => String.eqb n node | None => false end.

(** Pending and poisoned rows alike. *)
Definition withdraw_for_node_in (dep inst node : string) (t : Table) : Table :=
  map_imap (λ _ r, if emitted_by dep inst node r then None else Some r) t.

Definition poisoned_exists_for_node (dep inst node : string) (t : Table) : bool :=
  existsb (λ e, emitted_by dep inst node e.2 && poisoned e.2) (map_to_list t).

Definition count_pending_for_instance (dep inst : string) (t : Table) : Z :=
  Z.of_nat (length (List.filter
    (λ e, String.eqb (deployment e.2) dep && String.eqb (instance_id e.2) inst && negb (poisoned e.2)) (map_to_list t))).

Definition count_pending_for_deployment (dep : string) (t : Table) : Z :=
  Z.of_nat (length (List.filter (λ e, String.eqb (deployment e.2) dep && negb (poisoned e.2)) (map_to_list t))).

(** An update of one row of the deployment. *)
Definition update_row (dep entry : string) (f : Row → Row) (t : Table) : Table :=
  match t !! entry with
  | Some r => if String.eqb (deployment r) dep then <[entry := f r]> t else t
  | None => t
  end.

Definition delete_row (dep entry : string) (t : Table) : Table :=
  match t !! entry with
  | Some r => if String.eqb (deployment r) dep then delete entry t else t
  | None => t
  end.

Definition delete_many (dep : string) (entries : list string) (t : Table) : Table :=
  fold_left (λ t e, delete_row dep e t) entries t.

Definition defer (dep entry : string) (due : Z) (diagnostic : option string) (t : Table) : Table :=
  update_row dep entry (λ r, mk_row (deployment r) (instance_id r) (node_id r) (reply r) (created_at r) due
    (attempt_count r + 1) diagnostic (poisoned r)) t.

Definition requeue (dep entry : string) (due : Z) (diagnostic : option string) (t : Table) : Table :=
  update_row dep entry (λ r, mk_row (deployment r) (instance_id r) (node_id r) (reply r) (created_at r) due
    (attempt_count r) diagnostic (poisoned r)) t.

Definition mark_poisoned (dep entry : string) (diagnostic : option string) (t : Table) : Table :=
  update_row dep entry (λ r, mk_row (deployment r) (instance_id r) (node_id r) (reply r) (created_at r) (next_attempt_at r)
    (attempt_count r) diagnostic true) t.

(** [ORDER BY next_attempt_at, created_at]. *)
Definition due_leb (a b : string * Row) : bool :=
  (next_attempt_at a.2 <? next_attempt_at b.2)
  || ((next_attempt_at a.2 =? next_attempt_at b.2) && (created_at a.2 <=? created_at b.2)).

Definition is_due (dep : string) (now : Z) (r : Row) : bool :=
  String.eqb (deployment r) dep && negb (poisoned r) && (next_attempt_at r <=? now).

(** The rows a claim may take: due, not in flight with the caller, not locked by another
    transaction; at most [max_entries] of them, the longest due first. *)
Definition due_rows (dep : string) (now max_entries : Z) (exclude locked : list string) (t : Table) : list (string * Row) :=
  take (Z.to_nat max_entries)
    (sort_by due_leb (List.filter (λ e, is_due dep now e.2 && negb (existsb (String.eqb e.1) exclude)
                                 && negb (existsb (String.eqb e.1) locked)) (btree_list t))).

(** The claimed entries, with the due times they had, and the leased rows. *)
Definition claim_due_excluding (dep : string) (now max_entries : Z) (exclude locked : list string) (lease_until : Z)
    (t : Table) : list (string * Row) * Table :=
  let claimed := due_rows dep now max_entries exclude locked t in
  (claimed, fold_left (λ t e, <[e.1 := with_due lease_until e.2]> t) claimed t).

(** The claim without a lease. *)
Definition claim_due (dep : string) (now max_entries : Z) (locked : list string) (t : Table) : list (string * Row) :=
  due_rows dep now max_entries [] locked t.

Definition renew_one (dep : string) (locked : list string) (lease_until : Z) (t : Table) (entry : string) : Table :=
  match t !! entry with
  | Some r =>
      if String.eqb (deployment r) dep && negb (poisoned r) && (next_attempt_at r <? lease_until)
         && negb (existsb (String.eqb entry) locked)
      then <[entry := with_due lease_until r]> t else t
  | None => t
  end.

(** The chunks of one renewal are transactions of their own over the sorted ids. *)
Definition renew_claims (dep : string) (entries : list string) (locked : list string) (lease_until : Z) (t : Table) : Table :=
  fold_left (renew_one dep locked lease_until) (dedup (sort_texts entries)) t.
End Outbox.

(** ** [audit_event] *)

Module Journal.
Record Row : Type := mk_row {
  deployment : string; instance_id : option string; seq : Z; at_ : Z; event_type : string; node_id : option string;
  diagnostic_code : option string; diagnostic_json : option string; payload_json : string }.

(** In the order of the surrogate id. *)
Abbreviation Table := (list Row) (only parsing).

Definition is_transport_audit_event_type (event_type : string) : bool := negb (no_char "." event_type).

Definition same_instance (dep : string) (inst : option string) (r : Row) : bool :=
  String.eqb (deployment r) dep && bool_decide (instance_id r = inst).

(** The highest number of the engine's events of the instance. *)
Definition high_water (dep inst : string) (t : Table) : option Z :=
  fold_left (λ acc r,
    if same_instance dep (Some inst) r && negb (is_transport_audit_event_type (event_type r))
    then Some (match acc with Some m => Z.max m (seq r) | None => seq r end) else acc) t None.

Definition with_seq (n : Z) (r : Row) : Row :=
  mk_row (deployment r) (instance_id r) n (at_ r) (event_type r) (node_id r) (diagnostic_code r) (diagnostic_json r) (payload_json r).

(** The unique index covers the engine's events of an instance; [NULL] instances never
    conflict. *)
Definition conflicts (r : Row) (t : Table) : bool :=
  is_some (instance_id r)
  && existsb (λ x, same_instance (deployment r) (instance_id r) x && (seq x =? seq r)
                   && negb (is_transport_audit_event_type (event_type x))) t.

Definition insert_in (r : Row) (t : Table) : bool * Table :=
  if is_transport_audit_event_type (event_type r) then
    (true, t ++ [with_seq (match instance_id r with
                           | Some inst => default 1 (high_water (deployment r) inst t)
                           | None => 0
                           end) r])
  else if conflicts r t then (false, t)
  else (true, t ++ [r]).

Definition of_instance (dep inst : string) (r : Row) : bool := same_instance dep (Some inst) r.
End Journal.
