(* ===== verification/Leases.v ===== *)
(** * Ownership claims and outbox leases over interleaved replicas

    Replicas share the tables of [Stores] and nothing else, so what a claim or a lease
    promises is a statement about every interleaving of their statements: a trace is a
    list of statements with the instants they commit at, and [run] applies it.

    [claim_exclusive] and [claim_recovers] are the two halves of the ownership model
    of [stores/instance.rs]; [outbox_lease_exclusive] is the promise of
    [claim_due_excluding] in [stores/outbox.rs]. *)
From Stdlib Require Import ZArith Lia Bool Ascii String.
From stdpp Require Import base countable sorting option gmap fin_maps strings list.
From S2P Require Import Prelude Texts Stores.

Open Scope string_scope.
Open Scope list_scope.
Open Scope Z_scope.

(** ** Claims *)

Module Claims.
Import Instance.

(** The statements of any replica, sweeper or operator on [instance_state]. *)
Inductive op : Type :=
| Persist (dep id bytes : string)
| Claim (owner dep id : string)
| Heartbeat (owner dep id : string)
| Release (owner dep id : string)
| Sweep (timeout : Z) (dep : string)
| MarkTerminal (dep id bytes : string)
| Purge (retention : Z) (dep : string) (keep : list string)
| Delete (dep id : string).

Definition apply (now : Z) (o : op) (t : Table) : Table :=
  match o with
  | Persist dep id bytes => persist_in now dep id bytes t
  | Claim owner dep id => (claim now owner dep id t).2
  | Heartbeat owner dep id => (heartbeat now owner dep id t).2
  | Release owner dep id => (release_in owner dep id t).2
  | Sweep timeout dep => (sweep_stuck now timeout dep t).2
  | MarkTerminal dep id bytes => (mark_terminal_in now dep id bytes t).2
  | Purge retention dep keep => purge_terminal_except now retention dep keep t
  | Delete dep id => delete_row dep id t
  end.

Definition run (tr : list (Z * op)) (t : Table) : Table := fold_left (λ t e, apply e.1 e.2 t) tr t.

(** The three claim columns stand or fall together. *)
Definition wf_row (r : Row) : Prop :=
  (is_Some (claim_owner r) ↔ is_Some (last_heartbeat_at r)) ∧ (is_Some (claim_owner r) ↔ is_Some (claimed_at r)).

Definition wf (t : Table) : Prop := map_Forall (λ _ r, wf_row r) t.

Lemma with_claim_wf owner at_ r : is_Some owner ↔ is_Some at_ → wf_row (with_claim owner at_ r).
Proof. done. Qed.

Lemma none_wf {A B} : is_Some (@None A) ↔ is_Some (@None B).
Proof. split; by intros [? ?]. Qed.

Lemma some_wf {A B} (x : A) (y : B) : is_Some (Some x) ↔ is_Some (Some y).
Proof. split; by eauto. Qed.

Lemma apply_wf now o t : wf t → wf (apply now o t).
Proof.
  intros Ht. assert (Hin : ∀ k r, wf_row r → wf (<[k := r]> t)) by (intros; by apply map_Forall_insert_2).
  destruct o as [dep id bytes|owner dep id|owner dep id|owner dep id|timeout dep|dep id bytes|retention dep keep|dep id]; simpl.
  - unfold persist_in. destruct (t !! (dep, id)) as [r|] eqn:E; apply Hin; [exact (Ht _ _ E)|split; apply none_wf].
  - unfold claim. destruct (t !! (dep, id)) as [r|] eqn:E; [|done]. destruct (may_claim owner r); [|done].
    apply Hin, with_claim_wf, some_wf.
  - unfold heartbeat, update_owned. destruct (t !! (dep, id)) as [r|] eqn:E; [|done].
    destruct (owned_by owner r) eqn:Eo; [|done]. apply Hin. specialize (Ht _ _ E) as [_ Hc]. unfold owned_by in Eo.
    destruct (claim_owner r) eqn:Ec; [|done]. split; simpl; [apply some_wf|done].
  - unfold release_in, update_owned. destruct (t !! (dep, id)) as [r|]; [|done]. destruct (owned_by owner r); [|done].
    apply Hin, with_claim_wf, none_wf.
  - intros k r. rewrite map_lookup_imap. destruct (t !! k) as [r0|] eqn:E; [|done]. simpl. intros [= <-].
    case_match; [apply with_claim_wf, none_wf|exact (Ht _ _ E)].
  - unfold mark_terminal_in. destruct (t !! (dep, id)); [|done]. apply Hin. split; apply none_wf.
  - intros k r. unfold purge_terminal_except. rewrite map_lookup_imap. destruct (t !! k) as [r0|] eqn:E; [|done]. simpl.
    case_match; [done|]. intros [= <-]. exact (Ht _ _ E).
  - intros k r. unfold delete_row. rewrite lookup_delete_Some. intros [_ Hk]. exact (Ht _ _ Hk).
Qed.

Lemma run_wf tr t : wf t → wf (run tr t).
Proof. revert t. induction tr as [|[now o] tr IH]; intros t Ht; [done|]. apply IH, apply_wf, Ht. Qed.

(** *** The holder keeps the row *)

Definition is_row (dep id d i : string) : bool := String.eqb d dep && String.eqb i id.

(** Along the trace the holder [me], whose last stamp is [last], neither gives the row
    back nor loses it to a terminal mark, a deletion, or a sweep it missed. *)
Fixpoint keeps (me dep id : string) (last : Z) (tr : list (Z * op)) : bool :=
  match tr with
  | [] => true
  | (now, o) :: tr =>
      match o with
      | Claim owner d i | Heartbeat owner d i =>
          keeps me dep id (if String.eqb owner me && is_row dep id d i then now else last) tr
      | Release owner d i => negb (String.eqb owner me && is_row dep id d i) && keeps me dep id last tr
      | Sweep timeout d => (negb (String.eqb d dep) || (now - timeout <=? last)) && keeps me dep id last tr
      | MarkTerminal d i _ | Delete d i => negb (is_row dep id d i) && keeps me dep id last tr
      | Persist _ _ _ | Purge _ _ _ => keeps me dep id last tr
      end
  end.

Definition held (me dep id : string) (last : Z) (t : Table) : Prop :=
  ∃ r, t !! (dep, id) = Some r ∧ claim_owner r = Some me ∧ last_heartbeat_at r = Some last ∧ terminal_at r = None.

Lemma is_row_true dep id d i : is_row dep id d i = true ↔ d = dep ∧ i = id.
Proof. unfold is_row. rewrite andb_true_iff, !String.eqb_eq. done. Qed.

Lemma is_row_key dep id d i : is_row dep id d i = false → (d, i) ≠ (dep, id).
Proof. intros Hr [= -> ->]. assert (is_row dep id dep id = true) by (by apply is_row_true). congruence. Qed.

Lemma held_insert_ne me dep id last t k r : k ≠ (dep, id) → held me dep id last t → held me dep id last (<[k := r]> t).
Proof. intros Hk (x & Hx & Hh). exists x. by rewrite lookup_insert_ne. Qed.

Lemma held_row me dep id last t r :
  claim_owner r = Some me → last_heartbeat_at r = Some last → terminal_at r = None → held me dep id last (<[(dep, id) := r]> t).
Proof. intros Ho Hl Ht. exists r. by rewrite lookup_insert_eq. Qed.

Lemma claim_held me dep id last now owner d i t :
  held me dep id last t →
  held me dep id (if String.eqb owner me && is_row dep id d i then now else last) (claim now owner d i t).2.
Proof.
  intros Hh. pose proof Hh as (r & Hr & Ho & Hl & Ht). unfold claim. destruct (is_row dep id d i) eqn:Er.
  - apply is_row_true in Er as [-> ->]. rewrite Hr. unfold may_claim. rewrite Ho, andb_true_r, (String.eqb_sym owner me).
    destruct (String.eqb_spec me owner) as [<-|]; [|done]. by apply held_row.
  - rewrite andb_false_r. destruct (t !! (d, i)); [|done]. destruct (may_claim owner r0); [|done].
    apply held_insert_ne; [by apply is_row_key|done].
Qed.

Lemma heartbeat_held me dep id last now owner d i t :
  held me dep id last t →
  held me dep id (if String.eqb owner me && is_row dep id d i then now else last) (heartbeat now owner d i t).2.
Proof.
  intros Hh. pose proof Hh as (r & Hr & Ho & Hl & Ht). unfold heartbeat, update_owned. destruct (is_row dep id d i) eqn:Er.
  - apply is_row_true in Er as [-> ->]. rewrite Hr. unfold owned_by. rewrite Ho, andb_true_r, (String.eqb_sym owner me).
    destruct (String.eqb_spec me owner) as [<-|]; [|done]. by apply held_row.
  - rewrite andb_false_r. destruct (t !! (d, i)); [|done]. destruct (owned_by owner r0); [|done].
    apply held_insert_ne; [by apply is_row_key|done].
Qed.

Lemma release_held me dep id last owner d i t :
  negb (String.eqb owner me && is_row dep id d i) = true → held me dep id last t → held me dep id last (release_in owner d i t).2.
Proof.
  intros Hn Hh. pose proof Hh as (r & Hr & Ho & Hl & Ht). unfold release_in, update_owned. destruct (is_row dep id d i) eqn:Er.
  - apply is_row_true in Er as [-> ->]. rewrite Hr. unfold owned_by. rewrite Ho. rewrite andb_true_r in Hn.
    rewrite String.eqb_sym in Hn. by destruct (String.eqb me owner).
  - destruct (t !! (d, i)); [|done]. destruct (owned_by owner r0); [|done]. apply held_insert_ne; [by apply is_row_key|done].
Qed.

Lemma persist_held me dep id last now d i bytes t : held me dep id last t → held me dep id last (persist_in now d i bytes t).
Proof.
  intros Hh. pose proof Hh as (r & Hr & Ho & Hl & Ht). unfold persist_in. destruct (is_row dep id d i) eqn:Er.
  - apply is_row_true in Er as [-> ->]. rewrite Hr. by apply held_row.
  - destruct (t !! (d, i)); apply held_insert_ne; try done; by apply is_row_key.
Qed.

Lemma step_held me dep id last now o tr t :
  held me dep id last t → keeps me dep id last ((now, o) :: tr) = true →
  ∃ last', held me dep id last' (apply now o t) ∧ keeps me dep id last' tr = true.
Proof.
  intros Hh Hk. pose proof Hh as (r & Hr & Ho & Hl & Ht). destruct o as [d i bytes|owner d i|owner d i|owner d i|timeout d|d i bytes|retention d keep|d i];
    cbn [keeps apply] in *.
  - exists last. split; [by apply persist_held|done].
  - eexists. split; [by apply claim_held|done].
  - eexists. split; [by apply heartbeat_held|done].
  - apply andb_true_iff in Hk as [Hn Hk]. exists last. split; [by apply release_held|done].
  - apply andb_true_iff in Hk as [Hs Hk]. exists last. split; [|done]. exists r. unfold sweep_stuck. cbn [snd].
    rewrite map_lookup_imap, Hr. simpl. unfold is_stuck. rewrite Hl.
    destruct (String.eqb_spec dep d) as [->|]; simpl; [|done]. rewrite String.eqb_refl in Hs. simpl in Hs.
    destruct (Z.ltb_spec last (now - timeout)); [lia|done].
  - apply andb_true_iff in Hk as [Hn%negb_true_iff Hk]. exists last. split; [|done]. unfold mark_terminal_in.
    destruct (t !! (d, i)); [|done]. apply held_insert_ne; [by apply is_row_key|done].
  - exists last. split; [|done]. exists r. unfold purge_terminal_except. rewrite map_lookup_imap, Hr. simpl.
    unfold is_expired. rewrite Ht, andb_false_r. done.
  - apply andb_true_iff in Hk as [Hn%negb_true_iff Hk]. exists last. split; [|done]. exists r. unfold delete_row.
    rewrite lookup_delete_ne by (by apply is_row_key). done.
Qed.

Lemma run_held me dep id last tr t :
  held me dep id last t → keeps me dep id last tr = true → ∃ last', held me dep id last' (run tr t).
Proof.
  revert last t. induction tr as [|[now o] tr IH]; intros last t Hh Hk; [by exists last|].
  destruct (step_held _ _ _ _ _ _ _ _ Hh Hk) as (last' & Hh' & Hk'). by apply (IH last').
Qed.

(** *** A silent holder loses the row *)

(** No statement of the trace renews the claim of [o] on the row. *)
Definition silent (o dep id : string) (tr : list (Z * op)) : bool :=
  forallb (λ e, match e.2 with
                | Claim owner d i | Heartbeat owner d i => negb (String.eqb owner o && is_row dep id d i)
                | _ => true
                end) tr.

(** If [o] holds the row, its last stamp is not after [last]. *)
Definition stamped_by (o dep id : string) (last : Z) (t : Table) : Prop :=
  ∀ r, t !! (dep, id) = Some r → claim_owner r = Some o → ∃ h, last_heartbeat_at r = Some h ∧ h <= last.

Lemma stamped_insert o dep id last t k r :
  stamped_by o dep id last t → (k = (dep, id) → claim_owner r = Some o → ∃ h, last_heartbeat_at r = Some h ∧ h <= last) →
  stamped_by o dep id last (<[k := r]> t).
Proof.
  intros Ht Hr x. destruct (decide (k = (dep, id))) as [->|Hne]; [|rewrite lookup_insert_ne by done; apply Ht].
  rewrite lookup_insert_eq. intros [= <-]. by apply Hr.
Qed.

Lemma apply_stamped o dep id last now a t :
  silent o dep id [(now, a)] = true → stamped_by o dep id last t → stamped_by o dep id last (apply now a t).
Proof.
  intros Hs Ht. unfold silent in Hs. simpl in Hs. rewrite andb_true_r in Hs.
  destruct a as [d i bytes|owner d i|owner d i|owner d i|timeout d|d i bytes|retention d keep|d i]; simpl.
  - unfold persist_in. destruct (t !! (d, i)) as [r|] eqn:E; apply stamped_insert; try done. intros [= -> ->]. simpl. by apply Ht.
  - unfold claim. destruct (t !! (d, i)) as [r|] eqn:E; [|done]. destruct (may_claim owner r); [|done].
    apply stamped_insert; [done|]. intros [= -> ->] [= ->]. unfold is_row in Hs. by rewrite !String.eqb_refl in Hs.
  - unfold heartbeat, update_owned. destruct (t !! (d, i)) as [r|] eqn:E; [|done].
    destruct (owned_by owner r) eqn:Eo; [|done]. apply stamped_insert; [done|]. intros [= -> ->]. simpl. intros Hc.
    unfold owned_by in Eo. rewrite Hc in Eo. apply String.eqb_eq in Eo as ->. unfold is_row in Hs. by rewrite !String.eqb_refl in Hs.
  - unfold release_in, update_owned. destruct (t !! (d, i)) as [r|]; [|done]. destruct (owned_by owner r); [|done].
    by apply stamped_insert.
  - intros r. rewrite map_lookup_imap. destruct (t !! (dep, id)) as [r0|] eqn:E; [|done]. simpl. intros [= <-].
    case_match; [done|by apply Ht].
  - unfold mark_terminal_in. destruct (t !! (d, i)); [|done]. by apply stamped_insert.
  - intros r. unfold purge_terminal_except. rewrite map_lookup_imap. destruct (t !! (dep, id)) as [r0|] eqn:E; [|done]. simpl.
    case_match; [done|]. intros [= <-]. by apply Ht.
  - intros r. unfold delete_row. rewrite lookup_delete_Some. intros [_ Hr]. by apply Ht.
Qed.

Lemma run_stamped o dep id last tr t :
  silent o dep id tr = true → stamped_by o dep id last t → stamped_by o dep id last (run tr t).
Proof.
  revert t. induction tr as [|[now a] tr IH]; intros t Hs Ht; [done|]. unfold silent in Hs. cbn [forallb] in Hs.
  apply andb_true_iff in Hs as [Ha Hs]. apply IH; [done|]. apply apply_stamped; [|done]. apply andb_true_iff. done.
Qed.

(** After a sweep every standing claim is fresh. *)
Lemma sweep_fresh now timeout dep id t r o :
  wf t → (apply now (Sweep timeout dep) t) !! (dep, id) = Some r → claim_owner r = Some o →
  ∃ h, last_heartbeat_at r = Some h ∧ now - timeout <= h ∧ t !! (dep, id) = Some r.
Proof.
  intros Hw. cbn [apply sweep_stuck snd]. rewrite map_lookup_imap. destruct (t !! (dep, id)) as [r0|] eqn:E; [|done]. simpl.
  rewrite String.eqb_refl. cbn [andb]. intros [= <-]. destruct (is_stuck now timeout r0) eqn:Es; [done|]. intros Ho.
  specialize (Hw _ _ E) as [Hw _]. destruct (proj1 Hw) as [h Hh]; [by exists o|]. exists h. split; [done|]. split; [|done].
  unfold is_stuck in Es. rewrite Hh in Es. lia.
Qed.

(** *** Properties *)

(** C9: an ownership claim is exclusive.  From the claim that was granted to [me], as
    long as [me] does not hand the row back, no terminal mark or deletion ends it, and
    no sweep finds its stamp older than the sweep's timeout, every claim of another
    owner is refused, at any instant, whatever the replicas did in between. *)
Theorem claim_exclusive (t t1 : Table) (now : Z) (me dep id : string) (tr : list (Z * op)) (other : string) (s : Z) :
  claim now me dep id t = (true, t1) → (∀ r, t !! (dep, id) = Some r → terminal_at r = None) →
  keeps me dep id now tr = true → other ≠ me →
  claim s other dep id (run tr t1) = (false, run tr t1) ∧
  ∃ bytes, load_owned_for_update dep id (run tr t1) = Some (bytes, Some me, false).
Proof.
  intros Hc Ht Hk Hne. assert (Hh : held me dep id now t1).
  { unfold claim in Hc. destruct (t !! (dep, id)) as [r|] eqn:E; [|done]. destruct (may_claim me r); [|done].
    injection Hc as <-. apply held_row; [done..|]. simpl. by apply Ht. }
  destruct (run_held _ _ _ _ _ _ Hh Hk) as (last & r & Hr & Ho & Hl & Hn). split.
  - unfold claim, may_claim. rewrite Hr, Ho. destruct (String.eqb_spec me other); [congruence|done].
  - exists (serialised r). unfold load_owned_for_update. rewrite Hr. simpl. by rewrite Ho, Hn.
Qed.

(** C20: a crashed owner never holds an instance for ever.  If [o] last renewed its
    claim at [last] and stays silent, the first sweep more than the timeout later
    leaves the row, if it is still there, without [o]'s claim: either another owner
    holds it with a stamp within the timeout, or it is free and the next claim of
    anyone is granted. *)
Theorem claim_recovers (t : Table) (o dep id : string) (last : Z) (tr : list (Z * op)) (s timeout : Z) (r : Row) :
  wf t → stamped_by o dep id last t → silent o dep id tr = true → last + timeout < s →
  (run (tr ++ [(s, Sweep timeout dep)]) t) !! (dep, id) = Some r →
  (∃ o' h, o' ≠ o ∧ claim_owner r = Some o' ∧ last_heartbeat_at r = Some h ∧ s - timeout <= h) ∨
  (∀ other now, (claim now other dep id (run (tr ++ [(s, Sweep timeout dep)]) t)).1 = true).
Proof.
  intros Hw Hl Hs Hlt. unfold run. rewrite fold_left_app. fold (run tr t). cbn [fold_left fst snd]. intros Hr.
  destruct (claim_owner r) as [o'|] eqn:Ho; [left|right].
  - destruct (sweep_fresh _ _ _ _ _ _ _ (run_wf tr t Hw) Hr Ho) as (h & Hh & Hf & Hr0). exists o', h. split; [|done].
    intros ->. destruct (run_stamped _ _ _ _ _ _ Hs Hl r Hr0 Ho) as (h' & Hh' & Hle). rewrite Hh in Hh'. injection Hh' as <-. lia.
  - intros other now. unfold claim, may_claim. by rewrite Hr, Ho.
Qed.

Definition parked_row : Row := mk_row "snapshot" 0 None None None None.
Definition parked_table : Table := {[("dep-1", "i-1") := parked_row]}.

Lemma claim_exclusive_witness :
  let tr := [(10, Persist "dep-1" "i-1" "next"); (20, Heartbeat "a" "dep-1" "i-1"); (25, Claim "b" "dep-1" "i-1"); (40, Sweep 30 "dep-1")] in
  let t1 := (claim 5 "a" "dep-1" "i-1" parked_table).2 in
  claim 50 "b" "dep-1" "i-1" (run tr t1) = (false, run tr t1).
Proof.
  intros tr t1. refine (proj1 (claim_exclusive parked_table t1 5 "a" "dep-1" "i-1" tr "b" 50 _ _ _ _)).
  - reflexivity.
  - intros r. unfold parked_table. rewrite lookup_singleton_eq. intros [= <-]. reflexivity.
  - reflexivity.
  - discriminate.
Defined.

Lemma claim_recovers_witness :
  let t := (claim 5 "a" "dep-1" "i-1" parked_table).2 in
  (∃ o' h, o' ≠ "a" ∧ @None string = Some o' ∧ @None Z = Some h ∧ 100 - 30 <= h) ∨
  (∀ other now, (claim now other "dep-1" "i-1" (run ([(10, Persist "dep-1" "i-1" "next")] ++ [(100, Sweep 30 "dep-1")]) t)).1 = true).
Proof.
  intros t. refine (claim_recovers t "a" "dep-1" "i-1" 5 [(10, Persist "dep-1" "i-1" "next")] 100 30 (mk_row "next" 10 None None None None) _ _ _ _ _).
  - change t with (apply 5 (Claim "a" "dep-1" "i-1") parked_table). apply apply_wf. unfold wf, parked_table.
    apply map_Forall_singleton. split; apply none_wf.
  - intros r Hr. vm_compute in Hr. injection Hr as <-. intros _. exists 5. split; [reflexivity|lia].
  - reflexivity.
  - reflexivity.
  - reflexivity.
Defined.
End Claims.

(** ** Outbox leases *)

Module Deliveries.
Import Outbox.

(** The statements of any replica on [outbox_entry]. *)
Inductive op : Type :=
| Enqueue (entry : string) (r : Row)
| ClaimDue (dep : string) (now max_entries : Z) (exclude locked : list string) (lease_until : Z)
| Renew (dep : string) (entries locked : list string) (lease_until : Z)
| DeleteMany (dep : string) (entries : list string)
| Defer (dep entry : string) (due : Z) (diagnostic : option string)
| Requeue (dep entry : string) (due : Z) (diagnostic : option string)
| Poison (dep entry : string) (diagnostic : option string)
| Withdraw (dep inst node : string).

Definition apply (o : op) (t : Table) : Table :=
  match o with
  | Enqueue entry r => default t (enqueue_in entry r t)
  | ClaimDue dep now max_entries exclude locked lease_until => (claim_due_excluding dep now max_entries exclude locked lease_until t).2
  | Renew dep entries locked lease_until => renew_claims dep entries locked lease_until t
  | DeleteMany dep entries => delete_many dep entries t
  | Defer dep entry due diagnostic => defer dep entry due diagnostic t
  | Requeue dep entry due diagnostic => requeue dep entry due diagnostic t
  | Poison dep entry diagnostic => mark_poisoned dep entry diagnostic t
  | Withdraw dep inst node => withdraw_for_node_in dep inst node t
  end.

Definition run (tr : list op) (t : Table) : Table := fold_left (λ t o, apply o t) tr t.

(** The statement leaves a lease of [entry] until [until] in place: it is not the
    holder's own deferral to an earlier time, it takes its leases into the future, and
    it enqueues under a fresh id. *)
Definition respects (entry : string) (until : Z) (o : op) : bool :=
  match o with
  | Enqueue e _ => negb (String.eqb e entry)
  | ClaimDue _ now _ _ _ lease_until => now <=? lease_until
  | Defer _ e due _ | Requeue _ e due _ => negb (String.eqb e entry) || (until <=? due)
  | _ => true
  end.

(** No claim before [until] can take the entry. *)
Definition off (entry : string) (until : Z) (t : Table) : Prop :=
  ∀ r, t !! entry = Some r → poisoned r = true ∨ until <= next_attempt_at r.

Lemma elem_of_due_rows dep now max_entries exclude locked t e :
  e ∈ due_rows dep now max_entries exclude locked t → t !! e.1 = Some e.2 ∧ is_due dep now e.2 = true.
Proof.
  unfold due_rows. intros He%elem_of_take_in. rewrite sort_by_perm in He. destruct e as [k r].
  rewrite list_elem_of_In, filter_In, <-list_elem_of_In, elem_of_btree_list in He. destruct He as [Hr Hd].
  rewrite !andb_true_iff in Hd. by destruct Hd as [[Hd _] _].
Qed.

Lemma lookup_leased (l : list (string * Row)) until (t : Table) k x :
  fold_left (λ t e, <[e.1 := with_due until e.2]> t) l t !! k = Some x →
  (∃ r, (k, r) ∈ l ∧ x = with_due until r) ∨ (t !! k = Some x ∧ k ∉ map fst l).
Proof.
  revert t. induction l as [|[k' r'] l IH]; intros t; simpl; [intros Hx; right; split; [done|apply not_elem_of_nil]|].
  intros [(r & Hr & ->)|[Hx Hk]]%IH; [left; exists r; split; [by right|done]|].
  destruct (decide (k = k')) as [->|Hne].
  - rewrite lookup_insert_eq in Hx. injection Hx as <-. left. exists r'. split; [by left|done].
  - rewrite lookup_insert_ne in Hx by done. right. split; [done|]. by rewrite elem_of_cons; intros [?|?].
Qed.

Lemma claim_off entry until dep now max_entries exclude locked lease_until t :
  now <= lease_until → off entry until t → off entry until (claim_due_excluding dep now max_entries exclude locked lease_until t).2.
Proof.
  intros Hl Ho x [(r & [Hr Hd]%elem_of_due_rows & ->)|[Hx _]]%lookup_leased; [|by apply Ho].
  cbn [fst snd] in *. right. simpl. unfold is_due in Hd. destruct (Ho _ Hr) as [Hp|Hn].
  - rewrite Hp in Hd. simpl in Hd. by rewrite andb_false_r in Hd.
  - apply andb_true_iff in Hd as [_ Hd]. lia.
Qed.

Lemma update_off entry until dep e f t :
  off entry until t → (∀ r, e = entry → t !! e = Some r → poisoned (f r) = true ∨ until <= next_attempt_at (f r)) →
  off entry until (update_row dep e f t).
Proof.
  intros Ho Hf. unfold update_row. destruct (t !! e) as [r|] eqn:E; [|done]. destruct (String.eqb (deployment r) dep); [|done].
  intros x. destruct (decide (e = entry)) as [->|]; [rewrite lookup_insert_eq; intros [= <-]; auto|].
  rewrite lookup_insert_ne by done. apply Ho.
Qed.

Lemma renew_off entry until dep locked lease_until es t :
  off entry until t → off entry until (fold_left (renew_one dep locked lease_until) es t).
Proof.
  revert t. induction es as [|e es IH]; intros t Ho; [done|]. simpl. apply IH. unfold renew_one.
  destruct (t !! e) as [r|] eqn:E; [|done]. case_match eqn:Ec; [|done]. rewrite !andb_true_iff in Ec.
  destruct Ec as [[[_ Hp] Hlt] _]. intros x. destruct (decide (e = entry)) as [->|].
  - rewrite lookup_insert_eq. intros [= <-]. right. simpl. destruct (Ho _ E) as [Hp'|]; [by rewrite Hp' in Hp|lia].
  - rewrite lookup_insert_ne by done. apply Ho.
Qed.

Lemma delete_off entry until dep es t : off entry until t → off entry until (delete_many dep es t).
Proof.
  unfold delete_many. revert t. induction es as [|e es IH]; intros t Ho; [done|]. simpl. apply IH. unfold delete_row.
  destruct (t !! e) as [r|]; [|done]. destruct (String.eqb (deployment r) dep); [|done].
  intros x. rewrite lookup_delete_Some. intros [_ Hx]. by apply Ho.
Qed.

Lemma apply_off entry until o t : respects entry until o = true → off entry until t → off entry until (apply o t).
Proof.
  intros Hr Ho. destruct o; simpl in *.
  - unfold enqueue_in. destruct (t !! entry0); simpl; [done|]. apply negb_true_iff, String.eqb_neq in Hr.
    intros x. rewrite lookup_insert_ne by done. apply Ho.
  - apply claim_off; [lia|done].
  - by apply renew_off.
  - by apply delete_off.
  - apply update_off; [done|]. intros r -> Hx. right. simpl. rewrite String.eqb_refl in Hr. simpl in Hr. lia.
  - apply update_off; [done|]. intros r -> Hx. right. simpl. rewrite String.eqb_refl in Hr. simpl in Hr. lia.
  - apply update_off; [done|]. by left.
  - intros x. unfold withdraw_for_node_in. rewrite map_lookup_imap. destruct (t !! entry) as [r|] eqn:E; [|done]. simpl.
    case_match; [done|]. intros [= <-]. by apply Ho.
Qed.

Lemma run_off entry until tr t : forallb (respects entry until) tr = true → off entry until t → off entry until (run tr t).
Proof.
  revert t. induction tr as [|o tr IH]; intros t Hr Ho; [done|]. cbn [forallb] in Hr. apply andb_true_iff in Hr as [H1 H2].
  apply IH; [done|]. by apply apply_off.
Qed.

(** *** Property *)

(** C21: a leased outbox row is delivered by one replica.  After a claim returned an
    entry with a lease until [until], no claim of any replica at an earlier instant
    returns it again, whatever else the replicas do, unless the holder itself defers it
    to an earlier time; and once due and not poisoned, a row is returned by the next
    claim that has room for it, so a crashed holder delays the entry and does not lose
    it. *)
Theorem outbox_lease_exclusive (t : Table) (dep : string) (now max_entries : Z) (exclude locked : list string) (until : Z)
    (entry : string) (r : Row) (tr : list op) :
  (entry, r) ∈ (claim_due_excluding dep now max_entries exclude locked until t).1 →
  forallb (respects entry until) tr = true →
  let t' := run tr (claim_due_excluding dep now max_entries exclude locked until t).2 in
  (∀ dep2 now2 max2 exclude2 locked2 until2, now2 < until →
     entry ∉ map fst (claim_due_excluding dep2 now2 max2 exclude2 locked2 until2 t').1) ∧
  (∀ x now2 max2 exclude2 locked2 until2, t' !! entry = Some x → poisoned x = false → next_attempt_at x <= now2 →
     entry ∉ exclude2 → entry ∉ locked2 → Z.of_nat (size t') <= max2 →
     (entry, x) ∈ (claim_due_excluding (deployment x) now2 max2 exclude2 locked2 until2 t').1).
Proof.
  intros Hc Hr t'. split.
  - intros dep2 now2 max2 exclude2 locked2 until2 Hlt ([k x] & Hk & [Hx Hd]%elem_of_due_rows)%list_elem_of_fmap.
    cbn [fst snd] in *. subst k. assert (Ho : off entry until t').
    { apply run_off; [done|]. intros y [(z & _ & ->)|[_ Hn]]%lookup_leased; [right; simpl; lia|]. exfalso. apply Hn.
      apply (list_elem_of_fmap_2 fst _ _ Hc). }
    unfold is_due in Hd. rewrite !andb_true_iff in Hd. destruct Hd as [[_ Hp] Hn].
    destruct (Ho _ Hx) as [Hp'|]; [by rewrite Hp' in Hp|lia].
  - intros x now2 max2 exclude2 locked2 until2 Hx Hp Hn He Hl Hm. cbn [claim_due_excluding fst]. unfold due_rows.
    assert (Hlen : (length (sort_by due_leb (List.filter (λ e, is_due (deployment x) now2 e.2 && negb (existsb (String.eqb e.1) exclude2)
      && negb (existsb (String.eqb e.1) locked2)) (btree_list t'))) ≤ Z.to_nat max2)%nat).
    { rewrite (Permutation_length (sort_by_perm _ _)). etrans; [apply List.filter_length_le|].
      rewrite btree_list_length. lia. }
    rewrite take_ge by done. rewrite sort_by_perm, list_elem_of_In, filter_In, <-list_elem_of_In, elem_of_btree_list.
    split; [done|]. cbn [fst snd]. unfold is_due. rewrite String.eqb_refl, Hp, !andb_true_iff. cbn [negb].
    repeat split; [lia|apply negb_true_iff; rewrite <-not_true_iff_false, existsb_in; done..].
Qed.

Definition due_row : Row := mk_row "dep-1" "i-1" (Some "charge") "reply" 0 5 0 None false.
Definition due_table : Table := {["e-1" := due_row; "e-2" := with_due 7 due_row]}.

Lemma outbox_lease_exclusive_witness :
  let tr := [Renew "dep-1" ["e-1"] [] 80; DeleteMany "dep-1" ["e-2"]] in
  "e-1" ∉ map fst (claim_due_excluding "dep-1" 30 10 [] [] 90 (run tr (claim_due_excluding "dep-1" 10 2 [] [] 40 due_table).2)).1.
Proof.
  intros tr.
  refine (proj1 (outbox_lease_exclusive due_table "dep-1" 10 2 [] [] 40 "e-1" due_row tr _ _) "dep-1" 30 10 [] [] 90 _).
  - apply list_elem_of_In. vm_compute. left. reflexivity.
  - reflexivity.
  - lia.
Defined.
End Deliveries.
