(* ===== verification/Steps.v ===== *)
(** * The transactional step ([sutra-persistence/src/step.rs])

    Execution between two quiescent points commits as one transaction over the tables
    of [Stores]: a transaction is a function from the database to an error or to the
    new database, so an error leaves what was there.  [write_step_in],
    [commit_step_with_timers_releasing_retiring] and [commit_instance_migration] are the
    transactions of the source, statement by statement.  A failure of the database
    itself (a lost connection) is the same as a transaction that was not begun and is
    not modelled; a violated constraint is, as [Database].

    The theorems: the delivery of an event is committed at most once
    ([delivery_commits_once]); a live unique alias has one owner, whatever steps,
    retirements and migrations run ([unique_live_preserved]).  [commit_moved_all] is what
    the operation that migrates an instance needs of its commit: every row of the
    instance moves and no row of another. *)
From Stdlib Require Import ZArith Lia Bool Ascii String.
From stdpp Require Import base countable sorting option gmap fin_maps strings list.
From S2P Require Import Prelude Texts Stores.

Open Scope string_scope.
Open Scope list_scope.
Open Scope Z_scope.

Inductive PersistenceError : Type :=
| Database (operation : string)
| AliasCollision (deployment alias_name alias_value : string)
| InboxDuplicate (deployment channel event_id : string)
| InvalidArgument (message : string).

Record Db : Type := mk_db {
  db_instance : gmap (string * string) Instance.Row;
  db_wait : gmap (string * string * string) Wait.Row;
  db_alias : gmap (string * string * string * string) Alias.Row;
  db_subject : gmap (string * string * string * string) Subject.Row;
  db_inbox : gmap (string * string * string) Inbox.Row;
  db_outbox : gmap string Outbox.Row;
  db_journal : list Journal.Row;
  db_inflight : gset (string * string) }.

Definition set_instance t (d : Db) : Db := mk_db t (db_wait d) (db_alias d) (db_subject d) (db_inbox d) (db_outbox d) (db_journal d) (db_inflight d).
Definition set_wait t (d : Db) : Db := mk_db (db_instance d) t (db_alias d) (db_subject d) (db_inbox d) (db_outbox d) (db_journal d) (db_inflight d).
Definition set_alias t (d : Db) : Db := mk_db (db_instance d) (db_wait d) t (db_subject d) (db_inbox d) (db_outbox d) (db_journal d) (db_inflight d).
Definition set_subject t (d : Db) : Db := mk_db (db_instance d) (db_wait d) (db_alias d) t (db_inbox d) (db_outbox d) (db_journal d) (db_inflight d).
Definition set_inbox t (d : Db) : Db := mk_db (db_instance d) (db_wait d) (db_alias d) (db_subject d) t (db_outbox d) (db_journal d) (db_inflight d).
Definition set_outbox t (d : Db) : Db := mk_db (db_instance d) (db_wait d) (db_alias d) (db_subject d) (db_inbox d) t (db_journal d) (db_inflight d).
Definition set_journal t (d : Db) : Db := mk_db (db_instance d) (db_wait d) (db_alias d) (db_subject d) (db_inbox d) (db_outbox d) t (db_inflight d).
Definition set_inflight t (d : Db) : Db := mk_db (db_instance d) (db_wait d) (db_alias d) (db_subject d) (db_inbox d) (db_outbox d) (db_journal d) t.

(** ** One step *)

Record StepWait : Type := mk_step_wait { sw_node_id : string; sw_process_id : string; sw_correlation_key : option string }.
Record StepAlias : Type := mk_step_alias { sa_name : string; sa_value : string; sa_unique : bool }.
Record StepSubject : Type := mk_step_subject { ss_name : string; ss_blind : string }.
Record StepTimerWait : Type := mk_step_timer { st_node_id : string; st_process_id : string; st_due_at : Z }.

Record StepWrite : Type := mk_step {
  step_deployment : string; step_instance : string; step_snapshot : string;
  step_waits : list StepWait; step_resolved_waits : list string; step_aliases : list StepAlias;
  step_subjects : list StepSubject; step_outbox : list (string * Outbox.Row);
  step_withdrawn_call_nodes : list string; step_inbox_seen : list (string * string) }.

Section Step.
Context (pick : list string → option string) (now : Z).

Fixpoint record_inbox_seen_in (dep : string) (records : list (string * string)) (inst : option string) (d : Db)
    : result PersistenceError Db :=
  match records with
  | [] => Ok d
  | (channel, event) :: rest =>
      let '(first, t) := Inbox.record_seen_for_in now dep channel event inst (db_inbox d) in
      if first then record_inbox_seen_in dep rest inst (set_inbox t d)
      else Err (InboxDuplicate dep channel event)
  end.

Definition record_wait (step : StepWrite) (d : Db) (w : StepWait) : Db :=
  let fresh := existsb (λ n, String.eqb n (sw_node_id w)) (step_resolved_waits step) in
  set_wait
    ((if fresh then Wait.record_waiting_fresh_in else Wait.record_waiting_in)
       now (step_deployment step) (step_instance step) (sw_process_id w) (sw_node_id w) (sw_correlation_key w) (db_wait d)) d.

Fixpoint record_aliases (dep inst : string) (aliases : list StepAlias) (d : Db) : result PersistenceError Db :=
  match aliases with
  | [] => Ok d
  | a :: rest =>
      match Alias.record_in pick now dep inst (sa_name a) (sa_value a) (sa_unique a) (db_alias d) with
      | None => Err (Database "alias revive")
      | Some (recorded, t) =>
          if negb recorded then Err (AliasCollision dep (sa_name a) (sa_value a))
          else record_aliases dep inst rest (set_alias t d)
      end
  end.

Fixpoint enqueue_all (entries : list (string * Outbox.Row)) (d : Db) : result PersistenceError Db :=
  match entries with
  | [] => Ok d
  | (entry, r) :: rest =>
      match Outbox.enqueue_in entry r (db_outbox d) with
      | None => Err (Database "outbox enqueue")
      | Some t => enqueue_all rest (set_outbox t d)
      end
  end.

Definition write_step_in (step : StepWrite) (d : Db) : result PersistenceError Db :=
  let dep := step_deployment step in
  let inst := step_instance step in
  d ← record_inbox_seen_in dep (step_inbox_seen step) (Some inst) d;
  let d := fold_left (λ d n, set_wait (Wait.resolve now dep inst n (db_wait d)) d) (step_resolved_waits step) d in
  let d := fold_left (λ d n, set_outbox (Outbox.withdraw_for_node_in dep inst n (db_outbox d)) d) (step_withdrawn_call_nodes step) d in
  let d := set_instance (Instance.persist_in now dep inst (step_snapshot step) (db_instance d)) d in
  let d := fold_left (record_wait step) (step_waits step) d in
  d ← record_aliases dep inst (step_aliases step) d;
  let d := fold_left (λ d s, set_subject (Subject.record_in now dep inst (ss_name s) (ss_blind s) (db_subject d)) d) (step_subjects step) d in
  enqueue_all (step_outbox step) d.

(** [entry.deployment != step.deployment || entry.instance_id != step.instance_id]. *)
Definition foreign_entry (step : StepWrite) (e : string * Outbox.Row) : bool :=
  negb (String.eqb (Outbox.deployment e.2) (step_deployment step)) || negb (String.eqb (Outbox.instance_id e.2) (step_instance step)).

Definition check_entries (step : StepWrite) : result PersistenceError () :=
  match List.find (foreign_entry step) (step_outbox step) with
  | Some e => Err (InvalidArgument ("outbox entry " +:+ e.1 +:+ " does not belong to step instance " +:+ step_instance step +:+ " / " +:+ step_deployment step))
  | None => Ok ()
  end.

Definition commit_step (step : StepWrite) (d : Db) : result PersistenceError Db :=
  _ ← check_entries step; write_step_in step d.

Definition write_step_with_timers_in (step : StepWrite) (timers : list StepTimerWait) (d : Db) : result PersistenceError Db :=
  d ← write_step_in step d;
  Ok (fold_left (λ d t, set_wait (Wait.record_timer_waiting_in now (step_deployment step) (step_instance step)
        (st_process_id t) (st_node_id t) (st_due_at t) (db_wait d)) d) timers d).

(** [clear_in]: a statement is issued only for a marker of this process. *)
Definition clear_inflight (markers : gset (string * string)) (dep inst : string) (d : Db) : Db :=
  if bool_decide ((dep, inst) ∈ markers) then set_inflight (db_inflight d ∖ {[(dep, inst)]}) d else d.

Definition commit_step_with_timers_releasing_retiring (markers : gset (string * string)) (step : StepWrite)
    (timers : list StepTimerWait) (claim_owner : option string) (retired_aliases : list (string * string)) (d : Db)
    : result PersistenceError Db :=
  let dep := step_deployment step in
  let inst := step_instance step in
  _ ← check_entries step;
  let d := fold_left (λ d a, set_alias (Alias.retire_one_in dep inst a.1 a.2 (db_alias d)) d) retired_aliases d in
  d ← write_step_with_timers_in step timers d;
  let d := clear_inflight markers dep inst d in
  Ok (match claim_owner with
      | Some owner => set_instance (Instance.release_in owner dep inst (db_instance d)).2 d
      | None => d
      end).

Definition commit_step_with_timers_releasing (markers : gset (string * string)) (step : StepWrite)
    (timers : list StepTimerWait) (claim_owner : option string) (d : Db) : result PersistenceError Db :=
  commit_step_with_timers_releasing_retiring markers step timers claim_owner [] d.

Definition commit_step_with_timers (markers : gset (string * string)) (step : StepWrite)
    (timers : list StepTimerWait) (d : Db) : result PersistenceError Db :=
  commit_step_with_timers_releasing markers step timers None d.
End Step.

(** ** Moving an instance to another deployment *)

Record InstanceMigration : Type := mk_migration {
  im_from : string; im_to : string; im_instance : string; im_snapshot : string; im_node_mapping : gmap string string;
  im_process_id : option string; im_rearm_parks : option (gset string); im_claim_owner : string;
  im_carry_journal : bool; im_audit : option Journal.Row }.

Record InstanceMigrationOutcome : Type := mk_outcome {
  out_wait_rows : Z; out_alias_rows : Z; out_subject_rows : Z; out_audit_rows : Z; out_rearmed_rows : Z }.

Section Migrate.
Context (now : Z) (m : InstanceMigration).

Definition map_node (id : string) : string := default id (im_node_mapping m !! id).

(** The first target node two wait rows would share. *)
Fixpoint first_fold (seen : gset string) (waits : list (string * Wait.Row)) : option string :=
  match waits with
  | [] => None
  | w :: rest => let mapped := map_node w.1 in
      if bool_decide (mapped ∈ seen) then Some mapped else first_fold ({[mapped]} ∪ seen) rest
  end.

(** The frontier to re-arm, unless it is empty. *)
Definition rearm_frontier : option (gset string) :=
  match im_rearm_parks m with Some f => if bool_decide (f = ∅) then None else Some f | None => None end.

Definition newest_resolution (waits : list (string * Wait.Row)) : option Z :=
  match rearm_frontier with
  | Some _ => fold_left (λ acc x, Some (match acc with Some y => Z.max y x | None => x end)) (omap (λ w, Wait.resolved_at w.2) waits) None
  | None => None
  end.

Definition rearms (newest : option Z) (w : string * Wait.Row) : bool :=
  match rearm_frontier with
  | Some frontier =>
      bool_decide (map_node w.1 ∈ frontier)
      || (is_some (Wait.resolved_at w.2) && bool_decide (Wait.resolved_at w.2 = newest))
  | None => false
  end.

Definition moved_wait (newest : option Z) (w : string * Wait.Row) : Wait.Row :=
  let r := w.2 in
  let rearm := rearms newest w in
  Wait.mk_row (default (Wait.process_id r) (im_process_id m)) (Wait.correlation_key r)
    (if rearm then Wait.STATUS_WAITING else Wait.status r) (Wait.created_at r)
    (if rearm then None else Wait.resolved_at r) (Wait.kind r) (Wait.timer_due_at r).

Fixpoint insert_waits (newest : option Z) (waits : list (string * Wait.Row)) (t : gmap (string * string * string) Wait.Row)
    : result PersistenceError (gmap (string * string * string) Wait.Row) :=
  match waits with
  | [] => Ok t
  | w :: rest =>
      match t !! (im_to m, im_instance m, map_node w.1) with
      | Some _ => Err (Database "migration write wait rows")
      | None => insert_waits newest rest (<[(im_to m, im_instance m, map_node w.1) := moved_wait newest w]> t)
      end
  end.

(** The alias rows and how many were written. *)
Fixpoint insert_aliases (aliases : list (string * string * Alias.Row)) (t : gmap (string * string * string * string) Alias.Row)
    : result PersistenceError (Z * gmap (string * string * string * string) Alias.Row) :=
  match aliases with
  | [] => Ok (0, t)
  | (name, value, r) :: rest =>
      let '(inserted, t) := Alias.insert_row (im_to m) (im_instance m) name value r t in
      if negb inserted && Alias.unique_alias r && Alias.live r then Err (AliasCollision (im_to m) name value)
      else '(n, t) ← insert_aliases rest t; Ok ((if inserted then 1 else 0) + n, t)
  end.

Definition insert_subject (t : gmap (string * string * string * string) Subject.Row) (s : string * string * Subject.Row)
    : gmap (string * string * string * string) Subject.Row :=
  let k := (im_to m, im_instance m, s.1.1, s.1.2) in
  match t !! k with Some _ => t | None => <[k := s.2]> t end.

Definition repin (r : Journal.Row) : Journal.Row :=
  Journal.mk_row (im_to m) (Some (im_instance m)) (Journal.seq r) (Journal.at_ r) (Journal.event_type r) (Journal.node_id r)
    (Journal.diagnostic_code r) (Journal.diagnostic_json r) (Journal.payload_json r).

Definition aliases_of (t : gmap (string * string * string * string) Alias.Row) : list (string * string * Alias.Row) :=
  omap (λ e, if Alias.of_instance (im_from m) (im_instance m) e.1 then Some (e.1.1.2, e.1.2, e.2) else None) (map_to_list t).

Definition subjects_of (t : gmap (string * string * string * string) Subject.Row) : list (string * string * Subject.Row) :=
  omap (λ e, if Subject.of_instance (im_from m) (im_instance m) e.1 then Some (e.1.1.2, e.1.2, e.2) else None) (map_to_list t).

(** [ORDER BY seq]. *)
Definition journal_of (t : list Journal.Row) : list Journal.Row :=
  if im_carry_journal m then
    sort_by (λ a b, Journal.seq a <=? Journal.seq b) (List.filter (Journal.of_instance (im_from m) (im_instance m)) t)
  else [].

Definition delete_waits (t : gmap (string * string * string) Wait.Row) : gmap (string * string * string) Wait.Row :=
  map_imap (λ k r, if Wait.of_instance (im_from m) (im_instance m) k then None else Some r) t.

Definition write_journal (journal : list Journal.Row) (t : list Journal.Row) : list Journal.Row :=
  let t := match journal with
           | [] => t
           | _ => List.filter (λ r, negb (Journal.of_instance (im_from m) (im_instance m) r)) t
           end in
  let t := fold_left (λ t r, (Journal.insert_in (repin r) t).2) journal t in
  match im_audit m with Some event => (Journal.insert_in event t).2 | None => t end.

Definition still_ours (d : Db) : result PersistenceError () :=
  match Instance.load_owned_for_update (im_from m) (im_instance m) (db_instance d) with
  | None =>
      Err (InvalidArgument ("instance " +:+ im_instance m +:+ " vanished from " +:+ im_from m +:+ " before the migration could move it"))
  | Some (_, owner, terminal) =>
      if terminal then
        Err (InvalidArgument ("instance " +:+ im_instance m +:+ " became terminal before the migration could move it — a finished instance is history, not live state"))
      else if bool_decide (owner = Some (im_claim_owner m)) then Ok ()
      else Err (InvalidArgument ("instance " +:+ im_instance m +:+ "'s ownership claim is no longer held by this migration (now: "
             +:+ default "<unowned>" owner +:+ ") — refusing to move a row something else is advancing"))
  end.

Definition commit_instance_migration (d : Db) : result PersistenceError (InstanceMigrationOutcome * Db) :=
  if String.eqb (im_from m) (im_to m) then
    Err (InvalidArgument ("instance " +:+ im_instance m +:+ " is already pinned to " +:+ im_to m +:+ " — a migration must name a different target"))
  else
    _ ← still_ours d;
    let waits := Wait.list_for_instance (im_from m) (im_instance m) (db_wait d) in
    match first_fold ∅ waits with
    | Some mapped =>
        Err (InvalidArgument ("the node mapping folds more than one parked wait node onto target node '" +:+ mapped +:+ "' — a wait point would be lost"))
    | None =>
        let aliases := aliases_of (db_alias d) in
        let subjects := subjects_of (db_subject d) in
        let journal := journal_of (db_journal d) in
        let newest := newest_resolution waits in
        let instances := Instance.persist_in now (im_to m) (im_instance m) (im_snapshot m)
                           (Instance.delete_row (im_from m) (im_instance m) (db_instance d)) in
        wait_rows ← insert_waits newest waits (delete_waits (db_wait d));
        '(alias_count, alias_rows) ← insert_aliases aliases (Alias.delete_all (im_from m) (im_instance m) (db_alias d));
        let subject_rows := fold_left insert_subject subjects (Subject.delete_all (im_from m) (im_instance m) (db_subject d)) in
        Ok (mk_outcome (Z.of_nat (length waits)) alias_count (Z.of_nat (length subjects)) (Z.of_nat (length journal))
              (Z.of_nat (length (List.filter (rearms newest) waits))),
            mk_db instances wait_rows alias_rows subject_rows (db_inbox d) (db_outbox d)
              (write_journal journal (db_journal d)) (db_inflight d))
    end.
End Migrate.

(** ** What a step leaves alone *)

(** The transactions that change the tables, by whichever replica. *)
Inductive commits (pick : list string → option string) : Db → Db → Prop :=
| commits_step now step d d' : commit_step pick now step d = Ok d' → commits pick d d'
| commits_full now markers step timers owner retired d d' :
    commit_step_with_timers_releasing_retiring pick now markers step timers owner retired d = Ok d' → commits pick d d'
| commits_migration now m out d d' : commit_instance_migration now m d = Ok (out, d') → commits pick d d'
| commits_retire dep inst d : commits pick d (set_alias (Alias.retire dep inst (db_alias d)) d)
| commits_claims t d : commits pick d (set_instance t d)
| commits_waits t d : commits pick d (set_wait t d)
| commits_outbox t d : commits pick d (set_outbox t d).

Definition unowned (r : Instance.Row) : Prop :=
  Instance.claim_owner r = None ∧ Instance.claimed_at r = None ∧ Instance.last_heartbeat_at r = None.

Lemma release_claim (now : Z) (owner dep inst : string) (t : gmap (string * string) Instance.Row) r :
  t !! (dep, inst) = Some r → unowned r →
  Instance.claim now owner dep inst t = (true, <[(dep, inst) := Instance.with_claim (Some owner) (Some now) r]> t) ∧
  (Instance.release_in owner dep inst (<[(dep, inst) := Instance.with_claim (Some owner) (Some now) r]> t)).2 = t.
Proof.
  intros Hr (Ho & Hc & Hh). split; [unfold Instance.claim, Instance.may_claim; by rewrite Hr, Ho|].
  unfold Instance.release_in, Instance.update_owned. rewrite lookup_insert_eq. unfold Instance.owned_by. simpl. rewrite String.eqb_refl. simpl.
  rewrite insert_insert_eq. apply insert_id. rewrite Hr. f_equal. destruct r. simpl in *. by subst.
Qed.

Lemma set_instance_same d : set_instance (db_instance d) d = d.
Proof. by destruct d. Qed.

Lemma fold_frame {A B} (P : Db → B) (f : Db → A → Db) l d :
  (∀ d x, P (f d x) = P d) → P (fold_left f l d) = P d.
Proof. intros Hf. revert d. induction l as [|x l IH]; intros d; [done|]. simpl. by rewrite IH. Qed.

Lemma record_inbox_ok now dep records inst d d' :
  record_inbox_seen_in now dep records inst d = Ok d' →
  db_inbox d ⊆ db_inbox d' ∧ db_alias d' = db_alias d ∧
  (∀ r, r ∈ records → db_inbox d !! (dep, r.1, r.2) = None ∧ is_Some (db_inbox d' !! (dep, r.1, r.2))).
Proof.
  revert d. induction records as [|[channel event] rest IH]; intros d; simpl.
  { intros [= <-]. split; [done|]. split; [done|]. by intros r Hr%elem_of_nil. }
  unfold Inbox.record_seen_for_in. destruct (db_inbox d !! (dep, channel, event)) as [x|] eqn:E; [done|].
  intros (Hs & Ha & Hr)%IH. simpl in Hs, Ha, Hr. assert (Hsub : db_inbox d ⊆ <[(dep, channel, event) := Inbox.mk_row now inst]> (db_inbox d))
    by by apply insert_subseteq.
  split; [by trans (<[(dep, channel, event) := Inbox.mk_row now inst]> (db_inbox d))|]. split; [done|].
  intros r [->|Hin]%elem_of_cons.
  - split; [done|]. eapply lookup_weaken in Hs; [by eexists|apply lookup_insert_eq].
  - destruct (Hr r Hin) as [Hn Hy]. split; [|done]. destruct (db_inbox d !! (dep, r.1, r.2)) as [y|] eqn:Ey; [|done].
    eapply lookup_weaken in Hsub; [|exact Ey]. congruence.
Qed.

Lemma record_aliases_inbox pick now dep inst aliases d d' :
  record_aliases pick now dep inst aliases d = Ok d' → db_inbox d' = db_inbox d.
Proof.
  revert d. induction aliases as [|a rest IH]; intros d; simpl; [by intros [= <-]|].
  destruct (Alias.record_in _ _ _ _ _ _ _ _) as [[[|] t]|]; simpl; [|done..]. intros H%IH. done.
Qed.

Lemma enqueue_all_frame entries d d' : enqueue_all entries d = Ok d' → db_inbox d' = db_inbox d ∧ db_alias d' = db_alias d.
Proof.
  revert d. induction entries as [|[e r] rest IH]; intros d; simpl; [by intros [= <-]|].
  destruct (Outbox.enqueue_in _ _ _) as [t|]; [|done]. intros H%IH. done.
Qed.

(** A committed step recorded its deliveries, which were new. *)
Lemma write_step_inbox pick now step d d' :
  write_step_in pick now step d = Ok d' →
  db_inbox d ⊆ db_inbox d' ∧
  (∀ r, r ∈ step_inbox_seen step →
     db_inbox d !! (step_deployment step, r.1, r.2) = None ∧ is_Some (db_inbox d' !! (step_deployment step, r.1, r.2))).
Proof.
  unfold write_step_in. intros (d1 & (Hs & _ & Hr)%record_inbox_ok & (d2 & Ha%record_aliases_inbox & [He _]%enqueue_all_frame)%result_bind_ok)%result_bind_ok.
  assert (Hd : db_inbox d' = db_inbox d1).
  { rewrite He, fold_frame by done. rewrite Ha, fold_frame by done. simpl. by rewrite !fold_frame by done. }
  rewrite Hd. done.
Qed.

Lemma commit_full_ok pick now markers step timers owner retired d d' :
  commit_step_with_timers_releasing_retiring pick now markers step timers owner retired d = Ok d' →
  ∃ d0 d1, write_step_in pick now step d0 = Ok d1 ∧ db_inbox d0 = db_inbox d ∧ db_inbox d' = db_inbox d1 ∧
    db_alias d0 = fold_left (λ t a, Alias.retire_one_in (step_deployment step) (step_instance step) a.1 a.2 t) retired (db_alias d) ∧
    db_alias d' = db_alias d1.
Proof.
  unfold commit_step_with_timers_releasing_retiring, write_step_with_timers_in.
  intros (? & _ & (d2 & (d1 & Hw & [= <-])%result_bind_ok & [= <-])%result_bind_ok)%result_bind_ok.
  set (d0 := fold_left (λ d a, set_alias (Alias.retire_one_in (step_deployment step) (step_instance step) a.1 a.2 (db_alias d)) d) retired d) in *.
  exists d0, d1. split; [done|]. split; [unfold d0; by rewrite fold_frame|].
  assert (Hc : ∀ d, db_inbox (clear_inflight markers (step_deployment step) (step_instance step) d) = db_inbox d
    ∧ db_alias (clear_inflight markers (step_deployment step) (step_instance step) d) = db_alias d)
    by (intros dx; unfold clear_inflight; by case_match).
  split; [|split].
  - destruct owner; simpl; rewrite (proj1 (Hc _)); by rewrite fold_frame.
  - unfold d0. clear. revert d. induction retired as [|a retired IH]; intros d; [done|]. simpl. by rewrite IH.
  - destruct owner; simpl; rewrite (proj2 (Hc _)); by rewrite fold_frame.
Qed.

Lemma migration_ok now m out d d' :
  commit_instance_migration now m d = Ok (out, d') →
  let waits := Wait.list_for_instance (im_from m) (im_instance m) (db_wait d) in
  im_from m ≠ im_to m ∧ still_ours m d = Ok () ∧ first_fold m ∅ waits = None ∧
  db_instance d' = Instance.persist_in now (im_to m) (im_instance m) (im_snapshot m)
                     (Instance.delete_row (im_from m) (im_instance m) (db_instance d)) ∧
  insert_waits m (newest_resolution m waits) waits (delete_waits m (db_wait d)) = Ok (db_wait d') ∧
  (∃ n, insert_aliases m (aliases_of m (db_alias d)) (Alias.delete_all (im_from m) (im_instance m) (db_alias d)) = Ok (n, db_alias d')) ∧
  db_subject d' = fold_left (insert_subject m) (subjects_of m (db_subject d)) (Subject.delete_all (im_from m) (im_instance m) (db_subject d)) ∧
  db_inbox d' = db_inbox d ∧ db_outbox d' = db_outbox d.
Proof.
  unfold commit_instance_migration. destruct (String.eqb_spec (im_from m) (im_to m)); [done|].
  intros ([] & Ho & Hm)%result_bind_ok. destruct (first_fold _ _ _) eqn:Ef; [done|].
  apply result_bind_ok in Hm as (w & Hw & ([k al] & Ha & [= <- <-])%result_bind_ok). simpl. repeat split; try done. by exists k.
Qed.

Lemma commits_inbox pick d d' : commits pick d d' → db_inbox d ⊆ db_inbox d'.
Proof.
  intros [now step d0 d1 Hc|now markers step timers owner retired d0 d1 Hc|now m out d0 d1 Hc|? ? d0|t d0|t d0|t d0]; simpl; try done.
  - unfold commit_step in Hc. apply result_bind_ok in Hc as (? & _ & [Hs _]%write_step_inbox). done.
  - apply commit_full_ok in Hc as (x & y & [Hs _]%write_step_inbox & Hx & Hy & _). by rewrite <-Hx, Hy.
  - apply migration_ok in Hc as (_ & _ & _ & _ & _ & _ & _ & -> & _). done.
Qed.

(** ** A live unique alias has one owner *)

Definition unique_live (t : gmap (string * string * string * string) Alias.Row) : Prop :=
  ∀ dep i j name value r s, t !! (dep, i, name, value) = Some r → t !! (dep, j, name, value) = Some s →
    Alias.unique_alias r = true → Alias.live r = true → Alias.unique_alias s = true → Alias.live s = true → i = j.

(** [LIMIT 1] returns a row when there is one. *)
Definition picks (pick : list string → option string) : Prop := ∀ l, pick l = None → l = [].

Lemma not_taken dep inst name value t j r :
  Alias.taken dep inst name value t = false → t !! (dep, j, name, value) = Some r →
  Alias.unique_alias r = true → Alias.live r = true → j = inst.
Proof.
  intros Ht Hr Hu Hl. destruct (decide (j = inst)) as [|Hne]; [done|]. exfalso. apply not_true_iff_false in Ht. apply Ht.
  apply existsb_exists. exists (dep, j, name, value, r). split; [by apply list_elem_of_In, elem_of_map_to_list|]. simpl.
  rewrite !String.eqb_refl, Hu, Hl. simpl. apply String.eqb_neq in Hne. by rewrite Hne.
Qed.

Lemma no_owner_not_taken dep inst name value t : Alias.live_owners dep name value t = [] → Alias.taken dep inst name value t = false.
Proof.
  intros Ho. apply not_true_iff_false. intros ([[[[d i] n] v] r] & Hin%list_elem_of_In & Ht)%existsb_exists. simpl in Ht.
  rewrite !andb_true_iff in Ht. destruct Ht as [[[[[Hd Hi] Hn] Hv] Hu] Hl].
  assert (Hx : i ∈ Alias.live_owners dep name value t); [|rewrite Ho in Hx; by apply elem_of_nil in Hx].
  unfold Alias.live_owners. apply list_elem_of_omap. exists (d, i, n, v, r). split; [done|]. simpl. by rewrite Hd, Hn, Hv, Hl.
Qed.

Lemma unique_live_insert t dep inst name value r :
  unique_live t → (Alias.unique_alias r && Alias.live r && Alias.taken dep inst name value t) = false →
  unique_live (<[(dep, inst, name, value) := r]> t).
Proof.
  intros Ht Hr.
  assert (Hone : ∀ j s, t !! (dep, j, name, value) = Some s → Alias.unique_alias r = true → Alias.live r = true →
    Alias.unique_alias s = true → Alias.live s = true → j = inst).
  { intros j s Hs Hu Hl Hu' Hl'. rewrite Hu, Hl in Hr. by apply (not_taken dep inst name value t j s). }
  intros d i j n v x y Hx Hy Ux Lx Uy Ly.
  destruct (decide ((dep, inst, name, value) = (d, i, n, v))) as [Hi|Hi].
  - injection Hi as <- <- <- <-. rewrite lookup_insert_eq in Hx. injection Hx as <-.
    destruct (decide (j = inst)) as [->|Hne]; [done|]. rewrite lookup_insert_ne in Hy by congruence. symmetry. by apply (Hone j y).
  - rewrite lookup_insert_ne in Hx by done. destruct (decide ((dep, inst, name, value) = (d, j, n, v))) as [Hj|Hj].
    + injection Hj as <- <- <- <-. rewrite lookup_insert_eq in Hy. injection Hy as <-. by apply (Hone i x).
    + rewrite lookup_insert_ne in Hy by done. by apply (Ht d i j n v x y).
Qed.

(** Rows that lose liveness or go away break nothing. *)
Lemma unique_live_weaken t t' :
  unique_live t →
  (∀ k r, t' !! k = Some r → Alias.unique_alias r = true → Alias.live r = true →
     ∃ r0, t !! k = Some r0 ∧ Alias.unique_alias r0 = true ∧ Alias.live r0 = true) →
  unique_live t'.
Proof.
  intros Ht Hw dep i j name value r s Hr Hs Ur Lr Us Ls. destruct (Hw _ _ Hr Ur Lr) as (r0 & Hr0 & Ur0 & Lr0).
  destruct (Hw _ _ Hs Us Ls) as (s0 & Hs0 & Us0 & Ls0). by apply (Ht dep i j name value r0 s0).
Qed.

Lemma insert_row_unique dep inst name value r t b t' :
  Alias.insert_row dep inst name value r t = (b, t') → unique_live t → unique_live t'.
Proof.
  unfold Alias.insert_row. destruct (t !! _) eqn:E; [by intros [= _ <-]|]. case_match eqn:Et; intros [= _ <-]; [done|].
  intros Ht. by apply unique_live_insert.
Qed.

Lemma record_in_unique pick now dep inst name value unique t b t' :
  Alias.record_in pick now dep inst name value unique t = Some (b, t') → unique_live t → unique_live t'.
Proof.
  unfold Alias.record_in. destruct (Alias.insert_row _ _ _ _ _ _) as [ins t1] eqn:Ei. destruct ins.
  { intros [= _ <-]. by apply (insert_row_unique _ _ _ _ _ _ _ _ Ei). }
  destruct (if unique then _ else None) as [owner|] eqn:Eo; [by intros [= _ <-]|].
  intros ([rev t2] & Hrev & [= _ <-])%bind_Some Ht. unfold Alias.revive in Hrev.
  destruct (t !! _) as [r|] eqn:E; [|by injection Hrev as _ <-]. destruct (Alias.live r); [by injection Hrev as _ <-|].
  case_match eqn:Et; [done|]. injection Hrev as _ <-. apply unique_live_insert; [done|]. simpl. by rewrite andb_true_r.
Qed.

Lemma retire_one_unique dep inst name value t : unique_live t → unique_live (Alias.retire_one_in dep inst name value t).
Proof.
  intros Ht. unfold Alias.retire_one_in. destruct (t !! _) as [r|] eqn:E; [|done]. destruct (Alias.live r); [|done].
  apply unique_live_insert; [done|]. simpl. by rewrite andb_false_r.
Qed.

Lemma record_aliases_unique pick now dep inst aliases d d' :
  record_aliases pick now dep inst aliases d = Ok d' → unique_live (db_alias d) → unique_live (db_alias d').
Proof.
  revert d. induction aliases as [|a rest IH]; intros d; simpl; [by intros [= <-]|].
  destruct (Alias.record_in _ _ _ _ _ _ _ _) as [[[|] t]|] eqn:E; simpl; [|done..]. intros H Hd.
  apply (IH _ H). by apply (record_in_unique _ _ _ _ _ _ _ _ _ _ E).
Qed.

Lemma insert_aliases_unique m l t n t' : insert_aliases m l t = Ok (n, t') → unique_live t → unique_live t'.
Proof.
  revert t n. induction l as [|[[name value] r] l IH]; intros t n; simpl; [by intros [= _ <-]|].
  destruct (Alias.insert_row _ _ _ _ _ _) as [b t1] eqn:E. case_match; [done|].
  intros ([k t2] & H2 & [= _ <-])%result_bind_ok Ht. apply (IH _ _ H2). by apply (insert_row_unique _ _ _ _ _ _ _ _ E).
Qed.

Lemma write_step_unique pick now step d d' :
  write_step_in pick now step d = Ok d' → unique_live (db_alias d) → unique_live (db_alias d').
Proof.
  unfold write_step_in. intros (d1 & (_ & Ha1 & _)%record_inbox_ok & (d2 & Ha & [_ He]%enqueue_all_frame)%result_bind_ok)%result_bind_ok Hd.
  rewrite He, fold_frame by done. apply (record_aliases_unique _ _ _ _ _ _ _ Ha). rewrite fold_frame by done. simpl.
  rewrite !fold_frame by done. by rewrite Ha1.
Qed.

Lemma commits_unique pick d d' : commits pick d d' → unique_live (db_alias d) → unique_live (db_alias d').
Proof.
  intros [now step d0 d1 Hc|now markers step timers owner retired d0 d1 Hc|now m out d0 d1 Hc|dep inst d0|t d0|t d0|t d0] Hd; simpl; try done.
  - unfold commit_step in Hc. apply result_bind_ok in Hc as (? & _ & Hw). by apply (write_step_unique _ _ _ _ _ Hw).
  - apply commit_full_ok in Hc as (x & y & Hw & _ & _ & Hx & ->). apply (write_step_unique _ _ _ _ _ Hw). rewrite Hx.
    clear -Hd. revert Hd. generalize (db_alias d0). induction retired as [|a l IH]; intros t Ht; [done|]. simpl.
    by apply IH, retire_one_unique.
  - apply migration_ok in Hc as (_ & _ & _ & _ & _ & [n Ha] & _). apply (insert_aliases_unique _ _ _ _ _ Ha).
    apply (unique_live_weaken (db_alias d0)); [done|]. intros k r. unfold Alias.delete_all. rewrite map_lookup_imap.
    destruct (db_alias d0 !! k) as [r0|]; [|done]. simpl. case_match; [done|]. intros [= <-] Hu Hl. by exists r0.
  - apply (unique_live_weaken (db_alias d0)); [done|]. intros k r. unfold Alias.retire. rewrite map_lookup_imap.
    destruct (db_alias d0 !! k) as [r0|]; [|done]. simpl. intros [= <-]. case_match; [done|]. intros Hu Hl. by exists r0.
Qed.

(** Reviving never meets the index: the key had no live owner. *)
Lemma record_in_total pick now dep inst name value unique t :
  picks pick → is_Some (Alias.record_in pick now dep inst name value unique t).
Proof.
  intros Hp. unfold Alias.record_in. destruct (Alias.insert_row _ _ _ _ _ _) as [[|] t1]; [by eexists|].
  destruct (if unique then _ else None) as [owner|] eqn:Eo; [by eexists|].
  assert (Hr : unique && Alias.taken dep inst name value t = false).
  { destruct unique; [|done]. apply Hp, (no_owner_not_taken dep inst) in Eo. by rewrite Eo. }
  unfold Alias.revive. destruct (t !! _) as [r|]; [|by eexists]. destruct (Alias.live r); [by eexists|]. rewrite Hr. by eexists.
Qed.

(** ** Moving the rows of an instance *)

Lemma elem_of_waits dep inst t node r :
  (node, r) ∈ Wait.list_for_instance dep inst t ↔ t !! (dep, inst, node) = Some r.
Proof.
  unfold Wait.list_for_instance. rewrite sort_rows_perm, list_elem_of_omap. unfold Wait.of_instance. split.
  - intros ([[[d i] n] x] & Hx%elem_of_map_to_list & E). simpl in E. case_match eqn:Ec; [|done]. injection E as -> ->.
    apply andb_true_iff in Ec as [->%String.eqb_eq ->%String.eqb_eq]. done.
  - intros Hr. exists (dep, inst, node, r). split; [by apply elem_of_map_to_list|]. simpl. by rewrite !String.eqb_refl.
Qed.

Section Moved.
Context (m : InstanceMigration).

Definition target_wait (node : string) : string * string * string := (im_to m, im_instance m, map_node m node).

Lemma insert_waits_ok newest waits t t' :
  insert_waits m newest waits t = Ok t' →
  (∀ w, w ∈ waits → t' !! target_wait w.1 = Some (moved_wait m newest w)) ∧
  (∀ k x, t !! k = Some x → t' !! k = Some x) ∧
  (∀ k, (∀ w, w ∈ waits → k ≠ target_wait w.1) → t' !! k = t !! k).
Proof.
  revert t. induction waits as [|w waits IH]; intros t; simpl.
  { intros [= <-]. split; [by intros w Hw%elem_of_nil|done]. }
  fold (target_wait w.1). destruct (t !! target_wait w.1) as [x|] eqn:E; [done|]. intros (Hm & Hk & Ho)%IH. split; [|split].
  - intros w' [->|Hw']%elem_of_cons; [|by apply Hm]. apply Hk. by rewrite lookup_insert_eq.
  - intros k x Hx. apply Hk. rewrite lookup_insert_ne; [done|]. intros <-. congruence.
  - intros k Hn. rewrite Ho by (intros; apply Hn; by right). rewrite lookup_insert_ne; [done|]. intros <-. apply (Hn w); [by left|done].
Qed.

(** Rows keyed by two texts, written under the target. *)
Definition put_row {R} (t : gmap (string * string * string * string) R) (e : string * string * R) : gmap (string * string * string * string) R :=
  <[(im_to m, im_instance m, e.1.1, e.1.2) := e.2]> t.

Definition unwritten {R} (l : list (string * string * R)) (t : gmap (string * string * string * string) R) : Prop :=
  NoDup (map fst l) ∧ ∀ e, e ∈ l → t !! (im_to m, im_instance m, e.1.1, e.1.2) = None.

Lemma unwritten_tail {R} (e : string * string * R) l t : unwritten (e :: l) t → unwritten l (put_row t e).
Proof.
  intros [[Hnin Hnd]%NoDup_cons Hn]. split; [done|]. intros x Hx. unfold put_row.
  rewrite lookup_insert_ne; [apply Hn; by right|]. intros [= E1 E2]. apply Hnin.
  replace e.1 with x.1; [by apply (list_elem_of_fmap_2 fst)|]. destruct x as [[? ?] ?], e as [[? ?] ?]. simpl in *. congruence.
Qed.

Lemma put_rows_ok {R} (l : list (string * string * R)) t :
  unwritten l t →
  (∀ e, e ∈ l → fold_left put_row l t !! (im_to m, im_instance m, e.1.1, e.1.2) = Some e.2) ∧
  (∀ k, (∀ e, e ∈ l → k ≠ (im_to m, im_instance m, e.1.1, e.1.2)) → fold_left put_row l t !! k = t !! k).
Proof.
  revert t. induction l as [|x l IH]; intros t Hu; [split; [by intros e He%elem_of_nil|done]|]. simpl.
  destruct (IH _ (unwritten_tail _ _ _ Hu)) as [Hm Ho]. destruct Hu as [[Hnin _]%NoDup_cons _]. split.
  - intros e [->|He]%elem_of_cons; [|by apply Hm]. rewrite Ho; [by apply lookup_insert_eq|].
    intros e He [= E1 E2]. apply Hnin. replace x.1 with e.1; [by apply (list_elem_of_fmap_2 fst)|].
    destruct x as [[? ?] ?], e as [[? ?] ?]. simpl in *. congruence.
  - intros k' Hk. rewrite Ho by (intros; apply Hk; by right). apply lookup_insert_ne. intros <-. apply (Hk x); [by left|done].
Qed.

Lemma insert_aliases_rows l t n t' :
  insert_aliases m l t = Ok (n, t') → unwritten l t → t' = fold_left put_row l t.
Proof.
  revert t n. induction l as [|[[name value] r] l IH]; intros t n; simpl; [by intros [= _ <-]|]. intros H Hu.
  assert (E : t !! (im_to m, im_instance m, name, value) = None) by (apply (proj2 Hu (name, value, r)); by left).
  unfold Alias.insert_row in H. rewrite E in H.
  destruct (Alias.unique_alias r && Alias.live r && Alias.taken _ _ _ _ _) eqn:Et; simpl in H.
  { apply andb_true_iff in Et as [Hul _]. by rewrite Hul in H. }
  apply result_bind_ok in H as ([k t2] & H2 & [= _ <-]). apply (IH _ _ H2). by apply (unwritten_tail (name, value, r)).
Qed.

Lemma insert_subjects_rows l t : unwritten l t → fold_left (insert_subject m) l t = fold_left put_row l t.
Proof.
  revert t. induction l as [|x l IH]; intros t Hu; [done|]. simpl.
  assert (insert_subject m t x = put_row t x) as -> by (unfold insert_subject; rewrite (proj2 Hu x) by (by left); done).
  by apply IH, unwritten_tail.
Qed.

(** The rows of the instance under the source, by their last two key columns. *)
Definition source_rows {R} (t : gmap (string * string * string * string) R) : list (string * string * R) :=
  omap (λ e, if Alias.of_instance (im_from m) (im_instance m) e.1 then Some (e.1.1.2, e.1.2, e.2) else None) (map_to_list t).

Lemma elem_of_source_rows {R} (t : gmap (string * string * string * string) R) name value r :
  (name, value, r) ∈ source_rows t ↔ t !! (im_from m, im_instance m, name, value) = Some r.
Proof.
  unfold source_rows, Alias.of_instance. rewrite list_elem_of_omap. split.
  - intros ([[[[d i] n] v] x] & Hx%elem_of_map_to_list & E). simpl in E. case_match eqn:Ec; [|done]. injection E as -> -> ->.
    apply andb_true_iff in Ec as [->%String.eqb_eq ->%String.eqb_eq]. done.
  - intros Hr. exists (im_from m, im_instance m, name, value, r). split; [by apply elem_of_map_to_list|]. simpl. by rewrite !String.eqb_refl.
Qed.

Lemma source_rows_nodup {R} (t : gmap (string * string * string * string) R) : NoDup (map fst (source_rows t)).
Proof.
  unfold source_rows, Alias.of_instance. pose proof (NoDup_fst_map_to_list t) as Hnd. revert Hnd.
  induction (map_to_list t) as [|[[[[d i] n] v] x] l IH]; [constructor|]. simpl. intros [Hnin Hnd]%NoDup_cons.
  destruct (String.eqb d (im_from m) && String.eqb i (im_instance m)) eqn:Ec; [|by apply IH]. simpl. apply NoDup_cons. split; [|by apply IH].
  apply andb_true_iff in Ec as [->%String.eqb_eq ->%String.eqb_eq].
  intros ([[n' v'] r] & [= <- <-] & ([[[[d' i'] n''] v''] y] & Hy & E)%list_elem_of_omap)%list_elem_of_fmap. simpl in E.
  case_match eqn:Ec'; [|done]. injection E as -> -> ->. apply andb_true_iff in Ec' as [->%String.eqb_eq ->%String.eqb_eq].
  apply Hnin. apply (list_elem_of_fmap_2 fst _ _ Hy).
Qed.

(** The tables without the rows of the source, and what the target rows become. *)
Lemma lookup_source_deleted {R} (t : gmap (string * string * string * string) R) d i n v :
  map_imap (λ k r, if Alias.of_instance (im_from m) (im_instance m) k then None else Some r) t !! (d, i, n, v) =
  if String.eqb d (im_from m) && String.eqb i (im_instance m) then None else t !! (d, i, n, v).
Proof. rewrite map_lookup_imap. unfold Alias.of_instance. simpl. destruct (t !! (d, i, n, v)); simpl; by case_match. Qed.

Lemma moved_rows {R} (t : gmap (string * string * string * string) R) :
  im_from m ≠ im_to m → (∀ n v, t !! (im_to m, im_instance m, n, v) = None) →
  let deleted := map_imap (λ k r, if Alias.of_instance (im_from m) (im_instance m) k then None else Some r) t in
  let t' := fold_left put_row (source_rows t) deleted in
  unwritten (source_rows t) deleted ∧
  (∀ n v, t' !! (im_to m, im_instance m, n, v) = t !! (im_from m, im_instance m, n, v)) ∧
  (∀ n v, t' !! (im_from m, im_instance m, n, v) = None) ∧
  (∀ d i n v, (d, i) ≠ (im_from m, im_instance m) → (d, i) ≠ (im_to m, im_instance m) → t' !! (d, i, n, v) = t !! (d, i, n, v)).
Proof.
  intros Hft Ht deleted t'. assert (Hu : unwritten (source_rows t) deleted).
  { split; [apply source_rows_nodup|]. intros e _. unfold deleted. rewrite lookup_source_deleted, Ht. by case_match. }
  destruct (put_rows_ok _ _ Hu) as [Hm Ho]. split; [done|]. split; [|split].
  - intros n v. destruct (t !! (im_from m, im_instance m, n, v)) as [r|] eqn:E.
    + by apply (Hm (n, v, r)), elem_of_source_rows.
    + unfold t'. rewrite Ho; [unfold deleted; rewrite lookup_source_deleted, Ht; by case_match|].
      intros [[n' v'] r] Hr%elem_of_source_rows [= -> ->]. simpl in *. congruence.
  - intros n v. unfold t'. rewrite Ho by (intros e _ [= E]; congruence). unfold deleted. by rewrite lookup_source_deleted, !String.eqb_refl.
  - intros d i n v H1 H2. unfold t'. rewrite Ho by (intros e _ [= -> -> _ _]; done). unfold deleted. rewrite lookup_source_deleted.
    destruct (String.eqb_spec d (im_from m)) as [->|]; [|done]. destruct (String.eqb_spec i (im_instance m)) as [->|]; [done|done].
Qed.

Lemma first_fold_none seen waits :
  first_fold m seen waits = None → NoDup (map (λ w, map_node m w.1) waits) ∧ ∀ w, w ∈ waits → map_node m w.1 ∉ seen.
Proof.
  revert seen. induction waits as [|w waits IH]; intros seen; simpl; [intros _; split; [constructor|by intros w Hw%elem_of_nil]|].
  case_bool_decide as Hs; [done|]. intros [Hnd Hn]%IH. split.
  - apply NoDup_cons. split; [|done]. intros (w' & E & Hw')%list_elem_of_fmap. specialize (Hn w' Hw'). set_solver.
  - intros w' [->|Hw']%elem_of_cons; [done|]. specialize (Hn w' Hw'). set_solver.
Qed.
End Moved.

(** ** Properties *)

(** C8: the delivery of an event is committed at most once.  Once a step that carries
    an inbox record has committed, then after any further commits no step carrying the
    same record of the same deployment commits: it fails as a duplicate, or for a
    reason of its own, and leaves the database as it was. *)
Theorem delivery_commits_once (pick : list string → option string) (now now2 : Z) (markers markers2 : gset (string * string))
    (step step2 : StepWrite) (timers timers2 : list StepTimerWait) (owner owner2 : option string)
    (retired retired2 : list (string * string)) (d d1 d2 : Db) (channel event : string) :
  commit_step_with_timers_releasing_retiring pick now markers step timers owner retired d = Ok d1 →
  (channel, event) ∈ step_inbox_seen step → rtc (commits pick) d1 d2 →
  (channel, event) ∈ step_inbox_seen step2 → step_deployment step2 = step_deployment step →
  ∃ e, commit_step_with_timers_releasing_retiring pick now2 markers2 step2 timers2 owner2 retired2 d2 = Err e.
Proof.
  intros (x & y & [_ Hw]%write_step_inbox & _ & Hy & _)%commit_full_ok Hin Hd Hin2 Hdep.
  destruct (Hw _ Hin) as [_ [r Hr]]. rewrite <-Hy in Hr.
  assert (Hsub : db_inbox d1 ⊆ db_inbox d2).
  { clear -Hd. induction Hd as [|a b c Hab _ IH]; [done|]. etrans; [exact (commits_inbox _ _ _ Hab)|done]. }
  apply (lookup_weaken _ _ _ _ Hr) in Hsub. destruct (commit_step_with_timers_releasing_retiring _ _ _ step2 _ _ _ _) as [d3|e] eqn:E; [|by exists e].
  apply commit_full_ok in E as (x2 & y2 & [_ Hw2]%write_step_inbox & Hx2 & _). destruct (Hw2 _ Hin2) as [Hn _].
  rewrite Hdep, Hx2 in Hn. cbn [fst snd] in *. congruence.
Qed.

(** C19: a live unique alias has one owner.  If no two instances hold a live unique
    alias of one name and value, then no sequence of steps, retirements and migrations
    changes that; and recording an alias never runs into the index, since a key is
    revived only when it has no live owner. *)
Theorem unique_live_preserved (pick : list string → option string) (d d' : Db) :
  unique_live (db_alias d) → rtc (commits pick) d d' →
  unique_live (db_alias d') ∧
  (picks pick → ∀ now dep inst name value unique, is_Some (Alias.record_in pick now dep inst name value unique (db_alias d'))).
Proof.
  intros Hu Hd. split; [|intros Hp *; by apply record_in_total].
  induction Hd as [|a b c Hab _ IH]; [done|]. apply IH. by apply (commits_unique _ _ _ Hab).
Qed.

(** The target has no row of the instance yet. *)
Definition absent_at (dep inst : string) (d : Db) : Prop :=
  db_instance d !! (dep, inst) = None ∧ (∀ n v, db_alias d !! (dep, inst, n, v) = None) ∧
  (∀ n v, db_subject d !! (dep, inst, n, v) = None).

(** Everything the instance had under the source is under the target, and nothing else moved. *)
Record moved_all (now : Z) (m : InstanceMigration) (d d' : Db) : Prop := {
  ma_instance : db_instance d' !! (im_to m, im_instance m) = Some (Instance.mk_row (im_snapshot m) now None None None None);
  ma_source : db_instance d' !! (im_from m, im_instance m) = None;
  ma_waits node r : db_wait d !! (im_from m, im_instance m, node) = Some r →
    db_wait d' !! (im_to m, im_instance m, map_node m node) =
      Some (moved_wait m (newest_resolution m (Wait.list_for_instance (im_from m) (im_instance m) (db_wait d))) (node, r));
  ma_waits_distinct node node' r r' : db_wait d !! (im_from m, im_instance m, node) = Some r →
    db_wait d !! (im_from m, im_instance m, node') = Some r' → map_node m node = map_node m node' → node = node';
  ma_waits_gone node : db_wait d' !! (im_from m, im_instance m, node) = None;
  ma_aliases n v : db_alias d' !! (im_to m, im_instance m, n, v) = db_alias d !! (im_from m, im_instance m, n, v) ∧
    db_alias d' !! (im_from m, im_instance m, n, v) = None;
  ma_subjects n v : db_subject d' !! (im_to m, im_instance m, n, v) = db_subject d !! (im_from m, im_instance m, n, v) ∧
    db_subject d' !! (im_from m, im_instance m, n, v) = None;
  ma_others dep i : (dep, i) ≠ (im_from m, im_instance m) → (dep, i) ≠ (im_to m, im_instance m) →
    db_instance d' !! (dep, i) = db_instance d !! (dep, i) ∧
    (∀ n, db_wait d' !! (dep, i, n) = db_wait d !! (dep, i, n)) ∧
    (∀ n v, db_alias d' !! (dep, i, n, v) = db_alias d !! (dep, i, n, v)) ∧
    (∀ n v, db_subject d' !! (dep, i, n, v) = db_subject d !! (dep, i, n, v));
  ma_queues : db_inbox d' = db_inbox d ∧ db_outbox d' = db_outbox d
}.

Lemma delete_waits_lookup m t d i n :
  delete_waits m t !! (d, i, n) = if String.eqb d (im_from m) && String.eqb i (im_instance m) then None else t !! (d, i, n).
Proof. unfold delete_waits. rewrite map_lookup_imap. unfold Wait.of_instance. simpl. destruct (t !! (d, i, n)); simpl; by case_match. Qed.

Lemma persist_lookup (now : Z) (dep id bytes : string) (t : gmap (string * string) Instance.Row) k :
  k ≠ (dep, id) → Instance.persist_in now dep id bytes t !! k = t !! k.
Proof. intros Hk. unfold Instance.persist_in. destruct (t !! (dep, id)); by rewrite lookup_insert_ne by done. Qed.

(** A migration moves every row of the instance and no row of another.  On a
    commit the snapshot is under the target, unowned; every wait row is under its mapped
    node, no two on one; every alias and every subject row is under the target
    unchanged; nothing is left under the source; and no other instance or deployment,
    no inbox record and no outbox row has changed. *)
Lemma commit_moved_all (now : Z) (m : InstanceMigration) (out : InstanceMigrationOutcome) (d d' : Db) :
  commit_instance_migration now m d = Ok (out, d') → absent_at (im_to m) (im_instance m) d → moved_all now m d d'.
Proof.
  intros (Hft & _ & Hff & Hi & Hw & [n Ha] & Hs & Hin & Hout)%migration_ok (Hti & Hta & Hts).
  destruct (insert_waits_ok _ _ _ _ _ Hw) as (Wm & _ & Wo).
  destruct (moved_rows m (db_alias d) Hft Hta) as (Au & A1 & A2 & A3). pose proof (insert_aliases_rows _ _ _ _ _ Ha Au) as Ea.
  destruct (moved_rows m (db_subject d) Hft Hts) as (Su & S1 & S2 & S3). pose proof (insert_subjects_rows m _ _ Su) as Es.
  change (Alias.delete_all (im_from m) (im_instance m) (db_alias d)) with
    (map_imap (λ k r, if Alias.of_instance (im_from m) (im_instance m) k then None else Some r) (db_alias d)) in Ea.
  change (aliases_of m (db_alias d)) with (source_rows m (db_alias d)) in Ea. rewrite <-Ea in A1, A2, A3.
  change (subjects_of m (db_subject d)) with (source_rows m (db_subject d)) in Hs.
  change (Subject.delete_all (im_from m) (im_instance m) (db_subject d)) with
    (map_imap (λ k r, if Alias.of_instance (im_from m) (im_instance m) k then None else Some r) (db_subject d)) in Hs.
  rewrite Es in Hs. rewrite <-Hs in S1, S2, S3.
  split; [| | | | |by auto|by auto| |done].
  - rewrite Hi. unfold Instance.persist_in, Instance.delete_row. rewrite lookup_delete_ne by congruence. rewrite Hti. apply lookup_insert_eq.
  - rewrite Hi, persist_lookup by congruence. apply lookup_delete_eq.
  - intros node r Hr. apply (Wm (node, r)), elem_of_waits, Hr.
  - intros node node' r r' Hr Hr' E. destruct (first_fold_none _ _ _ Hff) as [Hnd _].
    by assert ((node, r) = (node', r')) as [= -> _] by (apply (nodup_map_inj _ _ _ _ Hnd); [by apply elem_of_waits..|done]).
  - intros node. rewrite Wo by (intros w _ [= E]; congruence). by rewrite delete_waits_lookup, !String.eqb_refl.
  - intros dep i H1 H2. split; [|split; [|split; intros; [by apply A3|by apply S3]]].
    + rewrite Hi, persist_lookup by done. by apply lookup_delete_ne.
    + intros node. rewrite Wo by (intros w _ [= -> -> _]; done). rewrite delete_waits_lookup.
      destruct (String.eqb_spec dep (im_from m)) as [->|]; [|done]. by destruct (String.eqb_spec i (im_instance m)) as [->|].
Qed.

(** *** Instances of the properties *)

Definition empty_db : Db := mk_db ∅ ∅ ∅ ∅ ∅ ∅ [] ∅.

Definition order_step : StepWrite :=
  mk_step "dep-1" "i-1" "snapshot" [mk_step_wait "approve" "orders" (Some "o-7")] [] [mk_step_alias "order" "7" true]
    [mk_step_subject "customer" "ab12"] [("e-1", Outbox.mk_row "dep-1" "i-1" (Some "notify") "reply" 5 5 0 None false)] []
    [("orders-in", "evt-1")].

Definition first_of (l : list string) : option string := head l.

Lemma delivery_commits_once_witness :
  let again := mk_step "dep-1" "i-2" "snapshot" [] [] [] [] [] [] [("orders-in", "evt-1")] in
  ∃ d1 e, commit_step_with_timers_releasing_retiring first_of 5 ∅ order_step [] None [] empty_db = Ok d1 ∧
    commit_step_with_timers_releasing_retiring first_of 9 ∅ again [] None [] d1 = Err e.
Proof.
  intros again.
  destruct (commit_step_with_timers_releasing_retiring first_of 5 ∅ order_step [] None [] empty_db) as [d1|e] eqn:E;
    [|vm_compute in E; discriminate E].
  exists d1. destruct (delivery_commits_once first_of 5 9 ∅ ∅ order_step again [] [] None None [] [] empty_db d1 d1 "orders-in" "evt-1" E) as [e He].
  - apply list_elem_of_In. left. reflexivity.
  - apply rtc_refl.
  - apply list_elem_of_In. left. reflexivity.
  - reflexivity.
  - exists e. split; [reflexivity|exact He].
Defined.

Lemma unique_live_preserved_witness :
  ∃ d1, commit_step first_of 5 order_step empty_db = Ok d1 ∧ unique_live (db_alias d1).
Proof.
  destruct (commit_step first_of 5 order_step empty_db) as [d1|e] eqn:E; [|vm_compute in E; discriminate E].
  exists d1. split; [reflexivity|]. refine (proj1 (unique_live_preserved first_of empty_db d1 _ _)).
  - intros dep i j name value r s Hr. simpl in Hr. rewrite lookup_empty in Hr. discriminate Hr.
  - apply rtc_once. exact (commits_step first_of 5 order_step empty_db d1 E).
Defined.
