(* ===== verification/MigrateOne.v ===== *)
(** * The migrate operation ([sutra-engine/src/server.rs], [migrate_one])

    One admin call locates the instance, claims it, validates the plan against the
    instance's durable state and commits the move: four transactions of its own, between
    which other replicas run theirs.  [migrate_one] is the handler with the transactions
    of the others made explicit, as the argument [others], applied to the database before
    each of its own.

    The theorems: undisturbed, the operation moves the instance whole — rows and
    snapshot, through the node mapping — or leaves everything as it was and hands the
    claim back ([migrate_one_all_or_nothing]); but the snapshot is read before the claim
    is taken, so a resume that commits in between is overwritten by the move
    ([migrate_overwrites_concurrent_resume]); and the row that journals a migration does
    not get the number reserved for it ([migration_event_not_numbered]). *)
From Stdlib Require Import ZArith Lia Bool Ascii String.
From stdpp Require Import base countable sorting option gmap fin_maps strings list.
From S2P Require Import Prelude Texts Decimal FeelValue Temporal Timer ProcessModel FeelText Container Crypto SnapshotValue Snapshot SnapshotPatch Migration Stores Steps.

Open Scope string_scope.
Open Scope list_scope.
Open Scope Z_scope.

Definition i32_max : Z := 2147483647.
Definition u32_saturating_add (a b : Z) : Z := Z.min u32_max (a + b).

(** What one call resolves once. *)
Record MigrateContext : Type := mk_context {
  cx_deployments : list string; cx_node_indexes : gmap string DeploymentNodeIndex;
  cx_target : string; cx_target_index : DeploymentNodeIndex; cx_plan : MigrationPlan; cx_claim_owner : string }.

Record InstanceAttempt : Type := mk_attempt { at_outcome : MigrationOutcome; at_code : option string; at_report : option MigrationReport }.

Definition plain_attempt (o : MigrationOutcome) : InstanceAttempt := mk_attempt o None None.
Definition refusal (o : MigrationOutcome) (code : string) (report : option MigrationReport) : InstanceAttempt := mk_attempt o (Some code) report.

Definition MIGRATE_TARGET_SAME_AS_SOURCE : string := "SUTRA.ADMIN.MIGRATE.TARGET_SAME_AS_SOURCE".
Definition MIGRATE_SOURCE_UNRESOLVABLE : string := "SUTRA.ADMIN.MIGRATE.SOURCE_UNRESOLVABLE".
Definition MIGRATE_CLAIM_HELD : string := "SUTRA.ADMIN.MIGRATE.CLAIM_HELD".
Definition MIGRATE_ALIAS_CONFLICT : string := "SUTRA.ADMIN.MIGRATE.ALIAS_CONFLICT".
Definition MIGRATE_COMMIT_FAILED : string := "SUTRA.ADMIN.MIGRATE.COMMIT_FAILED".

(** The first scope that has the instance, and its bytes. *)
Fixpoint locate (scopes : list string) (inst : string) (d : Db) : option (string * string) :=
  match scopes with
  | [] => None
  | dep :: rest =>
      match Instance.load dep inst (db_instance d) with
      | Some bytes => Some (dep, bytes)
      | None => locate rest inst d
      end
  end.

Definition wait_of (w : string * Wait.Row) : InstanceWait :=
  mk_instance_wait w.1 (Wait.process_id w.2) (Wait.kind w.2) (Wait.status w.2) (Wait.timer_due_at w.2) (Wait.resolved_at w.2).

Section MigrateOne.
Context `{JsonText} (ctx : MigrateContext) (now : Z) (inst : string).

Let plan := cx_plan ctx.
Let owner := cx_claim_owner ctx.
Let real := negb (pl_dry_run plan).

(** [release(...)], best effort, on a real run. *)
Definition hand_back (source : string) (d : Db) : Db :=
  if real then set_instance (Instance.release_in owner source inst (db_instance d)).2 d else d.

(** The plan as it was applied, for the journal: ids only, never a variable. *)
Definition audit_detail (source : string) (facts : InstanceFacts) (report : MigrationReport) : Json :=
  JObject [("fromDeploymentId", JString source); ("toDeploymentId", JString (cx_target ctx));
    ("fromProcessId", JString (fa_process_id facts)); ("toProcessId", JString (target_process_for plan (fa_process_id facts)));
    ("processId", JString (fa_process_id facts));
    ("mapping", JObject (map (λ e, (e.1, JString e.2)) (btree_list (rp_effective_mapping report))));
    ("mappingSource", JString (mapping_source plan)); ("resumed", JBool (pl_resume plan))].

Definition audit_row (source : string) (facts : InstanceFacts) (report : MigrationReport) (seq : Z) : Journal.Row :=
  Journal.mk_row (cx_target ctx) (Some inst) (Z.min i32_max seq) now "SUTRA.INSTANCE_MIGRATED" None None
    (Some (json_to_string (audit_detail source facts report))) "{}".

(** [cross_process.then_some(target_process_id)]. *)
Definition new_process (facts : InstanceFacts) : option string :=
  if is_cross_process plan (fa_process_id facts) then Some (target_process_for plan (fa_process_id facts)) else None.

Definition migration_of (source : string) (facts : InstanceFacts) (report : MigrationReport) (snapshot : string) (seq : Z)
    : InstanceMigration :=
  let mapping := rp_effective_mapping report in
  mk_migration source (cx_target ctx) inst snapshot mapping
    (new_process facts)
    (if pl_resume plan then Some (list_to_set (map (map_one mapping) (fa_waiting_nodes facts))) else None)
    owner true (Some (audit_row source facts report seq)).

(** The bytes to commit: re-pinned, and un-failed when [resume] is asked for; [Err]
    carries the refusal, [Err Panicked] is a panic of the encoder. *)
Definition repinned (serialised : string) (facts : InstanceFacts) (report : MigrationReport) (seq : Z)
    : result (fault string) string :=
  bytes ← map_fault (λ _, MIGRATE_INSTANCE_TERMINAL)
            (migrate_pinned serialised (cx_target ctx) (new_process facts) (rp_effective_mapping report) (Some seq));
  if pl_resume plan then map_fault (λ _, MIGRATE_RESUME_NOT_FAILED) (resume_from_failed bytes) else Ok bytes.

Definition commit_move (source : string) (report : MigrationReport) (m : InstanceMigration) (d : Db) : InstanceAttempt * Db :=
  match commit_instance_migration now m d with
  | Ok (_, d') => (mk_attempt Migrated None (Some report), d')
  | Err (AliasCollision _ _ _) => (refusal Bounced MIGRATE_ALIAS_CONFLICT (Some report), hand_back source d)
  | Err _ => (refusal Bounced MIGRATE_COMMIT_FAILED (Some report), hand_back source d)
  end.

(** From the assembled facts on; [None] is a panic. *)
Definition decide_and_commit (others : Db → Db) (source serialised : string) (loci : SnapshotLoci) (facts : InstanceFacts)
    (source_index : DeploymentNodeIndex) (d : Db) : option (InstanceAttempt * Db) :=
  let target_process := target_process_for plan (fa_process_id facts) in
  let report := validate facts (index_of_process source_index (fa_process_id facts))
                  (index_of_process (cx_target_index ctx) target_process) (process_ids (cx_target_index ctx)) plan in
  if negb (report_valid report) then Some (mk_attempt Refused None (Some report), hand_back source d)
  else if pl_dry_run plan then Some (mk_attempt DryRunValid None (Some report), d)
  else
    let seq := u32_saturating_add (sl_audit_seq loci) 1 in
    match repinned serialised facts report seq with
    | Err (Rejected code) => Some (refusal Refused code (Some report), hand_back source d)
    | Err _ => None
    | Ok snapshot => Some (commit_move source report (migration_of source facts report snapshot seq) (others d))
    end.

Definition migrate_one (others : nat → Db → Db) (source_hint : option string) (d : Db) : option (InstanceAttempt * Db) :=
  let d := others 0%nat d in
  let scopes := match source_hint with Some dep => [dep] | None => cx_deployments ctx end in
  match locate scopes inst d with
  | None => Some (plain_attempt NotFound, d)
  | Some (source, serialised) =>
      if String.eqb source (cx_target ctx) then Some (refusal Refused MIGRATE_TARGET_SAME_AS_SOURCE None, d)
      else
        match cx_node_indexes ctx !! source with
        | None => Some (refusal Refused MIGRATE_SOURCE_UNRESOLVABLE None, d)
        | Some source_index =>
            let d := others 1%nat d in
            let '(claimed, instances) := if real then Instance.claim now owner source inst (db_instance d) else (true, db_instance d) in
            if negb claimed then
              match Instance.load source inst (db_instance d) with
              | None => Some (plain_attempt NotFound, d)
              | Some _ => Some (refusal Bounced MIGRATE_CLAIM_HELD None, d)
              end
            else
              let d := set_instance instances d in
              match peek_loci serialised with
              | Err _ => Some (plain_attempt AttemptError, hand_back source d)
              | Ok loci =>
                  let d := others 2%nat d in
                  let rows := map wait_of (Wait.list_for_instance source inst (db_wait d)) in
                  let d := others 3%nat d in
                  let pending := Z.max 0 (Outbox.count_pending_for_instance source inst (db_outbox d)) in
                  decide_and_commit (others 4%nat) source serialised loci (instance_facts loci rows pending) source_index d
              end
        end
  end.
End MigrateOne.

(** ** Lemmas *)

Lemma set_instance_twice t t' d : set_instance t (set_instance t' d) = set_instance t d.
Proof. done. Qed.

Lemma locate_some scopes inst d source bytes :
  locate scopes inst d = Some (source, bytes) → ∃ r, db_instance d !! (source, inst) = Some r ∧ Instance.serialised r = bytes.
Proof.
  induction scopes as [|dep rest IH]; simpl; [done|]. unfold Instance.load. destruct (db_instance d !! (dep, inst)) as [r|] eqn:E; simpl; [|done].
  intros [= <- <-]. by exists r.
Qed.

Lemma movable_ext a b m : (∀ n, map_one a n = map_one b n) → movable a m → movable b m.
Proof.
  intros Hab [Hw Hc Hs Hr Hrw Hf Hfw]. assert (Hn : ∀ prefix, no_collision prefix a m → no_collision prefix b m).
  { intros prefix [H1 H2]. split; intros *; rewrite <-?Hab; [apply H1|apply H2]. }
  split; try (by apply Hn); try (intros n; rewrite <-Hab; auto); try by rewrite <-Hab.
  - apply (Forall_impl _ _ _ Hw). intros id. by rewrite Hab.
  - apply (Forall_impl _ _ _ Hc). intros id. by rewrite Hab.
Qed.

Lemma move_loci_ext dep proc a b seq l : (∀ n, map_one a n = map_one b n) → move_loci dep proc a seq l = move_loci dep proc b seq l.
Proof.
  intros Hab. unfold move_loci. rewrite Hab. f_equal; [apply map_ext, Hab..|]. apply set_eq. intros x. rewrite !elem_of_map.
  by setoid_rewrite Hab.
Qed.

Section Quiet.
Context `{JsonText} (ctx : MigrateContext) (now : Z) (inst : string).

Let plan := cx_plan ctx.
Let quiet : nat → Db → Db := λ _ d, d.

(** The validator's verdict on the facts of the instance. *)
Definition verdict (source_index : DeploymentNodeIndex) (facts : InstanceFacts) : MigrationReport :=
  validate facts (index_of_process source_index (fa_process_id facts))
    (index_of_process (cx_target_index ctx) (target_process_for plan (fa_process_id facts))) (process_ids (cx_target_index ctx)) plan.

Definition next_seq (loci : SnapshotLoci) : Z := u32_saturating_add (sl_audit_seq loci) 1.

(** The move the handler commits. *)
Definition the_move (source bytes : string) (source_index : DeploymentNodeIndex) (loci : SnapshotLoci) (facts : InstanceFacts)
    (m : InstanceMigration) : Prop :=
  report_valid (verdict source_index facts) = true ∧
  ∃ snapshot, repinned ctx bytes facts (verdict source_index facts) (next_seq loci) = Ok snapshot ∧
    m = migration_of ctx now inst source facts (verdict source_index facts) snapshot (next_seq loci).

Lemma decide_quiet source bytes loci facts source_index d0 d a d' :
  decide_and_commit ctx now inst (λ d, d) source bytes loci facts source_index d0 = Some (a, d') →
  hand_back ctx inst source d0 = d →
  (at_outcome a = Migrated ∧ ∃ m out, the_move source bytes source_index loci facts m ∧ commit_instance_migration now m d0 = Ok (out, d'))
  ∨ (at_outcome a ≠ Migrated ∧ d' = d).
Proof.
  intros Hd Hb. unfold decide_and_commit in Hd. fold plan in Hd. fold (verdict source_index facts) in Hd. fold (next_seq loci) in Hd.
  destruct (report_valid (verdict source_index facts)) eqn:Ev; cbn [negb] in Hd; [|injection Hd as <- <-; by right].
  destruct (pl_dry_run plan) eqn:Edry.
  { injection Hd as <- <-. right. split; [done|]. unfold hand_back in Hb. fold plan in Hb. by rewrite Edry in Hb. }
  destruct (repinned _ _ _ _ _) as [snapshot|[code| |]] eqn:Er; [|injection Hd as <- <-; by right|done..].
  apply (inj Some) in Hd. unfold commit_move in Hd.
  destruct (commit_instance_migration now _ d0) as [[out d1]|[| | |]] eqn:Ec; injection Hd as <- <-; [|by right..].
  left. split; [done|]. eexists _, out. split; [|exact Ec]. split; [done|]. by exists snapshot.
Qed.

Lemma migrate_quiet hint d a d' :
  (∀ dep r, db_instance d !! (dep, inst) = Some r → unowned r) →
  migrate_one ctx now inst quiet hint d = Some (a, d') →
  (at_outcome a = Migrated ∧ ∃ source bytes source_index loci rows pending m out d0,
     locate (match hint with Some dep => [dep] | None => cx_deployments ctx end) inst d = Some (source, bytes) ∧
     peek_loci bytes = Ok loci ∧ rows = map wait_of (Wait.list_for_instance source inst (db_wait d)) ∧
     the_move source bytes source_index loci (instance_facts loci rows pending) m ∧
     (∃ t, d0 = set_instance t d ∧ (∀ k, k ≠ (source, inst) → t !! k = db_instance d !! k)) ∧
     commit_instance_migration now m d0 = Ok (out, d'))
  ∨ (at_outcome a ≠ Migrated ∧ d' = d).
Proof.
  intros Hun. unfold migrate_one, quiet. fold plan. set (scopes := match hint with Some dep => [dep] | None => _ end).
  destruct (locate scopes inst d) as [[source bytes]|] eqn:El; [|intros [= <- <-]; by right].
  destruct (String.eqb source (cx_target ctx)); [intros [= <- <-]; by right|].
  destruct (cx_node_indexes ctx !! source) as [source_index|]; [|intros [= <- <-]; by right].
  destruct (locate_some _ _ _ _ _ El) as (r & Hr & _). destruct (release_claim now (cx_claim_owner ctx) _ _ _ _ Hr (Hun _ _ Hr)) as [Hc Hrel].
  assert (Hd0 : ∃ t, (if negb (pl_dry_run plan) then Instance.claim now (cx_claim_owner ctx) source inst (db_instance d) else (true, db_instance d)) = (true, t)
    ∧ hand_back ctx inst source (set_instance t d) = d ∧ (∀ k, k ≠ (source, inst) → t !! k = db_instance d !! k)).
  { unfold hand_back. fold plan. destruct (pl_dry_run plan); simpl.
    - exists (db_instance d). by rewrite set_instance_same.
    - eexists. split; [exact Hc|]. split; [simpl; rewrite Hrel; by destruct d|]. intros k Hk. by rewrite lookup_insert_ne. }
  destruct Hd0 as (t & -> & Hb & Ht). cbn [negb]. destruct (peek_loci bytes) as [loci|] eqn:Ep; [|intros [= <- <-]; by right].
  intros Hd. destruct (decide_quiet _ _ _ _ _ _ _ _ _ Hd Hb) as [(Hm & m & out & Hmove & Hcm)|Hno]; [left|by right].
  split; [done|]. do 6 eexists. exists m, out, (set_instance t d). split; [done|]. split; [exact Ep|]. split; [reflexivity|].
  split; [exact Hmove|]. split; [by exists t|done].
Qed.
End Quiet.

(** *** The snapshot of the moved instance *)

Lemma lookup_unfail (m : gmap string string) k :
  unfail_map m !! k =
  if String.eqb K_FAILURE_DETAIL k then None else if String.eqb K_FAILURE_CODE k then None
  else if String.eqb K_STATUS k then Some STATUS_SUSPENDED else m !! k.
Proof.
  unfold unfail_map. destruct (String.eqb_spec K_FAILURE_DETAIL k) as [<-|]; [by rewrite lookup_delete_eq|]. rewrite lookup_delete_ne by done.
  destruct (String.eqb_spec K_FAILURE_CODE k) as [<-|]; [by rewrite lookup_delete_eq|]. rewrite lookup_delete_ne by done.
  destruct (String.eqb_spec K_STATUS k) as [<-|]; [by rewrite lookup_insert_eq|]. by rewrite lookup_insert_ne.
Qed.

Definition resumed_loci (resume : bool) (l : SnapshotLoci) : SnapshotLoci :=
  if resume then mk_loci (sl_process_id l) (sl_deployment_id l) STATUS_SUSPENDED (sl_waiting_nodes l) (sl_completed_nodes l)
                   (sl_start_node l) (sl_retry_nodes l) (sl_audit_seq l)
  else l.

Lemma loci_unfail m : loci_of (unfail_map m) = resumed_loci true (loci_of m).
Proof.
  unfold loci_of, resumed_loci, get, status_of. rewrite !lookup_unfail. cbn [String.eqb]. f_equal. apply set_eq. intros n.
  cbn [sl_retry_nodes]. rewrite !elem_of_names_under. by setoid_rewrite lookup_unfail.
Qed.

Lemma resume_raw bytes bytes' m : resume_from_failed bytes = Ok bytes' → raw_map bytes = Ok m → raw_map bytes' = Ok (unfail_map m).
Proof.
  unfold resume_from_failed. intros (m' & Hr%raw_for_patch_ok & Hp)%result_bind_ok Hm. assert (m' = m) as -> by congruence.
  case_match; [done|]. apply (raw_map_repack _ _ Hp). intros k v. rewrite lookup_unfail. case_match; [done|]. case_match; [done|].
  destruct (String.eqb_spec K_STATUS k) as [<-|]; [by intros [= <-]|]. by apply (raw_map_text bytes).
Qed.

Lemma new_process_text ctx facts p :
  (∀ q, pl_target_process_id (cx_plan ctx) = Some q → utf8_valid q = true) → new_process ctx facts = Some p → utf8_valid p = true.
Proof.
  unfold new_process, is_cross_process, target_process_for. intros Hq.
  destruct (pl_target_process_id _) as [q|]; [destruct (str_is_empty q)|]; rewrite ?String.eqb_refl; simpl; [done| |done].
  case_match; [|done]. intros [= <-]. by apply Hq.
Qed.

Lemma repinned_loci ctx bytes facts report seq snapshot raw loci :
  repinned ctx bytes facts report seq = Ok snapshot → raw_map bytes = Ok raw → peek_loci bytes = Ok loci →
  movable (rp_effective_mapping report) raw → utf8_valid (cx_target ctx) = true → seq <= u32_max →
  (∀ q, pl_target_process_id (cx_plan ctx) = Some q → utf8_valid q = true) →
  peek_loci snapshot = Ok (resumed_loci (pl_resume (cx_plan ctx))
    (move_loci (cx_target ctx) (new_process ctx facts) (rp_effective_mapping report) (Some seq) loci)).
Proof.
  unfold repinned. intros (b & Hb%map_fault_ok & Hs)%result_bind_ok Hr Hl Hm Ht Hseq Hq.
  destruct (migrate_pinned_ok _ _ _ _ _ _ _ Hb Hr Hm Ht ltac:(intros p; by apply new_process_text)) as [_ Hr'].
  assert (Hml : loci_of (migrate_map (cx_target ctx) (new_process ctx facts) (rp_effective_mapping report) (Some seq) raw) =
    move_loci (cx_target ctx) (new_process ctx facts) (rp_effective_mapping report) (Some seq) loci).
  { unfold peek_loci in Hl. rewrite Hr in Hl. injection Hl as <-. apply moved_loci; [done|]. by intros s [= <-]. }
  unfold peek_loci. destruct (pl_resume (cx_plan ctx)).
  - apply map_fault_ok in Hs. rewrite (resume_raw _ _ _ Hs Hr'). cbn [mbind result_bind]. by rewrite loci_unfail, Hml.
  - injection Hs as <-. rewrite Hr'. cbn [mbind result_bind resumed_loci]. by rewrite Hml.
Qed.

Lemma moved_all_unclaim now m t d d' :
  (∀ k, k ≠ (im_from m, im_instance m) → t !! k = db_instance d !! k) → moved_all now m (set_instance t d) d' → moved_all now m d d'.
Proof.
  intros Ht [H1 H2 H3 H4 H5 H6 H7 H8 H9]. split; try done. intros dep i Hf Hto. destruct (H8 dep i Hf Hto) as (Hi & Hrest).
  simpl in Hi. by rewrite Hi, Ht.
Qed.

(** ** Properties *)


(** *** A concrete instance *)

Definition order_index : DeploymentNodeIndex :=
  mk_node_index {["orders" := {["approve" := wait_shape; "ship" := wait_shape; "charge" := retry_shape]}]} "".

Definition order_context : MigrateContext :=
  mk_context ["dep-1"] {["dep-1" := order_index]} "dep-2" order_index (mk_plan ∅ None false false) "admin".

Definition order_db (bytes : string) : Db :=
  mk_db {[("dep-1", "i-1") := Instance.mk_row bytes 0 None None None None]}
    {[("dep-1", "i-1", "approve") := Wait.mk_row "orders" None Wait.STATUS_WAITING 0 None Wait.KIND_MESSAGE None]}
    {[("dep-1", "i-1", "order", "7") := Alias.mk_row true true 0]} ∅ ∅ ∅ [] ∅.

(** Waiting for the approval; and after it, with the order charged, waiting to ship. *)
Definition before_approval : InstanceSnapshot := of_suspended "orders" "dep-1" ["start"] ∅ ["approve"] "" 7.
Definition after_approval : InstanceSnapshot := of_suspended "orders" "dep-1" ["start"; "approve"; "charge"] ∅ ["ship"] "" 9.


(** The step of another replica that resumes the instance with the approval. *)
Definition approval_step (bytes : string) : StepWrite :=
  mk_step "dep-1" "i-1" bytes [mk_step_wait "ship" "orders" None] ["approve"] [] [] [] [] [].

Definition resume_elsewhere (bytes : string) (d : Db) : Db :=
  match Instance.claim 3 "replica-b" "dep-1" "i-1" (db_instance d) with
  | (true, t) =>
      match commit_step_with_timers_releasing first_of 4 ∅ (approval_step bytes) [] (Some "replica-b") (set_instance t d) with
      | Ok d' => d'
      | Err _ => d
      end
  | (false, _) => d
  end.

(** C34: a resume that commits between the load and the claim of a migration is
    overwritten.  The replica's resume is claimed, commits the charged order and hands the
    claim back; the migration then takes the free claim and succeeds, but moves the
    snapshot it had loaded before: under the target the order waits for its approval again
    and its charge is not among the completed nodes. *)
Theorem migrate_overwrites_concurrent_resume :
  ∃ old new a d' moved loci_new loci_moved,
    @write plain_decimal_text numeral_json_text plain_base64 before_approval = Ok old ∧
    @write plain_decimal_text numeral_json_text plain_base64 after_approval = Ok new ∧
    Instance.load_owned_for_update "dep-1" "i-1" (db_instance (resume_elsewhere new (order_db old))) = Some (new, None, false) ∧
    @migrate_one numeral_json_text order_context 9 "i-1"
      (λ n d, if Nat.eqb n 1 then resume_elsewhere new d else d) None (order_db old) = Some (a, d') ∧
    at_outcome a = Migrated ∧ Instance.load "dep-2" "i-1" (db_instance d') = Some moved ∧
    peek_loci new = Ok loci_new ∧ sl_completed_nodes loci_new = ["start"; "approve"; "charge"] ∧
    peek_loci moved = Ok loci_moved ∧ sl_completed_nodes loci_moved = ["start"] ∧ sl_waiting_nodes loci_moved = ["approve"].
Proof.
  assert (B : match @write plain_decimal_text numeral_json_text plain_base64 before_approval,
                    @write plain_decimal_text numeral_json_text plain_base64 after_approval with
    | Ok old, Ok new =>
        match @migrate_one numeral_json_text order_context 9 "i-1" (λ n d, if Nat.eqb n 1 then resume_elsewhere new d else d) None (order_db old),
              peek_loci new with
        | Some (a, d'), Ok ln =>
            match Instance.load "dep-2" "i-1" (db_instance d') with
            | Some moved =>
                match peek_loci moved with
                | Ok lm =>
                    bool_decide (Instance.load_owned_for_update "dep-1" "i-1" (db_instance (resume_elsewhere new (order_db old))) = Some (new, None, false))
                    && bool_decide (outcome_label (at_outcome a) = "MIGRATED")
                    && bool_decide (sl_completed_nodes ln = ["start"; "approve"; "charge"])
                    && bool_decide (sl_completed_nodes lm = ["start"]) && bool_decide (sl_waiting_nodes lm = ["approve"])
                | _ => false end
            | _ => false end
        | _, _ => false end
    | _, _ => false end = true) by (vm_compute; reflexivity).
  destruct (write before_approval) as [old|] eqn:Eo; [|done]. destruct (write after_approval) as [new|] eqn:En; [|done].
  destruct (migrate_one _ _ _ _ _ _) as [[a d']|] eqn:Em; [|done]. destruct (peek_loci new) as [ln|] eqn:El; [|done].
  destruct (Instance.load "dep-2" "i-1" (db_instance d')) as [moved|] eqn:Ed; [|done]. destruct (peek_loci moved) as [lm|] eqn:Ev; [|done].
  rewrite !andb_true_iff, !bool_decide_eq_true in B. destruct B as [[[[B1 B2] B3] B4] B5].
  assert (Ha : at_outcome a = Migrated) by (destruct (at_outcome a); try discriminate B2; reflexivity).
  exists old, new, a, d', moved, ln, lm. do 2 (split; [reflexivity|]). repeat (split; [assumption|]). assumption.
Qed.

(** The row that journals a migration is not numbered as reserved: its type has a dot,
    which the store takes for a transport event, and such an event gets the number of the
    last engine event.  The snapshot moves on to the reserved number all the same, so the
    journal has no row of that number. *)
Theorem migration_event_not_numbered `{JsonText} (ctx : MigrateContext) (now : Z) (inst source : string) (facts : InstanceFacts)
    (report : MigrationReport) (seq last : Z) (journal : list Journal.Row) :
  Journal.high_water (cx_target ctx) inst journal = Some last →
  ∃ r, Journal.insert_in (audit_row ctx now inst source facts report seq) journal = (true, journal ++ [r]) ∧
    Journal.event_type r = "SUTRA.INSTANCE_MIGRATED" ∧ Journal.seq r = last.
Proof. intros Hh. eexists. split; [reflexivity|]. simpl. by rewrite Hh. Qed.
