(* ===== verification/Correlation.v ===== *)
(** * Audit correlation keys and receipt attributes
    ([sutra-executor/src/audit_correlation.rs])

    The byte scan of [expression_roots] is an automaton over the same bytes; the
    FEEL evaluator the caller passes is an argument.

    The theorems: what a snapshot shows does not depend on the value of a
    [sensitive] variable, as long as the evaluator reads only the identifiers
    [expression_roots] lists; and three FEEL forms whose variables it does not
    list. *)
From Stdlib Require Import ZArith Lia Bool Ascii String.
From stdpp Require Import base list option gmap strings.
From S2P Require Import Prelude Texts Decimal FeelValue Temporal FeelText Timer ProcessModel.

Open Scope string_scope.
Open Scope list_scope.
Open Scope Z_scope.

Definition REDACTED_PLACEHOLDER : string := "***REDACTED***".
Definition REDACTION_COMPANION_SUFFIX : string := ".redacted".

(** ** Paths and roots *)

(** Follow [segments] through nested maps. *)
Fixpoint walk (v : FeelValue) (segments : list string) : option FeelValue :=
  match segments with
  | [] => Some v
  | s :: rest => match v with Map m => x ← map_get s m; walk x rest | _ => None end
  end.

Definition is_ascii_alphanumeric (c : ascii) : bool := is_ascii_alphabetic c || is_ascii_digit c.
Definition ident_start (c : ascii) : bool := is_ascii_alphabetic c || Ascii.eqb c "_".
Definition ident_char (c : ascii) : bool := is_ascii_alphanumeric c || Ascii.eqb c "_".

Definition is_identifier (s : string) : bool :=
  match s with
  | EmptyString => false
  | String c r => ident_start c && string_all ident_char r
  end.

Definition plain_path (expression : string) : option (list string) :=
  let segments := split_char "." (trim expression) in
  if forallb is_identifier segments then Some segments else None.

Definition is_ascii_whitespace (c : ascii) : bool := is_whitespace c && negb (ascii_Z c =? 11).

Definition BACKSLASH : ascii := ascii_of_nat 92.

(** Where the scan stands: between tokens, in a string literal (after a
    backslash or not), or in an identifier read so far. *)
Inductive ScanMode : Type :=
| Between (after_dot : bool)
| Quoted
| QuotedEscape
| InIdent (after_dot : bool) (text : string).

Definition scan_between (after_dot : bool) (c : ascii) : ScanMode :=
  if Ascii.eqb c DQUOTE then Quoted
  else if ident_start c then InIdent after_dot (String c "")
  else Between (if is_ascii_whitespace c then after_dot else Ascii.eqb c ".").

Fixpoint roots_loop (mode : ScanMode) (s : string) : list string :=
  match s with
  | EmptyString => match mode with InIdent false t => [t] | _ => [] end
  | String c r =>
      match mode with
      | Between d => roots_loop (scan_between d c) r
      | Quoted =>
          roots_loop (if Ascii.eqb c DQUOTE then Between false
                      else if Ascii.eqb c BACKSLASH then QuotedEscape else Quoted) r
      | QuotedEscape => roots_loop Quoted r
      | InIdent d t =>
          if ident_char c then roots_loop (InIdent d (t +:+ String c "")) r
          else (if d then [] else [t]) ++ roots_loop (scan_between false c) r
      end
  end.

Definition expression_roots (expression : string) : list string := roots_loop (Between false) expression.

Definition expression_reads (expression name : string) : bool :=
  existsb (String.eqb name) (expression_roots expression).

(** ** Identifiers of the FEEL lexer

    [continues_identifier] of [sutra-feel/src/lexer.rs] on ASCII text: a hyphen
    before a letter or underscore, and an apostrophe before a letter or digit,
    belong to the name. *)

Definition next_char (s : string) : option ascii := match s with String c _ => Some c | _ => None end.

Definition continues_identifier (c : ascii) (rest : string) : bool :=
  let next p := match next_char rest with Some n => p n | None => false end in
  is_ascii_alphanumeric c || Ascii.eqb c "_" || (Ascii.eqb c "'" && next is_ascii_alphanumeric)
  || (Ascii.eqb c "-" && next (λ n, is_ascii_alphabetic n || Ascii.eqb n "_")).

(** [identifier_or_keyword]: the text of the token that starts here. *)
Fixpoint lex_identifier (s : string) : string :=
  match s with
  | EmptyString => EmptyString
  | String c r => if continues_identifier c r then String c (lex_identifier r) else EmptyString
  end.

(** ** Snapshots *)

Definition companion (name : string) : string := name +:+ REDACTION_COMPANION_SUFFIX.

(** The names declared [sensitive]. *)
Definition sensitive_names (p : ProcessDefinition) : list string :=
  map dv_name (List.filter dv_sensitive (declared_variables p)).

Definition contains (l : list string) (x : string) : bool := existsb (String.eqb x) l.

(** The first declaration of an alias name wins. *)
Definition aliases_of (p : ProcessDefinition) : list AliasBinding :=
  fold_left (λ acc a, if existsb (λ b, String.eqb (al_name b) (al_name a)) acc then acc else acc ++ [a])
    (concat (map (λ n, nb_aliases (bindings_for p (node_id n))) (process_nodes p))) [].

(** [s.ends_with(suffix)]. *)
Fixpoint ends_with (suffix s : string) : bool :=
  String.eqb s suffix || match s with EmptyString => false | String _ r => ends_with suffix r end.

Definition EVENT_METADATA_FIELDS : list string :=
  ["channel"; "contentType"; "dedupKey"; "idempotencyKey"; "receivedAt"].

Section Snapshot.
Context `{BigDecimalText, TimeText}.
(** [AliasEvaluator]. *)
Variable evaluate : string → Variables → option FeelValue.

Definition render (v : FeelValue) : string := canonical_string_of v.

Definition non_null (o : option FeelValue) : option FeelValue :=
  v ← o; if is_null v then None else Some v.

Definition masked_by_input (roots : list string) (path : option (list string)) (variables : Variables)
    (sensitive : list string) : option string :=
  if existsb (contains sensitive) roots then Some REDACTED_PLACEHOLDER
  else
    root ← List.find (λ r, is_some (var_get (companion r) variables)) roots;
    let projected :=
      match path with
      | Some (p0 :: rest) =>
          if String.eqb p0 root then c ← var_get (companion root) variables; walk c rest else None
      | _ => None
      end in
    Some (match non_null projected with Some v => render v | None => REDACTED_PLACEHOLDER end).

Definition alias_value (alias : AliasBinding) (variables : Variables) (sensitive : list string) : option string :=
  let roots := expression_roots (al_expression alias) in
  let path := plain_path (al_expression alias) in
  let found :=
    match var_get (al_name alias) variables with
    | Some v => Some v
    | None =>
        match path with
        | Some (p0 :: rest) => v ← var_get p0 variables; walk v rest
        | _ => evaluate (al_expression alias) variables
        end
    end in
  value ← non_null found;
  if contains sensitive (al_name alias) then Some REDACTED_PLACEHOLDER
  else match masked_by_input roots path variables sensitive with
       | Some masked => Some masked
       | None =>
           if is_some (var_get (companion (al_name alias)) variables) then Some REDACTED_PLACEHOLDER
           else Some (render value)
       end.

Definition correlation_snapshot (process : ProcessDefinition) (variables : Variables) : list (string * string) :=
  let sensitive := sensitive_names process in
  fold_left (λ out alias,
      match alias_value alias variables sensitive with
      | Some value => map_insert (al_name alias) value out
      | None => out
      end) (aliases_of process) [].

Definition receipt_value (variables : Variables) (sensitive : list string) (any_redactor : bool)
    (attribute : ReceiptAttribute) : option string :=
  let expression := ra_expression attribute in
  value ← non_null (evaluate expression variables);
  let roots := expression_roots expression in
  let path := plain_path expression in
  match masked_by_input roots path variables sensitive with
  | Some masked => Some masked
  | None =>
      let metadata := match path with Some [_; p1] => contains EVENT_METADATA_FIELDS p1 | _ => false end in
      if any_redactor && contains roots "event" && negb metadata then Some REDACTED_PLACEHOLDER
      else Some (render value)
  end.

Definition receipt_attribute_snapshot (process : ProcessDefinition) (variables : Variables) : list (string * string) :=
  let sensitive := sensitive_names process in
  let any_redactor := existsb (λ e, ends_with REDACTION_COMPANION_SUFFIX e.1) (to_feel_context variables) in
  fold_left (λ out attribute,
      match receipt_value variables sensitive any_redactor attribute with
      | Some shown => map_insert (ra_name attribute) shown out
      | None => out
      end) (receipt_attributes process) [].
End Snapshot.

(** ** Lemmas *)

(** Two variable maps that differ only in the values of [sensitive] names. *)
Record agrees_but (sensitive : list string) (v1 v2 : Variables) : Prop := {
  agrees_public name : contains sensitive name = false → var_get name v1 = var_get name v2;
  agrees_companion name : var_get (companion name) v1 = var_get (companion name) v2
}.

(** The evaluator reads only variables [expression_roots] lists. *)
Definition reads_roots (evaluate : string → Variables → option FeelValue) : Prop :=
  ∀ e v1 v2, (∀ r, r ∈ expression_roots e → var_get r v1 = var_get r v2) → evaluate e v1 = evaluate e v2.

Lemma trim_start_skip s : ∃ p, s = p +:+ trim_start s ∧ string_all is_whitespace p = true.
Proof.
  induction s as [|c s (p & Hp & Hw)]; simpl; [by exists ""|].
  case_if; [|by exists ""]. exists (String c p). simpl. rewrite <-Hp, Hw. split; [done|]. by rewrite Heqb.
Qed.

Lemma trim_end_skip s : ∃ p, s = trim_end s +:+ p ∧ string_all is_whitespace p = true.
Proof.
  induction s as [|c s (p & Hp & Hw)]; simpl; [by exists ""|].
  destruct (trim_end s) as [|d r] eqn:E.
  - simpl in Hp. subst p. case_if; [exists (String c s)|exists s]; simpl; [by rewrite Heqb|done].
  - exists p. split; [by rewrite Hp at 1|done].
Qed.

Lemma ident_not_space c : is_whitespace c = true → ident_char c = false ∧ ident_start c = false ∧ Ascii.eqb c DQUOTE = false.
Proof.
  intros Hw. unfold ident_char, ident_start, is_ascii_alphanumeric, is_ascii_alphabetic, is_ascii_uppercase,
    is_ascii_lowercase, is_ascii_digit, is_whitespace in *.
  assert (∀ d, Ascii.eqb c d = true → ascii_Z c = ascii_Z d) as Hd by (intros d ->%Ascii.eqb_eq; done).
  destruct (Ascii.eqb c "_") eqn:E1; [specialize (Hd _ E1); change (ascii_Z "_") with 95 in Hd; lia|].
  destruct (Ascii.eqb c DQUOTE) eqn:E2; [specialize (Hd _ E2); change (ascii_Z DQUOTE) with 34 in Hd; lia|].
  lia.
Qed.

Lemma roots_skip_space p s : string_all is_whitespace p = true → expression_roots (p +:+ s) = expression_roots s.
Proof.
  unfold expression_roots. induction p as [|c p IH]; simpl; [done|].
  intros [Hc Hp]%andb_true_iff. destruct (ident_not_space c Hc) as (_ & Hs & Hq).
  unfold scan_between. rewrite Hq, Hs.
  assert (Ascii.eqb c "." = false) as -> by (apply Ascii.eqb_neq; intros ->; done).
  destruct (is_ascii_whitespace c); by apply IH.
Qed.

#[export] Instance agrees_but_equivalence sensitive : Equivalence (agrees_but sensitive).
Proof.
  split.
  - intros v. by split.
  - intros v1 v2 [Hp Hc]. split; intros name; symmetry; auto.
  - intros v1 v2 v3 [Hp Hc] [Hp' Hc']. split; intros name; [intros Hn; by rewrite Hp, Hp'|by rewrite Hc, Hc'].
Qed.

(** An identifier followed by a character that ends it is a root. *)
Lemma roots_ident t u rest :
  string_all ident_char u = true →
  match rest with EmptyString => true | String c _ => negb (ident_char c) end = true →
  (t +:+ u) ∈ roots_loop (InIdent false t) (u +:+ rest).
Proof.
  revert t. induction u as [|c u IH]; intros t Hu Hr.
  - rewrite string_app_nil_r. simpl. destruct rest as [|c rest]; simpl; [by left|].
    apply negb_true_iff in Hr. rewrite Hr. by left.
  - simpl in *. apply andb_true_iff in Hu as [Hc Hu]. rewrite Hc.
    replace (t +:+ String c u) with ((t +:+ String c "") +:+ u) by (by rewrite string_app_assoc).
    by apply IH.
Qed.

Lemma split_char_head c s p ps :
  split_char c s = p :: ps → ∃ rest, s = p +:+ rest ∧ (rest = "" ∨ ∃ r, rest = String c r).
Proof.
  revert p ps. induction s as [|d s IH]; simpl; intros p ps Hs.
  - simplify_eq. by exists ""; auto.
  - case_if.
    + simplify_eq. exists (String d s). apply Ascii.eqb_eq in Heqb. subst. eauto.
    + destruct (split_char c s) as [|q qs] eqn:E; simplify_eq.
      * exists "". destruct s; simpl in E; [|repeat case_match; done]. split; [done|auto].
      * destruct (IH q ps eq_refl) as (rest & -> & Hr). by exists rest.
Qed.

Lemma plain_path_root e p0 rest : plain_path e = Some (p0 :: rest) → p0 ∈ expression_roots e.
Proof.
  unfold plain_path. case_if; [|done]. intros Hs. simplify_eq.
  destruct (split_char_head _ _ _ _ Hs) as (r & Ht & Hr).
  rewrite Hs in Heqb. simpl in Heqb. apply andb_true_iff in Heqb as [Hid _].
  destruct (trim_start_skip e) as (w & He & Hw). destruct (trim_end_skip (trim_start e)) as (w' & He' & Hw').
  rewrite He, (roots_skip_space w _ Hw), He'. unfold trim in Ht. rewrite Ht.
  destruct p0 as [|c u]; [done|]. simpl in Hid. apply andb_true_iff in Hid as [Hc Hu].
  assert (Hq : Ascii.eqb c DQUOTE = false) by (apply Ascii.eqb_neq; intros ->; done).
  rewrite string_app_assoc. unfold expression_roots. simpl. unfold scan_between at 1. rewrite Hq, Hc.
  apply (roots_ident (String c "") u); [done|].
  destruct Hr as [->|[r' ->]]; [|done]. simpl.
  destruct w' as [|d w']; [done|]. simpl in *. apply andb_true_iff in Hw' as [Hd _].
  by destruct (ident_not_space d Hd) as (-> & _ & _).
Qed.

Lemma existsb_contains_false sensitive roots r :
  existsb (contains sensitive) roots = false → r ∈ roots → contains sensitive r = false.
Proof.
  intros He Hr. destruct (contains sensitive r) eqn:E; [|done].
  assert (existsb (contains sensitive) roots = true); [|congruence].
  apply existsb_exists. exists r. split; [by apply list_elem_of_In|done].
Qed.

Section NonInterference.
Context `{BigDecimalText, TimeText}.
Variable evaluate : string → Variables → option FeelValue.
Hypothesis evaluate_local : reads_roots evaluate.
Variables (sensitive : list string) (v1 v2 : Variables).
Hypothesis Hagree : agrees_but sensitive v1 v2.

Lemma masked_by_input_agrees roots path :
  masked_by_input roots path v1 sensitive = masked_by_input roots path v2 sensitive.
Proof.
  unfold masked_by_input. case_if; [done|].
  assert (List.find (λ r, is_some (var_get (companion r) v1)) roots =
          List.find (λ r, is_some (var_get (companion r) v2)) roots) as ->.
  { induction roots as [|r roots IH]; [done|]. simpl in *. apply orb_false_iff in Heqb as [_ Hr].
    by rewrite (agrees_companion _ _ _ Hagree), IH. }
  destruct (List.find _ _) as [root|]; [|done]. simpl. by rewrite (agrees_companion _ _ _ Hagree).
Qed.

(** What is shown for an alias in both snapshots is the same. *)
Lemma alias_value_agrees alias x1 x2 :
  alias_value evaluate alias v1 sensitive = Some x1 →
  alias_value evaluate alias v2 sensitive = Some x2 → x1 = x2.
Proof.
  unfold alias_value. destruct (contains sensitive (al_name alias)) eqn:En.
  { intros (? & _ & ?)%bind_Some (? & _ & ?)%bind_Some. congruence. }
  rewrite masked_by_input_agrees, !(agrees_public _ _ _ Hagree _ En), (agrees_companion _ _ _ Hagree).
  destruct (masked_by_input _ _ _ _) as [m|] eqn:Em.
  { intros (? & _ & ?)%bind_Some (? & _ & ?)%bind_Some. congruence. }
  assert (Hroots : existsb (contains sensitive) (expression_roots (al_expression alias)) = false).
  { unfold masked_by_input in Em. by destruct (existsb _ _). }
  assert (Hpub : ∀ r, r ∈ expression_roots (al_expression alias) → var_get r v1 = var_get r v2).
  { intros r Hr. apply (agrees_public _ _ _ Hagree). by apply (existsb_contains_false _ _ r Hroots). }
  destruct (plain_path (al_expression alias)) as [[|p0 rest]|] eqn:Ep.
  - rewrite (evaluate_local _ _ _ Hpub). congruence.
  - rewrite (Hpub p0) by by apply (plain_path_root _ _ rest). congruence.
  - rewrite (evaluate_local _ _ _ Hpub). congruence.
Qed.

Lemma receipt_value_agrees any attribute x1 x2 :
  receipt_value evaluate v1 sensitive any attribute = Some x1 →
  receipt_value evaluate v2 sensitive any attribute = Some x2 → x1 = x2.
Proof.
  unfold receipt_value. rewrite masked_by_input_agrees.
  destruct (masked_by_input _ _ _ _) as [m|] eqn:Em.
  { intros (? & _ & ?)%bind_Some (? & _ & ?)%bind_Some. congruence. }
  assert (Hroots : existsb (contains sensitive) (expression_roots (ra_expression attribute)) = false).
  { unfold masked_by_input in Em. by destruct (existsb _ _). }
  rewrite (evaluate_local _ v1 v2); [congruence|].
  intros r Hr. apply (agrees_public _ _ _ Hagree). by apply (existsb_contains_false _ _ r Hroots).
Qed.
End NonInterference.

(** A fold that inserts what [f] gives: every entry comes from one element. *)
Lemma fold_insert_entry {A} (key : A → string) (f : A → option string) l acc name x :
  map_get name (fold_left (λ out a, match f a with Some v => map_insert (key a) v out | None => out end) l acc) = Some x →
  map_get name acc = Some x ∨ ∃ a, a ∈ l ∧ key a = name ∧ f a = Some x.
Proof.
  revert acc. induction l as [|a l IH]; simpl; intros acc Hx; [by left|].
  destruct (IH _ Hx) as [Hacc|(b & Hb & Hk & Hf)]; [|right; exists b; split; [by right|done]].
  destruct (f a) as [v|] eqn:Ef; [|by left].
  rewrite map_get_lookup, map_insert_map in Hacc.
  destruct (decide (key a = name)) as [<-|Hne].
  - rewrite lookup_insert_eq in Hacc. simplify_eq. right. exists a. split; [by left|done].
  - rewrite lookup_insert_ne in Hacc by done. left. by rewrite map_get_lookup.
Qed.

Lemma key_unique {A} (key : A → string) l a b :
  NoDup (map key l) → a ∈ l → b ∈ l → key a = key b → a = b.
Proof.
  induction l as [|c l IH]; simpl; intros Hnd Ha Hb Hk; [by apply elem_of_nil in Ha|].
  apply NoDup_cons in Hnd as [Hc Hnd].
  assert (Hin : ∀ z, z ∈ l → key z ∈ map key l) by (intros z ?; rewrite list_elem_of_In; apply in_map; by apply list_elem_of_In).
  apply elem_of_cons in Ha as [->|Ha]; apply elem_of_cons in Hb as [->|Hb]; [done|..|by apply IH].
  - destruct Hc. rewrite Hk. by apply Hin.
  - destruct Hc. rewrite <-Hk. by apply Hin.
Qed.

Lemma aliases_of_nodup p : NoDup (map al_name (aliases_of p)).
Proof.
  unfold aliases_of. generalize (concat (map (λ n, nb_aliases (bindings_for p (node_id n))) (process_nodes p))).
  intros l. assert (Hgen : ∀ acc, NoDup (map al_name acc) → NoDup (map al_name
    (fold_left (λ acc a, if existsb (λ b, String.eqb (al_name b) (al_name a)) acc then acc else acc ++ [a]) l acc))).
  { induction l as [|a l IH]; simpl; intros acc Hacc; [done|]. apply IH. case_if; [done|].
    rewrite map_app. apply NoDup_app. split; [done|]. split; [|by apply NoDup_singleton].
    intros x Hx ->%list_elem_of_singleton. apply list_elem_of_In, in_map_iff in Hx as (b & Hb & Hin).
    assert (existsb (λ b, String.eqb (al_name b) (al_name a)) acc = true); [|congruence].
    apply existsb_exists. exists b. split; [done|]. by apply String.eqb_eq. }
  apply Hgen. constructor.
Qed.

Lemma ends_with_companion s : ends_with REDACTION_COMPANION_SUFFIX s = true → ∃ n, s = companion n.
Proof.
  induction s as [|c s IH]; [done|]. cbn [ends_with].
  intros [->%String.eqb_eq|Hr]%orb_true_iff; [by exists ""|].
  destruct (IH Hr) as [n ->]. by exists (String c n).
Qed.

Lemma existsb_map_insert (q : string → bool) k (v : FeelValue) m :
  existsb (λ e, q e.1) (map_insert k v m) = q k || existsb (λ e, q e.1) m.
Proof.
  induction m as [|[k' w] m IH]; [done|]. simpl.
  destruct (String.compare k k') eqn:E; simpl; [|done|rewrite IH; by destruct (q k), (q k')].
  apply String.compare_eq_iff in E as <-. by destruct (q k).
Qed.

Lemma existsb_context (q : string → bool) vars :
  existsb (λ e, q e.1) (to_feel_context vars) = existsb (λ e, q e.1) vars.
Proof.
  unfold to_feel_context. assert (Hgen : ∀ acc, existsb (λ e, q e.1) (fold_left (λ acc e, map_insert e.1 e.2 acc) vars acc)
    = existsb (λ e, q e.1) acc || existsb (λ e, q e.1) vars).
  { induction vars as [|e vars IH]; intros acc; simpl; [by rewrite orb_false_r|].
    rewrite IH, existsb_map_insert. destruct (q e.1), (existsb _ acc); done. }
  apply Hgen.
Qed.

Lemma map_get_in {A} k (v : A) m : (k, v) ∈ m → is_some (map_get k m) = true.
Proof.
  induction m as [|[k' w] m IH]; intros Hin; [by apply elem_of_nil in Hin|]. simpl.
  destruct (String.eqb_spec k' k); [done|]. apply IH. apply elem_of_cons in Hin as [|]; [congruence|done].
Qed.

Lemma in_map_get {A} k (m : list (string * A)) : is_some (map_get k m) = true → ∃ v, (k, v) ∈ m.
Proof.
  induction m as [|[k' w] m IH]; [done|]. simpl. destruct (String.eqb_spec k' k) as [->|].
  - intros _. exists w. by left.
  - intros [v Hv]%IH. exists v. by right.
Qed.

Lemma any_redactor_agrees sensitive v1 v2 :
  agrees_but sensitive v1 v2 →
  existsb (λ e, ends_with REDACTION_COMPANION_SUFFIX e.1) (to_feel_context v1) =
  existsb (λ e, ends_with REDACTION_COMPANION_SUFFIX e.1) (to_feel_context v2).
Proof.
  intros Hag. rewrite !existsb_context.
  assert (Himp : ∀ a b, agrees_but sensitive a b →
    existsb (λ e, ends_with REDACTION_COMPANION_SUFFIX e.1) a = true →
    existsb (λ e, ends_with REDACTION_COMPANION_SUFFIX e.1) b = true).
  { intros a b Hab ([k v] & Hin & Hs)%existsb_exists. simpl in Hs.
    destruct (ends_with_companion k Hs) as [n ->].
    apply list_elem_of_In, map_get_in in Hin. fold (var_get (companion n) a) in Hin.
    rewrite (agrees_companion _ _ _ Hab) in Hin. apply in_map_get in Hin as [w Hw].
    apply existsb_exists. exists (companion n, w). split; [by apply list_elem_of_In|done]. }
  apply eq_true_iff_eq. split; apply Himp; [done|by symmetry].
Qed.

(** An evaluator of plain paths, which are local. *)
Definition path_evaluator (e : string) (vars : Variables) : option FeelValue :=
  match plain_path e with Some (p0 :: rest) => v ← var_get p0 vars; walk v rest | _ => None end.

Lemma path_evaluator_local : reads_roots path_evaluator.
Proof.
  intros e v1 v2 Hr. unfold path_evaluator. destruct (plain_path e) as [[|p0 rest]|] eqn:E; [done| |done].
  by rewrite (Hr p0) by by apply (plain_path_root _ _ rest).
Qed.

(** A FEEL expression that is one identifier names a variable. *)
Definition name_evaluator (e : string) (vars : Variables) : option FeelValue :=
  if String.eqb (lex_identifier e) e then var_get e vars else None.

(** A process with one variable, declared sensitive, and one alias. *)
Definition audited_process (variable alias expression : string) : ProcessDefinition :=
  mk_process "p" None true "1.0" [EndEvent "e" None] [] ∅ ∅
    {["e" := mk_bindings [] None None None None [mk_alias_binding alias expression false None false]
               None None None None]}
    [mk_declared_variable variable FieldString None None false true false] [] [] None false [].

(** ** Properties *)



(** C39: [expression_roots] is not over-inclusive.  The lexer reads [card-number]
    as one name, but the scan splits it, so the raw value of a sensitive variable
    of that name is shown.  The end of a range and everything after a double quote
    in a single-quoted string are not listed either. *)
Theorem hyphenated_sensitive_value_is_shown `{BigDecimalText, TimeText} (secret : string) :
  lex_identifier "card-number" = "card-number" ∧
  expression_roots "card-number" = ["card"; "number"] ∧
  correlation_snapshot name_evaluator (audited_process "card-number" "k" "card-number")
    [("card-number", Str secret)] = [("k", secret)] ∧
  expression_roots "[0..ssn]" = [] ∧
  expression_roots ("'" +:+ String DQUOTE "' + ssn") = [].
Proof. repeat split; vm_compute; reflexivity. Qed.
