(* ===== verification/Runtime.v ===== *)
(** * The executor's collaborators ([sutra-executor/src/deployment.rs], [error.rs],
    [emission.rs], [listener.rs], [registry.rs], the traits of [datastore.rs] and
    [coverage.rs])

    The traits the executor is wired with are records of functions.  A call that
    can reach the world outside (a store, a clock, a task) takes and returns the
    external state [X]; a backend that fails says so in its [result].

    The theorem: a bare process id resolves exactly when one deployment owns it. *)
From Stdlib Require Import ZArith Lia Bool Ascii String.
From stdpp Require Import base list option gmap strings.
From S2P Require Import Prelude Texts Decimal FeelValue Temporal FeelText Timer ProcessModel Correlation.

Open Scope string_scope.
Open Scope list_scope.
Open Scope Z_scope.

(** ** Deployments *)

Inductive ArtifactType : Type := Template | Script | Decision | Rule | Redactor.

Definition segment (t : ArtifactType) : string :=
  match t with
  | Template => "template" | Script => "script" | Decision => "decision"
  | Rule => "rule" | Redactor => "redactor"
  end.

Record DeploymentId : Type := mk_deployment { dep_value : string }.

#[export] Instance DeploymentId_eq_dec : EqDecision DeploymentId.
Proof. solve_decision. Defined.

Definition is_lower_hex (c : ascii) : bool :=
  is_ascii_digit c || ((97 <=? ascii_Z c) && (ascii_Z c <=? 102)).

Definition deployment_of (value : string) : result string DeploymentId :=
  let body := match strip_prefix "dep-" value with
              | Some r => (String.length value =? 28)%nat && string_all is_lower_hex r
              | None => false
              end in
  if body then Ok (mk_deployment value)
  else Err ("deployment id must match dep-<24 lowercase hex>, got '" +:+ value +:+ "'").

Definition system : DeploymentId := mk_deployment "dep-000000000000000000000000".
Definition unresolved : DeploymentId := mk_deployment "dep-ffffffffffffffffffffffff".

Definition is_resolved (d : DeploymentId) : bool := negb (bool_decide (d = unresolved)).

Definition artifact (d : DeploymentId) (t : ArtifactType) (local_id : string) : string :=
  dep_value d +:+ ":" +:+ segment t +:+ ":" +:+ local_id.

Definition Labels : Type := list (string * string).

(** ** Execution errors *)

Definition NOT_YET_IMPLEMENTED_CODE : string := "SUTRA.EXEC.NOT_YET_IMPLEMENTED".

Inductive ExecError : Type :=
| Diagnostic (e : SutraError)
| NotYetImplemented (node_id implementation : string).

Definition diag (code message : string) : ExecError := Diagnostic (mk_error code message).

Definition exec_code (e : ExecError) : string :=
  match e with Diagnostic d => code d | NotYetImplemented _ _ => NOT_YET_IMPLEMENTED_CODE end.

Definition exec_message (e : ExecError) : string :=
  match e with
  | Diagnostic d => message d
  | NotYetImplemented node_id implementation =>
      "Service task '" +:+ node_id +:+ "' is a channel-call task (" +:+ implementation +:+
      "); channel-call execution (enqueue + park + correlate) is not implemented in the synchronous executor."
  end.

Definition to_diagnostic (e : ExecError) : SutraError :=
  match e with
  | Diagnostic d => d
  | other => mk_error NOT_YET_IMPLEMENTED_CODE (exec_message other)
  end.

Definition exec_display (e : ExecError) : string := "[" +:+ exec_code e +:+ "] " +:+ exec_message e.

(** ** Outbound emissions *)

Record AuthRef : Type := mk_auth_ref { ar_scheme : string; ar_secret_ref : string; ar_header : option string }.

Inductive EmissionKind : Type := Reply | Send.

Record CloudEventLite : Type := mk_cloud_event {
  ev_id : string; ev_source : string; ev_spec_version : string; ev_type : string;
  ev_subject : option string; ev_time : option string; ev_data_content_type : option string }.

(** The body is its bytes. *)
Record Emission : Type := mk_emission {
  em_kind : EmissionKind; em_node_id : string; em_instance_id : string; em_mode : ReplyMode;
  em_destination : string; em_content_type : option string; em_required : bool; em_body : string;
  em_cloud_event : option CloudEventLite; em_auth_ref : option AuthRef;
  em_headers : list (string * string) }.

(** ** Listener events *)

Record InstanceEvent : Type := mk_instance_event {
  ie_deployment : DeploymentId; ie_labels : Labels; ie_instance_id : string; ie_process_id : string;
  ie_module_version : string; ie_audit_sink : option string; ie_correlation : list (string * string) }.

Record TokenEvent : Type := mk_token_event {
  tk_deployment : DeploymentId; tk_labels : Labels; tk_instance_id : string; tk_node_id : string;
  tk_node_type : string; tk_audit_sink : option string; tk_payload_json : option string;
  tk_correlation : list (string * string) }.

Record TaskEvent : Type := mk_task_event {
  ta_deployment : DeploymentId; ta_labels : Labels; ta_instance_id : string; ta_task_name : string;
  ta_duration_nanos : Z }.

Record DispatchEvent : Type := mk_dispatch_event {
  di_deployment : DeploymentId; di_labels : Labels; di_instance_id : string; di_node_id : string;
  di_default_called_element : option string }.

Record ReplyEvent : Type := mk_reply_event {
  re_deployment : DeploymentId; re_labels : Labels; re_instance_id : string; re_node_id : string;
  re_mode : ReplyMode; re_destination : string }.

Record TimerEvent : Type := mk_timer_event {
  ti_deployment : DeploymentId; ti_labels : Labels; ti_instance_id : string; ti_node_id : string;
  ti_due_at : string }.

Record TimerFire : Type := mk_timer_fire {
  tf_deployment : DeploymentId; tf_instance_id : string; tf_node_id : string; tf_due_at : string;
  tf_fired_at : string }.

(** The callbacks of [ExecutionListener], in the order they are broadcast. *)
Inductive Event : Type :=
| OnInstanceStarted (e : InstanceEvent)
| OnInstanceCompleted (e : InstanceEvent)
| OnInstanceSuspended (e : InstanceEvent)
| OnInstanceResumed (e : InstanceEvent)
| OnInstanceFailed (e : InstanceEvent) (diagnostic : SutraError)
| OnTokenEntered (e : TokenEvent)
| OnTokenLeft (e : TokenEvent)
| OnTaskInvoked (e : TaskEvent)
| OnTaskCompleted (e : TaskEvent)
| OnTaskFailed (e : TaskEvent) (diagnostic : SutraError)
| OnDispatchSkipped (e : DispatchEvent)
| OnReplyEmitted (e : ReplyEvent)
| OnPathCovered (e : InstanceEvent) (path_id : string)
| OnTimerScheduled (e : TimerEvent)
| OnTimerFired (e : TimerEvent)
| OnTimerCancelled (e : TimerEvent).

(** ** Registries *)

Record TaskContextView : Type := mk_task_view {
  tv_deployment : DeploymentId; tv_labels : Labels; tv_instance_id : string; tv_module_id : string;
  tv_module_version : string; tv_simulation : bool; tv_variables : Variables }.

Inductive TaskError : Type := TaskBpmnError (code : string) | TaskFailed (message : string).

Definition TaskFn (X : Type) : Type := FeelValue → TaskContextView → X → result TaskError FeelValue * X.

Definition TaskRegistry (X : Type) : Type := list (string * TaskFn X).

(** [{:?}] of a list of strings without characters that need escaping. *)
Definition debug_list (l : list string) : string := "[" +:+ String.concat ", " (map dq l) +:+ "]".

Definition RESOLVE_TASK_UNKNOWN : string := "SUTRA.RESOLVE.TASK.UNKNOWN".

Definition resolve_task {X} (tasks : TaskRegistry X) (name : string) : result ExecError (TaskFn X) :=
  ok_or (diag RESOLVE_TASK_UNKNOWN
           ("No @Task(" +:+ dq name +:+ ") registered. Known: " +:+ debug_list (sort_texts (map fst tasks))))
        (map_get name tasks).

(** [TemplateEngine] and [DecisionEngine]: an engine and the extensions it claims. *)
Record Engine (In Out : Type) : Type := mk_engine {
  en_name : string; en_extensions : list string;
  en_run : string → string → In → result string Out }.
Arguments mk_engine {In Out} _ _ _.
Arguments en_name {In Out} _.
Arguments en_extensions {In Out} _.
Arguments en_run {In Out} _ _ _ _.

Definition TemplateEngine : Type := Engine Json string.
Definition DecisionEngine : Type := Engine Variables Variables.

Definition to_ascii_lowercase (c : ascii) : ascii :=
  if is_ascii_uppercase c then ascii_of_nat (nat_of_ascii c + 32) else c.

Fixpoint to_lowercase (s : string) : string :=
  match s with EmptyString => EmptyString | String c r => String (to_ascii_lowercase c) (to_lowercase r) end.

Definition for_implementation {In Out} (engines : list (Engine In Out)) (implementation : string)
    : option (Engine In Out) :=
  if str_is_empty (trim implementation) then None
  else List.find (λ e, existsb (λ ext, negb (str_is_empty (trim ext))
                                && ends_with (to_lowercase ext) (to_lowercase implementation)) (en_extensions e)) engines.

(** [TemplateRegistry], [ScriptRegistry], [DecisionRegistry]: bytes by key. *)
Definition BytesRegistry : Type := gmap string string.

Record ResolvedOutboundChannel : Type := mk_outbound_channel {
  oc_name : string; oc_destination : string; oc_mode : ReplyMode; oc_auth_ref : option AuthRef;
  oc_sync : bool }.

Definition resolve_outbound (name destination : string)
    (auth_scheme auth_secret_ref auth_header : option string) (cloudevents_mode : string)
    : ResolvedOutboundChannel :=
  let mode := if String.eqb cloudevents_mode "structured" then CloudeventStructured
              else if String.eqb cloudevents_mode "binary" then CloudeventBinary else Native in
  let auth_ref := match auth_scheme, auth_secret_ref with
                  | Some scheme, Some secret_ref => Some (mk_auth_ref scheme secret_ref auth_header)
                  | _, _ => None
                  end in
  mk_outbound_channel name destination mode auth_ref false.

Definition OutboundChannelRegistry : Type := gmap (string * string) ResolvedOutboundChannel.

Definition register_outbound (reg : OutboundChannelRegistry) (d : DeploymentId) (c : ResolvedOutboundChannel)
    : OutboundChannelRegistry := <[(dep_value d, oc_name c) := c]> reg.

Definition find_outbound (reg : OutboundChannelRegistry) (d : DeploymentId) (name : string)
    : option ResolvedOutboundChannel := reg !! (dep_value d, name).

Definition RESOLVE_BARE_ID_AMBIGUOUS : string := "SUTRA.RESOLVE.BARE_ID.AMBIGUOUS".

Definition ProcessRegistry : Type := list (DeploymentId * ProcessModule).

Definition find_in_module (reg : ProcessRegistry) (d : DeploymentId) (id : string) : option ProcessDefinition :=
  if str_is_empty (trim id) then None
  else head (omap (λ e, if decide (e.1 = d) then ok (module_process e.2 id) else None) reg).

(** The owning deployments, each once, with the first module of it that has the process. *)
Fixpoint owners_loop (id : string) (owners : list (DeploymentId * ProcessDefinition)) (reg : ProcessRegistry)
    : list (DeploymentId * ProcessDefinition) :=
  match reg with
  | [] => owners
  | (d, m) :: reg =>
      match module_process m id with
      | Ok p => owners_loop id (if decide (d ∈ map fst owners) then owners else owners ++ [(d, p)]) reg
      | Err _ => owners_loop id owners reg
      end
  end.

Definition find_process_anywhere (reg : ProcessRegistry) (id : string) : result ExecError (option ProcessDefinition) :=
  if str_is_empty (trim id) then Ok None
  else
    match owners_loop id [] reg with
    | [] => Ok None
    | [(_, p)] => Ok (Some p)
    | owners =>
        Err (diag RESOLVE_BARE_ID_AMBIGUOUS
          ("Bare process id '" +:+ id +:+ "' is ambiguous: it exists in "
           +:+ dec_string (Z.of_nat (length owners)) +:+ " live deployments ("
           +:+ debug_list (map (λ o, dep_value o.1) owners)
           +:+ "). Qualify the reference so exactly one deployment resolves."))
    end.

(** ** Data stores *)

Record StoreError : Type := mk_store_error { store_message : string }.

Record StoreQueryAggregateSpec : Type := mk_aggregate_spec {
  sum_field : option (list string); group_by : option (list string) }.

Record StoreKeyQuery : Type := mk_key_query {
  kq_lower : string; kq_upper : option string; kq_after : option string; row_limit : option Z;
  kq_aggregates : list StoreQueryAggregateSpec }.

Record StoreAggregateCell : Type := mk_cell { cell_count : Z; cell_sum : option BigDecimal; non_numeric : Z }.

Inductive StoreAggregateValue : Type :=
| Total (cell : StoreAggregateCell)
| Grouped (groups : list (string * StoreAggregateCell)).

Record StoreQueryResult : Type := mk_query_result {
  qr_rows : list (string * FeelValue); qr_aggregates : list StoreAggregateValue;
  qr_truncated : bool; qr_next : option string }.

(** A call on the external state that may fail. *)
Definition Io (X A : Type) : Type := X → result StoreError A * X.

Record DataStoreTx (X : Type) : Type := mk_store_tx {
  tx_get : string → Io X (option FeelValue);
  tx_get_for_update : string → Io X (option FeelValue);
  tx_revision : string → Io X Z;
  tx_put : string → FeelValue → Io X unit;
  tx_put_if_revision : string → FeelValue → Z → Io X bool;
  tx_commit : Io X unit;
  tx_rollback : Io X unit }.
Arguments tx_get {X} _. Arguments tx_get_for_update {X} _. Arguments tx_revision {X} _.
Arguments tx_put {X} _. Arguments tx_put_if_revision {X} _. Arguments tx_commit {X} _.
Arguments tx_rollback {X} _. Arguments mk_store_tx {X}.

Record DataStore (X : Type) : Type := mk_data_store {
  ds_name : string;
  ds_get : string → Io X (option FeelValue);
  ds_put : string → FeelValue → Io X unit;
  ds_get_with_revision : string → Io X (option FeelValue * Z);
  ds_put_if_revision : string → FeelValue → Z → Io X bool;
  ds_begin : Io X (option (DataStoreTx X));
  ds_query : StoreKeyQuery → Io X StoreQueryResult }.
Arguments ds_name {X} _. Arguments ds_get {X} _. Arguments ds_put {X} _.
Arguments ds_get_with_revision {X} _. Arguments ds_put_if_revision {X} _. Arguments ds_begin {X} _.
Arguments ds_query {X} _. Arguments mk_data_store {X}.

(** ** Coverage *)

Record CoverageFragment : Type := mk_fragment {
  fr_route_urn : string; fr_segment_process : string; fr_instance_id : string;
  fr_business_key : option string; fr_trace_id : option string }.

Record CoverageCorrelation : Type := mk_correlation { co_trace_id : option string; co_business_key : option string }.
Definition no_correlation : CoverageCorrelation := mk_correlation None None.

Definition COVERAGE_URN_PREFIX : string := "urn:sutra:coverage:".

(** [rsplit_once]: around the last occurrence. *)
Fixpoint rsplit_once (c : ascii) (s : string) : option (string * string) :=
  match s with
  | EmptyString => None
  | String d r =>
      match rsplit_once c r with
      | Some (a, b) => Some (String d a, b)
      | None => if Ascii.eqb d c then Some (EmptyString, r) else None
      end
  end.

Definition split_injected_sub_path (path_id : string) : option (string * string) :=
  if starts_with COVERAGE_URN_PREFIX path_id then
    '(route_urn, segment_process) ← rsplit_once "#" path_id;
    if str_is_empty route_urn || str_is_empty segment_process then None
    else Some (route_urn, segment_process)
  else None.

Definition metric_flag_urn (path_id : string) : string :=
  match split_injected_sub_path path_id with Some (route_urn, _) => route_urn | None => path_id end.

(** [BTreeSet] insertion: in order, once. *)
Fixpoint set_insert (s : string) (l : list string) : list string :=
  match l with
  | [] => [s]
  | t :: l' => match String.compare s t with Eq => l | Lt => s :: l | Gt => t :: set_insert s l' end
  end.

Definition seed_urns (path_ids : list string) : list string :=
  fold_left (λ acc id, set_insert (metric_flag_urn id) acc) path_ids [].

Record CoverageMetricStore (X : Type) : Type := mk_metric_store {
  mark_path_covered : string → string → Io X bool;
  covered_among : string → list string → Io X (list string);
  clear_paths : string → list string → Io X Z;
  write_fragment : string → CoverageFragment → Io X unit }.
Arguments mark_path_covered {X} _. Arguments covered_among {X} _. Arguments clear_paths {X} _.
Arguments write_fragment {X} _. Arguments mk_metric_store {X}.

(** ** Lemmas *)

Definition owns (reg : ProcessRegistry) (id : string) (d : DeploymentId) : Prop :=
  ∃ m p, (d, m) ∈ reg ∧ module_process m id = Ok p.

Lemma owns_cons d0 m0 reg id d :
  owns ((d0, m0) :: reg) id d ↔ (d = d0 ∧ is_ok (module_process m0 id) = true) ∨ owns reg id d.
Proof.
  split.
  - intros (m & p & Hin & Hp). apply elem_of_cons in Hin as [[= -> ->]|Hin].
    + left. by rewrite Hp.
    + right. by exists m, p.
  - intros [[-> Hok]|(m & p & Hin & Hp)].
    + destruct (module_process m0 id) as [p|] eqn:E; [|done]. exists m0, p. split; [by left|done].
    + exists m, p. split; [by right|done].
Qed.

Lemma owners_loop_nodup id owners reg :
  NoDup (map fst owners) → NoDup (map fst (owners_loop id owners reg)).
Proof.
  revert owners. induction reg as [|[d m] reg IH]; intros owners Hnd; [done|]. simpl.
  destruct (module_process m id); [|by apply IH]. apply IH. case_decide; [done|].
  rewrite map_app. apply NoDup_app. split; [done|]. split; [|by apply NoDup_singleton].
  intros x Hx Hd. simpl in Hd. apply list_elem_of_singleton in Hd. by subst x.
Qed.

Lemma owners_loop_owns id owners reg d :
  d ∈ map fst (owners_loop id owners reg) ↔ d ∈ map fst owners ∨ owns reg id d.
Proof.
  revert owners. induction reg as [|[d0 m0] reg IH]; intros owners; simpl.
  { split; [by left|]. intros [|(m & p & Hin & _)]; [done|]. by apply elem_of_nil in Hin. }
  rewrite owns_cons. destruct (module_process m0 id) as [p|] eqn:E; rewrite IH; [|naive_solver].
  case_decide as Hd; [naive_solver|].
  rewrite map_app, elem_of_app. simpl. rewrite list_elem_of_singleton. naive_solver.
Qed.

(** An owner's process is the one its own deployment resolves. *)
Lemma owners_loop_process id owners reg d p :
  (d, p) ∈ owners_loop id owners reg →
  (d, p) ∈ owners ∨
  ((d ∉ map fst owners) ∧
   head (omap (λ e, if decide (e.1 = d) then ok (module_process e.2 id) else None) reg) = Some p).
Proof.
  revert owners. induction reg as [|[d0 m0] reg IH]; intros owners Hin; [by left|]. simpl in *.
  destruct (module_process m0 id) as [p0|] eqn:E; simpl.
  - apply IH in Hin as [Hin|[Hd Hh]].
    + case_decide as Hd; [by left|]. apply elem_of_app in Hin as [|Hin]; [by left|].
      apply list_elem_of_singleton in Hin as [= -> ->]. right. split; [done|].
      by rewrite decide_True.
    + destruct (decide (d0 ∈ map fst owners)) as [Hd0|Hd0].
      * right. split; [done|]. rewrite decide_False; [done|]. by intros ->.
      * right. rewrite map_app, elem_of_app in Hd. simpl in Hd. rewrite list_elem_of_singleton in Hd.
        split; [naive_solver|]. rewrite decide_False; [done|naive_solver].
  - apply IH in Hin as [|[Hd Hh]]; [by left|]. right. split; [done|]. by case_decide.
Qed.

(** ** Properties *)

(** A bare process id resolves exactly when one deployment owns it.  No
    owner gives nothing; one owner gives the process that deployment itself
    resolves; two owners are refused as ambiguous, however many modules each
    registered. *)
Theorem bare_process_id_resolution (reg : ProcessRegistry) (id : string) :
  trim id ≠ "" →
  match find_process_anywhere reg id with
  | Ok None => ∀ d, ¬ owns reg id d
  | Ok (Some p) => ∃ d, find_in_module reg d id = Some p ∧ ∀ d', owns reg id d' ↔ d' = d
  | Err e => exec_code e = RESOLVE_BARE_ID_AMBIGUOUS ∧ ∃ d1 d2, d1 ≠ d2 ∧ owns reg id d1 ∧ owns reg id d2
  end.
Proof.
  intros Hid. unfold find_process_anywhere, find_in_module.
  assert (str_is_empty (trim id) = false) as -> by by destruct (trim id).
  pose proof (owners_loop_owns id [] reg) as Hown.
  pose proof (owners_loop_nodup id [] reg ltac:(constructor)) as Hnd.
  pose proof (owners_loop_process id [] reg) as Hproc.
  destruct (owners_loop id [] reg) as [|[d1 p1] [|[d2 p2] rest]]; simpl in *.
  - intros d Hd. specialize (proj2 (Hown d) (or_intror Hd)). apply not_elem_of_nil.
  - exists d1. split.
    + destruct (Hproc d1 p1) as [H0|[_ H0]]; [by left|by apply elem_of_nil in H0|done].
    + intros d'. specialize (Hown d'). rewrite list_elem_of_singleton in Hown.
      rewrite Hown. split; [by right|]. intros [Hn|]; [by apply elem_of_nil in Hn|done].
  - split; [done|]. exists d1, d2. apply NoDup_cons in Hnd as [Hn _]. split; [intros ->; apply Hn; by left|].
    assert (Hsome : ∀ d, d ∈ d1 :: d2 :: map fst rest → owns reg id d).
    { intros d Hd. apply Hown in Hd as [Hd|]; [by apply elem_of_nil in Hd|done]. }
    split; apply Hsome; [by left|by right; left].
Qed.

Lemma bare_process_id_resolution_witness :
  let m := mk_module "urn:t" None [] [audited_process "v" "k" "v"] in
  let a := mk_deployment "dep-000000000000000000000001" in
  let b := mk_deployment "dep-000000000000000000000002" in
  (∃ e, find_process_anywhere [(a, m); (b, m)] "p" = Err e ∧ exec_code e = RESOLVE_BARE_ID_AMBIGUOUS) ∧
  ∃ p, find_process_anywhere [(a, m); (a, m)] "p" = Ok (Some p).
Proof.
  intros m a b. pose proof (bare_process_id_resolution [(a, m); (b, m)] "p" ltac:(done)) as H1.
  pose proof (bare_process_id_resolution [(a, m); (a, m)] "p" ltac:(done)) as H2. split.
  - destruct (find_process_anywhere [(a, m); (b, m)] "p") as [o|e] eqn:E; [vm_compute in E; discriminate|].
    exists e. split; [reflexivity|apply H1].
  - destruct (find_process_anywhere [(a, m); (a, m)] "p") as [[p|]|e] eqn:E;
      [by exists p|vm_compute in E; discriminate|vm_compute in E; discriminate].
Defined.
