(* ===== verification/ExecState.v ===== *)
(** * Execution state and effects of the token executor
    ([sutra-executor/src/executor.rs]: the executor's wiring, [ExecutionState],
    [Signal], and the state operations)

    A pass of the executor threads two things: the [World] every scope of an
    instance shares (the variables behind [Rc<RefCell<InnerCtx>>], the listener
    calls and emissions made so far, the external state [X] of stores, clocks and
    tasks), and the [ExecutionState] of the scope at hand.  [M] is the state and
    exception monad over both; a raised signal keeps the state it was raised in,
    as a Rust [Err] leaves [&mut state] as it is.  A loop runs on fuel.

    What the operations do to a state is stated once, by the step relation of
    [StepRelation]. *)
From Stdlib Require Import ZArith Lia Bool Ascii String.
From stdpp Require Import base list option gmap strings.
From S2P Require Import Prelude Decimal FeelValue Temporal FeelText Timer ProcessModel Correlation Runtime.

Open Scope string_scope.
Open Scope list_scope.
Open Scope Z_scope.

(** ** Diagnostic codes *)

Definition RUNTIME_UNEXPECTED : string := "SUTRA.RUNTIME.UNEXPECTED".
Definition RUNTIME_TASK_UNCAUGHT : string := "SUTRA.RUNTIME.TASK.UNCAUGHT".
Definition RUNTIME_ERROR_UNCAUGHT : string := "SUTRA.RUNTIME.ERROR.UNCAUGHT".
Definition RUNTIME_COMPENSATION_FAILED : string := "SUTRA.RUNTIME.COMPENSATION.FAILED".
Definition RUNTIME_MULTI_INSTANCE_COMPLETION_FAILED : string := "SUTRA.RUNTIME.MULTI_INSTANCE.COMPLETION_FAILED".
Definition RUNTIME_ADHOC_COMPLETION_FAILED : string := "SUTRA.RUNTIME.ADHOC.COMPLETION_FAILED".
Definition RUNTIME_DATASTORE_CONFLICT : string := "SUTRA.RUNTIME.DATASTORE.CONFLICT".
Definition RUNTIME_DECODE_NOT_TEXT : string := "SUTRA.RUNTIME.DECODE.NOT_TEXT".
Definition RUNTIME_DECODE_FAILED : string := "SUTRA.RUNTIME.DECODE.FAILED".
Definition RUNTIME_DECODE_TOO_LARGE : string := "SUTRA.RUNTIME.DECODE.TOO_LARGE".
Definition RUNTIME_DATASTORE_QUERY_NOT_NUMERIC : string := "SUTRA.RUNTIME.DATASTORE.QUERY_NOT_NUMERIC".
Definition RUNTIME_DATASTORE_QUERY_INVALID : string := "SUTRA.RUNTIME.DATASTORE.QUERY_INVALID".
Definition DISPATCH_NO_MATCH : string := "SUTRA.DISPATCH.NO_MATCH".
Definition DISPATCH_FEEL_EVAL_FAILED : string := "SUTRA.DISPATCH.FEEL_EVAL_FAILED".
Definition DISPATCH_SUB_PROCESS_NOT_FOUND : string := "SUTRA.DISPATCH.SUB_PROCESS_NOT_FOUND".
Definition DISPATCH_CHANNEL_CALL_TIMEOUT : string := "SUTRA.DISPATCH.CHANNEL_CALL.TIMEOUT".
Definition DISPATCH_CHANNEL_CALL_UNSUPPORTED_CONTEXT : string :=
  "SUTRA.DISPATCH.CHANNEL_CALL.UNSUPPORTED_CONTEXT".
Definition RUNTIME_RETRY_EXHAUSTED : string := "SUTRA.RUNTIME.RETRY.EXHAUSTED".
Definition DISPATCH_RETRY_UNSUPPORTED_CONTEXT : string := "SUTRA.DISPATCH.RETRY.UNSUPPORTED_CONTEXT".
Definition OUTBOUND_REPLY_DEST_REQUIRED_NOT_SET : string := "SUTRA.OUTBOUND.REPLY_DEST_REQUIRED_NOT_SET".
Definition OUTBOUND_REPLY_AUTH_RESOLVER_NOT_FOUND : string := "SUTRA.OUTBOUND.REPLY_AUTH_RESOLVER_NOT_FOUND".
Definition OUTBOUND_HEADER_FEEL_EVAL_FAILED : string := "SUTRA.OUTBOUND.HEADER_FEEL_EVAL_FAILED".
Definition CONFIG_CHANNEL_OUTBOUND_UNKNOWN : string := "SUTRA.CONFIG.CHANNEL.OUTBOUND_UNKNOWN".
Definition CONFIG_COVERAGE_STORE_MISSING : string := "SUTRA.CONFIG.COVERAGE.STORE_MISSING".
Definition RESOLVE_TEMPLATE_UNKNOWN : string := "SUTRA.RESOLVE.TEMPLATE.UNKNOWN".
Definition PARSE_DATA_ASSOCIATION_UNSUPPORTED : string := "SUTRA.PARSE.DATA_ASSOCIATION.UNSUPPORTED".
Definition PARSE_THROW_SEND_REQUIRED : string := "SUTRA.PARSE.THROW.SEND_REQUIRED".
Definition RUNTIME_TIMER_EXPRESSION_INVALID : string := "SUTRA.RUNTIME.TIMER.EXPRESSION_INVALID".

Definition COVERAGE_OP_PREFIX : string := "coverage:".
Definition CALL_FAILURE_VARIABLE : string := "callFailure".
Definition TIMER_CONFIG_ROOT : string := "config".

(** ** Execution state *)

Record TimerWait : Type := mk_timer_wait { tw_node_id : string; tw_due_at : string }.

Record FiredTimer : Type := mk_fired_timer {
  boundary_id : string; host_id : string; ft_interrupting : bool; ft_timer : option TimerDefinition }.

Record ChannelCallFailure : Type := mk_call_failure {
  cf_reason : string; cf_node_id : string; cf_code : string; cf_message : string }.

#[projections(primitive)]
Record ExecutionState (X : Type) : Type := mk_state {
  s_process : ProcessDefinition; s_deployment : DeploymentId; s_labels : Labels; s_instance_id : string;
  work : list string; flow_trace : list string; path_progress : gmap string nat; visited : gset string;
  parallel_arrivals : gmap string nat; inclusive_arrivals : gmap string nat;
  inclusive_expected : gmap string nat; complex_arrivals : gmap string nat; complex_fired : gset string;
  completed_activities : list string; end_outputs : Variables; reached_end : bool; trace_coverage : bool;
  store_tx : option (gmap string (DataStoreTx X)); store_revs : gmap string Z;
  prior_completed : gset string; prior_completed_ordered : list string; waiting : list string;
  prior_waiting : gset string; timer_waits : list TimerWait; fired_timer : option FiredTimer;
  detached_reply : bool; retry_attempts : gmap string Z; retry_parkable : bool;
  retry_backoff : gmap string string; channel_call_failure : option ChannelCallFailure; ghost : bool;
  resume_entry : option string; ghost_flows : gset string; fresh_waits : list string;
  correlation : CoverageCorrelation }.
Arguments mk_state {X}.
Arguments s_process {X} _. Arguments s_deployment {X} _. Arguments s_labels {X} _.
Arguments s_instance_id {X} _. Arguments work {X} _. Arguments flow_trace {X} _.
Arguments path_progress {X} _. Arguments visited {X} _. Arguments parallel_arrivals {X} _.
Arguments inclusive_arrivals {X} _. Arguments inclusive_expected {X} _. Arguments complex_arrivals {X} _.
Arguments complex_fired {X} _. Arguments completed_activities {X} _. Arguments end_outputs {X} _.
Arguments reached_end {X} _. Arguments trace_coverage {X} _. Arguments store_tx {X} _.
Arguments store_revs {X} _. Arguments prior_completed {X} _. Arguments prior_completed_ordered {X} _.
Arguments waiting {X} _. Arguments prior_waiting {X} _. Arguments timer_waits {X} _.
Arguments fired_timer {X} _. Arguments detached_reply {X} _. Arguments retry_attempts {X} _.
Arguments retry_parkable {X} _. Arguments retry_backoff {X} _. Arguments channel_call_failure {X} _.
Arguments ghost {X} _. Arguments resume_entry {X} _. Arguments ghost_flows {X} _.
Arguments fresh_waits {X} _. Arguments correlation {X} _.

(** [setter s p v]: the state [s] with [v] in the field [p]. *)
Ltac setter s p v :=
  let X := match type of s with ExecutionState ?X => X end in
  let put q := first [constr_eq p q; exact v | exact (q s)] in
  refine (@mk_state X _ _ _ _ _ _ _ _ _ _ _ _ _ _ _ _ _ _ _ _ _ _ _ _ _ _ _ _ _ _ _ _ _ _ _);
  [put (@s_process X) | put (@s_deployment X) | put (@s_labels X) | put (@s_instance_id X) | put (@work X)
   | put (@flow_trace X) | put (@path_progress X) | put (@visited X) | put (@parallel_arrivals X) | put
   (@inclusive_arrivals X) | put (@inclusive_expected X) | put (@complex_arrivals X) | put (@complex_fired
   X) | put (@completed_activities X) | put (@end_outputs X) | put (@reached_end X) | put (@trace_coverage
   X) | put (@store_tx X) | put (@store_revs X) | put (@prior_completed X) | put (@prior_completed_ordered
   X) | put (@waiting X) | put (@prior_waiting X) | put (@timer_waits X) | put (@fired_timer X) | put
   (@detached_reply X) | put (@retry_attempts X) | put (@retry_parkable X) | put (@retry_backoff X) | put
   (@channel_call_failure X) | put (@ghost X) | put (@resume_entry X) | put (@ghost_flows X) | put
   (@fresh_waits X) | put (@correlation X)].

Definition set_work {X} (f : list string → list string) (s : ExecutionState X)
    : ExecutionState X := ltac:(setter s (@work X) (f (work s))).
Definition set_flow_trace {X} (f : list string → list string) (s : ExecutionState X)
    : ExecutionState X := ltac:(setter s (@flow_trace X) (f (flow_trace s))).
Definition set_path_progress {X} (f : gmap string nat → gmap string nat) (s : ExecutionState X)
    : ExecutionState X := ltac:(setter s (@path_progress X) (f (path_progress s))).
Definition set_visited {X} (f : gset string → gset string) (s : ExecutionState X)
    : ExecutionState X := ltac:(setter s (@visited X) (f (visited s))).
Definition set_parallel_arrivals {X} (f : gmap string nat → gmap string nat) (s : ExecutionState X)
    : ExecutionState X := ltac:(setter s (@parallel_arrivals X) (f (parallel_arrivals s))).
Definition set_inclusive_arrivals {X} (f : gmap string nat → gmap string nat) (s : ExecutionState X)
    : ExecutionState X := ltac:(setter s (@inclusive_arrivals X) (f (inclusive_arrivals s))).
Definition set_inclusive_expected {X} (f : gmap string nat → gmap string nat) (s : ExecutionState X)
    : ExecutionState X := ltac:(setter s (@inclusive_expected X) (f (inclusive_expected s))).
Definition set_complex_arrivals {X} (f : gmap string nat → gmap string nat) (s : ExecutionState X)
    : ExecutionState X := ltac:(setter s (@complex_arrivals X) (f (complex_arrivals s))).
Definition set_complex_fired {X} (f : gset string → gset string) (s : ExecutionState X)
    : ExecutionState X := ltac:(setter s (@complex_fired X) (f (complex_fired s))).
Definition set_completed_activities {X} (f : list string → list string) (s : ExecutionState X)
    : ExecutionState X := ltac:(setter s (@completed_activities X) (f (completed_activities s))).
Definition set_end_outputs {X} (f : Variables → Variables) (s : ExecutionState X)
    : ExecutionState X := ltac:(setter s (@end_outputs X) (f (end_outputs s))).
Definition set_reached_end {X} (f : bool → bool) (s : ExecutionState X)
    : ExecutionState X := ltac:(setter s (@reached_end X) (f (reached_end s))).
Definition set_store_tx {X} (f : option (gmap string (DataStoreTx X)) → option (gmap string (DataStoreTx X))) (s : ExecutionState X)
    : ExecutionState X := ltac:(setter s (@store_tx X) (f (store_tx s))).
Definition set_store_revs {X} (f : gmap string Z → gmap string Z) (s : ExecutionState X)
    : ExecutionState X := ltac:(setter s (@store_revs X) (f (store_revs s))).
Definition set_prior_completed {X} (f : gset string → gset string) (s : ExecutionState X)
    : ExecutionState X := ltac:(setter s (@prior_completed X) (f (prior_completed s))).
Definition set_prior_completed_ordered {X} (f : list string → list string) (s : ExecutionState X)
    : ExecutionState X := ltac:(setter s (@prior_completed_ordered X) (f (prior_completed_ordered s))).
Definition set_waiting {X} (f : list string → list string) (s : ExecutionState X)
    : ExecutionState X := ltac:(setter s (@waiting X) (f (waiting s))).
Definition set_prior_waiting {X} (f : gset string → gset string) (s : ExecutionState X)
    : ExecutionState X := ltac:(setter s (@prior_waiting X) (f (prior_waiting s))).
Definition set_timer_waits {X} (f : list TimerWait → list TimerWait) (s : ExecutionState X)
    : ExecutionState X := ltac:(setter s (@timer_waits X) (f (timer_waits s))).
Definition set_fired_timer {X} (f : option FiredTimer → option FiredTimer) (s : ExecutionState X)
    : ExecutionState X := ltac:(setter s (@fired_timer X) (f (fired_timer s))).
Definition set_detached_reply {X} (f : bool → bool) (s : ExecutionState X)
    : ExecutionState X := ltac:(setter s (@detached_reply X) (f (detached_reply s))).
Definition set_retry_attempts {X} (f : gmap string Z → gmap string Z) (s : ExecutionState X)
    : ExecutionState X := ltac:(setter s (@retry_attempts X) (f (retry_attempts s))).
Definition set_retry_parkable {X} (f : bool → bool) (s : ExecutionState X)
    : ExecutionState X := ltac:(setter s (@retry_parkable X) (f (retry_parkable s))).
Definition set_retry_backoff {X} (f : gmap string string → gmap string string) (s : ExecutionState X)
    : ExecutionState X := ltac:(setter s (@retry_backoff X) (f (retry_backoff s))).
Definition set_channel_call_failure {X} (f : option ChannelCallFailure → option ChannelCallFailure) (s : ExecutionState X)
    : ExecutionState X := ltac:(setter s (@channel_call_failure X) (f (channel_call_failure s))).
Definition set_ghost {X} (f : bool → bool) (s : ExecutionState X)
    : ExecutionState X := ltac:(setter s (@ghost X) (f (ghost s))).
Definition set_resume_entry {X} (f : option string → option string) (s : ExecutionState X)
    : ExecutionState X := ltac:(setter s (@resume_entry X) (f (resume_entry s))).
Definition set_ghost_flows {X} (f : gset string → gset string) (s : ExecutionState X)
    : ExecutionState X := ltac:(setter s (@ghost_flows X) (f (ghost_flows s))).
Definition set_fresh_waits {X} (f : list string → list string) (s : ExecutionState X)
    : ExecutionState X := ltac:(setter s (@fresh_waits X) (f (fresh_waits s))).
Definition set_correlation {X} (f : CoverageCorrelation → CoverageCorrelation) (s : ExecutionState X)
    : ExecutionState X := ltac:(setter s (@correlation X) (f (correlation s))).

(** [ExecutionState::new]. *)
Definition new_state {X} (process : ProcessDefinition) (deployment : DeploymentId) (labels : Labels)
    (instance_id : string) : ExecutionState X :=
  mk_state process deployment labels instance_id [] [] ∅ ∅ ∅ ∅ ∅ ∅ ∅ [] [] false
    (negb (is_nil (coverage_paths process))) None ∅ ∅ [] [] ∅ [] None false ∅ true ∅ None false None ∅ []
    no_correlation.

(** [take_fired_timer_for], [take_channel_call_failure_for]: the marker, if it names
    the node. *)
Definition fired_timer_for {X} (id : string) (s : ExecutionState X) : option FiredTimer :=
  f ← fired_timer s; if String.eqb (host_id f) id then Some f else None.
Definition take_fired_timer_for {X} (id : string) (s : ExecutionState X) : option FiredTimer * ExecutionState X :=
  match fired_timer_for id s with
  | Some f => (Some f, set_fired_timer (λ _, None) s)
  | None => (None, s)
  end.

Definition call_failure_for {X} (id : string) (s : ExecutionState X) : option ChannelCallFailure :=
  f ← channel_call_failure s; if String.eqb (cf_node_id f) id then Some f else None.
Definition take_channel_call_failure_for {X} (id : string) (s : ExecutionState X)
    : option ChannelCallFailure * ExecutionState X :=
  match call_failure_for id s with
  | Some f => (Some f, set_channel_call_failure (λ _, None) s)
  | None => (None, s)
  end.

Definition push_new (id : string) (l : list string) : list string :=
  if contains l id then l else l ++ [id].

Definition park_fresh {X} (id : string) (s : ExecutionState X) : ExecutionState X :=
  set_fresh_waits (push_new id) (set_waiting (push_new id) s).

Definition park_again {X} (id : string) (s : ExecutionState X) : ExecutionState X :=
  set_waiting (push_new id) s.

Definition push_prior_completed {X} (id : string) (s : ExecutionState X) : ExecutionState X :=
  if decide (id ∈ prior_completed s) then s
  else set_prior_completed_ordered (λ l, l ++ [id]) (set_prior_completed (λ c, {[id]} ∪ c) s).

(** One path's cursor when [flow_id] fires. *)
Definition advance_path (flow_id : string) (m : gmap string nat) (path : CoveragePath) : gmap string nat :=
  let cursor := default 0%nat (m !! cp_id path) in
  <[cp_id path := if bool_decide (cp_flows path !! cursor = Some flow_id) then S cursor else cursor]> m.

Definition fire {X} (flow : SequenceFlow) (s : ExecutionState X) : ExecutionState X :=
  if ghost s && bool_decide (flow_id flow ∈ ghost_flows s) then s
  else
    let s := if ghost s then set_ghost_flows (λ g, {[flow_id flow]} ∪ g) s else s in
    let s := set_work (λ w, w ++ [target_ref flow]) s in
    if trace_coverage s then
      set_path_progress (λ m, fold_left (advance_path (flow_id flow)) (coverage_paths (s_process s)) m)
        (set_flow_trace (λ t, t ++ [flow_id flow]) s)
    else s.

Definition fire_all {X} (flows : list SequenceFlow) (s : ExecutionState X) : ExecutionState X :=
  fold_left (λ s f, fire f s) flows s.

Definition enqueue_outgoing {X} (id : string) (s : ExecutionState X) : ExecutionState X :=
  fire_all (outgoing (s_process s) id) s.

Definition coverage_progress {X} (s : ExecutionState X) : gmap string Z := Z.of_nat <$> path_progress s.

Definition seed_coverage_progress {X} (prior : gmap string Z) (s : ExecutionState X) : ExecutionState X :=
  set_path_progress (λ m, (Z.to_nat <$> prior) ∪ m) s.

Definition mark_visited {X} (id : string) : ExecutionState X → ExecutionState X :=
  set_visited (λ v, {[id]} ∪ v).

Definition complete_activity {X} (id : string) : ExecutionState X → ExecutionState X :=
  set_completed_activities (λ l, l ++ [id]).

(** ** Signals *)

Inductive Signal : Type :=
| BpmnError (source code : string)
| TxCancel
| Fatal (e : ExecError).

Inductive TaskFailure : Type := FailBpmn (code : string) | FailUncaught (message : string) | FailDiag (d : SutraError).

Inductive RetryDisposition : Type :=
| RetryPark (due_at : string) (attempt : Z)
| RetryFail (e : ExecError)
| NoPolicy.

Definition failure_classification_code (message : string) : string :=
  match split_once ":" (trim_start message) with
  | None => RUNTIME_TASK_UNCAUGHT
  | Some (candidate, _) =>
      if negb (str_is_empty candidate)
         && string_all (λ c, is_ascii_uppercase c || is_ascii_digit c || Ascii.eqb c "_" || Ascii.eqb c ".") candidate
      then candidate else RUNTIME_TASK_UNCAUGHT
  end.

Definition fatal (e : SutraError) : Signal := Fatal (Diagnostic e).
Definition fatal_diag (code message : string) : Signal := Fatal (diag code message).

Definition uncaught_message (source code : string) : string :=
  "Activity " +:+ source +:+ " threw BPMN error " +:+ code
  +:+ " but no boundary event or event sub-process in scope caught it".

Definition signal_to_error {X} (signal : Signal) (s : ExecutionState X) : ExecError :=
  match signal with
  | Fatal e => e
  | BpmnError source code => diag RUNTIME_ERROR_UNCAUGHT (uncaught_message source code)
  | TxCancel =>
      diag RUNTIME_UNEXPECTED ("Process " +:+ process_id (s_process s)
        +:+ " reached a cancel end event outside a <bpmn:transaction> scope")
  end.

(** ** The shared world *)

Record InnerCtx : Type := mk_ctx {
  cx_deployment : DeploymentId; cx_labels : Labels; cx_instance_id : string; cx_module_id : string;
  cx_module_version : string; cx_simulation : bool; cx_variables : Variables }.

Definition with_variables (vars : Variables) (c : InnerCtx) : InnerCtx :=
  mk_ctx (cx_deployment c) (cx_labels c) (cx_instance_id c) (cx_module_id c) (cx_module_version c)
    (cx_simulation c) vars.

Record World (X : Type) : Type := mk_world {
  w_ctx : InnerCtx; w_events : list Event; w_emissions : list Emission; w_ext : X }.
Arguments mk_world {X}. Arguments w_ctx {X} _. Arguments w_events {X} _. Arguments w_emissions {X} _.
Arguments w_ext {X} _.

(** ** The executor's wiring *)

Record MessageDecodeOutcome : Type := mk_decode_outcome { do_value : FeelValue; do_masked : option FeelValue }.
Inductive MessageDecodeFailureKind : Type := DecodeNotFound | DecodeTooLarge | DecodeFatal.
Record MessageDecodeFailure : Type := mk_decode_failure { mf_kind : MessageDecodeFailureKind; mf_detail : string }.

(** [emission_sink] says whether a sink is wired; [wall_clock] is the process clock a
    malformed [now] falls back to and [elapsed_nanos] the stopwatch around a task. *)
Record TokenExecutor (X : Type) : Type := mk_executor {
  tasks : TaskRegistry X;
  condition_evaluator : string → Variables → result ExecError bool;
  value_evaluator : string → Variables → result ExecError FeelValue;
  data_stores : option (DeploymentId → string → option (DataStore X));
  coverage_metric_store : option (CoverageMetricStore X);
  process_resolver : option (string → result ExecError (option ProcessDefinition));
  module_resolver : option (DeploymentId → string → option ProcessDefinition);
  deployment_config : option (DeploymentId → option (list (string * string)));
  message_decode_seam : option (DeploymentId → MessageDecodeBinding → string → option string → Variables
                                → result MessageDecodeFailure MessageDecodeOutcome);
  emission_sink : bool;
  auth_resolvers : option (AuthRef → bool);
  template_engines : list TemplateEngine;
  templates : BytesRegistry;
  scripts : BytesRegistry;
  decision_engines : list DecisionEngine;
  decisions : BytesRegistry;
  outbound_channels : OutboundChannelRegistry;
  uuid_supplier : X → string * X;
  now_supplier : X → string * X;
  wall_clock : X → OffsetDateTime * X;
  elapsed_nanos : X → Z * X;
  default_audit_sink : option string }.
Arguments mk_executor {X}. Arguments tasks {X} _. Arguments condition_evaluator {X} _.
Arguments value_evaluator {X} _. Arguments data_stores {X} _. Arguments coverage_metric_store {X} _.
Arguments process_resolver {X} _. Arguments module_resolver {X} _. Arguments deployment_config {X} _.
Arguments message_decode_seam {X} _. Arguments emission_sink {X} _. Arguments auth_resolvers {X} _.
Arguments template_engines {X} _. Arguments templates {X} _. Arguments scripts {X} _.
Arguments decision_engines {X} _. Arguments decisions {X} _. Arguments outbound_channels {X} _.
Arguments uuid_supplier {X} _. Arguments now_supplier {X} _. Arguments wall_clock {X} _.
Arguments elapsed_nanos {X} _. Arguments default_audit_sink {X} _.

(** [BigDecimal::to_i64]. *)
Class BigDecimalInt : Type := { bd_to_i64 : BigDecimal → option Z }.

(** The third-party crates the executor calls. *)
Class Crates : Type := {
  #[global] crates_decimal :: BigDecimalText;
  #[global] crates_time :: TimeCrate;
  #[global] crates_time_text :: TimeText;
  #[global] crates_json :: JsonText;
  #[global] crates_int :: BigDecimalInt
}.

(** ** Effects *)

Definition M (X A : Type) : Type :=
  World X → ExecutionState X → result (fault Signal) A * World X * ExecutionState X.

#[export] Instance M_ret {X} : MRet (M X) := λ A a w s, (Ok a, w, s).
#[export] Instance M_bind {X} : MBind (M X) := λ A B k m w s,
  match m w s with
  | (Ok a, w', s') => k a w' s'
  | (Err e, w', s') => (Err e, w', s')
  end.

Section Effects.
Context {X : Type}.

Definition raise {A} (sig : Signal) : M X A := λ w s, (Err (Rejected sig), w, s).
Definition panic {A} : M X A := λ w s, (Err Panicked, w, s).
Definition no_fuel {A} : M X A := λ w s, (Err OutOfFuel, w, s).

Definition read {A} (f : ExecutionState X → A) : M X A := λ w s, (Ok (f s), w, s).
Definition update (f : ExecutionState X → ExecutionState X) : M X unit := λ w s, (Ok tt, w, f s).

Definition lift {A} (r : result Signal A) : M X A :=
  match r with Ok a => mret a | Err e => raise e end.
(** [.map_err(Signal::Fatal)?]. *)
Definition lift_fatal {A} (r : result ExecError A) : M X A := lift (map_err Fatal r).
Definition lift_fault {A} (r : result (fault Signal) A) : M X A :=
  match r with
  | Ok a => mret a
  | Err e => λ w s, (Err e, w, s)
  end.

(** The handler sees a raised signal; a panic or missing fuel is not a value. *)
Definition catch {A} (m : M X A) (h : Signal → M X A) : M X A := λ w s,
  match m w s with
  | (Err (Rejected sig), w', s') => h sig w' s'
  | r => r
  end.

(** The raised signal as a value. *)
Definition attempt {A} (m : M X A) : M X (result Signal A) := λ w s,
  match m w s with
  | (Ok a, w', s') => (Ok (Ok a), w', s')
  | (Err (Rejected sig), w', s') => (Ok (Err sig), w', s')
  | (Err e, w', s') => (Err e, w', s')
  end.

Definition get_ctx : M X InnerCtx := λ w s, (Ok (w_ctx w), w, s).
Definition get_vars : M X Variables := λ w s, (Ok (cx_variables (w_ctx w)), w, s).
Definition update_vars (f : Variables → Variables) : M X unit := λ w s,
  (Ok tt, mk_world (with_variables (f (cx_variables (w_ctx w))) (w_ctx w)) (w_events w) (w_emissions w) (w_ext w), s).

(** A broadcast to the listeners. *)
Definition notify (e : Event) : M X unit := λ w s,
  (Ok tt, mk_world (w_ctx w) (w_events w ++ [e]) (w_emissions w) (w_ext w), s).

(** [if let Some(sink) = self.emissions { sink.emit(e) }]. *)
Definition emit (self : TokenExecutor X) (e : Emission) : M X unit := λ w s,
  if emission_sink self then (Ok tt, mk_world (w_ctx w) (w_events w) (w_emissions w ++ [e]) (w_ext w), s)
  else (Ok tt, w, s).

Definition external {A} (f : X → A * X) : M X A := λ w s,
  let '(a, x) := f (w_ext w) in (Ok a, mk_world (w_ctx w) (w_events w) (w_emissions w) x, s).

(** A store call, its failure mapped to a signal. *)
Definition io {A} (f : Io X A) (on_err : StoreError → Signal) : M X A :=
  r ← external f; lift (map_err on_err r).

(** Run [m] in a scope of its own; [leave] writes what flows back to the parent,
    whatever [m] ended in. *)
Definition in_scope {A} (enter : ExecutionState X → ExecutionState X) (m : M X A)
    (leave : ExecutionState X → ExecutionState X → ExecutionState X) : M X A := λ w s,
  let '(r, w', sub) := m w (enter s) in (r, w', leave sub s).

(** [while let Some(id) = state.work.pop_front() { step(id)? }]. *)
Fixpoint drain (fuel : nat) (step : string → M X unit) : M X unit :=
  match fuel with
  | O => no_fuel
  | S fuel =>
      q ← read work;
      match q with
      | [] => mret tt
      | id :: rest => update (set_work (λ _, rest)) ;; step id ;; drain fuel step
      end
  end.

(** [for a in l { f(a)? }]. *)
Fixpoint each {A} (l : list A) (f : A → M X unit) : M X unit :=
  match l with [] => mret tt | a :: l => f a ;; each l f end.
End Effects.
