(* ===== verification/Gateways.v ===== *)
(** * Gateways ([sutra-executor/src/executor.rs]: [handle_exclusive],
    [handle_inclusive], [handle_parallel], [handle_complex],
    [reachable_inclusive_joins])

    The theorems: a parallel join fires once per full set of arrivals and starts
    over, and the breadth-first walk for inclusive joins finds exactly the joins
    reachable without crossing another one. *)
From Stdlib Require Import ZArith Lia Bool Ascii String.
From stdpp Require Import base list option gmap strings.
From S2P Require Import Prelude Decimal FeelValue Temporal FeelText Timer ProcessModel Correlation Runtime ExecState AuditSnapshot.

Open Scope string_scope.
Open Scope list_scope.
Open Scope Z_scope.

(** ** Inclusive joins downstream of a flow *)

Definition is_inclusive_join (p : ProcessDefinition) (id : string) : bool :=
  match process_node p id with
  | Ok (InclusiveGateway _ _ _) => (1 <? length (incoming p id))%nat
  | _ => false
  end.

(** The queue, the nodes seen and the joins found. *)
Fixpoint joins_loop (p : ProcessDefinition) (fuel : nat) (queue : list string) (seen : gset string)
    (hits : list string) : list string :=
  match fuel with
  | O => hits
  | S fuel =>
      match queue with
      | [] => hits
      | cur :: queue =>
          if decide (cur ∈ seen) then joins_loop p fuel queue seen hits
          else
            let seen := {[cur]} ∪ seen in
            match process_node p cur with
            | Err _ => joins_loop p fuel queue seen hits
            | Ok _ =>
                if is_inclusive_join p cur then joins_loop p fuel queue seen (hits ++ [cur])
                else joins_loop p fuel (queue ++ map target_ref (outgoing p cur)) seen hits
            end
      end
  end.

(** Every pop takes the start or the target of a flow of a node seen once. *)
Definition joins_fuel (p : ProcessDefinition) : nat := S (S (length (process_flows p))).

Definition reachable_inclusive_joins (p : ProcessDefinition) (start_id : string) : list string :=
  joins_loop p (joins_fuel p) [start_id] ∅ [].

(** ** Arrival counters *)

Definition arrivals (m : gmap string nat) (id : string) : nat := default 0%nat (m !! id).
Definition bump (id : string) (m : gmap string nat) : gmap string nat := <[id := S (arrivals m id)]> m.

Section Gateways.
Context {X : Type} (self : TokenExecutor X).

Definition flow_satisfied (vars : Variables) (flow : SequenceFlow) : result Signal bool :=
  match condition flow with
  | None => Ok true
  | Some cond => map_err Fatal (condition_evaluator self cond vars)
  end.

Definition is_default (default_flow_id : option string) (flow : SequenceFlow) : bool :=
  match default_flow_id with Some d => String.eqb d (flow_id flow) | None => false end.

(** The first flow, the default aside, whose condition holds. *)
Fixpoint first_satisfied (default_flow_id : option string) (vars : Variables) (flows : list SequenceFlow)
    : result Signal (option SequenceFlow) :=
  match flows with
  | [] => Ok None
  | flow :: flows =>
      if is_default default_flow_id flow then first_satisfied default_flow_id vars flows
      else
        satisfied ← flow_satisfied vars flow;
        if (satisfied : bool) then Ok (Some flow) else first_satisfied default_flow_id vars flows
  end.

Definition default_flow (default_flow_id : option string) (flows : list SequenceFlow) : option SequenceFlow :=
  d ← default_flow_id; List.find (λ f, String.eqb (flow_id f) d) flows.

Definition no_flow_message (kind : string) : string :=
  kind +:+ " has no satisfied condition and no default flow".

Definition handle_exclusive (id : string) (default_flow_id : option string) : M X unit :=
  out ← read (λ s, outgoing (s_process s) id);
  vars ← get_vars;
  chosen ← lift (first_satisfied default_flow_id vars out);
  match (match chosen with Some f => Some f | None => default_flow default_flow_id out end) with
  | Some flow => update (fire flow)
  | None => raise (fatal_diag RUNTIME_UNEXPECTED (no_flow_message ("ExclusiveGateway " +:+ id)))
  end.

Definition route_inclusive_fork (flow : SequenceFlow) (s : ExecutionState X) : ExecutionState X :=
  fold_left (λ s join_id, set_inclusive_expected (bump join_id) s)
    (reachable_inclusive_joins (s_process s) (target_ref flow)) (fire flow s).

(** Take every flow whose condition holds; the count taken. *)
Fixpoint fork_loop (default_flow_id : option string) (vars : Variables) (flows : list SequenceFlow) (taken : nat)
    : M X nat :=
  match flows with
  | [] => mret taken
  | flow :: flows =>
      if is_default default_flow_id flow then fork_loop default_flow_id vars flows taken
      else
        satisfied ← lift (flow_satisfied vars flow);
        if (satisfied : bool) then
          update (route_inclusive_fork flow) ;; fork_loop default_flow_id vars flows (S taken)
        else fork_loop default_flow_id vars flows taken
  end.

(** The diverging side of an inclusive or complex gateway. *)
Definition inclusive_fork (kind id : string) (default_flow_id : option string) : M X bool :=
  out ← read (λ s, outgoing (s_process s) id);
  vars ← get_vars;
  taken ← fork_loop default_flow_id vars out 0;
  match taken with
  | O =>
      match default_flow default_flow_id out with
      | Some flow => update (route_inclusive_fork flow) ;; mret false
      | None => raise (fatal_diag RUNTIME_UNEXPECTED (no_flow_message kind))
      end
  | S _ => mret false
  end.

(** A token that waits at a join: [on_token_left] unless it is a ghost. *)
Definition defer_token (token : TokenEvent) : M X bool :=
  g ← read ghost;
  (if (g : bool) then mret tt else notify (OnTokenLeft token)) ;; mret true.

Definition handle_inclusive (id : string) (default_flow_id : option string) (token : TokenEvent) : M X bool :=
  inc ← read (λ s, incoming (s_process s) id);
  if (1 <? length inc)%nat then
    update (set_inclusive_arrivals (bump id)) ;;
    arrived ← read (λ s, arrivals (inclusive_arrivals s) id);
    expected ← read (λ s, arrivals (inclusive_expected s) id);
    if ((0 <? expected) && (arrived <? expected))%nat then defer_token token
    else
      update (λ s, enqueue_outgoing id
        (set_inclusive_expected (delete id) (set_inclusive_arrivals (delete id) s))) ;;
      mret false
  else inclusive_fork ("InclusiveGateway " +:+ id) id default_flow_id.

Definition handle_parallel (id : string) (token : TokenEvent) : M X bool :=
  inc ← read (λ s, incoming (s_process s) id);
  if (1 <? length inc)%nat then
    update (set_parallel_arrivals (bump id)) ;;
    arrived ← read (λ s, arrivals (parallel_arrivals s) id);
    if (arrived <? length inc)%nat then defer_token token
    else update (λ s, enqueue_outgoing id (set_parallel_arrivals (delete id) s)) ;; mret false
  else update (enqueue_outgoing id) ;; mret false.

(** [FeelValue::from(i64)]. *)
Definition feel_int (n : Z) : FeelValue := Number (mk_decimal n 0).

Definition complex_activates (activation_condition : option string) (arrived expected : nat) (vars : Variables)
    : result Signal bool :=
  match activation_condition with
  | None => Ok (expected <=? arrived)%nat
  | Some cond =>
      map_err Fatal (condition_evaluator self cond
        (var_insert "expectedCount" (feel_int (Z.of_nat expected))
           (var_insert "arrivedCount" (feel_int (Z.of_nat arrived)) vars)))
  end.

Definition handle_complex (id : string) (default_flow_id activation_condition : option string)
    (token : TokenEvent) : M X bool :=
  inc ← read (λ s, incoming (s_process s) id);
  if (1 <? length inc)%nat then
    fired ← read (λ s, bool_decide (id ∈ complex_fired s));
    if (fired : bool) then defer_token token
    else
      update (set_complex_arrivals (bump id)) ;;
      arrived ← read (λ s, arrivals (complex_arrivals s) id);
      vars ← get_vars;
      activates ← lift (complex_activates activation_condition arrived (length inc) vars);
      if (activates : bool) then
        update (λ s, enqueue_outgoing id
          (set_complex_arrivals (delete id) (set_complex_fired (λ c, {[id]} ∪ c) s))) ;;
        mret false
      else defer_token token
  else inclusive_fork ("ComplexGateway " +:+ id +:+ " (diverging)") id default_flow_id.
End Gateways.

(** ** The breadth-first walk *)

Section Joins.
Context (p : ProcessDefinition) (Hindexed : well_indexed p).

(** [id] is on a path from [start] that crosses no inclusive join before it. *)
Inductive reaches (start : string) : string → Prop :=
| reaches_start : reaches start start
| reaches_flow cur flow :
    reaches start cur → is_ok (process_node p cur) = true → is_inclusive_join p cur = false →
    flow ∈ outgoing p cur → reaches start (target_ref flow).

Definition pending (seen : gset string) : list SequenceFlow :=
  List.filter (λ f, negb (bool_decide (source_ref f ∈ seen))) (process_flows p).

(** Seeing a node spends the flows that leave it. *)
Lemma pending_insert seen cur :
  cur ∉ seen → (length (pending ({[cur]} ∪ seen)) + length (outgoing p cur) = length (pending seen))%nat.
Proof.
  intros Hc. rewrite (proj1 Hindexed). unfold pending. induction (process_flows p) as [|f fs IH]; [done|]. simpl.
  destruct (String.eqb_spec (source_ref f) cur) as [E|E].
  - rewrite bool_decide_eq_true_2 by (rewrite E; set_solver). rewrite bool_decide_eq_false_2 by (by rewrite E). simpl. lia.
  - rewrite (bool_decide_ext (source_ref f ∈ {[cur]} ∪ seen) (source_ref f ∈ seen)) by set_solver.
    destruct (bool_decide _); simpl; lia.
Qed.

(** What the nodes seen so far account for. *)
Record walked (queue : list string) (seen : gset string) (hits : list string) : Prop := {
  wk_hits : ∀ id, id ∈ hits ↔ id ∈ seen ∧ is_inclusive_join p id = true;
  wk_once : NoDup hits;
  wk_closed : ∀ cur flow, cur ∈ seen → is_ok (process_node p cur) = true → is_inclusive_join p cur = false →
    flow ∈ outgoing p cur → target_ref flow ∈ seen ∨ target_ref flow ∈ queue;
}.

Lemma join_is_node id : is_inclusive_join p id = true → is_ok (process_node p id) = true.
Proof. unfold is_inclusive_join. by destruct (process_node p id). Qed.

(** A node is seen: it is a hit when it is a join, its targets are queued when it is not. *)
Lemma walked_insert cur queue queue' seen hits hits' :
  walked (cur :: queue) seen hits → (∀ id, id ∈ queue → id ∈ queue') →
  (∀ id, id ∈ hits' ↔ id ∈ hits ∨ (id = cur ∧ is_inclusive_join p cur = true)) → NoDup hits' →
  (∀ flow, is_ok (process_node p cur) = true → is_inclusive_join p cur = false → flow ∈ outgoing p cur →
     target_ref flow ∈ queue') →
  walked queue' ({[cur]} ∪ seen) hits'.
Proof.
  intros [Hh Hn Hc] Hq Hh' Hn' Ht. split; [|done|].
  - intros id. rewrite Hh', Hh, elem_of_union, elem_of_singleton. split; [intros [[]|[-> ]]; auto|].
    intros [[->|] ?]; auto.
  - intros c f [->%elem_of_singleton|H1]%elem_of_union H2 H3 H4; [right; by apply Ht|].
    destruct (Hc c f H1 H2 H3 H4) as [|[->|]%elem_of_cons]; set_solver.
Qed.

Lemma NoDup_hit cur queue seen hits : cur ∉ seen → walked (cur :: queue) seen hits → NoDup (hits ++ [cur]).
Proof.
  intros Hs [Hh Hn _]. apply NoDup_app. split; [done|]. split; [|apply NoDup_singleton].
  intros x Hx Hxc. apply list_elem_of_singleton in Hxc. subst x. by apply Hh in Hx as [? _].
Qed.

Lemma walked_skip cur queue seen hits : cur ∈ seen → walked (cur :: queue) seen hits → walked queue seen hits.
Proof.
  intros Hs [Hh Hn Hc]. split; [done|done|]. intros c f H1 H2 H3 H4.
  destruct (Hc c f H1 H2 H3 H4) as [|[->|]%elem_of_cons]; auto.
Qed.

(** With enough fuel the walk ends with an empty queue; what it saw is reached from
    wherever the nodes seen and queued at its start are. *)
Lemma joins_loop_walked fuel queue seen hits :
  (length queue + length (pending seen) < fuel)%nat → walked queue seen hits →
  ∃ seen', walked [] seen' (joins_loop p fuel queue seen hits) ∧ (∀ id, id ∈ seen ∨ id ∈ queue → id ∈ seen')
    ∧ ∀ start, (∀ id, id ∈ seen ∨ id ∈ queue → reaches start id) → ∀ id, id ∈ seen' → reaches start id.
Proof.
  revert queue seen hits. induction fuel as [|fuel IH]; intros queue seen hits Hf Hw; [lia|].
  destruct queue as [|cur queue]; [exists seen; split; [done|]; split; [set_solver|auto]|]. simpl in Hf |- *.
  case_decide as Hs.
  { destruct (IH queue seen hits) as (seen' & W & Q & R); [lia|by apply (walked_skip cur)|].
    exists seen'. split; [done|]. split; [set_solver|]. intros start R1. apply R. set_solver. }
  pose proof (pending_insert seen cur Hs) as Hp.
  assert (Hgo : ∀ queue' hits', (length queue' + length (pending ({[cur]} ∪ seen)) < fuel)%nat →
            (∀ id, id ∈ queue → id ∈ queue') →
            (∀ start, reaches start cur → ∀ id, id ∈ queue' → id ∈ queue ∨ reaches start id) →
            walked queue' ({[cur]} ∪ seen) hits' →
            ∃ seen', walked [] seen' (joins_loop p fuel queue' ({[cur]} ∪ seen) hits')
              ∧ (∀ id, id ∈ seen ∨ id ∈ cur :: queue → id ∈ seen')
              ∧ ∀ start, (∀ id, id ∈ seen ∨ id ∈ cur :: queue → reaches start id) → ∀ id, id ∈ seen' → reaches start id).
  { intros queue' hits' Hl Hq Hr W. destruct (IH queue' ({[cur]} ∪ seen) hits' Hl W) as (seen' & W' & Q & R).
    exists seen'. split; [done|]. split; [set_solver|]. intros start R1. apply R.
    assert (Rc : reaches start cur) by (apply R1; set_solver). intros id Hid.
    destruct Hid as [|Hid]; [set_solver|]. destruct (Hr start Rc id Hid); [apply R1; set_solver|done]. }
  destruct (process_node p cur) as [n|e] eqn:En; [destruct (is_inclusive_join p cur) eqn:Ej|]; apply Hgo.
  all: try solve [lia|done|by left|set_solver|rewrite length_app, length_map; lia].
  - apply (walked_insert cur queue _ _ hits); [done|done| |by apply (NoDup_hit cur queue seen)|congruence].
    intros id. rewrite elem_of_app, list_elem_of_singleton. tauto.
  - intros start Rc id [|Hid]%elem_of_app; [by left|right]. apply list_elem_of_In, in_map_iff in Hid as (f & <- & Hf').
    apply (reaches_flow _ cur); [done|by rewrite En|done|by apply list_elem_of_In].
  - apply (walked_insert cur queue _ _ hits); [done|set_solver|naive_solver congruence|apply Hw|].
    intros f _ _ Hf'. apply elem_of_app. right. by apply list_elem_of_In, in_map, list_elem_of_In.
  - apply (walked_insert cur queue _ _ hits); [done|done| |apply Hw|by rewrite En].
    intros id. split; [auto|]. intros [|[_ Hj%join_is_node]]; [done|]. by rewrite En in Hj.
Qed.
End Joins.

(** C30: [reachable_inclusive_joins] finds exactly the inclusive joins on a path from
    [start] that crosses no other one, each once; the fuel of the walk is enough. *)
Theorem reachable_inclusive_joins_exact (p : ProcessDefinition) (start : string) :
  well_indexed p →
  NoDup (reachable_inclusive_joins p start)
  ∧ ∀ id, id ∈ reachable_inclusive_joins p start ↔ reaches p start id ∧ is_inclusive_join p id = true.
Proof.
  intros Hi. unfold reachable_inclusive_joins.
  destruct (joins_loop_walked p Hi (joins_fuel p) [start] ∅ []) as (seen & [Hh Hn Hc] & Hs & Hr).
  - unfold joins_fuel, pending. simpl.
    match goal with |- context [List.filter ?f ?l] => pose proof (List.filter_length_le f l) end. lia.
  - split; [set_solver|constructor|set_solver].
  - split; [done|]. intros id. rewrite Hh. split.
    + intros [Hid Hj]. split; [|done]. apply Hr; [|done]. intros x [| ->%list_elem_of_singleton]; [set_solver|constructor].
    + intros [Hid Hj]. split; [|done]. clear Hj.
      induction Hid as [|cur flow _ IH Hok Hjn Hf]; [apply Hs; right; by left|].
      destruct (Hc cur flow IH Hok Hjn Hf) as [|Hx]; [done|by apply not_elem_of_nil in Hx].
Qed.

Definition forked_process : result SutraError ProcessDefinition :=
  process_of "forked" None true "1.0"
    [ManualTask "a" None false; ManualTask "b" None false; InclusiveGateway "join" None None; EndEvent "end" None]
    [mk_flow "f1" "a" "join" None; mk_flow "f2" "b" "join" None; mk_flow "f3" "join" "end" None] ∅ [].

Lemma reachable_inclusive_joins_exact_witness :
  ∃ p, forked_process = Ok p ∧ reachable_inclusive_joins p "a" = ["join"] ∧ reaches p "a" "join".
Proof.
  assert (Hp : ∃ p, forked_process = Ok p ∧ reachable_inclusive_joins p "a" = ["join"])
    by (eexists; split; [reflexivity|vm_compute; reflexivity]).
  destruct Hp as (p & E & Hr). exists p. split; [done|]. split; [done|].
  apply (proj2 (reachable_inclusive_joins_exact p "a" (process_of_well_indexed _ _ _ _ _ _ _ _ p E)) "join").
  rewrite Hr. by left.
Defined.

(** ** Converging parallel gateways *)

Section ParallelJoin.
Context {X : Type}.

(** [k] tokens arrive at the gateway, one after the other; how many times it fired. *)
Fixpoint arrive (k : nat) (id : string) (token : TokenEvent) : M X nat :=
  match k with
  | O => mret 0%nat
  | S k =>
      deferred ← handle_parallel id token;
      fired ← arrive k id token;
      mret (if (deferred : bool) then fired else S fired)
  end.

Definition targets (s : ExecutionState X) (id : string) : list string := map target_ref (outgoing (s_process s) id).

Lemma fire_all_live flows (s : ExecutionState X) :
  ghost s = false →
  work (fire_all flows s) = work s ++ map target_ref flows ∧ ghost (fire_all flows s) = false
  ∧ s_process (fire_all flows s) = s_process s ∧ parallel_arrivals (fire_all flows s) = parallel_arrivals s.
Proof.
  revert s. induction flows as [|f flows IH]; intros s Hg; [by rewrite app_nil_r|]. simpl.
  assert (Hf : work (fire f s) = work s ++ [target_ref f] ∧ ghost (fire f s) = false
               ∧ s_process (fire f s) = s_process s ∧ parallel_arrivals (fire f s) = parallel_arrivals s).
  { unfold fire. rewrite Hg. simpl. case_match; done. }
  destruct Hf as (Hw & Hg' & Hp & Ha). destruct (IH (fire f s) Hg') as (IHw & IHg & IHp & IHa).
  rewrite IHw, IHp, IHa, Hw, Hp, Ha, <- app_assoc. done.
Qed.

Lemma arrivals_bump m id : arrivals (bump id m) id = S (arrivals m id).
Proof. unfold arrivals at 1, bump. by rewrite lookup_insert_eq. Qed.

Lemma arrivals_bump_ne m id x : x ≠ id → arrivals (bump id m) x = arrivals m x.
Proof. intros Hx. unfold arrivals at 1, bump. by rewrite lookup_insert_ne. Qed.

Lemma arrivals_delete m id x : arrivals (delete id m) x = if decide (x = id) then 0%nat else arrivals m x.
Proof. unfold arrivals. case_decide as E; [subst; by rewrite lookup_delete_eq|by rewrite lookup_delete_ne]. Qed.

Lemma defer_live token w (s : ExecutionState X) : ghost s = false → ∃ w', defer_token token w s = (Ok true, w', s).
Proof. destruct s. simpl. intros ->. by eexists. Qed.

(** One arrival at a converging gateway that has [a] of its [n] arrivals. *)
Lemma handle_parallel_arrival id token w (s : ExecutionState X) n :
  length (incoming (s_process s) id) = n → (1 < n)%nat → ghost s = false →
  let a := arrivals (parallel_arrivals s) id in
  ∃ w' s', handle_parallel id token w s = (Ok (S a <? n)%nat, w', s') ∧ ghost s' = false ∧ s_process s' = s_process s
    ∧ arrivals (parallel_arrivals s') id = (if (S a <? n)%nat then S a else 0%nat)
    ∧ work s' = work s ++ (if (S a <? n)%nat then [] else targets s id)
    ∧ ∀ x, x ≠ id → arrivals (parallel_arrivals s') x = arrivals (parallel_arrivals s) x.
Proof.
  intros Hn H1 Hg a. unfold handle_parallel, mbind, M_bind, read, update. rewrite Hn. destruct (Nat.ltb_spec 1 n); [|lia].
  set (s1 := set_parallel_arrivals (bump id) s).
  assert (Ha : arrivals (parallel_arrivals s1) id = S a) by apply arrivals_bump.
  rewrite Ha. destruct (S a <? n)%nat eqn:E.
  - destruct (defer_live token w s1 Hg) as [w' Ed]. rewrite Ed. exists w', s1. split; [reflexivity|].
    split; [done|]. split; [done|]. split; [done|]. split; [by rewrite app_nil_r|].
    intros x Hx. by apply arrivals_bump_ne.
  - set (s2 := set_parallel_arrivals (delete id) s1). destruct (fire_all_live (outgoing (s_process s) id) s2 Hg) as (Fw & Fg & Fp & Fa).
    eexists w, (enqueue_outgoing id s2). split; [reflexivity|]. split; [exact Fg|]. split; [exact Fp|].
    unfold enqueue_outgoing. change (s_process s2) with (s_process s). rewrite Fa, Fw.
    change (parallel_arrivals s2) with (delete id (bump id (parallel_arrivals s))).
    split; [rewrite arrivals_delete; by rewrite decide_True|]. split; [done|].
    intros x Hx. rewrite arrivals_delete, decide_False by done. by apply arrivals_bump_ne.
Qed.

Lemma arrive_count k id token w (s : ExecutionState X) n :
  length (incoming (s_process s) id) = n → (1 < n)%nat → ghost s = false → (arrivals (parallel_arrivals s) id < n)%nat →
  let t := (arrivals (parallel_arrivals s) id + k)%nat in
  ∃ w' s', arrive k id token w s = (Ok (t / n)%nat, w', s')
    ∧ arrivals (parallel_arrivals s') id = (t mod n)%nat
    ∧ work s' = work s ++ concat (replicate (t / n) (targets s id))
    ∧ ∀ x, x ≠ id → arrivals (parallel_arrivals s') x = arrivals (parallel_arrivals s) x.
Proof.
  intros Hn H1 Hg Ha. revert w s Hn Hg Ha. induction k as [|k IH]; intros w s Hn Hg Ha.
  { cbv zeta. rewrite Nat.add_0_r, Nat.div_small, Nat.mod_small by done. exists w, s. by rewrite app_nil_r. }
  cbv zeta. destruct (handle_parallel_arrival id token w s n Hn H1 Hg) as (w1 & s1 & E & Hg1 & Hp1 & Ha1 & Hw1 & Hx1).
  cbv zeta in *. rewrite <- Hp1 in Hn. assert (Ht : targets s1 id = targets s id) by (unfold targets; by rewrite Hp1).
  set (a := arrivals (parallel_arrivals s) id) in *.
  assert (Hlt : (arrivals (parallel_arrivals s1) id < n)%nat) by (rewrite Ha1; destruct (Nat.ltb_spec (S a) n); lia).
  destruct (IH w1 s1 Hn Hg1 Hlt) as (w2 & s2 & E2 & Ha2 & Hw2 & Hx2). cbv zeta in *. rewrite Ha1 in *.
  exists w2, s2. cbn [arrive]. unfold mbind, M_bind. rewrite E, E2.
  rewrite Hw2, Hw1, Ht, Ha2. destruct (Nat.ltb_spec (S a) n) as [Hd|Hd].
  - replace (a + S k)%nat with (S a + k)%nat by lia. rewrite app_nil_r. split; [done|]. split; [done|]. split; [done|].
    intros x Hx. by rewrite Hx2, Hx1.
  - replace (a + S k)%nat with (k + 1 * n)%nat by lia. rewrite Nat.div_add, Nat.Div0.mod_add by lia.
    rewrite Nat.add_1_r. simpl. rewrite app_assoc. split; [done|]. split; [done|]. split; [done|].
    intros x Hx. by rewrite Hx2, Hx1.
Qed.
End ParallelJoin.

(** C31: A converging parallel gateway with [n] incoming flows fires once per [n]
    arrivals, however many tokens come: after [k] arrivals from a fresh count it has
    fired [k / n] times, each time along every outgoing flow in order, [k mod n]
    arrivals are pending, and no other gateway's count has moved. *)
Theorem parallel_join_fires_once_per_set {X} (k : nat) (id : string) (token : TokenEvent) (w : World X)
    (s : ExecutionState X) :
  let n := length (incoming (s_process s) id) in
  (1 < n)%nat → ghost s = false → arrivals (parallel_arrivals s) id = 0%nat →
  ∃ w' s', arrive k id token w s = (Ok (k / n)%nat, w', s')
    ∧ arrivals (parallel_arrivals s') id = (k mod n)%nat
    ∧ work s' = work s ++ concat (replicate (k / n) (targets s id))
    ∧ ∀ x, x ≠ id → arrivals (parallel_arrivals s') x = arrivals (parallel_arrivals s) x.
Proof.
  intros n H1 Hg Ha. assert (Hlt : (arrivals (parallel_arrivals s) id < n)%nat) by (rewrite Ha; lia).
  pose proof (arrive_count k id token w s n eq_refl H1 Hg Hlt) as Hc. cbv zeta in Hc. by rewrite Ha in Hc.
Qed.

Definition joined_process : result SutraError ProcessDefinition :=
  process_of "joined" None true "1.0" [ParallelGateway "join" None; EndEvent "end" None]
    [mk_flow "f1" "a" "join" None; mk_flow "f2" "b" "join" None; mk_flow "f3" "join" "end" None] ∅ [].

Lemma parallel_join_fires_once_per_set_witness :
  ∃ p, joined_process = Ok p ∧ ∀ token (w : World unit),
    ∃ w' s', arrive 5 "join" token w (new_state p (mk_deployment "d") [] "i") = (Ok 2%nat, w', s')
      ∧ work s' = ["end"; "end"] ∧ arrivals (parallel_arrivals s') "join" = 1%nat.
Proof.
  eexists. split; [reflexivity|]. intros token w.
  match goal with |- context [new_state ?p ?d ?l ?i] => set (s := new_state (X := unit) p d l i) end.
  destruct (parallel_join_fires_once_per_set 5 "join" token w s) as (w' & s' & E & Ha & Hw & _);
    [vm_compute; lia|reflexivity|reflexivity|].
  exists w', s'. split; [exact E|]. split; [exact Hw|exact Ha].
Defined.
