(* ===== verification/Timers.v ===== *)
(** * Arming timers and planning retries ([sutra-executor/src/executor.rs]:
    [compute_due_at], [resolve_timer], [record_timer_wait],
    [schedule_timer_boundaries], [rearm_fired_boundary], [plan_retry],
    [compute_retry_due_at])

    Backoff arithmetic runs in binary64, as the source's does; [powi] is the
    square-and-multiply loop of the compiler runtime.  That a planned retry stays
    below its policy's maximum is part of [reachable_snapshot_sound]. *)
From Stdlib Require Import ZArith Lia Bool Ascii String SpecFloat.
From stdpp Require Import base list option gmap strings.
From S2P Require Import Prelude Texts Decimal FeelValue Temporal FeelText Timer ProcessModel Correlation Runtime ExecState AuditSnapshot.

Open Scope string_scope.
Open Scope list_scope.
Open Scope Z_scope.

(** ** Binary64 helpers *)

(** [x.powi(n)]. *)
Fixpoint powi_loop (fuel : nat) (r a : f64) (b : Z) : f64 :=
  let r := if Z.odd b then f64_mul r a else r in
  match fuel with
  | O => r
  | S fuel => if b / 2 =? 0 then r else powi_loop fuel r (f64_mul a a) (b / 2)
  end.
Definition powi (a : f64) (n : Z) : f64 := powi_loop 32 (f64_of_int 1) a n.

Definition f64_ltb (x y : f64) : bool := match SFcompare x y with Some Lt => true | _ => false end.

(** [x.min(y)] of numbers. *)
Definition f64_min (x y : f64) : f64 := if f64_ltb y x then y else x.

Definition f64_is_positive (x : f64) : bool := match x with S754_finite false _ _ => true | _ => false end.

(** [x as i64] of a non-negative number: truncated, saturating. *)
Definition f64_to_i64 (x : f64) : Z :=
  match x with
  | S754_finite false m e => Z.min i64_max (if 0 <=? e then Zpos m * 2 ^ e else Zpos m / 2 ^ (- e))
  | S754_infinity false => i64_max
  | _ => 0
  end.

(** [Display] of an integral number. *)
Definition f64_display (x : f64) : string :=
  match x with
  | S754_finite _ m e => dec_string (if 0 <=? e then Zpos m * 2 ^ e else Zpos m / 2 ^ (- e))
  | _ => "0"
  end.

(** [{:?}] of a duration in nanoseconds. *)
Definition debug_duration (d : Z) : string :=
  let part (unit width : Z) (suffix : string) :=
    let frac := trim_end_zeros (pad_left (Z.to_nat width) (d mod unit)) in
    dec_string (d / unit) +:+ (if str_is_empty frac then "" else "." +:+ frac) +:+ suffix in
  if NANOS <=? d then part NANOS 9 "s"
  else if 1000000 <=? d then part 1000000 6 "ms"
  else if 1000 <=? d then part 1000 3 "µs"
  else dec_string d +:+ "ns".

Section Timers.
Context `{Crates} {X : Type} (self : TokenExecutor X).

(** ** Due instants *)

(** The supplied [now], or the wall clock when it does not parse. *)
Definition current_instant : M X OffsetDateTime :=
  text ← external (now_supplier self);
  match rfc3339_parse text with
  | Ok t => mret t
  | Err _ => external (wall_clock self)
  end.

Definition deployment_config_value (deployment : DeploymentId) : FeelValue :=
  Map (default [] (resolver ← deployment_config self;
                   config ← resolver deployment;
                   Some (map (λ e, (e.1, Str e.2)) config))).

Definition timer_variables (deployment : DeploymentId) (vars : Variables) : Variables :=
  var_insert TIMER_CONFIG_ROOT (deployment_config_value deployment) vars.

Definition evaluate_timer_expression (form : TimerExpressionForm) (expression : string) (vars : Variables)
    : result (fault string) TimerDefinition :=
  match value_evaluator self expression vars with
  | Err e => Err (Rejected ("it did not evaluate: " +:+ exec_display e))
  | Ok v => resolve_timer_expression_value form v
  end.

Definition resolve_timer (timer : TimerDefinition) (node_id : string) : M X TimerDefinition :=
  match timer with
  | TimerExpression form expression =>
      vars ← get_vars;
      deployment ← read s_deployment;
      lift_fault (map_fault (λ reason, fatal_diag RUNTIME_TIMER_EXPRESSION_INVALID
          ("timer '" +:+ node_id +:+ "' <" +:+ element_name form +:+ "> expression '" +:+ expression
           +:+ "' could not be armed: " +:+ reason))
        (evaluate_timer_expression form expression (timer_variables deployment vars)))
  | _ => mret timer
  end.

Definition compute_due_at (timer : TimerDefinition) (node_id : string) : M X string :=
  timer ← (if is_expression timer then resolve_timer timer node_id else mret timer);
  now ← current_instant;
  due ← lift_fault (map_fault (λ rejection, fatal_diag RUNTIME_UNEXPECTED
          ("timer node '" +:+ node_id +:+ "' spec '" +:+ spec_text timer +:+ "' failed to schedule: "
           +:+ reason rejection))
        (first_due_at timer now));
  mret (format_instant due).

Definition record_timer_wait (node_id due_at : string) : M X unit :=
  update (set_timer_waits (λ l, l ++ [mk_timer_wait node_id due_at])) ;;
  event ← read (timer_event node_id due_at);
  notify (OnTimerScheduled event).

(** The timer boundaries of a host that this pass has not armed. *)
Definition unarmed_boundaries (host_id : string) (s : ExecutionState X) : list (string * TimerDefinition) :=
  omap (λ n, match n with
             | BoundaryEvent id _ attached BoundaryTimer _ _ _ (Some timer) =>
                 if String.eqb attached host_id && negb (existsb (λ t, String.eqb (tw_node_id t) id) (timer_waits s))
                 then Some (id, timer) else None
             | _ => None
             end) (process_nodes (s_process s)).

Fixpoint boundary_due_ats (boundaries : list (string * TimerDefinition)) : M X (list (string * string)) :=
  match boundaries with
  | [] => mret []
  | (id, timer) :: rest =>
      due_at ← compute_due_at timer id;
      fresh ← boundary_due_ats rest;
      mret ((id, due_at) :: fresh)
  end.

Definition schedule_timer_boundaries (host_id : string) : M X unit :=
  boundaries ← read (unarmed_boundaries host_id);
  fresh ← boundary_due_ats boundaries;
  each fresh (λ f, record_timer_wait f.1 f.2).

Definition rearm_fired_boundary (fired : FiredTimer) : M X unit :=
  match ft_timer fired with
  | Some (TimerCycle spec) =>
      now ← current_instant;
      adv ← lift_fault (map_fault (λ rejection, fatal_diag RUNTIME_UNEXPECTED
              ("recurring boundary '" +:+ boundary_id fired +:+ "' could not advance its cycle: "
               +:+ reason rejection))
            (advance_cycle spec now None now));
      match adv with
      | Next due_at _ => record_timer_wait (boundary_id fired) (format_instant due_at)
      | Exhausted => mret tt
      end
  | _ => mret tt
  end.

(** ** Retries *)

(** The duration of a delay attribute, in nanoseconds. *)
Definition retry_delay (raw : string) (is_expr : bool) (vars : Variables) : result (fault string) Z :=
  if is_expr then
    match value_evaluator self raw vars with
    | Err e => Err (Rejected ("it did not evaluate: " +:+ exec_display e))
    | Ok v => duration_from_feel_value v
    end
  else parse_iso8601_duration raw.

Definition resolve_retry_delays (deployment : DeploymentId) (policy : RetryBinding) (variables : Variables)
    : result (fault string) (Z * Z) :=
  let vars := timer_variables deployment variables in
  initial ← retry_delay (initial_delay policy) (initial_delay_expression policy) vars;
  ceiling ← retry_delay (max_delay policy) (max_delay_expression policy) vars;
  if ceiling <? initial then
    Err (Rejected ("maxDelay (" +:+ debug_duration ceiling +:+ ") is below initialDelay ("
      +:+ debug_duration initial +:+ "); the ceiling clamps the growing delay, so it can never be the smaller of the two"))
  else Ok (initial, ceiling).

(** A delay in milliseconds, or why it cannot be armed. *)
Definition delay_ms (id which raw : string) (is_expr : bool) (vars : Variables) : result (fault Signal) f64 :=
  match retry_delay raw is_expr vars with
  | Ok nanos => Ok (f64_of_int (nanos / 1000000))
  | Err (Rejected reason) => Err (Rejected (
      if is_expr then fatal_diag RUNTIME_TIMER_EXPRESSION_INVALID
        ("<q:retry> on node '" +:+ id +:+ "' @" +:+ which +:+ " expression '" +:+ raw
         +:+ "' could not be armed: " +:+ reason)
      else fatal_diag RUNTIME_UNEXPECTED
        ("<q:retry> on node '" +:+ id +:+ "' has an unparseable @" +:+ which +:+ " '" +:+ raw
         +:+ "' at runtime (" +:+ reason
         +:+ "); the loader validates it, so this is an engine-internal inconsistency.")))
  | Err Panicked => Err Panicked
  | Err OutOfFuel => Err OutOfFuel
  end.

(** [initial · coefficient^(attempt - 1)], clamped. *)
Definition backoff_ms (initial ceiling coefficient : f64) (attempt : Z) : f64 :=
  let grown := f64_mul initial (powi coefficient (attempt - 1)) in
  if f64_is_finite grown && f64_is_positive grown then f64_min grown ceiling else ceiling.

Definition compute_retry_due_at (id : string) (policy : RetryBinding) (attempt : Z) : M X string :=
  vars ← (if initial_delay_expression policy || max_delay_expression policy then
            v ← get_vars; d ← read s_deployment; mret (timer_variables d v)
          else mret []);
  initial ← lift_fault (delay_ms id "initialDelay" (initial_delay policy) (initial_delay_expression policy) vars);
  ceiling ← lift_fault (delay_ms id "maxDelay" (max_delay policy) (max_delay_expression policy) vars);
  if f64_ltb ceiling initial then
    raise (fatal_diag RUNTIME_TIMER_EXPRESSION_INVALID
      ("<q:retry> on node '" +:+ id +:+ "' resolved @maxDelay (" +:+ f64_display ceiling
       +:+ " ms) below @initialDelay (" +:+ f64_display initial
       +:+ " ms); the ceiling clamps the growing delay, so it can never be the smaller of the two"))
  else
    now ← current_instant;
    let delay := f64_to_i64 (backoff_ms initial ceiling (backoff_coefficient policy) attempt) in
    due ← lift_fault (map_fault (λ rejection, fatal_diag RUNTIME_UNEXPECTED (reason rejection))
            (instant_add now (delay * 1000000)));
    match rfc3339_format due with
    | Some text => mret text
    | None => raise (fatal_diag RUNTIME_UNEXPECTED
                ("retry due-at for node '" +:+ id +:+ "' could not be formatted: "))
    end.

Definition plan_retry (id : string) (parkable : bool) (failure_message : string) : M X RetryDisposition :=
  policy ← read (λ s, retry_policy (s_process s) id);
  match policy with
  | None => mret NoPolicy
  | Some policy =>
      if negb parkable then
        mret (RetryFail (diag DISPATCH_RETRY_UNSUPPORTED_CONTEXT
          ("<serviceTask> '" +:+ id +:+ "' declares <q:retry> but failed inside a multi-instance / ad-hoc / compensation / embedded sub-process scope, which cannot park the durable backoff timer a retry needs. Model the retried task at the top level of the process. Underlying failure: "
           +:+ failure_message)))
      else
        failed ← read (λ s, default 0 (retry_attempts s !! id));
        let attempt := failed + 1 in
        let classification := failure_classification_code failure_message in
        if existsb (String.eqb classification) (non_retryable_codes policy) then
          mret (RetryFail (diag RUNTIME_RETRY_EXHAUSTED
            ("<serviceTask> '" +:+ id +:+ "' failed on attempt " +:+ dec_string attempt +:+ " of "
             +:+ dec_string (max_attempts policy) +:+ " with classification '" +:+ classification
             +:+ "', which its <q:retry nonRetryableCodes> declares NON-RETRYABLE; the remaining attempts are skipped and the instance fails now. Underlying failure: "
             +:+ failure_message)))
        else if max_attempts policy <=? attempt then
          mret (RetryFail (diag RUNTIME_RETRY_EXHAUSTED
            ("<serviceTask> '" +:+ id +:+ "' exhausted its <q:retry maxAttempts=" +:+ dq (dec_string (max_attempts policy))
             +:+ "> budget (attempt " +:+ dec_string attempt +:+ " failed). Underlying failure: "
             +:+ failure_message)))
        else
          due_at ← compute_retry_due_at id policy attempt;
          mret (RetryPark due_at attempt)
  end.
End Timers.
