(* ===== verification/Outbound.v ===== *)
(** * Outbound emissions ([sutra-executor/src/executor.rs]: [emit_reply_if_bound],
    [emit_send_if_bound], [enqueue_outbound] and their helpers)

    An emission only appends to the emissions of the world; [StepRelation] has it as
    a step of its own. *)
From Stdlib Require Import ZArith Lia Bool Ascii String.
From stdpp Require Import base list option gmap strings.
From S2P Require Import Prelude Decimal FeelValue Temporal FeelText Timer ProcessModel Correlation Runtime ExecState AuditSnapshot.

Open Scope string_scope.
Open Scope list_scope.
Open Scope Z_scope.

Definition or_else {A} (a b : option A) : option A := match a with Some _ => a | None => b end.

Definition send_as_reply (sb : SendBinding) (destination : option string) : ReplyBinding :=
  mk_reply_binding (sd_mode sb) destination (sd_content_type sb) true (sd_ce_type sb) (sd_ce_source sb)
    (sd_ce_subject sb) (sd_ce_data_content_type sb) (sd_auth sb) (sd_auth_secret_ref sb)
    (sd_auth_header sb) (sd_message_type sb) (sd_codec sb) false (sd_headers sb).

Definition with_mode (mode : ReplyMode) (rb : ReplyBinding) : ReplyBinding :=
  mk_reply_binding mode (rb_destination rb) (rb_content_type rb) (rb_required rb) (rb_ce_type rb)
    (rb_ce_source rb) (rb_ce_subject rb) (rb_ce_data_content_type rb) (rb_auth rb) (rb_auth_secret_ref rb)
    (rb_auth_header rb) (rb_message_type rb) (rb_codec rb) (continue_after rb) (rb_headers rb).

Definition auth_scheme_name (scheme : OutboundAuthScheme) : string :=
  match scheme with Mtls => "mtls" | Bearer => "bearer" | Apikey => "apikey" end.

(** [{scheme:?}]. *)
Definition auth_scheme_debug (scheme : OutboundAuthScheme) : string :=
  match scheme with Mtls => "Mtls" | Bearer => "Bearer" | Apikey => "Apikey" end.

Definition is_native (mode : ReplyMode) : bool := match mode with Native => true | _ => false end.

(** [payload.body], read from the nested map. *)
Definition payload_body (vars : Variables) : option FeelValue :=
  match var_get "payload" vars with Some (Map m) => map_get "body" m | _ => None end.

Section Outbound.
Context `{Crates} {X : Type} (self : TokenExecutor X).

Definition body_bytes (body : option FeelValue) : string :=
  match body with
  | None | Some Null => ""
  | Some (Str s) => s
  | Some other => json_to_string (feel_to_json other)
  end.

Definition channel_call_body (vars : Variables) : string :=
  body_bytes (or_else (var_get "requestBody" vars)
    (or_else (var_get "responseBody" vars)
      (or_else (var_get "responseObject" vars)
        (or_else (var_get "payload.body" vars) (payload_body vars))))).

Definition extract_reply_body (vars : Variables) : string :=
  body_bytes (or_else (var_get "responseBody" vars)
    (or_else (var_get "responseObject" vars)
      (or_else (var_get "payload.body" vars) (payload_body vars)))).

Definition resolve_destination (rb : ReplyBinding) (vars : Variables) : option string :=
  match rb_destination rb with
  | Some d => Some d
  | None =>
      match var_get "replyTo" vars with
      | Some (Str s) => if str_is_empty (trim s) then None else Some s
      | _ => None
      end
  end.

Definition build_auth_ref (rb : ReplyBinding) (node_id : string) : result Signal (option AuthRef) :=
  match rb_auth rb with
  | None => Ok None
  | Some scheme =>
      let refuse m := Err (fatal_diag OUTBOUND_REPLY_AUTH_RESOLVER_NOT_FOUND ("Reply on node " +:+ node_id +:+ m)) in
      match rb_auth_secret_ref rb with
      | None => refuse (" declares auth=" +:+ auth_scheme_debug scheme +:+ " but no authSecretRef was set")
      | Some secret_ref =>
          let uri_scheme := match split_once ":" secret_ref with Some (s, _) => s | None => "" end in
          let declared := " declared auth=" +:+ auth_scheme_debug scheme +:+ " secretRef=" +:+ secret_ref in
          if str_is_empty (trim uri_scheme) then
            refuse (" authSecretRef '" +:+ secret_ref +:+ "' has no URI scheme — cannot dispatch to an AuthRefResolver")
          else
            match auth_resolvers self with
            | None => refuse (declared +:+ " but no AuthRefResolverRegistry is wired")
            | Some resolvers =>
                let auth_ref := mk_auth_ref (auth_scheme_name scheme) secret_ref (rb_auth_header rb) in
                if resolvers auth_ref then Ok (Some auth_ref)
                else refuse (declared +:+ " but no AuthRefResolver claims URI scheme '" +:+ uri_scheme +:+ "'")
            end
      end
  end.

Definition build_cloud_event (rb : ReplyBinding) : M X CloudEventLite :=
  instance_id ← read s_instance_id;
  now ← external (now_supplier self);
  mret (mk_cloud_event instance_id (default ("/sutra/instance/" +:+ instance_id) (rb_ce_source rb)) "1.0"
          (default "io.sutra.reply.v1" (rb_ce_type rb)) (rb_ce_subject rb) (Some now)
          (or_else (rb_ce_data_content_type rb) (rb_content_type rb))).

Fixpoint evaluate_headers (headers : list HeaderAttr) (node_id : string) (vars : Variables)
    (out : list (string * string)) : result Signal (list (string * string)) :=
  match headers with
  | [] => Ok out
  | h :: headers =>
      value ← map_err (λ e, fatal_diag OUTBOUND_HEADER_FEEL_EVAL_FAILED
                ("<q:header " +:+ ha_name h +:+ "> value expression '" +:+ ha_value h +:+ "' on node "
                 +:+ node_id +:+ " threw at evaluation: " +:+ exec_message e))
              (value_evaluator self (ha_value h) vars);
      evaluate_headers headers node_id vars
        (if is_null value then out else map_insert (ha_name h) (canonical_string_of value) out)
  end.

Definition evaluate_outbound_headers (rb : ReplyBinding) (node_id : string) (vars : Variables)
    : result Signal (list (string * string)) := evaluate_headers (rb_headers rb) node_id vars [].

Definition reply_event (node_id : string) (mode : ReplyMode) (destination : string) (s : ExecutionState X) : ReplyEvent :=
  mk_reply_event (s_deployment s) (s_labels s) (s_instance_id s) node_id mode destination.

Definition enqueue_outbound (kind : EmissionKind) (rb : ReplyBinding) (destination : string)
    (auth_ref : option AuthRef) (node_id : string) : M X unit :=
  vars ← get_vars;
  let body := extract_reply_body vars in
  cloud_event ← (if is_native (rb_mode rb) then mret None else ce ← build_cloud_event rb; mret (Some ce));
  headers ← lift (evaluate_outbound_headers rb node_id vars);
  instance_id ← read s_instance_id;
  emit self (mk_emission kind node_id instance_id (rb_mode rb) destination (rb_content_type rb)
               (rb_required rb) body cloud_event auth_ref headers) ;;
  event ← read (reply_event node_id (rb_mode rb) destination);
  notify (OnReplyEmitted event).

Definition emit_reply_if_bound (node_id : string) : M X unit :=
  reply ← read (λ s, nb_reply (bindings_for (s_process s) node_id));
  match reply with
  | None => mret tt
  | Some rb =>
      vars ← get_vars;
      match resolve_destination rb vars with
      | None =>
          if rb_required rb then
            instance_id ← read s_instance_id;
            raise (fatal_diag OUTBOUND_REPLY_DEST_REQUIRED_NOT_SET
              ("Reply on instance " +:+ instance_id +:+ " node " +:+ node_id
               +:+ " is required=true but no destination resolved (no <q:reply destination=...> and no inbound reply-to override)"))
          else mret tt
      | Some destination =>
          auth_ref ← lift (build_auth_ref rb node_id);
          enqueue_outbound Reply rb destination auth_ref node_id
      end
  end.

Definition emit_send_via_channel (sb : SendBinding) (channel_name node_id : string) : M X unit :=
  deployment ← read s_deployment;
  match find_outbound (outbound_channels self) deployment channel_name with
  | None =>
      instance_id ← read s_instance_id;
      raise (fatal_diag CONFIG_CHANNEL_OUTBOUND_UNKNOWN
        ("Node '" +:+ node_id +:+ "' on instance '" +:+ instance_id +:+ "' does a <q:send channel='"
         +:+ channel_name +:+ "'> but no channel named '" +:+ channel_name
         +:+ "' is registered with direction: outbound."))
  | Some resolved =>
      let mode := if is_native (sd_mode sb) then oc_mode resolved else sd_mode sb in
      let adapter := with_mode mode (send_as_reply sb (Some (oc_destination resolved))) in
      enqueue_outbound Send adapter (oc_destination resolved) (oc_auth_ref resolved) node_id
  end.

(** A send without a destination or channel does not load: [expect] panics. *)
Definition emit_send_if_bound (node_id : string) (required : bool) : M X unit :=
  send ← read (λ s, nb_send (bindings_for (s_process s) node_id));
  match send with
  | None =>
      if required then
        instance_id ← read s_instance_id;
        raise (fatal_diag PARSE_THROW_SEND_REQUIRED
          ("Message throw " +:+ node_id +:+ " on instance " +:+ instance_id +:+ " has no <q:send> to emit"))
      else mret tt
  | Some sb =>
      match sd_channel sb with
      | Some channel_name => emit_send_via_channel sb channel_name node_id
      | None =>
          match sd_destination sb with
          | None => panic
          | Some destination =>
              let adapter := send_as_reply sb (Some destination) in
              auth_ref ← lift (build_auth_ref adapter node_id);
              enqueue_outbound Send adapter destination auth_ref node_id
          end
      end
  end.
End Outbound.
