(* ===== verification/Tasks.v ===== *)
(** * Task nodes ([sutra-executor/src/executor.rs]: [run_service_task],
    [run_channel_call], [run_script_task], [run_business_rule_task], [run_data_task]
    and their helpers)

    A registered task, a store and a codec act on the external state; a template
    or decision engine is a function of its input.

    The retry budget of a failing task is part of [reachable_snapshot_sound]; the
    one panic in the script path is evaluated in [Scenarios]. *)
From Stdlib Require Import ZArith Lia Bool Ascii String.
From stdpp Require Import base list option gmap strings.
From S2P Require Import Prelude Texts Decimal FeelValue Temporal FeelText Timer ProcessModel Correlation Runtime.
From S2P Require Import ExecState AuditSnapshot Timers Outbound.

Open Scope string_scope.
Open Scope list_scope.
Open Scope Z_scope.

(** ** Error handlers in scope *)

Definition matches_code (handler : option string) (code : string) : bool :=
  match handler with Some c => String.eqb c code | None => true end.

Definition find_error_boundary (process : ProcessDefinition) (source code : string) : option string :=
  head (omap (λ n, match n with
                   | BoundaryEvent id _ attached BoundaryError error_code _ _ _ =>
                       if String.eqb attached source && matches_code error_code code then Some id else None
                   | _ => None
                   end) (process_nodes process)).

Definition find_error_event_sub_process (process : ProcessDefinition) (code : string) : option string :=
  head (omap (λ n, match n with
                   | EventSubProcess id _ _ error_code _ => if matches_code error_code code then Some id else None
                   | _ => None
                   end) (process_nodes process)).

Definition is_caught (process : ProcessDefinition) (source code : string) : bool :=
  is_some (find_error_boundary process source code) || is_some (find_error_event_sub_process process code).

Definition channel_call_failure_is_caught := is_caught.

(** ** Values in and out of a task *)

Definition merge_task_output (output : FeelValue) (vars : Variables) : Variables :=
  match output with
  | Map m => var_merge vars m
  | Null => vars
  | other => var_insert "result" other vars
  end.

(** The listed variables of [from], written one by one. *)
Definition copy_outputs (names : list string) (from vars : Variables) : Variables :=
  fold_left (λ acc name, match var_get name from with Some v => var_insert name v acc | None => acc end) names vars.

(** The present ones of the listed variables. *)
Definition select_vars (names : list string) (vars : Variables) : Variables := copy_outputs names vars [].

Definition task_input_view (dm : DataMapping) (vars : Variables) : Variables :=
  match dm_inputs dm with [] => vars | inputs => select_vars inputs vars end.

Definition apply_task_outputs (produced : Variables) (declared_outputs : list string) (vars : Variables) : Variables :=
  match declared_outputs with
  | [] => var_merge vars produced
  | outputs => copy_outputs outputs produced vars
  end.

Definition call_failure_value (node_id code reason : string) : FeelValue :=
  Map [("code", Str code); ("message", Str reason); ("node", Str node_id)].

(** A byte of a non-ASCII character counts as alphanumeric. *)
Definition is_bare_identifier (expression : string) : bool :=
  let e := trim expression in
  negb (str_is_empty e)
  && string_all (λ c, is_ascii_alphanumeric c || Ascii.eqb c "_" || Ascii.eqb c "-" || (128 <=? ascii_Z c)) e.

(** The bytes [is_char_boundary] refuses. *)
Definition is_continuation_byte (c : ascii) : bool := (128 <=? ascii_Z c) && (ascii_Z c <? 192).

Section Tasks.
Context `{Crates} {X : Type} (self : TokenExecutor X).

Definition record_call_failure (node_id code reason : string) : M X unit :=
  update_vars (var_insert CALL_FAILURE_VARIABLE (call_failure_value node_id code reason)).

Fixpoint evaluate_params_loop (params : list ParamBinding) (vars out : Variables) : result ExecError Variables :=
  match params with
  | [] => Ok out
  | p :: params =>
      v ← value_evaluator self (pb_expression p) vars;
      evaluate_params_loop params vars (var_insert (pb_name p) v out)
  end.
Definition evaluate_params (params : list ParamBinding) (vars : Variables) : result ExecError Variables :=
  evaluate_params_loop params vars [].

Definition task_view (variables : Variables) (c : InnerCtx) : TaskContextView :=
  mk_task_view (cx_deployment c) (cx_labels c) (cx_instance_id c) (cx_module_id c) (cx_module_version c)
    (cx_simulation c) variables.

Definition shared_view (param_values : Variables) (c : InnerCtx) : TaskContextView :=
  task_view (var_merge (cx_variables c) param_values) c.

Definition scoped_view (dm : DataMapping) (param_values : Variables) (c : InnerCtx) : TaskContextView :=
  task_view (var_merge (select_vars (dm_inputs dm) (cx_variables c)) param_values) c.

Definition artifact_key (deployment : DeploymentId) (t : ArtifactType) (file_name : string) : string :=
  if is_resolved deployment then artifact deployment t file_name else file_name.

(** ** Templates and decisions *)

Definition source_xml (vars : Variables) : option string :=
  match var_get "event" vars with
  | Some (Map ev) => match map_get "body" ev with Some (Str body) => Some body | _ => None end
  | _ => None
  end.

Definition render_model (vars param_values : Variables) : M X Json :=
  uuid ← external (uuid_supplier self);
  now ← external (now_supplier self);
  let vars_json := to_json vars in
  let base := match vars_json with JObject m => m | _ => [] end in
  let with_params := fold_left (λ m e, json_insert e.1 (feel_to_json e.2) m) param_values base in
  let model := json_insert "now" (JString now) (json_insert "uuid" (JString uuid) (json_insert "vars" vars_json with_params)) in
  mret (JObject (match source_xml vars with Some body => json_insert "sourceXml" (JString body) model | None => model end)).

Definition render_template (file_name : string) (engine : TemplateEngine) (param_values vars : Variables)
    : M X (result TaskFailure string) :=
  deployment ← read s_deployment;
  let key := artifact_key deployment Template file_name in
  match templates self !! key with
  | None =>
      mret (Err (FailDiag (mk_error RESOLVE_TEMPLATE_UNKNOWN
        ("No template '" +:+ file_name +:+ "' is registered for deployment '" +:+ dep_value deployment
         +:+ "'. A <bpmn:serviceTask implementation=" +:+ dq file_name
         +:+ "> requires a matching file under the module version's templates/ folder."))))
  | Some bytes =>
      model ← render_model vars param_values;
      mret (map_err FailUncaught (en_run engine key bytes model))
  end.

Definition evaluate_decision (node_id file_name : string) (engine : DecisionEngine) (input : Variables)
    (deployment : DeploymentId) : result TaskFailure Variables :=
  let key := artifact_key deployment Decision file_name in
  match decisions self !! key with
  | None =>
      Err (FailDiag (mk_error RESOLVE_TEMPLATE_UNKNOWN
        ("<businessRuleTask> " +:+ node_id +:+ " names decision '" +:+ file_name
         +:+ "' but no such file is registered for deployment '" +:+ dep_value deployment
         +:+ "'. It requires a matching file under the module version's decisions/ folder.")))
  | Some bytes => map_err FailUncaught (en_run engine key bytes input)
  end.

Definition store_ops_refused (id kind : string) : TaskFailure :=
  FailDiag (mk_error PARSE_DATA_ASSOCIATION_UNSUPPORTED
    ("<serviceTask> '" +:+ id +:+ "' is a " +:+ kind +:+ " service task with data-store associations; store reads/writes belong on a declarative data task (no @implementation).")).

(** ** Service tasks *)

Definition run_template_task (id implementation : string) (dm : DataMapping) (engine : TemplateEngine)
    (param_values : Variables) : M X (result TaskFailure unit) :=
  if has_store_ops dm then mret (Err (store_ops_refused id "template"))
  else
    vars ← get_vars;
    rendered ← render_template implementation engine param_values (task_input_view dm vars);
    match rendered with
    | Err e => mret (Err e)
    | Ok text =>
        output ← read (λ s, nb_output (bindings_for (s_process s) id));
        let produced := [("responseBody", Str text)] in
        let produced := match output with Some o => var_insert (ob_variable o) (Str text) produced | None => produced end in
        update_vars (apply_task_outputs produced (dm_outputs dm)) ;; mret (Ok tt)
    end.

Definition run_decision_task (id implementation : string) (dm : DataMapping) (engine : DecisionEngine)
    (param_values : Variables) : M X (result TaskFailure unit) :=
  if has_store_ops dm then mret (Err (store_ops_refused id "decision"))
  else
    vars ← get_vars;
    deployment ← read s_deployment;
    match evaluate_decision id implementation engine (var_merge (task_input_view dm vars) param_values) deployment with
    | Err e => mret (Err e)
    | Ok out => update_vars (apply_task_outputs out (dm_outputs dm)) ;; mret (Ok tt)
    end.

(** The mapped-out variables alone reach the shared scope of a scoped task. *)
Definition run_registered_task (implementation : string) (dm : DataMapping) (param_values : Variables)
    : M X (result TaskFailure unit) :=
  match resolve_task (tasks self) implementation with
  | Err e => mret (Err (FailDiag (to_diagnostic e)))
  | Ok task =>
      c ← get_ctx;
      let scoped := negb (mapping_is_empty dm) in
      let view := if scoped then scoped_view dm param_values c else shared_view param_values c in
      let input := default (Map (to_feel_context (tv_variables view))) (var_get "payload" (tv_variables view)) in
      outcome ← external (task input view);
      match outcome with
      | Err (TaskBpmnError code) => mret (Err (FailBpmn code))
      | Err (TaskFailed msg) => mret (Err (FailUncaught msg))
      | Ok output =>
          update_vars (λ vars,
            if scoped then copy_outputs (dm_outputs dm) (merge_task_output output (tv_variables view)) vars
            else merge_task_output output vars) ;;
          mret (Ok tt)
      end
  end.

(** The routing: template suffix, decision suffix, channel call, registered task. *)
Definition invoke_service_task (id implementation : string) (dm : DataMapping) (param_values : Variables)
    : M X (result TaskFailure unit) :=
  match for_implementation (template_engines self) implementation with
  | Some engine => run_template_task id implementation dm engine param_values
  | None =>
      match for_implementation (decision_engines self) implementation with
      | Some engine => run_decision_task id implementation dm engine param_values
      | None =>
          if starts_with CHANNEL_CALL_PREFIX implementation then
            mret (Err (FailDiag (mk_error DISPATCH_CHANNEL_CALL_UNSUPPORTED_CONTEXT
              ("<serviceTask> '" +:+ id +:+ "' (implementation=" +:+ dq implementation
               +:+ ") is a channel-call task running inside a multi-instance / ad-hoc / compensation scope, which cannot park a durable wait state."))))
          else run_registered_task implementation dm param_values
      end
  end.

(** ** The reserved coverage operations *)

Definition coverage_store_failure (node_id op deployment_id : string) (e : StoreError) : ExecError :=
  diag CONFIG_COVERAGE_STORE_MISSING
    ("coverage " +:+ op +:+ " on '" +:+ node_id
     +:+ "' could not read the coverage metric store for deployment " +:+ deployment_id +:+ ": " +:+ store_message e).

(** [FeelValue::from(k as f64 / 100.0)] for a hundredth count [k]. *)
Definition hundredths (k : Z) : FeelValue :=
  Number (if k mod 10 =? 0 then mk_decimal (k / 10) 1 else mk_decimal k 2).

(** [(covered as f64 * 10000.0 / total as f64).round() / 100.0]. *)
Definition percentage (covered total : Z) : FeelValue :=
  hundredths (if total =? 0 then 0 else (2 * covered * 10000 + total) / (2 * total)).

Definition from_i64 (n : Z) : FeelValue := Number (mk_decimal n 0).

Definition report_value (target : ProcessDefinition) (covered_set urns : list string) : FeelValue :=
  let marked := map (λ e, (cp_id e.1, contains covered_set e.2)) (zip (coverage_paths target) urns) in
  let covered_paths := map fst (List.filter snd marked) in
  let uncovered_paths := map fst (List.filter (λ e, negb e.2) marked) in
  let total := Z.of_nat (length (coverage_paths target)) in
  let covered := Z.of_nat (length covered_paths) in
  Map [("covered", from_i64 covered); ("coveredPaths", List (map Str covered_paths));
       ("percentage", percentage covered total); ("process", Str (process_id target));
       ("total", from_i64 total); ("uncoveredPaths", List (map Str uncovered_paths))].

Definition coverage_report (target : ProcessDefinition) (deployment_id : string) (store : CoverageMetricStore X)
    (urns : list string) : Io X FeelValue := λ x,
  match covered_among store deployment_id urns x with
  | (Ok covered_set, x) => (Ok (report_value target covered_set urns), x)
  | (Err e, x) => (Err e, x)
  end.

Definition resolve_coverage_target (target node_id : string) (deployment : DeploymentId)
    : result ExecError ProcessDefinition :=
  let own := if is_resolved deployment then r ← module_resolver self; r deployment target else None in
  match own with
  | Some hit => Ok hit
  | None =>
      anywhere ← match process_resolver self with Some r => r target | None => Ok None end;
      ok_or (diag RESOLVE_MODULE_NOT_FOUND
               ("coverage op on '" +:+ node_id +:+ "' targets process '" +:+ target
                +:+ "', which is not deployed in the caller's module.")) anywhere
  end.

(** [implementation.splitn(3, ':')]: the second and third part, trimmed. *)
Definition coverage_op_parts (implementation : string) : string * string :=
  match split_once ":" implementation with
  | None => ("", "")
  | Some (_, rest) =>
      match split_once ":" rest with
      | Some (op, target) => (trim op, trim target)
      | None => (trim rest, "")
      end
  end.

Definition run_coverage_op (node_id implementation : string) : M X unit :=
  let '(op, target_process_id) := coverage_op_parts implementation in
  if str_is_empty target_process_id then
    raise (Fatal (diag RESOLVE_TASK_UNKNOWN
      ("coverage op '" +:+ implementation +:+ "' on '" +:+ node_id +:+ "' needs a target process: implementation="
       +:+ dq "coverage:report:<process>" +:+ " or " +:+ dq "coverage:reset:<process>" +:+ ".")))
  else
    deployment ← read s_deployment;
    target ← lift_fatal (resolve_coverage_target target_process_id node_id deployment);
    match coverage_metric_store self with
    | None =>
        raise (Fatal (diag CONFIG_COVERAGE_STORE_MISSING
          ("coverage op on '" +:+ node_id +:+ "' has no coverage metric store: deployment " +:+ dep_value deployment
           +:+ " is running with no coverage store wired. Coverage marks are persisted in the 'coverage' data store the deployment declares in datastores.yaml — the engine owns that schema and applies it on first use, so no coverage SQL is yours to write — and nothing was recorded, so no percentage can be reported.")))
    | Some store =>
        let deployment_id := dep_value deployment in
        let urns := map (λ p, metric_flag_urn (cp_id p)) (coverage_paths target) in
        let failed op e := Fatal (coverage_store_failure node_id op deployment_id e) in
        if String.eqb op "report" then
          report ← io (coverage_report target deployment_id store urns) (failed "report");
          update_vars (var_insert "coverageReport" report)
        else if String.eqb op "reset" then
          cleared ← io (clear_paths store deployment_id urns) (failed "reset");
          update_vars (var_insert "coverageReset"
            (Map [("cleared", from_i64 cleared); ("process", Str (process_id target));
                  ("total", from_i64 (Z.of_nat (length (coverage_paths target))))]))
        else
          raise (Fatal (diag RESOLVE_TASK_UNKNOWN
            ("unknown coverage op '" +:+ op +:+ "' on '" +:+ node_id +:+ "' (expected 'report' or 'reset').")))
    end.

(** ** [run_service_task] *)

Definition task_event (implementation : string) (nanos : Z) (s : ExecutionState X) : TaskEvent :=
  mk_task_event (s_deployment s) (s_labels s) (s_instance_id s) implementation nanos.

(** [RetryDisposition::Park]: the node waits on its backoff timer. *)
Definition park_retry (id due_at : string) (attempt : Z) : M X bool :=
  update (set_retry_attempts (insert id attempt)) ;;
  update (park_fresh id) ;;
  record_timer_wait id due_at ;;
  mret true.

Definition settle_task (id implementation : string) (parkable : bool) (event : TaskEvent)
    (outcome : result TaskFailure unit) : M X bool :=
  match outcome with
  | Ok _ =>
      update (set_retry_attempts (delete id)) ;;
      notify (OnTaskCompleted event) ;;
      mret false
  | Err (FailBpmn code) =>
      notify (OnTaskFailed event (mk_error RUNTIME_ERROR_UNCAUGHT
        ("Service task @Task(" +:+ dq implementation +:+ ") threw BPMN error " +:+ code))) ;;
      raise (BpmnError id code)
  | Err (FailUncaught msg) =>
      let d := mk_error RUNTIME_TASK_UNCAUGHT ("Task @Task(" +:+ dq implementation +:+ ") threw " +:+ msg) in
      notify (OnTaskFailed event d) ;;
      plan ← plan_retry self id parkable msg;
      match plan with
      | RetryPark due_at attempt => park_retry id due_at attempt
      | RetryFail e => raise (Fatal e)
      | NoPolicy => raise (Fatal (Diagnostic d))
      end
  | Err (FailDiag d) => notify (OnTaskFailed event d) ;; raise (Fatal (Diagnostic d))
  end.

Definition run_service_task (id implementation : string) (dm : DataMapping) (params : list ParamBinding)
    (parkable : bool) : M X bool :=
  invoked ← read (task_event implementation 0);
  notify (OnTaskInvoked invoked) ;;
  if starts_with COVERAGE_OP_PREFIX implementation then
    run_coverage_op id implementation ;;
    update (complete_activity id) ;;
    notify (OnTaskCompleted invoked) ;;
    mret false
  else
    vars ← get_vars;
    param_values ← lift_fatal (evaluate_params params vars);
    outcome ← invoke_service_task id implementation dm param_values;
    elapsed ← external (elapsed_nanos self);
    event ← read (task_event implementation (Z.max elapsed 1));
    settle_task id implementation parkable event outcome.

(** ** Script and business rule tasks *)

(** [preview.truncate(200)] panics inside a character. *)
Definition preview_of (rendered : string) : result (fault Signal) string :=
  let preview := trim rendered in
  if (200 <? Z.of_nat (String.length preview)) then
    match String.get 200 preview with
    | Some c => if is_continuation_byte c then Err Panicked else Ok (String.substring 0 200 preview +:+ "…")
    | None => Ok preview
    end
  else Ok preview.

Definition parse_script_output (node_id rendered : string) : result (fault Signal) Variables :=
  match json_from_str rendered with
  | Ok (JObject m) => Ok (fold_left (λ out e, var_insert e.1 (json_to_feel e.2) out) m [])
  | Ok _ =>
      preview ← preview_of rendered;
      Err (Rejected (fatal_diag RUNTIME_UNEXPECTED
        ("<scriptTask> " +:+ node_id
         +:+ " must render a JSON object whose entries merge into the process variables; rendered output was: "
         +:+ preview)))
  | Err e =>
      Err (Rejected (fatal_diag RUNTIME_UNEXPECTED
        ("<scriptTask> " +:+ node_id
         +:+ " must render a JSON object, but its output did not parse as JSON: " +:+ e)))
  end.

Definition run_script_task (id file : string) : M X unit :=
  deployment ← read s_deployment;
  let key := artifact_key deployment Script file in
  let refuse m : M X unit := raise (fatal_diag RESOLVE_TEMPLATE_UNKNOWN ("<scriptTask> " +:+ id +:+ m)) in
  match scripts self !! key with
  | None =>
      refuse (" names script '" +:+ file +:+ "' but no such file is registered for deployment '" +:+ dep_value deployment
              +:+ "'. A <bpmn:scriptTask><bpmn:script>" +:+ file
              +:+ "</bpmn:script> requires a matching file under the module version's scripts/ folder.")
  | Some bytes =>
      if is_nil (template_engines self) then
        refuse (" needs a template engine to render '" +:+ file +:+ "' but no TemplateEngineRegistry is configured.")
      else
        match for_implementation (template_engines self) file with
        | None =>
            refuse (" script '" +:+ file +:+ "' has no template engine for its extension. Registered engines: "
                    +:+ debug_list (map en_name (template_engines self)) +:+ ".")
        | Some engine =>
            vars ← get_vars;
            model ← render_model vars [];
            rendered ← lift (map_err (fatal_diag RUNTIME_UNEXPECTED) (en_run engine key bytes model));
            merged ← lift_fault (parse_script_output id rendered);
            update_vars (λ vars, var_merge vars merged)
        end
  end.

Definition run_business_rule_task (id file : string) : M X unit :=
  deployment ← read s_deployment;
  let key := artifact_key deployment Decision file in
  let refuse m : M X unit := raise (fatal_diag RESOLVE_TEMPLATE_UNKNOWN ("<businessRuleTask> " +:+ id +:+ m)) in
  match decisions self !! key with
  | None =>
      refuse (" names decision '" +:+ file +:+ "' but no such file is registered for deployment '" +:+ dep_value deployment
              +:+ "'. It requires a matching file under the module version's decisions/ folder.")
  | Some bytes =>
      if is_nil (decision_engines self) then
        refuse (" needs a decision engine to evaluate '" +:+ file +:+ "' but no DecisionEngineRegistry is configured.")
      else
        match for_implementation (decision_engines self) file with
        | None =>
            refuse (" decision '" +:+ file +:+ "' has no decision engine for its extension. Registered engines: "
                    +:+ debug_list (map en_name (decision_engines self)) +:+ ".")
        | Some engine =>
            vars ← get_vars;
            result ← lift (map_err (fatal_diag RUNTIME_UNEXPECTED) (en_run engine key bytes vars));
            update_vars (λ vars, if is_nil result then vars else var_merge vars result)
        end
  end.

(** ** Channel calls *)

Definition raise_channel_call_failure (id code reason : string) (uncaught : Signal) : M X bool :=
  caught ← read (λ s, channel_call_failure_is_caught (s_process s) id code);
  if negb caught then raise uncaught
  else
    update (set_retry_attempts (delete id)) ;;
    update (set_retry_backoff (delete id)) ;;
    record_call_failure id code reason ;;
    raise (BpmnError id code).

Definition park_or_fail_channel_call_retry (id implementation code detail reason : string) : M X bool :=
  let failure_message := code +:+ ": " +:+ detail in
  failed ← read (task_event implementation 0);
  notify (OnTaskFailed failed (mk_error code failure_message)) ;;
  parkable ← read retry_parkable;
  plan ← plan_retry self id parkable failure_message;
  match plan with
  | RetryPark due_at attempt =>
      update (set_retry_backoff (insert id code)) ;;
      park_retry id due_at attempt
  | RetryFail e => raise_channel_call_failure id code reason (Fatal e)
  | NoPolicy => raise_channel_call_failure id code reason (fatal_diag code detail)
  end.

Definition route_timer_boundary (boundary_id host_id : string) : M X unit :=
  flows ← read (λ s, outgoing (s_process s) boundary_id);
  match flows with
  | [] =>
      record_call_failure host_id DISPATCH_CHANNEL_CALL_TIMEOUT
        ("channel-call task '" +:+ host_id +:+ "' timed out waiting for its response (timer boundary '"
         +:+ boundary_id +:+ "' fired)") ;;
      raise (BpmnError host_id DISPATCH_CHANNEL_CALL_TIMEOUT)
  | _ =>
      update (fire_all flows) ;;
      update (mark_visited boundary_id)
  end.

Definition route_non_interrupting_boundary (boundary_id : string) : M X unit :=
  update (enqueue_outgoing boundary_id).

(** The reply binding a channel call's cloud event is built from. *)
Definition channel_adapter (resolved : ResolvedOutboundChannel) : ReplyBinding :=
  mk_reply_binding (oc_mode resolved) (Some (oc_destination resolved)) None true None None None None None None
    None None None false [].

(** Sends the request and parks on the response. *)
Definition send_channel_call (id implementation : string) (dm : DataMapping) (params : list ParamBinding) : M X bool :=
  let channel_name := trim (default "" (strip_prefix CHANNEL_CALL_PREFIX implementation)) in
  deployment ← read s_deployment;
  instance_id ← read s_instance_id;
  match find_outbound (outbound_channels self) deployment channel_name with
  | None =>
      raise (fatal_diag CONFIG_CHANNEL_OUTBOUND_UNKNOWN
        ("Channel-call task '" +:+ id +:+ "' on instance '" +:+ instance_id +:+ "' names outbound channel '"
         +:+ channel_name +:+ "' but no channel with that name is registered with direction: outbound for deployment "
         +:+ dep_value deployment +:+ "."))
  | Some resolved =>
      vars ← get_vars;
      param_values ← lift_fatal (evaluate_params params vars);
      let body := channel_call_body (var_merge (task_input_view dm vars) param_values) in
      cloud_event ← (if is_native (oc_mode resolved) then mret None
                     else ce ← build_cloud_event self (channel_adapter resolved); mret (Some ce));
      emit self (mk_emission Send id instance_id (oc_mode resolved) (oc_destination resolved) None true body
                   cloud_event (oc_auth_ref resolved) []) ;;
      event ← read (reply_event id (oc_mode resolved) (oc_destination resolved));
      notify (OnReplyEmitted event) ;;
      update (park_fresh id) ;;
      schedule_timer_boundaries self id ;;
      mret true
  end.

Definition run_channel_call (id implementation : string) (dm : DataMapping) (params : list ParamBinding) : M X bool :=
  failure ← read (call_failure_for id);
  match failure with
  | Some f =>
      update (set_channel_call_failure (λ _, None)) ;;
      park_or_fail_channel_call_retry id implementation (cf_code f) (cf_message f) (cf_reason f)
  | None =>
      fired ← read (fired_timer_for id);
      match fired with
      | Some f =>
          update (set_fired_timer (λ _, None)) ;;
          retries ← read (λ s, is_nil (outgoing (s_process s) (boundary_id f)) && has_retry_policy (s_process s) id);
          if (retries : bool) then
            let detail := "channel-call task '" +:+ id
              +:+ "' timed out waiting for its correlated response (timer boundary '" +:+ boundary_id f +:+ "' fired)" in
            park_or_fail_channel_call_retry id implementation DISPATCH_CHANNEL_CALL_TIMEOUT detail detail
          else
            route_timer_boundary (boundary_id f) id ;;
            mret false
      | None => send_channel_call id implementation dm params
      end
  end.
End Tasks.
