(* ===== verification/KeyQuery.v ===== *)
(** * Key queries over a data store ([sutra-executor/src/datastore.rs]:
    [query_in_memory] and its helpers; [sutra-executor/src/executor.rs]:
    [prefix_upper_bound], [query_result_value])

    The theorems: a prefix query reads exactly the keys with that prefix; following
    [next] page by page returns every matching row once, in key order; the groups of
    an aggregate partition its rows. *)
From Stdlib Require Import ZArith Lia Bool Ascii String.
From stdpp Require Import base list option gmap strings sorting.
From S2P Require Import Prelude Texts Decimal FeelValue Temporal FeelText Timer ProcessModel Correlation Runtime.

Open Scope string_scope.
Open Scope list_scope.
Open Scope Z_scope.

(** ** [prefix_upper_bound] *)

(** The loop that pops the last character, the last one first. *)
Fixpoint bump_last (chars : list Z) : option (list Z) :=
  match chars with
  | [] => None
  | last :: rest =>
      let next := if is_surrogate (last + 1) then 57344 else last + 1 in
      if is_scalar next then Some (next :: rest) else bump_last rest
  end.

Definition prefix_upper_bound (prefix : string) : option string :=
  cs ← bump_last (rev (chars prefix)); Some (encode (rev cs)).

(** ** [query_in_memory] *)

Definition in_bounds (q : StoreKeyQuery) (k : string) : bool :=
  str_leb (kq_lower q) k && match kq_upper q with None => true | Some u => str_ltb k u end.

Inductive Numeric : Type := NumericNumber (n : BigDecimal) | NumericSkip | NumericNot.

(** The digits a text starts with, and the rest. *)
Fixpoint span_digits (s : string) : nat * string :=
  match s with
  | String c r => if is_ascii_digit c then let '(n, rest) := span_digits r in (S n, rest) else (O, s)
  | EmptyString => (O, s)
  end.

Definition strip_sign (s : string) : string :=
  match s with
  | String c r => if Ascii.eqb c "+" || Ascii.eqb c "-" then r else s
  | EmptyString => s
  end.

Definition is_exponent (s : string) : bool :=
  match s with
  | String c r => (Ascii.eqb c "e" || Ascii.eqb c "E")
                  && (let '(n, rest) := span_digits (strip_sign r) in (0 <? n)%nat && str_is_empty rest)
  | EmptyString => true
  end.

Definition is_decimal_literal (text : string) : bool :=
  let '(int_digits, rest) := span_digits (strip_sign text) in
  let '(frac_digits, rest) := match rest with
    | String c r => if Ascii.eqb c "." then span_digits r else (O, rest)
    | EmptyString => (O, rest)
    end in
  if ((int_digits =? 0) && (frac_digits =? 0))%nat then false else is_exponent rest.

Fixpoint contains_text (p s : string) : bool :=
  starts_with p s || match s with String _ r => contains_text p r | EmptyString => false end.

(** [replacen('.', ".0", 1)]. *)
Fixpoint pad_dot (s : string) : string :=
  match s with
  | String c r => if Ascii.eqb c "." then String c (String "0" r) else String c (pad_dot r)
  | EmptyString => EmptyString
  end.

(** [trim_start_matches('+')]. *)
Fixpoint trim_plus (s : string) : string :=
  match s with String c r => if Ascii.eqb c "+" then trim_plus r else s | EmptyString => s end.

Section Query.
Context `{BigDecimalText, TimeText, BigDecimalOps}.

Definition group_text (v : option FeelValue) : string :=
  match v with
  | None | Some Null => "null"
  | Some (Str s) => s
  | Some other => canonical_string_of other
  end.

Definition numeric (v : option FeelValue) : Numeric :=
  match v with
  | None | Some Null => NumericSkip
  | Some (Number n) => NumericNumber n
  | Some (Str s) =>
      let t := trim s in
      if negb (is_decimal_literal t) then NumericNot
      else
        let normalized := if ends_with "." t || contains_text ".e" t || contains_text ".E" t then pad_dot t else t in
        match bd_parse (trim_plus normalized) with
        | Some n => NumericNumber n
        | None => NumericNot
        end
  | Some _ => NumericNot
  end.

Definition empty_cell : StoreAggregateCell := mk_cell 0 None 0.
Definition zero_decimal : BigDecimal := mk_decimal 0 0.

Definition add_to_cell (field : option (list string)) (v : FeelValue) (c : StoreAggregateCell) : StoreAggregateCell :=
  match field with
  | None => mk_cell (cell_count c + 1) (cell_sum c) (non_numeric c)
  | Some path =>
      let sum := default zero_decimal (cell_sum c) in
      match numeric (walk v path) with
      | NumericNumber n => mk_cell (cell_count c + 1) (Some (bd_add sum n)) (non_numeric c)
      | NumericSkip => mk_cell (cell_count c + 1) (Some sum) (non_numeric c)
      | NumericNot => mk_cell (cell_count c + 1) (Some sum) (non_numeric c + 1)
      end
  end.

(** [groups.entry(key).or_default()], updated. *)
Definition add_to_group (key : string) (field : option (list string)) (v : FeelValue)
    (groups : list (string * StoreAggregateCell)) : list (string * StoreAggregateCell) :=
  map_insert key (add_to_cell field v (default empty_cell (map_get key groups))) groups.

Definition aggregate (matching : list (string * FeelValue)) (agg : StoreQueryAggregateSpec) : StoreAggregateValue :=
  match group_by agg with
  | None =>
      let total := fold_left (λ c r, add_to_cell (sum_field agg) r.2 c) matching empty_cell in
      Total (if is_some (sum_field agg) && negb (is_some (cell_sum total))
             then mk_cell (cell_count total) (Some zero_decimal) (non_numeric total) else total)
  | Some path =>
      Grouped (fold_left (λ g r, add_to_group (group_text (walk r.2 path)) (sum_field agg) r.2 g) matching [])
  end.

Definition matching_rows (entries : list (string * FeelValue)) (q : StoreKeyQuery) : list (string * FeelValue) :=
  sort_rows (List.filter (λ r, in_bounds q r.1) entries).

(** The page of a query and what follows it. *)
Definition page_of (matching : list (string * FeelValue)) (after : option string) (limit : Z)
    : list (string * FeelValue) * bool * option string :=
  let rest := List.filter (λ r, match after with None => true | Some a => str_ltb a r.1 end) matching in
  let page := take (Z.to_nat limit + 1) rest in
  let truncated := (Z.to_nat limit <? length page)%nat in
  let page := take (Z.to_nat limit) page in
  (page, truncated, if truncated then fst <$> last page else None).

Definition query_in_memory (entries : list (string * FeelValue)) (q : StoreKeyQuery) : StoreQueryResult :=
  let matching := matching_rows entries q in
  let aggregates := map (aggregate matching) (kq_aggregates q) in
  match row_limit q with
  | None => mk_query_result [] aggregates false None
  | Some limit => let '(rows, truncated, next) := page_of matching (kq_after q) limit in
                  mk_query_result rows aggregates truncated next
  end.
End Query.

(** ** [query_result_value] *)

Definition cell_value (c : StoreAggregateCell) : FeelValue :=
  Map (("count", Number (mk_decimal (cell_count c) 0))
       :: match cell_sum c with Some sum => [("sum", Number sum)] | None => [] end).

Definition aggregate_value (a : StoreAggregateValue) : FeelValue :=
  match a with
  | Total cell => cell_value cell
  | Grouped groups => Map [("groups", Map (map (λ e, (e.1, cell_value e.2)) groups))]
  end.

Definition query_result_value (r : StoreQueryResult) : FeelValue :=
  Map [("aggregates", List (map aggregate_value (qr_aggregates r)));
       ("next", match qr_next r with Some k => Str k | None => Null end);
       ("rows", List (map (λ e, Map [("key", Str e.1); ("value", e.2)]) (qr_rows r)));
       ("truncated", Boolean (qr_truncated r))].

(** ** Lemmas on the byte order *)

(** The lexicographic order of bytes and of code points. *)
Fixpoint lex (a b : list Z) : comparison :=
  match a, b with
  | [], [] => Eq
  | [], _ :: _ => Lt
  | _ :: _, [] => Gt
  | x :: a, y :: b => match x ?= y with Eq => lex a b | r => r end
  end.

Lemma compare_bytes a b :
  Forall is_byte a → Forall is_byte b → String.compare (of_bytes a) (of_bytes b) = lex a b.
Proof.
  intros Ha. revert b. induction Ha as [|x a Hx Ha IH]; intros b Hb; destruct Hb as [|y b Hy Hb]; [done..|].
  simpl. rewrite ascii_compare_Z, !byte_Z by done. destruct (x ?= y); [|done..]. by apply IH.
Qed.

(** *** Encoded characters *)

Lemma lex_opp a b : lex a b = CompOpp (lex b a).
Proof.
  revert b. induction a as [|x a IH]; intros [|y b]; [done..|]. simpl.
  rewrite Z.compare_antisym. destruct (y ?= x); simpl; [apply IH|done|done].
Qed.

Lemma lex_app_same c a b : lex (c ++ a) (c ++ b) = lex a b.
Proof. induction c as [|x c IH]; [done|]. simpl. by rewrite Z.compare_refl. Qed.

Lemma lex_encode_lt c d x y : scalar c → scalar d → c < d → lex (encode_char c ++ x) (encode_char d ++ y) = Lt.
Proof.
  intros Hc%scalar_range Hd%scalar_range Hlt. unfold encode_char. char_arith c. char_arith d.
  repeat case_if; try lia; simpl;
    repeat (match goal with |- context [?a ?= ?b] => destruct (Z.compare_spec a b) end; simpl; try lia); done.
Qed.

Lemma lex_encode_char c d x y : scalar c → scalar d →
  lex (encode_char c ++ x) (encode_char d ++ y) = match c ?= d with Eq => lex x y | r => r end.
Proof.
  intros Hc Hd. destruct (Z.compare_spec c d) as [->|Hlt|Hgt].
  - apply lex_app_same.
  - by apply lex_encode_lt.
  - rewrite lex_opp. by rewrite lex_encode_lt.
Qed.

Lemma encode_char_cons c : ∃ b bs, encode_char c = b :: bs.
Proof. unfold encode_char. repeat case_match; eauto. Qed.

(** UTF-8 keeps the order of code points. *)
Lemma lex_encode a b : Forall scalar a → Forall scalar b →
  lex (concat (map encode_char a)) (concat (map encode_char b)) = lex a b.
Proof.
  intros Ha. revert b. induction Ha as [|c a Hc Ha IH]; intros b Hb; destruct Hb as [|d b Hd Hb]; [done|..].
  - simpl. by destruct (encode_char_cons d) as (x & xs & ->).
  - simpl. by destruct (encode_char_cons c) as (x & xs & ->).
  - cbn [map concat]. rewrite lex_encode_char by done. cbn [lex]. destruct (c ?= d); [by apply IH|done..].
Qed.

Lemma compare_encode a b : Forall scalar a → Forall scalar b → String.compare (encode a) (encode b) = lex a b.
Proof.
  intros. unfold encode. rewrite compare_bytes by by apply encode_bytes. by apply lex_encode.
Qed.

(** *** The upper bound of a prefix *)

Lemma lex_nil_l k : lex [] k ≠ Gt.
Proof. by destruct k. Qed.

Lemma lex_prefix a b k : lex (a ++ b) k ≠ Gt → lex a k ≠ Gt.
Proof.
  revert k. induction a as [|x a IH]; intros k; [intros _; apply lex_nil_l|].
  destruct k as [|y k]; [done|]. simpl. destruct (x ?= y); [apply IH|done|done].
Qed.

Lemma prefix_app_iff (q k r : list Z) : (q ++ r) `prefix_of` k ↔ ∃ k', k = q ++ k' ∧ r `prefix_of` k'.
Proof.
  split.
  - intros [z ->]. exists (r ++ z). split; [by rewrite app_assoc|by exists z].
  - intros (k' & -> & z & ->). exists z. by rewrite app_assoc.
Qed.

(** No scalar value lies between a character and the next one. *)
Lemma bump_tight c k q n :
  n = (if is_surrogate (c + 1) then 57344 else c + 1) → Forall scalar k → scalar c →
  (q ++ [c]) `prefix_of` k ↔ lex (q ++ [c]) k ≠ Gt ∧ lex k (q ++ [n]) = Lt.
Proof.
  intros Hn. revert k. induction q as [|x q IH]; intros k Hk Hc; (destruct Hk as [|y k Hy Hk]; simpl).
  - split; [intros [z ?]; done|intros [? _]; done].
  - unfold is_surrogate in Hn. apply scalar_range in Hy, Hc.
    split.
    + intros [z [= -> ->]]. rewrite Z.compare_refl. split; [apply lex_nil_l|].
      assert (c < n) as H%Z.compare_lt_iff by (case_if; lia). by rewrite H.
    + intros [H1 H2]. destruct (Z.compare_spec c y) as [->|Hlt|Hgt]; [by exists k| |done].
      exfalso. destruct (Z.compare_spec y n) as [He|Hyn|Hgt]; [by destruct k|case_if; lia|done].
  - split; [intros [z ?]; done|intros [? _]; done].
  - destruct (Z.compare_spec x y) as [->|Hlt|Hgt].
    + rewrite Z.compare_refl, <- (IH k Hk Hc). split; [apply prefix_cons_inv_2|apply prefix_cons].
    + split; [intros [z [= ? ?]]; lia|]. intros [_ H]. apply Z.compare_gt_iff in Hlt. by rewrite Hlt in H.
    + split; [intros [z [= ? ?]]; lia|by intros [? _]].
Qed.

Lemma bump_spec p k : Forall scalar p → Forall scalar k →
  p `prefix_of` k ↔
  lex p k ≠ Gt ∧ match bump_last (rev p) with None => True | Some u => lex k (rev u) = Lt end.
Proof.
  induction p as [|c q IH] using rev_ind; intros Hp Hk.
  { split; [intros _; split; [apply lex_nil_l|done]|intros _; apply prefix_nil]. }
  apply Forall_app in Hp as [Hq [Hc _]%Forall_cons]. rewrite rev_app_distr. simpl.
  destruct (is_scalar _) eqn:Hn; [cbn [rev]; rewrite rev_involutive; by apply bump_tight|].
  specialize (IH Hq Hk). apply scalar_range in Hc.
  assert (c = 1114111) as -> by (destruct (is_surrogate (c + 1)) eqn:E; unfold is_scalar, is_surrogate in *; lia).
  rewrite prefix_app_iff. split.
  - intros (k' & -> & z & ->). split.
    + rewrite lex_app_same. simpl. apply lex_nil_l.
    + apply IH. by exists ([1114111] ++ z).
  - intros [Hle Hub]. destruct IH as [_ IH].
    destruct IH as [k' ->]; [by split; [apply lex_prefix in Hle|]|]. exists k'. split; [done|].
    rewrite lex_app_same in Hle. destruct k' as [|d k']; [done|]. apply Forall_app in Hk as [_ [Hd _]%Forall_cons].
    apply scalar_range in Hd. cbn [lex] in Hle.
    destruct (Z.compare_spec 1114111 d) as [<-|Hlt|Hgt]; [by exists k'|lia|done].
Qed.

Lemma bump_scalar l u : Forall scalar l → bump_last l = Some u → Forall scalar u.
Proof.
  induction 1 as [|c l Hc Hl IH]; [done|]. simpl. destruct (is_scalar _) eqn:Hn; [|done].
  intros [= <-]. by constructor.
Qed.

(** *** Byte prefixes *)

Lemma starts_with_bytes a b : Forall is_byte a → Forall is_byte b →
  starts_with (of_bytes a) (of_bytes b) = true ↔ a `prefix_of` b.
Proof.
  intros Ha. revert b. induction Ha as [|x a Hx Ha IH]; intros b Hb.
  { split; [intros _; apply prefix_nil|by destruct b]. }
  destruct Hb as [|y b Hy Hb]; [split; [done|by intros [z ?]]|]. simpl.
  rewrite andb_true_iff, IH by done. split.
  - intros [E Hp]. apply Ascii.eqb_eq, (f_equal ascii_Z) in E. rewrite !byte_Z in E by done. subst y.
    by apply prefix_cons.
  - intros Hp. pose proof (prefix_cons_inv_1 _ _ _ _ Hp) as ->. split; [apply Ascii.eqb_refl|].
    by apply prefix_cons_inv_2 in Hp.
Qed.

Lemma lex_of_prefix a b : a `prefix_of` b → lex a b ≠ Gt.
Proof. intros [z ->]. rewrite <- (app_nil_r a) at 1. rewrite lex_app_same. apply lex_nil_l. Qed.

(** A byte prefix of encoded text ends at a character. *)
Lemma prefix_encode p k : Forall scalar p → Forall scalar k →
  concat (map encode_char p) `prefix_of` concat (map encode_char k) ↔ p `prefix_of` k.
Proof.
  intros Hp. revert k. induction Hp as [|c p Hc Hp IH]; intros k Hk.
  { split; intros _; apply prefix_nil. }
  destruct Hk as [|d k Hd Hk].
  - split; [|by intros [z ?]]. simpl. destruct (encode_char_cons c) as (x & xs & ->). by intros [z ?].
  - cbn [map concat]. split.
    + intros Hpre. assert (c = d) as ->.
      { destruct Hpre as [z Hz]. pose proof (lex_encode_char c d (concat (map encode_char p) ++ z)
          (concat (map encode_char k)) Hc Hd) as E.
        rewrite app_assoc, <- Hz in E. rewrite <- (app_nil_r (_ ++ _)), lex_app_same in E. simpl in E.
        destruct (Z.compare_spec c d); [done|done|done]. }
      apply prefix_app_iff in Hpre as (k' & E & Hpre). apply app_inv_head in E. subst k'.
      apply prefix_cons. by apply IH.
    + intros Hpre. pose proof (prefix_cons_inv_1 _ _ _ _ Hpre) as ->. apply prefix_cons_inv_2 in Hpre.
      apply prefix_app. by apply IH.
Qed.

(** *** Bounds *)

Lemma in_bounds_prefix p k q : Forall scalar p → Forall scalar k →
  kq_lower q = encode p → kq_upper q = prefix_upper_bound (encode p) →
  in_bounds q (encode k) = starts_with (encode p) (encode k).
Proof.
  intros Hp Hk Hl Hu. apply eq_true_iff_eq.
  unfold encode at 2 3. rewrite starts_with_bytes by by apply encode_bytes.
  rewrite prefix_encode, bump_spec by done.
  unfold in_bounds, str_leb, str_ltb. rewrite Hl, Hu, compare_encode by done.
  unfold prefix_upper_bound. rewrite chars_encode by done.
  rewrite andb_true_iff. f_equiv; [by destruct (lex p k)|].
  destruct (bump_last (rev p)) as [u|] eqn:E; simpl; [|done].
  rewrite compare_encode; [by destruct (lex k (rev u))|done|].
  apply Forall_rev. apply (bump_scalar (rev p)); [by apply Forall_rev|done].
Qed.

Lemma filter_ext_Forall {A} (f g : A → bool) l : Forall (λ x, f x = g x) l → List.filter f l = List.filter g l.
Proof. induction 1 as [|x l Hx Hl IH]; [done|]. simpl. by rewrite Hx, IH. Qed.

(** A prefix query reads exactly the rows whose key starts with the prefix:
    the bounds [[prefix, prefix_upper_bound prefix)] admit every key with the prefix
    and no other, for keys that are UTF-8 texts of Unicode scalar values. *)
Theorem prefix_query_exact (entries : list (string * FeelValue)) (q : StoreKeyQuery) (p : list Z) :
  Forall scalar p →
  Forall (λ r, ∃ k, Forall scalar k ∧ r.1 = encode k) entries →
  kq_lower q = encode p → kq_upper q = prefix_upper_bound (encode p) →
  matching_rows entries q = sort_rows (List.filter (λ r, starts_with (encode p) r.1) entries).
Proof.
  intros Hp He Hl Hu. unfold matching_rows. f_equal. apply filter_ext_Forall.
  eapply Forall_impl; [exact He|]. intros r (k & Hk & ->). by apply in_bounds_prefix.
Qed.

Lemma prefix_query_exact_witness :
  let entries := [(encode [97; 98], Null); (encode [97; 233], Null); (encode [98], Null); (encode [97; 65536; 99], Null)] in
  matching_rows entries (mk_key_query (encode [97]) (prefix_upper_bound (encode [97])) None None [])
  = [(encode [97; 98], Null); (encode [97; 233], Null); (encode [97; 65536; 99], Null)].
Proof.
  intros entries. rewrite (prefix_query_exact entries _ [97]); [by vm_compute|by repeat constructor| |done..].
  repeat constructor; simpl; eexists; (split; [|reflexivity]); by repeat constructor.
Defined.

(** ** Sorting and paging *)

(** The rows past the key of a row are the rows that follow it. *)
Lemma rows_after {A} (l1 l2 : list (string * A)) r : StronglySorted key_lt (l1 ++ r :: l2) →
  List.filter (λ x, str_ltb r.1 x.1) (l1 ++ r :: l2) = l2.
Proof.
  induction l1 as [|x l1 IH]; simpl; intros [Hs Hx]%StronglySorted_inv.
  - assert (str_ltb r.1 r.1 = false) as -> by (unfold str_ltb; by rewrite string_compare_refl).
    clear Hs. induction Hx as [|y l2 Hy Hl IH]; [done|]. simpl.
    apply str_ltb_lt in Hy as ->. by rewrite IH.
  - apply Forall_app in Hx as [_ [Hr _]%Forall_cons].
    assert (str_ltb r.1 x.1 = false) as ->; [|by apply IH].
    unfold str_ltb. rewrite String.compare_antisym. unfold key_lt in Hr. by rewrite Hr.
Qed.

Section Paging.
Context `{BigDecimalText, TimeText, BigDecimalOps}.

Definition with_after (q : StoreKeyQuery) (after : option string) : StoreKeyQuery :=
  mk_key_query (kq_lower q) (kq_upper q) after (row_limit q) (kq_aggregates q).

(** A reader that follows [next] while the result is truncated. *)
Fixpoint read_pages (fuel : nat) (entries : list (string * FeelValue)) (q : StoreKeyQuery)
    : option (list (string * FeelValue)) :=
  match fuel with
  | O => None
  | S fuel =>
      let r := query_in_memory entries q in
      if qr_truncated r then
        k ← qr_next r;
        rest ← read_pages fuel entries (with_after q (Some k));
        Some (qr_rows r ++ rest)
      else Some (qr_rows r)
  end.

(** What a reader that is past [done] still gets. *)
Lemma read_pages_rest fuel entries q limit done rest :
  row_limit q = Some limit → 0 < limit →
  matching_rows entries q = done ++ rest → StronglySorted key_lt (done ++ rest) →
  kq_after q = fst <$> last done → (length rest < fuel)%nat →
  read_pages fuel entries q = Some rest.
Proof.
  intros Hlim Hpos. revert q done rest Hlim. induction fuel as [|fuel IH]; intros q done rest Hlim Hm Hs Ha Hf; [lia|].
  assert (Hrest : List.filter (λ r, match kq_after q with None => true | Some a => str_ltb a r.1 end) (done ++ rest) = rest).
  { rewrite Ha. destruct done as [|d done _] using rev_ind; simpl.
    - clear. induction rest as [|x l IH]; [done|]. simpl. by rewrite IH.
    - rewrite last_snoc. simpl. rewrite <- app_assoc in *. by apply rows_after. }
  simpl. unfold query_in_memory, page_of. rewrite Hlim, Hm, Hrest. simpl.
  rewrite take_take, Nat.min_l, length_take by lia.
  destruct (Nat.ltb_spec (Z.to_nat limit) ((Z.to_nat limit + 1) `min` length rest)) as [Hlt|Hge].
  - set (page := take (Z.to_nat limit) rest). set (tail := drop (Z.to_nat limit) rest).
    assert (Hpt : rest = page ++ tail) by (symmetry; apply take_drop).
    destruct (last page) as [r|] eqn:Hr.
    2:{ apply last_None in Hr. apply (f_equal length) in Hr. unfold page in Hr. rewrite length_take in Hr. simpl in Hr. lia. }
    simpl. rewrite (IH _ (done ++ page) tail); [by simpl; rewrite <- Hpt|done|..].
    + by rewrite Hpt, app_assoc in Hm.
    + by rewrite <- app_assoc, <- Hpt.
    + simpl. by rewrite last_app, Hr.
    + unfold tail. rewrite length_drop. lia.
  - by rewrite take_ge by lia.
Qed.

(** A reader that follows [next] while a key query is truncated stops, and
    has then read every matching row once, in key order, whatever the page size. *)
Theorem paging_reads_every_row (entries : list (string * FeelValue)) (q : StoreKeyQuery) (limit : Z) :
  NoDup (map fst entries) → row_limit q = Some limit → 0 < limit → kq_after q = None →
  ∃ rows, read_pages (S (length entries)) entries q = Some rows
    ∧ rows ≡ₚ List.filter (λ r, in_bounds q r.1) entries ∧ StronglySorted key_lt rows.
Proof.
  intros Hnd Hlim Hpos Ha. exists (matching_rows entries q).
  assert (Hp : matching_rows entries q ≡ₚ List.filter (λ r, in_bounds q r.1) entries) by apply sort_rows_perm.
  assert (Hs : StronglySorted key_lt (matching_rows entries q)).
  { apply sort_rows_sorted. clear -Hnd. induction entries as [|x l IH]; [done|].
    simpl in *. apply NoDup_cons in Hnd as [Hx Hl]. case_if; [|by apply IH]. simpl.
    apply NoDup_cons. split; [|by apply IH]. contradict Hx. apply list_elem_of_In in Hx. apply list_elem_of_In.
    apply in_map_iff in Hx as (y & <- & Hy%filter_In). apply in_map. tauto. }
  split; [|done]. apply (read_pages_rest _ _ _ limit []); [done|done|done|done|done|].
  rewrite Hp. pose proof (filter_length_le (λ r, in_bounds q r.1) entries). lia.
Qed.
End Paging.

(** ** Groups *)

Section Groups.
Context `{BigDecimalText, TimeText, BigDecimalOps}.

(** The cell of some rows, none without rows. *)
Definition cell_of (field : option (list string)) (rows : list (string * FeelValue)) : option StoreAggregateCell :=
  match rows with
  | [] => None
  | _ => Some (fold_left (λ c r, add_to_cell field r.2 c) rows empty_cell)
  end.

Lemma cell_of_snoc field rows r :
  cell_of field (rows ++ [r]) = Some (add_to_cell field r.2 (default empty_cell (cell_of field rows))).
Proof.
  unfold cell_of. rewrite fold_left_app. destruct rows; done.
Qed.

Lemma cell_count_rows field rows c : cell_of field rows = Some c → cell_count c = Z.of_nat (length rows).
Proof.
  revert c. induction rows as [|r rows IH] using rev_ind; [done|]. intros c. rewrite cell_of_snoc. intros [= <-].
  assert (cell_count (default empty_cell (cell_of field rows)) = Z.of_nat (length rows)) as E.
  { destruct (cell_of field rows) as [c|] eqn:Hc; [by apply IH|]. by destruct rows. }
  rewrite length_app. simpl. unfold add_to_cell. repeat case_match; simpl; lia.
Qed.

(** A grouped aggregate partitions the matching rows: the cell of a group is
    the ungrouped aggregate of the rows whose group text is that key, no group is
    without rows, and its count is their number. *)
Theorem groups_partition_rows (rows : list (string * FeelValue)) (field : option (list string)) (path : list string) :
  ∃ groups, aggregate rows (mk_aggregate_spec field (Some path)) = Grouped groups ∧
    ∀ k, let own := List.filter (λ r, String.eqb (group_text (walk r.2 path)) k) rows in
      map_get k groups = cell_of field own
      ∧ ∀ c, map_get k groups = Some c → 0 < cell_count c ∧ cell_count c = Z.of_nat (length own).
Proof.
  eexists. split; [reflexivity|]. intros k own.
  assert (Hget : map_get k (fold_left (λ g r, add_to_group (group_text (walk r.2 path)) field r.2 g) rows []) = cell_of field own).
  { subst own. induction rows as [|r rows IH] using rev_ind; [done|].
    rewrite fold_left_app, List.filter_app. simpl. unfold add_to_group at 1. rewrite map_get_insert.
    destruct (String.eqb_spec (group_text (walk r.2 path)) k) as [->|Hne]; [|by rewrite app_nil_r].
    by rewrite cell_of_snoc, IH. }
  split; [exact Hget|]. intros c Hc. assert (Hn : cell_of field own = Some c) by (rewrite <- Hget; exact Hc).
  apply cell_count_rows in Hn as Hn'. 
  destruct own; [done|]. simpl in Hn' |- *. lia.
Qed.
End Groups.

#[local] Existing Instance plain_decimal_text.
#[local] Existing Instance plain_time_text.

Lemma paging_reads_every_row_witness :
  let entries := [("c", Null); ("a", Null); ("b", Null); ("d", Null)] in
  let q := mk_key_query "a" (Some "d") None (Some 2) [] in
  ∃ rows, read_pages 5 entries q = Some rows
    ∧ rows ≡ₚ List.filter (λ r, in_bounds q r.1) entries ∧ StronglySorted key_lt rows.
Proof.
  intros entries q. apply (paging_reads_every_row entries q 2); [|done|lia|done].
  by apply (bool_decide_unpack _); vm_compute.
Defined.
