(* ===== verification/MemoryStore.v ===== *)
(** * The in-memory data store ([sutra-executor/src/datastore.rs]:
    [InMemoryDataStore], [InMemoryTx])

    The state is the shared [StoreCell] together with the pending copy of every
    transaction begun on it; a transaction handle is its index.  [memory_store] and
    [memory_tx] are the implementations of the [DataStore] and [DataStoreTx]
    interfaces the executor is wired with.

    The theorems: among writers that expect one revision at most one succeeds,
    whatever runs between them; a transaction publishes all of its writes at commit
    and none before; two behaviours that differ from what the store documents. *)
From Stdlib Require Import ZArith Lia Bool Ascii String.
From stdpp Require Import base list option gmap strings.
From S2P Require Import Prelude Decimal FeelValue Temporal FeelText Timer ProcessModel Correlation Runtime KeyQuery.

Open Scope string_scope.
Open Scope list_scope.
Open Scope Z_scope.

(** ** State *)

Record StoreCell : Type := mk_store_cell { sc_data : gmap string FeelValue; sc_rev : Z }.

Record MemState : Type := mk_mem { cell : StoreCell; pending : list (gmap string FeelValue) }.

Definition empty_mem : MemState := mk_mem (mk_store_cell ∅ 0) [].

Definition pending_of (n : nat) (m : MemState) : gmap string FeelValue := default ∅ (pending m !! n).

Definition set_cell (c : StoreCell) (m : MemState) : MemState := mk_mem c (pending m).

(** ** Autocommit operations *)

Definition mem_get (key : string) (m : MemState) : option FeelValue := sc_data (cell m) !! key.

Definition mem_put (key : string) (v : FeelValue) (m : MemState) : MemState :=
  set_cell (mk_store_cell (<[key := v]> (sc_data (cell m))) (sc_rev (cell m) + 1)) m.

Definition mem_delete (key : string) (m : MemState) : MemState :=
  set_cell (mk_store_cell (delete key (sc_data (cell m))) (sc_rev (cell m))) m.

Definition mem_revision (key : string) (m : MemState) : Z := sc_rev (cell m).

Definition cas_applies (data : gmap string FeelValue) (rev : Z) (key : string) (expected_rev : Z) : bool :=
  if expected_rev <=? 0 then negb (is_some (data !! key)) else expected_rev =? rev.

Definition mem_put_if_revision (key : string) (v : FeelValue) (expected_rev : Z) (m : MemState) : bool * MemState :=
  if cas_applies (sc_data (cell m)) (sc_rev (cell m)) key expected_rev then (true, mem_put key v m) else (false, m).

Definition mem_begin (m : MemState) : nat * MemState :=
  (length (pending m), mk_mem (cell m) (pending m ++ [sc_data (cell m)])).

(** ** Transactions *)

Definition tx_mem_get (n : nat) (key : string) (m : MemState) : option FeelValue := pending_of n m !! key.

Definition tx_mem_put (n : nat) (key : string) (v : FeelValue) (m : MemState) : MemState :=
  mk_mem (cell m) (alter (λ p, <[key := v]> p) n (pending m)).

Definition tx_mem_delete (n : nat) (key : string) (m : MemState) : MemState :=
  mk_mem (cell m) (alter (λ p, delete key p) n (pending m)).

Definition tx_mem_put_if_revision (n : nat) (key : string) (v : FeelValue) (expected_rev : Z) (m : MemState)
    : bool * MemState :=
  if cas_applies (pending_of n m) (sc_rev (cell m)) key expected_rev then (true, tx_mem_put n key v m) else (false, m).

Definition tx_mem_commit (n : nat) (m : MemState) : MemState :=
  set_cell (mk_store_cell (pending_of n m) (sc_rev (cell m) + 1)) m.

Definition tx_mem_rollback (n : nat) (m : MemState) : MemState := m.

(** ** The interfaces *)

Definition returns {A} (f : MemState → A) : Io MemState A := λ m, (Ok (f m), m).
Definition does (f : MemState → MemState) : Io MemState unit := λ m, (Ok tt, f m).
Definition answers (f : MemState → bool * MemState) : Io MemState bool := λ m, let '(b, m) := f m in (Ok b, m).

Definition memory_tx (n : nat) : DataStoreTx MemState :=
  mk_store_tx (λ k, returns (tx_mem_get n k)) (λ k, returns (tx_mem_get n k)) (λ k, returns (mem_revision k))
    (λ k v, does (tx_mem_put n k v)) (λ k v r, answers (tx_mem_put_if_revision n k v r))
    (does (tx_mem_commit n)) (does (tx_mem_rollback n)).

Definition memory_store `{BigDecimalText, TimeText, BigDecimalOps} (name : string) : DataStore MemState :=
  mk_data_store name (λ k, returns (mem_get k)) (λ k v, does (mem_put k v))
    (λ k, returns (λ m, (mem_get k m, mem_revision k m))) (λ k v r, answers (mem_put_if_revision k v r))
    (λ m, let '(n, m) := mem_begin m in (Ok (Some (memory_tx n)), m))
    (λ q, returns (λ m, query_in_memory (map_to_list (sc_data (cell m))) q)).

(** ** Operation sequences *)

Inductive MemOp : Type :=
| OpPut (key : string) (v : FeelValue)
| OpDelete (key : string)
| OpPutIf (key : string) (v : FeelValue) (expected_rev : Z)
| OpBegin
| OpTxPut (n : nat) (key : string) (v : FeelValue)
| OpTxDelete (n : nat) (key : string)
| OpTxPutIf (n : nat) (key : string) (v : FeelValue) (expected_rev : Z)
| OpCommit (n : nat)
| OpRollback (n : nat).

Definition run_op (m : MemState) (op : MemOp) : MemState :=
  match op with
  | OpPut k v => mem_put k v m
  | OpDelete k => mem_delete k m
  | OpPutIf k v r => (mem_put_if_revision k v r m).2
  | OpBegin => (mem_begin m).2
  | OpTxPut n k v => tx_mem_put n k v m
  | OpTxDelete n k => tx_mem_delete n k m
  | OpTxPutIf n k v r => (tx_mem_put_if_revision n k v r m).2
  | OpCommit n => tx_mem_commit n m
  | OpRollback n => tx_mem_rollback n m
  end.

Definition run_ops : list MemOp → MemState → MemState := fold_left run_op.

(** ** Lemmas *)

Lemma run_op_rev op m : sc_rev (cell m) <= sc_rev (cell (run_op m op)).
Proof.
  destruct op; simpl; unfold tx_mem_rollback, mem_put_if_revision, tx_mem_put_if_revision; try case_if; simpl; lia.
Qed.

Lemma run_ops_rev ops m : sc_rev (cell m) <= sc_rev (cell (run_ops ops m)).
Proof.
  revert m. induction ops as [|op ops IH]; intros m; unfold run_ops in *; simpl; [lia|].
  pose proof (run_op_rev op m). specialize (IH (run_op m op)). lia.
Qed.

(** Compare-and-set has one winner: when a write that expects a revision
    applies, a later write that expects the same revision does not, whatever
    operations (of transactions too) run in between. *)
Theorem compare_and_set_has_one_winner m ops k1 v1 k2 v2 r :
  0 < r → (mem_put_if_revision k1 v1 r m).1 = true →
  mem_put_if_revision k2 v2 r (run_ops ops (mem_put_if_revision k1 v1 r m).2)
  = (false, run_ops ops (mem_put_if_revision k1 v1 r m).2).
Proof.
  intros Hr Hwin. unfold mem_put_if_revision in Hwin |- *.
  destruct (cas_applies (sc_data (cell m)) _ k1 r) eqn:E; [|done]. simpl.
  assert (sc_rev (cell m) = r) by (unfold cas_applies in E; destruct (r <=? 0) eqn:E0; zbool; lia).
  pose proof (run_ops_rev ops (mem_put k1 v1 m)) as Hmono. simpl in Hmono.
  unfold cas_applies. destruct (Z.leb_spec r 0); [lia|]. destruct (Z.eqb_spec r (sc_rev (cell (run_ops ops (mem_put k1 v1 m))))); [lia|done].
Qed.

Lemma compare_and_set_has_one_winner_witness :
  let m := mem_put "k" Null empty_mem in
  mem_put_if_revision "k" (Str "b") 1 (run_ops [OpDelete "x"; OpBegin] (mem_put_if_revision "k" (Str "a") 1 m).2)
  = (false, run_ops [OpDelete "x"; OpBegin] (mem_put_if_revision "k" (Str "a") 1 m).2).
Proof. intros m. apply (compare_and_set_has_one_winner m); [lia|reflexivity]. Defined.

(** *** Atomicity *)

(** A write of a transaction, on its own copy. *)
Inductive TxWrite : Type := TxPut (key : string) (v : FeelValue) | TxDelete (key : string).

Definition apply_write (p : gmap string FeelValue) (w : TxWrite) : gmap string FeelValue :=
  match w with TxPut k v => <[k := v]> p | TxDelete k => delete k p end.

Definition tx_write (n : nat) (m : MemState) (w : TxWrite) : MemState :=
  match w with TxPut k v => tx_mem_put n k v m | TxDelete k => tx_mem_delete n k m end.

Lemma tx_writes_pending n ws m : (n < length (pending m))%nat →
  cell (fold_left (tx_write n) ws m) = cell m
  ∧ pending_of n (fold_left (tx_write n) ws m) = fold_left apply_write ws (pending_of n m).
Proof.
  revert m. induction ws as [|w ws IH]; intros m Hn; [done|]. simpl.
  destruct (IH (tx_write n m w)) as [-> ->]; [destruct w; simpl; by rewrite length_alter|].
  destruct (lookup_lt_is_Some_2 _ _ Hn) as [p Hp].
  split; [by destruct w|]. f_equal. unfold pending_of. destruct w; simpl; by rewrite list_lookup_alter_eq, Hp.
Qed.

(** A transaction is atomic: nobody outside it sees a write before the commit,
    the commit publishes the writes in order on top of the contents it began with,
    and a rollback leaves the contents and the revision as they were. *)
Theorem memory_transaction_atomic (m : MemState) (ws : list TxWrite) :
  let '(n, begun) := mem_begin m in
  let written := fold_left (tx_write n) ws begun in
  cell written = cell m
  ∧ (∀ k, tx_mem_get n k written = fold_left apply_write ws (sc_data (cell m)) !! k)
  ∧ cell (tx_mem_commit n written)
    = mk_store_cell (fold_left apply_write ws (sc_data (cell m))) (sc_rev (cell m) + 1)
  ∧ cell (tx_mem_rollback n written) = cell m.
Proof.
  simpl. set (begun := mk_mem (cell m) (pending m ++ [sc_data (cell m)])).
  assert (Hn : (length (pending m) < length (pending begun))%nat) by (simpl; rewrite length_app; simpl; lia).
  destruct (tx_writes_pending _ ws begun Hn) as [Hc Hp].
  assert (Hb : pending_of (length (pending m)) begun = sc_data (cell m)).
  { unfold pending_of, begun. simpl. by rewrite list_lookup_middle. }
  rewrite Hb in Hp. split; [done|]. split; [intros k; unfold tx_mem_get; by rewrite Hp|].
  split; [|done]. unfold tx_mem_commit, set_cell. simpl. by rewrite Hp, Hc.
Qed.

(** *** Divergences *)

(** A delete does not count as a change: a reader that read a value at
    revision 1 still wins its compare-and-set after another instance deleted the
    key, and recreates it. *)
Theorem delete_keeps_revision :
  let m := mem_put "k" (Str "read") empty_mem in
  mem_get "k" m = Some (Str "read") ∧ mem_revision "k" m = 1
  ∧ mem_get "k" (mem_delete "k" m) = None
  ∧ (mem_put_if_revision "k" (Str "written") 1 (mem_delete "k" m)).1 = true.
Proof. vm_compute. repeat split. Qed.

(** A commit replaces the whole contents by the transaction's copy: an
    autocommit write of another key made while the transaction was open is gone
    after the commit. *)
Theorem commit_discards_concurrent_write :
  let '(n, m) := mem_begin empty_mem in
  let m := mem_put "other" (Str "written") m in
  let m := tx_mem_put n "own" (Str "tx") m in
  mem_get "other" m = Some (Str "written") ∧ mem_get "other" (tx_mem_commit n m) = None.
Proof. vm_compute. done. Qed.
