(* ===== verification/DataTasks.v ===== *)
(** * Declarative data tasks ([sutra-executor/src/executor.rs]: [run_data_task],
    [run_message_decode], [run_store_query], [tx_for] and their helpers)

    A data task runs its store reads, decodes, assignments and store writes in
    order, inside the open transaction of the scope when there is one.

    The stores behind it are those of [MemoryStore], whose theorems are about
    compare-and-set writes and transactions. *)
From Stdlib Require Import ZArith Lia Bool Ascii String.
From stdpp Require Import base list option gmap strings.
From S2P Require Import Prelude Texts Decimal FeelValue Temporal FeelText Timer ProcessModel Correlation Runtime.
From S2P Require Import ExecState AuditSnapshot Timers Outbound Tasks KeyQuery MemoryStore.

Open Scope string_scope.
Open Scope list_scope.
Open Scope Z_scope.

Definition store_op_failed (store key node_id op : string) (e : StoreError) : Signal :=
  fatal_diag RUNTIME_UNEXPECTED
    ("Data task '" +:+ node_id +:+ "' " +:+ op +:+ " on store '" +:+ store +:+ "'[" +:+ key +:+ "] failed: "
     +:+ store_message e).

Definition merge_field (write : StoreWrite) (value : FeelValue) (current : option FeelValue) : FeelValue :=
  match sw_field write with
  | None => value
  | Some field => Map (map_insert field value (match current with Some (Map m) => m | _ => [] end))
  end.

(** The key of [store_revs]. *)
Definition rev_key (store key : string) : string := store +:+ "#" +:+ key.

Definition expected_revision {X} (write : StoreWrite) (key : string) (s : ExecutionState X) : Z :=
  if sw_expect_absent write then 0 else default 0 (store_revs s !! rev_key (sw_store write) key).

Definition decode_failure (code node_id : string) (decode : MessageDecodeBinding) (detail : string)
    (process : ProcessDefinition) : Signal :=
  if is_caught process node_id code then BpmnError node_id code
  else fatal_diag code
    ("<q:decode name='" +:+ md_name decode +:+ "'> at data task '" +:+ node_id +:+ "' with codec '"
     +:+ md_codec decode +:+ "': " +:+ detail +:+ ". Catch " +:+ code +:+ " with an error boundary to route around it.").

Definition int_string (n : Z) : string := if n <? 0 then "-" +:+ dec_string (- n) else dec_string n.

Definition store_conflict (write : StoreWrite) (key : string) (expected_rev : Z) (node_id : string)
    (process : ProcessDefinition) : Signal :=
  let code := RUNTIME_DATASTORE_CONFLICT in
  if is_caught process node_id code then BpmnError node_id code
  else
    let detail := if sw_expect_absent write then "the key already exists (expect=" +:+ dq "absent" +:+ ")"
                  else "the value changed since it was read (expected revision " +:+ int_string expected_rev +:+ ")" in
    fatal_diag code
      ("Optimistic-concurrency conflict writing data store '" +:+ sw_store write +:+ "' key '" +:+ key
       +:+ "' at data task '" +:+ node_id +:+ "': " +:+ detail +:+ ". Retry the operation, or catch " +:+ code
       +:+ " with an error boundary.").

Section DataTasks.
Context `{Crates} {X : Type} (self : TokenExecutor X).

Definition as_store_key (value : FeelValue) (expr node_id : string) : result Signal string :=
  match value with
  | Null => Err (fatal_diag RUNTIME_UNEXPECTED
              ("Data task '" +:+ node_id +:+ "' store key expression '" +:+ expr +:+ "' evaluated to null."))
  | Str s => Ok s
  | other => Ok (canonical_string_of other)
  end.

Definition resolve_store (store_name node_id : string) : M X (DataStore X) :=
  deployment ← read s_deployment;
  let referenced := "Data task '" +:+ node_id +:+ "' references data store '" +:+ store_name +:+ "' " in
  match data_stores self with
  | None => raise (fatal_diag RUNTIME_UNEXPECTED
              (referenced +:+ "but no DataStoreRegistry is wired (TokenExecutor.Builder#withDataStores)."))
  | Some registry =>
      match registry deployment store_name with
      | Some store => mret store
      | None => raise (fatal_diag RUNTIME_UNEXPECTED
                  (referenced +:+ "which is not declared in deployment " +:+ dep_value deployment
                   +:+ " (datastores.yaml)."))
      end
  end.

(** The [expect] after the insertion is reached only inside a transaction. *)
Definition tx_for (store_name node_id : string) : M X (DataStoreTx X) :=
  opened ← read (λ s, txs ← store_tx s; (txs : gmap string (DataStoreTx X)) !! store_name);
  match opened with
  | Some tx => mret tx
  | None =>
      store ← resolve_store store_name node_id;
      begun ← io (ds_begin store) (store_op_failed store_name "" node_id "begin");
      match begun with
      | None => raise (fatal_diag RUNTIME_UNEXPECTED
                  ("Data store '" +:+ store_name +:+ "' does not support transactions (data task '" +:+ node_id
                   +:+ "' runs inside a <bpmn:transaction> scope)."))
      | Some tx =>
          in_tx ← read (λ s, is_some (store_tx s));
          if negb in_tx then panic
          else update (set_store_tx (fmap (insert store_name tx))) ;; mret tx
      end
  end.

(** ** Key queries *)

Definition query_refused {A} (id : string) (r : StoreRead) (m : string) : M X A :=
  raise (fatal_diag RUNTIME_DATASTORE_QUERY_INVALID
    ("Data task '" +:+ id +:+ "' key query on store '" +:+ sr_store r +:+ "': " +:+ m)).

Definition query_bound (id : string) (r : StoreRead) (vars : Variables) (expr what : string) : M X string :=
  v ← lift_fatal (value_evaluator self expr vars);
  match v with
  | Str s => mret s
  | other => query_refused id r (what +:+ " expression '" +:+ expr +:+ "' evaluated to " +:+ canonical_string_of other
               +:+ " — a key bound must be a string.")
  end.

Definition query_upper (id : string) (r : StoreRead) (q : StoreQuery) (vars : Variables) (lower : string)
    : M X (option string) :=
  match sq_mode q with
  | QueryPrefix =>
      if str_is_empty lower then
        query_refused id r "the prefix evaluated to the empty string, which would read the whole store."
      else mret (prefix_upper_bound lower)
  | QueryRange to_expression => upper ← query_bound id r vars to_expression "the @to"; mret (Some upper)
  end.

Definition query_after (id : string) (r : StoreRead) (q : StoreQuery) (vars : Variables) : M X (option string) :=
  match sq_after_expression q with
  | None => mret None
  | Some expr =>
      v ← lift_fatal (value_evaluator self expr vars);
      match v with
      | Null => mret None
      | Str s => mret (Some s)
      | other => query_refused id r ("@after expression '" +:+ expr +:+ "' evaluated to " +:+ canonical_string_of other
                   +:+ " — it must be a key (string) or null.")
      end
  end.

Definition aggregate_spec (a : StoreQueryAggregate) : StoreQueryAggregateSpec :=
  mk_aggregate_spec (split_char "." <$> ag_field a) (split_char "." <$> ag_group_by a).

Definition bad_rows (v : StoreAggregateValue) : Z :=
  match v with
  | Total cell => non_numeric cell
  | Grouped groups => foldr Z.add 0 (map (λ e, non_numeric e.2) groups)
  end.

Definition run_store_query (id : string) (r : StoreRead) (q : StoreQuery) (vars : Variables) : M X FeelValue :=
  lower ← query_bound id r vars (sr_key_expression r) "the key";
  upper ← query_upper id r q vars lower;
  after ← query_after id r q vars;
  let spec := mk_key_query lower upper after (if sq_rows q then Some (sq_limit q) else None)
                (map aggregate_spec (sq_aggregates q)) in
  store ← resolve_store (sr_store r) id;
  result ← io (ds_query store spec) (store_op_failed (sr_store r) lower id "key query");
  each (zip (sq_aggregates q) (qr_aggregates result)) (λ e,
    if 0 <? bad_rows e.2 then
      raise (fatal_diag RUNTIME_DATASTORE_QUERY_NOT_NUMERIC
        ("Data task '" +:+ id +:+ "' key query on store '" +:+ sr_store r +:+ "' sums field '"
         +:+ default "" (ag_field e.1) +:+ "', which holds a value that is not a number in "
         +:+ dec_string (bad_rows e.2)
         +:+ " matching row(s). A sum adds JSON numbers and decimal strings; a missing field or null is skipped."))
    else mret tt) ;;
  mret (query_result_value result).

(** ** The steps of a data task *)

Definition run_store_read (id : string) (r : StoreRead) : M X unit :=
  vars ← get_vars;
  match sr_query r with
  | Some query =>
      result ← run_store_query id r query vars;
      update_vars (var_insert (sr_target_var r) result)
  | None =>
      key_value ← lift_fatal (value_evaluator self (sr_key_expression r) vars);
      key ← lift (as_store_key key_value (sr_key_expression r) id);
      let failed := store_op_failed (sr_store r) key id "read" in
      in_tx ← read (λ s, is_some (store_tx s));
      found ← (if (in_tx : bool) then
                 tx ← tx_for (sr_store r) id;
                 value ← io (if sr_for_update r then tx_get_for_update tx key else tx_get tx key) failed;
                 rev ← io (tx_revision tx key) failed;
                 mret (value, rev)
               else
                 store ← resolve_store (sr_store r) id;
                 io (ds_get_with_revision store key) failed);
      update (set_store_revs (insert (rev_key (sr_store r) key) found.2)) ;;
      update_vars (var_insert (sr_target_var r) (default Null found.1))
  end.

Definition decode_code (kind : MessageDecodeFailureKind) : string :=
  match kind with DecodeTooLarge => RUNTIME_DECODE_TOO_LARGE | DecodeNotFound | DecodeFatal => RUNTIME_DECODE_FAILED end.

Definition decode_content_type (decode : MessageDecodeBinding) (vars : Variables) : result ExecError (option string) :=
  match md_content_type_expression decode with
  | None => Ok None
  | Some expression =>
      v ← value_evaluator self expression vars;
      Ok (match v with Str s => if str_is_empty (trim s) then None else Some s | _ => None end)
  end.

Definition run_message_decode (id : string) (decode : MessageDecodeBinding) : M X unit :=
  vars ← get_vars;
  process ← read s_process;
  deployment ← read s_deployment;
  input ← lift_fatal (value_evaluator self (md_expression decode) vars);
  match input with
  | Str text =>
      content_type ← lift_fatal (decode_content_type decode vars);
      match message_decode_seam self with
      | None => raise (decode_failure RUNTIME_DECODE_FAILED id decode "this engine has no codec registry wired" process)
      | Some seam =>
          outcome ← lift (map_err (λ f, decode_failure (decode_code (mf_kind f)) id decode (mf_detail f) process)
                            (seam deployment decode text content_type vars));
          update_vars (λ vars, match do_masked outcome with
            | Some masked => var_insert (md_name decode +:+ REDACTION_COMPANION_SUFFIX) masked vars
            | None => vars
            end) ;;
          update_vars (var_insert (md_name decode) (do_value outcome))
      end
  | _ => raise (decode_failure RUNTIME_DECODE_NOT_TEXT id decode
           ("expression '" +:+ md_expression decode +:+ "' did not give a string") process)
  end.

Definition run_assignment (assign : Assignment) : M X unit :=
  vars ← get_vars;
  value ← lift_fatal (value_evaluator self (as_expression assign) vars);
  update_vars (var_insert (as_target_var assign) value).

(** The write itself, through the store or its open transaction. *)
Definition put_value (id : string) (write : StoreWrite) (key : string) (to_store : FeelValue)
    (put : string → FeelValue → Io X unit) (put_if_revision : string → FeelValue → Z → Io X bool) : M X unit :=
  let failed := store_op_failed (sw_store write) key id "write" in
  if sw_expect_unchanged write || sw_expect_absent write then
    expected ← read (expected_revision write key);
    applied ← io (put_if_revision key to_store expected) failed;
    if (applied : bool) then mret tt
    else process ← read s_process; raise (store_conflict write key expected id process)
  else io (put key to_store) failed.

Definition run_store_write (id : string) (write : StoreWrite) : M X unit :=
  vars ← get_vars;
  key_value ← lift_fatal (value_evaluator self (sw_key_expression write) vars);
  key ← lift (as_store_key key_value (sw_key_expression write) id);
  let value := default Null (var_get (sw_value_var write) vars) in
  let failed := store_op_failed (sw_store write) key id "write" in
  in_tx ← read (λ s, is_some (store_tx s));
  if (in_tx : bool) then
    tx ← tx_for (sw_store write) id;
    current ← io (tx_get tx key) failed;
    put_value id write key (merge_field write value current) (tx_put tx) (tx_put_if_revision tx)
  else
    store ← resolve_store (sw_store write) id;
    current ← (if is_some (sw_field write) then io (ds_get store key) failed else mret None);
    put_value id write key (merge_field write value current) (ds_put store) (ds_put_if_revision store).

Definition run_data_task (id : string) (dm : DataMapping) : M X unit :=
  each (dm_store_reads dm) (run_store_read id) ;;
  each (dm_message_decodes dm) (run_message_decode id) ;;
  each (dm_assignments dm) run_assignment ;;
  each (dm_store_writes dm) (run_store_write id).

(** ** Ending a transaction *)

(** Commits every open transaction; the first failure is reported. *)
Fixpoint commit_all (txs : list (string * DataStoreTx X)) : M X (option string) :=
  match txs with
  | [] => mret None
  | (store, tx) :: rest =>
      r ← external (tx_commit tx);
      later ← commit_all rest;
      mret (match r with
            | Err e => Some ("commit of store '" +:+ store +:+ "' failed: " +:+ store_message e)
            | Ok _ => later
            end)
  end.

Definition commit_store_tx : M X (option string) :=
  txs ← read store_tx;
  update (set_store_tx (λ _, None)) ;;
  match txs with None => mret None | Some txs => commit_all (map_to_list txs) end.

Definition rollback_store_tx : M X unit :=
  txs ← read store_tx;
  update (set_store_tx (λ _, None)) ;;
  match txs with
  | None => mret tt
  | Some txs => each (map_to_list txs) (λ e, external (tx_rollback e.2) ;; mret tt)
  end.
End DataTasks.
