(* ===== verification/Scopes.v ===== *)
(** * Nested scopes, loops and handlers ([sutra-executor/src/executor.rs]: the
    sub-process runners, multi-instance and standard loops, error, escalation, link
    and compensation routing, the reconstruction walk)

    [run_node] calls these functions and they call it back: here it is the argument
    [rn], the node step one level of fuel down.  A sub-scope runs in a state of its
    own ([in_scope]); what the Rust code copies back to the parent is what [leave]
    writes. *)
From Stdlib Require Import ZArith Lia Bool Ascii String.
From stdpp Require Import base list option gmap strings.
From S2P Require Import Prelude Texts Decimal FeelValue Temporal FeelText Timer ProcessModel Correlation Runtime.
From S2P Require Import ExecState AuditSnapshot Gateways Timers Outbound Tasks KeyQuery MemoryStore DataTasks.

Open Scope string_scope.
Open Scope list_scope.
Open Scope Z_scope.

Section Scopes.
Context `{Crates} {X : Type} (self : TokenExecutor X).

(** ** Routing inside one scope *)

(** The escalation boundaries that catch [code]. *)
Definition escalation_boundaries (process : ProcessDefinition) (code : string) : list (string * bool) :=
  omap (λ n, match n with
             | BoundaryEvent id _ _ BoundaryEscalation _ escalation_code interrupting _ =>
                 if matches_code escalation_code code then Some (id, interrupting) else None
             | _ => None
             end) (process_nodes process).

Definition route_escalation (code : option string) : M X bool :=
  boundaries ← read (λ s, escalation_boundaries (s_process s) (default "" code));
  each boundaries (λ b, update (enqueue_outgoing b.1) ;; update (mark_visited b.1)) ;;
  mret (existsb snd boundaries).

Definition link_catch (process : ProcessDefinition) (link_name : string) : option string :=
  head (omap (λ n, match n with
                   | LinkCatchEvent id _ ln => if String.eqb ln link_name then Some id else None
                   | _ => None
                   end) (process_nodes process)).

Definition jump_to_link_catch (ite_id : string) (link_name : option string) : M X unit :=
  let link_name := default "" link_name in
  target ← read (λ s, link_catch (s_process s) link_name);
  match target with
  | Some id => update (set_work (λ w, w ++ [id]))
  | None =>
      instance_id ← read s_instance_id;
      raise (fatal_diag RUNTIME_UNEXPECTED
        ("Link throw " +:+ ite_id +:+ " on instance " +:+ instance_id +:+ " found no catch for link '" +:+ link_name
         +:+ "' at runtime (should have been caught at load)"))
  end.

Definition cancel_boundary (process : ProcessDefinition) (node_id : string) : option string :=
  head (omap (λ n, match n with
                   | BoundaryEvent id _ attached BoundaryCancel _ _ _ _ =>
                       if String.eqb attached node_id then Some id else None
                   | _ => None
                   end) (process_nodes process)).

Definition route_cancel_boundary (node_id : string) : M X unit :=
  boundary ← read (λ s, cancel_boundary (s_process s) node_id);
  match boundary with
  | Some b => update (enqueue_outgoing b) ;; update (mark_visited b)
  | None =>
      raise (fatal_diag RUNTIME_UNEXPECTED
        ("Transaction '" +:+ node_id +:+ "' was cancelled but has no attached cancel boundary event to route to. Attach a <bpmn:boundaryEvent><bpmn:cancelEventDefinition/> to the transaction."))
  end.

(** ** Compensation *)

(** [comp_by_activity]: a later boundary replaces an earlier one. *)
Definition compensation_handlers (process : ProcessDefinition) : gmap string string :=
  fold_left (λ m n, match n with
                    | BoundaryEvent id _ attached BoundaryCompensation _ _ _ _ => <[attached := id]> m
                    | _ => m
                    end) (process_nodes process) ∅.

Fixpoint compensation_loop (fuel : nat) (process : ProcessDefinition) (chain : list string) (seen : gset string)
    : M X unit :=
  match fuel with
  | O => no_fuel
  | S fuel =>
      match chain with
      | [] => mret tt
      | id :: chain =>
          if decide (id ∈ seen) then compensation_loop fuel process chain seen
          else
            let seen := {[id]} ∪ seen in
            let next := chain ++ map target_ref (outgoing process id) in
            node ← lift (map_err fatal (process_node process id));
            match node with
            | ServiceTask st_id _ implementation data_mapping params _ =>
                run_service_task self st_id implementation data_mapping params false ;;
                compensation_loop fuel process next seen
            | EndEvent _ _ => mret tt
            | _ => compensation_loop fuel process next seen
            end
      end
  end.

Definition run_compensation_chain (fuel : nat) (handler_id : string) : M X unit :=
  process ← read s_process;
  compensation_loop fuel process (map target_ref (outgoing process handler_id)) ∅.

Definition fire_compensation (fuel : nat) (only_activity : option string) : M X unit :=
  handlers ← read (λ s, compensation_handlers (s_process s));
  completed ← read (λ s, rev (completed_activities s));
  each completed (λ activity_id,
    if match only_activity with Some only => negb (String.eqb only activity_id) | None => false end then mret tt
    else
      match handlers !! activity_id with
      | None => mret tt
      | Some handler =>
          catch (run_compensation_chain fuel handler) (λ sig,
            match sig with
            | Fatal e => raise (fatal_diag RUNTIME_COMPENSATION_FAILED
                           ("Compensation for activity " +:+ activity_id +:+ " failed: " +:+ exec_message e))
            | other => raise other
            end)
      end).

(** ** Call activities: the callee *)

Fixpoint first_case (ca_id : string) (entries : list CaseEntry) (vars : Variables) : result Signal (option string) :=
  match entries with
  | [] => Ok None
  | c :: entries =>
      matched ← map_err (λ e, fatal_diag DISPATCH_FEEL_EVAL_FAILED
                  ("Evaluating <q:case when=" +:+ dq (ce_when c) +:+ "> on call activity " +:+ ca_id +:+ " failed: "
                   +:+ exec_message e)) (condition_evaluator self (ce_when c) vars);
      if (matched : bool) then Ok (Some (ce_called_element c)) else first_case ca_id entries vars
  end.

Definition choose_called_element (ca_id static_called_element : string) (bindings : NodeBindings)
    (process : ProcessDefinition) (vars : Variables) : result Signal (option string) :=
  match nb_dispatch bindings with
  | None => Ok (Some static_called_element)
  | Some dispatch =>
      chosen ← first_case ca_id (cases dispatch) vars;
      match or_else chosen (default_called_element dispatch), on_no_match dispatch with
      | Some called, _ => Ok (Some called)
      | None, NoMatchSkip => Ok None
      | None, NoMatchError =>
          Err (fatal_diag DISPATCH_NO_MATCH
            ("Call activity " +:+ ca_id +:+ " in process " +:+ process_id process
             +:+ ": no <q:case> @when matched and no <q:dispatch default=...> was set (onNoMatch=error)"))
      end
  end.

Definition resolve_sub_process (ca_id called_element : string) (deployment : DeploymentId)
    : result Signal (ProcessDefinition * DeploymentId) :=
  let not_found m := Err (fatal_diag DISPATCH_SUB_PROCESS_NOT_FOUND ("Call activity " +:+ ca_id +:+ m)) in
  match module_resolver self, is_resolved deployment with
  | Some resolver, true =>
      match resolver deployment called_element with
      | Some hit => Ok (hit, deployment)
      | None =>
          not_found (" calledElement '" +:+ called_element
            +:+ "' resolves to no process in the caller's deployment '" +:+ dep_value deployment
            +:+ "'. A bare calledElement must name a sibling process in the caller's own deployment; to call across modules, import the target and qualify it with the module's namespace.")
      end
  | _, _ =>
      anywhere ← match process_resolver self with
                 | Some resolver => map_err Fatal (resolver called_element)
                 | None => Ok None
                 end;
      match anywhere with
      | Some resolved => Ok (resolved, unresolved)
      | None => not_found (" selected calledElement=" +:+ called_element +:+ " but no process with that id is registered")
      end
  end.

(** ** Sub-scopes *)

(** [ExecutionState::new(inner, parent.deployment, …)]. *)
Definition sub_state (inner : ProcessDefinition) (parent : ExecutionState X) : ExecutionState X :=
  new_state inner (s_deployment parent) (s_labels parent) (s_instance_id parent).

(** [parent.visited.extend(sub_state.visited.drain())]. *)
Definition keep_visited (sub parent : ExecutionState X) : ExecutionState X :=
  set_visited (λ v, v ∪ visited sub) parent.

(** [parent.store_tx = sub_state.store_tx.take()]. *)
Definition keep_store_tx (sub parent : ExecutionState X) : ExecutionState X :=
  set_store_tx (λ _, store_tx sub) (keep_visited sub parent).

Definition seed_start (inner : ProcessDefinition) : M X unit :=
  start ← lift (map_err fatal (start_event inner));
  update (set_work (λ w, w ++ [node_id start])).

Section Recursion.
(** [run_node], and the fuel of the loops of this level. *)
Variable rn : string → M X unit.
Variable fuel : nat.

(** One item of a worklist: a BPMN error goes to the handler. *)
Definition scope_step (on_error : string → string → M X unit) (id : string) : M X unit :=
  catch (rn id) (λ sig, match sig with
                        | BpmnError source code => on_error source code
                        | other => raise other
                        end).

(** The handler of a nested scope: what nothing in it catches is raised on its node. *)
Definition nested_error (inner : ProcessDefinition) (own_id : string) (route : string → string → M X unit)
    (source code : string) : M X unit :=
  if is_caught inner source code then route source code else raise (BpmnError own_id code).

Definition run_event_sub_process (route : string → string → M X unit) (esp_id : string) (inner : ProcessDefinition)
    : M X unit :=
  ended ← in_scope (λ parent, set_store_tx (λ _, store_tx parent) (sub_state inner parent))
            (seed_start inner ;;
             drain fuel (scope_step (nested_error inner esp_id route)) ;;
             read (λ s, if reached_end s then Some (end_outputs s) else None))
            keep_store_tx;
  match ended with
  | Some outputs => update (set_reached_end (λ _, true)) ;; update (set_end_outputs (λ _, outputs))
  | None => mret tt
  end.

(** Event sub-processes nest: [depth] bounds how deep an error can be routed. *)
Fixpoint route_error (depth : nat) (source code : string) : M X unit :=
  process ← read s_process;
  match find_error_boundary process source code with
  | Some boundary_id =>
      update (enqueue_outgoing boundary_id) ;;
      update (complete_activity boundary_id) ;;
      update (mark_visited boundary_id)
  | None =>
      update (set_work (λ _, [])) ;;
      match find_error_event_sub_process process code with
      | None => raise (fatal_diag RUNTIME_ERROR_UNCAUGHT (uncaught_message source code))
      | Some esp_id =>
          node ← lift (map_err fatal (process_node process esp_id));
          match node, depth with
          | EventSubProcess _ _ inner _ _, S depth => run_event_sub_process (route_error depth) esp_id inner
          | EventSubProcess _ _ _ _ _, O => no_fuel
          | _, _ => panic
          end
      end
  end.

(** The worklist of a scope whose uncaught errors end it. *)
Definition run_worklist : M X unit := drain fuel (scope_step (route_error fuel)).

Definition run_sub_process_inline (sub : ProcessDefinition) (sub_deployment : DeploymentId) : M X unit :=
  in_scope (λ parent, new_state sub sub_deployment (s_labels parent) (s_instance_id parent))
    (seed_start sub ;; run_worklist)
    (λ _ parent, parent).

Definition run_call_activity (id called_element : string) : M X unit :=
  process ← read s_process;
  deployment ← read s_deployment;
  let bindings := bindings_for process id in
  vars ← get_vars;
  outcome ← lift (choose_called_element id called_element bindings process vars);
  match outcome with
  | None =>
      event ← read (λ s, mk_dispatch_event (s_deployment s) (s_labels s) (s_instance_id s) id
                           (d ← nb_dispatch bindings; default_called_element d));
      notify (OnDispatchSkipped event)
  | Some selected =>
      target ← lift (resolve_sub_process id selected deployment);
      run_sub_process_inline target.1 target.2
  end.

Definition run_embedded_sub_process (sp_id : string) (inner : ProcessDefinition) : M X unit :=
  in_scope (λ parent, set_retry_parkable (λ _, false) (sub_state inner parent))
    (seed_start inner ;; drain fuel (scope_step (nested_error inner sp_id (route_error fuel))))
    keep_visited.

(** The worklist of a transaction: [true] when a cancel end event was reached. *)
Fixpoint transaction_loop (n : nat) (inner : ProcessDefinition) (tsp_id : string) : M X bool :=
  match n with
  | O => no_fuel
  | S n =>
      q ← read work;
      match q with
      | [] => mret false
      | id :: rest =>
          update (set_work (λ _, rest)) ;;
          r ← attempt (rn id);
          match r with
          | Ok _ => transaction_loop n inner tsp_id
          | Err TxCancel => update (set_work (λ _, [])) ;; mret true
          | Err (BpmnError source code) =>
              nested_error inner tsp_id (route_error fuel) source code ;; transaction_loop n inner tsp_id
          | Err other => raise other
          end
      end
  end.

Definition run_transaction_body (tsp_id : string) (inner : ProcessDefinition) : M X bool :=
  seed_start inner ;;
  cancelled ← transaction_loop fuel inner tsp_id;
  if (cancelled : bool) then fire_compensation fuel None ;; mret true
  else
    failed ← commit_store_tx;
    match failed with
    | Some err => raise (fatal_diag RUNTIME_UNEXPECTED ("<bpmn:transaction> '" +:+ tsp_id +:+ "' data-store " +:+ err))
    | None => mret false
    end.

Definition run_transaction_sub_process (tsp_id : string) (inner : ProcessDefinition) : M X bool :=
  in_scope (λ parent, set_store_tx (λ _, Some ∅) (sub_state inner parent))
    (r ← attempt (run_transaction_body tsp_id inner);
     rollback_store_tx ;;
     lift r)
    keep_visited.

(** ** Ad-hoc sub-processes *)

Definition is_ad_hoc_activity (n : Node) : bool :=
  match n with
  | ServiceTask _ _ _ _ _ _ | DataTask _ _ _ | ScriptTask _ _ _ | BusinessRuleTask _ _ _ | SendTask _ _
  | ManualTask _ _ _ | CallActivity _ _ _ _ => true
  | _ => false
  end.

Definition run_ad_hoc_activity (activity : Node) : M X unit :=
  match activity with
  | ServiceTask id _ implementation data_mapping params _ =>
      run_service_task self id implementation data_mapping params false ;;
      update (complete_activity id) ;;
      emit_reply_if_bound self id ;;
      emit_send_if_bound self id false
  | DataTask id _ data_mapping =>
      run_data_task self id data_mapping ;;
      update (complete_activity id) ;;
      emit_reply_if_bound self id
  | ScriptTask id _ script_file => run_script_task self id script_file ;; update (complete_activity id)
  | BusinessRuleTask id _ decision_file => run_business_rule_task self id decision_file ;; update (complete_activity id)
  | SendTask id _ => update (complete_activity id) ;; emit_send_if_bound self id true
  | ManualTask id _ _ => update (complete_activity id)
  | CallActivity id _ called_element _ => run_call_activity id called_element ;; update (complete_activity id)
  | other =>
      raise (fatal_diag RUNTIME_UNEXPECTED
        ("Ad-hoc sub-process activity '" +:+ node_id other +:+ "' of type " +:+ node_type other
         +:+ " is not a runnable task activity."))
  end.

(** A completion condition, its failure reported by [failed]. *)
Definition completed_by (condition : option string) (failed : string → ExecError → Signal) : M X bool :=
  match condition with
  | None => mret false
  | Some expr => vars ← get_vars; lift (map_err (failed expr) (condition_evaluator self expr vars))
  end.

Fixpoint ad_hoc_loop (completion_condition : option string) (activities : list Node) : M X unit :=
  match activities with
  | [] => mret tt
  | activity :: rest =>
      if negb (is_ad_hoc_activity activity) then ad_hoc_loop completion_condition rest
      else
        run_ad_hoc_activity activity ;;
        finished ← completed_by completion_condition (λ expr e, fatal_diag RUNTIME_ADHOC_COMPLETION_FAILED
          ("Ad-hoc sub-process completionCondition '" +:+ expr +:+ "' failed: " +:+ exec_message e));
        if (finished : bool) then mret tt else ad_hoc_loop completion_condition rest
  end.

Definition run_ad_hoc_sub_process (inner : ProcessDefinition) (completion_condition : option string) : M X unit :=
  in_scope (λ parent, set_store_tx (λ _, store_tx parent) (sub_state inner parent))
    (ad_hoc_loop completion_condition (process_nodes inner))
    keep_store_tx.

(** ** Multi-instance and standard loops *)

Definition resolve_cardinality (id : string) (loop_cardinality : option string) (vars : Variables) : result Signal Z :=
  match loop_cardinality with
  | None => Ok 0
  | Some expr =>
      match parse_unsigned u64_max (trim expr) with
      | Some n => Ok n
      | None =>
          let number := match var_get (trim expr) vars with Some (Number n) => bd_to_i64 n | _ => None end in
          match number with
          | Some v => Ok (Z.max v 0)
          | None => Err (fatal_diag RUNTIME_UNEXPECTED
                      ("Multi-instance " +:+ id +:+ " loopCardinality '" +:+ expr +:+ "' is not an integer"))
          end
      end
  end.

Definition resolve_collection (id : string) (loop_data_input_ref : option string) (vars : Variables)
    : result Signal (option (list FeelValue)) :=
  match loop_data_input_ref with
  | None => Ok None
  | Some expression =>
      let about m := fatal_diag RUNTIME_UNEXPECTED
        ("Multi-instance " +:+ id +:+ " loopDataInputRef '" +:+ expression +:+ "' " +:+ m) in
      value ← match (if is_bare_identifier expression then var_get expression vars else None) with
              | Some value => Ok value
              | None => map_err (λ e, about ("could not be evaluated: " +:+ exec_message e))
                          (value_evaluator self expression vars)
              end;
      match value with
      | List items => Ok (Some items)
      | Null => Err (about "resolved to nothing. A loop over an absent collection would silently iterate zero times and report success, so it is refused: check the name, and that nothing dropped the value (a @transient variable does not survive a park).")
      | _ => Err (about "is not a collection")
      end
  end.

Definition execute_inner (inner : Node) : M X unit :=
  match inner with
  | ServiceTask id _ implementation data_mapping params _ =>
      run_service_task self id implementation data_mapping params false ;; mret tt
  | ScriptTask id _ script_file => run_script_task self id script_file
  | ManualTask _ _ _ => mret tt
  | CallActivity id _ called_element _ => run_call_activity id called_element
  | SubProcess id _ inner => run_embedded_sub_process id inner
  | other =>
      raise (fatal_diag RUNTIME_UNEXPECTED
        ("Multi-instance inner node " +:+ node_id other +:+ " of type " +:+ node_type other +:+ " is not supported"))
  end.

Definition set_loop_counter (i : Z) : M X unit := update_vars (var_insert LOOP_COUNTER_VARIABLE (feel_int i)).

(** One iteration per item; [None] when the loop counts without a collection. *)
Fixpoint multi_instance_loop (id : string) (inner : Node) (item_var : string) (completion_condition : option string)
    (items : list (option FeelValue)) (i : Z) : M X unit :=
  match items with
  | [] => mret tt
  | item :: items =>
      update_vars (λ vars, match item with
                           | Some v => if is_null v then vars else var_insert item_var v vars
                           | None => vars
                           end) ;;
      set_loop_counter i ;;
      execute_inner inner ;;
      finished ← completed_by completion_condition (λ expr e, fatal_diag RUNTIME_MULTI_INSTANCE_COMPLETION_FAILED
        ("Multi-instance " +:+ id +:+ " completionCondition '" +:+ expr +:+ "' failed: " +:+ exec_message e));
      if (finished : bool) then mret tt else multi_instance_loop id inner item_var completion_condition items (i + 1)
  end.

Definition run_multi_instance (id : string) (inner : Node) (loop_cardinality loop_data_input_ref input_data_item
    completion_condition : option string) : M X unit :=
  vars ← get_vars;
  cardinality ← lift (resolve_cardinality id loop_cardinality vars);
  collection ← lift (resolve_collection id loop_data_input_ref vars);
  let items := match collection with
               | Some c => map Some c
               | None => replicate (Z.to_nat cardinality) None
               end in
  multi_instance_loop id inner (default DEFAULT_LOOP_ITEM_VARIABLE input_data_item) completion_condition items 0.

Definition loop_continues (id : string) (loop_condition : option string) : M X bool :=
  completed_by loop_condition (λ expr e, fatal_diag RUNTIME_UNEXPECTED
    ("StandardLoop " +:+ id +:+ " loopCondition '" +:+ expr +:+ "' failed: " +:+ exec_message e)).

(** [i < max && self.loop_continues(…)?]. *)
Definition loop_again (id : string) (loop_condition : option string) (max i : Z) : M X bool :=
  if i <? max then loop_continues id loop_condition else mret false.

Fixpoint standard_loop (n : nat) (id : string) (inner : Node) (loop_condition : option string) (max i : Z)
    (again : bool) : M X unit :=
  match n with
  | O => no_fuel
  | S n =>
      if again then
        set_loop_counter i ;;
        execute_inner inner ;;
        more ← loop_again id loop_condition max (i + 1);
        standard_loop n id inner loop_condition max (i + 1) more
      else mret tt
  end.

Definition run_standard_loop (id : string) (inner : Node) (loop_condition : option string) (test_before : bool)
    (loop_maximum : option Z) : M X unit :=
  let max := default i64_max loop_maximum in
  first ← (if test_before then loop_again id loop_condition max 0 else mret true);
  standard_loop fuel id inner loop_condition max 0 first.
End Recursion.

(** ** The reconstruction walk *)

(** The error boundaries of a node that a token left through. *)
Definition caught_boundaries (node_id : string) (s : ExecutionState X) : list string :=
  omap (λ n, match n with
             | BoundaryEvent id _ attached BoundaryError _ _ _ _ =>
                 if String.eqb attached node_id && bool_decide (id ∈ prior_completed s) then Some id else None
             | _ => None
             end) (process_nodes (s_process s)).

Definition is_entry (id : string) (s : ExecutionState X) : bool := bool_decide (resume_entry s = Some id).
Definition on_prior_frontier (id : string) (s : ExecutionState X) : bool := bool_decide (id ∈ prior_waiting s).

(** An arm of a decided race. *)
Definition arm_completed (s : ExecutionState X) (flow : SequenceFlow) : bool :=
  bool_decide (target_ref flow ∈ prior_completed s) && negb (on_prior_frontier (target_ref flow) s)
  && negb (is_entry (target_ref flow) s).

Definition ghost_leave (id : string) : M X bool :=
  update (mark_visited id) ;; mret true.

Definition ghost_step (id : string) (node : Node) : M X bool :=
  dropped ← read (λ s, is_entry id s || on_prior_frontier id s);
  if (dropped : bool) then mret true
  else
    match node with
    | ExclusiveGateway _ _ _ | InclusiveGateway _ _ _ | ParallelGateway _ _ | ComplexGateway _ _ _ _ => mret false
    | EventBasedGateway gw_id _ =>
        update (λ s, fire_all (List.filter (arm_completed s) (outgoing (s_process s) gw_id)) s) ;; ghost_leave id
    | IntermediateThrowEvent ite_id _ ThrowLink _ reference => jump_to_link_catch ite_id reference ;; ghost_leave id
    | StartEvent _ _ _ _ | LinkCatchEvent _ _ _ | BoundaryEvent _ _ _ _ _ _ _ _ | IntermediateThrowEvent _ _ _ _ _ =>
        update (enqueue_outgoing id) ;; ghost_leave id
    | _ =>
        caught ← read (caught_boundaries id);
        left_ ← read (λ s, bool_decide (id ∈ prior_completed s));
        if negb left_ && is_nil caught then mret true
        else
          (if (left_ : bool) then update (enqueue_outgoing id) else mret tt) ;;
          each caught (λ boundary, update (enqueue_outgoing boundary)) ;;
          ghost_leave id
    end.
End Scopes.
