(* ===== verification/Executor.v ===== *)
(** * The token executor ([sutra-executor/src/executor.rs]: [run_node],
    [run_to_quiescence], [drive_stateful], [execute_sync_from_correlated],
    [execute_stateful_from_correlated], [mark_coverage])

    [run_node] takes one token at one node.  Its recursion through sub-processes and
    call activities is on fuel; [OutOfFuel] is an outcome of its own.

    The theorems about whole passes are in [StepRelation], [Passes] and [Fuel]. *)
From Stdlib Require Import ZArith Lia Bool Ascii String.
From stdpp Require Import base list option gmap strings.
From S2P Require Import Prelude Decimal FeelValue Temporal FeelText Timer ProcessModel Correlation Runtime.
From S2P Require Import ExecState AuditSnapshot Gateways Timers Outbound Tasks KeyQuery MemoryStore DataTasks Scopes.

Open Scope string_scope.
Open Scope list_scope.
Open Scope Z_scope.

Section Executor.
Context `{Crates} {X : Type} (self : TokenExecutor X).

(** ** Node dispatch *)

Definition finish_activity (id : string) : M X bool :=
  update (complete_activity id) ;; update (enqueue_outgoing id) ;; mret false.

Definition run_service_node (id implementation : string) (dm : DataMapping) (params : list ParamBinding) : M X bool :=
  parkable ← read retry_parkable;
  retry_parked ← run_service_task self id implementation dm params parkable;
  if (retry_parked : bool) then mret true
  else
    update (complete_activity id) ;;
    emit_reply_if_bound self id ;;
    emit_send_if_bound self id false ;;
    continues ← read (λ s, has_continue_reply (s_process s) id);
    if (continues : bool) then
      update (park_fresh id) ;;
      now ← external (now_supplier self);
      record_timer_wait id now ;;
      update (set_detached_reply (λ _, true)) ;;
      mret true
    else update (enqueue_outgoing id) ;; mret false.

(** A user task, message catch or receive task: what parks on an event. *)
Definition run_wait_node (id : string) : M X bool :=
  fired ← read (fired_timer_for id);
  match fired with
  | Some f =>
      update (set_fired_timer (λ _, None)) ;;
      if ft_interrupting f then route_timer_boundary (boundary_id f) id ;; mret false
      else
        route_non_interrupting_boundary (boundary_id f) ;;
        update (park_again id) ;;
        rearm_fired_boundary self f ;;
        mret true
  | None =>
      update (park_fresh id) ;;
      schedule_timer_boundaries self id ;;
      mret true
  end.

Definition arm_race (flow : SequenceFlow) : M X unit :=
  let target := target_ref flow in
  update (park_fresh target) ;;
  node ← read (λ s, process_node (s_process s) target);
  match node with
  | Ok (TimerCatchEvent _ _ timer) =>
      due_at ← compute_due_at self timer target;
      record_timer_wait target due_at
  | _ => mret tt
  end.

Definition reach_end (id : string) (terminate : bool) : M X bool :=
  emit_reply_if_bound self id ;;
  update (λ s, if terminate then set_work (λ _, []) s else s) ;;
  vars ← get_vars;
  update (set_reached_end (λ _, true)) ;;
  update (set_end_outputs (λ _, vars)) ;;
  mret false.

(** The [match node] of [run_node]: [true] when the token does not leave. *)
Definition dispatch_node (rn : string → M X unit) (fuel : nat) (id : string) (node : Node) (token : TokenEvent)
    : M X bool :=
  match node with
  | StartEvent _ _ _ _ | LinkCatchEvent _ _ _ | BoundaryEvent _ _ _ _ _ _ _ _ =>
      update (enqueue_outgoing id) ;; mret false
  | ServiceTask st_id _ implementation data_mapping params _ =>
      if starts_with CHANNEL_CALL_PREFIX implementation
      then run_channel_call self st_id implementation data_mapping params
      else run_service_node st_id implementation data_mapping params
  | DataTask dt_id _ data_mapping =>
      run_data_task self dt_id data_mapping ;;
      update (complete_activity dt_id) ;;
      emit_reply_if_bound self dt_id ;;
      update (enqueue_outgoing id) ;; mret false
  | ScriptTask st_id _ script_file => run_script_task self st_id script_file ;; finish_activity id
  | BusinessRuleTask br_id _ decision_file => run_business_rule_task self br_id decision_file ;; finish_activity id
  | ManualTask _ _ _ => finish_activity id
  | SendTask st_id _ =>
      update (complete_activity st_id) ;;
      emit_send_if_bound self st_id true ;;
      update (enqueue_outgoing id) ;; mret false
  | UserTask w_id _ _ | MessageCatchEvent w_id _ _ _ | ReceiveTask w_id _ _ _ => run_wait_node w_id
  | TimerCatchEvent tc_id _ timer =>
      update (park_fresh tc_id) ;;
      due_at ← compute_due_at self timer tc_id;
      record_timer_wait tc_id due_at ;;
      mret true
  | ExclusiveGateway gw_id _ default_flow_id => handle_exclusive self gw_id default_flow_id ;; mret false
  | InclusiveGateway gw_id _ default_flow_id => handle_inclusive self gw_id default_flow_id token
  | ParallelGateway gw_id _ => handle_parallel gw_id token
  | ComplexGateway gw_id _ default_flow_id activation_condition =>
      handle_complex self gw_id default_flow_id activation_condition token
  | CallActivity ca_id _ called_element _ => run_call_activity self rn fuel ca_id called_element ;; finish_activity id
  | SubProcess sp_id _ inner => run_embedded_sub_process rn fuel sp_id inner ;; finish_activity id
  | TransactionSubProcess tsp_id _ inner =>
      cancelled ← run_transaction_sub_process self rn fuel tsp_id inner;
      update (complete_activity tsp_id) ;;
      if (cancelled : bool) then route_cancel_boundary tsp_id ;; mret false
      else emit_reply_if_bound self tsp_id ;; update (enqueue_outgoing id) ;; mret false
  | AdHocSubProcess _ _ inner completion_condition _ =>
      run_ad_hoc_sub_process self rn fuel inner completion_condition ;; finish_activity id
  | EventSubProcess _ _ _ _ _ => mret true
  | MultiInstance mi_id _ inner _ loop_cardinality loop_data_input_ref input_data_item completion_condition =>
      run_multi_instance self rn fuel mi_id inner loop_cardinality loop_data_input_ref input_data_item
        completion_condition ;;
      finish_activity id
  | StandardLoop sl_id _ inner loop_condition test_before loop_maximum =>
      run_standard_loop self rn fuel sl_id inner loop_condition test_before loop_maximum ;; finish_activity id
  | IntermediateThrowEvent ite_id _ kind activity_ref reference =>
      match kind with
      | ThrowCompensate => fire_compensation self fuel activity_ref ;; update (enqueue_outgoing id) ;; mret false
      | ThrowMessage => emit_send_if_bound self ite_id true ;; update (enqueue_outgoing id) ;; mret false
      | ThrowSignal => emit_send_if_bound self ite_id false ;; update (enqueue_outgoing id) ;; mret false
      | ThrowEscalation =>
          interrupting_caught ← route_escalation reference;
          (if (interrupting_caught : bool) then mret tt else update (enqueue_outgoing id)) ;; mret false
      | ThrowLink => jump_to_link_catch ite_id reference ;; mret false
      | ThrowNone => update (enqueue_outgoing id) ;; mret false
      end
  | EventBasedGateway gw_id _ =>
      arms ← read (λ s, outgoing (s_process s) gw_id);
      each arms arm_race ;; mret true
  | ErrorEvent e_id _ error_code => raise (BpmnError e_id (default "" error_code))
  | EndEvent e_id _ => reach_end e_id false
  | TerminateEndEvent e_id _ => reach_end e_id true
  | CancelEndEvent _ _ => raise TxCancel
  end.

Definition live_step (rn : string → M X unit) (fuel : nat) (id : string) (node : Node) : M X unit :=
  vars ← get_vars;
  token ← read (token_event self id (node_type node) vars);
  quiet ← read ghost;
  (if (quiet : bool) then mret tt else notify (OnTokenEntered token)) ;;
  left_handled ← dispatch_node rn fuel id node token;
  if (left_handled : bool) then mret tt
  else
    (if (quiet : bool) then mret tt else notify (OnTokenLeft token)) ;;
    update (mark_visited id).

Definition node_step (rn : string → M X unit) (fuel : nat) (id : string) : M X unit :=
  found ← read (λ s, process_node (s_process s) id);
  node ← lift (map_err fatal found);
  is_ghost ← read ghost;
  handled ← (if (is_ghost : bool) then ghost_step id node else mret false);
  if (handled : bool) then mret tt else live_step rn fuel id node.

Fixpoint run_node (fuel : nat) (id : string) : M X unit :=
  match fuel with
  | O => no_fuel
  | S fuel => node_step (run_node fuel) fuel id
  end.

Definition run_to_quiescence (fuel : nat) : M X unit := run_worklist (run_node fuel) fuel.

(** ** Coverage marking *)

Definition mark_path (store : CoverageMetricStore X) (event : InstanceEvent) (path : CoveragePath) : M X unit :=
  progress ← read (λ s, default 0%nat (path_progress s !! cp_id path));
  if negb (progress =? length (cp_flows path))%nat then mret tt
  else
    deployment_id ← read (λ s, dep_value (s_deployment s));
    match split_injected_sub_path (cp_id path) with
    | Some (route_urn, segment_process) =>
        fragment ← read (λ s, mk_fragment route_urn segment_process (s_instance_id s)
                                (co_business_key (correlation s)) (co_trace_id (correlation s)));
        external (write_fragment store deployment_id fragment) ;; mret tt
    | None =>
        r ← external (mark_path_covered store deployment_id (cp_id path));
        match r with
        | Ok true => notify (OnPathCovered event (cp_id path))
        | _ => mret tt
        end
    end.

Definition mark_coverage (event : InstanceEvent) : M X unit :=
  paths ← read (λ s, coverage_paths (s_process s));
  match coverage_metric_store self with
  | None => mret tt
  | Some store => each paths (mark_path store event)
  end.

(** ** A pass *)

Record Suspension : Type := mk_suspension {
  su_instance_id : string; waiting_nodes : list string; completed_nodes : list string;
  su_variables : Variables; start_node : option string; su_timer_waits : list TimerWait;
  su_detached_reply : bool; su_coverage_progress : gmap string Z; su_retry_attempts : gmap string Z;
  su_retry_backoff : gmap string string; su_fresh_waits : list string }.

Inductive StatefulExecResult : Type :=
| Completed (instance_id : string) (outputs : Variables) (visited_nodes : gset string)
| Suspended (snapshot : Suspension).

Record ExecResult : Type := mk_exec_result {
  er_instance_id : string; er_outputs : Variables; er_visited_nodes : gset string }.

Definition event_now (event : InstanceEvent) : M X InstanceEvent :=
  vars ← get_vars; read (λ s, instance_event_now self event (s_process s) vars).

Definition fail_instance {A} (event : InstanceEvent) (e : ExecError) : M X A :=
  failed ← event_now event;
  notify (OnInstanceFailed failed (to_diagnostic e)) ;;
  raise (Fatal e).

Definition complete_instance {A} (event : InstanceEvent) (result : ExecutionState X → A) : M X A :=
  mark_coverage event ;;
  completed ← event_now event;
  notify (OnInstanceCompleted completed) ;;
  read result.

(** The nodes done before the pass and in it, each once. *)
Definition union_completed (s : ExecutionState X) : list string :=
  fold_left (λ l id, push_new id l) (completed_activities s) (prior_completed_ordered s).

Definition non_blank (start_node : option string) : option string :=
  s ← start_node; if str_is_empty (trim s) then None else Some s.

Definition suspension (start_node : option string) (vars : Variables) (s : ExecutionState X) : Suspension :=
  mk_suspension (s_instance_id s) (waiting s) (union_completed s) vars (non_blank start_node) (timer_waits s)
    (detached_reply s) (coverage_progress s) (retry_attempts s) (retry_backoff s) (fresh_waits s).

Definition drive_stateful (fuel : nat) (event : InstanceEvent) (start_node : option string)
    : M X StatefulExecResult :=
  outcome ← attempt (run_to_quiescence fuel);
  match outcome with
  | Err signal => e ← read (signal_to_error signal); fail_instance event e
  | Ok _ =>
      parked ← read waiting;
      if negb (is_nil parked) then
        suspended ← event_now event;
        notify (OnInstanceSuspended suspended) ;;
        vars ← get_vars;
        read (λ s, Suspended (suspension start_node vars s))
      else
        ended ← read reached_end;
        if negb ended then
          process ← read s_process;
          fail_instance event (diag RUNTIME_UNEXPECTED
            ("Process " +:+ process_id process +:+ " neither reached an end event nor suspended at a wait state"))
        else complete_instance event (λ s, Completed (s_instance_id s) (end_outputs s) (visited s))
  end.

(** The node a pass starts at. *)
Definition start_of (process : ProcessDefinition) (start_node : option string) : M X string :=
  match non_blank start_node with
  | Some s => mret s
  | None => start ← lift (map_err fatal (start_event process)); mret (node_id start)
  end.

(** Run a pass of a fresh instance context: its outcome, and the world it leaves. *)
Definition pass {A} (m : M X A) (process : ProcessDefinition) (instance_id : string) (variables : Variables)
    (deployment : DeploymentId) (labels : Labels) (corr : CoverageCorrelation) (x : X)
    : result (fault ExecError) A * World X :=
  let ctx := mk_ctx deployment labels instance_id (process_id process) "" false variables in
  let s := set_correlation (λ _, corr) (new_state process deployment labels instance_id) in
  let '(r, w, s) := m (mk_world ctx [] [] x) s in
  (map_fault (λ signal, signal_to_error signal s) r, w).

Definition begin_pass (process : ProcessDefinition) (variables : Variables) (deployment : DeploymentId)
    (labels : Labels) (instance_id : string) (start_node : option string) : M X InstanceEvent :=
  let event := instance_event self process deployment labels instance_id variables in
  notify (OnInstanceStarted event) ;;
  start ← start_of process start_node;
  update (set_work (λ w, w ++ [start])) ;;
  mret event.

Definition execute_stateful_from_correlated (fuel : nat) (process : ProcessDefinition)
    (initial_variables : Variables) (deployment : DeploymentId) (labels : Labels) (start_node_id : option string)
    (corr : CoverageCorrelation) (x : X) : result (fault ExecError) StatefulExecResult * World X :=
  let '(instance_id, x) := uuid_supplier self x in
  pass (event ← begin_pass process initial_variables deployment labels instance_id start_node_id;
        drive_stateful fuel event start_node_id)
    process instance_id initial_variables deployment labels corr x.

(** The rest of [execute_sync_from_correlated], past the eligibility check. *)
Definition drive_sync (fuel : nat) (event : InstanceEvent) : M X ExecResult :=
  outcome ← attempt (run_to_quiescence fuel ;;
                     ended ← read reached_end;
                     process ← read s_process;
                     if (ended : bool) then mret tt
                     else raise (Fatal (diag RUNTIME_UNEXPECTED
                            ("Process " +:+ process_id process +:+ " did not reach an end event"))));
  match outcome with
  | Err signal => e ← read (signal_to_error signal); fail_instance event e
  | Ok _ => complete_instance event (λ s, mk_exec_result (s_instance_id s) (end_outputs s) (visited s))
  end.

(** A process that is not eligible is refused before anything is done: the world is
    not touched. *)
Definition execute_sync_from_correlated (fuel : nat) (process : ProcessDefinition)
    (initial_variables : Variables) (deployment : DeploymentId) (labels : Labels) (start_node_id : option string)
    (corr : CoverageCorrelation) (x : X) : result (fault ExecError) ExecResult * option (World X) :=
  if negb (is_sync_eligible process) then
    (Err (Rejected (diag RUNTIME_UNEXPECTED
       ("Process " +:+ process_id process +:+ " has wait states and cannot run executeSync()"))), None)
  else
    let '(instance_id, x) := uuid_supplier self x in
    let '(r, w) :=
      pass (event ← begin_pass process initial_variables deployment labels instance_id start_node_id;
            drive_sync fuel event)
        process instance_id initial_variables deployment labels corr x in
    (r, Some w).
End Executor.
