(* ===== verification/Resume.v ===== *)
(** * Resuming a suspended instance ([sutra-executor/src/executor.rs]: [resume],
    [resume_timer], [resume_retry_redrive], [resume_channel_call_failure],
    [resume_inner], [race_siblings])

    A resume has two phases: a reconstruction walk that rebuilds the arrival counts
    of converging gateways from the completed nodes, and the live frontier.

    The walk is the subject of [GhostWalk]; what a resume keeps of the suspended
    instance is stated in [Reachability]. *)
From Stdlib Require Import ZArith Lia Bool Ascii String.
From stdpp Require Import base list option gmap strings.
From S2P Require Import Prelude Decimal FeelValue Temporal FeelText Timer ProcessModel Correlation Runtime.
From S2P Require Import ExecState AuditSnapshot Gateways Timers Outbound Tasks KeyQuery MemoryStore DataTasks Scopes Executor.

Open Scope string_scope.
Open Scope list_scope.
Open Scope Z_scope.

(** ** Where a resume re-enters the graph *)

Inductive ResumeEntry : Type := Leave (node : string) | Run (node : string).

Definition entry_node (e : ResumeEntry) : string := match e with Leave n | Run n => n end.

Definition arms_of (process : ProcessDefinition) (gateway : string) : list string :=
  map target_ref (outgoing process gateway).

Definition race_siblings (process : ProcessDefinition) (node : string) : list string :=
  concat (omap (λ n, match n with
                     | EventBasedGateway id _ =>
                         let arms := arms_of process id in
                         if contains arms node then Some (List.filter (λ a, negb (String.eqb a node)) arms) else None
                     | _ => None
                     end) (process_nodes process)).

(** ** A request *)

(** The arguments of [resume_inner]. *)
Record ResumeRequest : Type := mk_resume {
  rq_instance_id : string; rq_completed_nodes : list string; rq_prior_variables : Variables;
  rq_satisfied : string; rq_relay : Variables; rq_deployment : DeploymentId; rq_labels : Labels;
  rq_start_node : option string; rq_prior_waiting : list string; rq_prior_coverage : gmap string Z;
  rq_prior_retry_attempts : gmap string Z; rq_prior_retry_backoff : gmap string string;
  rq_fired_timer : option FiredTimer; rq_failure : option ChannelCallFailure; rq_redrive : bool;
  rq_correlation : CoverageCorrelation }.

Definition is_channel_call (process : ProcessDefinition) (id : string) : bool :=
  match process_node process id with
  | Ok (ServiceTask _ _ implementation _ _ _) => starts_with CHANNEL_CALL_PREFIX implementation
  | _ => false
  end.

(** The due timer is the backoff of a retried task, not a satisfied wait. *)
Definition retry_redrive (process : ProcessDefinition) (q : ResumeRequest) : bool :=
  if is_channel_call process (rq_satisfied q) then rq_redrive q
  else
    is_none (rq_fired_timer q) && is_some (rq_prior_retry_attempts q !! rq_satisfied q)
    && (contains (rq_prior_waiting q) (rq_satisfied q) || negb (contains (rq_completed_nodes q) (rq_satisfied q))).

Definition resume_entry_of (process : ProcessDefinition) (q : ResumeRequest) : ResumeEntry :=
  match rq_fired_timer q with
  | Some fired => Run (host_id fired)
  | None => if retry_redrive process q || is_some (rq_failure q) then Run (rq_satisfied q) else Leave (rq_satisfied q)
  end.

(** The node a resume comes through is satisfied, not re-entered. *)
Definition satisfies_wait (process : ProcessDefinition) (q : ResumeRequest) : bool :=
  is_none (rq_fired_timer q) && negb (retry_redrive process q) && is_none (rq_failure q).

(** The waits a resume takes off the frontier. *)
Definition consumed_waits (process : ProcessDefinition) (entry : ResumeEntry) : list string :=
  entry_node entry :: match entry with Leave node => race_siblings process node | Run _ => [] end.

(** The pending timer boundaries a resume retires. *)
Definition retired_boundaries (process : ProcessDefinition) (q : ResumeRequest) : list string :=
  let cancelled_host := match rq_fired_timer q with Some f => host_id f | None => rq_satisfied q end in
  omap (λ n, match n with
             | BoundaryEvent id _ attached BoundaryTimer _ _ _ _ =>
                 if String.eqb attached cancelled_host && negb (String.eqb id (rq_satisfied q)) then Some id else None
             | _ => None
             end) (process_nodes process).

Section Resume.
Context `{Crates} {X : Type} (self : TokenExecutor X).

(** The state a resume starts from. *)
Definition restore (process : ProcessDefinition) (q : ResumeRequest) (s : ExecutionState X) : ExecutionState X :=
  let node := rq_satisfied q in
  let redrive := retry_redrive process q in
  let done := is_channel_call process node && satisfies_wait process q in
  let s := fold_left (λ s n, push_prior_completed n s) (rq_completed_nodes q) s in
  let s := if satisfies_wait process q then push_prior_completed node s else s in
  let s := set_retry_attempts (λ _, if done then delete node (rq_prior_retry_attempts q)
                                    else rq_prior_retry_attempts q) s in
  let s := set_retry_backoff (λ _, if redrive || done then delete node (rq_prior_retry_backoff q)
                                   else rq_prior_retry_backoff q) s in
  let s := set_channel_call_failure (λ _, rq_failure q) s in
  let s := set_fired_timer (λ _, rq_fired_timer q) s in
  let s := set_prior_waiting (λ _, list_to_set (rq_prior_waiting q)) s in
  seed_coverage_progress (rq_prior_coverage q) s.

(** Phase 1: a ghost that cannot be routed is dropped. *)
Definition reconstruct (fuel : nat) (entry : string) (start : string) : M X unit :=
  update (set_ghost (λ _, true)) ;;
  update (set_resume_entry (λ _, Some entry)) ;;
  update (set_work (λ w, w ++ [start])) ;;
  drain fuel (λ id, catch (run_node self fuel id) (λ _, mret tt)) ;;
  update (set_ghost (λ _, false)) ;;
  update (set_work (λ _, [])).

(** The prior waits that stay parked. *)
Definition carry_waits (process : ProcessDefinition) (entry : ResumeEntry) (prior_waiting : list string)
    (s : ExecutionState X) : ExecutionState X :=
  fold_left (λ s n, if contains (consumed_waits process entry) n then s else set_waiting (push_new n) s)
    prior_waiting s.

Definition left_event (process : ProcessDefinition) (node : string) (vars : Variables) (s : ExecutionState X)
    : TokenEvent :=
  let sink := (resolve_token_audit self process vars node).1 in
  mk_token_event (s_deployment s) (s_labels s) (s_instance_id s) node
    (match process_node process node with Ok n => node_type n | Err _ => "" end) sink None
    (audit_correlation_of self process (is_some sink) vars).

Definition enter_graph (process : ProcessDefinition) (entry : ResumeEntry) : M X unit :=
  match entry with
  | Leave node =>
      vars ← get_vars;
      left_ ← read (left_event process node vars);
      notify (OnTokenLeft left_) ;;
      update (mark_visited node) ;;
      update (enqueue_outgoing node)
  | Run node => update (set_work (λ w, w ++ [node]))
  end.

Definition resume_body (fuel : nat) (process : ProcessDefinition) (q : ResumeRequest) : M X StatefulExecResult :=
  vars ← get_vars;
  let event := instance_event self process (rq_deployment q) (rq_labels q) (rq_instance_id q) vars in
  let entry := resume_entry_of process q in
  notify (OnInstanceResumed event) ;;
  update (restore process q) ;;
  each (retired_boundaries process q) (λ id,
    cancelled ← read (timer_event id ""); notify (OnTimerCancelled cancelled)) ;;
  start ← start_of process (rq_start_node q);
  reconstruct fuel (entry_node entry) start ;;
  update (carry_waits process entry (rq_prior_waiting q)) ;;
  enter_graph process entry ;;
  drive_stateful self fuel event (rq_start_node q).

(** A blank node id is refused before anything is done. *)
Definition resume_inner (fuel : nat) (process : ProcessDefinition) (q : ResumeRequest) (x : X)
    : result (fault ExecError) StatefulExecResult * option (World X) :=
  if str_is_empty (trim (rq_satisfied q)) then
    (Err (Rejected (diag RUNTIME_UNEXPECTED "resume() requires the id of the wait node being satisfied")), None)
  else
    let '(r, w) := pass (resume_body fuel process q) process (rq_instance_id q)
      (var_merge (rq_prior_variables q) (rq_relay q)) (rq_deployment q) (rq_labels q) (rq_correlation q) x in
    (r, Some w).

(** ** Entry points *)

(** What every entry point passes on of a suspended instance. *)
Definition resume_of (su : Suspension) (deployment : DeploymentId) (labels : Labels) (satisfied : string)
    (relay : Variables) (fired : option FiredTimer) (failure : option ChannelCallFailure) (redrive : bool)
    (corr : CoverageCorrelation) : ResumeRequest :=
  mk_resume (su_instance_id su) (completed_nodes su) (su_variables su) satisfied relay deployment labels
    (start_node su) (waiting_nodes su) (su_coverage_progress su) (su_retry_attempts su) (su_retry_backoff su)
    fired failure redrive corr.

Definition resume (fuel : nat) (process : ProcessDefinition) (su : Suspension) (deployment : DeploymentId)
    (labels : Labels) (satisfied : string) (relay : Variables) (x : X) :=
  resume_inner fuel process (resume_of su deployment labels satisfied relay None None false no_correlation) x.

Definition resume_correlated (fuel : nat) (process : ProcessDefinition) (su : Suspension)
    (deployment : DeploymentId) (labels : Labels) (satisfied : string) (relay : Variables)
    (corr : CoverageCorrelation) (x : X) :=
  resume_inner fuel process (resume_of su deployment labels satisfied relay None None false corr) x.

Definition resume_retry_redrive (fuel : nat) (process : ProcessDefinition) (su : Suspension)
    (deployment : DeploymentId) (labels : Labels) (redrive_node : string) (x : X) :=
  resume_inner fuel process (resume_of su deployment labels redrive_node [] None None true no_correlation) x.

Definition resume_channel_call_failure (fuel : nat) (process : ProcessDefinition) (su : Suspension)
    (deployment : DeploymentId) (labels : Labels) (failed_node failure_code failure_message failure_reason : string)
    (x : X) :=
  resume_inner fuel process
    (resume_of su deployment labels failed_node [] None
       (Some (mk_call_failure failure_reason failed_node failure_code failure_message)) false no_correlation) x.

(** The boundary a due timer row names, if it is one. *)
Definition fired_timer_of (process : ProcessDefinition) (node_id : string) : result ExecError (option FiredTimer) :=
  match process_node process node_id with
  | Ok (BoundaryEvent id _ attached BoundaryTimer _ _ interrupting timer) =>
      Ok (Some (mk_fired_timer id attached interrupting timer))
  | Ok (TimerCatchEvent _ _ _) => Ok None
  | Ok other =>
      Err (diag RUNTIME_UNEXPECTED
        ("resume_timer() fired node '" +:+ node_id +:+ "' is a " +:+ node_type other
         +:+ " — not a timer boundary or an intermediate timer catch event"))
  | Err e => Err (Diagnostic e)
  end.

(** [on_timer_fired] comes before every event of the pass. *)
Definition resume_timer (fuel : nat) (process : ProcessDefinition) (su : Suspension) (fire : TimerFire)
    (labels : Labels) (x : X) : result (fault ExecError) StatefulExecResult * option (World X) :=
  match fired_timer_of process (tf_node_id fire) with
  | Err e => (Err (Rejected e), None)
  | Ok fired =>
      let event := mk_timer_event (tf_deployment fire) labels (tf_instance_id fire) (tf_node_id fire) (tf_due_at fire) in
      let q := mk_resume (tf_instance_id fire) (completed_nodes su) (su_variables su) (tf_node_id fire) []
        (tf_deployment fire) labels (start_node su) (waiting_nodes su) (su_coverage_progress su)
        (su_retry_attempts su) (su_retry_backoff su) fired None false no_correlation in
      let '(r, w) := resume_inner fuel process q x in
      (r, (λ w, mk_world (w_ctx w) (OnTimerFired event :: w_events w) (w_emissions w) (w_ext w)) <$> w)
  end.
End Resume.
