(* ===== verification/StepRelation.v ===== *)
(** * The step relation of the executor

    [step] is the abstract state machine of one scope: every way the executor may
    change an [ExecutionState], with the condition it is allowed under; [wstep] is
    the same for the world a pass shares.  The refinement theorem says that
    [run_node], with everything it calls, is a sequence of such steps, whatever it
    returns; invariants of passes are then proved by induction on the steps.

    [refines P m Q] is the judgement the proof is made of: from a state in [P] the
    computation [m] takes allowed steps, and if it returns, [Q] holds. *)
From Stdlib Require Import ZArith Lia Bool Ascii String.
From stdpp Require Import base list option gmap strings relations.
From S2P Require Import Prelude Decimal FeelValue Temporal FeelText Timer ProcessModel Correlation Runtime.
From S2P Require Import ExecState AuditSnapshot Gateways Timers Outbound Tasks KeyQuery MemoryStore DataTasks Scopes Executor.

Open Scope string_scope.
Open Scope list_scope.
Open Scope Z_scope.

(** ** What may park *)

(** [id] is an arm of an event-based gateway. *)
Definition race_arm (p : ProcessDefinition) (id : string) : Prop :=
  ∃ gw name, EventBasedGateway gw name ∈ process_nodes p ∧ id ∈ map target_ref (outgoing p gw).

(** A token may wait at [id]: a wait state, a task with a retry policy, a
    respond-and-continue reply, or the arm of a race. *)
Definition may_park (p : ProcessDefinition) (id : string) : Prop :=
  (∃ n, process_node p id = Ok n ∧
     (is_wait_state n = true ∨ has_retry_policy p id = true ∨ has_continue_reply p id = true))
  ∨ race_arm p id.

(** ** Steps of a scope *)

Section Steps.
Context {X : Type}.
Implicit Types s : ExecutionState X.

Inductive step s : ExecutionState X → Prop :=
| step_work w : step s (set_work (λ _, w) s)
| step_fire flow : step s (fire flow s)
| step_visit id : step s (mark_visited id s)
| step_absorb v : step s (set_visited (λ u, u ∪ v) s)
| step_complete id : step s (complete_activity id s)
| step_park id : may_park (s_process s) id → step s (park_fresh id s)
| step_park_again id : may_park (s_process s) id → step s (park_again id s)
| step_arm t : (∃ host, may_park (s_process s) host) → step s (set_timer_waits (λ l, l ++ [t]) s)
| step_retry id policy attempt :
    retry_policy (s_process s) id = Some policy → attempt = default 0 (retry_attempts s !! id) + 1 →
    attempt < max_attempts policy → step s (set_retry_attempts (insert id attempt) s)
| step_retry_over id : step s (set_retry_attempts (delete id) s)
| step_backoff id code : step s (set_retry_backoff (insert id code) s)
| step_backoff_over id : step s (set_retry_backoff (delete id) s)
| step_take_timer : step s (set_fired_timer (λ _, None) s)
| step_take_failure : step s (set_channel_call_failure (λ _, None) s)
| step_store_rev k r : step s (set_store_revs (insert k r) s)
| step_store_tx t : step s (set_store_tx (λ _, t) s)
| step_parallel f : step s (set_parallel_arrivals f s)
| step_inclusive f : step s (set_inclusive_arrivals f s)
| step_expected f : step s (set_inclusive_expected f s)
| step_complex f : step s (set_complex_arrivals f s)
| step_complex_fired f : step s (set_complex_fired f s)
| step_reached_end : step s (set_reached_end (λ _, true) s)
| step_end_outputs vars : step s (set_end_outputs (λ _, vars) s)
| step_detached : step s (set_detached_reply (λ _, true) s).

Abbreviation steps := (rtc step).

(** ** Steps of the world *)

Inductive wstep (w : World X) : World X → Prop :=
| wstep_notify e : wstep w (mk_world (w_ctx w) (w_events w ++ [e]) (w_emissions w) (w_ext w))
| wstep_emit e : wstep w (mk_world (w_ctx w) (w_events w) (w_emissions w ++ [e]) (w_ext w))
| wstep_vars vars : wstep w (mk_world (with_variables vars (w_ctx w)) (w_events w) (w_emissions w) (w_ext w))
| wstep_external x : wstep w (mk_world (w_ctx w) (w_events w) (w_emissions w) x).

Abbreviation wsteps := (rtc wstep).

(** ** The judgement *)

Definition refines {A} (P : ExecutionState X → Prop) (m : M X A) (Q : A → ExecutionState X → Prop) : Prop :=
  ∀ w s r w' s', P s → m w s = (r, w', s') → wsteps w w' ∧ steps s s' ∧ ∀ a, r = Ok a → Q a s'.

Definition at_process (p : ProcessDefinition) (s : ExecutionState X) : Prop := s_process s = p.

(** Nothing is promised of the result. *)
Definition runs {A} (p : ProcessDefinition) (m : M X A) : Prop :=
  refines (at_process p) m (λ _, at_process p).

(** ** Frames *)

Lemma fire_process flow s : s_process (fire flow s) = s_process s.
Proof. unfold fire. repeat case_match; done. Qed.

Lemma step_process s s' : step s s' → s_process s' = s_process s.
Proof. destruct 1; try done. apply fire_process. Qed.

Lemma steps_process s s' : steps s s' → s_process s' = s_process s.
Proof. induction 1 as [|a b c Hab _ IH]; [done|]. rewrite IH. by apply step_process. Qed.

(** ** Rules *)

Lemma refines_weaken {A} P P' (m : M X A) Q Q' :
  refines P m Q → (∀ s, P' s → P s) → (∀ a s, Q a s → Q' a s) → refines P' m Q'.
Proof. intros Hm HP HQ w s r w' s' Hs E. destruct (Hm w s r w' s' (HP _ Hs) E) as (? & ? & H). eauto. Qed.

Lemma refines_bind {A B} P (m : M X A) Q (k : A → M X B) R :
  refines P m Q → (∀ a, refines (Q a) (k a) R) → refines P (m ≫= k) R.
Proof.
  intros Hm Hk w s r w' s' Hs E. unfold mbind, M_bind in E.
  destruct (m w s) as [[[a|e] w1] s1] eqn:Em; destruct (Hm w s _ _ _ Hs Em) as (Hw & Hst & Hq).
  - destruct (Hk a w1 s1 r w' s' (Hq a eq_refl) E) as (Hw' & Hst' & Hr).
    split; [by etrans|]. split; [by etrans|done].
  - injection E as <- <- <-. done.
Qed.

Lemma refines_ret {A} P (a : A) Q : (∀ s, P s → Q a s) → refines P (mret a) Q.
Proof. intros H w s r w' s' Hs [= <- <- <-]. split; [done|]. split; [done|]. intros a' [= <-]. by apply H. Qed.

Lemma refines_error {A} P (e : fault Signal) (Q : A → _) : refines P (λ w s, (Err e, w, s)) Q.
Proof. by intros w s r w' s' Hs [= <- <- <-]. Qed.

Lemma refines_read {A} P (f : ExecutionState X → A) : refines P (read f) (λ a s, P s ∧ a = f s).
Proof. intros w s r w' s' Hs [= <- <- <-]. split; [done|]. split; [done|]. by intros a [= <-]. Qed.

Lemma refines_update P f Q : (∀ s, P s → steps s (f s) ∧ Q tt (f s)) → refines P (update f) Q.
Proof.
  intros H w s r w' s' Hs [= <- <- <-]. destruct (H s Hs) as [H1 H2].
  split; [done|]. split; [done|]. by intros [] _.
Qed.

(** *** Rules for [runs] *)

Lemma runs_bind {A B} p (m : M X A) (k : A → M X B) : runs p m → (∀ a, runs p (k a)) → runs p (m ≫= k).
Proof. intros Hm Hk. by apply (refines_bind _ _ (λ _, at_process p)). Qed.

(** A value read is a function of some state of the process. *)
Lemma runs_bind_read {A B} p (f : ExecutionState X → A) (k : A → M X B) :
  (∀ s, s_process s = p → runs p (k (f s))) → runs p (read f ≫= k).
Proof.
  intros Hk. eapply refines_bind; [apply refines_read|]. intros a w s r w' s' [Hs ->] E.
  exact (Hk s Hs w s r w' s' Hs E).
Qed.

Lemma runs_keep {A} p (m : M X A) :
  (∀ w s r w' s', s_process s = p → m w s = (r, w', s') → wsteps w w' ∧ steps s s') → runs p m.
Proof.
  intros H w s r w' s' Hs E. destruct (H w s r w' s' Hs E) as [Hw Hst].
  split; [done|]. split; [done|]. intros a _. unfold at_process. by rewrite (steps_process _ _ Hst).
Qed.

Lemma runs_ret {A} p (a : A) : runs p (mret a).
Proof. by apply refines_ret. Qed.
Lemma runs_raise {A} p sig : runs (A := A) p (raise sig).
Proof. apply refines_error. Qed.
Lemma runs_panic {A} p : runs (A := A) p panic.
Proof. apply refines_error. Qed.
Lemma runs_no_fuel {A} p : runs (A := A) p no_fuel.
Proof. apply refines_error. Qed.
Lemma runs_read {A} p (f : ExecutionState X → A) : runs p (read f).
Proof. eapply refines_weaken; [apply refines_read|done|]. by intros a s [? _]. Qed.

Lemma runs_update p f : (∀ s, s_process s = p → steps s (f s)) → runs p (update f).
Proof. intros H. apply runs_keep. intros w s r w' s' Hs [= <- <- <-]. split; [done|by apply H]. Qed.

Lemma runs_lift {A} p (r : result Signal A) : runs p (lift r).
Proof. destruct r; [apply runs_ret|apply runs_raise]. Qed.
Lemma runs_lift_fatal {A} p (r : result ExecError A) : runs p (lift_fatal r).
Proof. apply runs_lift. Qed.
Lemma runs_lift_fault {A} p (r : result (fault Signal) A) : runs p (lift_fault r).
Proof. destruct r; [apply runs_ret|apply refines_error]. Qed.

Lemma runs_get_vars p : runs p get_vars.
Proof. by apply runs_keep; intros w s r w' s' Hs [= <- <- <-]. Qed.
Lemma runs_get_ctx p : runs p get_ctx.
Proof. by apply runs_keep; intros w s r w' s' Hs [= <- <- <-]. Qed.
Lemma runs_update_vars p f : runs p (update_vars f).
Proof. apply runs_keep; intros w s r w' s' Hs [= <- <- <-]. split; [apply rtc_once, wstep_vars|done]. Qed.
Lemma runs_notify p e : runs p (notify e).
Proof. apply runs_keep; intros w s r w' s' Hs [= <- <- <-]. split; [apply rtc_once, wstep_notify|done]. Qed.
Lemma runs_emit p self e : runs p (emit self e).
Proof.
  apply runs_keep; intros w s r w' s' Hs. unfold emit. case_match; intros [= <- <- <-]; [|done].
  split; [apply rtc_once, wstep_emit|done].
Qed.
Lemma runs_external {A} p (f : X → A * X) : runs p (external f).
Proof.
  apply runs_keep; intros w s r w' s' Hs. unfold external. destruct (f (w_ext w)). intros [= <- <- <-].
  split; [apply rtc_once, wstep_external|done].
Qed.
Lemma runs_io {A} p (f : Io X A) on_err : runs p (io f on_err).
Proof. apply runs_bind; [apply runs_external|intros a; apply runs_lift]. Qed.

Lemma runs_catch {A} p (m : M X A) h : runs p m → (∀ sig, runs p (h sig)) → runs p (catch m h).
Proof.
  intros Hm Hh. apply runs_keep. intros w s r w' s' Hs E. unfold catch in E.
  destruct (m w s) as [[[a|[sig| |]] w1] s1] eqn:Em; destruct (Hm w s _ _ _ Hs Em) as (Hw & Hst & _);
    try (injection E as <- <- <-; done).
  destruct (Hh sig w1 s1 r w' s') as (Hw' & Hst' & _); [|done|by split; etrans].
  unfold at_process. by rewrite (steps_process _ _ Hst).
Qed.

Lemma runs_attempt {A} p (m : M X A) : runs p m → runs p (attempt m).
Proof.
  intros Hm. apply runs_keep. intros w s r w' s' Hs E. unfold attempt in E.
  destruct (m w s) as [[[a|[sig| |]] w1] s1] eqn:Em; destruct (Hm w s _ _ _ Hs Em) as (Hw & Hst & _);
    by injection E as <- <- <-.
Qed.

Lemma runs_each {A} p (l : list A) f : (∀ a, a ∈ l → runs p (f a)) → runs p (each l f).
Proof.
  induction l as [|a l IH]; intros H; [apply runs_ret|]. simpl.
  apply runs_bind; [apply H; by left|]. intros _. apply IH. intros b Hb. apply H. by right.
Qed.

Lemma runs_drain p fuel f : (∀ id, runs p (f id)) → runs p (drain fuel f).
Proof.
  intros H. induction fuel as [|fuel IH]; [apply runs_no_fuel|]. simpl.
  apply runs_bind; [apply runs_read|]. intros [|id rest]; [apply runs_ret|].
  apply runs_bind; [apply runs_update; intros s _; apply rtc_once, step_work|]. intros _.
  apply runs_bind; [apply H|intros _; exact IH].
Qed.

Lemma runs_in_scope {A} p p' enter (m : M X A) leave :
  (∀ s, s_process s = p → s_process (enter s) = p') → runs p' m →
  (∀ s sub, s_process s = p → steps s (leave sub s)) → runs p (in_scope enter m leave).
Proof.
  intros He Hm Hl. apply runs_keep. intros w s r w' s' Hs E. unfold in_scope in E.
  destruct (m w (enter s)) as [[r1 w1] sub] eqn:Em. injection E as <- <- <-.
  destruct (Hm w (enter s) _ _ _ (He s Hs) Em) as (Hw & _ & _). split; [done|by apply Hl].
Qed.
End Steps.

Abbreviation steps := (rtc step).
Abbreviation wsteps := (rtc wstep).

(** ** Automation *)

Create HintDb steps.
#[export] Hint Resolve runs_ret runs_raise runs_panic runs_no_fuel runs_read runs_lift runs_lift_fatal runs_lift_fault
  runs_get_vars runs_get_ctx runs_update_vars runs_notify runs_emit runs_external runs_io : steps.
#[export] Hint Constructors step : steps.

(** A composition of state operations, as steps. *)
Ltac steps_tac :=
  repeat first
    [ reflexivity
    | solve [eauto 3 with steps nocore]
    | match goal with |- rtc step _ (enqueue_outgoing _ _) => etrans; [|solve [eauto 2 with steps nocore]] end
    | eapply rtc_r; [|solve [eauto 2 with steps nocore]] ].

(** One rule of [runs]. *)
Ltac runs_step :=
  match goal with
  | |- runs _ (read _ ≫= _) => apply runs_bind_read; intros ? ?
  | |- runs _ (_ ≫= _) => apply runs_bind; [|intros ?]
  | |- runs _ (update _) => apply runs_update; intros ? ?; solve [steps_tac]
  | |- runs _ (catch _ _) => apply runs_catch; [|intros ?]
  | |- runs _ (attempt _) => apply runs_attempt
  | |- runs _ (each _ _) => apply runs_each; intros ? ?
  | |- runs _ (drain _ _) => apply runs_drain; intros ?
  | |- runs _ (match ?x with _ => _ end) => destruct x eqn:?
  | |- runs _ _ => solve [eauto 3 with steps nocore]
  end.
Ltac runs_tac := intros; repeat runs_step.

(** ** State operations *)

Section Operations.
Context {X : Type}.
Implicit Types s : ExecutionState X.

Lemma steps_fire_all flows s : steps s (fire_all flows s).
Proof.
  revert s. induction flows as [|f flows IH]; intros s; [reflexivity|]. simpl.
  eapply rtc_l; [apply (step_fire _ f)|apply IH].
Qed.

Lemma steps_enqueue id s : steps s (enqueue_outgoing id s).
Proof. apply steps_fire_all. Qed.

Lemma steps_once s t : step s t → steps s t.
Proof. apply rtc_once. Qed.

Lemma step_work_map f s : step s (set_work f s).
Proof. exact (step_work s (f (work s))). Qed.
Lemma step_store_tx_map f s : step s (set_store_tx f s).
Proof. exact (step_store_tx s (f (store_tx s))). Qed.

(** The guarded steps, at a known process. *)
Lemma step_park_at p id s : s_process s = p → may_park p id → step s (park_fresh id s).
Proof. intros <-. apply step_park. Qed.
Lemma step_park_again_at p id s : s_process s = p → may_park p id → step s (park_again id s).
Proof. intros <-. apply step_park_again. Qed.
Lemma step_arm_at p t s : s_process s = p → (∃ host, may_park p host) → step s (set_timer_waits (λ l, l ++ [t]) s).
Proof. intros <-. apply step_arm. Qed.

Lemma steps_route_fork flow s : steps s (route_inclusive_fork flow s).
Proof.
  unfold route_inclusive_fork. etrans; [apply rtc_once, (step_fire _ flow)|].
  generalize (reachable_inclusive_joins (s_process s) (target_ref flow)) as joins. generalize (fire flow s) as t.
  intros t joins. revert t. induction joins as [|j joins IH]; intros t; [reflexivity|]. simpl.
  eapply rtc_l; [apply (step_expected _ (bump j))|apply IH].
Qed.
End Operations.
#[export] Hint Resolve steps_fire_all steps_enqueue steps_once steps_route_fork : steps.
#[export] Hint Resolve step_work_map step_store_tx_map step_park_at step_park_again_at step_arm_at : steps.

Section Handlers.
Context `{Crates} {X : Type} (self : TokenExecutor X).
Implicit Types p : ProcessDefinition.

(** ** Gateways *)

Lemma runs_handle_exclusive p id d : runs p (handle_exclusive self id d).
Proof. unfold handle_exclusive. runs_tac. Qed.

Lemma runs_fork_loop p d vars flows n : runs p (fork_loop self d vars flows n).
Proof. revert n. induction flows as [|f flows IH]; intros n; simpl; runs_tac. Qed.
Hint Resolve runs_fork_loop : steps.

Lemma runs_inclusive_fork p kind id d : runs p (inclusive_fork self kind id d).
Proof. unfold inclusive_fork. runs_tac. Qed.
Hint Resolve runs_inclusive_fork : steps.

Lemma runs_defer p token : runs p (defer_token (X := X) token).
Proof. unfold defer_token. runs_tac. Qed.
Hint Resolve runs_defer : steps.

Lemma runs_handle_inclusive p id d token : runs p (handle_inclusive self id d token).
Proof. unfold handle_inclusive. runs_tac. Qed.

Lemma runs_handle_parallel p id token : runs p (handle_parallel (X := X) id token).
Proof. unfold handle_parallel. runs_tac. Qed.

Lemma runs_handle_complex p id d a token : runs p (handle_complex self id d a token).
Proof. unfold handle_complex. runs_tac. Qed.

(** ** Timers and retries *)

(** A computation that leaves the scope's state alone. *)
Definition still {A} (m : M X A) : Prop := ∀ w s, (m w s).2 = s.

Lemma still_bind {A B} (m : M X A) (k : A → M X B) : still m → (∀ a, still (k a)) → still (m ≫= k).
Proof.
  intros Hm Hk w s. specialize (Hm w s). unfold mbind, M_bind.
  destruct (m w s) as [[[a|e] w1] s1]; simpl in Hm; subst s1; [apply Hk|done].
Qed.

Lemma still_runs {A} p (m : M X A) (P : ExecutionState X → Prop) :
  still m → runs p m → (∀ s, P s → s_process s = p) → refines P m (λ _, P).
Proof.
  intros Hst Hm HP w s r w' s' Hs E. destruct (Hm w s r w' s' (HP s Hs) E) as (Hw & Hss & _).
  split; [done|]. split; [done|]. intros a _. specialize (Hst w s). rewrite E in Hst. simpl in Hst. by subst s'.
Qed.

Lemma still_external {A} (f : X → A * X) : still (external f).
Proof. intros w s. unfold external. by destruct (f (w_ext w)). Qed.

Lemma still_lift_fault {A} (r : result (fault Signal) A) : still (lift_fault r).
Proof. by destruct r. Qed.

Lemma still_current_instant : still (current_instant self).
Proof. apply still_bind; [apply still_external|]. intros t. case_match; [done|apply still_external]. Qed.

Lemma runs_current_instant p : runs p (current_instant self).
Proof. unfold current_instant. runs_tac. Qed.
Hint Resolve runs_current_instant : steps.

Lemma runs_resolve_timer p timer id : runs p (resolve_timer self timer id).
Proof. unfold resolve_timer. runs_tac. Qed.
Hint Resolve runs_resolve_timer : steps.

Lemma runs_compute_due_at p timer id : runs p (compute_due_at self timer id).
Proof. unfold compute_due_at. runs_tac. Qed.
Hint Resolve runs_compute_due_at : steps.

Lemma runs_record_timer_wait p id due_at :
  (∃ host, may_park p host) → runs p (record_timer_wait (X := X) id due_at).
Proof. intros Hp. unfold record_timer_wait. runs_tac. Qed.
Hint Resolve runs_record_timer_wait : steps.

Lemma runs_boundary_due_ats p l : runs p (boundary_due_ats self l).
Proof. induction l as [|[id timer] l IH]; simpl; runs_tac. Qed.
Hint Resolve runs_boundary_due_ats : steps.

Lemma runs_schedule_timer_boundaries p id :
  may_park p id → runs p (schedule_timer_boundaries self id).
Proof. intros Hp. unfold schedule_timer_boundaries. assert (∃ host, may_park p host) by eauto. runs_tac. Qed.
Hint Resolve runs_schedule_timer_boundaries : steps.

Lemma runs_rearm_fired_boundary p fired : (∃ host, may_park p host) → runs p (rearm_fired_boundary self fired).
Proof. intros Hp. unfold rearm_fired_boundary. runs_tac. Qed.
Hint Resolve runs_rearm_fired_boundary : steps.

Lemma still_compute_retry_due_at id policy attempt : still (compute_retry_due_at self id policy attempt).
Proof.
  unfold compute_retry_due_at.
  repeat (first [ apply still_lift_fault | apply still_current_instant | done
                | case_match | apply still_bind; [|intros ?] ]).
Qed.

Lemma runs_compute_retry_due_at p id policy attempt : runs p (compute_retry_due_at self id policy attempt).
Proof. unfold compute_retry_due_at. runs_tac. Qed.
Hint Resolve runs_compute_retry_due_at : steps.

(** The attempt a park records is the next one, and leaves budget. *)
Definition planned (id : string) (s : ExecutionState X) (d : RetryDisposition) : Prop :=
  ∀ due_at attempt, d = RetryPark due_at attempt →
  ∃ policy, retry_policy (s_process s) id = Some policy
    ∧ attempt = default 0 (retry_attempts s !! id) + 1 ∧ attempt < max_attempts policy.

Lemma plan_retry_planned p id parkable message :
  refines (at_process p) (plan_retry self id parkable message)
    (λ d s, at_process p s ∧ planned id s d ∧ (parkable = false → ∀ due_at n, d ≠ RetryPark due_at n)).
Proof.
  unfold plan_retry. eapply refines_bind; [apply refines_read|]. intros [policy|]; cbn beta iota; cycle 1.
  { apply refines_ret. intros s [Hs _]. split; [done|]. by split; intros. }
  destruct parkable; simpl; cycle 1.
  { apply refines_ret. intros s [Hs _]. split; [done|]. by split; intros. }
  eapply refines_bind; [apply refines_read|]. intros failed.
  destruct (existsb _ _).
  { apply refines_ret. intros s [[Hs _] _]. split; [done|]. by split; intros. }
  destruct (Z.leb_spec (max_attempts policy) (failed + 1)).
  { apply refines_ret. intros s [[Hs _] _]. split; [done|]. by split; intros. }
  eapply refines_bind.
  { apply (still_runs p); [apply still_compute_retry_due_at|apply runs_compute_retry_due_at|by intros s [[? _] _]]. }
  intros due. apply refines_ret. intros s [[Hs Hpol] ->]. split; [done|]. split; [|done].
  intros due_at attempt [= <- <-]. exists policy. split; [done|]. split; [done|lia].
Qed.

(** ** Emissions *)

Lemma runs_build_cloud_event p rb : runs p (build_cloud_event self rb).
Proof. unfold build_cloud_event. runs_tac. Qed.
Hint Resolve runs_build_cloud_event : steps.

Lemma runs_enqueue_outbound p kind rb d a id : runs p (enqueue_outbound self kind rb d a id).
Proof. unfold enqueue_outbound. runs_tac. Qed.
Hint Resolve runs_enqueue_outbound : steps.

Lemma runs_emit_reply_if_bound p id : runs p (emit_reply_if_bound self id).
Proof. unfold emit_reply_if_bound. runs_tac. Qed.

Lemma runs_emit_send_if_bound p id required : runs p (emit_send_if_bound self id required).
Proof. unfold emit_send_if_bound, emit_send_via_channel. runs_tac. Qed.
Hint Resolve runs_emit_reply_if_bound runs_emit_send_if_bound : steps.

(** ** Tasks *)

Lemma runs_render_model p vars params : runs p (render_model self vars params).
Proof. unfold render_model. runs_tac. Qed.
Hint Resolve runs_render_model : steps.

Lemma runs_invoke_service_task p id impl dm params : runs p (invoke_service_task self id impl dm params).
Proof.
  unfold invoke_service_task, run_template_task, run_decision_task, run_registered_task, render_template. runs_tac.
Qed.
Hint Resolve runs_invoke_service_task : steps.

Lemma runs_run_coverage_op p id impl : runs p (run_coverage_op self id impl).
Proof. unfold run_coverage_op. runs_tac. Qed.
Hint Resolve runs_run_coverage_op : steps.

Lemma retry_may_park p id n policy : process_node p id = Ok n → retry_policy p id = Some policy → may_park p id.
Proof.
  intros Hn Hp. left. exists n. split; [done|]. right. left. unfold has_retry_policy.
  unfold retry_policy in Hp. by rewrite Hp.
Qed.

(** Parking on a planned retry. *)
Lemma refines_park_retry p id due_at attempt :
  (∃ n, process_node p id = Ok n) →
  refines (λ s, at_process p s ∧ planned id s (RetryPark due_at attempt)) (park_retry id due_at attempt)
    (λ _, at_process p).
Proof.
  intros [n Hn] w s r w' s' [Hs Hpl] E. destruct (Hpl due_at attempt eq_refl) as (policy & Hpol & Ha & Hlt).
  unfold at_process in Hs. subst p. assert (may_park (s_process s) id) by by eapply retry_may_park.
  assert (∃ host, may_park (s_process s) host) by eauto.
  assert (Hr : refines (λ t, t = s) (park_retry id due_at attempt) (λ _, at_process (s_process s)));
    [|exact (Hr w s r w' s' eq_refl E)].
  apply (refines_bind _ _ (λ _, at_process (s_process s))).
  - apply refines_update. intros t ->. split; [apply rtc_once; by eapply step_retry|done].
  - intros _. apply runs_bind; [|runs_tac].
    apply runs_update. intros t Ht. apply rtc_once, step_park. by rewrite Ht.
Qed.

Lemma runs_plan_retry {B} p id parkable message (k : RetryDisposition → M X B) :
  (∀ due_at attempt, parkable = true →
     refines (λ s, at_process p s ∧ planned id s (RetryPark due_at attempt)) (k (RetryPark due_at attempt))
       (λ _, at_process p)) →
  (∀ e, runs p (k (RetryFail e))) → runs p (k NoPolicy) →
  runs p (plan_retry self id parkable message ≫= k).
Proof.
  intros Hpark Hfail Hno. eapply refines_bind; [apply plan_retry_planned|]. intros [due attempt|e|].
  - destruct parkable.
    + eapply refines_weaken; [by apply Hpark|by intros s (? & ? & _)|done].
    + intros w s r w' s' (_ & _ & Hf) _. by destruct (Hf eq_refl due attempt).
  - eapply refines_weaken; [apply Hfail|by intros s [? _]|done].
  - eapply refines_weaken; [apply Hno|by intros s [? _]|done].
Qed.

(** A task that may park is a node of the process. *)
Definition is_node (p : ProcessDefinition) (id : string) : Prop := ∃ n, process_node p id = Ok n.

Lemma runs_settle_task p id impl parkable event outcome :
  (parkable = true → is_node p id) → runs p (settle_task self id impl parkable event outcome).
Proof.
  intros Hn. unfold settle_task. destruct outcome as [[]|[code|msg|d]]; [runs_tac|runs_tac| |runs_tac].
  apply runs_bind; [apply runs_notify|]. intros _. apply runs_plan_retry; [|runs_tac|runs_tac].
  intros due attempt Hp. by apply refines_park_retry, Hn.
Qed.

Lemma runs_run_service_task p id impl dm params parkable :
  (parkable = true → is_node p id) → runs p (run_service_task self id impl dm params parkable).
Proof.
  intros Hn. unfold run_service_task. runs_tac. by apply runs_settle_task.
Qed.
Lemma runs_inline_service_task p id impl dm params : runs p (run_service_task self id impl dm params false).
Proof. by apply runs_run_service_task. Qed.
Hint Resolve runs_inline_service_task : steps.

Lemma runs_run_script_task p id file : runs p (run_script_task self id file).
Proof. unfold run_script_task. runs_tac. Qed.

Lemma runs_run_business_rule_task p id file : runs p (run_business_rule_task self id file).
Proof. unfold run_business_rule_task. runs_tac. Qed.
Hint Resolve runs_run_script_task runs_run_business_rule_task : steps.

(** ** Channel calls *)

Lemma runs_record_call_failure p id code reason : runs p (record_call_failure (X := X) id code reason).
Proof. unfold record_call_failure. runs_tac. Qed.
Hint Resolve runs_record_call_failure : steps.

Lemma runs_raise_channel_call_failure p id code reason sig :
  runs p (raise_channel_call_failure (X := X) id code reason sig).
Proof. unfold raise_channel_call_failure. runs_tac. Qed.
Hint Resolve runs_raise_channel_call_failure : steps.

Lemma runs_park_or_fail p id impl code detail reason :
  is_node p id → runs p (park_or_fail_channel_call_retry self id impl code detail reason).
Proof.
  intros Hn. unfold park_or_fail_channel_call_retry.
  apply runs_bind_read. intros s1 _. apply runs_bind; [apply runs_notify|]. intros _.
  apply runs_bind_read. intros s2 _. apply runs_plan_retry; [|runs_tac|runs_tac].
  intros due attempt _. apply (refines_bind _ _ (λ _ s, at_process p s ∧ planned id s (RetryPark due attempt))).
  - apply refines_update. intros t Ht. split; [apply rtc_once, step_backoff|exact Ht].
  - intros _. by apply refines_park_retry.
Qed.

Lemma runs_route_timer_boundary p b host : runs p (route_timer_boundary (X := X) b host).
Proof. unfold route_timer_boundary. runs_tac. Qed.

Lemma runs_route_non_interrupting p b : runs p (route_non_interrupting_boundary (X := X) b).
Proof. unfold route_non_interrupting_boundary. runs_tac. Qed.
Hint Resolve runs_route_timer_boundary runs_route_non_interrupting : steps.

Lemma runs_run_channel_call p id impl dm params :
  is_node p id → may_park p id → runs p (run_channel_call self id impl dm params).
Proof.
  intros Hn Hp. unfold run_channel_call, send_channel_call.
  pose proof (runs_park_or_fail p id) as Hpf. runs_tac; by apply Hpf.
Qed.

(** ** Data tasks *)

Lemma runs_resolve_store p name id : runs p (resolve_store self name id).
Proof. unfold resolve_store. runs_tac. Qed.
Hint Resolve runs_resolve_store : steps.

Lemma runs_tx_for p name id : runs p (tx_for self name id).
Proof.
  unfold tx_for. runs_tac.
Qed.
Hint Resolve runs_tx_for : steps.

Lemma runs_query_bound p id r vars e what : runs p (query_bound self id r vars e what).
Proof. unfold query_bound, query_refused. runs_tac. Qed.
Hint Resolve runs_query_bound : steps.

Lemma runs_run_store_query p id r q vars : runs p (run_store_query self id r q vars).
Proof. unfold run_store_query, query_upper, query_after, query_refused. runs_tac. Qed.
Hint Resolve runs_run_store_query : steps.

Lemma runs_run_data_task p id dm : runs p (run_data_task self id dm).
Proof.
  unfold run_data_task, run_store_read, run_message_decode, run_assignment, run_store_write, put_value. runs_tac.
Qed.
Hint Resolve runs_run_data_task : steps.

Lemma runs_commit_all p (txs : list (string * DataStoreTx X)) : runs p (commit_all txs).
Proof. induction txs as [|[k tx] l IH]; simpl; runs_tac. Qed.
Hint Resolve runs_commit_all : steps.

Lemma runs_commit_store_tx p : runs p (commit_store_tx (X := X)).
Proof. unfold commit_store_tx. runs_tac. Qed.

Lemma runs_rollback_store_tx p : runs p (rollback_store_tx (X := X)).
Proof. unfold rollback_store_tx. runs_tac. Qed.
Hint Resolve runs_commit_store_tx runs_rollback_store_tx : steps.

(** ** Routing and compensation *)

Lemma runs_route_escalation p code : runs p (route_escalation (X := X) code).
Proof. unfold route_escalation. runs_tac. Qed.

Lemma runs_jump_to_link_catch p id link : runs p (jump_to_link_catch (X := X) id link).
Proof. unfold jump_to_link_catch. runs_tac. Qed.

Lemma runs_route_cancel_boundary p id : runs p (route_cancel_boundary (X := X) id).
Proof. unfold route_cancel_boundary. runs_tac. Qed.
Hint Resolve runs_route_escalation runs_jump_to_link_catch runs_route_cancel_boundary : steps.

Lemma runs_compensation_loop p fuel process chain seen : runs p (compensation_loop self fuel process chain seen).
Proof. revert chain seen. induction fuel as [|fuel IH]; intros chain seen; simpl; runs_tac. Qed.
Hint Resolve runs_compensation_loop : steps.

Lemma runs_fire_compensation p fuel only : runs p (fire_compensation self fuel only).
Proof. unfold fire_compensation, run_compensation_chain. runs_tac. Qed.
Hint Resolve runs_fire_compensation : steps.

(** ** Nested scopes *)

Section Recursion.
Context (rn : string → M X unit) (fuel : nat).
Hypothesis Hrn : ∀ p id, runs p (rn id).

Lemma runs_seed_start p inner : runs p (seed_start (X := X) inner).
Proof. unfold seed_start. runs_tac. Qed.
Hint Resolve runs_seed_start : steps.

Lemma runs_scope_step p on_error id :
  (∀ source code, runs p (on_error source code)) → runs p (scope_step rn on_error id).
Proof. intros He. unfold scope_step. pose proof (Hrn p id). runs_tac. Qed.

Lemma runs_nested_error p inner own route source code :
  (∀ source code, runs p (route source code)) → runs p (nested_error (X := X) inner own route source code).
Proof. intros Hr. unfold nested_error. runs_tac. Qed.

Lemma steps_keep_visited (s sub : ExecutionState X) : steps s (keep_visited sub s).
Proof. apply rtc_once, (step_absorb s (visited sub)). Qed.

Lemma steps_keep_store_tx (s sub : ExecutionState X) : steps s (keep_store_tx sub s).
Proof. eapply rtc_r; [apply (steps_keep_visited s sub)|apply step_store_tx]. Qed.

Lemma runs_run_event_sub_process p route id inner :
  (∀ source code, runs inner (route source code)) →
  runs p (run_event_sub_process rn fuel route id inner).
Proof.
  intros Hr. unfold run_event_sub_process. runs_tac.
  apply (runs_in_scope p inner); [done| |intros; apply steps_keep_store_tx].
  runs_tac. apply runs_scope_step. intros. by apply runs_nested_error.
Qed.

Lemma runs_route_error p depth source code : runs p (route_error rn fuel depth source code).
Proof.
  revert p source code. induction depth as [|depth IH]; intros p source code; simpl; runs_tac;
    by apply runs_run_event_sub_process.
Qed.

Lemma runs_run_worklist p : runs p (run_worklist rn fuel).
Proof. unfold run_worklist. runs_tac. apply runs_scope_step. intros. apply runs_route_error. Qed.

Lemma runs_run_call_activity p id called : runs p (run_call_activity self rn fuel id called).
Proof.
  unfold run_call_activity, run_sub_process_inline. runs_tac.
  match goal with |- runs _ (in_scope (λ _, new_state ?sub _ _ _) _ _) => apply (runs_in_scope p sub) end;
    [done| |reflexivity]. runs_tac. apply runs_run_worklist.
Qed.

Lemma runs_run_embedded_sub_process p id inner : runs p (run_embedded_sub_process rn fuel id inner).
Proof.
  unfold run_embedded_sub_process. apply (runs_in_scope p inner); [done| |intros; apply steps_keep_visited].
  runs_tac. apply runs_scope_step. intros. apply runs_nested_error, runs_route_error.
Qed.
Hint Resolve runs_run_call_activity runs_run_embedded_sub_process : steps.

Lemma runs_transaction_loop p n inner id : runs p (transaction_loop rn fuel n inner id).
Proof.
  induction n as [|n IH]; simpl; runs_tac. apply runs_nested_error, runs_route_error.
Qed.
Hint Resolve runs_transaction_loop : steps.

Lemma runs_run_transaction_sub_process p id inner : runs p (run_transaction_sub_process self rn fuel id inner).
Proof.
  unfold run_transaction_sub_process, run_transaction_body.
  apply (runs_in_scope p inner); [done| |intros; apply steps_keep_visited]. runs_tac.
Qed.

Lemma runs_completed_by p c failed : runs p (completed_by self c failed).
Proof. unfold completed_by. runs_tac. Qed.
Hint Resolve runs_completed_by : steps.

Lemma runs_run_ad_hoc_activity p activity : runs p (run_ad_hoc_activity self rn fuel activity).
Proof. unfold run_ad_hoc_activity. runs_tac. Qed.
Hint Resolve runs_run_ad_hoc_activity : steps.

Lemma runs_ad_hoc_loop p c activities : runs p (ad_hoc_loop self rn fuel c activities).
Proof. induction activities as [|a l IH]; simpl; runs_tac. Qed.

Lemma runs_run_ad_hoc_sub_process p inner c : runs p (run_ad_hoc_sub_process self rn fuel inner c).
Proof.
  apply (runs_in_scope p inner); [done|apply runs_ad_hoc_loop|intros; apply steps_keep_store_tx].
Qed.

Lemma runs_execute_inner p inner : runs p (execute_inner self rn fuel inner).
Proof. unfold execute_inner. runs_tac. Qed.
Hint Resolve runs_execute_inner : steps.

Lemma runs_multi_instance_loop p id inner v c items i : runs p (multi_instance_loop self rn fuel id inner v c items i).
Proof. revert i. induction items as [|item l IH]; intros i; simpl; unfold set_loop_counter; runs_tac. Qed.
Hint Resolve runs_multi_instance_loop : steps.

Lemma runs_run_multi_instance p id inner a b c d : runs p (run_multi_instance self rn fuel id inner a b c d).
Proof. unfold run_multi_instance. runs_tac. Qed.

Lemma runs_loop_again p id c max i : runs p (loop_again self id c max i).
Proof. unfold loop_again, loop_continues. runs_tac. Qed.
Hint Resolve runs_loop_again : steps.

Lemma runs_standard_loop p n id inner c max i again : runs p (standard_loop self rn fuel n id inner c max i again).
Proof. revert i again. induction n as [|n IH]; intros i again; simpl; unfold set_loop_counter; runs_tac. Qed.
Hint Resolve runs_standard_loop : steps.

Lemma runs_run_standard_loop p id inner c t m : runs p (run_standard_loop self rn fuel id inner c t m).
Proof. unfold run_standard_loop. runs_tac. Qed.
End Recursion.

(** ** Nodes *)

Lemma runs_bind_lift {A B} p (r : result Signal A) (k : A → M X B) :
  (∀ a, r = Ok a → runs p (k a)) → runs p (lift r ≫= k).
Proof. intros Hk. destruct r as [a|e]; [by apply Hk|]. apply refines_error. Qed.

Lemma runs_ghost_step p id node : runs p (ghost_step (X := X) id node).
Proof. unfold ghost_step, ghost_leave. runs_tac. Qed.
Hint Resolve runs_ghost_step : steps.

Lemma runs_run_service_node p id impl dm params :
  is_node p id → runs p (run_service_node self id impl dm params).
Proof.
  intros Hn. unfold run_service_node.
  apply runs_bind_read. intros s _. apply runs_bind; [by apply runs_run_service_task|]. intros [].
  { apply runs_ret. }
  do 3 (apply runs_bind; [solve [runs_tac]|intros _]).
  apply runs_bind_read. intros s2 Hs2. destruct (has_continue_reply (s_process s2) id) eqn:Hc; [|runs_tac].
  rewrite Hs2 in Hc. assert (may_park p id) by (destruct Hn as [n Hn]; left; exists n; auto).
  assert (∃ host, may_park p host) by eauto. runs_tac.
Qed.

Lemma runs_run_wait_node p id : may_park p id → runs p (run_wait_node self id).
Proof. intros Hp. unfold run_wait_node. assert (∃ host, may_park p host) by eauto. runs_tac. Qed.

Lemma runs_finish_activity p id : runs p (finish_activity (X := X) id).
Proof. unfold finish_activity. runs_tac. Qed.
Hint Resolve runs_finish_activity : steps.

Lemma runs_arm_race p flow : race_arm p (target_ref flow) → runs p (arm_race self flow).
Proof.
  intros Hr. unfold arm_race. assert (may_park p (target_ref flow)) by by right.
  assert (∃ host, may_park p host) by eauto. runs_tac.
Qed.

Lemma steps_terminate (t : bool) (s : ExecutionState X) : steps s (if t then set_work (λ _, []) s else s).
Proof. destruct t; [apply rtc_once, step_work|done]. Qed.

Lemma runs_reach_end p id t : runs p (reach_end self id t).
Proof. pose proof steps_terminate. unfold reach_end. runs_tac. Qed.
Hint Resolve runs_reach_end : steps.

Lemma process_node_found p id n : process_node p id = Ok n → node_id n = id ∧ n ∈ process_nodes p.
Proof.
  unfold process_node, ok_or. destruct (List.find _ _) as [m|] eqn:E; [|done]. intros [= <-].
  apply find_some in E as [Hin He]. split; [by apply String.eqb_eq|by apply list_elem_of_In].
Qed.

Lemma wait_may_park p id n : process_node p id = Ok n → is_wait_state n = true → may_park p id.
Proof. intros Hn Hw. left. eauto. Qed.

Section Dispatch.
Context (rn : string → M X unit) (fuel : nat).
Hypothesis Hrn : ∀ p id, runs p (rn id).

Hint Resolve runs_handle_exclusive runs_handle_inclusive runs_handle_parallel runs_handle_complex
  runs_run_call_activity runs_run_embedded_sub_process runs_run_transaction_sub_process
  runs_run_ad_hoc_sub_process runs_run_multi_instance runs_run_standard_loop : steps.

Lemma runs_dispatch_node p id node token :
  process_node p id = Ok node → runs p (dispatch_node self rn fuel id node token).
Proof.
  intros Hn. destruct (process_node_found p id node Hn) as [Hid Hin].
  assert (is_node p id) by (by exists node).
  unfold dispatch_node. destruct node; simpl in Hid; try subst id0;
    try solve [apply runs_run_wait_node; by eapply wait_may_park]; try solve [runs_tac].
  - apply runs_bind_read. intros s Hs. apply runs_bind; [|intros _; apply runs_ret].
    apply runs_each. intros flow Hf. apply runs_arm_race. exists id, name. split; [done|].
    rewrite Hs in Hf. apply list_elem_of_In, in_map, list_elem_of_In. exact Hf.
  - assert (may_park p id) by by eapply wait_may_park. assert (∃ host, may_park p host) by eauto. runs_tac.
  - destruct (starts_with CHANNEL_CALL_PREFIX implementation) eqn:E; [|by apply runs_run_service_node].
    apply runs_run_channel_call; [done|by eapply wait_may_park].
Qed.

Lemma runs_node_step p id : runs p (node_step self rn fuel id).
Proof.
  unfold node_step, live_step. apply runs_bind_read. intros s Hs. rewrite Hs.
  apply runs_bind_lift. intros node Hn.
  assert (process_node p id = Ok node) by (destruct (process_node p id); simpl in Hn; [by injection Hn as ->|done]).
  pose proof (runs_dispatch_node p id node) as Hd. runs_tac.
Qed.
End Dispatch.

Lemma runs_run_node p fuel id : runs p (run_node self fuel id).
Proof. revert p id. induction fuel as [|fuel IH]; intros p id; [apply runs_no_fuel|]. by apply runs_node_step. Qed.

Lemma runs_run_to_quiescence p fuel : runs p (run_to_quiescence self fuel).
Proof. apply runs_run_worklist. intros q id. apply runs_run_node. Qed.

End Handlers.
