(* ===== verification/Fixture.v ===== *)
(** * A concrete executor for the witnesses and the scenarios

    An executor over the in-memory data store, with small stand-ins for what the
    program is wired with: expressions are variable names, a condition holds when
    its variable is [true], the clock and the instance id are constant.  The
    theorems of the other files do not depend on it; their witnesses do. *)
From Stdlib Require Import ZArith Lia Bool Ascii String.
From stdpp Require Import base list option gmap strings.
From S2P Require Import Prelude Decimal FeelValue Temporal FeelText Timer ProcessModel Correlation Runtime.
From S2P Require Import ExecState AuditSnapshot KeyQuery MemoryStore Executor.

Open Scope string_scope.
Open Scope list_scope.
Open Scope Z_scope.

Definition fixture_condition (expr : string) (vars : Variables) : result ExecError bool :=
  match var_get expr vars with
  | Some (Boolean b) => Ok b
  | _ => Err (diag RUNTIME_UNEXPECTED ("not a condition: " +:+ expr))
  end.

(** A name that is not bound denotes itself. *)
Definition fixture_value (expr : string) (vars : Variables) : result ExecError FeelValue :=
  Ok (default (Str expr) (var_get expr vars)).

(** [tick] writes the store, so its revision counts the calls. *)
Definition fixture_tasks : TaskRegistry MemState :=
  [("ok", λ _ _ m, (Ok Null, m));
   ("fail", λ _ _ m, (Err (TaskFailed "failed"), m));
   ("tick", λ _ _ m, (Ok Null, mem_put "ticks" Null m))].

(** Every mark is the first one. *)
Definition fixture_coverage : CoverageMetricStore MemState :=
  mk_metric_store (λ _ _ m, (Ok true, m)) (λ _ _ m, (Ok [], m)) (λ _ _ m, (Ok 0, m)) (λ _ _ m, (Ok tt, m)).

Definition fixture (callee : option ProcessDefinition) : TokenExecutor MemState :=
  mk_executor fixture_tasks fixture_condition fixture_value
    (Some (λ _ _, Some (memory_store "store"))) (Some fixture_coverage)
    (Some (λ id, Ok (p ← callee; if String.eqb (process_id p) id then Some p else None)))
    None None None false None [] ∅ ∅ [] ∅ ∅
    (λ m, ("instance", m)) (λ m, ("1000000000", m)) (λ m, (mk_odt 1000000000 0, m)) (λ m, (0, m)) None.

(** ** Processes *)

Definition arrow (source target : string) : SequenceFlow := mk_flow (source +:+ ">" +:+ target) source target None.
Definition guarded (source target cond : string) : SequenceFlow :=
  mk_flow (source +:+ ">" +:+ target) source target (Some cond).

Definition start_node_of (id : string) : Node := StartEvent id None [] None.
Definition task_node (id implementation : string) : Node := ServiceTask id None implementation empty_mapping [] false.

Definition build (id : string) (nodes : list Node) (flows : list SequenceFlow) (bindings : gmap string NodeBindings)
    : ProcessDefinition :=
  match process_of id None true "1.0" nodes flows bindings [] with
  | Ok p => p
  | Err _ => mk_process id None true "1.0" [] [] ∅ ∅ ∅ [] [] [] None false []
  end.

Definition fixture_deployment : DeploymentId := mk_deployment "deployment".

Definition execute (callee : option ProcessDefinition) (p : ProcessDefinition) (vars : Variables) (m : MemState) :=
  execute_stateful_from_correlated (fixture callee) 20 p vars fixture_deployment [] None no_correlation m.

(** The frontier of a suspended pass; [None] when it did not suspend. *)
Definition frontier (r : result (fault ExecError) StatefulExecResult) : option (list string) :=
  match r with Ok (Suspended su) => Some (waiting_nodes su) | _ => None end.

(** A task, then a user task, then the end. *)
Definition waiting_process : ProcessDefinition :=
  build "waiting" [start_node_of "start"; task_node "work" "ok"; UserTask "approve" None []; EndEvent "end" None]
    [arrow "start" "work"; arrow "work" "approve"; arrow "approve" "end"] ∅.

Definition straight_process : ProcessDefinition :=
  build "straight" [start_node_of "start"; task_node "work" "ok"; EndEvent "end" None]
    [arrow "start" "work"; arrow "work" "end"] ∅.

(** Two user tasks in parallel. *)
Definition parallel_process : ProcessDefinition :=
  build "parallel"
    [start_node_of "start"; ParallelGateway "fork" None; UserTask "u1" None []; UserTask "u2" None [];
     ParallelGateway "join" None; EndEvent "end" None]
    [arrow "start" "fork"; arrow "fork" "u1"; arrow "fork" "u2"; arrow "u1" "join"; arrow "u2" "join"; arrow "join" "end"] ∅.
