(* ===== verification/Passes.v ===== *)
(** * Whole passes

    Invariants of the step relation, and what they say of [run_to_quiescence],
    [drive_stateful], the synchronous path and the outcome of a pass. *)
From Stdlib Require Import ZArith Lia Bool Ascii String.
From stdpp Require Import base list option gmap strings relations.
From S2P Require Import Prelude Decimal FeelValue Temporal FeelText Timer ProcessModel Correlation Runtime.
From S2P Require Import ExecState AuditSnapshot Gateways Timers Outbound Tasks KeyQuery MemoryStore DataTasks Scopes Executor StepRelation Fixture.

Open Scope string_scope.
Open Scope list_scope.
Open Scope Z_scope.

(** ** Lists grown by [push_new] *)

Lemma contains_elem l id : contains l id = true ↔ id ∈ l.
Proof.
  unfold contains. rewrite existsb_exists. split.
  - intros (x & Hx & E). apply String.eqb_eq in E. subst. by apply list_elem_of_In.
  - intros Hx. exists id. split; [by apply list_elem_of_In|apply String.eqb_refl].
Qed.

Lemma elem_of_push_new id x l : x ∈ push_new id l ↔ x = id ∨ x ∈ l.
Proof.
  unfold push_new. destruct (contains l id) eqn:E.
  - apply contains_elem in E. split; [by right|]. intros [->|]; done.
  - rewrite elem_of_app, list_elem_of_singleton. tauto.
Qed.

Lemma NoDup_push_new id l : NoDup l → NoDup (push_new id l).
Proof.
  intros Hl. unfold push_new. destruct (contains l id) eqn:E; [done|]. apply NoDup_app.
  split; [done|]. split; [|apply NoDup_singleton]. intros x Hx Hid. apply list_elem_of_singleton in Hid. subst x.
  apply contains_elem in Hx. congruence.
Qed.

Lemma prefix_push_new id l : l `prefix_of` push_new id l.
Proof. unfold push_new. case_match; [done|by exists [id]]. Qed.

Lemma NoDup_filter_bool {A} (f : A → bool) l : NoDup l → NoDup (List.filter f l).
Proof.
  rewrite !NoDup_ListNoDup. apply List.NoDup_filter.
Qed.

Lemma elem_of_prefix {A} (x : A) l1 l2 : x ∈ l1 → l1 `prefix_of` l2 → x ∈ l2.
Proof. intros Hx [k ->]. apply elem_of_app. by left. Qed.

Section Passes.
Context `{Crates} {X : Type}.
Implicit Types s : ExecutionState X.

(** ** Invariants of the step relation *)

(** The wait frontier: each wait once, every fresh wait on it. *)
Definition frontier_ok s : Prop :=
  NoDup (waiting s) ∧ NoDup (fresh_waits s) ∧ ∀ id, id ∈ fresh_waits s → id ∈ waiting s.

(** What a scope keeps while it runs. *)
Record grows s s' : Prop := {
  gr_process : s_process s' = s_process s;
  gr_instance : s_instance_id s' = s_instance_id s ∧ s_deployment s' = s_deployment s ∧ s_labels s' = s_labels s;
  gr_prior : prior_completed_ordered s' = prior_completed_ordered s;
  gr_completed : completed_activities s `prefix_of` completed_activities s';
  gr_waiting : waiting s `prefix_of` waiting s';
  gr_parked : ∀ id, id ∈ waiting s' → id ∈ waiting s ∨ may_park (s_process s) id;
  gr_timers : timer_waits s `prefix_of` timer_waits s';
  gr_armed : timer_waits s' = timer_waits s ∨ ∃ host, may_park (s_process s) host;
}.

#[local] Instance grows_preorder : PreOrder grows.
Proof.
  split.
  - intros s. split; try done; by left.
  - intros a b c [P1 (I1 & D1 & L1) O1 C1 W1 K1 T1 A1] [P2 (I2 & D2 & L2) O2 C2 W2 K2 T2 A2].
    split; [congruence|repeat split; congruence|congruence|by etrans|by etrans| |by etrans|].
    + intros id Hid. destruct (K2 id Hid) as [Hw|Hp]; [by apply K1|right; by rewrite <- P1].
    + destruct A2 as [A2|A2]; [|right; by rewrite <- P1]. rewrite A2. exact A1.
Qed.

Lemma fire_keeps flow s :
  let s' := fire flow s in
  s_instance_id s' = s_instance_id s ∧ s_deployment s' = s_deployment s ∧ s_labels s' = s_labels s
  ∧ prior_completed_ordered s' = prior_completed_ordered s ∧ completed_activities s' = completed_activities s
  ∧ waiting s' = waiting s ∧ fresh_waits s' = fresh_waits s ∧ timer_waits s' = timer_waits s
  ∧ retry_attempts s' = retry_attempts s.
Proof. unfold fire. repeat case_match; repeat split. Qed.

Lemma step_grows s s' : step s s' → grows s s'.
Proof.
  destruct 1; try (split; try done; by left).
  - destruct (fire_keeps flow s) as (H1 & H2 & H3 & H4 & H5 & H6 & H7 & H8 & _).
    split; [apply fire_process|done|done|by rewrite H5|by rewrite H6|rewrite H6; by left|by rewrite H8|by left].
  - split; try done; [by exists [id]|by left|by left].
  - split; try done; [apply prefix_push_new| |by left].
    intros x Hx. apply elem_of_push_new in Hx as [->|]; [by right|by left].
  - split; try done; [apply prefix_push_new| |by left].
    intros x Hx. apply elem_of_push_new in Hx as [->|]; [by right|by left].
  - split; try done; [by left|by exists [t]|by right].
Qed.

Lemma steps_grows s s' : rtc step s s' → grows s s'.
Proof. induction 1 as [|a b c Hab _ IH]; [reflexivity|]. etrans; [by apply step_grows|done]. Qed.

Lemma step_frontier s s' : step s s' → frontier_ok s → frontier_ok s'.
Proof.
  intros Hst (Hw & Hf & Hi). destruct Hst; try done.
  - destruct (fire_keeps flow s) as (_ & _ & _ & _ & _ & H6 & H7 & _). unfold frontier_ok. by rewrite H6, H7.
  - split; [by apply NoDup_push_new|]. split; [by apply NoDup_push_new|]. intros x.
    change (x ∈ push_new id (fresh_waits s) → x ∈ push_new id (waiting s)). rewrite !elem_of_push_new. intros [->|]; [by left|right; by apply Hi].
  - split; [by apply NoDup_push_new|]. split; [done|]. intros x Hx. apply elem_of_push_new. right. by apply Hi.
Qed.

Lemma steps_frontier s s' : rtc step s s' → frontier_ok s → frontier_ok s'.
Proof. induction 1 as [|a b c Hab _ IH]; [done|]. intros Ha. by eapply IH, step_frontier. Qed.

(** Recorded attempts stay below the maximum of their policy. *)
Definition budget_ok s : Prop :=
  ∀ id n policy, retry_attempts s !! id = Some n → retry_policy (s_process s) id = Some policy → n < max_attempts policy.

Lemma step_budget s s' : step s s' → budget_ok s → budget_ok s'.
Proof.
  intros Hst Hb. destruct Hst; try done.
  - destruct (fire_keeps flow s) as (_ & _ & _ & _ & _ & _ & _ & _ & H9). unfold budget_ok.
    by rewrite H9, fire_process.
  - intros x n pol. simpl. destruct (decide (x = id)) as [->|Hne].
    + rewrite lookup_insert_eq. intros [= <-] Hp. congruence.
    + rewrite lookup_insert_ne by done. apply Hb.
  - intros x n pol. simpl. rewrite lookup_delete_Some. intros [_ Hx]. by apply Hb.
Qed.

Lemma steps_budget s s' : rtc step s s' → budget_ok s → budget_ok s'.
Proof. induction 1 as [|a b c Hab _ IH]; [done|]. intros Ha. by eapply IH, step_budget. Qed.

Context (self : TokenExecutor X).

(** ** The end of a pass *)

(** The bind of the monad, one computation at a time. *)
Lemma bind_run {A B} (m : M X A) (k : A → M X B) w s :
  (m ≫= k) w s = match m w s with (Ok a, w', s') => k a w' s' | (Err e, w', s') => (Err e, w', s') end.
Proof. reflexivity. Qed.

(** A suspended pass reports the state it stopped in. *)
Lemma drive_suspended fuel event start w s su w' s' :
  drive_stateful self fuel event start w s = (Ok (Suspended su), w', s') →
  rtc step s s' ∧ waiting s' ≠ [] ∧ ∃ vars, su = suspension start vars s'.
Proof.
  unfold drive_stateful. rewrite bind_run. unfold attempt.
  destruct (run_to_quiescence self fuel w s) as [[[[]|[sig| |]] w1] s1] eqn:Er; try done.
  destruct (runs_run_to_quiescence self (s_process s) fuel w s _ w1 s1 eq_refl Er) as (_ & Hst & _).
  rewrite bind_run. cbn beta iota delta [read].
  match goal with |- context [is_nil ?l] => destruct l eqn:Hw end; simpl.
  - rewrite bind_run. cbn beta iota delta [read].
    match goal with |- context [negb ?b] => destruct b end; simpl; [|done].
    unfold complete_instance. rewrite bind_run. destruct (mark_coverage self event w1 s1) as [[[?|?] ?] ?]; done.
  - intros [= <- <- <-]. split; [done|]. split; [|by eexists].
    intros Hn. discriminate (eq_trans (eq_sym Hw) Hn).
Qed.

Lemma begin_pass_state process vars deployment labels instance start w s event w' s' :
  begin_pass self process vars deployment labels instance start w s = (Ok event, w', s') →
  ∃ q, s' = set_work (λ _, q) s.
Proof.
  unfold begin_pass, start_of, lift, mbind, M_bind, notify, update, mret, M_ret, raise.
  destruct (non_blank start); [intros [= <- <- <-]; by eexists|].
  destruct (start_event process); simpl; [intros [= <- <- <-]; by eexists|done].
Qed.

Lemma new_frontier process deployment labels instance : frontier_ok (new_state (X := X) process deployment labels instance).
Proof. split; [constructor|]. split; [constructor|]. intros id Hid. by apply not_elem_of_nil in Hid. Qed.

Lemma union_completed_nodup s : NoDup (prior_completed_ordered s) → NoDup (union_completed s).
Proof.
  unfold union_completed. generalize (prior_completed_ordered s) as l. induction (completed_activities s) as [|a r IH]; intros l Hl; [done|].
  simpl. by apply IH, NoDup_push_new.
Qed.

Lemma union_completed_prefix s : prior_completed_ordered s `prefix_of` union_completed s.
Proof.
  unfold union_completed. generalize (prior_completed_ordered s) as l. induction (completed_activities s) as [|a r IH]; intros l; [done|].
  simpl. etrans; [apply (prefix_push_new a)|apply IH].
Qed.

(** What a snapshot promises the next resume: the instance waits somewhere, at each
    node once and only where the process may wait; every fresh wait is one of them;
    the completed nodes are listed once each; every recorded retry count is below the
    maximum of its policy. *)
Record snapshot_ok (p : ProcessDefinition) (su : Suspension) : Prop := {
  sn_waits : waiting_nodes su ≠ [];
  sn_waits_once : NoDup (waiting_nodes su);
  sn_waits_allowed : ∀ id, id ∈ waiting_nodes su → may_park p id;
  sn_fresh : ∀ id, id ∈ su_fresh_waits su → id ∈ waiting_nodes su;
  sn_completed_once : NoDup (completed_nodes su);
  sn_budget : ∀ id n policy, su_retry_attempts su !! id = Some n → retry_policy p id = Some policy → n < max_attempts policy;
}.

(** The state a pass may be in. *)
Record scope_inv (p : ProcessDefinition) s : Prop := {
  sc_process : s_process s = p;
  sc_frontier : frontier_ok s;
  sc_parked : ∀ id, id ∈ waiting s → may_park p id;
  sc_prior : NoDup (prior_completed_ordered s);
  sc_budget : budget_ok s;
}.

Lemma scope_inv_steps p s s' : rtc step s s' → scope_inv p s → scope_inv p s'.
Proof.
  intros Hst [Hp Hf Hk Ho Hb]. pose proof (steps_grows _ _ Hst) as [Gp _ Go _ _ Gk _ _].
  split; [congruence|by eapply steps_frontier| |by rewrite Go|by eapply steps_budget].
  intros id Hid. destruct (Gk id Hid) as [|Hm]; [by apply Hk|by rewrite Hp in Hm].
Qed.

Lemma new_inv process deployment labels instance : scope_inv process (new_state (X := X) process deployment labels instance).
Proof. split; try done; [apply new_frontier| |constructor]. intros id Hid. by apply not_elem_of_nil in Hid. Qed.

(** A pass that starts in an allowed state suspends with a sound snapshot. *)
Lemma drive_snapshot_ok p fuel event start w s su w' s' :
  scope_inv p s → drive_stateful self fuel event start w s = (Ok (Suspended su), w', s') → snapshot_ok p su.
Proof.
  intros Hs Ed. destruct (drive_suspended _ _ _ _ _ _ _ _ Ed) as (Hst & Hne & v & ->).
  destruct (scope_inv_steps _ _ _ Hst Hs) as [Hp (Hw & _ & Hf) Hk Ho Hb].
  split; try done; [by apply union_completed_nodup|]. simpl. intros id n policy Hn Hpol. apply (Hb id n policy Hn). by rewrite Hp.
Qed.

(** The result of a pass is the result of its body. *)
Lemma pass_ok {A} (m : M X A) process instance vars deployment labels corr x a w :
  pass m process instance vars deployment labels corr x = (Ok a, w) →
  ∃ s', m (mk_world (mk_ctx deployment labels instance (process_id process) "" false vars) [] [] x)
          (set_correlation (λ _, corr) (new_state process deployment labels instance)) = (Ok a, w, s').
Proof.
  unfold pass. destruct (m _ _) as [[[a'|[]] w'] s']; simpl; intros [= -> ->]. by exists s'.
Qed.

Lemma first_pass_snapshot fuel process vars deployment labels start corr x su w :
  execute_stateful_from_correlated self fuel process vars deployment labels start corr x = (Ok (Suspended su), w) →
  snapshot_ok process su.
Proof.
  unfold execute_stateful_from_correlated. destruct (uuid_supplier self x) as [instance x1].
  intros (s' & E)%pass_ok. rewrite bind_run in E.
  destruct (begin_pass _ _ _ _ _ _ _ _ _) as [[[event|e] w1] s1] eqn:Eb; [|done].
  apply begin_pass_state in Eb as [q ->]. eapply drive_snapshot_ok; [|exact E]. by destruct (new_inv process deployment labels instance).
Qed.

(** ** The synchronous path *)

Definition is_race_gateway (n : Node) : bool := match n with EventBasedGateway _ _ => true | _ => false end.
Definition no_races (p : ProcessDefinition) : bool := forallb (λ n, negb (is_race_gateway n)) (process_nodes p).

Lemma eligible_never_parks p id : is_sync_eligible p = true → no_races p = true → ¬ may_park p id.
Proof.
  intros He Hr [(n & Hn & Hp)|(gw & name & Hin & _)].
  - apply process_node_found in Hn as [Hid Hin]. subst id. destruct p as [? ? ? ? nodes ? ? ? bindings]. simpl in *.
    rewrite forallb_forall in He. apply list_elem_of_In in Hin. specialize (He n Hin).
    apply andb_true_iff in He as [[Hw Hc]%andb_true_iff Hre]. apply negb_true_iff in Hw, Hc, Hre.
    unfold has_retry_policy, has_continue_reply, bindings_for in Hp. simpl in Hp.
    destruct Hp as [Hp|[Hp|Hp]]; congruence.
  - unfold no_races in Hr. rewrite forallb_forall in Hr. apply list_elem_of_In in Hin.
    by specialize (Hr _ Hin).
Qed.

(** A pass of a process that never parks ends with an empty frontier. *)
Lemma quiescence_not_waiting fuel w s r w' s' :
  (∀ id, ¬ may_park (s_process s) id) → waiting s = [] →
  run_to_quiescence self fuel w s = (r, w', s') → waiting s' = [].
Proof.
  intros Hp Hw E. destruct (runs_run_to_quiescence self (s_process s) fuel w s r w' s' eq_refl E) as (_ & Hst & _).
  pose proof (gr_parked _ _ (steps_grows _ _ Hst)) as Gk. destruct (waiting s') as [|id l]; [done|].
  destruct (Gk id) as [Hin|Hpark]; [by left| |by destruct (Hp id)]. rewrite Hw in Hin. by apply not_elem_of_nil in Hin.
Qed.

(** Both drivers after a quiescent run that is not waiting. *)
Lemma drivers_quiet fuel event start w s w1 s1 :
  run_to_quiescence self fuel w s = (Ok tt, w1, s1) → waiting s1 = [] →
  if reached_end s1 then
    drive_stateful self fuel event start w s
      = complete_instance self event (λ s, Completed (s_instance_id s) (end_outputs s) (visited s)) w1 s1
    ∧ drive_sync self fuel event w s
      = complete_instance self event (λ s, mk_exec_result (s_instance_id s) (end_outputs s) (visited s)) w1 s1
  else is_ok (drive_stateful self fuel event start w s).1.1 = false ∧ is_ok (drive_sync self fuel event w s).1.1 = false.
Proof.
  intros Er Hw. unfold drive_stateful, drive_sync, attempt, mbind, M_bind, read. rewrite !Er.
  destruct s1. simpl in Hw |- *. rewrite Hw. simpl.
  destruct reached_end; done.
Qed.

Lemma complete_instance_result {A B} event (f : ExecutionState X → A) (g : A → B) w s :
  complete_instance self event (λ s, g (f s)) w s
  = let '(r, w', s') := complete_instance self event f w s in
    (match r with Ok a => Ok (g a) | Err e => Err e end, w', s').
Proof.
  unfold complete_instance. rewrite !bind_run. destruct (mark_coverage self event w s) as [[[?|?] ?] ?]; done.
Qed.

Definition as_stateful (e : ExecResult) : StatefulExecResult :=
  Completed (er_instance_id e) (er_outputs e) (er_visited_nodes e).

(** The two drivers complete in the same runs, with the same result and world. *)
Lemma drivers_agree fuel event start w s w' :
  (∀ id, ¬ may_park (s_process s) id) → waiting s = [] →
  (∀ res s', drive_stateful self fuel event start w s = (Ok res, w', s') →
     ∃ e, res = as_stateful e ∧ drive_sync self fuel event w s = (Ok e, w', s'))
  ∧ (∀ e s', drive_sync self fuel event w s = (Ok e, w', s') →
       drive_stateful self fuel event start w s = (Ok (as_stateful e), w', s')).
Proof.
  intros Hp Hw.
  destruct (run_to_quiescence self fuel w s) as [[[[]|[sig| |]] w1] s1] eqn:Er; cycle 1.
  1-3: unfold drive_stateful, drive_sync, attempt, mbind, M_bind; rewrite !Er; done.
  pose proof (quiescence_not_waiting _ _ _ _ _ _ Hp Hw Er) as Hw1.
  pose proof (drivers_quiet _ event start _ _ _ _ Er Hw1) as Hd. destruct (reached_end s1).
  - destruct Hd as [-> ->].
    change (λ s0 : ExecutionState X, Completed (s_instance_id s0) (end_outputs s0) (visited s0))
      with (λ s0 : ExecutionState X, as_stateful (mk_exec_result (s_instance_id s0) (end_outputs s0) (visited s0))).
    rewrite complete_instance_result. destruct (complete_instance _ _ _ _ _) as [[[e|?] w2] s2]; [|done].
    split; [intros res s' [= <- <- <-]; by exists e|by intros e' s' [= <- <- <-]].
  - destruct Hd as [H1 H2]. split; intros ? ? E; rewrite E in *; done.
Qed.

(** C1: A process that is sync-eligible and has no event-based gateway never
    suspends, and the synchronous and the stateful path agree on it: one completes
    exactly when the other does, with the same instance id, outputs, visited nodes,
    listener events, emissions and external state. *)
Theorem sync_and_stateful_agree (fuel : nat) (process : ProcessDefinition) (vars : Variables)
    (deployment : DeploymentId) (labels : Labels) (start : option string) (corr : CoverageCorrelation) (x : X) :
  is_sync_eligible process = true → no_races process = true →
  let stateful := execute_stateful_from_correlated self fuel process vars deployment labels start corr x in
  let sync := execute_sync_from_correlated self fuel process vars deployment labels start corr x in
  (∀ su, stateful.1 ≠ Ok (Suspended su))
  ∧ ∀ e w, sync = (Ok e, Some w) ↔ stateful = (Ok (as_stateful e), w).
Proof.
  intros He Hr. unfold execute_stateful_from_correlated, execute_sync_from_correlated, pass. rewrite He. simpl negb. cbn iota.
  destruct (uuid_supplier self x) as [instance x1]. rewrite !bind_run. set (s0 := set_correlation _ _).
  destruct (begin_pass _ _ _ _ _ _ _ _ s0) as [[[event|[]] w1] s1] eqn:Eb; [|split; [done|by intros; split]..].
  apply begin_pass_state in Eb as [q ->].
  assert (Hd := λ w', drivers_agree fuel event start w1 (set_work (λ _, q) s0) w'
                 (λ id, eligible_never_parks process id He Hr) eq_refl).
  destruct (drive_stateful _ _ _ _ _ _) as [[rs w2] s2] eqn:E1, (drive_sync _ _ _ _ _) as [[re w3] s3] eqn:E2.
  split.
  - intros su. destruct rs as [res|[]]; try done. simpl. intros [= ->].
    destruct (proj1 (Hd w2) _ _ eq_refl) as (e & ? & _). done.
  - intros e w. split.
    + destruct re as [res|[]]; try done. intros [= -> ->]. by injection (proj2 (Hd w) _ _ eq_refl) as -> -> ->.
    + destruct rs as [res|[]]; try done. intros [= -> ->].
      destruct (proj1 (Hd w) _ _ eq_refl) as (e' & He' & [= -> -> ->]). destruct e, e'. injection He' as -> -> ->. done.
Qed.
End Passes.

Lemma sync_and_stateful_agree_witness :
  is_ok (execute None straight_process [] empty_mem).1 = true
  ∧ ∀ su, (execute None straight_process [] empty_mem).1 ≠ Ok (Suspended su).
Proof.
  split; [vm_compute; reflexivity|]. unfold execute.
  assert (He : is_sync_eligible straight_process = true) by (vm_compute; reflexivity).
  assert (Hr : no_races straight_process = true) by (vm_compute; reflexivity).
  exact (proj1 (sync_and_stateful_agree (fixture None) 20 straight_process [] fixture_deployment [] None no_correlation
                  empty_mem He Hr)).
Defined.
