(* ===== verification/GhostWalk.v ===== *)
(** * The reconstruction walk of a resume ([reconstruct], [ghost_step])

    A resume first replays the completed part of the graph with ghost tokens, to
    rebuild the arrival counts of converging gateways.  The walk is silent: no
    listener event, no emission, no external call, no variable write, no wait, no
    completed activity.  It is also bounded: a ghost fires each flow at most once,
    so the walk pops at most [2 * |flows| + 2] work items, a link throw counting
    twice for the catch it jumps to.

    [ghostly k m Q] says that [m], run by a ghost, keeps all that, raises the
    potential (unfired flows and work items) by at most [k], and returns a value
    that satisfies [Q] or raises a signal. *)
From Stdlib Require Import ZArith Lia Bool Ascii String.
From stdpp Require Import base list option gmap strings relations.
From S2P Require Import Prelude Decimal FeelValue Temporal FeelText Timer ProcessModel Correlation Runtime.
From S2P Require Import ExecState AuditSnapshot Gateways Timers Outbound Tasks KeyQuery MemoryStore DataTasks Scopes Executor Resume StepRelation Fixture.

Open Scope string_scope.
Open Scope list_scope.
Open Scope nat_scope.

(** ** What a ghost may write *)

(** The state without what the walk writes. *)
Definition core {X} (s : ExecutionState X) : ExecutionState X :=
  set_work (λ _, []) (set_flow_trace (λ _, []) (set_path_progress (λ _, ∅) (set_visited (λ _, ∅)
    (set_parallel_arrivals (λ _, ∅) (set_inclusive_arrivals (λ _, ∅) (set_inclusive_expected (λ _, ∅)
      (set_complex_arrivals (λ _, ∅) (set_complex_fired (λ _, ∅) (set_ghost_flows (λ _, ∅) s))))))))).

Definition is_link_throw (n : result SutraError Node) : bool :=
  match n with Ok (IntermediateThrowEvent _ _ ThrowLink _ _) => true | _ => false end.

Definition weight (p : ProcessDefinition) (id : string) : nat := if is_link_throw (process_node p id) then 2 else 1.

Definition work_weight (p : ProcessDefinition) (l : list string) : nat := list_sum (map (weight p) l).

Definition unfired (p : ProcessDefinition) (fired : gset string) : list SequenceFlow :=
  List.filter (λ f, negb (bool_decide (flow_id f ∈ fired))) (process_flows p).

Definition potential {X} (p : ProcessDefinition) (s : ExecutionState X) : nat :=
  2 * length (unfired p (ghost_flows s)) + work_weight p (work s).

Lemma weight_bounds p id : 1 ≤ weight p id ≤ 2.
Proof. unfold weight. destruct (is_link_throw _); lia. Qed.

Lemma work_weight_app p l1 l2 : work_weight p (l1 ++ l2) = work_weight p l1 + work_weight p l2.
Proof. unfold work_weight. by rewrite map_app, list_sum_app. Qed.

Lemma filter_length_lt {A} (f g : A → bool) l x :
  (∀ y, f y = true → g y = true) → x ∈ l → f x = false → g x = true →
  length (List.filter f l) < length (List.filter g l).
Proof.
  intros Hfg Hx Hf Hg.
  assert (Hle : ∀ l, length (List.filter f l) ≤ length (List.filter g l)).
  { clear x l Hx Hf Hg. intros l. induction l as [|y l IH]; [done|]. simpl.
    destruct (f y) eqn:E; [rewrite (Hfg y E); simpl; lia|]. destruct (g y); simpl; lia. }
  induction Hx as [x l|x y l Hx IH]; simpl.
  - rewrite Hf, Hg. simpl. specialize (Hle l). lia.
  - specialize (IH Hf Hg). destruct (f y) eqn:E; [rewrite (Hfg y E); simpl; lia|]. destruct (g y); simpl; lia.
Qed.

(** Marking a flow of the process pays for the work item it adds. *)
Lemma unfired_insert p fired flow :
  flow ∈ process_flows p → flow_id flow ∉ fired →
  length (unfired p ({[flow_id flow]} ∪ fired)) < length (unfired p fired).
Proof.
  intros Hin Hnot. apply (filter_length_lt _ _ _ flow); [|done| |].
  - intros y. rewrite !negb_true_iff, !bool_decide_eq_false. set_solver.
  - apply negb_false_iff, bool_decide_eq_true. set_solver.
  - by apply negb_true_iff, bool_decide_eq_false.
Qed.

Lemma outgoing_flows p id flow : flow ∈ outgoing p id → flow ∈ process_flows p.
Proof.
  unfold outgoing, flows_at. rewrite list_elem_of_omap. intros (i & _ & Hi). by eapply list_elem_of_lookup_2.
Qed.

(** With distinct node ids, a link catch is not a link throw. *)
Lemma link_catch_weight p name id :
  NoDup (node_id <$> process_nodes p) → link_catch p name = Some id → weight p id = 1.
Proof.
  intros Hnd Hl. unfold link_catch in Hl. apply head_Some_elem_of, list_elem_of_omap in Hl as (n & Hn & Hm).
  destruct n; try done. case_match; [|done]. injection Hm as ->.
  unfold weight, process_node. change id with (node_id (LinkCatchEvent id name0 link_name)).
  by rewrite (find_unique_key node_id (process_nodes p) _ Hnd Hn).
Qed.

Section GhostWalk.
Context `{Crates} {X : Type} (self : TokenExecutor X) (p : ProcessDefinition).
Context (Hunique : NoDup (node_id <$> process_nodes p)).
Implicit Types s : ExecutionState X.

Definition walking s : Prop := ghost s = true ∧ s_process s = p.

Definition ghostly {A} (k : nat) (m : M X A) (Q : A → Prop) : Prop :=
  ∀ w s r w' s', walking s → m w s = (r, w', s') →
    w' = w ∧ core s' = core s ∧ potential p s' ≤ potential p s + k
    ∧ match r with Ok a => Q a | Err (Rejected _) => True | Err _ => False end.

Abbreviation ghostly_any k m := (ghostly k m (λ _, True)).

Lemma core_walking s s' : core s' = core s → walking s → walking s'.
Proof.
  intros E [Hg Hp]. split; [rewrite <- Hg; exact (f_equal ghost E)|rewrite <- Hp; exact (f_equal s_process E)].
Qed.
(** ** Rules *)

Lemma ghostly_bind {A B} k1 k2 (m : M X A) (f : A → M X B) Q R :
  ghostly k1 m Q → (∀ a, Q a → ghostly k2 (f a) R) → ghostly (k1 + k2) (m ≫= f) R.
Proof.
  intros Hm Hf w s r w' s' Hs E. unfold mbind, M_bind in E.
  destruct (m w s) as [[[a|e] w1] s1] eqn:Em; destruct (Hm w s _ _ _ Hs Em) as (-> & Hc & Hp & Hq).
  - destruct (Hf a Hq w s1 r w' s' (core_walking _ _ Hc Hs) E) as (-> & Hc' & Hp' & Hr).
    split; [done|]. split; [congruence|]. split; [lia|done].
  - injection E as <- <- <-. split; [done|]. split; [done|]. split; [lia|]. by destruct e.
Qed.

(** The common case: only one side costs. *)
Lemma ghostly_then {A B} k (m : M X A) (f : A → M X B) R :
  ghostly_any 0 m → (∀ a, ghostly k (f a) R) → ghostly k (m ≫= f) R.
Proof. intros Hm Hf. by apply (ghostly_bind 0 k _ _ (λ _, True)). Qed.

Lemma ghostly_bind_read {A B} k (f : ExecutionState X → A) (m : A → M X B) R :
  (∀ s, walking s → ghostly k (m (f s)) R) → ghostly k (read f ≫= m) R.
Proof. intros Hm w s r w' s' Hs E. exact (Hm s Hs w s r w' s' Hs E). Qed.

Lemma ghostly_bind_ghost {B} k (m : bool → M X B) R : ghostly k (m true) R → ghostly k (read ghost ≫= m) R.
Proof.
  intros Hm w s r w' s' Hs E. pose proof (proj1 Hs) as Hg.
  exact (Hm w s r w' s' Hs (eq_trans (f_equal (λ b, m b w s) (eq_sym Hg)) E)).
Qed.

Lemma ghostly_ret {A} k (a : A) (Q : A → Prop) : Q a → ghostly k (mret a) Q.
Proof. intros Hq w s r w' s' Hs [= <- <- <-]. split; [done|]. split; [done|]. split; [lia|done]. Qed.

Lemma ghostly_raise {A} k sig (Q : A → Prop) : ghostly k (raise sig) Q.
Proof. intros w s r w' s' Hs [= <- <- <-]. split; [done|]. split; [done|]. split; [lia|done]. Qed.

Lemma ghostly_lift {A} (r : result Signal A) : ghostly_any 0 (lift r).
Proof. destruct r; [by apply ghostly_ret|apply ghostly_raise]. Qed.

Lemma ghostly_get_vars : ghostly_any 0 get_vars.
Proof. intros w s r w' s' Hs [= <- <- <-]. split; [done|]. split; [done|]. split; [lia|done]. Qed.

Lemma ghostly_update k f :
  (∀ s, walking s → core (f s) = core s ∧ potential p (f s) ≤ potential p s + k) → ghostly_any k (update f).
Proof. intros Hf w s r w' s' Hs [= <- <- <-]. destruct (Hf s Hs) as [Hc Hp]. done. Qed.

Lemma ghostly_each {A} (l : list A) f : (∀ a, ghostly_any 0 (f a)) → ghostly_any 0 (each l f).
Proof. intros Hf. induction l as [|a l IH]; [by apply ghostly_ret|]. simpl. apply ghostly_then; [apply Hf|done]. Qed.

(** ** State operations *)

Definition cheap (f : ExecutionState X → ExecutionState X) : Prop :=
  ∀ s, walking s → core (f s) = core s ∧ potential p (f s) ≤ potential p s.

Lemma cheap_compose f g : cheap f → cheap g → cheap (λ s, g (f s)).
Proof.
  intros Hf Hg s Hs. destruct (Hf s Hs) as [C1 P1]. destruct (Hg (f s) (core_walking _ _ C1 Hs)) as [C2 P2].
  split; [congruence|lia].
Qed.

Lemma ghostly_cheap f : cheap f → ghostly_any 0 (update f).
Proof. intros Hf. apply ghostly_update. intros s Hs. destruct (Hf s Hs). split; [done|lia]. Qed.

Lemma cheap_fire flow : flow ∈ process_flows p → cheap (fire flow).
Proof.
  intros Hin s [Hg Hp]. unfold fire. rewrite Hg. simpl. destruct (bool_decide _) eqn:Hf; [done|].
  apply bool_decide_eq_false in Hf. split; [case_match; reflexivity|].
  assert (Hw : potential p (set_work (λ w, w ++ [target_ref flow])
                 (set_ghost_flows (λ g, {[flow_id flow]} ∪ g) s)) ≤ potential p s).
  { unfold potential. simpl. rewrite work_weight_app. pose proof (unfired_insert p _ flow Hin Hf).
    unfold work_weight at 2. simpl. pose proof (weight_bounds p (target_ref flow)). lia. }
  case_match; exact Hw.
Qed.

Lemma cheap_fire_all flows : Forall (λ f, f ∈ process_flows p) flows → cheap (fire_all flows).
Proof.
  induction 1 as [|f flows Hf _ IH]; [done|]. exact (cheap_compose _ _ (cheap_fire f Hf) IH).
Qed.

Lemma cheap_enqueue id : cheap (enqueue_outgoing id).
Proof.
  intros s Hs. apply cheap_fire_all; [|done]. apply Forall_forall. intros f Hf.
  destruct Hs as [_ Hp]. eapply outgoing_flows. rewrite <- Hp. exact Hf.
Qed.

Lemma cheap_route_fork flow : flow ∈ process_flows p → cheap (route_inclusive_fork flow).
Proof.
  intros Hin s Hs. unfold route_inclusive_fork.
  assert (Hfold : ∀ joins, cheap (fold_left (λ s join_id, set_inclusive_expected (bump join_id) s) joins)).
  { intros joins. induction joins as [|j joins IH]; [done|].
    exact (cheap_compose (set_inclusive_expected (bump j)) _ (λ s _, conj eq_refl (le_n _)) IH). }
  exact (cheap_compose _ _ (cheap_fire flow Hin) (Hfold _) s Hs).
Qed.

(** ** Handlers *)

Ltac ghostly_step :=
  match goal with
  | |- ghostly _ (read _ ≫= _) _ => apply ghostly_bind_read; intros ? [? ?]
  | |- ghostly _ (_ ≫= _) _ => apply ghostly_then; [|intros ?]
  | |- ghostly _ (mret _) _ => apply ghostly_ret; try done
  | |- ghostly _ (raise _) _ => apply ghostly_raise
  | |- ghostly _ (lift _) _ => apply ghostly_lift
  | |- ghostly _ get_vars _ => apply ghostly_get_vars
  | |- ghostly _ (update _) _ => apply ghostly_cheap; first [solve [eauto] | by intros ? ?]
  | |- ghostly _ (match ?x with _ => _ end) _ => destruct x eqn:?
  end.
Ltac ghostly_tac := intros; repeat first [ghostly_step | solve [eauto]].

Lemma first_satisfied_in d vars flows f : first_satisfied self d vars flows = Ok (Some f) → f ∈ flows.
Proof.
  induction flows as [|g flows IH]; simpl; [done|]. destruct (is_default d g); [intros; right; by apply IH|].
  destruct (flow_satisfied self vars g) as [[|]|]; simpl; [|intros; right; by apply IH|done]. intros [= ->]. by left.
Qed.

Lemma default_flow_in d flows f : default_flow d flows = Some f → f ∈ flows.
Proof.
  unfold default_flow. destruct d as [d|]; simpl; [|done]. intros Hf. apply find_some in Hf as [Hf _].
  by apply list_elem_of_In.
Qed.

Lemma ghostly_handle_exclusive id d : ghostly_any 0 (handle_exclusive self id d).
Proof.
  unfold handle_exclusive. apply ghostly_bind_read. intros s [_ Hp].
  apply ghostly_then; [apply ghostly_get_vars|]. intros vars.
  destruct (first_satisfied self d vars (outgoing (s_process s) id)) as [chosen|] eqn:E; [|apply ghostly_raise].
  apply (ghostly_bind 0 0 _ _ (λ c, c = chosen)); [by apply ghostly_ret|]. intros c ->.
  assert (Hin : ∀ f, f ∈ outgoing (s_process s) id → f ∈ process_flows p) by (rewrite Hp; intros f; apply outgoing_flows).
  destruct chosen as [f|]; [apply ghostly_cheap, cheap_fire, Hin; by eapply first_satisfied_in|].
  destruct (default_flow d _) as [f|] eqn:Ed; [|apply ghostly_raise].
  apply ghostly_cheap, cheap_fire, Hin. by eapply default_flow_in.
Qed.

Lemma ghostly_fork_loop d vars flows n :
  Forall (λ f, f ∈ process_flows p) flows → ghostly_any 0 (fork_loop self d vars flows n).
Proof.
  intros Hf. revert n. induction Hf as [|f flows Hf _ IH]; intros n; simpl; [by apply ghostly_ret|].
  destruct (is_default d f); [apply IH|]. apply ghostly_then; [apply ghostly_lift|]. intros [|]; [|apply IH].
  apply ghostly_then; [by apply ghostly_cheap, cheap_route_fork|]. intros _. apply IH.
Qed.

Lemma ghostly_inclusive_fork kind id d : ghostly_any 0 (inclusive_fork self kind id d).
Proof.
  unfold inclusive_fork. apply ghostly_bind_read. intros s [_ Hp].
  assert (Hin : Forall (λ f, f ∈ process_flows p) (outgoing (s_process s) id))
    by (rewrite Hp; apply Forall_forall; intros f; apply outgoing_flows).
  apply ghostly_then; [apply ghostly_get_vars|]. intros vars.
  apply ghostly_then; [by apply ghostly_fork_loop|]. intros [|n]; [|by apply ghostly_ret].
  destruct (default_flow d _) as [f|] eqn:Ed; [|apply ghostly_raise].
  apply ghostly_then; [|intros; by apply ghostly_ret]. apply ghostly_cheap, cheap_route_fork.
  rewrite Forall_forall in Hin. apply Hin. by eapply default_flow_in.
Qed.

Lemma ghostly_defer token : ghostly_any 0 (defer_token token).
Proof. unfold defer_token. apply ghostly_bind_ghost. ghostly_tac. Qed.

(** A join that fires resets its counters, then enqueues. *)
Lemma cheap_reset_enqueue f id :
  (∀ s, core (f s) = core s ∧ potential p (f s) = potential p s) → cheap (λ s, enqueue_outgoing id (f s)).
Proof.
  intros Hf. apply cheap_compose; [|apply cheap_enqueue]. intros s _. destruct (Hf s) as [-> ->]. done.
Qed.

Lemma ghostly_gateways id d c token :
  ghostly_any 0 (handle_inclusive self id d token) ∧ ghostly_any 0 (handle_parallel id token)
  ∧ ghostly_any 0 (handle_complex self id d c token).
Proof.
  pose proof ghostly_defer. pose proof ghostly_inclusive_fork. pose proof cheap_enqueue.
  assert (Hr1 : cheap (λ s, enqueue_outgoing id (set_inclusive_expected (delete id) (set_inclusive_arrivals (delete id) s))))
    by by apply (cheap_reset_enqueue (λ s, set_inclusive_expected (delete id) (set_inclusive_arrivals (delete id) s))).
  assert (Hr2 : cheap (λ s, enqueue_outgoing id (set_parallel_arrivals (delete id) s)))
    by by apply (cheap_reset_enqueue (set_parallel_arrivals (delete id))).
  assert (Hr3 : cheap (λ s, enqueue_outgoing id
                   (set_complex_arrivals (delete id) (set_complex_fired (λ c, {[id]} ∪ c) s))))
    by by apply (cheap_reset_enqueue (λ s, set_complex_arrivals (delete id) (set_complex_fired (λ c, {[id]} ∪ c) s))).
  unfold handle_inclusive, handle_parallel, handle_complex. split; [|split]; ghostly_tac.
Qed.

(** ** One ghost *)

Definition is_gateway (n : Node) : bool :=
  match n with
  | ExclusiveGateway _ _ _ | InclusiveGateway _ _ _ | ParallelGateway _ _ | ComplexGateway _ _ _ _ => true
  | _ => false
  end.

Lemma ghostly_weaken {A} k k' (m : M X A) (Q R : A → Prop) :
  k ≤ k' → (∀ a, Q a → R a) → ghostly k m Q → ghostly k' m R.
Proof.
  intros Hk HQ Hm w s r w' s' Hs E. destruct (Hm w s r w' s' Hs E) as (? & ? & ? & Hr).
  split; [done|]. split; [done|]. split; [lia|]. destruct r as [a|[]]; auto.
Qed.

Lemma cheap_fire_arms id : cheap (λ s, fire_all (List.filter (arm_completed s) (outgoing (s_process s) id)) s).
Proof.
  intros s Hs. apply cheap_fire_all; [|done]. apply Forall_forall. intros f Hf.
  apply list_elem_of_In, filter_In in Hf as [Hf _]. apply list_elem_of_In in Hf.
  destruct Hs as [_ Hp]. eapply outgoing_flows. rewrite <- Hp. exact Hf.
Qed.

Lemma ghostly_ghost_leave id : ghostly 0 (ghost_leave id) (λ b : bool, b = true).
Proof. unfold ghost_leave. ghostly_tac. Qed.

Lemma ghostly_link id name : ghostly_any 1 (jump_to_link_catch id name).
Proof.
  unfold jump_to_link_catch. apply ghostly_bind_read. intros s [_ Hp].
  destruct (link_catch (s_process s) (default "" name)) as [c|] eqn:E;
    [|apply ghostly_bind_read; intros; apply ghostly_raise].
  apply ghostly_update. intros t _. split; [done|]. rewrite Hp in E.
  unfold potential. simpl. rewrite work_weight_app. unfold work_weight at 2. simpl.
  rewrite (link_catch_weight p _ c Hunique E). lia.
Qed.

(** A ghost that is not at a gateway is handled by [ghost_step]. *)
Lemma ghostly_ghost_step id node :
  process_node p id = Ok node →
  ghostly (weight p id - 1) (ghost_step id node) (λ b : bool, b = false → is_gateway node = true).
Proof.
  intros Hn. pose proof ghostly_ghost_leave as Hleave. pose proof cheap_enqueue. pose proof cheap_fire_arms.
  assert (Hthen : ∀ (m : M X unit), ghostly_any 0 m →
            ghostly 0 (m ;; ghost_leave id) (λ b : bool, b = false → is_gateway node = true)).
  { intros m Hm. apply ghostly_then; [done|]. intros _.
    apply (ghostly_weaken 0 0 _ (λ b : bool, b = true)); [lia|by intros b ->|apply Hleave]. }
  unfold ghost_step. apply ghostly_bind_read. intros s _. destruct (is_entry id s || on_prior_frontier id s);
    [by apply ghostly_ret|].
  destruct node; try (by apply ghostly_ret);
    try (eapply ghostly_weaken; [|intros a Ha; exact Ha|apply Hthen; ghostly_tac]; lia);
    try (eapply (ghostly_weaken 0); [lia|intros a Ha; exact Ha|]; apply ghostly_bind_read; intros t _;
         apply ghostly_bind_read; intros u _; case_match; [by apply ghostly_ret|];
         apply ghostly_then; [ghostly_tac|]; intros _; apply Hthen, ghostly_each; intros ?; ghostly_tac).
  destruct kind; try (eapply ghostly_weaken; [|intros a Ha; exact Ha|apply Hthen; ghostly_tac]; lia).
  unfold weight. rewrite Hn. simpl. change 1 with (1 + 0) at 1.
  eapply ghostly_bind; [apply ghostly_link|]. intros _ _.
  apply (ghostly_weaken 0 0 _ (λ b : bool, b = true)); [lia|by intros b ->|apply Hleave].
Qed.

Lemma ghostly_live_step rn fuel id node : is_gateway node = true → ghostly_any 0 (live_step self rn fuel id node).
Proof.
  intros Hgw. unfold live_step. apply ghostly_then; [apply ghostly_get_vars|]. intros vars.
  apply ghostly_bind_read. intros s _. apply ghostly_bind_ghost. apply ghostly_then; [by apply ghostly_ret|]. intros _.
  apply ghostly_then; [|intros b; ghostly_tac].
  destruct node; try done; simpl.
  - apply ghostly_then; [apply ghostly_handle_exclusive|intros; by apply ghostly_ret].
  - by apply (ghostly_gateways _ _ None).
  - by apply (ghostly_gateways _ None None).
  - apply ghostly_gateways.
Qed.

Lemma ghostly_run_node fuel id : ghostly_any (weight p id - 1) (run_node self (S fuel) id).
Proof.
  simpl. unfold node_step. apply ghostly_bind_read. intros s [_ Hp]. rewrite Hp.
  destruct (process_node p id) as [node|e] eqn:Hn; [|by apply (ghostly_bind 0 _ _ _ (λ _, False)); [apply ghostly_raise|]].
  apply (ghostly_bind 0 (weight p id - 1) _ _ (λ n, n = node)); [by apply ghostly_ret|]. intros n ->.
  apply ghostly_bind_ghost. cbn iota. rewrite <- (Nat.add_0_r (weight p id - 1)).
  eapply ghostly_bind; [by apply ghostly_ghost_step|]. intros [|] Hb; [by apply ghostly_ret|].
  by apply ghostly_live_step, Hb.
Qed.

(** ** The walk *)

Lemma walk_total n fuel w s :
  walking s → potential p s < fuel →
  ∃ s', drain fuel (λ id, catch (run_node self (S n) id) (λ _, mret tt)) w s = (Ok tt, w, s')
    ∧ core s' = core s ∧ work s' = [].
Proof.
  revert s. induction fuel as [|fuel IH]; intros s Hs Hf; [lia|].
  cbn [drain]. unfold mbind, M_bind, read, update, catch. cbn beta iota.
  match goal with |- context [match ?l with [] => _ | _ :: _ => _ end] => destruct l as [|id rest] eqn:Hw0 end;
    [by exists s|]. assert (Hw : work s = id :: rest) by exact Hw0. clear Hw0.
  set (s1 := set_work (λ _, rest) s).
  assert (Hpot : potential p s = potential p s1 + weight p id)
    by (unfold potential; rewrite Hw; simpl; unfold work_weight; simpl; lia).
  destruct (run_node self (S n) id w s1) as [[r w2] s2] eqn:Er.
  destruct (ghostly_run_node n id w s1 r w2 s2 Hs Er) as (-> & Hc & Hp & Hr).
  pose proof (weight_bounds p id).
  destruct (IH s2) as (s' & E & Hc' & Hw'); [exact (core_walking _ _ Hc Hs)|lia|].
  exists s'. destruct r as [[]|[| |]]; try done; (split; [exact E|]; split; [by rewrite Hc', Hc|done]).
Qed.

(** Whatever the fuel. *)
Lemma walk_core n fuel w s r w' s' :
  walking s → drain fuel (λ id, catch (run_node self n id) (λ _, mret tt)) w s = (r, w', s') → core s' = core s.
Proof.
  revert w s. induction fuel as [|fuel IH]; intros w s Hs; [by intros [= _ _ <-]|].
  cbn [drain]. unfold mbind, M_bind, read, update, catch. cbn beta iota.
  match goal with |- context [match ?l with [] => _ | _ :: _ => _ end] => destruct l as [|id rest] end;
    [by intros [= _ _ <-]|].
  set (s1 := set_work (λ _, rest) s). destruct (run_node self n id w s1) as [[r2 w2] s2] eqn:Er.
  assert (Hc : core s2 = core s).
  { destruct n as [|n]; [by injection Er as _ _ <-|]. by destruct (ghostly_run_node n id w s1 r2 w2 s2 Hs Er) as (_ & Hc & _). }
  destruct r2 as [[]|[| |]]; intros E; try (injection E as _ _ <-; exact Hc);
    (etrans; [eapply IH; [exact (core_walking _ _ Hc Hs)|exact E]|exact Hc]).
Qed.

Lemma reconstruct_run fuel entry start w s :
  s_process s = p → work s = [] → 2 * length (process_flows p) + 3 ≤ fuel →
  ∃ s', reconstruct self fuel entry start w s = (Ok tt, w, s') ∧ work s' = []
    ∧ core s' = core (set_ghost (λ _, false) (set_resume_entry (λ _, Some entry) s)).
Proof.
  intros Hp Hw Hf. destruct fuel as [|n]; [lia|]. unfold reconstruct, mbind, M_bind, update.
  set (s1 := set_work (λ w, w ++ [start]) _).
  assert (Hpot : potential p s1 < S n).
  { assert (Hw1 : work s1 = [start]) by exact (f_equal (λ l, l ++ [start]) Hw).
    unfold potential. rewrite Hw1. unfold unfired, work_weight. simpl list_sum.
    pose proof (List.filter_length_le (λ f, negb (bool_decide (flow_id f ∈ ghost_flows s1))) (process_flows p)).
    pose proof (weight_bounds p start). lia. }
  destruct (walk_total n (S n) w s1) as (s' & E & Hc & Hw'); [done|done|].
  rewrite E. eexists. split; [reflexivity|]. split; [done|].
  exact (f_equal (λ t, core (set_ghost (λ _, false) t)) Hc).
Qed.
End GhostWalk.

(** C17: The reconstruction walk of a resume always ends, and it is silent: it
    leaves the world (listener events, emissions, variables, external state)
    untouched, and of the state only the visited nodes, the arrival counters, the
    coverage trace and the marks of the walk itself are changed.  In particular no
    wait, timer, completed activity or retry count is. *)
Theorem reconstruction_silent_and_total `{Crates} {X} (self : TokenExecutor X) (fuel : nat) (entry start : string)
    (w : World X) (s : ExecutionState X) :
  NoDup (node_id <$> process_nodes (s_process s)) → work s = [] →
  2 * length (process_flows (s_process s)) + 3 ≤ fuel →
  ∃ s', reconstruct self fuel entry start w s = (Ok tt, w, s') ∧ work s' = []
    ∧ core s' = core (set_ghost (λ _, false) (set_resume_entry (λ _, Some entry) s)).
Proof. intros Hnd Hw Hf. by apply (reconstruct_run self (s_process s)). Qed.

Lemma reconstruction_silent_and_total_witness :
  let s := set_prior_completed (λ _, {["work"]}) (new_state (X := MemState) waiting_process fixture_deployment [] "i") in
  let w := mk_world (mk_ctx fixture_deployment [] "i" "waiting" "" false []) [] [] empty_mem in
  ∃ s', reconstruct (fixture None) 9 "approve" "start" w s = (Ok tt, w, s') ∧ work s' = []
    ∧ core s' = core (set_ghost (λ _, false) (set_resume_entry (λ _, Some "approve") s)).
Proof.
  intros s w. apply (reconstruction_silent_and_total (fixture None) 9 "approve" "start" w s).
  - apply (bool_decide_unpack _). vm_compute. reflexivity.
  - reflexivity.
  - vm_compute. lia.
Defined.
