(* ===== verification/Reachability.v ===== *)
(** * The life of an instance

    An instance goes through passes: a first one, then one per relay, due timer,
    retry re-drive or failed channel call, each starting from the snapshot the one
    before left.  [reachable] is the set of snapshots of all such histories.

    The theorems: every reachable snapshot is sound, and a resume keeps what it does
    not consume. *)
From Stdlib Require Import ZArith Lia Bool Ascii String.
From stdpp Require Import base list option gmap strings relations.
From S2P Require Import Prelude Decimal FeelValue Temporal FeelText Timer ProcessModel Correlation Runtime.
From S2P Require Import ExecState AuditSnapshot Gateways Timers Outbound Tasks KeyQuery MemoryStore DataTasks Scopes Executor Resume.
From S2P Require Import StepRelation Fixture Passes GhostWalk.

Open Scope string_scope.
Open Scope list_scope.
Open Scope Z_scope.

Section Reachability.
Context `{Crates} {X : Type} (self : TokenExecutor X) (p : ProcessDefinition).
Implicit Types s : ExecutionState X.

(** ** Histories *)

Inductive reachable : Suspension → Prop :=
| reached_first fuel vars deployment labels start corr x su w :
    execute_stateful_from_correlated self fuel p vars deployment labels start corr x = (Ok (Suspended su), w) →
    reachable su
| reached_relay fuel deployment labels satisfied relay corr x su su' w :
    reachable su →
    resume_correlated self fuel p su deployment labels satisfied relay corr x = (Ok (Suspended su'), w) → reachable su'
| reached_timer fuel fire labels x su su' w :
    reachable su → resume_timer self fuel p su fire labels x = (Ok (Suspended su'), w) → reachable su'
| reached_redrive fuel deployment labels node x su su' w :
    reachable su → resume_retry_redrive self fuel p su deployment labels node x = (Ok (Suspended su'), w) → reachable su'
| reached_failure fuel deployment labels node code message reason x su su' w :
    reachable su →
    resume_channel_call_failure self fuel p su deployment labels node code message reason x = (Ok (Suspended su'), w) →
    reachable su'.

(** ** The state a resume restores *)

(** The completed nodes as a set and as a list. *)
Definition prior_ok s : Prop :=
  NoDup (prior_completed_ordered s) ∧ ∀ id, id ∈ prior_completed s ↔ id ∈ prior_completed_ordered s.

Definition push_all (l : list string) s : ExecutionState X := fold_left (λ s n, push_prior_completed n s) l s.

(** Only the completed nodes differ. *)
Lemma push_all_frame l s :
  set_prior_completed (λ _, ∅) (set_prior_completed_ordered (λ _, []) (push_all l s))
  = set_prior_completed (λ _, ∅) (set_prior_completed_ordered (λ _, []) s).
Proof.
  revert s. induction l as [|n l IH]; intros s; [done|]. simpl. etrans; [apply IH|].
  unfold push_prior_completed. by case_decide.
Qed.

Lemma push_prior_keeps n s :
  prior_ok s → prior_ok (push_prior_completed n s)
  ∧ prior_completed_ordered s `prefix_of` prior_completed_ordered (push_prior_completed n s)
  ∧ n ∈ prior_completed_ordered (push_prior_completed n s).
Proof.
  intros [Hnd Hset]. unfold push_prior_completed. case_decide as Hn.
  - split; [done|]. split; [done|by apply Hset].
  - split; [|split; [by exists [n]|apply elem_of_app; right; by left]]. split.
    + apply NoDup_app. split; [done|]. split; [|apply NoDup_singleton].
      intros x Hx Hxn. apply list_elem_of_singleton in Hxn. subst x. by apply Hn, Hset.
    + intros id. change (id ∈ {[n]} ∪ prior_completed s ↔ id ∈ prior_completed_ordered s ++ [n]).
      rewrite elem_of_union, elem_of_app, elem_of_singleton, list_elem_of_singleton, Hset. tauto.
Qed.

Lemma push_all_ok l s : prior_ok s → prior_ok (push_all l s).
Proof. revert s. induction l as [|n l IH]; intros s Hs; [done|]. by apply IH, push_prior_keeps. Qed.

Lemma push_all_new l s :
  prior_ok s → NoDup (prior_completed_ordered s ++ l) →
  prior_completed_ordered (push_all l s) = prior_completed_ordered s ++ l.
Proof.
  revert s. induction l as [|n l IH]; intros s Hs Hnd; [by rewrite app_nil_r|].
  assert (Hn : n ∉ prior_completed s).
  { rewrite (proj2 Hs). apply NoDup_app in Hnd as (_ & Hd & _). intros Hin. apply (Hd n Hin). by left. }
  assert (Ho : prior_completed_ordered (push_prior_completed n s) = prior_completed_ordered s ++ [n])
    by (unfold push_prior_completed; by rewrite decide_False).
  change (push_all (n :: l) s) with (push_all l (push_prior_completed n s)).
  rewrite IH; rewrite ?Ho, <- ?app_assoc; [done|by apply push_prior_keeps|done].
Qed.

(** [restore], the completed nodes aside. *)
Lemma restore_frame q s :
  let s' := restore p q s in
  s_process s' = s_process s ∧ waiting s' = waiting s ∧ fresh_waits s' = fresh_waits s ∧ work s' = work s
  ∧ completed_activities s' = completed_activities s ∧ s_instance_id s' = s_instance_id s.
Proof.
  cbv zeta. unfold restore.
  set (t := fold_left _ (rq_completed_nodes q) s).
  assert (Ht : set_prior_completed (λ _, ∅) (set_prior_completed_ordered (λ _, []) t)
               = set_prior_completed (λ _, ∅) (set_prior_completed_ordered (λ _, []) s)) by apply push_all_frame.
  assert (Hu : ∀ u, u = t ∨ u = push_prior_completed (rq_satisfied q) t →
             set_prior_completed (λ _, ∅) (set_prior_completed_ordered (λ _, []) u)
             = set_prior_completed (λ _, ∅) (set_prior_completed_ordered (λ _, []) s)).
  { intros u [->| ->]; [done|]. etrans; [apply (push_all_frame [rq_satisfied q])|done]. }
  set (u := if satisfies_wait p q then _ else _).
  specialize (Hu u). assert (Hcase : u = t ∨ u = push_prior_completed (rq_satisfied q) t)
    by (subst u; destruct (satisfies_wait p q); auto). specialize (Hu Hcase). clearbody u.
  split; [exact (f_equal s_process Hu)|]. split; [exact (f_equal waiting Hu)|]. split; [exact (f_equal fresh_waits Hu)|].
  split; [exact (f_equal work Hu)|]. split; [exact (f_equal completed_activities Hu)|exact (f_equal s_instance_id Hu)].
Qed.

Lemma restore_prior q s :
  prior_ok s → prior_ok (restore p q s)
  ∧ (prior_completed_ordered s = [] → NoDup (rq_completed_nodes q) →
     rq_completed_nodes q `prefix_of` prior_completed_ordered (restore p q s))
  ∧ (satisfies_wait p q = true → rq_satisfied q ∈ prior_completed_ordered (restore p q s)).
Proof.
  intros Hs. pose proof (push_all_ok (rq_completed_nodes q) s Hs) as Ht.
  destruct (push_prior_keeps (rq_satisfied q) _ Ht) as (Hu & Hpre & Hin).
  assert (Hnew : prior_completed_ordered s = [] → NoDup (rq_completed_nodes q) →
            prior_completed_ordered (push_all (rq_completed_nodes q) s) = rq_completed_nodes q).
  { intros E Hnd. rewrite (push_all_new _ s Hs); rewrite E; done. }
  unfold restore. destruct (satisfies_wait p q).
  - split; [exact Hu|]. split; [|by intros _]. intros E Hnd. rewrite <- (Hnew E Hnd) at 1. exact Hpre.
  - split; [exact Ht|]. split; [|done]. intros E Hnd. rewrite <- (Hnew E Hnd) at 1. reflexivity.
Qed.

Lemma restore_attempts q s id n :
  retry_attempts (restore p q s) !! id = Some n → rq_prior_retry_attempts q !! id = Some n.
Proof.
  change (retry_attempts (restore p q s)) with
    (if is_channel_call p (rq_satisfied q) && satisfies_wait p q then delete (rq_satisfied q) (rq_prior_retry_attempts q)
     else rq_prior_retry_attempts q).
  case_match; [|done]. by rewrite lookup_delete_Some; intros [_ ?].
Qed.

(** ** The shape of a resume *)

Definition restored q : ExecutionState X :=
  restore p q (set_correlation (λ _, rq_correlation q)
    (new_state p (rq_deployment q) (rq_labels q) (rq_instance_id q))).

Lemma retire_quiet (l : list string) w s :
  ∃ w', each l (λ id, cancelled ← read (timer_event id ""); notify (OnTimerCancelled cancelled)) w s = (Ok tt, w', s).
Proof. revert w. induction l as [|id l IH]; intros w; [by eexists|]. simpl. apply IH. Qed.

Lemma start_of_quiet start w s : ∃ r, start_of p start w s = (r, w, s).
Proof.
  unfold start_of. destruct (non_blank start); [by eexists|]. destruct (start_event p); by eexists.
Qed.

Lemma resume_inner_ok fuel q x res w :
  resume_inner self fuel p q x = (Ok res, w) →
  ∃ event start w1 w2 s2 w3 s3 w4 s4,
    reconstruct self fuel (entry_node (resume_entry_of p q)) start w1 (restored q) = (Ok tt, w2, s2)
    ∧ enter_graph self p (resume_entry_of p q) w2 (carry_waits p (resume_entry_of p q) (rq_prior_waiting q) s2)
      = (Ok tt, w3, s3)
    ∧ drive_stateful self fuel event (rq_start_node q) w3 s3 = (Ok res, w4, s4) ∧ w = Some w4.
Proof.
  unfold resume_inner. destruct (str_is_empty _); [done|]. destruct (pass _ _ _ _ _ _ _ _) as [r w'] eqn:Ep.
  intros [= -> <-]. apply pass_ok in Ep as (s' & E). unfold resume_body in E.
  rewrite bind_run in E. simpl in E. rewrite bind_run in E. simpl in E. rewrite bind_run in E. simpl in E.
  rewrite bind_run in E. fold (restored q) in E.
  match type of E with context [each ?l _ ?w ?s] => destruct (retire_quiet l w s) as [w1 Ew] end.
  rewrite Ew, bind_run in E. destruct (start_of_quiet (rq_start_node q) w1 (restored q)) as [rs Es].
  rewrite Es in E. destruct rs as [start|e]; [|done]. rewrite bind_run in E.
  destruct (reconstruct _ _ _ _ _ _) as [[[[]|e] w2] s2] eqn:Er; [|done].
  rewrite bind_run in E. simpl in E. rewrite bind_run in E.
  destruct (enter_graph _ _ _ _ _) as [[[[]|e] w3] s3] eqn:Eg; [|done].
  eexists _, start, w1, w2, s2, w3, s3, w', s'. split; [exact Er|]. split; [exact Eg|]. split; [exact E|done].
Qed.

(** ** Soundness *)

Lemma new_prior_ok corr deployment labels instance :
  prior_ok (set_correlation (λ _, corr) (new_state (X := X) p deployment labels instance)).
Proof.
  split; [apply NoDup_nil_2|]. intros id. split; intros Hid; [by apply elem_of_empty in Hid|by apply not_elem_of_nil in Hid].
Qed.

Lemma restored_inv q :
  (∀ id n policy, rq_prior_retry_attempts q !! id = Some n → retry_policy p id = Some policy → n < max_attempts policy) →
  scope_inv p (restored q).
Proof.
  intros Hb. set (s0 := set_correlation (λ _, rq_correlation q) (new_state (X := X) p (rq_deployment q) (rq_labels q) (rq_instance_id q))).
  destruct (restore_frame q s0) as (Hp & Hw & Hf & _ & _ & _).
  assert (Hprior : prior_ok s0) by apply new_prior_ok.
  split; [exact Hp| | |by apply (restore_prior q s0)|].
  - unfold frontier_ok. unfold restored. fold s0. rewrite Hw, Hf. apply new_frontier.
  - unfold restored. fold s0. rewrite Hw. intros id Hid. by apply not_elem_of_nil in Hid.
  - intros id n policy Hn Hpol. eapply Hb; [by eapply restore_attempts|]. unfold restored in Hpol. fold s0 in Hpol.
    by rewrite Hp in Hpol.
Qed.

(** The walk's own marks are outside the invariant. *)
Lemma reconstruct_inv fuel entry start w s r w' s' :
  scope_inv p s → reconstruct self fuel entry start w s = (r, w', s') → scope_inv p s'.
Proof.
  intros Hs. unfold reconstruct, mbind, M_bind, update. set (s1 := set_work (λ w, w ++ [start]) _).
  assert (Hs1 : scope_inv p s1) by by destruct Hs.
  destruct (drain _ _ w s1) as [[rd w2] s2] eqn:Ed.
  assert (Hst : rtc step s1 s2).
  { eapply (runs_drain p fuel (λ id, catch (run_node self fuel id) (λ _, mret tt))); [|apply Hs1|exact Ed].
    intros id. apply runs_catch; [apply runs_run_node|intros _; apply runs_ret]. }
  pose proof (scope_inv_steps _ _ _ Hst Hs1) as Hs2. destruct rd; intros [= <- <- <-]; by destruct Hs2.
Qed.

Lemma carry_inv entry prior s :
  (∀ id, id ∈ prior → may_park p id) → scope_inv p s → scope_inv p (carry_waits p entry prior s).
Proof.
  unfold carry_waits. revert s. induction prior as [|n prior IH]; intros s Hp Hs; [done|]. simpl.
  apply IH; [intros id Hid; apply Hp; by right|]. case_match; [done|].
  destruct Hs as [Hsp (Hw & Hf & Hi) Hk Ho Hb]. split; try done.
  - split; [by apply NoDup_push_new|]. split; [done|]. intros id Hid. apply elem_of_push_new. right. by apply Hi.
  - intros id [->|Hid]%elem_of_push_new; [apply Hp; by left|by apply Hk].
Qed.

Lemma enter_steps entry w s r w' s' : enter_graph self p entry w s = (r, w', s') → rtc step s s'.
Proof.
  intros E. assert (Hr : runs (s_process s) (enter_graph self p entry)) by (unfold enter_graph; runs_tac).
  by destruct (Hr w s r w' s' eq_refl E) as (_ & Hst & _).
Qed.

Lemma resume_snapshot_ok fuel q x su w :
  (∀ id, id ∈ rq_prior_waiting q → may_park p id) →
  (∀ id n policy, rq_prior_retry_attempts q !! id = Some n → retry_policy p id = Some policy → n < max_attempts policy) →
  resume_inner self fuel p q x = (Ok (Suspended su), w) → snapshot_ok p su.
Proof.
  intros Hw Hb E. apply resume_inner_ok in E as (event & start & w1 & w2 & s2 & w3 & s3 & w4 & s4 & Er & Eg & Ed & ->).
  eapply drive_snapshot_ok; [|exact Ed]. eapply scope_inv_steps; [by eapply enter_steps|].
  apply carry_inv; [done|]. eapply reconstruct_inv; [by apply restored_inv|exact Er].
Qed.

Lemma reachable_ok su : reachable su → snapshot_ok p su.
Proof.
  induction 1 as [|? ? ? ? ? ? ? ? ? ? _ [_ _ Hk _ _ Hb] E|? ? ? ? ? ? ? _ [_ _ Hk _ _ Hb] E
                 |? ? ? ? ? ? ? ? _ [_ _ Hk _ _ Hb] E|? ? ? ? ? ? ? ? ? ? ? _ [_ _ Hk _ _ Hb] E].
  - by eapply first_pass_snapshot.
  - unfold resume_correlated in E. by eapply resume_snapshot_ok in E.
  - unfold resume_timer in E. destruct (fired_timer_of p _) as [fired|e]; [|done].
    match type of E with context [resume_inner self ?f p ?q ?x] => destruct (resume_inner self f p q x) as [r w'] eqn:E' end.
    injection E as -> _. by eapply resume_snapshot_ok in E'.
  - unfold resume_retry_redrive in E. by eapply resume_snapshot_ok in E.
  - unfold resume_channel_call_failure in E. by eapply resume_snapshot_ok in E.
Qed.

(** C2: Every snapshot of every history of an instance is sound: whatever relays,
    due timers, retry re-drives and failed channel calls it went through, a suspended
    instance waits somewhere, at each node once and only where its process may wait;
    every fresh wait is one of them; the completed nodes are listed once each; every
    recorded retry count is below the maximum of its policy. *)
Theorem reachable_snapshot_sound (su : Suspension) :
  reachable su →
  waiting_nodes su ≠ [] ∧ NoDup (waiting_nodes su)
  ∧ (∀ id, id ∈ waiting_nodes su → may_park p id)
  ∧ (∀ id, id ∈ su_fresh_waits su → id ∈ waiting_nodes su)
  ∧ NoDup (completed_nodes su)
  ∧ (∀ id n policy, su_retry_attempts su !! id = Some n → retry_policy p id = Some policy → n < max_attempts policy).
Proof. intros Hr. by destruct (reachable_ok su Hr). Qed.

(** ** What a resume keeps *)

Lemma carry_waiting entry prior s :
  let kept := List.filter (λ n, negb (contains (consumed_waits p entry) n)) prior in
  NoDup (waiting s ++ kept) → waiting (carry_waits p entry prior s) = waiting s ++ kept.
Proof.
  cbv zeta. unfold carry_waits. generalize (contains (consumed_waits p entry)) as gone. intros gone.
  revert s. induction prior as [|n prior IH]; intros s Hnd; [by rewrite app_nil_r|].
  simpl in *. destruct (gone n); simpl in *; [by apply IH|].
  assert (Hn : n ∉ waiting s) by (apply NoDup_app in Hnd as (_ & Hd & _); intros Hin; apply (Hd n Hin); by left).
  assert (Hp : waiting (set_waiting (push_new n) s) = waiting s ++ [n]).
  { change (push_new n (waiting s) = waiting s ++ [n]). unfold push_new.
    destruct (contains (waiting s) n) eqn:E; [by apply contains_elem in E|done]. }
  rewrite IH; rewrite Hp, <- app_assoc; done.
Qed.

Lemma carry_frame entry prior s :
  set_waiting (λ _, []) (carry_waits p entry prior s) = set_waiting (λ _, []) s.
Proof.
  unfold carry_waits. revert s. induction prior as [|n prior IH]; intros s; [done|]. simpl. rewrite IH. by case_match.
Qed.

(** The walk, whatever its fuel, leaves the frontier and the completed nodes alone. *)
Lemma reconstruct_frame fuel entry start w s w' s' :
  NoDup (node_id <$> process_nodes p) → s_process s = p →
  reconstruct self fuel entry start w s = (Ok tt, w', s') →
  core s' = core (set_ghost (λ _, false) (set_resume_entry (λ _, Some entry) s)).
Proof.
  intros Hnd Hp. unfold reconstruct, mbind, M_bind, update. set (s1 := set_work (λ w, w ++ [start]) _).
  destruct (drain _ _ w s1) as [[rd w2] s2] eqn:Ed. destruct rd as [[]|]; [|done]. intros [= <- <-].
  assert (Hc : core s2 = core s1) by (eapply (walk_core self p Hnd fuel fuel w s1); [done|exact Ed]).
  exact (f_equal (λ t, core (set_ghost (λ _, false) t)) Hc).
Qed.

(** C16: A resume that suspends again keeps what it does not consume.  The waits of
    the snapshot come first in the new frontier, in their order, without the wait
    the resume came through and, when it won a race, the losing arms; the completed
    nodes of the snapshot come first in the new list, the satisfied wait joins them;
    the instance id and the start node stay. *)
Theorem resume_keeps_other_waits (fuel : nat) (q : ResumeRequest) (x : X) (su : Suspension) (w : option (World X)) :
  NoDup (node_id <$> process_nodes p) → NoDup (rq_prior_waiting q) → NoDup (rq_completed_nodes q) →
  resume_inner self fuel p q x = (Ok (Suspended su), w) →
  List.filter (λ n, negb (contains (consumed_waits p (resume_entry_of p q)) n)) (rq_prior_waiting q)
    `prefix_of` waiting_nodes su
  ∧ rq_completed_nodes q `prefix_of` completed_nodes su
  ∧ (satisfies_wait p q = true → rq_satisfied q ∈ completed_nodes su)
  ∧ su_instance_id su = rq_instance_id q ∧ start_node su = non_blank (rq_start_node q).
Proof.
  intros Hnd Hpw Hpc E.
  apply resume_inner_ok in E as (event & start & w1 & w2 & s2 & w3 & s3 & w4 & s4 & Er & Eg & Ed & ->).
  set (s0 := set_correlation (λ _, rq_correlation q) (new_state (X := X) p (rq_deployment q) (rq_labels q) (rq_instance_id q))).
  destruct (restore_frame q s0) as (Hp & Hw & _ & _ & _ & Hi).
  assert (Hprior : prior_ok s0) by apply new_prior_ok. destruct (restore_prior q s0 Hprior) as (_ & Hpre & Hsat).
  pose proof (reconstruct_frame _ _ _ _ _ _ _ Hnd Hp Er) as Hc.
  destruct (drive_suspended _ _ _ _ _ _ _ _ _ Ed) as (Hst & _ & v & ->).
  assert (Hall : rtc step (carry_waits p (resume_entry_of p q) (rq_prior_waiting q) s2) s4)
    by (etrans; [by eapply enter_steps|exact Hst]).
  apply steps_grows in Hall as [_ (Gi & _) Go _ Gw _ _ _].
  pose proof (carry_frame (resume_entry_of p q) (rq_prior_waiting q) s2) as Hcf.
  assert (Ho : prior_completed_ordered s4 = prior_completed_ordered (restore p q s0)).
  { rewrite Go. etrans; [exact (f_equal prior_completed_ordered Hcf)|exact (f_equal prior_completed_ordered Hc)]. }
  assert (Hw2 : waiting s2 = []) by (etrans; [exact (f_equal waiting Hc)|exact Hw]).
  split; [|split; [|split; [|split]]].
  - simpl. etrans; [|exact Gw]. rewrite carry_waiting; rewrite Hw2; [done|]. by apply NoDup_filter_bool.
  - simpl. etrans; [|apply union_completed_prefix]. rewrite Ho. by apply Hpre.
  - intros Hs. simpl. eapply elem_of_prefix; [|apply union_completed_prefix]. rewrite Ho. by apply Hsat.
  - simpl. rewrite Gi. etrans; [exact (f_equal s_instance_id Hcf)|]. etrans; [exact (f_equal s_instance_id Hc)|exact Hi].
  - done.
Qed.
End Reachability.

Lemma reachable_snapshot_sound_witness :
  match execute None waiting_process [] empty_mem with
  | (Ok (Suspended su), _) => waiting_nodes su = ["approve"] ∧ NoDup (waiting_nodes su)
  | _ => False
  end.
Proof.
  assert (Hf : frontier (execute None waiting_process [] empty_mem).1 = Some ["approve"]) by (vm_compute; reflexivity).
  destruct (execute None waiting_process [] empty_mem) as [[[? ? ?|su]|?] w] eqn:E; try discriminate Hf.
  split; [by injection Hf|]. unfold execute in E.
  destruct (reachable_snapshot_sound (fixture None) waiting_process su
              (reached_first _ _ _ _ _ _ _ _ _ _ _ E)) as (_ & Hn & _). exact Hn.
Defined.

(** [u1] is satisfied while [u2] waits. *)
Definition relay_u1 : ResumeRequest :=
  mk_resume "instance" [] [] "u1" [] fixture_deployment [] None ["u1"; "u2"] ∅ ∅ ∅ None None false no_correlation.

Lemma resume_keeps_other_waits_witness :
  match resume_inner (fixture None) 20 parallel_process relay_u1 empty_mem with
  | (Ok (Suspended su), _) => waiting_nodes su = ["u2"] ∧ ["u2"] `prefix_of` waiting_nodes su
  | _ => False
  end.
Proof.
  assert (Hf : frontier (resume_inner (fixture None) 20 parallel_process relay_u1 empty_mem).1 = Some ["u2"])
    by (vm_compute; reflexivity).
  assert (Hnd : NoDup (node_id <$> process_nodes parallel_process)) by (apply (bool_decide_unpack _); vm_compute; reflexivity).
  assert (Hpw : NoDup (rq_prior_waiting relay_u1)) by (apply (bool_decide_unpack _); vm_compute; reflexivity).
  assert (Hpc : NoDup (rq_completed_nodes relay_u1)) by constructor.
  destruct (resume_inner (fixture None) 20 parallel_process relay_u1 empty_mem) as [[[? ? ?|su]|?] w] eqn:E;
    try discriminate Hf.
  split; [by injection Hf|].
  destruct (resume_keeps_other_waits (fixture None) parallel_process 20 relay_u1 empty_mem su w Hnd Hpw Hpc E) as [Hk _].
  exact Hk.
Defined.
