(* ===== verification/Fuel.v ===== *)
(** * Fuel

    The executor recurses through sub-processes and loops over worklists; the model
    runs both on fuel and answers [OutOfFuel] when it is spent.  [below m m'] says
    that [m'] does what [m] does whenever [m] had fuel enough, so what a pass answers
    does not depend on the fuel it was given. *)
From Stdlib Require Import ZArith Lia Bool Ascii String.
From stdpp Require Import base list option gmap strings.
From S2P Require Import Prelude Decimal FeelValue Temporal FeelText Timer ProcessModel Correlation Runtime.
From S2P Require Import ExecState AuditSnapshot Gateways Timers Outbound Tasks KeyQuery MemoryStore DataTasks Scopes Executor Resume.
From S2P Require Import Fixture.

Open Scope string_scope.
Open Scope list_scope.
Open Scope nat_scope.

Section Below.
Context {X : Type}.

Definition spent {A} (r : result (fault Signal) A) : Prop := r = Err OutOfFuel.

Definition below {A} (m m' : M X A) : Prop := ∀ w s, spent (m w s).1.1 ∨ m' w s = m w s.

Lemma below_refl {A} (m : M X A) : below m m.
Proof. intros w s. by right. Qed.

Lemma below_no_fuel {A} (m : M X A) : below no_fuel m.
Proof. intros w s. by left. Qed.

Lemma below_bind {A B} (m m' : M X A) (f f' : A → M X B) :
  below m m' → (∀ a, below (f a) (f' a)) → below (m ≫= f) (m' ≫= f').
Proof.
  intros Hm Hf w s. unfold mbind, M_bind. destruct (Hm w s) as [E|E].
  - left. destruct (m w s) as [[r w1] s1]. simpl in E. by rewrite E.
  - rewrite E. destruct (m w s) as [[[a|e] w1] s1]; [apply Hf|by right].
Qed.

Lemma below_catch {A} (m m' : M X A) h h' : below m m' → (∀ sig, below (h sig) (h' sig)) → below (catch m h) (catch m' h').
Proof.
  intros Hm Hh w s. unfold catch. destruct (Hm w s) as [E|E].
  - left. destruct (m w s) as [[r w1] s1]. simpl in E. by rewrite E.
  - rewrite E. destruct (m w s) as [[[a|[sig| |]] w1] s1]; [by right|apply Hh|by right..].
Qed.

Lemma below_attempt {A} (m m' : M X A) : below m m' → below (attempt m) (attempt m').
Proof.
  intros Hm w s. unfold attempt. destruct (Hm w s) as [E|E]; [left|right; by rewrite E].
  destruct (m w s) as [[r w1] s1]. simpl in E. by rewrite E.
Qed.

Lemma below_in_scope {A} enter (m m' : M X A) leave : below m m' → below (in_scope enter m leave) (in_scope enter m' leave).
Proof.
  intros Hm w s. unfold in_scope. destruct (Hm w (enter s)) as [E|E]; [left|right; by rewrite E].
  destruct (m w (enter s)) as [[r w1] s1]. exact E.
Qed.

Lemma below_each {A} (l : list A) f f' : (∀ a, below (f a) (f' a)) → below (each l f) (each l f').
Proof. intros Hf. induction l as [|a l IH]; [apply below_refl|]. simpl. by apply below_bind. Qed.

Lemma below_drain n n' f f' : n ≤ n' → (∀ id, below (f id) (f' id)) → below (drain n f) (drain n' f').
Proof.
  intros Hn Hf. revert n' Hn. induction n as [|n IH]; intros n' Hn; [apply below_no_fuel|].
  destruct n' as [|n']; [lia|]. simpl. apply below_bind; [apply below_refl|]. intros [|id rest]; [apply below_refl|].
  apply below_bind; [apply below_refl|]. intros _. apply below_bind; [apply Hf|]. intros _. apply IH. lia.
Qed.
End Below.

Create HintDb fuel.
#[export] Hint Resolve below_refl below_no_fuel below_attempt below_in_scope : fuel.

Ltac below_step :=
  match goal with
  | |- below ?m ?m => apply below_refl
  | |- below no_fuel _ => apply below_no_fuel
  | |- below (_ ≫= _) (_ ≫= _) => apply below_bind; [|intros ?]
  | |- below (catch _ _) (catch _ _) => apply below_catch; [|intros ?]
  | |- below (attempt _) (attempt _) => apply below_attempt
  | |- below (in_scope _ _ _) (in_scope _ _ _) => apply below_in_scope
  | |- below (each _ _) (each _ _) => apply below_each; intros ?
  | |- below (drain _ _) (drain _ _) => apply below_drain; [done|intros ?]
  | |- below (match ?x with _ => _ end) (match ?x with _ => _ end) => destruct x
  | |- below _ _ => solve [eauto 2 with fuel nocore]
  end.
Ltac below_tac := intros; repeat below_step.

Section Handlers.
Context `{Crates} {X : Type} (self : TokenExecutor X).

Lemma below_compensation_loop n n' p chain seen :
  n ≤ n' → below (compensation_loop self n p chain seen) (compensation_loop self n' p chain seen).
Proof.
  revert n' chain seen. induction n as [|n IH]; intros n' chain seen Hn; [apply below_no_fuel|].
  destruct n' as [|n']; [lia|]. simpl. assert (n ≤ n') by lia. below_tac.
Qed.
Hint Resolve below_compensation_loop : fuel.

Lemma below_fire_compensation n n' only : n ≤ n' → below (fire_compensation self n only) (fire_compensation self n' only).
Proof. intros. unfold fire_compensation, run_compensation_chain. below_tac. Qed.
Hint Resolve below_fire_compensation : fuel.

Section Recursion.
Context (rn rn' : string → M X unit) (Hrn : ∀ id, below (rn id) (rn' id)).
Context (n n' : nat) (Hn : n ≤ n').

Lemma below_scope_step (h h' : string → string → M X unit) id :
  (∀ source code, below (h source code) (h' source code)) → below (scope_step rn h id) (scope_step rn' h' id).
Proof. intros. unfold scope_step. below_tac. Qed.

Lemma below_nested_error inner own (route route' : string → string → M X unit) source code :
  (∀ source code, below (route source code) (route' source code)) →
  below (nested_error inner own route source code) (nested_error inner own route' source code).
Proof. intros. unfold nested_error. below_tac. Qed.
Hint Resolve below_scope_step below_nested_error Hrn Hn : fuel.

Lemma below_event_sub_process (route route' : string → string → M X unit) esp inner :
  (∀ source code, below (route source code) (route' source code)) →
  below (run_event_sub_process rn n route esp inner) (run_event_sub_process rn' n' route' esp inner).
Proof.
  intros Hr. unfold run_event_sub_process. below_tac. apply below_scope_step. intros. by apply below_nested_error.
Qed.

Lemma below_route_error d d' source code :
  d ≤ d' → below (route_error rn n d source code) (route_error rn' n' d' source code).
Proof.
  revert d' source code. induction d as [|d IH]; intros d' source code Hd.
  - destruct d'; simpl; below_tac.
  - destruct d' as [|d']; [lia|]. simpl. below_tac. apply below_event_sub_process. intros. apply IH. lia.
Qed.
Hint Resolve below_route_error : fuel.

Lemma below_worklist : below (run_worklist rn n) (run_worklist rn' n').
Proof. unfold run_worklist. below_tac. apply below_scope_step. intros. by apply below_route_error. Qed.
Hint Resolve below_worklist : fuel.

Lemma below_call_activity id called : below (run_call_activity self rn n id called) (run_call_activity self rn' n' id called).
Proof. unfold run_call_activity, run_sub_process_inline. below_tac. Qed.

Lemma below_embedded id inner : below (run_embedded_sub_process rn n id inner) (run_embedded_sub_process rn' n' id inner).
Proof.
  unfold run_embedded_sub_process. below_tac. apply below_scope_step. intros. apply below_nested_error. intros.
  by apply below_route_error.
Qed.
Hint Resolve below_call_activity below_embedded : fuel.

Lemma below_transaction_loop k k' inner id :
  k ≤ k' → below (transaction_loop rn n k inner id) (transaction_loop rn' n' k' inner id).
Proof.
  revert k'. induction k as [|k IH]; intros k' Hk; [apply below_no_fuel|]. destruct k' as [|k']; [lia|]. simpl.
  assert (k ≤ k') by lia. below_tac. apply below_nested_error. intros. by apply below_route_error.
Qed.
Hint Resolve below_transaction_loop : fuel.

Lemma below_transaction id inner :
  below (run_transaction_sub_process self rn n id inner) (run_transaction_sub_process self rn' n' id inner).
Proof. unfold run_transaction_sub_process, run_transaction_body. below_tac; by apply below_fire_compensation. Qed.

Lemma below_ad_hoc inner c : below (run_ad_hoc_sub_process self rn n inner c) (run_ad_hoc_sub_process self rn' n' inner c).
Proof.
  unfold run_ad_hoc_sub_process. apply below_in_scope. induction (process_nodes inner) as [|a l IH]; [apply below_refl|].
  simpl. unfold run_ad_hoc_activity. below_tac.
Qed.

Lemma below_execute_inner inner : below (execute_inner self rn n inner) (execute_inner self rn' n' inner).
Proof. unfold execute_inner. below_tac. Qed.
Hint Resolve below_execute_inner : fuel.

Lemma below_multi_instance_loop id inner v c items i :
  below (multi_instance_loop self rn n id inner v c items i) (multi_instance_loop self rn' n' id inner v c items i).
Proof. revert i. induction items as [|x l IH]; intros i; [apply below_refl|]. simpl. below_tac. Qed.

Lemma below_multi_instance id inner c d e f :
  below (run_multi_instance self rn n id inner c d e f) (run_multi_instance self rn' n' id inner c d e f).
Proof.
  unfold run_multi_instance. do 3 (apply below_bind; [apply below_refl|intros ?]). apply below_multi_instance_loop.
Qed.

Lemma below_standard_loop k k' id inner c max i again :
  k ≤ k' → below (standard_loop self rn n k id inner c max i again) (standard_loop self rn' n' k' id inner c max i again).
Proof.
  revert k' i again. induction k as [|k IH]; intros k' i again Hk; [apply below_no_fuel|]. destruct k' as [|k']; [lia|].
  simpl. assert (k ≤ k') by lia. below_tac.
Qed.
Hint Resolve below_standard_loop : fuel.

Lemma below_dispatch id node token :
  below (dispatch_node self rn n id node token) (dispatch_node self rn' n' id node token).
Proof.
  pose proof below_call_activity. pose proof below_embedded. pose proof below_transaction. pose proof below_ad_hoc.
  pose proof below_multi_instance. unfold dispatch_node, run_standard_loop. below_tac; by apply below_fire_compensation.
Qed.

Lemma below_node_step id : below (node_step self rn n id) (node_step self rn' n' id).
Proof. unfold node_step, live_step. below_tac. apply below_dispatch. Qed.
End Recursion.

Lemma below_run_node n n' id : n ≤ n' → below (run_node self n id) (run_node self n' id).
Proof.
  revert n' id. induction n as [|n IH]; intros n' id Hn; [apply below_no_fuel|]. destruct n' as [|n']; [lia|]. simpl.
  apply below_node_step; [|lia]. intros x. apply IH. lia.
Qed.

Lemma below_quiescence n n' : n ≤ n' → below (run_to_quiescence self n) (run_to_quiescence self n').
Proof. intros Hn. apply below_worklist; [|done]. intros id. by apply below_run_node. Qed.

Lemma below_drive_stateful n n' event start :
  n ≤ n' → below (drive_stateful self n event start) (drive_stateful self n' event start).
Proof. intros Hn. pose proof (below_quiescence n n' Hn). unfold drive_stateful. below_tac. Qed.

Lemma below_reconstruct n n' entry start : n ≤ n' → below (reconstruct self n entry start) (reconstruct self n' entry start).
Proof. intros Hn. unfold reconstruct. below_tac. by apply below_run_node. Qed.

Lemma below_resume_body n n' p q : n ≤ n' → below (resume_body self n p q) (resume_body self n' p q).
Proof.
  intros Hn. pose proof (below_drive_stateful n n'). pose proof (below_reconstruct n n'). unfold resume_body. below_tac.
Qed.

(** A pass inherits the order. *)
Lemma below_pass {A} (m m' : M X A) process instance vars deployment labels corr x :
  below m m' → (pass m process instance vars deployment labels corr x).1 ≠ Err OutOfFuel →
  pass m' process instance vars deployment labels corr x = pass m process instance vars deployment labels corr x.
Proof.
  intros Hm Hne. unfold pass in *. set (w := mk_world _ _ _ _) in *. set (s := set_correlation _ _) in *.
  destruct (Hm w s) as [E|E]; [|by rewrite E]. exfalso. apply Hne. destruct (m w s) as [[r w1] s1]. simpl in E. by rewrite E.
Qed.
End Handlers.


