(* ===== verification/Scenarios.v ===== *)
(** * Scenarios

    Small processes run by the concrete executor of [Fixture], where the program
    does not do what its comments say.  Each theorem evaluates the model. *)
From Stdlib Require Import ZArith Lia Bool Ascii String.
From stdpp Require Import base list option gmap strings.
From S2P Require Import Prelude Decimal FeelValue Temporal FeelText Timer ProcessModel Correlation Runtime.
From S2P Require Import ExecState AuditSnapshot Gateways Timers Outbound Tasks KeyQuery MemoryStore DataTasks Scopes Executor Resume Fixture.

Open Scope string_scope.
Open Scope list_scope.
Open Scope Z_scope.

Definition completed (r : result (fault ExecError) StatefulExecResult) : bool :=
  match r with Ok (Completed _ _ _) => true | _ => false end.

Definition paths_covered (w : World MemState) : list string :=
  omap (λ e, match e with OnPathCovered _ path => Some path | _ => None end) (w_events w).

(** ** Waits in a nested scope *)

Definition calling_process : ProcessDefinition :=
  build "calling" [start_node_of "start"; CallActivity "call" None "waiting" None; EndEvent "end" None]
    [arrow "start" "call"; arrow "call" "end"] ∅.

Definition nesting_process : ProcessDefinition :=
  build "nesting" [start_node_of "start"; SubProcess "sub" None waiting_process; EndEvent "end" None]
    [arrow "start" "sub"; arrow "sub" "end"] ∅.

(** A process that waits for an approval, run as a call activity or as an embedded
    sub-process, is not waited for: the caller completes. *)
Theorem nested_wait_is_not_waited_for :
  frontier (execute None waiting_process [] empty_mem).1 = Some ["approve"]
  ∧ completed (execute (Some waiting_process) calling_process [] empty_mem).1 = true
  ∧ completed (execute None nesting_process [] empty_mem).1 = true.
Proof. vm_compute. repeat split. Qed.

(** ** Compensation of a coverage task *)

Definition compensating (implementation : string) : ProcessDefinition :=
  build "compensating"
    [start_node_of "start"; task_node "work" implementation;
     BoundaryEvent "undo" None "work" BoundaryCompensation None None false None; task_node "handler" "tick";
     IntermediateThrowEvent "throw" None ThrowCompensate None None; EndEvent "end" None]
    [arrow "start" "work"; arrow "work" "throw"; arrow "throw" "end"; arrow "undo" "handler"] ∅.

(** The handler of a completed task runs once; that of a completed [coverage:] task
    runs twice. *)
Theorem coverage_task_is_compensated_twice :
  let ticks implementation :=
    sc_rev (cell (w_ext (execute (Some straight_process) (compensating implementation) [] empty_mem).2)) in
  ticks "ok" = 1 ∧ ticks "coverage:reset:straight" = 2.
Proof. vm_compute. repeat split. Qed.

(** ** The preview of a script's output *)

(** 199 letters, then a two-byte character across byte 200. *)
Definition long_output : string := String.concat "" (replicate 199 "a") +:+ "é" +:+ "b".

Theorem script_preview_panics :
  (200 <? Z.of_nat (String.length long_output)) = true ∧ preview_of long_output = Err Panicked.
Proof. vm_compute. repeat split. Qed.

(** ** Coverage across a resume *)

Definition branching : ProcessDefinition :=
  with_coverage_paths
    (build "branching"
       [start_node_of "start"; ExclusiveGateway "choose" None (Some "choose>u1"); UserTask "u1" None [];
        UserTask "u2" None []; EndEvent "end" None]
       [arrow "start" "choose"; guarded "choose" "u2" "x"; arrow "choose" "u1"; arrow "u1" "end"; arrow "u2" "end"] ∅)
    [mk_coverage_path "to-u2" ["start>choose"; "choose>u2"]].

(** The first pass takes the flow to [u1]; the relay that satisfies [u1] sets [x].
    The reconstruction walk then takes the flow to [u2], and the path through a flow
    no token ever took is reported covered. *)
Theorem untaken_path_is_reported_covered :
  match execute None branching [("x", Boolean false)] empty_mem with
  | (Ok (Suspended su), w) =>
      waiting_nodes su = ["u1"] ∧
      match resume (fixture None) 20 branching su fixture_deployment [] "u1" [("x", Boolean true)] (w_ext w) with
      | (r, Some w) => completed r = true ∧ paths_covered w = ["to-u2"]
      | _ => False
      end
  | _ => False
  end.
Proof. vm_compute. repeat split. Qed.

(** ** A sub-process inside a transaction *)

Definition writing_task (id key : string) : Node :=
  DataTask id None (mk_data_mapping [] [] [] [] [] [mk_store_write "store" key None "v" false false]).

Definition inner_write : ProcessDefinition :=
  build "inner" [start_node_of "start"; writing_task "write" "nested"; EndEvent "end" None]
    [arrow "start" "write"; arrow "write" "end"] ∅.

Definition transactional : ProcessDefinition :=
  build "transactional"
    [start_node_of "start";
     TransactionSubProcess "tx" None
       (build "body"
          [start_node_of "start"; writing_task "direct" "direct"; SubProcess "sub" None inner_write;
           CancelEndEvent "cancel" None]
          [arrow "start" "direct"; arrow "direct" "sub"; arrow "sub" "cancel"] ∅);
     BoundaryEvent "cancelled" None "tx" BoundaryCancel None None true None; EndEvent "end" None]
    [arrow "start" "tx"; arrow "cancelled" "end"] ∅.

(** A cancelled transaction takes back the write of its own data task, not the write
    of the data task in a sub-process of it. *)
Theorem nested_write_survives_cancel :
  let '(r, w) := execute None transactional [("v", Str "value")] empty_mem in
  completed r = true ∧ mem_get "direct" (w_ext w) = None ∧ mem_get "nested" (w_ext w) = Some (Str "value").
Proof. vm_compute. repeat split. Qed.

(** ** A template that does not render *)

Definition failing_engine : TemplateEngine := mk_engine "failing" [".hbs"] (λ _ _ _, Err "bad template").

Definition templating : TokenExecutor MemState :=
  let f := fixture None in
  mk_executor (tasks f) (condition_evaluator f) (value_evaluator f) (data_stores f) (coverage_metric_store f)
    (process_resolver f) (module_resolver f) (deployment_config f) (message_decode_seam f) (emission_sink f)
    (auth_resolvers f) [failing_engine] {[artifact_key fixture_deployment Template "letter.hbs" := "text"]} (scripts f)
    (decision_engines f) (decisions f) (outbound_channels f) (uuid_supplier f) (now_supplier f) (wall_clock f)
    (elapsed_nanos f) (default_audit_sink f).

(** Three attempts, one second apart. *)
Definition retry_bindings : NodeBindings :=
  mk_bindings [] None None None None [] None None None
    (Some (mk_retry 3 "PT1S" false (SpecFloat.S754_finite false 4503599627370496 (-52)) "PT1S" false [])).

Definition rendering : ProcessDefinition :=
  build "rendering" [start_node_of "start"; task_node "letter" "letter.hbs"; EndEvent "end" None]
    [arrow "start" "letter"; arrow "letter" "end"] {["letter" := retry_bindings]}.

(** A template that cannot render is retried like a task that threw. *)
Theorem failed_render_is_retried :
  match execute_stateful_from_correlated templating 20 rendering [] fixture_deployment [] None no_correlation empty_mem with
  | (Ok (Suspended su), _) => waiting_nodes su = ["letter"] ∧ su_retry_attempts su !! "letter" = Some 1
  | _ => False
  end.
Proof. vm_compute. repeat split. Qed.

(** ** A reminder on a channel call *)

Definition reminded (host : Node) : ProcessDefinition :=
  build "reminded"
    [start_node_of "start"; host;
     BoundaryEvent "reminder" None (node_id host) BoundaryTimer None None false (Some (TimerDuration "PT1H"));
     task_node "remind" "ok"; EndEvent "reminded" None; EndEvent "end" None]
    [arrow "start" (node_id host); arrow (node_id host) "end"; arrow "reminder" "remind"; arrow "remind" "reminded"] ∅.

Definition waiting_at (id : string) : Suspension :=
  mk_suspension "instance" [id] [] [] None [] false ∅ ∅ ∅ [id].

Definition due (id : string) : TimerFire :=
  mk_timer_fire fixture_deployment "instance" id "1000000000" "1000000000".

(** A non-interrupting timer boundary leaves a waiting user task in place; a waiting
    channel call is given up, and the instance completes without its response. *)
Theorem reminder_gives_up_channel_call :
  let remind host := (resume_timer (fixture None) 20 (reminded host) (waiting_at (node_id host)) (due "reminder") [] empty_mem).1 in
  frontier (remind (UserTask "host" None [])) = Some ["host"]
  ∧ completed (remind (task_node "host" (CHANNEL_CALL_PREFIX +:+ "orders"))) = true.
Proof. vm_compute. repeat split. Qed.
