(* ===== verification/ParkBridge.v ===== *)
(** * Parking an instance and loading it back ([sutra-channels/src/bridge.rs],
    [sutra-engine/src/bridge.rs], and the parts of [sutra-channels/src/dispatch.rs]
    that build a [SuspendedInstance])

    When a pass of the executor suspends, the dispatcher drops the transient variables,
    names the sensitive ones ([persisted_variables]) and hands a [SuspendedInstance] to
    the bridge, which writes the snapshot, encrypted when there is a key for it, in one
    step with the wait rows, the aliases and the blind subject index.  A resume loads the
    bytes, finds in them the key they were encrypted under, and gives the instance back.
    The conversion of emissions and timer texts to rows is done by the caller: the step
    takes the rows.

    The theorems: an instance that was parked is loaded as it was parked, variables with
    their types and encrypted ones included ([parked_instance_is_loaded]); what is named
    for encryption is stored only as ciphertext while the instance has a key
    ([park_encrypts_named]); but the key is remembered only by a snapshot that holds a
    ciphertext, so an instance parked once without sensitive variables stores every later
    one in the clear ([repark_stores_secret_in_clear]). *)
From Stdlib Require Import ZArith Lia Bool Ascii String.
From stdpp Require Import base countable sorting option gmap fin_maps strings list.
From S2P Require Import Prelude Texts Decimal FeelValue Temporal Timer ProcessModel FeelText TemporalParse Container Crypto.
From S2P Require Import Correlation Runtime ExecState AuditSnapshot Gateways Timers Outbound Tasks KeyQuery MemoryStore.
From S2P Require Import DataTasks Scopes Executor Resume SnapshotValue Snapshot Stores Steps.

Open Scope string_scope.
Open Scope list_scope.
Open Scope Z_scope.

Record SuspendedInstance : Type := mk_suspended {
  si_process_id : string; si_deployment_id : string; si_status : string; si_suspended : bool;
  si_completed_nodes : list string; si_variables : list (string * FeelValue); si_sensitive : list string;
  si_waiting_nodes : list string; si_start_node : string; si_coverage : gmap string Z;
  si_retry_attempts : gmap string Z; si_retry_backoff : gmap string string; si_audit_seq : Z;
  si_key_id : string; si_encrypt_names : list string; si_subjects : list (string * string) }.

Record PersistedVariables : Type := mk_persisted {
  pv_kept : list (string * FeelValue); pv_sensitive : list string; pv_encrypt_names : list string;
  pv_subjects : list (string * string) }.

(** [s.strip_suffix(suffix)]. *)
Definition strip_suffix (suffix s : string) : option string :=
  if ends_with suffix s then Some (String.substring 0 (String.length s - String.length suffix) s) else None.

(** The names of the declared variables with a mark. *)
Definition declared_names (mark : DeclaredVariable → bool) (declared : list DeclaredVariable) : list string :=
  map dv_name (List.filter mark declared).

Inductive bridge_error : Type :=
| CryptoFailed (e : CipherError)
| Undecodable (e : read_error)
| NoKeyProvider
| StoreFailed (e : PersistenceError).

Section Bridge.
Context `{Primitives, BigDecimalText, TimeText, TimeCrate, TimeParse, JsonText, Base64}.

(** ** What is persisted of the variables *)

Definition blind_index_input (value : FeelValue) : string :=
  if is_null value then "" else canonical_string_of value.

Definition redacted_bases (kept : list (string * FeelValue)) : list string :=
  omap (λ e, base ← strip_suffix REDACTION_COMPANION_SUFFIX e.1;
             if existsb (λ f, String.eqb f.1 base) kept then Some base else None) kept.

Definition persisted_variables (declared : list DeclaredVariable) (values : list (string * FeelValue)) : PersistedVariables :=
  let transient := declared_names dv_transient declared in
  let sensitive := declared_names dv_sensitive declared in
  let subject_keys := declared_names dv_subject_key declared in
  let kept := List.filter (λ e, negb (existsb (String.eqb e.1) transient)) values in
  let marked := map fst (List.filter (λ e, existsb (String.eqb e.1) sensitive) kept) in
  mk_persisted kept marked
    (dedup (sort_texts (marked ++ redacted_bases kept)))
    (map (λ e, (e.1, blind_index_input e.2)) (List.filter (λ e, existsb (String.eqb e.1) subject_keys) kept)).

(** ** Encoding *)

Definition to_snapshot_map (values : list (string * FeelValue)) : gmap string Value.SnapshotValue :=
  map_of (map (λ e, (e.1, to_snapshot e.2)) values).

Definition snapshot_of (s : SuspendedInstance) : InstanceSnapshot :=
  with_retry_backoff (si_retry_backoff s)
    (with_retry_attempts (si_retry_attempts s)
      (with_coverage (si_coverage s)
        (with_sensitive (si_sensitive s)
          (with_variables (to_snapshot_map (si_variables s))
            (of_suspended (si_process_id s) (si_deployment_id s) (si_completed_nodes s) ∅ (si_waiting_nodes s)
               (si_start_node s) (si_audit_seq s)))))).

(** [nonces] is the randomness of the ciphers this bridge makes. *)
Context (key_provider : option KeyProvider) (nonces : string → string).

Definition crypto_of (key : DataKey) (key_id instance_id : string) : SnapshotCrypto :=
  mk_crypto (Aes256GcmCipher key nonces) key_id instance_id.

Definition encode_snapshot (s : SuspendedInstance) (instance_id : string) : result (fault bridge_error) string :=
  let snap := snapshot_of s in
  match key_provider with
  | Some provider =>
      if negb (is_nil (si_encrypt_names s)) && negb (str_is_empty (si_key_id s)) then
        key ← map_err (λ e, Rejected (CryptoFailed e)) (data_key provider (si_key_id s));
        map_fault CryptoFailed
          (write_encrypted snap (Some (crypto_of key (si_key_id s) instance_id)) (list_to_set (si_encrypt_names s)))
      else map_fault CryptoFailed (write snap)
  | None => map_fault CryptoFailed (write snap)
  end.

Definition blind_subjects (s : SuspendedInstance) : result bridge_error (list StepSubject) :=
  match key_provider with
  | Some provider =>
      if negb (is_nil (si_subjects s)) && negb (str_is_empty (si_key_id s)) then
        indexer ← map_err CryptoFailed (blind_index_key provider (si_key_id s));
        Ok (map (λ e, mk_step_subject e.1 (blind indexer e.2)) (si_subjects s))
      else Ok []
  | None => Ok []
  end.

(** ** Loading *)

Definition decode_raw_snapshot (raw : gmap string string) (instance_id : string) : result bridge_error InstanceSnapshot :=
  match key_id raw, key_provider with
  | Some key_id, Some provider =>
      key ← map_err CryptoFailed (data_key provider key_id);
      map_err Undecodable (from_raw raw (Some (crypto_of key key_id instance_id)))
  | Some _, None => Err NoKeyProvider
  | None, _ => map_err Undecodable (from_raw raw None)
  end.

Definition decode_persisted_snapshot (bytes instance_id : string) : result bridge_error InstanceSnapshot :=
  raw ← map_err (λ e, Undecodable (Unreadable e)) (raw_map bytes);
  decode_raw_snapshot raw instance_id.

Definition suspended_of (key_id : string) (decoded : InstanceSnapshot) : SuspendedInstance :=
  mk_suspended (sn_process_id decoded) (sn_deployment_id decoded) (sn_status decoded) (is_suspended decoded)
    (sn_completed_nodes decoded) (map (λ e, (e.1, to_feel e.2)) (btree_list (sn_variables decoded)))
    (sn_sensitive decoded) (sn_waiting_nodes decoded) (sn_start_node decoded) (sn_coverage decoded)
    (sn_retry_attempts decoded) (sn_retry_backoff decoded) (sn_audit_seq decoded) key_id [] [].

Definition load_bytes (bytes instance_id : string) : result bridge_error SuspendedInstance :=
  raw ← map_err (λ e, Undecodable (Unreadable e)) (raw_map bytes);
  decoded ← decode_raw_snapshot raw instance_id;
  Ok (suspended_of (default "" (key_id raw)) decoded).

Definition load (dep inst : string) (d : Db) : result bridge_error (option SuspendedInstance) :=
  match Instance.load dep inst (db_instance d) with
  | None => Ok None
  | Some bytes => s ← load_bytes bytes inst; Ok (Some s)
  end.

(** ** The step of a park and of a re-park *)

Definition step_of (dep inst : string) (s : SuspendedInstance) (resolved : list string) (aliases : list StepAlias)
    (outbox : list (string * Outbox.Row)) (inbox_seen : list (string * string)) : result (fault bridge_error) StepWrite :=
  bytes ← encode_snapshot s inst;
  subjects ← map_err Rejected (blind_subjects s);
  Ok (mk_step dep inst bytes (map (λ n, mk_step_wait n (si_process_id s) None) (si_waiting_nodes s)) resolved aliases
        subjects outbox (map fst (btree_list (si_retry_backoff s))) inbox_seen).

Context (pick : list string → option string) (now : Z) (markers : gset (string * string)).

Definition store_failed {A} (r : result PersistenceError A) : result (fault bridge_error) A :=
  map_err (λ e, Rejected (StoreFailed e)) r.

Definition commit_park (dep inst : string) (s : SuspendedInstance) (aliases : list StepAlias) (timers : list StepTimerWait)
    (outbox : list (string * Outbox.Row)) (inbox_seen : list (string * string)) (d : Db) : result (fault bridge_error) Db :=
  step ← step_of dep inst s [] aliases outbox inbox_seen;
  store_failed (commit_step_with_timers pick now markers step timers d).

Definition commit_repark_retiring (claim_owner dep inst : string) (s : SuspendedInstance) (satisfied : list string)
    (aliases : list StepAlias) (timers : list StepTimerWait) (outbox : list (string * Outbox.Row))
    (inbox_seen : list (string * string)) (retired : list StepAlias) (d : Db) : result (fault bridge_error) Db :=
  step ← step_of dep inst s satisfied aliases outbox inbox_seen;
  store_failed (commit_step_with_timers_releasing_retiring pick now markers step timers (Some claim_owner)
                  (map (λ a, (sa_name a, sa_value a)) retired) d).
End Bridge.

(** ** What the dispatcher parks *)

Section Dispatch.
Context `{BigDecimalText, TimeText}.

(** The first park of an instance: its key is that of the channel's tenant. *)
Definition park_snapshot (process : ProcessDefinition) (deployment tenant : string) (audit_seq : Z) (su : Suspension)
    : SuspendedInstance :=
  let pv := persisted_variables (declared_variables process) (su_variables su) in
  mk_suspended (process_id process) deployment "SUSPENDED" true (completed_nodes su) (pv_kept pv) (pv_sensitive pv)
    (waiting_nodes su) (default "" (start_node su)) (su_coverage_progress su) (su_retry_attempts su) (su_retry_backoff su)
    audit_seq tenant (pv_encrypt_names pv) (pv_subjects pv).

(** A later park: the key is the one the instance was loaded with. *)
Definition repark_snapshot (process : ProcessDefinition) (prior : SuspendedInstance) (pinned : string) (audit_seq : Z)
    (su : Suspension) : SuspendedInstance :=
  let pv := persisted_variables (declared_variables process) (su_variables su) in
  mk_suspended (si_process_id prior) pinned "SUSPENDED" true (completed_nodes su) (pv_kept pv) (pv_sensitive pv)
    (waiting_nodes su) (default "" (start_node su)) (su_coverage_progress su) (su_retry_attempts su) (su_retry_backoff su)
    audit_seq (si_key_id prior) (pv_encrypt_names pv) (pv_subjects pv).
End Dispatch.

(** ** Lemmas: sorted names *)

Lemma insert_text_perm x l : insert_text x l ≡ₚ x :: l.
Proof. induction l as [|y l IH]; [done|]. cbn [insert_text]. destruct (String.leb x y); [done|]. rewrite IH. constructor. Qed.

Lemma sort_texts_perm l : sort_texts l ≡ₚ l.
Proof. induction l as [|x l IH]; [done|]. cbn [sort_texts foldr]. fold (sort_texts l). by rewrite insert_text_perm, IH. Qed.

Lemma elem_of_dedup x l : x ∈ dedup l ↔ x ∈ l.
Proof.
  induction l as [|a l IH]; [done|]. destruct l as [|b l]; [done|]. cbn [dedup] in *.
  destruct (String.eqb_spec a b) as [->|]; rewrite ?elem_of_cons, IH, ?elem_of_cons; tauto.
Qed.

Definition text_le (a b : string) : Prop := a = b ∨ String.compare a b = Lt.

Lemma text_le_trans a b c : text_le a b → text_le b c → text_le a c.
Proof. intros [->|H1] [->|H2]; [by left|by right|by right|right; by eapply string_compare_trans]. Qed.

Lemma insert_text_sorted x l : StronglySorted text_le l → StronglySorted text_le (insert_text x l).
Proof.
  induction 1 as [|y l Hl IH Hy]; [by repeat constructor|]. cbn [insert_text].
  pose proof (str_leb_spec x y) as Hc. change (String.leb x y) with (str_leb x y). destruct (str_leb x y).
  - constructor; [by constructor|]. constructor; [done|]. eapply Forall_impl; [exact Hy|]. intros z. by apply text_le_trans.
  - constructor; [done|]. assert (Hp : insert_text x l ≡ₚ x :: l) by apply insert_text_perm. rewrite Hp. constructor; [by right|done].
Qed.

Lemma sort_texts_le l : StronglySorted text_le (sort_texts l).
Proof. induction l as [|x l IH]; [constructor|]. cbn [sort_texts foldr]. by apply insert_text_sorted. Qed.

Lemma dedup_names_sorted l : StronglySorted text_le l → names_sorted (dedup l).
Proof.
  induction 1 as [|a l Hl IH Ha]; [constructor|]. destruct l as [|b l]; [by repeat constructor|].
  change (dedup (a :: b :: l)) with (if String.eqb a b then dedup (b :: l) else a :: dedup (b :: l)).
  destruct (String.eqb_spec a b) as [->|Hne]; [done|]. constructor; [done|].
  inversion Ha as [|? ? [->|Hab] _]; subst; [done|]. inversion Hl as [|? ? _ Hb]; subst.
  apply Forall_forall. intros x Hx. rewrite elem_of_dedup in Hx. apply elem_of_cons in Hx as [->|Hx]; [done|].
  rewrite Forall_forall in Hb. destruct (Hb x Hx) as [<-|Hbx]; [done|]. by eapply string_compare_trans.
Qed.

Lemma canonical_names_sorted l : names_sorted (canonical_names l).
Proof.
  unfold canonical_names. pose proof (dedup_names_sorted _ (sort_texts_le l)) as Hs. revert Hs.
  generalize (dedup (sort_texts l)). induction 1 as [|a k Hk IH Ha]; [constructor|]. cbn [List.filter].
  destruct (negb (str_is_empty a)); [|done]. constructor; [done|]. apply Forall_forall. intros x Hx.
  rewrite Forall_forall in Ha. apply Ha, list_elem_of_In. apply list_elem_of_In, filter_In in Hx. tauto.
Qed.

Lemma elem_of_canonical_names x l : x ∈ canonical_names l → x ∈ l.
Proof.
  unfold canonical_names. rewrite list_elem_of_In. intros [Hx _]%filter_In. apply list_elem_of_In in Hx. rewrite elem_of_dedup in Hx.
  by rewrite sort_texts_perm in Hx.
Qed.

(** ** Lemmas: the bytes of a park *)

Lemma map_of_fmap {A B} (f : A → B) (l : list (string * A)) : map_of (map (λ e, (e.1, f e.2)) l) = f <$> map_of l.
Proof.
  induction l as [|[k x] l IH]; [unfold map_of; simpl; by rewrite fmap_empty|]. cbn [map fst snd].
  by rewrite !map_of_cons, IH, map_fmap_union, map_fmap_singleton.
Qed.

Section Bytes.
Context {pr : Primitives} {bt : BigDecimalText} {tt : TimeText} {tc : TimeCrate} {tp : TimeParse} {jt : JsonText} {b64 : Base64}.

Lemma partition_nothing crypto names typed l plain :
  partition_variables crypto names typed l = Ok (plain, []) → partition_variables None ∅ typed l = Ok (plain, []).
Proof.
  revert plain. induction l as [|[n v] l IH]; intros plain; [done|]. cbn [partition_variables].
  destruct crypto as [c|]; [case_bool_decide|].
  - by intros (t & _ & ([p e] & _ & [= _ ?])%result_bind_ok)%result_bind_ok.
  - intros ([p e] & Hp & [= <- ->])%result_bind_ok. by rewrite (IH p Hp).
  - intros ([p e] & Hp & [= <- ->])%result_bind_ok. by rewrite (IH p Hp).
Qed.

Lemma partition_none names typed l : partition_variables None names typed l = partition_variables None ∅ typed l.
Proof. induction l as [|[n v] l IH]; [done|]. cbn [partition_variables]. by rewrite IH. Qed.

Context (key_provider : option KeyProvider) (nonces : string → string).

(** The cipher a park is written with. *)
Definition park_crypto (s : SuspendedInstance) (instance_id : string) : result CipherError (option SnapshotCrypto) :=
  match key_provider with
  | Some provider =>
      if negb (is_nil (si_encrypt_names s)) && negb (str_is_empty (si_key_id s)) then
        key ← data_key provider (si_key_id s); Ok (Some (crypto_of nonces key (si_key_id s) instance_id))
      else Ok None
  | None => Ok None
  end.

Abbreviation names s := (list_to_set (si_encrypt_names s) : gset string).

Lemma encode_snapshot_ok s id bytes :
  encode_snapshot key_provider nonces s id = Ok bytes →
  ∃ crypto, park_crypto s id = Ok crypto ∧ write_encrypted (snapshot_of s) crypto (names s) = Ok bytes.
Proof.
  assert (Hplain : map_fault CryptoFailed (write (snapshot_of s)) = Ok bytes → write_encrypted (snapshot_of s) None (names s) = Ok bytes).
  { unfold write, write_encrypted, write_entries. rewrite (partition_none (names s)).
    destruct (partition_variables None ∅ _ _) as [[p e]|]; [|done]. simpl. destruct (pack _); [|done]. by intros [= ->]. }
  unfold encode_snapshot, park_crypto. destruct key_provider as [p|]; [|intros He; exists None; auto].
  destruct (negb _ && negb _); [|intros He; exists None; auto]. destruct (data_key p (si_key_id s)) as [key|]; [|done]. simpl. intros He.
  eexists. split; [done|]. by apply map_fault_ok in He.
Qed.

(** Whether the park holds a ciphertext. *)
Definition encrypts (s : SuspendedInstance) : bool :=
  is_some key_provider && negb (str_is_empty (si_key_id s))
  && existsb (λ e, bool_decide (e.1 ∈ si_encrypt_names s)) (si_variables s).

(** What a snapshot carries: ids the joined lists can hold, counters within their
    types, values the tagged form can hold, each variable once. *)
Record parkable_instance (s : SuspendedInstance) : Prop := {
  pi_completed : Forall (λ id, list_id id = true) (si_completed_nodes s);
  pi_waiting : Forall (λ id, list_id id = true) (si_waiting_nodes s);
  pi_sensitive : Forall (λ id, list_id id = true) (si_sensitive s);
  pi_audit : 0 <= si_audit_seq s <= u32_max;
  pi_coverage p n : si_coverage s !! p = Some n → n <= u64_max;
  pi_retry id n : si_retry_attempts s !! id = Some n → n <= u32_max;
  pi_backoff id c : si_retry_backoff s !! id = Some c → trim c = c;
  pi_names : NoDup (si_variables s).*1;
  pi_values n v : (n, v) ∈ si_variables s → parkable tc v ∧ (json_depth (Value.to_json (to_snapshot v)) <= 127)%nat
}.

Lemma lookup_snapshot_map vars n v :
  to_snapshot_map vars !! n = Some v → NoDup vars.*1 → ∃ x, (n, x) ∈ vars ∧ v = to_snapshot x.
Proof.
  unfold to_snapshot_map. rewrite map_of_fmap, lookup_fmap. intros (x & Hx & ->)%fmap_Some Hnd.
  exists x. split; [|done]. by apply (lookup_map_of_elem vars n x Hnd).
Qed.

Lemma lookup_keep {A} (f : A → bool) (m : gmap string A) k x : keep f m !! k = Some x ↔ m !! k = Some x ∧ f x = true.
Proof. unfold keep. by rewrite map_lookup_filter_Some. Qed.

Lemma snapshot_of_canonical s : parkable_instance s → canonical (snapshot_of s).
Proof.
  intros Hs. split; cbn.
  - apply Hs.
  - apply Hs.
  - apply Forall_forall. intros x Hx%elem_of_canonical_names. pose proof (pi_sensitive s Hs) as Hf. rewrite Forall_forall in Hf. by apply Hf.
  - apply canonical_names_sorted.
  - apply Hs.
  - intros p n [Hn Hp]%lookup_keep. apply positive_true in Hp. split; [done|by apply (pi_coverage s Hs p)].
  - intros id n [Hn Hp]%lookup_keep. apply positive_true in Hp. split; [done|by apply (pi_retry s Hs id)].
  - intros id c [Hc Hb]%lookup_keep. split; [by apply (pi_backoff s Hs id)|]. by intros ->.
  - intros n v Hv. destruct (lookup_snapshot_map _ _ _ Hv (pi_names s Hs)) as (x & Hx & ->).
    destruct (pi_values s Hs n x Hx) as [Hp Hd]. split; [by apply (to_snapshot_storable tc)|done].
Qed.
(** The entry map of a park. *)
Lemma park_written s bytes crypto :
  write_encrypted (snapshot_of s) crypto (names s) = Ok bytes → snapshot_texts (snapshot_of s) crypto (names s) →
  ∃ plain enc,
    partition_variables crypto (names s) (is_typed (sn_variables (snapshot_of s))) (btree_list (sn_variables (snapshot_of s)))
      = Ok (plain, enc) ∧
    raw_map bytes = Ok (map_of (entries_of (snapshot_of s) crypto (is_typed (sn_variables (snapshot_of s))) plain enc)).
Proof.
  intros (plain & enc & Hpart & He & Hp)%write_encrypted_ok [Ht _]. exists plain, enc. split; [done|].
  by apply (raw_map_pack _ _ Hp), Ht.
Qed.

Lemma park_crypto_some s id c :
  park_crypto s id = Ok (Some c) →
  ∃ p key, key_provider = Some p ∧ data_key p (si_key_id s) = Ok key ∧ c = crypto_of nonces key (si_key_id s) id ∧
    si_key_id s ≠ "".
Proof.
  unfold park_crypto. destruct key_provider as [p|]; [|done].
  destruct (negb (is_nil (si_encrypt_names s)) && negb (str_is_empty (si_key_id s))) eqn:E; [|done].
  intros (key & Hk & [= <-])%result_bind_ok. exists p, key. apply andb_true_iff in E as [_ Hne]. repeat split; [done|].
  intros Hq. by rewrite Hq in Hne.
Qed.
Section Parked.
Context (s : SuspendedInstance) (crypto : option SnapshotCrypto) (plain enc : list (string * string)).
Abbreviation snap := (snapshot_of s).
Hypothesis Hpart : partition_variables crypto (names s) (is_typed (sn_variables snap)) (btree_list (sn_variables snap)) = Ok (plain, enc).
Hypothesis Hnd : NoDup (si_variables s).*1.

Lemma parked_variable n v : (n, v) ∈ si_variables s → sn_variables snap !! n = Some (to_snapshot v).
Proof using Hnd.
  intros Hn. cbn. unfold to_snapshot_map. rewrite map_of_fmap, lookup_fmap.
  by rewrite (proj2 (lookup_map_of_elem (si_variables s) n v Hnd) Hn).
Qed.

Lemma encrypted_present n v :
  is_some crypto = true → (n, v) ∈ si_variables s → n ∈ si_encrypt_names s → is_Some (map_of enc !! (K_ENC_PREFIX +:+ n)).
Proof using Hpart Hnd.
  intros Hc Hn He. apply (enc_present _ _ _ _ _ Hpart n (to_snapshot v)); [by apply parked_variable|].
  unfold encrypted. rewrite Hc. apply bool_decide_eq_true. by apply elem_of_list_to_set.
Qed.

End Parked.

Lemma park_encrypted s id crypto plain enc :
  park_crypto s id = Ok crypto →
  partition_variables crypto (names s) (is_typed (sn_variables (snapshot_of s))) (btree_list (sn_variables (snapshot_of s)))
    = Ok (plain, enc) →
  NoDup (si_variables s).*1 → negb (is_nil enc) = encrypts s.
Proof.
  intros Hcrypto Hpart Hnd. unfold encrypts. destruct crypto as [c|].
  - destruct (park_crypto_some _ _ _ Hcrypto) as (p & key & -> & _ & _ & Hne). cbn [is_some andb].
    assert (str_is_empty (si_key_id s) = false) as -> by (by destruct (si_key_id s)). cbn [negb andb].
    apply eq_true_iff_eq. rewrite existsb_exists. split.
    + intros He. destruct enc as [|x enc']; [done|].
      pose proof (partition_enc _ _ _ _ _ _ Hpart) as Hf. 
      destruct (List.filter (λ e, encrypted (Some c) (names s) e.1) (btree_list (sn_variables (snapshot_of s)))) as [|[n w] l] eqn:Hl; [by inversion Hf|].
      assert (Hin : (n, w) ∈ List.filter (λ e, encrypted (Some c) (names s) e.1) (btree_list (sn_variables (snapshot_of s)))) by (rewrite Hl; left).
      apply list_elem_of_In, filter_In in Hin as [Hin%list_elem_of_In%elem_of_btree_list Hen].
      destruct (lookup_snapshot_map _ _ _ Hin Hnd) as (v & Hv & _). exists (n, v). split; [by apply list_elem_of_In|].
      unfold encrypted in Hen. cbn [is_some andb] in Hen. apply bool_decide_eq_true in Hen. apply bool_decide_eq_true.
      by apply elem_of_list_to_set in Hen.
    + intros ([n v] & Hin%list_elem_of_In & Hen%bool_decide_eq_true).
      destruct (encrypted_present _ _ _ _ Hpart Hnd n v eq_refl Hin Hen) as [x Hx]. by destruct enc.
  - assert (enc = []) as ->.
    { pose proof (partition_enc _ _ _ _ _ _ Hpart) as Hf. unfold encrypted in Hf. cbn [is_some andb] in Hf.
      assert (Hnil : ∀ l : list (string * Value.SnapshotValue), List.filter (λ _, false) l = []) by (by induction l).
      rewrite Hnil in Hf. by inversion Hf. }
    cbn. symmetry. apply not_true_iff_false. intros [[Hk Hne]%andb_true_iff ([n v] & _ & Hin%bool_decide_eq_true)%existsb_exists]%andb_true_iff.
    revert Hcrypto. unfold park_crypto. destruct key_provider as [p|]; [|done]. rewrite Hne.
    destruct (si_encrypt_names s) as [|y l]; [by apply elem_of_nil in Hin|]. cbn [is_nil negb andb].
    by intros (k & _ & [=])%result_bind_ok.
Qed.
Lemma entries_nothing s crypto typed plain : entries_of s crypto typed plain [] = entries_of s None typed plain [].
Proof. unfold entries_of, head_entries. by destruct crypto. Qed.

Context `{!PrimitiveLaws pr, !BigDecimalTextLaws bt, !JsonTextLaws jt, !Base64Laws b64}.
Hypothesis Hnonces : ∀ aad, String.length (nonces aad) = NONCE_LEN.

Lemma decode_parked s id crypto plain enc :
  park_crypto s id = Ok crypto →
  partition_variables crypto (names s) (is_typed (sn_variables (snapshot_of s))) (btree_list (sn_variables (snapshot_of s)))
    = Ok (plain, enc) →
  parkable_instance s →
  (∀ n v, sn_variables (snapshot_of s) !! n = Some v → utf8_valid (render (is_typed (sn_variables (snapshot_of s))) v) = true) →
  let written := map_of (entries_of (snapshot_of s) crypto (is_typed (sn_variables (snapshot_of s))) plain enc) in
  decode_raw_snapshot key_provider nonces written id = Ok (snapshot_of s) ∧
  default "" (key_id written) = if encrypts s then si_key_id s else "".
Proof using Type*.
  intros Hc Hpart Hs Hu written. pose proof (park_encrypted _ _ _ _ _ Hc Hpart (pi_names s Hs)) as He.
  pose proof (snapshot_of_canonical s Hs) as Hcan. unfold decode_raw_snapshot, key_id.
  assert (Hk : written !! K_KEY_ID = if encrypts s then Some (si_key_id s) else None).
  { unfold written. rewrite (written_key_id _ _ _ _ _ Hpart), He. destruct crypto as [c|].
    - by destruct (park_crypto_some _ _ _ Hc) as (p & key & _ & _ & -> & _).
    - destruct (encrypts s); [|done]. exfalso. pose proof (partition_nothing None (names s)) as Hn.
      rewrite partition_none in Hpart. destruct enc; [done|]. pose proof (partition_enc _ _ _ _ _ _ Hpart) as Hf.
      unfold encrypted in Hf. cbn [is_some andb] in Hf. clear -Hf. induction (btree_list _); by inversion Hf. }
  rewrite Hk. destruct (encrypts s) eqn:Ee; cbn [default from_option Datatypes.id].
  - split; [|done]. destruct crypto as [c|].
    + destruct (park_crypto_some _ _ _ Hc) as (p & key & -> & Hd & -> & _). rewrite Hd. cbn [map_err mbind result_bind].
      unfold written. by rewrite (from_raw_written _ _ _ _ _ Hpart Hcan); [|intros ? [= <-]; by apply aes_cipher_laws|].
    + exfalso. unfold written in Hk. by rewrite (written_key_id _ _ _ _ _ Hpart) in Hk.
  - split; [|done]. destruct enc; [|done]. apply partition_nothing in Hpart. unfold written. rewrite entries_nothing.
    rewrite (from_raw_written _ _ _ _ _ Hpart Hcan); [by destruct key_provider|done|done].
Qed.
End Bytes.

(** ** Properties *)

(** The texts of the park's entries are Rust strings. *)
Definition park_texts `{Primitives, BigDecimalText, TimeText, TimeCrate, TimeParse, JsonText, Base64}
    (key_provider : option KeyProvider) (nonces : string → string) (s : SuspendedInstance) (id : string) : Prop :=
  ∀ crypto, park_crypto key_provider nonces s id = Ok crypto →
    snapshot_texts (snapshot_of s) crypto (list_to_set (si_encrypt_names s)).

Lemma load_parked (pr : Primitives) (bt : BigDecimalText) (jt : JsonText) (b64 : Base64) (tt : TimeText)
    (tc : TimeCrate) (tp : TimeParse) (key_provider : option KeyProvider) (nonces : string → string)
    (s : SuspendedInstance) (id bytes : string) :
  PrimitiveLaws pr → BigDecimalTextLaws bt → JsonTextLaws jt → Base64Laws b64 → TimeCrateLaws tc →
  (∀ aad, String.length (nonces aad) = NONCE_LEN) → parkable_instance s → park_texts key_provider nonces s id →
  encode_snapshot key_provider nonces s id = Ok bytes →
  load_bytes key_provider nonces bytes id
    = Ok (suspended_of (if encrypts key_provider s then si_key_id s else "") (snapshot_of s)) ∧
  map_of (map (λ e, (e.1, to_feel e.2)) (btree_list (sn_variables (snapshot_of s)))) = map_of (si_variables s).
Proof.
  intros Hpl Hbl Hjl H64 Htl Hn Hs Ht (crypto & Hc & Hw)%encode_snapshot_ok.
  destruct (park_written s bytes crypto Hw (Ht _ Hc)) as (plain & enc & Hpart & Hraw).
  destruct (decode_parked key_provider nonces Hn s id crypto plain enc Hc Hpart Hs (proj2 (Ht _ Hc))) as [Hd Hk].
  split; [unfold load_bytes; rewrite Hraw; cbn [map_err mbind result_bind]; rewrite Hd; cbn [mbind result_bind]; by rewrite Hk|].
  change (sn_variables (snapshot_of s)) with (to_snapshot_map (si_variables s)).
  rewrite map_of_fmap, map_of_btree_list. unfold to_snapshot_map. rewrite map_of_fmap.
  rewrite <-map_fmap_compose. apply map_eq. intros n. rewrite lookup_fmap.
  destruct (map_of (si_variables s) !! n) as [v|] eqn:Ev; [|done]. cbn. f_equal.
  apply (lookup_map_of_elem (si_variables s) n v (pi_names s Hs)) in Ev.
  by apply (to_feel_to_snapshot tc Htl), (pi_values s Hs n v).
Qed.

(** C11: an instance that was parked is loaded as it was parked.  The bytes a park writes,
    in the clear or encrypted under the key of the instance's tenant, load as a suspended
    instance with the same process, deployment, frontier, completed nodes, start node and
    audit number; with every variable as the value it was; with the counters and backoff
    markers that say something; and with the key it was encrypted under, if anything was. *)
Theorem parked_instance_is_loaded (pr : Primitives) (bt : BigDecimalText) (jt : JsonText) (b64 : Base64) (tt : TimeText)
    (tc : TimeCrate) (tp : TimeParse) (key_provider : option KeyProvider) (nonces : string → string)
    (s : SuspendedInstance) (id bytes : string) :
  PrimitiveLaws pr → BigDecimalTextLaws bt → JsonTextLaws jt → Base64Laws b64 → TimeCrateLaws tc →
  (∀ aad, String.length (nonces aad) = NONCE_LEN) → parkable_instance s → park_texts key_provider nonces s id →
  encode_snapshot key_provider nonces s id = Ok bytes →
  ∃ s', load_bytes key_provider nonces bytes id = Ok s' ∧
    si_process_id s' = si_process_id s ∧ si_deployment_id s' = si_deployment_id s ∧ si_suspended s' = true ∧
    si_waiting_nodes s' = si_waiting_nodes s ∧ si_completed_nodes s' = si_completed_nodes s ∧
    si_start_node s' = si_start_node s ∧ si_audit_seq s' = si_audit_seq s ∧
    map_of (si_variables s') = map_of (si_variables s) ∧ si_sensitive s' = canonical_names (si_sensitive s) ∧
    si_coverage s' = keep positive (si_coverage s) ∧ si_retry_attempts s' = keep positive (si_retry_attempts s) ∧
    si_retry_backoff s' = keep not_blank (si_retry_backoff s) ∧
    si_key_id s' = if encrypts key_provider s then si_key_id s else "".
Proof.
  intros Hpl Hbl Hjl H64 Htl Hn Hs Ht He.
  destruct (load_parked pr bt jt b64 tt tc tp key_provider nonces s id bytes Hpl Hbl Hjl H64 Htl Hn Hs Ht He) as [Hl Hv].
  eexists. split; [exact Hl|]. repeat split. exact Hv.
Qed.

(** C12: what is named for encryption is stored as ciphertext only.  While the bridge has
    a key provider and the instance a key, no entry of the stored map holds a named
    variable in the clear, and each one that has a value has its ciphertext there. *)
Theorem park_encrypts_named (pr : Primitives) (bt : BigDecimalText) (jt : JsonText) (b64 : Base64) (tt : TimeText)
    (tc : TimeCrate) (tp : TimeParse) (provider : KeyProvider) (nonces : string → string)
    (s : SuspendedInstance) (id bytes n : string) (v : FeelValue) :
  park_texts (Some provider) nonces s id → NoDup (si_variables s).*1 → si_key_id s ≠ "" →
  encode_snapshot (Some provider) nonces s id = Ok bytes → n ∈ si_encrypt_names s → (n, v) ∈ si_variables s →
  ∃ m, raw_map bytes = Ok m ∧ m !! (K_VAR_PREFIX +:+ n) = None ∧ is_Some (m !! (K_ENC_PREFIX +:+ n)).
Proof.
  intros Ht Hnd Hkey (crypto & Hc & Hw)%encode_snapshot_ok Hn Hv.
  destruct (park_written s bytes crypto Hw (Ht _ Hc)) as (plain & enc & Hpart & Hraw).
  assert (Hsome : is_some crypto = true).
  { revert Hc. unfold park_crypto. destruct (si_encrypt_names s); [by apply elem_of_nil in Hn|].
    destruct (si_key_id s); [done|]. cbn [is_nil str_is_empty negb andb]. by intros (k & _ & [= <-])%result_bind_ok. }
  eexists. split; [exact Hraw|]. rewrite (written_var _ _ _ _ _ Hpart), (written_enc _ _ _ _ _ Hpart).
  split; [|by apply (encrypted_present s crypto plain enc Hpart Hnd n v)].
  destruct (map_of plain !! (K_VAR_PREFIX +:+ n)) as [x|] eqn:E; [|done]. exfalso.
  apply (plain_lookup _ _ _ _ _ Hpart) in E as (w & _ & He & _). revert He. unfold encrypted. rewrite Hsome.
  cbn [andb]. intros He%bool_decide_eq_false. apply He. by apply elem_of_list_to_set.
Qed.

(** *** A process with a sensitive variable *)

#[local] Existing Instance plain_primitives.
#[local] Existing Instance plain_time_text.
#[local] Existing Instance plain_time_parse.
#[local] Existing Instance numeral_json_text.
#[local] Existing Instance plain_base64.

Definition card_process : ProcessDefinition :=
  mk_process "orders" None true "1.0" [] [] ∅ ∅ ∅
    [mk_declared_variable "card" FieldString None None false true false;
     mk_declared_variable "scratch" FieldString None None true false false] [] [] None false [].

Definition card_provider : KeyProvider := HkdfKeyProvider "master".

Definition card_suspension (waiting : string) (vars : Variables) : Suspension :=
  mk_suspension "i-1" [waiting] ["start"] vars None [] false {["happy" := 3]} ∅ ∅ [].

Definition with_card : SuspendedInstance :=
  park_snapshot card_process (dep_value system) "tenant" 7
    (card_suspension "approve" [("scratch", Str "x"); ("card", Str "4111"); ("amount", Number (mk_decimal 10000 2))]).

Lemma with_card_parkable : parkable_instance with_card.
Proof.
  split.
  - by repeat constructor.
  - by repeat constructor.
  - by repeat constructor.
  - by vm_compute.
  - intros p n Hp. change (({["happy" := 3]} : gmap string Z) !! p = Some n) in Hp.
    apply lookup_singleton_Some in Hp as [_ <-]. by vm_compute.
  - intros p n Hp. change ((∅ : gmap string Z) !! p = Some n) in Hp. by rewrite lookup_empty in Hp.
  - intros p n Hp. change ((∅ : gmap string string) !! p = Some n) in Hp. by rewrite lookup_empty in Hp.
  - change (NoDup ["card"; "amount"]). by repeat (constructor; [set_solver|]); constructor.
  - intros n v Hv. change ((n, v) ∈ [("card", Str "4111"); ("amount", Number (mk_decimal 10000 2))]) in Hv.
    apply elem_of_cons in Hv as [[= -> ->]|Hv]; [split; [done|vm_compute; lia]|].
    apply list_elem_of_singleton in Hv as [= -> ->]. split; [|vm_compute; lia]. by vm_compute.
Qed.

Lemma with_card_texts : park_texts (Some card_provider) twelve_bytes with_card "i-1".
Proof.
  intros crypto Hc.
  assert (B : match park_crypto (Some card_provider) twelve_bytes with_card "i-1" with
    | Ok c => snapshot_textsb (snapshot_of with_card) c (list_to_set (si_encrypt_names with_card))
    | Err _ => true end = true) by (vm_compute; reflexivity).
  rewrite Hc in B. by apply snapshot_textsb_true.
Qed.

Lemma parked_instance_is_loaded_witness :
  ∃ bytes s', encode_snapshot (Some card_provider) twelve_bytes with_card "i-1" = Ok bytes ∧
    load_bytes (Some card_provider) twelve_bytes bytes "i-1" = Ok s' ∧
    map_of (si_variables s') = map_of (si_variables with_card) ∧ si_key_id s' = "tenant".
Proof.
  destruct (encode_snapshot (Some card_provider) twelve_bytes with_card "i-1") as [bytes|e] eqn:E; [|vm_compute in E; discriminate E].
  destruct (parked_instance_is_loaded plain_primitives plain_decimal_text numeral_json_text plain_base64 plain_time_text
    plain_time_crate plain_time_parse (Some card_provider) twelve_bytes with_card "i-1" bytes)
    as (s' & Hl & _ & _ & _ & _ & _ & _ & _ & Hv & _ & _ & _ & _ & Hk);
    [apply _|apply _|apply _|apply _|apply _|reflexivity|apply with_card_parkable|apply with_card_texts|exact E|].
  exists bytes, s'. split; [reflexivity|]. split; [exact Hl|]. split; [exact Hv|]. rewrite Hk. vm_compute. reflexivity.
Defined.

Lemma park_encrypts_named_witness :
  ∃ bytes m, encode_snapshot (Some card_provider) twelve_bytes with_card "i-1" = Ok bytes ∧ raw_map bytes = Ok m ∧
    m !! "sutra.var.card" = None.
Proof.
  destruct (encode_snapshot (Some card_provider) twelve_bytes with_card "i-1") as [bytes|e] eqn:E; [|vm_compute in E; discriminate E].
  destruct (park_encrypts_named plain_primitives plain_decimal_text numeral_json_text plain_base64 plain_time_text
    plain_time_crate plain_time_parse card_provider twelve_bytes with_card "i-1" bytes "card" (Str "4111"))
    as (m & Hm & Hv & _);
    [apply with_card_texts|apply with_card_parkable|done|exact E|by left|by left|].
  exists bytes, m. split; [reflexivity|]. split; [exact Hm|exact Hv].
Defined.

(** C33: a re-park can store a sensitive variable in the clear.  The first park of the
    instance holds no sensitive variable, so nothing is encrypted and no key is recorded;
    the instance is loaded without a key; and when the next pass suspends with the
    sensitive variable [card] set, named for encryption and with a key provider at hand,
    its value is stored as plain text. *)
Theorem repark_stores_secret_in_clear :
  ∃ bytes1 prior bytes2 m2,
    encode_snapshot (Some card_provider) twelve_bytes
      (park_snapshot card_process "dep-1" "tenant" 1 (card_suspension "ask" [("amount", Str "100")])) "i-1" = Ok bytes1 ∧
    load_bytes (Some card_provider) twelve_bytes bytes1 "i-1" = Ok prior ∧
    let again := repark_snapshot card_process prior "dep-1" 2 (card_suspension "approve" [("amount", Str "100"); ("card", Str "4111")]) in
    si_encrypt_names again = ["card"] ∧
    encode_snapshot (Some card_provider) twelve_bytes again "i-1" = Ok bytes2 ∧ raw_map bytes2 = Ok m2 ∧
    m2 !! (K_VAR_PREFIX +:+ "card") = Some "4111".
Proof.
  set (first := park_snapshot card_process "dep-1" "tenant" 1 (card_suspension "ask" [("amount", Str "100")])).
  set (next := card_suspension "approve" [("amount", Str "100"); ("card", Str "4111")]).
  assert (B : match encode_snapshot (Some card_provider) twelve_bytes first "i-1" with
    | Ok bytes1 => match load_bytes (Some card_provider) twelve_bytes bytes1 "i-1" with
      | Ok prior =>
          let again := repark_snapshot card_process prior "dep-1" 2 next in
          match encode_snapshot (Some card_provider) twelve_bytes again "i-1" with
          | Ok bytes2 => match raw_map bytes2 with
            | Ok m2 => bool_decide (si_encrypt_names again = ["card"]) && bool_decide (m2 !! (K_VAR_PREFIX +:+ "card") = Some "4111")
            | Err _ => false end
          | Err _ => false end
      | Err _ => false end
    | Err _ => false end = true) by (vm_compute; reflexivity).
  destruct (encode_snapshot _ _ first "i-1") as [bytes1|] eqn:E1; [|discriminate B].
  destruct (load_bytes _ _ bytes1 "i-1") as [prior|] eqn:E2; [|discriminate B]. cbv zeta in B.
  destruct (encode_snapshot _ _ (repark_snapshot card_process prior "dep-1" 2 next) "i-1") as [bytes2|] eqn:E3; [|discriminate B].
  destruct (raw_map bytes2) as [m2|] eqn:E4; [|discriminate B].
  rewrite andb_true_iff, !bool_decide_eq_true in B. destruct B as [B1 B2].
  exists bytes1, prior, bytes2, m2. cbv zeta. split; [reflexivity|]. split; [exact E2|]. split; [exact B1|].
  split; [exact E3|]. split; [exact E4|exact B2].
Qed.
