(* ===== verification/RelayResume.v ===== *)
(** * Resuming a parked instance by a relay ([sutra-channels/src/dispatch.rs]:
    [resume_correlated_claimed] up to the call of the executor, with
    [instance_failed_guard], [instance_terminal_guard], [rebind_relay_to_waiting] and
    [channel_call_output_mapping]; [claim_instance] and [release_instance] of
    [sutra-engine/src/bridge.rs])

    A correlated message names a live instance.  The dispatcher claims the row, loads the
    snapshot under the claim, refuses what must not run (a failed or finished instance, a
    call in its backoff window, a wait the instance has left), finds the process under
    the instance's own pin and hands the executor a [ResumeRequest].  A refusal hands the
    claim back.  The FEEL evaluator is an argument.

    The theorems: only a suspended instance is resumed, under the claim, at a node it is
    parked at and by the definition it is pinned to, and a refused relay changes nothing
    ([relay_admission_sound]); an instance the executor suspended and the bridge parked
    is resumed with what the executor left, transient variables apart
    ([park_then_relay]). *)
From Stdlib Require Import ZArith Lia Bool Ascii String.
From stdpp Require Import base countable sorting option gmap fin_maps strings list.
From S2P Require Import Prelude Texts Decimal FeelValue Temporal Timer ProcessModel FeelText TemporalParse Container Crypto.
From S2P Require Import Correlation Runtime ExecState AuditSnapshot Gateways Timers Outbound Tasks KeyQuery MemoryStore.
From S2P Require Import DataTasks Scopes Executor Resume SnapshotValue Snapshot Stores Steps ParkBridge.

Open Scope string_scope.
Open Scope list_scope.
Open Scope Z_scope.

Inductive relay_refusal : Type :=
| InlineHeld
| ClaimHeld
| LoadFailed (e : bridge_error)
| InstanceNotFound
| InstanceFailed
| InstanceTerminal (status : string)
| NotSuspended (status : string)
| RetryPending (code : string)
| PinUnresolvable (message : string)
| ModuleNotFound
| NotWaiting (node : string)
| OutputMappingFailed (expression target message : string).

(** ** Guards *)

Definition instance_failed_guard (s : SuspendedInstance) : option relay_refusal :=
  if String.eqb (si_status s) STATUS_FAILED then Some InstanceFailed else None.

Definition instance_terminal_guard (s : SuspendedInstance) : option relay_refusal :=
  if String.eqb (si_status s) STATUS_COMPLETED || String.eqb (si_status s) STATUS_TERMINATED
  then Some (InstanceTerminal (si_status s)) else None.

(** [Err] when the guard has something to say. *)
Definition guarded (g : option relay_refusal) : result relay_refusal () :=
  match g with Some e => Err e | None => Ok tt end.

Definition refuse_when (b : bool) (e : relay_refusal) : result relay_refusal () := if b then Err e else Ok tt.

(** ** The wait a relay satisfies *)

Definition subscribes (process : ProcessDefinition) (channel id : string) : bool :=
  match process_node process id with
  | Ok (MessageCatchEvent _ _ channels _) | Ok (ReceiveTask _ _ channels _) | Ok (UserTask _ _ channels) =>
      existsb (λ c, String.eqb c channel) channels
  | _ => existsb (λ s, String.eqb (sb_channel s) channel) (nb_sources (bindings_for process id))
  end.

Definition source_name (process : ProcessDefinition) (channel id : string) : option string :=
  sb_name <$> List.find (λ s, String.eqb (sb_channel s) channel) (nb_sources (bindings_for process id)).

(** The payload moves from one source name to the other. *)
Definition move_payload (from to : option string) (vars : Variables) : Variables :=
  match from, to with
  | Some from, Some to =>
      if String.eqb from to then vars
      else match var_get from vars with
           | Some value => var_insert to value (var_remove from vars)
           | None => vars
           end
  | _, _ => vars
  end.

Definition rebind_relay_to_waiting (process : ProcessDefinition) (waiting : list string) (named : string)
    (candidates : list string) (channel : string) (relay_vars : Variables) : string * Variables :=
  if contains waiting named then (named, relay_vars)
  else
    let waiting_node :=
      match candidates with
      | [] => List.find (subscribes process channel) waiting
      | _ => List.find (λ c, contains waiting c && subscribes process channel c) candidates
      end in
    match waiting_node with
    | None => (named, relay_vars)
    | Some node => (node, move_payload (source_name process channel named) (source_name process channel node) relay_vars)
    end.

(** ** What the response of a channel call leaves *)

Section Relay.
Context (evaluate : string → Variables → result string FeelValue).

Fixpoint mapped_assignments (assignments : list Assignment) (relay_vars mapped : Variables) : result relay_refusal Variables :=
  match assignments with
  | [] => Ok mapped
  | a :: rest =>
      match evaluate (as_expression a) relay_vars with
      | Err message => Err (OutputMappingFailed (as_expression a) (as_target_var a) message)
      | Ok value =>
          mapped_assignments rest relay_vars (if is_null value then mapped else var_insert (as_target_var a) value mapped)
      end
  end.

Definition mapped_outputs (outputs : list string) (relay_vars mapped : Variables) : Variables :=
  fold_left (λ mapped name, match var_get name relay_vars with Some v => var_insert name v mapped | None => mapped end)
    outputs mapped.

Definition channel_call_output_mapping (process : ProcessDefinition) (wait_node_id : string) (relay_vars : Variables)
    : result relay_refusal (option Variables) :=
  match process_node process wait_node_id with
  | Ok (ServiceTask _ _ implementation data_mapping _ _) =>
      if negb (starts_with CHANNEL_CALL_PREFIX implementation)
         || (is_nil (dm_outputs data_mapping) && is_nil (dm_assignments data_mapping)) then Ok None
      else
        mapped ← mapped_assignments (dm_assignments data_mapping) relay_vars [];
        Ok (Some (mapped_outputs (dm_outputs data_mapping) relay_vars mapped))
  | _ => Ok None
  end.

(** ** The loaded instance as the executor takes it *)

Definition restored_suspension (instance_id : string) (s : SuspendedInstance) : Suspension :=
  mk_suspension instance_id (si_waiting_nodes s) (si_completed_nodes s) (var_from_iter (si_variables s))
    (if str_is_empty (trim (si_start_node s)) then None else Some (si_start_node s)) [] false
    (si_coverage s) (si_retry_attempts s) (si_retry_backoff s) [].

Context `{Primitives, BigDecimalText, TimeText, TimeCrate, TimeParse, JsonText, Base64}.
Context (processes : ProcessRegistry) (key_provider : option KeyProvider) (nonces : string → string).
Context (deployment : DeploymentId) (instance_id wait_node_id : string) (candidate_nodes : list string)
  (relay_vars : Variables) (alias_value channel : string) (labels : Labels) (traceparent : option string).

Definition pinned_of (s : SuspendedInstance) : result relay_refusal DeploymentId :=
  if str_is_empty (trim (si_deployment_id s)) then Ok deployment
  else map_err PinUnresolvable (deployment_of (si_deployment_id s)).

(** Under the claim, up to the call of the executor. *)
Definition relay_request (d : Db) : result relay_refusal (ProcessDefinition * ResumeRequest) :=
  loaded ← map_err LoadFailed (load key_provider nonces (dep_value deployment) instance_id d);
  s ← ok_or InstanceNotFound loaded;
  _ ← guarded (instance_failed_guard s);
  _ ← guarded (instance_terminal_guard s);
  _ ← refuse_when (negb (si_suspended s)) (NotSuspended (si_status s));
  _ ← guarded (RetryPending <$> si_retry_backoff s !! wait_node_id);
  pinned ← pinned_of s;
  process ← ok_or ModuleNotFound (find_in_module processes pinned (si_process_id s));
  let '(node, relay_vars) :=
    rebind_relay_to_waiting process (si_waiting_nodes s) wait_node_id candidate_nodes channel relay_vars in
  _ ← refuse_when (negb (contains (si_waiting_nodes s) node)) (NotWaiting node);
  mapped ← channel_call_output_mapping process node relay_vars;
  Ok (process, resume_of (restored_suspension instance_id s) pinned labels node (default relay_vars mapped) None None false
                 (mk_correlation traceparent (Some alias_value))).

Context (now : Z) (owner : string) (inline_held : gset string).

Definition release_instance (d : Db) : Db :=
  set_instance (Instance.release_in owner (dep_value deployment) instance_id (db_instance d)).2 d.

Definition resume_correlated_claimed (d : Db) : result relay_refusal (ProcessDefinition * ResumeRequest) * Db :=
  if bool_decide (instance_id ∈ inline_held) then (Err InlineHeld, d)
  else
    let '(granted, t) := Instance.claim now owner (dep_value deployment) instance_id (db_instance d) in
    let run d := match relay_request d with Ok q => (Ok q, d) | Err e => (Err e, release_instance d) end in
    if granted then run (set_instance t d)
    else
      match load key_provider nonces (dep_value deployment) instance_id d with
      | Err e => (Err (LoadFailed e), d)
      | Ok (Some _) => (Err ClaimHeld, d)
      | Ok None => run d
      end.
End Relay.

(** ** Lemmas *)

Lemma guarded_ok g x : guarded g = Ok x → g = None.
Proof. by destruct g. Qed.

Lemma refuse_when_ok b e x : refuse_when b e = Ok x → b = false.
Proof. by destruct b. Qed.

Lemma ok_or_ok {E A} (e : E) (o : option A) a : ok_or e o = Ok a → o = Some a.
Proof. destruct o; simpl; congruence. Qed.

Lemma map_err_ok {E F A} (f : E → F) (r : result E A) a : map_err f r = Ok a → r = Ok a.
Proof. destruct r; simpl; congruence. Qed.

Section Admission.
Context (evaluate : string → Variables → result string FeelValue).
Context `{Primitives, BigDecimalText, TimeText, TimeCrate, TimeParse, JsonText, Base64}.
Context (processes : ProcessRegistry) (key_provider : option KeyProvider) (nonces : string → string).
Context (deployment : DeploymentId) (instance_id wait_node_id : string) (candidate_nodes : list string)
  (relay_vars : Variables) (alias_value channel : string) (labels : Labels) (traceparent : option string).

Abbreviation request := (relay_request evaluate processes key_provider nonces deployment instance_id wait_node_id
  candidate_nodes relay_vars alias_value channel labels traceparent).

(** What an admitted relay runs on. *)
Record admitted (s : SuspendedInstance) (p : ProcessDefinition) (q : ResumeRequest) : Prop := {
  ad_suspended : si_suspended s = true;
  ad_live : si_status s ≠ STATUS_FAILED ∧ si_status s ≠ STATUS_COMPLETED ∧ si_status s ≠ STATUS_TERMINATED;
  ad_not_backing_off : si_retry_backoff s !! wait_node_id = None;
  ad_waiting : rq_satisfied q ∈ si_waiting_nodes s;
  ad_pinned : pinned_of deployment s = Ok (rq_deployment q);
  ad_process : find_in_module processes (rq_deployment q) (si_process_id s) = Some p;
  ad_request : ∃ relay, q = resume_of (restored_suspension instance_id s) (rq_deployment q) labels (rq_satisfied q) relay
    None None false (mk_correlation traceparent (Some alias_value))
}.

Lemma relay_request_ok d p q :
  request d = Ok (p, q) →
  ∃ s, load key_provider nonces (dep_value deployment) instance_id d = Ok (Some s) ∧ admitted s p q.
Proof.
  unfold relay_request.
  intros (loaded & Hl%map_err_ok & (s & ->%ok_or_ok & ([] & Hf%guarded_ok & ([] & Ht%guarded_ok & ([] & Hs%refuse_when_ok &
    ([] & Hb%guarded_ok & (pinned & Hp & (process & Hd%ok_or_ok & Hr)%result_bind_ok)%result_bind_ok)%result_bind_ok)%result_bind_ok)
    %result_bind_ok)%result_bind_ok)%result_bind_ok)%result_bind_ok.
  destruct (rebind_relay_to_waiting _ _ _ _ _ _) as [node vars].
  apply result_bind_ok in Hr as ([] & Hw%refuse_when_ok & (mapped & Hm & [= <- <-])%result_bind_ok).
  exists s. split; [done|]. split; cbn; [by apply negb_false_iff| | | |done|done|by eexists].
  - unfold instance_failed_guard in Hf. unfold instance_terminal_guard in Ht.
    destruct (String.eqb_spec (si_status s) STATUS_FAILED); [done|].
    destruct (String.eqb_spec (si_status s) STATUS_COMPLETED); [done|].
    by destruct (String.eqb_spec (si_status s) STATUS_TERMINATED).
  - by destruct (si_retry_backoff s !! wait_node_id).
  - apply negb_false_iff in Hw. unfold contains in Hw. apply existsb_exists in Hw as (x & Hx%list_elem_of_In & ->%String.eqb_eq). done.
Qed.

(** The other direction: what is enough for a relay to be admitted. *)
Lemma relay_request_admits d s p pinned mapped :
  load key_provider nonces (dep_value deployment) instance_id d = Ok (Some s) →
  si_status s = STATUS_SUSPENDED → si_suspended s = true → si_retry_backoff s !! wait_node_id = None →
  pinned_of deployment s = Ok pinned → find_in_module processes pinned (si_process_id s) = Some p →
  contains (si_waiting_nodes s) wait_node_id = true → channel_call_output_mapping evaluate p wait_node_id relay_vars = Ok mapped →
  request d = Ok (p, resume_of (restored_suspension instance_id s) pinned labels wait_node_id (default relay_vars mapped)
                       None None false (mk_correlation traceparent (Some alias_value))).
Proof.
  intros Hl Hst Hs Hb Hp Hd Hw Hm. unfold relay_request. rewrite Hl. cbn [map_err ok_or mbind result_bind].
  unfold instance_failed_guard, instance_terminal_guard. rewrite Hst, Hs, Hb, Hp. cbn. rewrite Hd. cbn.
  unfold rebind_relay_to_waiting. rewrite Hw. cbn. rewrite Hw. cbn. by rewrite Hm.
Qed.
End Admission.

(** ** Properties *)


(** ** From the executor to the store and back *)

Lemma record_inbox_instance now dep records inst d d' :
  record_inbox_seen_in now dep records inst d = Ok d' → db_instance d' = db_instance d.
Proof.
  revert d. induction records as [|[c e] rest IH]; intros d; simpl; [by intros [= <-]|].
  destruct (Inbox.record_seen_for_in _ _ _ _ _ _) as [[|] t]; [|done]. by intros ->%IH.
Qed.

Lemma record_aliases_instance pick now dep inst aliases d d' :
  record_aliases pick now dep inst aliases d = Ok d' → db_instance d' = db_instance d.
Proof.
  revert d. induction aliases as [|a rest IH]; intros d; simpl; [by intros [= <-]|].
  destruct (Alias.record_in _ _ _ _ _ _ _ _) as [[[|] t]|]; simpl; [|done..]. by intros ->%IH.
Qed.

Lemma enqueue_all_instance entries d d' : enqueue_all entries d = Ok d' → db_instance d' = db_instance d.
Proof.
  revert d. induction entries as [|[e r] rest IH]; intros d; simpl; [by intros [= <-]|].
  destruct (Outbox.enqueue_in _ _ _) as [t|]; [|done]. by intros ->%IH.
Qed.

(** A step that hands no claim back leaves the snapshot it writes in the row. *)
Lemma commit_step_row pick now markers step timers d d' :
  commit_step_with_timers pick now markers step timers d = Ok d' →
  db_instance d' = Instance.persist_in now (step_deployment step) (step_instance step) (step_snapshot step) (db_instance d).
Proof.
  unfold commit_step_with_timers, commit_step_with_timers_releasing, commit_step_with_timers_releasing_retiring,
    write_step_with_timers_in, write_step_in.
  intros ([] & _ & (d1 & (d2 & (d3 & H3%record_inbox_instance & (d4 & H4%record_aliases_instance & H5%enqueue_all_instance)
    %result_bind_ok)%result_bind_ok & [= <-])%result_bind_ok & [= <-])%result_bind_ok)%result_bind_ok.
  assert (Hc : ∀ d, db_instance (clear_inflight markers (step_deployment step) (step_instance step) d) = db_instance d).
  { intros d0. unfold clear_inflight. by case_bool_decide. }
  rewrite Hc, (fold_frame db_instance) by done. rewrite H5, (fold_frame db_instance) by done.
  rewrite H4, (fold_frame db_instance) by done. cbn [db_instance set_instance].
  rewrite !(fold_frame db_instance) by done. by rewrite H3.
Qed.

Lemma var_map_from_iter l : var_map (var_from_iter l) = map_of l.
Proof.
  unfold var_from_iter, var_merge, map_of. change (∅ : gmap string FeelValue) with (var_map []).
  generalize (@nil (string * FeelValue)). induction l as [|[k v] l IH]; intros acc; [done|]. simpl.
  by rewrite IH, var_insert_map.
Qed.

(** What a store keeps of a suspension: its variables are those given, counters and
    markers that say nothing are gone, and so is what only the parking pass needs. *)
Definition stored_suspension (su : Suspension) (instance_id : string) (vars : Variables) : Suspension :=
  mk_suspension instance_id (waiting_nodes su) (completed_nodes su) vars
    (if str_is_empty (trim (default "" (start_node su))) then None else start_node su) [] false
    (keep positive (su_coverage_progress su)) (keep positive (su_retry_attempts su)) (keep not_blank (su_retry_backoff su)) [].

Lemma contains_true l x : x ∈ l → contains l x = true.
Proof.
  intros Hx. unfold contains. apply existsb_exists. exists x. split; [by apply list_elem_of_In|apply String.eqb_refl].
Qed.

(** C3: an instance resumes from the store as it was suspended.  When the executor
    suspends a fresh instance, the bridge parks it in one step, and a relay for one of its
    waits arrives, the dispatcher claims the row and resumes the same process with the
    request that a resume of the suspension itself would make: the same frontier,
    completed nodes and start, the counters and backoff markers that say something, and
    every variable that is not transient, as the value it was. *)
Theorem park_then_relay (pr : Primitives) (bt : BigDecimalText) (jt : JsonText) (b64 : Base64) (tt : TimeText)
    (tc : TimeCrate) (tp : TimeParse) (evaluate : string → Variables → result string FeelValue)
    (processes : ProcessRegistry) (key_provider : option KeyProvider) (nonces : string → string)
    (pick : list string → option string) (markers : gset (string * string)) (process : ProcessDefinition)
    (deployment : DeploymentId) (tenant id : string) (audit_seq now now' : Z) (su : Suspension)
    (aliases : list StepAlias) (timers : list StepTimerWait) (outbox : list (string * Outbox.Row))
    (inbox_seen : list (string * string)) (d d' : Db) (node : string) (candidates : list string)
    (relay : Variables) (mapped : option Variables) (alias_value channel : string) (labels : Labels)
    (traceparent : option string) (owner : string) (inline_held : gset string) :
  PrimitiveLaws pr → BigDecimalTextLaws bt → JsonTextLaws jt → Base64Laws b64 → TimeCrateLaws tc →
  (∀ aad, String.length (nonces aad) = NONCE_LEN) →
  let s := park_snapshot process (dep_value deployment) tenant audit_seq su in
  parkable_instance s → park_texts key_provider nonces s id →
  deployment_of (dep_value deployment) = Ok deployment →
  find_in_module processes deployment (process_id process) = Some process →
  db_instance d !! (dep_value deployment, id) = None →
  commit_park key_provider nonces pick now markers (dep_value deployment) id s aliases timers outbox inbox_seen d = Ok d' →
  node ∈ waiting_nodes su → su_retry_backoff su !! node = None → id ∉ inline_held →
  channel_call_output_mapping evaluate process node relay = Ok mapped →
  ∃ vars d'',
    resume_correlated_claimed evaluate processes key_provider nonces deployment id node candidates relay alias_value
      channel labels traceparent now' owner inline_held d'
    = (Ok (process, resume_of (stored_suspension su id vars) deployment labels node (default relay mapped) None None false
                      (mk_correlation traceparent (Some alias_value))), d'') ∧
    var_map vars = map_of (pv_kept (persisted_variables (declared_variables process) (su_variables su))).
Proof.
  intros Hpl Hbl Hjl H64 Htl Hn s Hs Ht Hdep Hmod Hfresh Hpark Hnode Hback Hheld Hmap.
  apply result_bind_ok in Hpark as (step & (bytes & He & (subjects & _ & [= <-])%result_bind_ok)%result_bind_ok & Hcommit).
  apply map_err_ok, commit_step_row in Hcommit. cbn in Hcommit.
  destruct (load_parked pr bt jt b64 tt tc tp key_provider nonces s id bytes Hpl Hbl Hjl H64 Htl Hn Hs Ht He) as [Hl Hv].
  unfold Instance.persist_in in Hcommit. rewrite Hfresh in Hcommit.
  unfold resume_correlated_claimed. rewrite bool_decide_eq_false_2 by done.
  unfold Instance.claim. rewrite Hcommit, lookup_insert_eq. cbn [Instance.may_claim Instance.claim_owner].
  set (loaded := suspended_of _ _) in Hl. exists (var_from_iter (si_variables loaded)).
  assert (Hload : ∀ t r, t !! (dep_value deployment, id) = Some r → Instance.serialised r = bytes →
    load key_provider nonces (dep_value deployment) id (set_instance t d') = Ok (Some loaded)).
  { intros t r Hr Hb. unfold load, Instance.load. cbn [db_instance set_instance]. rewrite Hr. cbn. rewrite Hb, Hl. done. }
  eexists. split; [|rewrite var_map_from_iter; exact Hv].
  erewrite (relay_request_admits _ _ _ _ _ _ _ _ _ _ _ _ _ _ loaded process deployment mapped);
    [|by eapply Hload; [apply lookup_insert_eq|]|done|done| | |done|by apply contains_true|done].
  - assert (restored_suspension id loaded = stored_suspension su id (var_from_iter (si_variables loaded))) as ->; [|reflexivity].
    unfold restored_suspension, stored_suspension. cbn. by destruct (start_node su).
  - change (keep not_blank (su_retry_backoff su) !! node = None).
    destruct (keep not_blank (su_retry_backoff su) !! node) eqn:E; [|done]. apply lookup_keep in E as [E _]. congruence.
  - unfold pinned_of. cbn. rewrite Hdep. by case_match.
Qed.

(** *** A parked instance and a relay for it *)

#[local] Existing Instance plain_primitives.
#[local] Existing Instance plain_time_text.
#[local] Existing Instance plain_time_parse.
#[local] Existing Instance numeral_json_text.
#[local] Existing Instance plain_base64.

Definition no_feel (expression : string) (vars : Variables) : result string FeelValue := Err "no expression".

Definition card_processes : ProcessRegistry := [(system, mk_module "urn:orders" None [] [card_process])].

Definition card_parked : result (fault bridge_error) Db :=
  commit_park (Some card_provider) twelve_bytes head 5 ∅ (dep_value system) "i-1" with_card [] [] [] [] empty_db.

Definition card_relay (d : Db) : result relay_refusal (ProcessDefinition * ResumeRequest) * Db :=
  resume_correlated_claimed no_feel card_processes (Some card_provider) twelve_bytes system "i-1" "approve" []
    [("ok", Boolean true)] "order-1" "decisions" [] None 9 "replica-a" ∅ d.

Lemma card_parked_ok : match card_parked with Ok d => is_ok (card_relay d).1 | Err _ => false end = true.
Proof. vm_compute. reflexivity. Qed.


Lemma park_then_relay_witness :
  ∃ d d' vars, card_parked = Ok d ∧
    (card_relay d = (Ok (card_process, resume_of (stored_suspension
       (card_suspension "approve" [("scratch", Str "x"); ("card", Str "4111"); ("amount", Number (mk_decimal 10000 2))]) "i-1" vars)
       system [] "approve" [("ok", Boolean true)] None None false (mk_correlation None (Some "order-1"))), d')) ∧
    var_map vars = map_of [("card", Str "4111"); ("amount", Number (mk_decimal 10000 2))].
Proof.
  pose proof card_parked_ok as B. destruct card_parked as [d|] eqn:Ed; [|discriminate B]. clear B. unfold card_parked in Ed. unfold card_relay.
  edestruct (park_then_relay plain_primitives plain_decimal_text numeral_json_text plain_base64 plain_time_text plain_time_crate
    plain_time_parse no_feel card_processes (Some card_provider) twelve_bytes head ∅ card_process system "tenant" "i-1" 7 5 9
    (card_suspension "approve" [("scratch", Str "x"); ("card", Str "4111"); ("amount", Number (mk_decimal 10000 2))])
    [] [] [] [] empty_db d "approve" [] [("ok", Boolean true)] None "order-1" "decisions" [] None "replica-a" ∅)
    as (vars & d' & Hr & Hv);
    [apply _|apply _|apply _|apply _|apply _|reflexivity|exact with_card_parkable|exact with_card_texts|reflexivity|reflexivity
    |reflexivity|exact Ed|left; reflexivity|reflexivity|apply not_elem_of_empty|reflexivity|].
  exists d, d', vars. split; [reflexivity|]. split; [exact Hr|exact Hv].
Defined.
