(* ===== verification/FeelLexer.v ===== *)
(** * The FEEL lexer ([sutra-feel/src/lexer.rs], [sutra-feel/src/positions.rs],
    [sutra-feel/src/error.rs], [sutra-feel/src/codes.rs])

    A source is the list of its code points, as the lexer's [Vec<char>].  A function of
    the lexer takes what is left of the source; its position is the number of characters
    already read.  Characters are classified exactly where the source looks at ASCII or at
    white space; the Unicode tables of letters and digits above ASCII are an argument
    ([UnicodeTables]), as is the decimal text of the [bigdecimal] crate.

    The theorems: lexing always ends, in tokens or in an error, and the tokens
    tile the source, each spelling the characters it spans with nothing but white space and
    comments between them ([tokens_tile_source]), and name resolution keeps them
    in order and within the source ([resolve_names_in_order]). *)
From Stdlib Require Import ZArith Lia Bool Ascii String.
From stdpp Require Import base option strings list.
From S2P Require Import Prelude Texts Decimal FeelValue Temporal FeelText TemporalParse.

Open Scope string_scope.
Open Scope list_scope.
Open Scope Z_scope.

(** ** Errors and source positions *)

Definition FEEL_SYNTAX_UNEXPECTED_TOKEN : string := "SUTRA.FEEL.SYNTAX.UNEXPECTED_TOKEN".
Definition FEEL_SYNTAX_UNCLOSED_BRACKET : string := "SUTRA.FEEL.SYNTAX.UNCLOSED_BRACKET".
Definition FEEL_DETERMINISM_UNSAFE_BUILTIN : string := "SUTRA.FEEL.DETERMINISM.UNSAFE_BUILTIN".
Definition FEEL_COMPILE_UNDEFINED_VARIABLE : string := "SUTRA.FEEL.COMPILE.UNDEFINED_VARIABLE".
Definition FEEL_COMPILE_TYPE_MISMATCH : string := "SUTRA.FEEL.COMPILE.TYPE_MISMATCH".
Definition FEEL_EVAL_NULL_DEREFERENCE : string := "SUTRA.FEEL.EVAL.NULL_DEREFERENCE".
Definition FEEL_EVAL_EXTERNAL_UNSUPPORTED : string := "SUTRA.FEEL.EVAL.EXTERNAL_UNSUPPORTED".

Record SourceLocation : Type := mk_location {
  loc_uri : string; loc_line : Z; loc_column : Z; loc_end_line : option Z; loc_end_column : option Z }.

Record FeelError : Type := mk_feel_error {
  fe_code : string; fe_message : string; fe_offset : option Z; fe_location : option SourceLocation;
  fe_hint : option string }.

(** [FeelError::plain] and [FeelError::at]. *)
Definition error_plain (code message : string) : FeelError := mk_feel_error code message None None None.
Definition error_at (code message : string) (offset : Z) (location : option SourceLocation) : FeelError :=
  mk_feel_error code message (Some offset) location None.

Definition INLINE_FEEL_URI : string := "feel:inline".

Record FeelSourcePositions : Type := mk_positions { source : list Z; uri : string }.

Definition positions_new (src uri : string) : FeelSourcePositions :=
  mk_positions (chars src) (if str_is_empty uri then INLINE_FEEL_URI else uri).

Definition len {A} (l : list A) : Z := Z.of_nat (length l).

Definition clamp (p : FeelSourcePositions) (offset : Z) : Z := Z.min offset (len (source p)).

(** The line and where it starts: [while i < offset] over the source. *)
Fixpoint line_scan (offset i line line_start : Z) (l : list Z) : Z * Z :=
  match l with
  | [] => (line, line_start)
  | c :: r =>
      if offset <=? i then (line, line_start)
      else if c =? 13 then
        match r with
        | 10 :: r' => line_scan offset (i + 2) (line + 1) (i + 2) r'
        | _ => line_scan offset (i + 1) (line + 1) (i + 1) r
        end
      else if c =? 10 then line_scan offset (i + 1) (line + 1) (i + 1) r
      else line_scan offset (i + 1) line line_start r
  end.

(** [(offset - line_start + 1) as u32], on [usize]. *)
Definition offset_to_line_column (p : FeelSourcePositions) (offset : Z) : Z * Z :=
  let '(line, line_start) := line_scan offset 0 1 0 (source p) in
  (line, (offset - line_start + 1) mod 4294967296).

Definition location_for (p : FeelSourcePositions) (offset : Z) : SourceLocation :=
  let '(line, column) := offset_to_line_column p (clamp p offset) in
  mk_location (uri p) line column None None.

Definition range_for (p : FeelSourcePositions) (start_offset end_offset : Z) : SourceLocation :=
  let '(line, column) := offset_to_line_column p (clamp p start_offset) in
  let '(end_line, end_column) := offset_to_line_column p (clamp p end_offset) in
  mk_location (uri p) line column (Some end_line) (Some end_column).

(** The characters of [[a, b)]. *)
Definition sub_list {A} (a b : Z) (l : list A) : list A := take (Z.to_nat (b - a)) (drop (Z.to_nat a) l).

Definition slice (p : FeelSourcePositions) (start_offset end_offset : Z) : list Z :=
  let start := clamp p start_offset in
  let end_ := Z.max (clamp p end_offset) start in
  sub_list start end_ (source p).

(** ** Characters *)

(** [char::is_alphabetic] and [char::is_numeric] above ASCII. *)
Class UnicodeTables : Type := { table_alphabetic : Z → bool; table_numeric : Z → bool }.

(** No letter and no digit above ASCII. *)
Definition ascii_tables : UnicodeTables := {| table_alphabetic _ := false; table_numeric _ := false |}.

Definition ch (c : ascii) : Z := ascii_Z c.
Arguments ch _%_char_scope.

Definition is_digit (c : Z) : bool := (48 <=? c) && (c <=? 57).
Definition is_letter (c : Z) : bool := ((65 <=? c) && (c <=? 90)) || ((97 <=? c) && (c <=? 122)).

Definition is_alphabetic `{UnicodeTables} (c : Z) : bool := if c <? 128 then is_letter c else table_alphabetic c.
Definition is_alphanumeric `{UnicodeTables} (c : Z) : bool :=
  is_alphabetic c || (if c <? 128 then is_digit c else table_numeric c).

(** [char::is_whitespace]: the White_Space property. *)
Definition is_white (c : Z) : bool :=
  ((9 <=? c) && (c <=? 13)) || (c =? 32) || (c =? 133) || (c =? 160) || (c =? 5760)
  || ((8192 <=? c) && (c <=? 8202)) || (c =? 8232) || (c =? 8233) || (c =? 8239) || (c =? 8287) || (c =? 12288).

Definition is_extended_name_char (c : Z) : bool := (128 <=? c) && negb (is_white c).

(** [str::trim]. *)
Fixpoint drop_white (l : list Z) : list Z :=
  match l with c :: r => if is_white c then drop_white r else l | [] => [] end.
Definition trim_chars (l : list Z) : list Z := rev (drop_white (rev (drop_white l))).

(** The longest prefix of characters of [f], and the rest. *)
Fixpoint span (f : Z → bool) (l : list Z) : list Z * list Z :=
  match l with
  | c :: r => if f c then let '(a, b) := span f r in (c :: a, b) else ([], l)
  | [] => ([], [])
  end.

(** ** Tokens *)

Inductive TokenKind : Type :=
| TIdent | TNumber | TStr | TBool | TNull | TLParen | TRParen | TComma | TDot | TEq | TNeq | TLt | TLe | TGt | TGe
| TPlus | TMinus | TTimes | TDiv | TPow | TLBracket | TRBracket | TLBrace | TRBrace | TColon | TAnd | TOr | TNot | TIf
| TThen | TElse | TSome | TEvery | TFor | TIn | TSatisfies | TReturn | TDotDot | TTemporal | TEof.

Scheme Boolean Equality for TokenKind.

Definition token_name (k : TokenKind) : string :=
  match k with
  | TIdent => "IDENT" | TNumber => "NUMBER" | TStr => "STRING" | TBool => "BOOL" | TNull => "NULL"
  | TLParen => "LPAREN" | TRParen => "RPAREN" | TComma => "COMMA" | TDot => "DOT" | TEq => "EQ" | TNeq => "NEQ"
  | TLt => "LT" | TLe => "LE" | TGt => "GT" | TGe => "GE" | TPlus => "PLUS" | TMinus => "MINUS" | TTimes => "TIMES"
  | TDiv => "DIV" | TPow => "POW" | TLBracket => "LBRACKET" | TRBracket => "RBRACKET" | TLBrace => "LBRACE"
  | TRBrace => "RBRACE" | TColon => "COLON" | TAnd => "AND" | TOr => "OR" | TNot => "NOT" | TIf => "IF"
  | TThen => "THEN" | TElse => "ELSE" | TSome => "SOME" | TEvery => "EVERY" | TFor => "FOR" | TIn => "IN"
  | TSatisfies => "SATISFIES" | TReturn => "RETURN" | TDotDot => "RANGE" | TTemporal => "TEMPORAL" | TEof => "EOF"
  end.

Record Token : Type := mk_token { tk_kind : TokenKind; tk_text : string; tk_value : FeelValue; tk_start : Z; tk_end : Z }.

Definition is_kind (k : TokenKind) (t : Token) : bool := TokenKind_beq (tk_kind t) k.

Lemma is_kind_true k t : is_kind k t = true ↔ tk_kind t = k.
Proof. unfold is_kind. split; [|intros ->; by destruct k]. destruct (tk_kind t), k; done. Qed.

(** Keyword or identifier. *)
Definition word_kind (text : string) : TokenKind * FeelValue :=
  if String.eqb text "and" then (TAnd, Null)
  else if String.eqb text "or" then (TOr, Null)
  else if String.eqb text "not" then (TNot, Null)
  else if String.eqb text "if" then (TIf, Null)
  else if String.eqb text "then" then (TThen, Null)
  else if String.eqb text "else" then (TElse, Null)
  else if String.eqb text "some" then (TSome, Null)
  else if String.eqb text "every" then (TEvery, Null)
  else if String.eqb text "for" then (TFor, Null)
  else if String.eqb text "in" then (TIn, Null)
  else if String.eqb text "satisfies" then (TSatisfies, Null)
  else if String.eqb text "return" then (TReturn, Null)
  else if String.eqb text "true" then (TBool, Boolean true)
  else if String.eqb text "false" then (TBool, Boolean false)
  else if String.eqb text "null" then (TNull, Null)
  else (TIdent, Str text).

Definition word_token (text : string) (start end_ : Z) : Token :=
  let '(kind, v) := word_kind text in mk_token kind text v start end_.

(** ** String literals *)

Definition hex_digit (c : Z) : option Z :=
  if is_digit c then Some (c - 48)
  else if (97 <=? c) && (c <=? 102) then Some (c - 87)
  else if (65 <=? c) && (c <=? 70) then Some (c - 55)
  else None.

Fixpoint hex_value (acc : Z) (l : list Z) : option Z :=
  match l with [] => Some acc | c :: r => d ← hex_digit c; hex_value (acc * 16 + d) r end.

(** [u32::from_str_radix(s, 16)] of at most six characters: a leading [+] is allowed. *)
Definition from_hex (l : list Z) : option Z :=
  let body := match l with c :: r => if c =? ch "+" then r else l | [] => [] end in
  match body with [] => None | _ => hex_value 0 body end.

(** [n] characters, when there are as many. *)
Definition read_hex (n : nat) (l : list Z) : option Z :=
  if (length l <? n)%nat then None else from_hex (take n l).

Definition BACKSLASH_ : Z := 92.

(** The characters pushed for an escape, and how many characters after its letter it
    takes. *)
Definition unicode_escape (letter : Z) (ndigits : nat) (l : list Z) : list Z * nat :=
  let verbatim := ([BACKSLASH_; letter], O) in
  let plain code := if is_scalar code then ([code], ndigits) else verbatim in
  match read_hex ndigits l with
  | None => verbatim
  | Some code =>
      if (ndigits =? 4)%nat && (55296 <=? code) && (code <=? 56319) then
        match drop ndigits l with
        | b :: u :: r =>
            if (b =? BACKSLASH_) && (u =? ch "u") then
              match read_hex 4 r with
              | Some low =>
                  if (56320 <=? low) && (low <=? 57343) then
                    ([65536 + Z.shiftl (code - 55296) 10 + (low - 56320)], (ndigits + 6)%nat)
                  else plain code
              | None => plain code
              end
            else plain code
        | _ => plain code
        end
      else plain code
  end.

Definition unescape (next : Z) (l : list Z) : list Z * nat :=
  if next =? ch "n" then ([10], O)
  else if next =? ch "t" then ([9], O)
  else if next =? ch "r" then ([13], O)
  else if (next =? BACKSLASH_) || (next =? 34) || (next =? 39) then ([next], O)
  else if next =? ch "u" then unicode_escape next 4 l
  else if next =? ch "U" then unicode_escape next 6 l
  else ([BACKSLASH_; next], O).

(** After the opening quote: the text up to the closing quote, and the rest; [skip]
    counts characters an escape has taken already. *)
Fixpoint string_body (quote : Z) (skip : nat) (l : list Z) : option (list Z * list Z) :=
  match l with
  | [] => None
  | c :: r =>
      match skip with
      | S k => string_body quote k r
      | O =>
          if c =? quote then Some ([], r)
          else
            match r with
            | next :: r' =>
                if c =? BACKSLASH_ then
                  let '(out, n) := unescape next r' in
                  '(o, rest) ← string_body quote (S n) r; Some (out ++ o, rest)
                else '(o, rest) ← string_body quote O r; Some (c :: o, rest)
            | [] => None
            end
      end
  end.

(** ** Numbers, names and operators *)

(** A digit run, a fraction and an exponent. *)
Definition fraction (l : list Z) : list Z * list Z :=
  match l with
  | d :: ((e :: _) as r) =>
      if (d =? ch ".") && is_digit e then let '(f, rest) := span is_digit r in (d :: f, rest) else ([], l)
  | _ => ([], l)
  end.

Definition exponent (l : list Z) : list Z * list Z :=
  match l with
  | e :: r =>
      if (e =? ch "e") || (e =? ch "E") then
        let '(sgn, r2) :=
          match r with s :: r2 => if (s =? ch "+") || (s =? ch "-") then ([s], r2) else ([], r) | [] => ([], r) end in
        match r2 with
        | d :: _ => if is_digit d then let '(ds, rest) := span is_digit r2 in (e :: sgn ++ ds, rest) else ([], l)
        | [] => ([], l)
        end
      else ([], l)
  | [] => ([], l)
  end.

Definition number_chars (l : list Z) : list Z * list Z :=
  let '(int, r1) := span is_digit l in
  let '(frac, r2) := fraction r1 in
  let '(exp, r3) := exponent r2 in
  (int ++ frac ++ exp, r3).

Definition continues_identifier `{UnicodeTables} (c : Z) (r : list Z) : bool :=
  is_alphanumeric c || (c =? ch "_") || is_extended_name_char c
  || ((c =? 39) && match r with n :: _ => is_alphanumeric n | [] => false end)
  || ((c =? ch "-") && match r with n :: _ => is_alphabetic n || (n =? ch "_") | [] => false end).

Fixpoint identifier_chars `{UnicodeTables} (l : list Z) : list Z * list Z :=
  match l with
  | c :: r => if continues_identifier c r then let '(a, b) := identifier_chars r in (c :: a, b) else ([], l)
  | [] => ([], [])
  end.

(** The operator that starts with [c], and how many characters it takes. *)
Definition operator_kind (c : Z) (r : list Z) : option (TokenKind * string * nat) :=
  let next d := match r with n :: _ => n =? d | [] => false end in
  if c =? ch "=" then Some (TEq, "=", 1%nat)
  else if c =? ch "<" then Some (if next (ch "=") then (TLe, "<=", 2%nat) else (TLt, "<", 1%nat))
  else if c =? ch ">" then Some (if next (ch "=") then (TGe, ">=", 2%nat) else (TGt, ">", 1%nat))
  else if c =? ch "!" then if next (ch "=") then Some (TNeq, "!=", 2%nat) else None
  else if c =? ch "+" then Some (TPlus, "+", 1%nat)
  else if c =? ch "-" then Some (TMinus, "-", 1%nat)
  else if c =? ch "*" then Some (if next (ch "*") then (TPow, "**", 2%nat) else (TTimes, "*", 1%nat))
  else if c =? ch "/" then Some (TDiv, "/", 1%nat)
  else if c =? ch "(" then Some (TLParen, "(", 1%nat)
  else if c =? ch ")" then Some (TRParen, ")", 1%nat)
  else if c =? ch "[" then Some (TLBracket, "[", 1%nat)
  else if c =? ch "]" then Some (TRBracket, "]", 1%nat)
  else if c =? ch "{" then Some (TLBrace, "{", 1%nat)
  else if c =? ch "}" then Some (TRBrace, "}", 1%nat)
  else if c =? ch ":" then Some (TColon, ":", 1%nat)
  else if c =? ch "," then Some (TComma, ",", 1%nat)
  else if c =? ch "." then Some (if next (ch ".") then (TDotDot, "..", 2%nat) else (TDot, ".", 1%nat))
  else None.

(** ** The lexer *)

(** What follows an unterminated comment's [/*]: the text after [*/]. *)
Fixpoint close_comment (l : list Z) : option (list Z) :=
  match l with
  | a :: ((b :: r) as l') => if (a =? ch "*") && (b =? ch "/") then Some r else close_comment l'
  | _ => None
  end.

Definition lex_result : Type → Type := result (fault FeelError).

Section Lexer.
Context `{UnicodeTables, BigDecimalText, TimeCrate, TimeParse}.
Context (positions : FeelSourcePositions).

(** The position of the character [l] starts with. *)
Definition pos_of (l : list Z) : Z := len (source positions) - len l.

Definition fail_at {A} (code message : string) (offset : Z) (loc : SourceLocation) : lex_result A :=
  Err (Rejected (error_at code message offset (Some loc))).

Definition unexpected {A} (c at_ : Z) : lex_result A :=
  fail_at FEEL_SYNTAX_UNEXPECTED_TOKEN ("Unexpected character '" +:+ encode [c] +:+ "'") at_
    (location_for positions at_).

Fixpoint skip_whitespace (fuel : nat) (l : list Z) : lex_result (list Z) :=
  match fuel with
  | O => Err OutOfFuel
  | S fuel =>
      let l := (span is_white l).2 in
      match l with
      | a :: b :: r =>
          if (a =? ch "/") && (b =? ch "/") then skip_whitespace fuel (span (λ c, negb (c =? 10)) r).2
          else if (a =? ch "/") && (b =? ch "*") then
            match close_comment r with
            | Some rest => skip_whitespace fuel rest
            | None =>
                fail_at FEEL_SYNTAX_UNCLOSED_BRACKET "Unterminated block comment" (pos_of l)
                  (range_for positions (pos_of l) (len (source positions)))
            end
          else Ok l
      | _ => Ok l
      end
  end.

(** [number]: the decimal text is the crate's to read; [expect] panics when it cannot. *)
Definition number (l : list Z) : lex_result (Token * list Z) :=
  let '(text, rest) := number_chars l in
  match bd_parse (encode text) with
  | Some n => Ok (mk_token TNumber (encode text) (Number n) (pos_of l) (pos_of rest), rest)
  | None => Err Panicked
  end.

(** [string] at an opening quote. *)
Definition string_ (quote : Z) (l : list Z) : lex_result (Token * list Z) :=
  match string_body quote O (drop 1 l) with
  | Some (out, rest) =>
      Ok (mk_token TStr (encode (take (length l - length rest) l)) (Str (encode out)) (pos_of l) (pos_of rest), rest)
  | None =>
      fail_at FEEL_SYNTAX_UNCLOSED_BRACKET "Unclosed string literal" (pos_of l)
        (range_for positions (pos_of l) (len (source positions)))
  end.

(** [temporal] at an [@]. *)
Definition temporal (l : list Z) : lex_result (Token * list Z) :=
  let start := pos_of l in
  match drop 1 l with
  | quote :: _ =>
      if (quote =? 34) || (quote =? 39) then
        '(t, rest) ← string_ quote (drop 1 l);
        let inner := match tk_value t with Str s => s | _ => "" end in
        let text := "@" +:+ dq inner in
        match parse_at_literal inner with
        | Some v => Ok (mk_token TTemporal text v start (pos_of rest), rest)
        | None =>
            fail_at FEEL_COMPILE_TYPE_MISMATCH ("Unrecognised temporal literal " +:+ text) start
              (range_for positions start (pos_of rest))
        end
      else fail_at FEEL_SYNTAX_UNEXPECTED_TOKEN "Expected a quoted temporal literal after '@'" start
             (location_for positions start)
  | [] => fail_at FEEL_SYNTAX_UNEXPECTED_TOKEN "Expected a quoted temporal literal after '@'" start
            (location_for positions start)
  end.

Definition identifier_or_keyword (l : list Z) : Token * list Z :=
  let '(text, rest) := identifier_chars l in (word_token (encode text) (pos_of l) (pos_of rest), rest).

Definition operator (c : Z) (l : list Z) : lex_result (Token * list Z) :=
  match operator_kind c (drop 1 l) with
  | Some (kind, text, n) => Ok (mk_token kind text Null (pos_of l) (pos_of (drop n l)), drop n l)
  | None => unexpected c (pos_of l)
  end.

(** One round of [tokenize] at a character that is not skipped. *)
Definition next_token (c : Z) (l : list Z) : lex_result (Token * list Z) :=
  let leading_dot_digit := (c =? ch ".") && match l with _ :: d :: _ => is_digit d | _ => false end in
  if is_digit c || leading_dot_digit then number l
  else if c =? ch "@" then temporal l
  else if (c =? 34) || (c =? 39) then string_ c l
  else if is_alphabetic c || (c =? ch "_") || is_extended_name_char c then Ok (identifier_or_keyword l)
  else operator c l.

Definition eof : Token := mk_token TEof "" Null (len (source positions)) (len (source positions)).

Fixpoint tokenize_loop (fuel : nat) (l : list Z) : lex_result (list Token) :=
  match fuel with
  | O => Err OutOfFuel
  | S fuel =>
      match l with
      | [] => Ok [eof]
      | _ =>
          l ← skip_whitespace (S (length l)) l;
          match l with
          | [] => Ok [eof]
          | c :: _ => '(t, rest) ← next_token c l; ts ← tokenize_loop fuel rest; Ok (t :: ts)
          end
      end
  end.

(** Every round reads a character, so the length of the source is fuel enough. *)
Definition tokenize : lex_result (list Token) :=
  tokenize_loop (S (length (source positions))) (source positions).
End Lexer.

(** ** Names with spaces and hyphens *)

Definition continues_name_run (kind : TokenKind) : bool :=
  match kind with TIdent | TNumber | TIn | TAnd | TOr | TNot => true | _ => false end.

Fixpoint has_adjacent_name_run (tokens : list Token) : bool :=
  match tokens with
  | a :: ((b :: _) as r) => (is_kind TIdent a && continues_name_run (tk_kind b)) || has_adjacent_name_run r
  | _ => false
  end.

Definition has_hyphen (t : Token) : bool := is_kind TIdent t && string_any (Ascii.eqb "-") (tk_text t).

Definition needs_name_resolution (tokens : list Token) : bool :=
  has_adjacent_name_run tokens || existsb has_hyphen tokens.

Definition known_name (known : list string) (s : string) : bool := existsb (String.eqb s) known.

(** A hyphenated token that stays whole: a known name, or a word of one. *)
Definition keep_folded (known : list string) (text : string) : bool :=
  known_name known text || existsb (λ n, existsb (String.eqb text) (split_char " " n)) known.

Definition char_count (s : string) : Z := len (chars s).

(** The longest join of the first [k] pieces that is a known name; one piece otherwise. *)
Fixpoint longest_known (known : list string) (sep : string) (k : nat) (pieces : list string) : nat :=
  match k with
  | S (S _ as k') => if known_name known (String.concat sep (take k pieces)) then k else longest_known known sep k' pieces
  | _ => 1%nat
  end.

(** The tokens of the pieces, [at_] the position of the first one. *)
Fixpoint split_pieces (fuel : nat) (known : list string) (first : bool) (at_ : Z) (pieces : list string) : list Token :=
  match fuel, pieces with
  | S fuel, _ :: _ =>
      let k := longest_known known "-" (length pieces) pieces in
      let name := String.concat "-" (take k pieces) in
      (if first then [] else [mk_token TMinus "-" Null (at_ - 1) at_])
        ++ word_token name at_ (at_ + char_count name)
        :: split_pieces fuel known false (at_ + char_count name + 1) (drop k pieces)
  | _, _ => []
  end.

Definition split_hyphenated_names (tokens : list Token) (known : list string) : list Token :=
  if negb (existsb (λ t, has_hyphen t && negb (keep_folded known (tk_text t))) tokens) then tokens
  else
    flat_map (λ t,
      if negb (has_hyphen t) || keep_folded known (tk_text t) then [t]
      else let pieces := split_char "-" (tk_text t) in split_pieces (length pieces) known true (tk_start t) pieces) tokens.

(** The number of tokens of the longest run, from the start, that spells a known name. *)
Definition run_length (tokens : list Token) : nat :=
  (fix go (l : list Token) : nat :=
     match l with t :: r => if continues_name_run (tk_kind t) then S (go r) else O | [] => O end) tokens.

Fixpoint merge_loop (fuel : nat) (known : list string) (tokens : list Token) : list Token :=
  match fuel, tokens with
  | S fuel, t :: r =>
      if is_kind TIdent t then
        let k := longest_known known " " (S (run_length r)) (map tk_text tokens) in
        match k with
        | S (S _) =>
            let name := String.concat " " (take k (map tk_text tokens)) in
            let last := List.last (take k tokens) t in
            mk_token TIdent name (Str name) (tk_start t) (tk_end last) :: merge_loop fuel known (drop k tokens)
        | _ => t :: merge_loop fuel known r
        end
      else t :: merge_loop fuel known r
  | _, _ => []
  end.

Definition merge_named_tokens (tokens : list Token) (known : list string) : list Token :=
  if negb (existsb (string_any (Ascii.eqb " ")) known) then tokens
  else merge_loop (length tokens) known tokens.

Definition resolve_names (tokens : list Token) (known : list string) : list Token :=
  let tokens := split_hyphenated_names tokens known in
  if has_adjacent_name_run tokens then merge_named_tokens tokens known else tokens.

(** ** What is read of a source *)

(** White space and comments; a line comment ends at its line's end. *)
Inductive blank : list Z → Prop :=
| blank_nil : blank []
| blank_white c l : is_white c = true → blank l → blank (c :: l)
| blank_line body l : Forall (λ c, c ≠ 10) body → blank (10 :: l) → blank (ch "/" :: ch "/" :: body ++ 10 :: l)
| blank_block body l : blank l → blank (ch "/" :: ch "*" :: body ++ ch "*" :: ch "/" :: l).

(** What may follow the last token: a line comment need not end. *)
Inductive trailing : list Z → Prop :=
| trailing_blank l : blank l → trailing l
| trailing_line l body : blank l → Forall (λ c, c ≠ 10) body → trailing (l ++ ch "/" :: ch "/" :: body).

(** A token spells the characters it stands for; a temporal literal, its value. *)
Definition spells (t : Token) (text : list Z) : Prop :=
  if is_kind TTemporal t then head text = Some (ch "@") else tk_text t = encode text.

Inductive tiles : Z → list Z → list Token → Prop :=
| tiles_end at_ gap :
    trailing gap → tiles at_ gap [mk_token TEof "" Null (at_ + len gap) (at_ + len gap)]
| tiles_token at_ gap text rest t ts :
    blank gap → text ≠ [] → tk_kind t ≠ TEof → spells t text →
    tk_start t = at_ + len gap → tk_end t = tk_start t + len text →
    tiles (tk_end t) rest ts → tiles at_ (gap ++ text ++ rest) (t :: ts).

(** ** Lemmas on lexing *)

Lemma len_chars_app {A} (a b : list A) : len (a ++ b) = len a + len b.
Proof. unfold len. rewrite length_app. lia. Qed.

Lemma len_at_least_0 {A} (l : list A) : 0 <= len l.
Proof. unfold len. lia. Qed.

Lemma len_cons {A} (x : A) l : len (x :: l) = len l + 1.
Proof. unfold len. simpl. lia. Qed.

Lemma span_spec f l a b :
  span f l = (a, b) → l = a ++ b ∧ Forall (λ c, f c = true) a ∧ match b with c :: _ => f c = false | [] => True end.
Proof.
  revert a b. induction l as [|c l IH]; intros a b; simpl; [by intros [= <- <-]|].
  destruct (f c) eqn:E; [|by intros [= <- <-]].
  destruct (span f l) as [a' b'] eqn:Es. intros [= <- <-]. destruct (IH _ _ eq_refl) as (-> & Ha & Hb). auto.
Qed.

Lemma blank_whites w l : Forall (λ c, is_white c = true) w → blank l → blank (w ++ l).
Proof. induction 1; simpl; intros; [done|]. constructor; auto. Qed.

Lemma blank_app a b : blank a → blank b → blank (a ++ b).
Proof.
  induction 1; simpl; intros; [done|constructor; auto| |].
  - rewrite <- app_assoc. simpl. apply blank_line; auto.
  - rewrite <- app_assoc. simpl. apply blank_block. auto.
Qed.

Lemma close_comment_spec l rest : close_comment l = Some rest → ∃ body, l = body ++ ch "*" :: ch "/" :: rest.
Proof.
  induction l as [|a l IH]; [done|]. simpl. destruct l as [|b r]; [done|].
  destruct ((a =? ch "*") && (b =? ch "/")) eqn:E.
  - intros [= <-]. apply andb_true_iff in E as [->%Z.eqb_eq ->%Z.eqb_eq]. by exists [].
  - intros H. destruct (IH H) as [body ->]. by exists (a :: body).
Qed.

Lemma trailing_app a b : blank a → trailing b → trailing (a ++ b).
Proof.
  intros Ha Hb. destruct Hb as [b Hb|b body Hb Hbody].
  - apply trailing_blank. by apply blank_app.
  - rewrite app_assoc. apply trailing_line; [|done]. by apply blank_app.
Qed.

Lemma trailing_line_app body l :
  Forall (λ c, c ≠ 10) body → trailing (10 :: l) → trailing (ch "/" :: ch "/" :: body ++ 10 :: l).
Proof.
  intros Hb Hl. inversion Hl as [l' Hbl|g body' Hg Hbody' E]; subst.
  - apply trailing_blank. by apply blank_line.
  - destruct g as [|c g]; [discriminate E|]. injection E as -> <-.
    change (trailing ((ch "/" :: ch "/" :: body ++ 10 :: g ++ ch "/" :: ch "/" :: body'))).
    rewrite (app_comm_cons g), app_assoc.
    apply (trailing_line (ch "/" :: ch "/" :: body ++ 10 :: g)); [|done]. by apply blank_line.
Qed.

(** [gap] is skipped before [rest], which is at its first character or at the end. *)
Definition skipped (l gap rest : list Z) : Prop :=
  l = gap ++ rest ∧ match rest with c :: _ => is_white c = false ∧ blank gap | [] => trailing gap end.

Lemma skipped_after a l gap rest : blank a → skipped l gap rest → skipped (a ++ l) (a ++ gap) rest.
Proof.
  intros Ha [-> H]. split; [by rewrite app_assoc|]. destruct rest; [by apply trailing_app|].
  destruct H. split; [done|]. by apply blank_app.
Qed.

Lemma skipped_line body l gap rest :
  Forall (λ c, c ≠ 10) body → skipped (10 :: l) gap rest →
  skipped (ch "/" :: ch "/" :: body ++ 10 :: l) (ch "/" :: ch "/" :: body ++ gap) rest.
Proof.
  intros Hb [E H]. destruct gap as [|c gap]; [simpl in E; subst rest; by destruct H|].
  injection E as <- ->. split; [by simpl; rewrite <- app_assoc|].
  destruct rest; [by apply trailing_line_app|]. destruct H. split; [done|]. by apply blank_line.
Qed.

Lemma skip_whitespace_spec p fuel l :
  (length l < fuel)%nat →
  match skip_whitespace p fuel l with
  | Ok rest => ∃ gap, skipped l gap rest
  | Err (Rejected _) => True
  | Err _ => False
  end.
Proof.
  revert l. induction fuel as [|fuel IH]; intros l Hf; [lia|]. cbn [skip_whitespace].
  destruct (span is_white l) as [w r] eqn:Es. apply span_spec in Es as (-> & Hw & Hr).
  assert (Hbw : blank w) by (rewrite <- (app_nil_r w); by apply blank_whites; [|constructor]).
  assert (Hdone : ∃ gap, skipped (w ++ r) gap r).
  { exists w. split; [done|]. destruct r; [by constructor|done]. }
  destruct r as [|a [|b r]]; [done|done|]. rewrite length_app in Hf. simpl in Hf. cbn [snd].
  destruct ((a =? ch "/") && (b =? ch "/")) eqn:E1; [|destruct ((a =? ch "/") && (b =? ch "*")) eqn:E2; [|done]].
  - apply andb_true_iff in E1 as [->%Z.eqb_eq ->%Z.eqb_eq].
    destruct (span (λ c, negb (c =? 10)) r) as [body rest] eqn:Es. apply span_spec in Es as (-> & Hb & Hn).
    assert (Hbody : Forall (λ c, c ≠ 10) body) by (eapply Forall_impl; [exact Hb|]; simpl; intros c ?; lia).
    rewrite length_app in Hf. specialize (IH rest ltac:(lia)). cbn [snd].
    destruct rest as [|c rest].
    + destruct fuel; [simpl in Hf; lia|]. simpl. exists (w ++ ch "/" :: ch "/" :: body). rewrite app_nil_r.
      split; [by rewrite app_nil_r|]. by apply trailing_line.
    + apply negb_false_iff, Z.eqb_eq in Hn as ->. destruct (skip_whitespace p fuel (10 :: rest)) as [rest'|[| |]]; [|done..].
      destruct IH as [gap IH]. eexists. apply skipped_after; [done|]. by apply skipped_line.
  - apply andb_true_iff in E2 as [->%Z.eqb_eq ->%Z.eqb_eq].
    destruct (close_comment r) as [rest|] eqn:Ec; [|done]. apply close_comment_spec in Ec as [body ->].
    rewrite length_app in Hf. simpl in Hf. specialize (IH rest ltac:(lia)).
    destruct (skip_whitespace p fuel rest) as [rest'|[| |]]; [|done..]. destruct IH as [gap IH].
    assert (Hcom : blank (ch "/" :: ch "*" :: body ++ [ch "*"; ch "/"])) by (apply blank_block; constructor).
    exists (w ++ (ch "/" :: ch "*" :: body ++ [ch "*"; ch "/"]) ++ gap). apply skipped_after; [done|].
    replace (ch "/" :: ch "*" :: body ++ ch "*" :: ch "/" :: rest)
      with ((ch "/" :: ch "*" :: body ++ [ch "*"; ch "/"]) ++ rest) by (simpl; by rewrite <- app_assoc).
    by apply skipped_after.
Qed.

Lemma identifier_chars_app `{UnicodeTables} l a b : identifier_chars l = (a, b) → l = a ++ b.
Proof.
  revert a b. induction l as [|c l IH]; intros a b; simpl; [by intros [= <- <-]|].
  destruct (continues_identifier c l); [|by intros [= <- <-]].
  destruct (identifier_chars l) as [a' b']. intros [= <- <-]. simpl. by rewrite <- (IH a' b').
Qed.

Lemma fraction_app l a b : fraction l = (a, b) → l = a ++ b.
Proof.
  unfold fraction. destruct l as [|d [|e r]]; [by intros [= <- <-]..|].
  case_if; [|by intros [= <- <-]]. destruct (span is_digit (e :: r)) as [f rest] eqn:Es.
  apply span_spec in Es as (-> & _). by intros [= <- <-].
Qed.

Lemma exponent_app l a b : exponent l = (a, b) → l = a ++ b.
Proof.
  unfold exponent. destruct l as [|e r]; [by intros [= <- <-]|].
  destruct ((e =? ch "e") || (e =? ch "E")); [|by intros [= <- <-]].
  set (sr := match r with s :: r2 => _ | [] => _ end). destruct sr as [sgn r2] eqn:Esr. subst sr.
  assert (r = sgn ++ r2) as ->.
  { destruct r as [|s r]; [by injection Esr as <- <-|].
    destruct ((s =? ch "+") || (s =? ch "-")); by injection Esr as <- <-. }
  destruct r2 as [|d r2]; [by intros [= <- <-]|]. destruct (is_digit d) eqn:Ed; [|by intros [= <- <-]].
  destruct (span is_digit (d :: r2)) as [ds rest] eqn:Es. apply span_spec in Es as (-> & _).
  intros [= <- <-]. simpl. by rewrite app_assoc.
Qed.

Lemma number_chars_app l a b : number_chars l = (a, b) → l = a ++ b.
Proof.
  unfold number_chars. destruct (span is_digit l) as [int r1] eqn:Es. apply span_spec in Es as (-> & _).
  destruct (fraction r1) as [frac r2] eqn:Ef. apply fraction_app in Ef as ->.
  destruct (exponent r2) as [exp r3] eqn:Ee. apply exponent_app in Ee as ->.
  intros [= <- <-]. by rewrite <- !app_assoc.
Qed.

(** A number token starts with a digit, or with a dot and a digit. *)
Lemma number_chars_nonempty c l a b :
  is_digit c || ((c =? ch ".") && match l with _ :: d :: _ => is_digit d | _ => false end) = true →
  head l = Some c → number_chars l = (a, b) → a ≠ [].
Proof.
  intros Hc Hl. destruct l as [|c' l]; [done|]. injection Hl as ->. unfold number_chars. cbn [span].
  destruct (is_digit c) eqn:Ed.
  { destruct (span is_digit l), (fraction _), (exponent _). intros [= <- <-]. done. }
  destruct l as [|d l]; [by rewrite andb_false_r in Hc|]. simpl in Hc. cbn [fraction]. rewrite Hc.
  destruct (span is_digit (d :: l)), (exponent _). intros [= <- <-]. done.
Qed.

Lemma identifier_chars_nonempty `{UnicodeTables} c l a b :
  is_alphabetic c || (c =? ch "_") || is_extended_name_char c = true → identifier_chars (c :: l) = (a, b) → a ≠ [].
Proof.
  intros Hc. cbn [identifier_chars]. assert (continues_identifier c l = true) as ->.
  { unfold continues_identifier, is_alphanumeric. rewrite !orb_true_iff in *. tauto. }
  destruct (identifier_chars l). intros [= <- <-]. done.
Qed.

Lemma string_body_app q k l out rest : string_body q k l = Some (out, rest) → ∃ text, l = text ++ rest ∧ text ≠ [].
Proof.
  revert k out. induction l as [|c l IH]; intros k out; [done|]. simpl. destruct k as [|k].
  - destruct (c =? q); [intros [= <- <-]; by exists [c]|]. destruct l as [|n l]; [done|].
    destruct (c =? BACKSLASH_).
    + destruct (unescape n l) as [o m]. intros ([o' r'] & E & [= <- <-])%bind_Some.
      destruct (IH _ _ E) as (text & -> & _). by exists (c :: text).
    + intros ([o' r'] & E & [= <- <-])%bind_Some. destruct (IH _ _ E) as (text & -> & _). by exists (c :: text).
  - intros E. destruct (IH _ _ E) as (text & -> & _). by exists (c :: text).
Qed.

Lemma operator_kind_spells c r k text n :
  operator_kind c r = Some (k, text, n) →
  k ≠ TEof ∧ k ≠ TTemporal ∧ (0 < n <= length (c :: r))%nat ∧ encode (take n (c :: r)) = text.
Proof.
  unfold operator_kind.
  repeat match goal with
  | |- (if c =? ?d then _ else _) = _ → _ =>
      destruct (Z.eqb_spec c d) as [->|_];
        [try (destruct r as [|n0 r]; [|match goal with |- context [n0 =? ?d] => destruct (Z.eqb_spec n0 d) as [->|_] end]);
         try discriminate; intros [= <- <- <-]; simpl; split_and!; (done || lia || (vm_compute; reflexivity))|]
  end.
  done.
Qed.

Section Tiles.
Context `{UnicodeTables, BigDecimalText, TimeCrate, TimeParse}.
Context (p : FeelSourcePositions).

Lemma pos_of_app text rest : pos_of p rest = pos_of p (text ++ rest) + len text.
Proof. unfold pos_of. rewrite len_chars_app. lia. Qed.

(** What one round reads. *)
Definition reads (l : list Z) (t : Token) (rest : list Z) : Prop :=
  ∃ text, l = text ++ rest ∧ text ≠ [] ∧ tk_kind t ≠ TEof ∧ spells t text ∧
    tk_start t = pos_of p l ∧ tk_end t = tk_start t + len text.

Lemma string_reads q l :
  match string_ p q l with
  | Ok (t, rest) => l ≠ [] → reads l t rest ∧ tk_kind t = TStr ∧ ∃ text, drop 1 l = text ++ rest
  | Err (Rejected _) => True
  | Err _ => False
  end.
Proof.
  unfold string_. destruct (string_body q 0 (drop 1 l)) as [[out rest]|] eqn:E; [|done].
  apply string_body_app in E as (text & E & Hne). intros Hl. destruct l as [|c l]; [done|].
  assert (l = text ++ rest) as -> by exact E. split; [|split; [done|by exists text]]. exists (c :: text).
  assert (Ht : take (length (c :: text ++ rest) - length rest) (c :: text ++ rest) = c :: text).
  { rewrite app_comm_cons, length_app. replace (_ - _)%nat with (length (c :: text)) by lia. apply take_app_length. }
  split; [done|]. split; [done|]. split; [done|]. split; [unfold spells; cbn [is_kind tk_kind tk_text]; by rewrite Ht|].
  split; [done|]. cbn [tk_end tk_start]. apply (pos_of_app (c :: text)).
Qed.

Lemma word_token_fields text a b :
  tk_text (word_token text a b) = text ∧ tk_start (word_token text a b) = a ∧ tk_end (word_token text a b) = b ∧
  tk_kind (word_token text a b) ≠ TEof ∧ is_kind TTemporal (word_token text a b) = false.
Proof. unfold word_token, word_kind. by repeat case_match; simplify_eq. Qed.

Lemma next_token_reads c l :
  match next_token p c (c :: l) with
  | Ok (t, rest) => reads (c :: l) t rest
  | Err OutOfFuel => False
  | Err _ => True
  end.
Proof.
  unfold next_token. destruct (is_digit c || _) eqn:En.
  { unfold number. destruct (number_chars (c :: l)) as [text rest] eqn:E. destruct (bd_parse _); [|done].
    pose proof (number_chars_nonempty c (c :: l) _ _ En eq_refl E). apply number_chars_app in E. rewrite E.
    exists text. split_and!; try done. cbn [tk_end tk_start]. apply pos_of_app. }
  clear En. destruct (c =? ch "@") eqn:Ea.
  { apply Z.eqb_eq in Ea as ->. unfold temporal. change (drop 1 (ch "@" :: l)) with l. destruct l as [|q l]; [done|].
    destruct ((q =? 34) || (q =? 39)); [|done]. pose proof (string_reads q (q :: l)) as Hs.
    destruct (string_ p q (q :: l)) as [[t rest]|[| |]]; cbn [mbind result_bind]; [|done..].
    destruct (Hs ltac:(done)) as ((text & -> & _) & _). destruct (parse_at_literal _); [|done].
    exists (ch "@" :: text). split_and!; try done. cbn [tk_end tk_start]. apply (pos_of_app (ch "@" :: text)). }
  clear Ea. destruct ((c =? 34) || (c =? 39)).
  { pose proof (string_reads c (c :: l)) as Hs. destruct (string_ p c (c :: l)) as [[t rest]|[| |]]; [|done..].
    by destruct (Hs ltac:(done)). }
  destruct (is_alphabetic c || (c =? ch "_") || is_extended_name_char c) eqn:Ei.
  { unfold identifier_or_keyword. destruct (identifier_chars (c :: l)) as [text rest] eqn:E.
    pose proof (identifier_chars_nonempty c l _ _ Ei E). apply identifier_chars_app in E. rewrite E.
    destruct (word_token_fields (encode text) (pos_of p (text ++ rest)) (pos_of p rest)) as (Ht & Hs & He & Hk & Hte).
    exists text. split_and!; try done; [unfold spells; by rewrite Hte|]. rewrite Hs, He. apply pos_of_app. }
  unfold operator. change (drop 1 (c :: l)) with l. destruct (operator_kind c l) as [[[k text] n]|] eqn:E; [|done].
  apply operator_kind_spells in E as (Hk & Ht & Hn & Hs).
  exists (take n (c :: l)). split; [by rewrite take_drop|]. split; [by destruct n; [lia|]|]. split; [done|].
  split; [unfold spells, is_kind; cbn [tk_kind tk_text]; by destruct k|]. split; [done|].
  cbn [tk_start tk_end]. rewrite <- (take_drop n (c :: l)) at 2. apply pos_of_app.
Qed.

Lemma tokenize_loop_tiles fuel l :
  (length l < fuel)%nat →
  match tokenize_loop p fuel l with
  | Ok ts => tiles (pos_of p l) l ts
  | Err OutOfFuel => False
  | Err _ => True
  end.
Proof.
  revert l. induction fuel as [|fuel IH]; intros l Hf; [lia|]. cbn [tokenize_loop].
  assert (Heof : ∀ gap, trailing gap → l = gap → tiles (pos_of p l) l [eof p]).
  { intros gap Hg ->. replace (eof p) with (mk_token TEof "" Null (pos_of p gap + len gap) (pos_of p gap + len gap));
      [by constructor|]. unfold eof, pos_of. f_equal; lia. }
  destruct (decide (l = [])) as [->|Hnil]; [apply (Heof []); [by apply trailing_blank, blank_nil|done]|].
  replace (match l with [] => _ | _ => _ end) with
    (l' ← skip_whitespace p (S (length l)) l;
     match l' with [] => Ok [eof p]
     | c :: _ => '(t, rest) ← next_token p c l'; ts ← tokenize_loop p fuel rest; Ok (t :: ts) end) by by destruct l.
  pose proof (skip_whitespace_spec p (S (length l)) l ltac:(lia)) as Hs.
  destruct (skip_whitespace p (S (length l)) l) as [rest|[| |]]; [|done..]. destruct Hs as (gap & -> & Hs).
  cbn [mbind result_bind]. destruct rest as [|c rest]; [by rewrite app_nil_r in *; eapply Heof|].
  destruct Hs as [_ Hg]. pose proof (next_token_reads c rest) as Hn.
  destruct (next_token p c (c :: rest)) as [[t rest']|[| |]]; cbn [mbind result_bind]; [|done..].
  destruct Hn as (text & E & Hne & Hk & Hsp & Hst & Hen).
  assert (Hl : (length rest' < fuel)%nat).
  { rewrite E, !length_app in Hf. destruct text; [done|]. simpl in Hf. lia. }
  specialize (IH rest' Hl). destruct (tokenize_loop p fuel rest') as [ts|[| |]]; cbn [mbind result_bind]; [|done..].
  rewrite E in *. apply tiles_token; try done.
  - rewrite Hst. unfold pos_of. rewrite !len_chars_app. lia.
  - replace (tk_end t) with (pos_of p rest'); [done|]. rewrite Hen, Hst. apply pos_of_app.
Qed.

Lemma tokenize_tiles : tokenize p ≠ Err OutOfFuel ∧ ∀ ts, tokenize p = Ok ts → tiles 0 (source p) ts.
Proof.
  pose proof (tokenize_loop_tiles (S (length (source p))) (source p) ltac:(lia)) as Ht.
  unfold pos_of in Ht. rewrite Z.sub_diag in Ht. split.
  - intros E. unfold tokenize in E. by rewrite E in Ht.
  - intros ts E. unfold tokenize in E. by rewrite E in Ht.
Qed.

(** Lexing loses nothing and always ends.  For every source the lexer returns, with a
    result that does not depend on any bound; and when it returns tokens, they tile the
    source from its first to its last character: each token spells the characters it
    spans, between two tokens there is only white space and comments, and the last token
    is the end of input. *)
Theorem tokens_tile_source :
  tokenize p ≠ Err OutOfFuel ∧ ∀ ts, tokenize p = Ok ts → tiles 0 (source p) ts.
Proof. exact tokenize_tiles. Qed.
End Tiles.

(** ** Token streams in order *)

(** Tokens between [lo] and [hi], one after the other, the end of input last. *)
Inductive in_order (hi : Z) : Z → list Token → Prop :=
| in_order_eof lo t : tk_kind t = TEof → tk_text t = "" → lo <= tk_start t → tk_start t = hi → tk_end t = hi → in_order hi lo [t]
| in_order_token lo t ts :
    tk_kind t ≠ TEof → lo <= tk_start t <= tk_end t → in_order hi (tk_end t) ts → in_order hi lo (t :: ts).

Lemma in_order_le hi lo ts : in_order hi lo ts → lo <= hi.
Proof. induction 1; lia. Qed.

Lemma in_order_weaken hi lo lo' ts : lo' <= lo → in_order hi lo ts → in_order hi lo' ts.
Proof. intros Hl H. destruct H; constructor; try done; lia. Qed.

Lemma tiles_in_order at_ l ts : tiles at_ l ts → in_order (at_ + len l) at_ ts.
Proof.
  induction 1 as [at_ gap Hg|at_ gap text rest t ts Hb Hne Hk Hs Hst Hen Ht IH].
  - pose proof (len_at_least_0 gap). constructor; simpl; done || lia.
  - pose proof (len_at_least_0 gap). pose proof (len_at_least_0 text). constructor; [done|lia|].
    rewrite !len_chars_app. replace (at_ + (len gap + (len text + len rest))) with (tk_end t + len rest) by lia. done.
Qed.

(** A run of tokens before the end of input, as one token. *)
Lemma in_order_run hi lo a t b :
  in_order hi lo ((a ++ [t]) ++ b) → b ≠ [] →
  lo <= tk_start (List.hd t a) ∧ tk_start (List.hd t a) <= tk_end t ∧ in_order hi (tk_end t) b.
Proof.
  revert lo. induction a as [|x a IH]; intros lo H Hb; simpl in *.
  - inversion H; subst; [done|]. split; [lia|]. split; [lia|done].
  - inversion H as [? ? ? ? ? ? E|? ? ? Hk Hx Hr]; subst; [by destruct a|].
    destruct (IH _ Hr Hb) as (Ha & Ht & Hr'). split; [lia|]. split; [|done].
    destruct a; simpl in *; lia.
Qed.

Lemma run_length_eof hi lo ts : in_order hi lo ts → (run_length ts < length ts)%nat.
Proof.
  induction 1 as [lo t Hk|lo t ts Hk Hb Hr IH]; unfold run_length; [rewrite Hk; simpl; lia|].
  destruct (continues_name_run (tk_kind t)); [fold (run_length ts)|]; cbn [length]; lia.
Qed.

Lemma longest_known_le known sep k pieces : (1 <= longest_known known sep k pieces <= Nat.max 1 k)%nat.
Proof.
  induction k as [|[|k] IH]; [simpl; lia..|].
  change (longest_known known sep (S (S k)) pieces) with
    (if known_name known (String.concat sep (take (S (S k)) pieces)) then S (S k) else longest_known known sep (S k) pieces).
  case_match; lia.
Qed.

Lemma merge_loop_in_order hi known fuel lo ts :
  (length ts <= fuel)%nat → in_order hi lo ts → in_order hi lo (merge_loop fuel known ts).
Proof.
  revert lo ts. induction fuel as [|fuel IH]; intros lo ts Hf H; [by destruct H; simpl in Hf; lia|].
  destruct ts as [|t r]; [inversion H|]. cbn [merge_loop].
  assert (Hone : in_order hi lo (t :: merge_loop fuel known r)).
  { inversion H; subst; [destruct fuel; by constructor|]. constructor; [done..|]. apply IH; [simpl in Hf; lia|done]. }
  destruct (is_kind TIdent t) eqn:Ek; [|done].
  pose proof (longest_known_le known " " (S (run_length r)) (map tk_text (t :: r))) as Hk.
  destruct (longest_known _ _ _ _) as [|[|k]] eqn:El; [done|done|].
  assert (Hr : (run_length r < length r)%nat).
  { inversion H as [? ? Hke|]; subst; [|by eapply run_length_eof]. unfold is_kind in Ek. by rewrite Hke in Ek. }
  assert (Hlen : (S (S k) < length (t :: r))%nat) by (simpl; lia).
  destruct (exists_last (l := take (S (S k)) (t :: r))) as (a & x & Hax); [done|].
  pose proof (in_order_run hi lo a x (drop (S (S k)) (t :: r))) as Hrun.
  rewrite <- Hax, take_drop in Hrun. specialize (Hrun H).
  assert (Hd : drop (S (S k)) (t :: r) ≠ []).
  { intros E%(f_equal length). rewrite length_drop in E. simpl in *. lia. }
  destruct (Hrun Hd) as (H1 & H2 & H3). rewrite Hax, last_last.
  assert (Ht : List.hd x a = t) by (destruct a as [|y a]; by injection Hax as <-).
  rewrite Ht in H1, H2. constructor; [done|simpl; lia|]. cbn [tk_end]. apply IH; [|done].
  rewrite length_drop. simpl in *. lia.
Qed.

Lemma merge_named_in_order hi known lo ts : in_order hi lo ts → in_order hi lo (merge_named_tokens ts known).
Proof. intros H. unfold merge_named_tokens. case_match; [done|]. by apply merge_loop_in_order. Qed.

(** *** Hyphenated names *)

Lemma encode_app a b : encode (a ++ b) = encode a +:+ encode b.
Proof.
  unfold encode. rewrite map_app, concat_app. unfold of_bytes. rewrite foldr_app.
  induction (concat (map encode_char a)) as [|x l IH]; simpl; [done|]. by rewrite IH.
Qed.

Lemma char_count_encode z : Forall scalar z → char_count (encode z) = len z.
Proof. intros Hz. unfold char_count. by rewrite chars_encode. Qed.

(** [pieces.join("-")] on code points. *)
Fixpoint join_hyphen (zs : list (list Z)) : list Z :=
  match zs with [] => [] | [z] => z | z :: zs => z ++ ch "-" :: join_hyphen zs end.

Lemma join_hyphen_app a b : a ≠ [] → b ≠ [] → join_hyphen (a ++ b) = join_hyphen a ++ ch "-" :: join_hyphen b.
Proof.
  intros Ha Hb. induction a as [|z a IH]; [done|]. destruct a as [|y a].
  - destruct b; [done|]. done.
  - change (join_hyphen ((z :: y :: a) ++ b)) with (z ++ ch "-" :: join_hyphen ((y :: a) ++ b)).
    rewrite IH by done. simpl. by rewrite <- app_assoc.
Qed.

Lemma concat_encode zs : String.concat "-" (map encode zs) = encode (join_hyphen zs).
Proof.
  induction zs as [|z zs IH]; [done|]. destruct zs as [|y zs]; [done|].
  change (String.concat "-" (map encode (z :: y :: zs))) with (encode z +:+ "-" +:+ String.concat "-" (map encode (y :: zs))).
  rewrite IH. change (join_hyphen (z :: y :: zs)) with (z ++ ch "-" :: join_hyphen (y :: zs)).
  by rewrite encode_app.
Qed.

Lemma encode_cons c z : encode (c :: z) = encode [c] +:+ encode z.
Proof. apply (encode_app [c]). Qed.

Lemma hyphen_in_char c : scalar c → string_any (Ascii.eqb "-") (encode [c]) = (c =? ch "-").
Proof.
  intros Hc. apply scalar_range in Hc as [Hc _]. unfold encode. cbn [map concat]. rewrite app_nil_r. unfold encode_char.
  assert (Hb : ∀ b, 128 <= b < 256 → Ascii.eqb "-" (byte b) = false).
  { intros b Hb. apply Ascii.eqb_neq. intros E. apply (f_equal ascii_Z) in E.
    rewrite byte_Z in E by (unfold is_byte; lia). change (ascii_Z "-") with 45 in E. lia. }
  repeat case_if; unfold of_bytes; cbn [foldr string_any]; char_arith c.
  - rewrite orb_false_r. destruct (Z.eqb_spec c (ch "-")) as [->|Hne]; [done|]. apply Ascii.eqb_neq. intros E.
    apply (f_equal ascii_Z) in E. rewrite byte_Z in E by (unfold is_byte; lia). done.
  - rewrite !Hb by lia. symmetry. apply Z.eqb_neq. unfold ch. change (ascii_Z "-") with 45. lia.
  - rewrite !Hb by lia. symmetry. apply Z.eqb_neq. unfold ch. change (ascii_Z "-") with 45. lia.
  - rewrite !Hb by lia. symmetry. apply Z.eqb_neq. unfold ch. change (ascii_Z "-") with 45. lia.
Qed.

Lemma split_char_prefix c a s : no_char c a = true →
  split_char c (a +:+ s) = match split_char c s with p :: ps => (a +:+ p) :: ps | [] => [a] end.
Proof.
  unfold no_char. induction a as [|d a IH]; simpl; intros H.
  - destruct (split_char c s) eqn:E; [|done]. by destruct s as [|x s]; simpl in E; [|destruct (Ascii.eqb c x), (split_char c s)].
  - apply andb_true_iff in H as [Hd Ha]. apply negb_true_iff in Hd. rewrite Hd, IH by done.
    destruct (split_char c s) eqn:E; [|done]. done.
Qed.

Lemma no_char_any c s : string_any (Ascii.eqb c) s = false → no_char c s = true.
Proof.
  unfold no_char. induction s as [|d s IH]; [done|]. simpl. intros [Hd Hs]%orb_false_iff. by rewrite Hd, IH.
Qed.

(** Splitting the text at its hyphens splits the code points. *)
Lemma split_encode text : Forall scalar text →
  ∃ zs, split_char "-" (encode text) = map encode zs ∧ join_hyphen zs = text ∧ Forall (Forall scalar) zs ∧ zs ≠ [].
Proof.
  induction 1 as [|c text Hc Ht (zs & Hs & Hj & Hz & Hne)]; [by exists [[]]; repeat constructor|].
  rewrite encode_cons. pose proof (hyphen_in_char c Hc) as Hh. destruct (Z.eqb_spec c (ch "-")) as [->|Hne'].
  - exists ([] :: zs). change (encode [ch "-"]) with "-". cbn [String.append split_char]. rewrite Ascii.eqb_refl, Hs.
    split; [done|]. split; [destruct zs; [done|]; by rewrite <- Hj|]. split; [by constructor|done].
  - apply no_char_any in Hh. rewrite split_char_prefix, Hs by done. destruct zs as [|z zs]; [done|].
    exists ((c :: z) :: zs). simpl. rewrite (encode_cons c z). split; [done|].
    split; [|split; [|done]]; [|inversion Hz; subst; by repeat constructor]. subst text. by destruct zs.
Qed.

(** A name token spells as many characters as it spans. *)
Definition spans_text (t : Token) : Prop :=
  is_kind TIdent t = true →
  ∃ text, Forall scalar text ∧ tk_text t = encode text ∧ tk_end t = tk_start t + len text.

Lemma tiles_span_text at_ l ts : tiles at_ l ts → Forall scalar l → Forall spans_text ts.
Proof.
  induction 1 as [at_ gap Hg|at_ gap text rest t ts Hb Hne Hk Hs Hst Hen Ht IH]; intros Hl.
  - constructor; [|done]. done.
  - apply Forall_app in Hl as [_ [Htext Hrest]%Forall_app]. constructor; [|by apply IH].
    intros Hi. exists text. split; [done|]. split; [|done]. unfold spells in Hs.
    unfold is_kind in *. by destruct (tk_kind t).
Qed.

Lemma split_pieces_in_order hi known fuel (first : bool) lo at_ zs rest :
  (length zs <= fuel)%nat → zs ≠ [] → Forall (Forall scalar) zs → lo <= at_ - (if first then 0 else 1) →
  in_order hi (at_ + len (join_hyphen zs)) rest →
  in_order hi lo (split_pieces fuel known first at_ (map encode zs) ++ rest).
Proof.
  revert first lo at_ zs. induction fuel as [|fuel IH]; intros first lo at_ zs Hf Hne Hz Hlo Hr; [by destruct zs; simpl in Hf; [|lia]|].
  destruct zs as [|z zs]; [done|]. cbn [map split_pieces].
  change (encode z :: map encode zs) with (map encode (z :: zs)) in *.
  set (k := longest_known _ _ _ _). pose proof (longest_known_le known "-" (length (map encode (z :: zs))) (map encode (z :: zs))) as Hk.
  fold k in Hk. rewrite length_map in Hk. cbn [length] in Hk, Hf. clearbody k.
  rewrite firstn_map, skipn_map, concat_encode.
  assert (Hs : Forall scalar (join_hyphen (take k (z :: zs)))).
  { assert (Hj : ∀ l, Forall (Forall scalar) l → Forall scalar (join_hyphen l)).
    { induction 1 as [|y l Hy Hl IHl]; [done|]. destruct l; [done|]. apply Forall_app. split; [done|]. constructor; [|done].
      by vm_compute. }
    apply Hj. by apply Forall_take. }
  rewrite char_count_encode by done. set (n := join_hyphen (take k (z :: zs))) in *.
  destruct (word_token_fields (encode n) at_ (at_ + len n)) as (_ & Hws & Hwe & Hwk & _).
  pose proof (len_at_least_0 n) as Hn.
  assert (Hword : in_order hi at_ (word_token (encode n) at_ (at_ + len n)
            :: split_pieces fuel known false (at_ + len n + 1) (map encode (drop k (z :: zs))) ++ rest)).
  { constructor; [done|rewrite Hws, Hwe; lia|]. rewrite Hwe.
    destruct (drop k (z :: zs)) as [|y ys] eqn:Ed.
    - assert (Hj : n = join_hyphen (z :: zs)).
      { unfold n. rewrite <- (take_drop k (z :: zs)) at 2. rewrite Ed, app_nil_r. done. }
      rewrite <- Hj in Hr. destruct fuel; done.
    - rewrite <- Ed. apply IH; rewrite ?Ed; [|done|rewrite <- Ed; by apply Forall_drop|lia|].
      + rewrite <- Ed, length_drop. simpl. lia.
      + rewrite <- (take_drop k (z :: zs)), join_hyphen_app, len_chars_app, len_cons in Hr; [|by destruct k; [lia|]|by rewrite Ed].
        fold n in Hr. rewrite <- Ed. eapply in_order_weaken; [|exact Hr]. lia. }
  rewrite <- app_assoc. destruct first; simpl.
  - eapply in_order_weaken; [|exact Hword]. lia.
  - constructor; [done|simpl; lia|]. exact Hword.
Qed.

Lemma split_hyphenated_in_order hi known lo ts :
  Forall spans_text ts → in_order hi lo ts → in_order hi lo (split_hyphenated_names ts known).
Proof.
  intros Hs H. unfold split_hyphenated_names. destruct (negb (existsb _ ts)); [done|].
  induction H as [lo t Hk Hl He Hn|lo t ts Hk Hb Hr IH]; inversion Hs as [|? ? Ht Hts]; subst; cbn [flat_map].
  - unfold has_hyphen, is_kind. rewrite Hk. simpl. by constructor.
  - specialize (IH Hts). destruct (negb (has_hyphen t) || keep_folded known (tk_text t)) eqn:E; [by constructor|].
    apply orb_false_iff in E as [Eh _]. apply negb_false_iff in Eh. unfold has_hyphen in Eh.
    apply andb_true_iff in Eh as [Ei _]. destruct (Ht Ei) as (text & Hsc & -> & Hen).
    destruct (split_encode text Hsc) as (zs & -> & Hj & Hz & Hne). rewrite length_map.
    apply split_pieces_in_order; [done|done|done|lia|]. by rewrite Hj, <- Hen.
Qed.

(** Name resolution keeps a token stream in order and within the source. *)
Lemma resolve_names_in_order hi known lo ts :
  Forall spans_text ts → in_order hi lo ts → in_order hi lo (resolve_names ts known).
Proof.
  intros Hs H. unfold resolve_names. pose proof (split_hyphenated_in_order hi known lo ts Hs H).
  case_match; [by apply merge_named_in_order|done].
Qed.
