(* ===== verification/FeelParser.v ===== *)
(** * The FEEL parser ([sutra-feel/src/parser.rs], and its entry point in
    [sutra-feel/src/expressions.rs])

    The recursive-descent parser over the tokens of [FeelLexer].  A parser takes the
    tokens from the cursor on and the end of the token before it, and gives back a tree
    and the tokens left; indexing past the tokens panics, as in the source.  The
    in-range-endpoint flag is an argument, which is what setting it and restoring it
    around one call amounts to.  The functions call each other; the calls that go back up
    the precedence levels go through a [Knot], tied on fuel, and a [while] loop runs on
    the number of tokens left.

    The theorems are in [FeelSyntax]. *)
From Stdlib Require Import ZArith Lia Bool Ascii String.
From stdpp Require Import base option strings list.
From S2P Require Import Prelude Texts Decimal FeelValue Temporal FeelText TemporalParse FeelLexer.

Open Scope string_scope.
Open Scope list_scope.
Open Scope Z_scope.

(** ** Cursors *)

Record PState : Type := mk_pstate { ps_prev : Z; ps_rest : list Token }.

Definition parser (A : Type) : Type := PState → result (fault FeelError) (A * PState).

#[export] Instance parser_ret : MRet parser := λ A a s, Ok (a, s).
#[export] Instance parser_bind : MBind parser := λ A B f p s,
  match p s with Ok (a, s') => f a s' | Err e => Err e end.

Definition peek : parser Token := λ s, match ps_rest s with t :: _ => Ok (t, s) | [] => Err Panicked end.

(** [self.tokens.get(self.pos + i)]. *)
Definition look (i : nat) : parser (option Token) := λ s, Ok (nth_error (ps_rest s) i, s).

Definition peek_next : parser (option Token) := look 1.

(** The last token is never passed. *)
Definition advance : parser Token := λ s,
  match ps_rest s with
  | [] => Err Panicked
  | [t] => Ok (t, s)
  | t :: r => Ok (t, mk_pstate (tk_end t) r)
  end.

Definition prev_end : parser Z := λ s, Ok (ps_prev s, s).

Definition syntax_error {A} (positions : FeelSourcePositions) (message : string) (t : Token) : parser A := λ _,
  Err (Rejected (error_at FEEL_SYNTAX_UNEXPECTED_TOKEN message (tk_start t) (Some (location_for positions (tk_start t))))).

Definition out_of_fuel {A} : parser A := λ _, Err OutOfFuel.

(** A loop that reads a token in every round. *)
Definition loop {A} (f : nat → parser A) : parser A := λ s, f (S (length (ps_rest s))) s.

Fixpoint advance_by (n : nat) : parser () := match n with O => mret tt | S n => _ ← advance; advance_by n end.

Definition is_compare_op (kind : TokenKind) : bool :=
  match kind with TLt | TLe | TGt | TGe | TEq | TNeq => true | _ => false end.

Definition compare_op (kind : TokenKind) : option CompareOp :=
  match kind with
  | TEq => Some Eq_ | TNeq => Some Neq | TLt => Some Lt_ | TLe => Some Le_ | TGt => Some Gt_ | TGe => Some Ge_
  | _ => None
  end.

Definition can_start_expr (kind : TokenKind) : bool :=
  is_compare_op kind ||
  match kind with
  | TNumber | TStr | TBool | TNull | TTemporal | TLParen | TRBracket | TLBracket | TLBrace | TIf | TSome | TEvery | TFor
  | TIdent | TNot | TMinus => true
  | _ => false
  end.

(** [Some(t)] with a text, a kind. *)
Definition has_text (s : string) (o : option Token) : bool :=
  match o with Some t => String.eqb (tk_text t) s | None => false end.
Definition has_kind (k : TokenKind) (o : option Token) : bool :=
  match o with Some t => is_kind k t | None => false end.

(** ** The parser *)

Section Parser.
Context (positions : FeelSourcePositions).

Definition expect (kind : TokenKind) : parser Token :=
  t ← peek;
  if is_kind kind t then advance
  else syntax_error positions ("Expected " +:+ token_name kind +:+ " but got '" +:+ tk_text t +:+ "'") t.

(** [while self.peek().kind == TokenKind::Comma]: one more item each. *)
Fixpoint comma_loop {A} (n : nat) (item : parser A) (acc : list A) : parser (list A) :=
  match n with
  | O => out_of_fuel
  | S n =>
      t ← peek;
      if is_kind TComma t then _ ← advance; x ← item; comma_loop n item (acc ++ [x]) else mret acc
  end.

Definition more {A} (item : parser A) (acc : list A) : parser (list A) := loop (λ n, comma_loop n item acc).

(** One item and what follows it. *)
Definition sep_by {A} (item : parser A) : parser (list A) := x ← item; more item [x].

(** [while] the token is an operator of the level: left associative. *)
Fixpoint left_loop (n : nat) (op_of : TokenKind → option (Z → Z → FeelExpr → FeelExpr → FeelExpr))
    (operand : parser FeelExpr) (left : FeelExpr) : parser FeelExpr :=
  match n with
  | O => out_of_fuel
  | S n =>
      t ← peek;
      match op_of (tk_kind t) with
      | None => mret left
      | Some node =>
          _ ← advance;
          right ← operand;
          left_loop n op_of operand (node (start left) (end_ right) left right)
      end
  end.

Definition left_assoc (op_of : TokenKind → option (Z → Z → FeelExpr → FeelExpr → FeelExpr)) (operand : parser FeelExpr)
    : parser FeelExpr :=
  left ← operand; loop (λ n, left_loop n op_of operand left).

Definition or_op (k : TokenKind) : option (Z → Z → FeelExpr → FeelExpr → FeelExpr) :=
  match k with TOr => Some (λ s e l r, BoolOp s e l Or_ r) | _ => None end.
Definition and_op (k : TokenKind) : option (Z → Z → FeelExpr → FeelExpr → FeelExpr) :=
  match k with TAnd => Some (λ s e l r, BoolOp s e l And_ r) | _ => None end.
Definition additive_op (k : TokenKind) : option (Z → Z → FeelExpr → FeelExpr → FeelExpr) :=
  match k with
  | TPlus => Some (λ s e l r, Arith s e l Plus r) | TMinus => Some (λ s e l r, Arith s e l Minus r) | _ => None
  end.
Definition multiplicative_op (k : TokenKind) : option (Z → Z → FeelExpr → FeelExpr → FeelExpr) :=
  match k with
  | TTimes => Some (λ s e l r, Arith s e l Times r) | TDiv => Some (λ s e l r, Arith s e l Div_ r) | _ => None
  end.
Definition power_op (k : TokenKind) : option (Z → Z → FeelExpr → FeelExpr → FeelExpr) :=
  match k with TPow => Some (λ s e l r, Arith s e l Pow_ r) | _ => None end.

Definition in_test (value_ test : FeelExpr) : FeelExpr := In_ (start value_) (end_ test) value_ test.

(** The functions the others call back, [k_or] and the next two with the endpoint flag. *)
Record Knot : Type := {
  k_or : bool → parser FeelExpr;
  k_additive : bool → parser FeelExpr;
  k_unary : bool → parser FeelExpr;
  k_type : parser FeelTypeShape
}.

Section Level.
Context (k : Knot).

(** *** Type expressions *)

(** The tokens at the cursor spell [seq]; they are consumed. *)
Definition words (seq : list string) : parser bool := λ s,
  let matches := forallb (λ wt, match wt.2 with
      | Some t => (String.eqb wt.1 "and" && is_kind TAnd t) || String.eqb (tk_text t) wt.1
      | None => false
      end) (imap (λ i w, (w, nth_error (ps_rest s) i)) seq) in
  if matches then (_ ← advance_by (length seq); mret true) s else Ok (false, s).

Definition type_name_of (head : string) : parser string :=
  if String.eqb head "date" then b ← words ["and"; "time"]; mret (if (b : bool) then "date and time" else head)
  else if String.eqb head "days" then
    b ← words ["and"; "time"; "duration"]; mret (if (b : bool) then "days and time duration" else head)
  else if String.eqb head "years" then
    b ← words ["and"; "months"; "duration"]; mret (if (b : bool) then "years and months duration" else head)
  else mret head.

Definition type_component : parser (string * FeelTypeShape) :=
  cname ← expect TIdent;
  _ ← expect TColon;
  cshape ← k_type k;
  mret (tk_text cname, cshape).

(** The balanced rest of an unrecognised generic. *)
Fixpoint skip_generic (n : nat) (depth : nat) : parser () :=
  match depth with
  | O => mret tt
  | S d =>
      match n with
      | O => out_of_fuel
      | S n =>
          t ← peek;
          match tk_kind t with
          | TLt => _ ← advance; skip_generic n (S depth)
          | TGt => _ ← advance; skip_generic n d
          | TEof => mret tt
          | _ => _ ← advance; skip_generic n depth
          end
      end
  end.

Definition generic_shape (name : string) : parser FeelTypeShape :=
  if String.eqb name "list" then inner ← k_type k; _ ← expect TGt; mret (ShapeCollection inner)
  else if String.eqb name "range" then inner ← k_type k; _ ← expect TGt; mret (ShapeRange inner)
  else if String.eqb name "context" then
    t ← peek;
    comps ← (if is_kind TGt t then mret [] else sep_by type_component);
    _ ← expect TGt;
    mret (ShapeRecord comps)
  else if String.eqb name "function" then
    t ← peek;
    _ ← (if is_kind TGt t then mret [] else sep_by (k_type k));
    _ ← expect TGt;
    mret (ShapeBase "function")
  else _ ← loop (λ n, skip_generic n 1); mret (ShapeBase name).

Definition parse_type_expr : parser FeelTypeShape :=
  head ← expect TIdent;
  name ← type_name_of (tk_text head);
  t ← peek;
  if negb (is_kind TLt t) then mret (ShapeBase name)
  else
    _ ← advance;
    shape ← generic_shape name;
    t ← peek;
    n ← peek_next;
    if is_kind TMinus t && has_kind TGt n then _ ← advance; _ ← advance; _ ← k_type k; mret shape
    else mret shape.

(** *** Calls, paths and function definitions *)

(** One of the builtin names that contain [and], and how many tokens it takes. *)
Definition AND_NAMES : list (list string * string) :=
  [(["date"; "and"; "time"], "date and time");
   (["years"; "and"; "months"; "duration"], "years and months duration");
   (["days"; "and"; "time"; "duration"], "days and time duration")].

Definition match_and_name (rest : list Token) : option (string * nat) :=
  (λ e, (e.2, length e.1)) <$> List.find (λ e : list string * string,
    forallb (λ wt, match wt.2 with
      | Some t => if String.eqb wt.1 "and" then is_kind TAnd t else String.eqb (tk_text t) wt.1
      | None => false
      end) (imap (λ i w, (w, nth_error rest i)) e.1)
    && has_kind TLParen (nth_error rest (length e.1))) AND_NAMES.

Fixpoint ident_run (l : list Token) : nat :=
  match l with t :: r => if is_kind TIdent t then S (ident_run r) else O | [] => O end.

Definition parse_call_arg (ep : bool) : parser (option string * FeelExpr) := λ s,
  let j := ident_run (ps_rest s) in
  if (0 <? j)%nat && has_kind TColon (nth_error (ps_rest s) j) then
    let words := map tk_text (take j (ps_rest s)) in
    (_ ← advance_by (S j); v ← k_or k ep; mret (Some (String.concat " " words), v)) s
  else (v ← k_or k ep; mret (None, v)) s.

(** The arguments, their names, and the end of the closing parenthesis. *)
Definition parse_call_args (ep : bool) : parser (list FeelExpr * list (option string) * Z) :=
  _ ← expect TLParen;
  t ← peek;
  args ← (if is_kind TRParen t then mret [] else sep_by (parse_call_arg ep));
  close ← expect TRParen;
  mret (map snd args, map fst args, tk_end close).

Definition parse_param : parser (string * FeelTypeShape) :=
  name ← expect TIdent;
  t ← peek;
  if is_kind TColon t then _ ← advance; shape ← k_type k; mret (tk_text name, shape)
  else mret (tk_text name, ShapeAny).

Definition parse_function_def (ep : bool) : parser FeelExpr :=
  head ← advance;
  _ ← expect TLParen;
  t ← peek;
  params ← (if is_kind TRParen t then mret [] else sep_by parse_param);
  _ ← expect TRParen;
  t ← peek;
  let external := is_kind TIdent t && String.eqb (tk_text t) "external" in
  _ ← (if external then advance else mret t);
  body ← k_or k ep;
  mret (FunctionDef (tk_start head) (end_ body) (map fst params) (map snd params) external body).

(** [. ident] after [. ident]. *)
Fixpoint path_loop (n : nat) (segments : list string) (end_ : Z) : parser (list string * Z) :=
  match n with
  | O => out_of_fuel
  | S n =>
      t ← peek;
      if is_kind TDot t then
        _ ← advance;
        seg ← expect TIdent;
        path_loop n (segments ++ [tk_text seg]) (tk_end seg)
      else mret (segments, end_)
  end.

Definition and_name : parser (option (string * nat)) := λ s, Ok (match_and_name (ps_rest s), s).

Definition parse_path_or_call (ep : bool) : parser FeelExpr :=
  head ← peek;
  n ← peek_next;
  if String.eqb (tk_text head) "function" && has_kind TLParen n then parse_function_def ep
  else
    m ← and_name;
    match m with
    | Some (name, ntokens) =>
        _ ← advance_by ntokens;
        '(args, names, e) ← parse_call_args ep;
        mret (Call (tk_start head) e name args names)
    | None =>
        _ ← advance;
        t ← peek;
        if is_kind TLParen t then
          '(args, names, e) ← parse_call_args ep;
          mret (Call (tk_start head) e (tk_text head) args names)
        else
          '(segments, e) ← loop (λ n, path_loop n [tk_text head] (tk_end head));
          mret (Path (tk_start head) e segments)
    end.

(** *** Literals and control structures *)

Fixpoint key_loop (n : nat) (e : Z) : parser Z :=
  match n with
  | O => out_of_fuel
  | S n =>
      t ← peek;
      match tk_kind t with TColon | TEof => mret e | _ => _ ← advance; key_loop n (tk_end t) end
  end.

(** A quoted key, or the source text up to the next colon. *)
Definition parse_key : parser string :=
  key ← peek;
  match tk_kind key with
  | TStr => _ ← advance; mret (match tk_value key with Str s => s | _ => tk_text key end)
  | TIdent =>
      _ ← advance;
      e ← loop (λ n, key_loop n (tk_end key));
      mret (encode (trim_chars (slice positions (tk_start key) e)))
  | _ => syntax_error positions ("Expected a context key (name or string) but got '" +:+ tk_text key +:+ "'") key
  end.

Definition parse_context_entry (ep : bool) : parser (string * FeelExpr) :=
  key ← parse_key;
  _ ← expect TColon;
  v ← k_or k ep;
  mret (key, v).

Definition parse_context_literal (ep : bool) : parser FeelExpr :=
  open ← expect TLBrace;
  t ← peek;
  entries ← (if is_kind TRBrace t then mret [] else sep_by (parse_context_entry ep));
  close ← expect TRBrace;
  mret (ContextLit (tk_start open) (tk_end close) entries).

Definition parse_if_then_else (ep : bool) : parser FeelExpr :=
  head ← advance;
  cond ← k_or k ep;
  _ ← expect TThen;
  then_ ← k_or k ep;
  _ ← expect TElse;
  otherwise ← k_or k ep;
  mret (IfThenElse (tk_start head) (end_ otherwise) cond then_ otherwise).

(** [(upper_inclusive, end_offset)]. *)
Definition expect_interval_close : parser (bool * Z) :=
  t ← peek;
  match tk_kind t with
  | TRBracket => c ← advance; mret (true, tk_end c)
  | TRParen | TLBracket => c ← advance; mret (false, tk_end c)
  | _ => syntax_error positions ("Expected ']' or ')' to close a range, got '" +:+ tk_text t +:+ "'") t
  end.

Definition parse_range_endpoint : parser FeelExpr := k_or k true.

(** After the lower bound and its [..]. *)
Definition interval_rest (open_start : Z) (from : FeelExpr) (from_inclusive : bool) : parser FeelExpr :=
  to ← parse_range_endpoint;
  '(to_inclusive, e) ← expect_interval_close;
  mret (RangeLit open_start e from to from_inclusive to_inclusive true).

Definition parse_list_literal (ep : bool) : parser FeelExpr :=
  open ← expect TLBracket;
  t ← peek;
  if is_kind TRBracket t then close ← advance; mret (ListLit (tk_start open) (tk_end close) [])
  else
    first ← k_or k ep;
    t ← peek;
    if is_kind TDotDot t then _ ← advance; interval_rest (tk_start open) first true
    else
      items ← more (k_or k ep) [first];
      close ← expect TRBracket;
      mret (ListLit (tk_start open) (tk_end close) items).

Definition parse_iterable (ep : bool) : parser FeelExpr :=
  first ← k_or k ep;
  t ← peek;
  if is_kind TDotDot t then
    _ ← advance;
    to ← k_or k ep;
    mret (RangeLit (start first) (end_ to) first to true true false)
  else mret first.

Definition parse_quantifier (ep : bool) : parser FeelExpr :=
  head ← advance;
  var ← expect TIdent;
  _ ← expect TIn;
  source ← parse_iterable ep;
  _ ← expect TSatisfies;
  condition ← k_or k ep;
  mret (Quantifier (tk_start head) (end_ condition) (is_kind TEvery head) (tk_text var) source condition).

Definition parse_binding (ep : bool) : parser (string * FeelExpr) :=
  var ← expect TIdent;
  _ ← expect TIn;
  source ← parse_iterable ep;
  mret (tk_text var, source).

Definition parse_for (ep : bool) : parser FeelExpr :=
  head ← advance;
  bindings ← sep_by (parse_binding ep);
  _ ← expect TReturn;
  body ← k_or k ep;
  mret (For (tk_start head) (end_ body) bindings body).

Definition parse_primary (ep : bool) : parser FeelExpr :=
  tok ← peek;
  match tk_kind tok with
  | TNumber | TStr | TBool | TNull | TTemporal =>
      _ ← advance; mret (Literal (tk_start tok) (tk_end tok) (tk_value tok))
  | TLParen =>
      open ← advance;
      expr ← k_or k ep;
      t ← peek;
      if is_kind TDotDot t then _ ← advance; interval_rest (tk_start open) expr false
      else _ ← expect TRParen; mret expr
  | TRBracket =>
      open ← advance;
      expr ← k_or k ep;
      _ ← expect TDotDot;
      interval_rest (tk_start open) expr false
  | TIf => parse_if_then_else ep
  | TSome | TEvery => parse_quantifier ep
  | TFor => parse_for ep
  | TLBracket => parse_list_literal ep
  | TLBrace => parse_context_literal ep
  | TIdent => parse_path_or_call ep
  | kind =>
      match compare_op kind with
      | Some op =>
          op_tok ← advance;
          bound ← k_additive k ep;
          mret (OpenRange (tk_start op_tok) (end_ bound) op bound)
      | None => syntax_error positions ("Unexpected token '" +:+ tk_text tok +:+ "'") tok
      end
  end.

(** *** Operators *)

Fixpoint postfix_loop (n : nat) (ep : bool) (expr : FeelExpr) : parser FeelExpr :=
  match n with
  | O => out_of_fuel
  | S n =>
      t ← peek;
      match tk_kind t with
      | TLBracket =>
          next ← peek_next;
          if ep && negb (match next with Some t => can_start_expr (tk_kind t) | None => false end) then mret expr
          else
            _ ← advance;
            predicate ← k_or k ep;
            close ← expect TRBracket;
            postfix_loop n ep (Filter (start expr) (tk_end close) expr predicate)
      | TDot =>
          _ ← advance;
          field ← expect TIdent;
          postfix_loop n ep (FieldAccess (start expr) (tk_end field) expr (tk_text field))
      | TLParen =>
          '(args, names, e) ← parse_call_args ep;
          postfix_loop n ep (Invoke (start expr) e expr args names)
      | _ => mret expr
      end
  end.

Definition parse_postfix (ep : bool) : parser FeelExpr :=
  expr ← parse_primary ep; loop (λ n, postfix_loop n ep expr).

Definition parse_unary (ep : bool) : parser FeelExpr :=
  tok ← peek;
  match tk_kind tok with
  | TNot =>
      _ ← advance;
      t ← peek;
      arg ← (if is_kind TLParen t then _ ← advance; inner ← k_or k ep; _ ← expect TRParen; mret inner
             else k_unary k ep);
      mret (Not (tk_start tok) (end_ arg) arg)
  | TMinus =>
      _ ← advance;
      arg ← k_unary k ep;
      mret (Negate (tk_start tok) (end_ arg) arg)
  | _ => parse_postfix ep
  end.

Definition parse_power (ep : bool) : parser FeelExpr := left_assoc power_op (parse_unary ep).
Definition parse_multiplicative (ep : bool) : parser FeelExpr := left_assoc multiplicative_op (parse_power ep).
Definition parse_additive (ep : bool) : parser FeelExpr := left_assoc additive_op (parse_multiplicative ep).

(** *** Unary tests *)

Definition parse_unary_test (ep : bool) (value_ : FeelExpr) : parser FeelExpr :=
  t ← peek;
  match compare_op (tk_kind t) with
  | Some op =>
      _ ← advance;
      operand ← parse_additive ep;
      mret (Compare (start value_) (end_ operand) value_ op operand)
  | None => test ← k_or k ep; mret (in_test value_ test)
  end.

Definition is_range_test (e : FeelExpr) : bool :=
  match e with RangeLit _ _ _ _ _ _ _ | OpenRange _ _ _ _ => true | _ => false end.

Definition parse_positive_unary_tests (ep : bool) (value_ : FeelExpr) : parser (list FeelExpr) :=
  t ← peek;
  if negb (is_kind TLParen t || is_kind TLBracket t) then x ← parse_unary_test ep value_; mret [x]
  else
    open ← advance;
    let bracket := is_kind TLBracket open in
    t ← peek;
    if is_compare_op (tk_kind t) then
      tests ← sep_by (parse_unary_test ep value_);
      _ ← expect_interval_close;
      mret tests
    else
      first ← k_or k ep;
      t ← peek;
      if is_kind TDotDot t then
        _ ← advance;
        range ← interval_rest (tk_start open) first bracket;
        mret [in_test value_ range]
      else if bracket then
        items ← more (k_or k ep) [first];
        close ← expect TRBracket;
        if existsb is_range_test items then mret (map (in_test value_) items)
        else mret [in_test value_ (ListLit (tk_start open) (tk_end close) items)]
      else
        tests ← more (parse_unary_test ep value_) [in_test value_ first];
        _ ← expect_interval_close;
        mret tests.

(** The tests, joined with [or]; none is false. *)
Definition parse_in (ep : bool) (value_ : FeelExpr) : parser FeelExpr :=
  tests ← parse_positive_unary_tests ep value_;
  let s := start value_ in
  let e := match List.last (map Some tests) None with Some t => end_ t | None => s end in
  match tests with
  | [] => mret (Literal s e (Boolean false))
  | first :: rest => mret (fold_left (λ acc t, BoolOp s e acc Or_ t) rest first)
  end.

Definition parse_comparison (ep : bool) : parser FeelExpr :=
  left ← parse_additive ep;
  t ← peek;
  n ← peek_next;
  if is_kind TIdent t && String.eqb (tk_text t) "instance" && has_text "of" n then
    _ ← advance;
    _ ← advance;
    shape ← k_type k;
    e ← prev_end;
    mret (InstanceOf (start left) e left shape)
  else if is_kind TIdent t && String.eqb (tk_text t) "between" then
    _ ← advance;
    low ← parse_additive ep;
    _ ← expect TAnd;
    high ← parse_additive ep;
    mret (BoolOp (start left) (end_ high) (Compare (start left) (end_ low) left Ge_ low) And_
            (Compare (start left) (end_ high) left Le_ high))
  else if is_kind TIn t then _ ← advance; parse_in ep left
  else
    match compare_op (tk_kind t) with
    | Some op =>
        _ ← advance;
        right ← parse_additive ep;
        mret (Compare (start left) (end_ right) left op right)
    | None => mret left
    end.

Definition parse_and (ep : bool) : parser FeelExpr := left_assoc and_op (parse_comparison ep).
Definition parse_or (ep : bool) : parser FeelExpr := left_assoc or_op (parse_and ep).
End Level.

(** ** Tying the knot *)

Fixpoint parse_knot (fuel : nat) : Knot :=
  match fuel with
  | O => {| k_or _ := out_of_fuel; k_additive _ := out_of_fuel; k_unary _ := out_of_fuel; k_type := out_of_fuel |}
  | S fuel =>
      let k := parse_knot fuel in
      {| k_or := parse_or k; k_additive := parse_additive k; k_unary := parse_unary k; k_type := parse_type_expr k |}
  end.

(** [FeelParser::new(tokens).parse()]; a call back up is made after a token was read, so
    the number of tokens is fuel enough. *)
Definition parse_tokens (tokens : list Token) : result (fault FeelError) FeelExpr :=
  let s := mk_pstate (match tokens with t :: _ => tk_end t | [] => 0 end) tokens in
  match (expr ← k_or (parse_knot (S (length tokens))) false; _ ← expect TEof; mret expr) s with
  | Ok (expr, _) => Ok expr
  | Err e => Err e
  end.
End Parser.

(** [parse_with_known_names]: lex, fold the names with spaces or hyphens that are known,
    parse ([sutra-feel/src/expressions.rs]). *)
Definition parse_with_known_names `{UnicodeTables, BigDecimalText, TimeCrate, TimeParse}
    (expression : string) (known : list string) : result (fault FeelError) FeelExpr :=
  let positions := positions_new expression INLINE_FEEL_URI in
  match tokenize positions with
  | Err e => Err e
  | Ok tokens =>
      parse_tokens positions (if needs_name_resolution tokens then resolve_names tokens known else tokens)
  end.
