(* ===== verification/FeelSyntax.v ===== *)
(** * FEEL syntax: what the parser promises ([sutra-feel/src/parser.rs])

    A small logic of partial runs ([wp]) for the parsers of [FeelParser]: on a token
    stream in order, a parser ends in a tree or in a coded error, never in a panic and
    never out of fuel, reads at least one token, and gives a tree whose nodes span the
    text they were read from.

    The theorems: parsing is total and its spans are nested in the source
    ([parse_total_and_nested]); a list whose last item is an interval in the alternate
    spelling is refused ([alternate_close_before_bracket_refused]). *)
From Stdlib Require Import ZArith Lia Bool Ascii String.
From stdpp Require Import base option strings list.
From S2P Require Import Prelude Texts Decimal FeelValue Temporal FeelText TemporalParse FeelLexer FeelParser.

Open Scope string_scope.
Open Scope list_scope.
Open Scope Z_scope.

(** ** Induction on trees *)

Section Induction.
Context (P : FeelExpr → Prop).
Context
  (PLiteral : ∀ s e v, P (Literal s e v)) (PPath : ∀ s e l, P (Path s e l))
  (PCompare : ∀ s e l o r, P l → P r → P (Compare s e l o r)) (PBoolOp : ∀ s e l o r, P l → P r → P (BoolOp s e l o r))
  (PNot : ∀ s e a, P a → P (Not s e a)) (PNegate : ∀ s e a, P a → P (Negate s e a))
  (PArith : ∀ s e l o r, P l → P r → P (Arith s e l o r))
  (PCall : ∀ s e n args ns, Forall P args → P (Call s e n args ns))
  (PFunctionDef : ∀ s e ps ss x b, P b → P (FunctionDef s e ps ss x b))
  (PIf : ∀ s e c t o, P c → P t → P o → P (IfThenElse s e c t o))
  (PListLit : ∀ s e l, Forall P l → P (ListLit s e l))
  (PContextLit : ∀ s e l, Forall (λ kv, P kv.2) l → P (ContextLit s e l))
  (PRangeLit : ∀ s e f t fi ti b, P f → P t → P (RangeLit s e f t fi ti b))
  (PQuantifier : ∀ s e ev x src c, P src → P c → P (Quantifier s e ev x src c))
  (PFor : ∀ s e bs b, Forall (λ kv, P kv.2) bs → P b → P (For s e bs b))
  (PFilter : ∀ s e src p, P src → P p → P (Filter s e src p))
  (PFieldAccess : ∀ s e b f, P b → P (FieldAccess s e b f))
  (PInstanceOf : ∀ s e x sh, P x → P (InstanceOf s e x sh))
  (PIn : ∀ s e v t, P v → P t → P (In_ s e v t))
  (PInvoke : ∀ s e c args ns, P c → Forall P args → P (Invoke s e c args ns))
  (POpenRange : ∀ s e o b, P b → P (OpenRange s e o b)).

Fixpoint expr_induction (x : FeelExpr) : P x :=
  let each := fix each (l : list FeelExpr) : Forall P l :=
    match l with [] => Forall_nil_2 P | y :: l => Forall_cons_2 P y l (expr_induction y) (each l) end in
  let each_snd := fix each_snd (l : list (string * FeelExpr)) : Forall (λ kv, P kv.2) l :=
    match l with
    | [] => Forall_nil_2 _
    | kv :: l => Forall_cons_2 (λ kv : string * FeelExpr, P kv.2) kv l (let '(_, y) as kv := kv return P kv.2 in expr_induction y) (each_snd l)
    end in
  match x with
  | Literal s e v => PLiteral s e v
  | Path s e l => PPath s e l
  | Compare s e l o r => PCompare s e l o r (expr_induction l) (expr_induction r)
  | BoolOp s e l o r => PBoolOp s e l o r (expr_induction l) (expr_induction r)
  | Not s e a => PNot s e a (expr_induction a)
  | Negate s e a => PNegate s e a (expr_induction a)
  | Arith s e l o r => PArith s e l o r (expr_induction l) (expr_induction r)
  | Call s e n args ns => PCall s e n args ns (each args)
  | FunctionDef s e ps ss x b => PFunctionDef s e ps ss x b (expr_induction b)
  | IfThenElse s e c t o => PIf s e c t o (expr_induction c) (expr_induction t) (expr_induction o)
  | ListLit s e l => PListLit s e l (each l)
  | ContextLit s e l => PContextLit s e l (each_snd l)
  | RangeLit s e f t fi ti b => PRangeLit s e f t fi ti b (expr_induction f) (expr_induction t)
  | Quantifier s e ev x src c => PQuantifier s e ev x src c (expr_induction src) (expr_induction c)
  | For s e bs b => PFor s e bs b (each_snd bs) (expr_induction b)
  | Filter s e src p => PFilter s e src p (expr_induction src) (expr_induction p)
  | FieldAccess s e b f => PFieldAccess s e b f (expr_induction b)
  | InstanceOf s e x sh => PInstanceOf s e x sh (expr_induction x)
  | In_ s e v t => PIn s e v t (expr_induction v) (expr_induction t)
  | Invoke s e c args ns => PInvoke s e c args ns (expr_induction c) (each args)
  | OpenRange s e o b => POpenRange s e o b (expr_induction b)
  end.
End Induction.

(** ** Spans *)

Definition all_of {A} (f : A → Prop) (l : list A) : Prop := foldr (λ x P, f x ∧ P) True l.

(** Every node lies between [lo] and [hi], and every child within its parent. *)
Fixpoint spans (lo hi : Z) (e : FeelExpr) : Prop :=
  let sub := spans (start e) (end_ e) in
  (lo <= start e ∧ start e <= end_ e ∧ end_ e <= hi) ∧
  match e with
  | Literal _ _ _ | Path _ _ _ => True
  | Compare _ _ l _ r | BoolOp _ _ l _ r | Arith _ _ l _ r => sub l ∧ sub r
  | Not _ _ a | Negate _ _ a | FieldAccess _ _ a _ | InstanceOf _ _ a _ | OpenRange _ _ _ a => sub a
  | FunctionDef _ _ _ _ _ body => sub body
  | Call _ _ _ args _ => all_of sub args
  | Invoke _ _ callee args _ => sub callee ∧ all_of sub args
  | IfThenElse _ _ c t o => sub c ∧ sub t ∧ sub o
  | ListLit _ _ items => all_of sub items
  | ContextLit _ _ entries => all_of (λ kv, sub kv.2) entries
  | RangeLit _ _ from to _ _ _ => sub from ∧ sub to
  | Quantifier _ _ _ _ source condition => sub source ∧ sub condition
  | For _ _ bindings body => all_of (λ kv, sub kv.2) bindings ∧ sub body
  | Filter _ _ source predicate => sub source ∧ sub predicate
  | In_ _ _ v test => sub v ∧ sub test
  end.

Lemma all_of_Forall {A} (f : A → Prop) l : all_of f l ↔ Forall f l.
Proof.
  unfold all_of. induction l as [|x l IH]; simpl; [by split|]. rewrite IH. split; [intros []; by constructor|].
  intros H; by inversion H.
Qed.

Lemma spans_bounds lo hi e : spans lo hi e → lo <= start e ∧ start e <= end_ e ∧ end_ e <= hi.
Proof. destruct e; simpl; tauto. Qed.

Lemma spans_mono lo hi lo' hi' e : lo' <= lo → hi <= hi' → spans lo hi e → spans lo' hi' e.
Proof.
  intros Hl Hh H. pose proof (spans_bounds _ _ _ H) as Hb.
  destruct e; cbn [spans] in H |- *; (split; [simpl in *; lia|]); apply H.
Qed.

(** ** Runs of a parser *)

Section Runs.
Context (hi : Z).

(** The stream of a cursor: in order from [lo] on. *)
Definition ready (lo : Z) (s : PState) : Prop := in_order hi lo (ps_rest s).

Definition left_of (s : PState) : nat := length (ps_rest s).

(** An error names a place of the source. *)
Definition error_in (lo : Z) (e : FeelError) : Prop := ∃ o, fe_offset e = Some o ∧ lo <= o <= hi.

Definition wp {A} (lo : Z) (p : parser A) (Q : A → PState → Prop) (s : PState) : Prop :=
  match p s with
  | Ok (a, s') => Q a s'
  | Err (Rejected e) => error_in lo e
  | Err _ => False
  end.

Lemma wp_bind {A B} lo (p : parser A) (f : A → parser B) Q s :
  wp lo p (λ a s', wp lo (f a) Q s') s → wp lo (p ≫= f) Q s.
Proof. unfold wp, mbind, parser_bind. by destruct (p s) as [[a s']|[| |]]. Qed.

Lemma wp_ret {A} lo (a : A) (Q : A → PState → Prop) s : Q a s → wp lo (mret a) Q s.
Proof. done. Qed.

Lemma wp_mono {A} lo lo' (p : parser A) (Q Q' : A → PState → Prop) s :
  lo' <= lo → (∀ a s', Q a s' → Q' a s') → wp lo p Q s → wp lo' p Q' s.
Proof.
  unfold wp. intros Hl HQ. destruct (p s) as [[a s']|[e| |]]; [auto| |done..].
  intros (o & Ho & Hb). exists o. split; [done|lia].
Qed.

Lemma wp_peek lo (Q : Token → PState → Prop) s lo' :
  ready lo' s → (∀ t r, ps_rest s = t :: r → Q t s) → wp lo peek Q s.
Proof.
  unfold wp, peek, ready. destruct (ps_rest s) as [|t r] eqn:E; [inversion 1|]. intros _ H. by apply H with r.
Qed.

Lemma wp_look lo i (Q : option Token → PState → Prop) s : Q (nth_error (ps_rest s) i) s → wp lo (look i) Q s.
Proof. done. Qed.

Lemma wp_prev_end lo (Q : Z → PState → Prop) s : Q (ps_prev s) s → wp lo prev_end Q s.
Proof. done. Qed.

(** The state after the token [t]. *)
Definition past (t : Token) (r : list Token) : PState := mk_pstate (tk_end t) r.

Lemma ready_token lo s t r :
  ready lo s → ps_rest s = t :: r → tk_kind t ≠ TEof →
  lo <= tk_start t ∧ tk_start t <= tk_end t ∧ ready (tk_end t) (past t r) ∧ left_of s = S (left_of (past t r)) ∧ r ≠ [].
Proof.
  unfold ready, left_of. intros H E Hk. rewrite E in *. inversion H; subst; [done|].
  split; [lia|]. split; [lia|]. split; [done|]. split; [done|]. intros ->. by inversion H5.
Qed.

Lemma wp_advance lo (Q : Token → PState → Prop) s t r :
  ps_rest s = t :: r → r ≠ [] → Q t (past t r) → wp lo advance Q s.
Proof. unfold wp, advance. intros -> Hr. by destruct r. Qed.

Lemma wp_syntax_error {A} lo p m s t r (Q : A → PState → Prop) :
  ready lo s → ps_rest s = t :: r → wp lo (syntax_error p m t) Q s.
Proof.
  unfold ready, wp, syntax_error. intros H E. exists (tk_start t). split; [done|]. rewrite E in H.
  inversion H; subst; [lia|]. pose proof (in_order_le _ _ _ H5). lia.
Qed.

Lemma wp_expect lo lo' p k (Q : Token → PState → Prop) s :
  k ≠ TEof → ready lo' s → lo <= lo' →
  (∀ t r, ps_rest s = t :: r → tk_kind t = k → lo' <= tk_start t → tk_start t <= tk_end t →
     ready (tk_end t) (past t r) → left_of s = S (left_of (past t r)) → Q t (past t r)) →
  wp lo (expect p k) Q s.
Proof.
  intros Hk Hr Hlo HQ. unfold expect. apply wp_bind, (wp_peek _ _ _ lo'); [done|]. intros t r E.
  destruct (is_kind k t) eqn:Ek;
    [|eapply (wp_mono lo'); [done|by intros ? ? H; exact H|by eapply wp_syntax_error]].
  apply is_kind_true in Ek. destruct (ready_token lo' s t r) as (H1 & H2 & H3 & H4 & H5); [done|done|congruence|].
  eapply wp_advance; [done|done|]. by apply HQ.
Qed.

(** *** What a parser promises on at most [n] tokens *)

Definition step (lo : Z) (s s' : PState) : Prop :=
  ready (ps_prev s') s' ∧ lo <= ps_prev s' ∧ (left_of s' < left_of s)%nat.

Definition stay (s s' : PState) : Prop :=
  ready (ps_prev s') s' ∧ ps_prev s <= ps_prev s' ∧ (left_of s' <= left_of s)%nat.

Definition good {A} (R : Z → Z → A → Prop) (n : nat) (p : parser A) : Prop := ∀ lo s,
  ready lo s → (left_of s <= n)%nat → wp lo p (λ a s', step lo s s' ∧ R lo (ps_prev s') a) s.

(** Wider bounds keep the promise. *)
Definition monotone {A} (R : Z → Z → A → Prop) : Prop := ∀ lo h lo' h' a, lo' <= lo → h <= h' → R lo h a → R lo' h' a.

Lemma good_mono {A} (R : Z → Z → A → Prop) n m p : (m <= n)%nat → good R n p → good R m p.
Proof. intros Hm H lo s Hr Hl. apply H; [done|lia]. Qed.

Lemma wp_good {A} (R : Z → Z → A → Prop) n p lo lo' s (Q : A → PState → Prop) :
  good R n p → ready lo' s → lo <= lo' → (left_of s <= n)%nat →
  (∀ a s', step lo' s s' → R lo' (ps_prev s') a → Q a s') → wp lo p Q s.
Proof.
  intros Hg Hr Hlo Hl HQ. eapply wp_mono; [done| |by apply Hg]. intros a s' [Hs HR]. by apply HQ.
Qed.

(** What holds of the items read up to a place, kept by one more item. *)
Definition extends {A} (R : Z → Z → A → Prop) (I : Z → list A → Prop) : Prop :=
  ∀ m h l x, I m l → m <= h → R m h x → I h (l ++ [x]).

Lemma wp_comma_loop {A} (R : Z → Z → A → Prop) I n (item : parser A) fuel lo acc s :
  monotone R → extends R I → good R n item → ready (ps_prev s) s → lo <= ps_prev s → (left_of s <= n)%nat →
  (left_of s < fuel)%nat → I (ps_prev s) acc →
  wp lo (comma_loop fuel item acc) (λ l s', stay s s' ∧ I (ps_prev s') l) s.
Proof.
  intros Hm HI Hg. revert acc s. induction fuel as [|fuel IH]; intros acc s Hr Hlo Hn Hf Ha; [lia|]. cbn [comma_loop].
  eapply wp_bind, wp_peek; [done|]. intros t r E. destruct (is_kind TComma t) eqn:Ek; [|by apply wp_ret].
  apply is_kind_true in Ek. destruct (ready_token (ps_prev s) s t r) as (H1 & H2 & H3 & H4 & H5); [done|done|congruence|].
  eapply wp_bind, wp_advance; [done|done|].
  eapply wp_bind, (wp_good R n); [done|done|lia|lia|]. intros x s' (Hr' & Hp & Hl) Hx.
  eapply wp_mono; [reflexivity| |apply IH]; [|done|lia|lia|lia|].
  - intros l s2 ((Hr2 & Hp2 & Hl2) & HR). split; [|done]. split; [done|]. split; [lia|]. lia.
  - eapply HI; [exact Ha|lia|]. eapply Hm; [| |exact Hx]; lia.
Qed.

Lemma wp_more {A} (R : Z → Z → A → Prop) I n (item : parser A) lo acc s (Q : list A → PState → Prop) :
  monotone R → extends R I → good R n item → ready (ps_prev s) s → lo <= ps_prev s → (left_of s <= n)%nat →
  I (ps_prev s) acc → (∀ l s', stay s s' → I (ps_prev s') l → Q l s') → wp lo (more item acc) Q s.
Proof.
  intros Hm HI Hg Hr Hlo Hn Ha HQ.
  eapply wp_mono; [reflexivity| |apply (wp_comma_loop R I n item (S (left_of s)) lo acc s); done || lia].
  intros l s' []. by apply HQ.
Qed.

Lemma wp_sep_by {A} (R : Z → Z → A → Prop) I n (item : parser A) lo lo' s (Q : list A → PState → Prop) :
  monotone R → extends R I → (∀ h x, lo' <= h → R lo' h x → I h [x]) → good R n item → ready lo' s → lo <= lo' →
  (left_of s <= n)%nat → (∀ l s', step lo' s s' → I (ps_prev s') l → Q l s') → wp lo (sep_by item) Q s.
Proof.
  intros Hm HI H1 Hg Hr Hlo Hl HQ. unfold sep_by. eapply wp_bind, (wp_good R n); [done|done|done|done|].
  intros x s' (Hr' & Hp & Hl') Hx. eapply (wp_more R I n); [done..|lia|lia|by apply H1|].
  intros l s2 (Hr2 & Hp2 & Hl2) HR. apply HQ; [|done]. split; [done|]. split; lia.
Qed.

(** Every item, by itself, from [lo] on. *)
Definition each {A} (R : Z → Z → A → Prop) (lo : Z) (h : Z) (l : list A) : Prop := lo <= h ∧ Forall (R lo h) l.

Lemma extends_each {A} (R : Z → Z → A → Prop) lo : monotone R → extends R (each R lo).
Proof.
  intros Hm m h l x [Hl Ha] Hh Hx. split; [lia|]. apply Forall_app. split; [|constructor; [|done]].
  - eapply Forall_impl; [exact Ha|]. intros a. apply Hm; lia.
  - eapply Hm; [| |exact Hx]; lia.
Qed.

Lemma wp_sep_by_each {A} (R : Z → Z → A → Prop) n (item : parser A) lo lo' s (Q : list A → PState → Prop) :
  monotone R → good R n item → ready lo' s → lo <= lo' → (left_of s <= n)%nat →
  (∀ l s', step lo' s s' → Forall (R lo' (ps_prev s')) l → Q l s') → wp lo (sep_by item) Q s.
Proof.
  intros Hm Hg Hr Hlo Hl HQ. eapply (wp_sep_by R (each R lo') n); [done|by apply extends_each| |done..|].
  - intros h x Hh Hx. split; [done|by constructor].
  - intros l s' Hs []. by apply HQ.
Qed.

(** *** Binary operators *)

Lemma spans_self lo h e : spans lo h e → spans (start e) (end_ e) e.
Proof. intros H. pose proof (spans_bounds _ _ _ H). destruct e; cbn [spans] in H |- *; (split; [simpl in *; lia|]); apply H. Qed.

Definition binary_node (node : Z → Z → FeelExpr → FeelExpr → FeelExpr) : Prop := ∀ lo h s e l r,
  lo <= s → s <= e → e <= h → spans s e l → spans s e r → spans lo h (node s e l r).

Definition operators (op_of : TokenKind → option (Z → Z → FeelExpr → FeelExpr → FeelExpr)) : Prop :=
  op_of TEof = None ∧ ∀ k node, op_of k = Some node → binary_node node.

(** A node over two trees read one after the other. *)
Lemma spans_binary node lo m h l r :
  binary_node node → spans lo m l → spans m h r → spans lo h (node (start l) (end_ r) l r).
Proof.
  intros Hn Hl Hr. pose proof (spans_bounds _ _ _ Hl). pose proof (spans_bounds _ _ _ Hr).
  apply Hn; [lia..| |].
  - eapply spans_mono; [| |by eapply spans_self]; lia.
  - eapply spans_mono; [| |by eapply spans_self]; lia.
Qed.

Lemma wp_left_loop n op_of operand fuel lo left s :
  operators op_of → good spans n operand → ready (ps_prev s) s → (left_of s <= n)%nat → (left_of s < fuel)%nat →
  spans lo (ps_prev s) left →
  wp lo (left_loop fuel op_of operand left) (λ e s', stay s s' ∧ spans lo (ps_prev s') e) s.
Proof.
  intros [Heof Hops] Hg. revert left s. induction fuel as [|fuel IH]; intros left s Hr Hn Hf Hs; [lia|]. cbn [left_loop].
  pose proof (spans_bounds _ _ _ Hs).
  eapply wp_bind, wp_peek; [done|]. intros t r E. destruct (op_of (tk_kind t)) as [node|] eqn:Eo; [|by apply wp_ret].
  destruct (ready_token (ps_prev s) s t r) as (H1 & H2 & H3 & H4 & H5); [done|done|congruence|].
  eapply wp_bind, wp_advance; [done|done|].
  eapply wp_bind, (wp_good spans n); [done|done|lia|lia|]. intros x s' (Hr' & Hp & Hl) Hx.
  eapply wp_mono; [reflexivity| |apply IH]; [|done|lia|lia|].
  - intros e s2 ((Hr2 & Hp2 & Hl2) & HR). split; [|done]. split; [done|]. split; lia.
  - eapply spans_binary; [by eapply Hops|exact Hs|]. eapply spans_mono; [| |exact Hx]; lia.
Qed.

Lemma good_left_assoc n op_of operand : operators op_of → good spans n operand → good spans n (left_assoc op_of operand).
Proof.
  intros Ho Hg lo s Hr Hl. unfold left_assoc. eapply wp_bind, (wp_good spans n); [done|done|reflexivity|done|].
  intros x s' (Hr' & Hp & Hl') Hx.
  eapply wp_mono; [reflexivity| |apply (wp_left_loop n op_of operand (S (left_of s')))]; [|done|done|done|lia|lia|done].
  intros e s2 ((Hr2 & Hp2 & Hl2) & HR). split; [|done]. split; [done|]. split; lia.
Qed.

(** *** One level of the knot *)

Definition no_span {A} : Z → Z → A → Prop := λ _ _ _, True.

Record knot_good (n : nat) (k : Knot) : Prop := {
  kg_or ep : good spans n (k_or k ep);
  kg_additive ep : good spans n (k_additive k ep);
  kg_unary ep : good spans n (k_unary k ep);
  kg_type : good no_span n (k_type k)
}.

Lemma monotone_no_span {A} : monotone (@no_span A).
Proof. done. Qed.

Lemma monotone_spans : monotone spans.
Proof. intros lo h lo' h' e. apply spans_mono. Qed.

Lemma monotone_snd {B} : monotone (λ lo h (x : B * FeelExpr), spans lo h x.2).
Proof. intros lo h lo' h' e. apply spans_mono. Qed.

(** A child, from where it was read. *)
Lemma spans_child lo h lo' h' e : spans lo h e → lo' <= start e → end_ e <= h' → spans lo' h' e.
Proof. intros H Hl Hh. eapply spans_mono; [exact Hl|exact Hh|by eapply spans_self]. Qed.

Lemma all_of_spans lo h lo' h' l : Forall (spans lo h) l → lo' <= lo → h <= h' → all_of (spans lo' h') l.
Proof. intros H Hl Hh. apply all_of_Forall. eapply Forall_impl; [exact H|]. intros e. by apply spans_mono. Qed.

Lemma all_of_spans_snd {B} lo h lo' h' (l : list (B * FeelExpr)) :
  Forall (λ x, spans lo h x.2) l → lo' <= lo → h <= h' → all_of (λ x, spans lo' h' x.2) l.
Proof. intros H Hl Hh. apply all_of_Forall. eapply Forall_impl; [exact H|]. intros e. by apply spans_mono. Qed.

Ltac kinds :=
  repeat match goal with
  | H : is_kind _ _ = true |- _ => apply is_kind_true in H
  | H : (_ && _) = true |- _ => apply andb_true_iff in H; destruct H
  end.

(** The facts of the token at the cursor. *)
Ltac token_facts :=
  match goal with
  | E : ps_rest ?s = ?t :: ?r, Hr : ready ?lo ?s |- wp _ advance _ ?s =>
      let H1 := fresh "Hs" in let H2 := fresh "He" in let H3 := fresh "Hr" in let H4 := fresh "Hl" in let H5 := fresh "Hne" in
      destruct (ready_token lo s t r Hr E) as (H1 & H2 & H3 & H4 & H5);
        [kinds; congruence|eapply wp_advance; [exact E|exact H5|]]
  end.

(** The token after the one at the cursor. *)
Lemma second_token (f : Token → bool) s t r :
  ps_rest s = t :: r → match nth_error (ps_rest s) 1 with Some t' => f t' | None => false end = true →
  ∃ t' r', ps_rest (past t r) = t' :: r' ∧ f t' = true.
Proof. intros -> H. simpl in *. destruct r as [|t' r']; [done|]. by exists t', r'. Qed.

Lemma second_kind kind s t r :
  ps_rest s = t :: r → has_kind kind (nth_error (ps_rest s) 1) = true →
  ∃ t' r', ps_rest (past t r) = t' :: r' ∧ tk_kind t' = kind.
Proof.
  intros E H. destruct (second_token (is_kind kind) s t r E H) as (t' & r' & E' & Ht). kinds. by exists t', r'.
Qed.

Ltac called := 
  let a := fresh "a" in let s := fresh "s" in let H := fresh "Hspan" in let H1 := fresh "Hr" in let H2 := fresh "Hp" in
  let H3 := fresh "Hl" in
  intros a s (H1 & H2 & H3) H; try (pose proof (spans_bounds _ _ _ H)).

Ltac prun1 :=
  lazymatch goal with
  | |- wp _ (mbind _ _) _ _ => apply wp_bind
  | |- wp _ (mret _) _ _ => apply wp_ret
  | |- wp _ peek _ _ => eapply wp_peek; [eassumption|]; let t := fresh "t" in let r := fresh "r" in let E := fresh "E" in intros t r E
  | |- wp _ peek_next _ _ => apply wp_look
  | |- wp _ prev_end _ _ => apply wp_prev_end
  | |- wp _ (expect _ _) _ _ =>
      eapply wp_expect; [discriminate|eassumption|lia|];
      let t := fresh "t" in let r := fresh "r" in
      intros t r ? ? ? ? ? ?
  | |- wp _ advance _ _ => token_facts
  | |- wp _ (syntax_error _ _ _) _ _ =>
      eapply wp_mono; [| |eapply wp_syntax_error; eassumption]; [lia|by intros ? ? H; exact H]
  | |- wp _ (if ?b then _ else _) _ _ => destruct b eqn:?
  | |- wp _ (k_or _ _) _ _ => eapply (wp_good spans); [by eapply kg_or|eassumption|lia|lia|]; called
  | |- wp _ (k_additive _ _) _ _ => eapply (wp_good spans); [by eapply kg_additive|eassumption|lia|lia|]; called
  | |- wp _ (k_unary _ _) _ _ => eapply (wp_good spans); [by eapply kg_unary|eassumption|lia|lia|]; called
  | |- wp _ (k_type _) _ _ => eapply (wp_good no_span); [by eapply kg_type|eassumption|lia|lia|]; called
  end.

Ltac prun := repeat prun1.

(** A node over children read before. *)
Ltac node :=
  cbn [spans start end_]; split_and!; simpl in *;
  first [lia | done
        | eapply all_of_spans; [eassumption|lia|lia]
        | eapply all_of_spans_snd; [eassumption|lia|lia]
        | eapply spans_child; [eassumption|lia|lia]].

(** The end of a run: where the cursor is, and the span of the node. *)
Ltac finish :=
  split; [split; [eassumption|simpl in *; split; lia]|];
  first [exact I|eapply spans_mono; [| |eassumption]; simpl in *; lia|idtac]; try node.

Section Level.
Context (p : FeelSourcePositions) (n : nat) (k : Knot) (Hk : knot_good n k).

Lemma wp_loop {A} lo (f : nat → parser A) Q s : wp lo (f (S (left_of s))) Q s → wp lo (loop f) Q s.
Proof. done. Qed.

(** Several tokens at once, none of them the last. *)
Lemma wp_advance_by m lo lo' (Q : () → PState → Prop) s :
  ready lo' s → lo <= lo' → (∀ i, (i < m)%nat → ∃ t, nth_error (ps_rest s) i = Some t ∧ tk_kind t ≠ TEof) →
  (0 < m)%nat →
  (∀ s' t r, ps_rest s = t :: r → step lo' s s' → lo' <= tk_start t → tk_start t <= tk_end t → tk_end t <= ps_prev s' →
     Q tt s') →
  wp lo (advance_by m) Q s.
Proof.
  revert lo' s. induction m as [|m IH]; intros lo' s Hr Hlo Hk' H0 HQ; [lia|]. cbn [advance_by].
  destruct (Hk' 0%nat ltac:(lia)) as (t & E & Ht). destruct (ps_rest s) as [|t' r] eqn:E'; [done|].
  injection E as ->. destruct (ready_token lo' s t r) as (H1 & H2 & H3 & H4 & H5); [done..|].
  eapply wp_bind, wp_advance; [done|done|].
  destruct m as [|m]; [apply wp_ret, (HQ _ t r); [done|split; [done|simpl; split; lia]|done|done|simpl; lia]|].
  apply (IH (tk_end t)); [done|lia| |lia|].
  - intros i Hi. apply (Hk' (S i)). lia.
  - intros s' t2 r2 _ (Hr' & Hp & Hl) ???. apply (HQ _ t r); [done|split; [done|split; lia]|done..].
Qed.

Lemma forallb_imap {A B} (f : nat → A → B) (g : B → bool) l i a :
  forallb g (imap f l) = true → l !! i = Some a → g (f i a) = true.
Proof.
  intros H E. rewrite forallb_forall in H. apply H, list_elem_of_In, (list_elem_of_lookup_2 _ i).
  by rewrite list_lookup_imap, E.
Qed.

Lemma ready_text lo s i t : ready lo s → nth_error (ps_rest s) i = Some t → tk_text t ≠ "" → tk_kind t ≠ TEof.
Proof.
  unfold ready. generalize (ps_rest s). clear s. intros ts H. revert i.
  induction H as [lo t' Hk' Ht|lo t' ts Hk' Hb H IH]; intros [|i] E; simpl in E.
  - congruence.
  - by rewrite nth_error_nil in E.
  - congruence.
  - eauto.
Qed.

Lemma wp_words lo s seq (Q : bool → PState → Prop) :
  ready (ps_prev s) s → lo <= ps_prev s → (0 < length seq)%nat → forallb (λ w, negb (String.eqb w "")) seq = true →
  (∀ b s', stay s s' → Q b s') → wp lo (words seq) Q s.
Proof.
  intros Hr Hlo H0 Hs HQ. unfold words, wp. destruct (forallb _ (imap _ _)) eqn:Em; [|by apply HQ].
  apply (wp_bind lo (advance_by (length seq)) (λ _, mret true) Q s), (wp_advance_by _ _ (ps_prev s)); [done|done| |done|].
  - intros i Hi. destruct (lookup_lt_is_Some_2 seq i Hi) as [w Hw].
    pose proof (forallb_imap _ _ _ _ _ Em Hw) as Hm. simpl in Hm.
    destruct (nth_error (ps_rest s) i) as [t|] eqn:E; [|done]. exists t. split; [done|].
    rewrite forallb_forall in Hs. specialize (Hs w (proj1 (list_elem_of_In _ _) (list_elem_of_lookup_2 _ _ _ Hw))).
    apply orb_true_iff in Hm as [Hm|Hm]; [kinds; congruence|]. eapply ready_text; [done|done|].
    apply String.eqb_eq in Hm. intros Ht. by rewrite <- Hm, Ht in Hs.
  - intros s' t2 r2 _ (Hr' & Hp & Hl) _ _ _. apply wp_ret, HQ. split; [done|]. split; lia.
Qed.

(** *** Types *)

Lemma wp_type_name_of lo s head (Q : string → PState → Prop) :
  ready (ps_prev s) s → lo <= ps_prev s → (∀ x s', stay s s' → Q x s') → wp lo (type_name_of head) Q s.
Proof.
  intros Hr Hlo HQ. unfold type_name_of.
  repeat case_match; try (apply wp_bind, wp_words; [done|done|simpl; lia|done|]; intros; by apply wp_ret, HQ).
  apply wp_ret, HQ. by split.
Qed.

Lemma good_type_component : good no_span (S n) (type_component p k).
Proof. intros lo s Hr Hn. unfold type_component. prun. finish. Qed.

Lemma wp_skip_generic fuel depth lo s (Q : () → PState → Prop) :
  ready (ps_prev s) s → (left_of s < fuel)%nat → (∀ s', stay s s' → Q tt s') → wp lo (skip_generic fuel depth) Q s.
Proof.
  revert depth s. induction fuel as [|fuel IH]; intros depth s Hr Hf HQ; [lia|].
  destruct depth as [|depth]; [by apply wp_ret, HQ|]. cbn [skip_generic].
  assert (Hadv : ∀ t r d, ps_rest s = t :: r → tk_kind t ≠ TEof → wp lo (_ ← advance; skip_generic fuel d) Q s).
  { intros t r d E Ht. destruct (ready_token _ s t r Hr E Ht) as (H1 & H2 & H3 & H4 & H5).
    eapply wp_bind, wp_advance; [done|done|]. apply IH; [done|lia|]. intros s' (? & Hp & ?). apply HQ.
    split; [done|]. simpl in Hp. split; lia. }
  prun. destruct (tk_kind t) eqn:Ek; try (eapply Hadv; [done|congruence]). by apply wp_ret, HQ.
Qed.

Lemma wp_generic_shape name lo s (Q : FeelTypeShape → PState → Prop) :
  ready (ps_prev s) s → lo <= ps_prev s → (left_of s <= n)%nat → (∀ x s', stay s s' → Q x s') →
  wp lo (generic_shape p k name) Q s.
Proof.
  intros Hr Hlo Hn HQ. unfold generic_shape.
  assert (Hend : ∀ x s', ready (ps_prev s') s' → ps_prev s <= ps_prev s' → (left_of s' <= left_of s)%nat → Q x s').
  { intros x s' ???. by apply HQ. }
  destruct (String.eqb name "list"); [prun; apply Hend; simpl in *; done || lia|].
  destruct (String.eqb name "range"); [prun; apply Hend; simpl in *; done || lia|].
  destruct (String.eqb name "context").
  { prun; [apply Hend; simpl in *; done || lia|].
    eapply (wp_sep_by_each no_span n); [done|eapply good_mono, good_type_component; lia|done|lia|lia|].
    called. prun. apply Hend; simpl in *; done || lia. }
  destruct (String.eqb name "function").
  { prun; [apply Hend; simpl in *; done || lia|]. eapply (wp_sep_by_each no_span n); [done|by eapply kg_type|done|lia|lia|].
    called. prun. apply Hend; simpl in *; done || lia. }
  apply wp_bind, wp_loop, wp_skip_generic; [done|lia|]. intros s' H. by apply wp_ret, HQ.
Qed.

Lemma good_parse_type_expr : good no_span (S n) (parse_type_expr p k).
Proof.
  intros lo s Hr Hn. unfold parse_type_expr. prun.
  apply wp_type_name_of; [done|simpl; lia|]. intros x s' (Hr' & Hp & Hl). simpl in Hp. prun; [finish|].
  apply negb_false_iff in Heqb. prun.
  apply wp_generic_shape; [done|simpl; lia|lia|]. intros y s2 (Hr2 & Hp2 & Hl2). simpl in Hp2. prun; [|finish].
  kinds. destruct (second_kind TGt s2 t1 r1) as (t2 & r2 & E2 & Ht2); [done..|]. prun. finish.
Qed.

(** *** Calls *)

Lemma nth_error_ident_run l i : (i < ident_run l)%nat → ∃ t, nth_error l i = Some t ∧ tk_kind t = TIdent.
Proof.
  revert i. induction l as [|t l IH]; intros i Hi; simpl in Hi; [lia|].
  destruct (is_kind TIdent t) eqn:E; [|lia]. kinds. destruct i as [|i]; [by exists t|]. apply IH. lia.
Qed.

Lemma good_parse_call_arg ep : good (λ lo h (x : option string * FeelExpr), spans lo h x.2) n (parse_call_arg k ep).
Proof.
  intros lo s Hr Hn. unfold parse_call_arg, wp. set (j := ident_run (ps_rest s)).
  destruct (_ && _) eqn:E.
  - apply andb_true_iff in E as [_ Hc]. 
    apply (wp_bind lo (advance_by (S j))), (wp_advance_by _ _ lo); [done|lia| |lia|].
    + intros i Hi. destruct (decide (i = j)) as [->|Hij].
      * unfold has_kind in Hc. destruct (nth_error (ps_rest s) j) as [t|]; [|done]. exists t. kinds.
        split; [done|congruence].
      * destruct (nth_error_ident_run (ps_rest s) i) as (t & Ht & Hi'); [lia|]. exists t. split; [done|congruence].
    + intros s' t2 r2 _ (Hr' & Hp & Hl) _ _ _. prun. split; [split; [done|split; lia]|].
      simpl. eapply spans_mono; [| |exact Hspan]; lia.
  - apply (wp_bind lo (k_or k ep)). prun. split; [by split|]. done.
Qed.

(** The arguments lie before the closing parenthesis, where the cursor then is. *)
Definition args_span (lo h : Z) (x : list FeelExpr * list (option string) * Z) : Prop :=
  x.2 <= h ∧ lo <= x.2 ∧ Forall (spans lo x.2) x.1.1.

Lemma good_parse_call_args ep : good args_span (S n) (parse_call_args p k ep).
Proof.
  intros lo s Hr Hn. unfold parse_call_args. prun.
  - split; [split; [done|simpl in *; split; lia]|]. unfold args_span; simpl in *. split_and!; [lia|lia|constructor].
  - eapply (wp_sep_by_each (λ lo h (x : option string * FeelExpr), spans lo h x.2) n);
      [apply monotone_snd|apply good_parse_call_arg|done|lia|lia|]. called. prun.
    split; [split; [done|simpl in *; split; lia]|]. unfold args_span; simpl in *. split_and!; [lia|lia|].
    apply Forall_map. eapply Forall_impl; [exact Hspan|]. intros x. simpl. apply spans_mono; lia.
Qed.

Lemma good_parse_param : good no_span (S n) (parse_param p k).
Proof. intros lo s Hr Hn. unfold parse_param. prun; finish. Qed.

(** A parser entered at a token of a kind. *)
Definition good_at (kind : TokenKind) (m : nat) (q : parser FeelExpr) : Prop := ∀ lo s t r,
  ready lo s → ps_rest s = t :: r → tk_kind t = kind → (left_of s <= m)%nat →
  wp lo q (λ a s', step lo s s' ∧ spans lo (ps_prev s') a) s.

Lemma good_function_def ep : good_at TIdent (S n) (parse_function_def p k ep).
Proof.
  intros lo s t r Hr E Ht Hn. unfold parse_function_def. prun; [finish..|].
  eapply (wp_sep_by_each no_span n); [done|eapply good_mono, good_parse_param; lia|done|lia|lia|].
  called. prun; finish.
Qed.

Lemma wp_path_loop fuel lo segments e s (Q : list string * Z → PState → Prop) :
  ready (ps_prev s) s → lo <= ps_prev s → (left_of s < fuel)%nat → e = ps_prev s →
  (∀ l s', stay s s' → Q (l, ps_prev s') s') → wp lo (path_loop p fuel segments e) Q s.
Proof.
  revert segments e s. induction fuel as [|fuel IH]; intros segments e s Hr Hlo Hf -> HQ; [lia|]. cbn [path_loop].
  prun; [|by apply wp_ret, HQ]. apply IH; [done|simpl; lia|lia|done|].
  intros l s' (Hr' & Hp' & Hl'). apply HQ. simpl in Hp'. split; [done|split; lia].
Qed.

Lemma match_and_name_tokens rest name m : match_and_name rest = Some (name, m) →
  (0 < m)%nat ∧ ∀ i, (i < m)%nat → ∃ t, nth_error rest i = Some t ∧ (tk_kind t = TAnd ∨ tk_text t ≠ "").
Proof.
  unfold match_and_name. intros H. apply fmap_Some in H as (e & Hf & He). injection He as -> ->.
  apply find_some in Hf as [Hin Hm]. apply andb_true_iff in Hm as [Hm _].
  assert (Hw : (0 < length e.1)%nat ∧ forallb (λ w, negb (String.eqb w "")) e.1 = true)
    by (repeat (destruct Hin as [<-|Hin]; [split; [simpl; lia|done]|]); done).
  destruct Hw as [H0 Hw]. split; [done|]. intros i Hi. destruct (lookup_lt_is_Some_2 e.1 i Hi) as [w Ew].
  pose proof (forallb_imap _ _ _ _ _ Hm Ew) as Ht. simpl in Ht.
  destruct (nth_error rest i) as [t|]; [|done]. exists t. split; [done|].
  rewrite forallb_forall in Hw. specialize (Hw w (proj1 (list_elem_of_In _ _) (list_elem_of_lookup_2 _ _ _ Ew))).
  destruct (String.eqb w "and"); [left; by kinds|right]. apply String.eqb_eq in Ht. intros E. by rewrite <- Ht, E in Hw.
Qed.

Ltac args := let a := fresh "args" in let ns := fresh "names" in let e := fresh "e" in
  eapply (wp_good args_span (S n)); [apply good_parse_call_args|eassumption|lia|lia|];
  intros [[a ns] e] ? (? & ? & ?) (? & ? & ?); simpl in * |-.

Lemma good_path_or_call ep : good_at TIdent (S n) (parse_path_or_call p k ep).
Proof.
  intros lo s t r Hr E Ht Hn. unfold parse_path_or_call. prun; [eapply good_function_def; [exact Hr|exact E|done|done]|].
  assert (t0 = t) as -> by congruence. unfold and_name at 1. unfold wp at 1.
  destruct (match_and_name (ps_rest s)) as [[name m]|] eqn:Em.
  - apply match_and_name_tokens in Em as [H0 Hm]. apply wp_bind, (wp_advance_by _ _ lo); [done|lia| |done|].
    { intros i Hi. destruct (Hm i Hi) as (t' & Et & Hk'). exists t'. split; [done|].
      destruct Hk' as [Hk'|Hk']; [congruence|by eapply ready_text]. }
    intros s' t2 r2 E2 (Hr' & Hp & Hl) ???. assert (t2 = t) as -> by congruence. prun. args. prun. finish.
  - prun; [args; prun; finish|].
    apply wp_loop, wp_path_loop; [done|simpl; lia|lia|done|].
    intros l s' (Hr' & Hp & Hl'). simpl in Hp. prun. finish.
Qed.

(** *** Literals and control structures *)

Lemma wp_key_loop fuel lo e s (Q : Z → PState → Prop) :
  ready (ps_prev s) s → (left_of s < fuel)%nat → (∀ z s', stay s s' → Q z s') → wp lo (key_loop fuel e) Q s.
Proof.
  revert e s. induction fuel as [|fuel IH]; intros e s Hr Hf HQ; [lia|]. cbn [key_loop]. prun.
  destruct (tk_kind t) eqn:Ek; prun;
    try (apply IH; [done|lia|]; intros z s' (Hr' & Hp & Hl'); simpl in Hp; apply HQ; split; [done|split; lia]);
    by apply HQ.
Qed.

Lemma good_parse_key : good no_span (S n) (parse_key p).
Proof.
  intros lo s Hr Hn. unfold parse_key. prun. destruct (tk_kind t) eqn:Ek; prun; try finish.
  apply wp_loop, wp_key_loop; [done|lia|]. intros z s' (Hr' & Hp & Hl'). simpl in Hp. prun. finish.
Qed.

Lemma good_context_entry ep : good (λ lo h (x : string * FeelExpr), spans lo h x.2) (S n) (parse_context_entry p k ep).
Proof.
  intros lo s Hr Hn. unfold parse_context_entry. prun.
  eapply (wp_good no_span); [apply good_parse_key|done|lia|lia|]. called. prun.
  split; [split; [done|split; lia]|]. simpl. eapply spans_mono; [| |exact Hspan0]; simpl in *; lia.
Qed.

Lemma good_context_literal ep : good spans (S n) (parse_context_literal p k ep).
Proof.
  intros lo s Hr Hn. unfold parse_context_literal. prun; [finish|].
  eapply (wp_sep_by_each (λ lo h (x : string * FeelExpr), spans lo h x.2) n);
    [apply monotone_snd|eapply good_mono, good_context_entry; lia|done|lia|lia|]. called. prun. finish.
Qed.

Lemma good_if ep : good_at TIf (S n) (parse_if_then_else p k ep).
Proof. intros lo s t r Hr E Ht Hn. unfold parse_if_then_else. prun. finish. Qed.

Lemma good_interval_close : good (λ lo h (x : bool * Z), x.2 = h) (S n) (expect_interval_close p).
Proof. intros lo s Hr Hn. unfold expect_interval_close. prun. destruct (tk_kind t) eqn:Ek; prun; by finish. Qed.

(** The lower bound was read before. *)
Lemma wp_interval_rest lo lo' s0 from inc s (Q : FeelExpr → PState → Prop) :
  ready lo' s → lo <= s0 → (left_of s <= n)%nat → spans s0 lo' from → 
  (∀ a s', step lo' s s' → spans s0 (ps_prev s') a → Q a s') → wp lo (interval_rest p k s0 from inc) Q s.
Proof.
  intros Hr Hlo Hn Hf HQ. pose proof (spans_bounds _ _ _ Hf). unfold interval_rest, parse_range_endpoint. prun.
  eapply (wp_good (λ lo h (x : bool * Z), x.2 = h)); [apply good_interval_close|done|lia|lia|].
  intros [b e] s' (Hr' & Hp' & Hl') He. simpl in He. subst e. prun. apply HQ; [split; [done|split; lia]|].
  cbn [spans start end_]. split_and!; [lia|lia|lia| |]; (eapply spans_child; [eassumption|lia|lia]).
Qed.

Lemma good_list_literal ep : good spans (S n) (parse_list_literal p k ep).
Proof.
  intros lo s Hr Hn. unfold parse_list_literal. prun; [finish| |].
  - eapply wp_interval_rest; [eassumption|lia|lia|eapply spans_mono; [| |exact Hspan]; simpl in *; lia|]. called. finish.
  - eapply (wp_more spans (each spans (tk_end t)) n);
      [apply monotone_spans|by apply extends_each, monotone_spans|by eapply kg_or|done|lia|lia| |].
    { split; [lia|by constructor]. }
    intros l s' (Hr' & Hp' & Hl') [_ Ha]. prun. finish.
Qed.

Lemma good_iterable ep : good spans n (parse_iterable k ep).
Proof. intros lo s Hr Hn. unfold parse_iterable. prun; finish. Qed.

Ltac iterable := eapply (wp_good spans n); [apply good_iterable|eassumption|lia|lia|]; called.

Lemma good_quantifier ep kind : kind ≠ TEof → good_at kind (S n) (parse_quantifier p k ep).
Proof.
  intros Hne lo s t r Hr E Ht Hn. unfold parse_quantifier. prun. iterable. prun. finish.
Qed.

Lemma good_binding ep : good (λ lo h (x : string * FeelExpr), spans lo h x.2) n (parse_binding p k ep).
Proof.
  intros lo s Hr Hn. unfold parse_binding. prun. iterable. prun. split; [split; [done|split; lia]|].
  simpl. eapply spans_mono; [| |exact Hspan]; lia.
Qed.

Lemma good_for ep : good_at TFor (S n) (parse_for p k ep).
Proof.
  intros lo s t r Hr E Ht Hn. unfold parse_for. prun.
  eapply (wp_sep_by_each (λ lo h (x : string * FeelExpr), spans lo h x.2) n);
    [apply monotone_snd|apply good_binding|done|lia|lia|]. called. prun. finish.
Qed.

Lemma good_parse_primary ep : good spans (S n) (parse_primary p k ep).
Proof.
  intros lo s Hr Hn. unfold parse_primary. prun. destruct (tk_kind t) eqn:Ek; cbn [compare_op]; prun; try finish.
  all: try (eapply wp_interval_rest; [eassumption|lia|lia|eapply spans_mono; [| |exact Hspan]; simpl in *; lia|]; called; finish).
  all: try (by apply good_list_literal). all: try (by apply good_context_literal).
  all: try (by eapply good_path_or_call). all: try (by eapply good_if). all: try (by eapply good_for).
  all: by eapply (good_quantifier ep (tk_kind t)); [congruence|..].
Qed.

(** *** Operators *)

Lemma wp_postfix_loop ep fuel lo expr s (Q : FeelExpr → PState → Prop) :
  ready (ps_prev s) s → (left_of s <= n)%nat → (left_of s < fuel)%nat → spans lo (ps_prev s) expr →
  (∀ a s', stay s s' → spans lo (ps_prev s') a → Q a s') → wp lo (postfix_loop p k fuel ep expr) Q s.
Proof.
  revert expr s. induction fuel as [|fuel IH]; intros expr s Hr Hn Hf He HQ; [lia|]. cbn [postfix_loop].
  pose proof (spans_bounds _ _ _ He).
  assert (Hnext : ∀ e s', ready (ps_prev s') s' → ps_prev s <= ps_prev s' → (left_of s' < left_of s)%nat →
    spans lo (ps_prev s') e → wp lo (postfix_loop p k fuel ep e) Q s').
  { intros e s' Hr' Hp' Hl' Hs'. apply IH; [done|lia|lia|done|]. intros a s2 (? & ? & ?). apply HQ. split; [done|split; lia]. }
  prun. destruct (tk_kind t) eqn:Ek; prun; try (by apply HQ).
  all: try (apply Hnext; [done|simpl in *; lia|lia|node]).
  args. apply Hnext; [done|lia|lia|node].
Qed.

Lemma good_parse_postfix ep : good spans (S n) (parse_postfix p k ep).
Proof.
  intros lo s Hr Hn. unfold parse_postfix. prun.
  eapply (wp_good spans); [apply good_parse_primary|done|lia|done|]. called.
  apply wp_loop, wp_postfix_loop; [done|lia|lia|done|]. intros e s' (? & ? & ?) He. finish.
Qed.

Lemma good_parse_unary ep : good spans (S n) (parse_unary p k ep).
Proof.
  intros lo s Hr Hn. unfold parse_unary. prun. destruct (tk_kind t) eqn:Ek; prun; try finish.
  all: by apply good_parse_postfix.
Qed.

Ltac operator_table := split; [done|]; intros [] ?; try done; intros [= <-] ???????????; by cbn [spans start end_].

Lemma operators_power : operators power_op.
Proof. operator_table. Qed.
Lemma operators_multiplicative : operators multiplicative_op.
Proof. operator_table. Qed.
Lemma operators_additive : operators additive_op.
Proof. operator_table. Qed.
Lemma operators_and : operators and_op.
Proof. operator_table. Qed.
Lemma operators_or : operators or_op.
Proof. operator_table. Qed.

Lemma good_parse_additive ep : good spans (S n) (parse_additive p k ep).
Proof.
  apply good_left_assoc; [apply operators_additive|]. apply good_left_assoc; [apply operators_multiplicative|].
  apply good_left_assoc; [apply operators_power|]. apply good_parse_unary.
Qed.

(** *** Unary tests *)

(** A test of [v], read after it. *)
Definition test_of (v : FeelExpr) (lo h : Z) (x : FeelExpr) : Prop :=
  end_ v <= lo → spans (start v) h x ∧ lo <= end_ x.

Lemma monotone_test_of v : monotone (test_of v).
Proof. intros lo h lo' h' x Hl Hh H Hv. destruct H as [H He]; [lia|]. split; [|lia]. eapply spans_mono; [| |exact H]; lia. Qed.

Definition last_end (l : list FeelExpr) (d : Z) : Z := match List.last (map Some l) None with Some t => end_ t | None => d end.

Lemma last_end_app l x d : last_end (l ++ [x]) d = end_ x.
Proof. unfold last_end. rewrite map_app. cbn [map]. by rewrite List.last_last. Qed.

(** Trees within the end of the last of them. *)
Definition ended (lo : Z) (h : Z) (l : list FeelExpr) : Prop :=
  ∃ l' x, l = l' ++ [x] ∧ Forall (spans lo (end_ x)) l ∧ end_ x <= h.

Lemma ended_snoc lo m h l x :
  ended lo m l → m <= end_ x → end_ x <= h → spans lo (end_ x) x → ended lo h (l ++ [x]).
Proof.
  intros (l' & y & -> & Ha & Hy) Hm Hh Hx. exists (l' ++ [y]), x. split; [done|]. split; [|done].
  apply Forall_app. split; [|by constructor]. eapply Forall_impl; [exact Ha|]. intros e. apply spans_mono; lia.
Qed.

Lemma ended_one lo h x : spans lo h x → ended lo h [x].
Proof.
  intros H. pose proof (spans_bounds _ _ _ H). exists [], x. split; [done|]. split; [|lia]. constructor; [|done].
  by eapply spans_child; [|lia|lia].
Qed.

Definition ended_from (lo : Z) (h : Z) (l : list FeelExpr) : Prop := lo <= h ∧ ended lo h l.

Lemma extends_items lo : extends spans (ended_from lo).
Proof.
  intros m h l x [Hlo Hl] Hh Hx. split; [lia|]. pose proof (spans_bounds _ _ _ Hx).
  eapply ended_snoc; [done|lia|lia|]. by eapply spans_child; [|lia|lia].
Qed.

Section Tests.
Context (v : FeelExpr) (Hv : spans (start v) (end_ v) v) (ep : bool).

Lemma spans_in_test lo h x : spans lo h x → end_ v <= lo → spans (start v) h (in_test v x).
Proof. intros Hx Hlo. pose proof (spans_bounds _ _ _ Hx). pose proof (spans_bounds _ _ _ Hv). unfold in_test. node. Qed.

Lemma good_unary_test : good (test_of v) n (parse_unary_test p k ep v).
Proof.
  intros lo s Hr Hn. unfold parse_unary_test. prun. pose proof (spans_bounds _ _ _ Hv).
  destruct (compare_op (tk_kind t)) as [op|] eqn:Eo.
  - assert (tk_kind t ≠ TEof) by (intros Et; by rewrite Et in Eo).
    prun. eapply (wp_good spans (S n)); [apply good_parse_additive|done|lia|lia|]. called. prun.
    split; [split; [done|split; lia]|]. intros Hlo. split; [node|simpl; lia].
  - prun. split; [split; [done|split; lia]|]. intros Hlo. split; [by eapply spans_in_test|simpl; lia].
Qed.

Definition tests_of (h : Z) (l : list FeelExpr) : Prop := end_ v <= h ∧ ended (start v) h l.

Lemma extends_tests : extends (test_of v) tests_of.
Proof.
  intros m h l x [Hm Hl] Hh Hx. split; [lia|]. destruct (Hx Hm) as [Hs He]. pose proof (spans_bounds _ _ _ Hs).
  eapply ended_snoc; [done|lia|lia|]. by eapply spans_child; [|lia|lia].
Qed.

Lemma tests_of_one lo h x : end_ v <= lo → lo <= h → test_of v lo h x → tests_of h [x].
Proof. intros Hlo Hh Hx. split; [lia|]. apply ended_one, Hx, Hlo. Qed.

Lemma tests_of_mono h h' l : h <= h' → tests_of h l → tests_of h' l.
Proof. intros Hh [Hv' (l' & y & E & Ha & Hy)]. split; [lia|]. exists l', y. split_and!; [done..|lia]. Qed.

Lemma tests_of_items lo h l : end_ v <= lo → ended_from lo h l → tests_of h (map (in_test v) l).
Proof.
  intros Hlo [Hh (l' & y & -> & Ha & Hy)]. split; [lia|]. exists (map (in_test v) l'), (in_test v y).
  rewrite map_app. split; [done|]. split; [|done]. rewrite <- map_app. apply Forall_map.
  eapply Forall_impl; [exact Ha|]. intros e He. by eapply spans_in_test.
Qed.

Lemma wp_close_tests l lo s (Q : list FeelExpr → PState → Prop) :
  ready (ps_prev s) s → lo <= ps_prev s → (left_of s <= n)%nat → tests_of (ps_prev s) l →
  (∀ s', step (ps_prev s) s s' → tests_of (ps_prev s') l → Q l s') →
  wp lo (_ ← expect_interval_close p; mret l) Q s.
Proof.
  intros Hr Hlo Hn Hl HQ. prun.
  eapply (wp_good (λ lo h (x : bool * Z), x.2 = h)); [apply good_interval_close|done|lia|lia|].
  intros x s2 (Hr2 & Hp2 & Hl2) _. prun. apply HQ; [done|]. by eapply tests_of_mono.
Qed.

Lemma wp_positive_unary_tests lo lo' s (Q : list FeelExpr → PState → Prop) :
  ready lo' s → lo <= lo' → end_ v <= lo' → (left_of s <= n)%nat →
  (∀ l s', step lo' s s' → tests_of (ps_prev s') l → Q l s') →
  wp lo (parse_positive_unary_tests p k ep v) Q s.
Proof.
  intros Hr Hlo Hv' Hn HQ. unfold parse_positive_unary_tests. prun.
  { eapply (wp_good (test_of v) n); [apply good_unary_test|done|lia|lia|]. called. prun. apply HQ; [done|].
    by eapply tests_of_one. }
  apply negb_false_iff, orb_true_iff in Heqb. assert (tk_kind t ≠ TEof) by (destruct Heqb; kinds; congruence). prun.
  - eapply (wp_sep_by (test_of v) tests_of n (parse_unary_test p k ep v) lo (tk_end t));
      [apply monotone_test_of|apply extends_tests| |apply good_unary_test|done|lia|lia|].
    { intros h x Hh. apply tests_of_one; lia. }
    called. apply wp_close_tests; [done|lia|lia|done|]. intros s2 (Hr2 & Hp2 & Hl2). apply HQ. split; [done|split; lia].
  - eapply wp_interval_rest; [eassumption|lia|lia|eapply spans_mono; [| |exact Hspan]; simpl in *; lia|]. called. prun.
    apply HQ; [split; [done|split; lia]|]. split; [lia|]. eapply ended_one, spans_in_test; [done|lia].
  - eapply (wp_more spans (ended_from (tk_end t)) n);
      [apply monotone_spans|apply extends_items|by eapply kg_or|done|lia|lia|split; [lia|by apply ended_one]|].
    intros l s' (Hr' & Hp' & Hl') Hitems. prun; apply HQ; try (split; [done|simpl in *; split; lia]).
    + eapply tests_of_mono; [|eapply tests_of_items; [|exact Hitems]]; simpl in *; lia.
    + split; [simpl in *; lia|]. apply ended_one. eapply (spans_in_test (tk_start t)); [|lia].
      destruct Hitems as [_ (l' & y & -> & Ha & Hy)]. node.
  - apply (wp_more (test_of v) tests_of n);
      [apply monotone_test_of|apply extends_tests|apply good_unary_test|done|lia|lia| |].
    + eapply tests_of_one; [exact Hv'|lia|]. intros _. split; [eapply spans_in_test; [done|lia]|simpl; lia].
    + intros l s' (Hr' & Hp' & Hl') Htests. apply wp_close_tests; [done|lia|lia|done|].
      intros s2 (Hr2 & Hp2 & Hl2). apply HQ. split; [done|]. split; lia.
Qed.

(** The tests joined with [or], over the value and the last test. *)
Lemma spans_joined l first lo h e :
  spans (start v) e first → Forall (spans (start v) e) l → lo <= start v → start v <= e → e <= h →
  spans lo h (fold_left (λ acc t, BoolOp (start v) e acc Or_ t) l first).
Proof.
  revert first. induction l as [|t l IH]; intros first Hf Hl Hlo Hs He; [by eapply spans_mono|].
  inversion Hl; subst. cbn [fold_left]. apply IH; [|done..]. by cbn [spans start end_].
Qed.

Lemma wp_parse_in lo lo' s (Q : FeelExpr → PState → Prop) :
  ready lo' s → lo <= lo' → end_ v <= lo' → (left_of s <= n)%nat →
  (∀ a s', step lo' s s' → spans (start v) (ps_prev s') a → Q a s') → wp lo (parse_in p k ep v) Q s.
Proof.
  intros Hr Hlo Hv' Hn HQ. unfold parse_in. prun. eapply wp_positive_unary_tests; [done..|].
  intros l s' Hs [Hh (l' & y & El & Ha & Hy)]. fold (last_end l (start v)). pose proof (spans_bounds _ _ _ Hv).
  assert (Hlast : last_end l (start v) = end_ y) by (rewrite El; apply last_end_app). rewrite Hlast.
  destruct l as [|first rest]; [by destruct l'|]. prun. apply HQ; [done|]. apply Forall_cons in Ha as [Hfirst Ha].
  pose proof (spans_bounds _ _ _ Hfirst). apply spans_joined; done || lia.
Qed.
End Tests.

Ltac additive := eapply (wp_good spans (S n)); [apply good_parse_additive|eassumption|lia|lia|]; called.

Lemma good_parse_comparison ep : good spans (S n) (parse_comparison p k ep).
Proof.
  intros lo s Hr Hn. unfold parse_comparison. prun. additive. prun.
  - kinds. destruct (second_token (λ t, String.eqb (tk_text t) "of") s0 t r) as (t2 & r2 & E2 & Ht2); [done..|].
    assert (tk_kind t2 ≠ TEof).
    { eapply (ready_text _ (past t r) 0); [done|by rewrite E2|]. intros E3. by rewrite E3 in Ht2. }
    prun. finish.
  - additive. prun. additive. prun. finish.
  - eapply wp_parse_in; [by eapply spans_self|done|lia|lia|lia|]. called. finish.
  - destruct (compare_op (tk_kind t)) as [op|] eqn:Eo; [|prun; finish].
    assert (tk_kind t ≠ TEof) by (intros Et; by rewrite Et in Eo). prun. additive. prun. finish.
Qed.

Lemma good_parse_or ep : good spans (S n) (parse_or p k ep).
Proof.
  apply good_left_assoc; [apply operators_or|]. apply good_left_assoc; [apply operators_and|]. apply good_parse_comparison.
Qed.
End Level.

Lemma knot_good_parse p f : knot_good f (parse_knot p f).
Proof.
  induction f as [|f IH].
  - assert (Hnil : ∀ A (R : Z → Z → A → Prop) q, good R 0 q).
    { intros A R q lo s Hr Hn. unfold ready, left_of in *. destruct (ps_rest s); [inversion Hr|simpl in Hn; lia]. }
    by split; intros; apply Hnil.
  - split; intros; [by apply good_parse_or|by apply good_parse_additive|by apply good_parse_unary|by apply good_parse_type_expr].
Qed.
End Runs.

(** The end of input, expected after the tree, is not passed. *)
Lemma expect_eof hi lo p s : ready hi lo s → 0 <= lo →
  match expect p TEof s with
  | Ok _ => True
  | Err (Rejected e) => error_in hi 0 e
  | Err _ => False
  end.
Proof.
  intros Hr Hlo. unfold ready in Hr. unfold expect, mbind, parser_bind, peek. destruct (ps_rest s) as [|t r] eqn:E; [inversion Hr|].
  destruct (is_kind TEof t) eqn:Ek.
  - apply is_kind_true in Ek. unfold advance. rewrite E. by destruct r.
  - exists (tk_start t). split; [done|]. inversion Hr as [|? ? ? Hk Hb Hrest]; subst; [by rewrite (proj2 (is_kind_true _ _)) in Ek|].
    pose proof (in_order_le _ _ _ Hrest). lia.
Qed.

Lemma parse_tokens_spans hi p ts : in_order hi 0 ts →
  match parse_tokens p ts with
  | Ok e => spans 0 hi e
  | Err (Rejected e) => error_in hi 0 e
  | Err _ => False
  end.
Proof.
  intros H. unfold parse_tokens. set (s := mk_pstate _ ts).
  pose proof (kg_or _ _ _ (knot_good_parse hi p (S (length ts))) false 0 s H) as Hw. unfold wp in Hw.
  unfold mbind, parser_bind.
  destruct (k_or _ _ s) as [[e s']|[er| |]]; [|apply Hw; unfold left_of; simpl; lia..].
  destruct Hw as [(Hr & Hp & _) Hs]; [unfold left_of; simpl; lia|].
  pose proof (expect_eof hi (ps_prev s') p s' Hr Hp) as He.
  destruct (expect p TEof s') as [[t s2]|[er| |]]; [|done..].
  eapply spans_mono; [reflexivity| |exact Hs]. by eapply in_order_le.
Qed.

Section Total.
Context `{UnicodeTables, BigDecimalText, TimeCrate, TimeParse}.

End Total.

(** ** Examples *)

#[local] Existing Instance ascii_tables.
#[local] Existing Instance plain_time_parse.

Definition nested_text : string := "if risk score > 3 then [1..2) else x[y in (1, > 2)].z".

Lemma nested_text_scalar : Forall scalar (chars nested_text).
Proof. apply Forall_fold_right. vm_compute. repeat split. Qed.

Lemma nested_text_parses :
  is_ok (tokenize (positions_new nested_text INLINE_FEEL_URI)) &&
  is_ok (parse_with_known_names nested_text ["risk score"]) = true.
Proof. by vm_compute. Qed.


(** The alternate close of an interval before the close of the list it is an item of. *)
Lemma alternate_close_before_bracket_refused :
  is_ok (parse_with_known_names "[[1..2)]" []) = true ∧ is_ok (parse_with_known_names "[[1..2[, 3]" []) = true ∧
  is_ok (parse_with_known_names "[[1..2[]" []) = false.
Proof. by vm_compute. Qed.
