(* ===== verification/FeelOps.v ===== *)
(** * FEEL values: operations of the evaluator ([sutra-feel/src/evaluator.rs], the functions
    beside [impl Evaluator])

    Equality, ordering, membership, interval relations, field access, type tests, temporal
    and numeric helpers, and the rewriting of regular expressions.  What the source takes
    from third-party crates is an interface: decimals beyond exact arithmetic
    ([DecimalCrate]), the calendar and the checked durations of the [time] crate
    ([Calendar]), and doubles with the functions the platform computes on them ([Doubles]).
    A text is its UTF-8 bytes; where the source walks characters it is the list of its code
    points.  [i32] and [i64] arithmetic wraps, as in the release profile; a duration that
    does not fit panics.

    The theorems on these operations are in [FeelLaws]. *)
From Stdlib Require Import ZArith Lia Bool Ascii String.
From stdpp Require Import base option strings list.
From S2P Require Import Prelude Texts Decimal FeelValue Temporal FeelText TemporalParse FeelLexer.

Open Scope string_scope.
Open Scope list_scope.
Open Scope Z_scope.

(** ** Third-party code *)

Inductive RoundingMode : Type := Ceiling | Floor | Up | Down | HalfUp | HalfDown | HalfEven.

(** [cmp] (and [==], which agrees with it), [is_integer], [to_i64], [with_scale_round],
    [sqrt] and [normalized]. *)
Class DecimalCrate : Type := {
  bd_cmp : BigDecimal → BigDecimal → comparison;
  bd_is_integer : BigDecimal → bool;
  bd_to_i64 : BigDecimal → option Z;
  bd_with_scale_round : BigDecimal → Z → RoundingMode → BigDecimal;
  bd_sqrt : BigDecimal → option BigDecimal;
  bd_normalized : BigDecimal → BigDecimal
}.

(** Dates as Julian days and in the week; a clock time, a date with a time and an instant
    shifted by nanoseconds; [+], [-] and the negation of durations, which panic when the
    result does not fit. *)
Class Calendar : Type := {
  to_julian_day : Date → Z;
  from_julian_day : Z → option Date;
  number_from_monday : Date → Z;
  weekday_text : Z → string;
  month_text : Z → string;
  ordinal : Date → Z;
  iso_week_of : Date → Z;
  is_leap_year : Z → bool;
  time_from_hms_nano : Z → Z → Z → Z → option Time;
  utc_offset_from_seconds : Z → option Z;
  time_shift : Time → Z → Time;
  pdt_checked_add : Date * Time → Z → option (Date * Time);
  pdt_checked_sub : Date * Time → Z → option (Date * Time);
  odt_checked_add : OffsetDateTime → Z → option OffsetDateTime;
  odt_replace_date : OffsetDateTime → Date → OffsetDateTime;
  assume_offset : Date * Time → Z → OffsetDateTime;
  duration_add : Z → Z → option Z;
  duration_sub : Z → Z → option Z;
  duration_neg : Z → option Z;
  duration_abs : Z → Z
}.

(** Doubles: [BigDecimal::to_f64], the sum of an iterator, [-], [*], [/], [powi(2)], [sqrt], [exp],
    [ln], [powf], [as f64] and the shortest text of a double. *)
Class Doubles : Type := {
  double : Type;
  bd_to_f64 : BigDecimal → option double;
  is_finite : double → bool;
  is_positive : double → bool;
  f_exp : double → double;
  f_ln : double → double;
  f_powf : double → double → double;
  f_sum : list double → double;
  f_sub : double → double → double;
  f_mul : double → double → double;
  f_div : double → double → double;
  f_square : double → double;
  f_sqrt : double → double;
  f_of_int : Z → double;
  f_display : double → string
}.

(** ** Results *)

Definition res : Type → Type := result (fault FeelError).

Definition reject {A} (e : FeelError) : res A := Err (Rejected e).

(** A value of a third-party operation that panics without one. *)
Definition or_panic {A} (o : option A) : res A := match o with Some a => Ok a | None => Err Panicked end.

Definition int (n : Z) : BigDecimal := mk_decimal n 0.
Definition num (n : Z) : FeelValue := Number (int n).

Definition is_zero (n : BigDecimal) : bool := mantissa n =? 0.
Definition is_negative (n : BigDecimal) : bool := mantissa n <? 0.
Definition bd_neg (n : BigDecimal) : BigDecimal := mk_decimal (- mantissa n) (scale n).
Definition bd_abs (n : BigDecimal) : BigDecimal := mk_decimal (Z.abs (mantissa n)) (scale n).

Definition in_range (lo hi x : Z) : option Z := if (lo <=? x) && (x <=? hi) then Some x else None.
Definition to_u8 : Z → option Z := in_range 0 255.
Definition to_i32 : Z → option Z := in_range (-2147483648) 2147483647.

(** [vec[i]] at an index known to be in range. *)
Definition nth_value (l : list FeelValue) (i : Z) : FeelValue := nth (Z.to_nat i) l Null.

(** ** Structural equality: the derived [PartialEq] *)

Definition list_eqb {A} (eqb : A → A → bool) : list A → list A → bool :=
  fix go l l' := match l, l' with
    | [], [] => true
    | x :: l, y :: l' => eqb x y && go l l'
    | _, _ => false
    end.

Definition option_eqb {A} (eqb : A → A → bool) (a b : option A) : bool :=
  match a, b with Some x, Some y => eqb x y | None, None => true | _, _ => false end.

Definition compare_op_eqb (a b : CompareOp) : bool :=
  match a, b with
  | Eq_, Eq_ | Neq, Neq | Lt_, Lt_ | Le_, Le_ | Gt_, Gt_ | Ge_, Ge_ => true
  | _, _ => false
  end.
Definition logical_op_eqb (a b : LogicalOp) : bool := match a, b with And_, And_ | Or_, Or_ => true | _, _ => false end.
Definition arith_op_eqb (a b : ArithOp) : bool :=
  match a, b with Plus, Plus | Minus, Minus | Times, Times | Div_, Div_ | Pow_, Pow_ => true | _, _ => false end.

Definition date_cmp (a b : Date) : comparison :=
  match Z.compare (date_year a) (date_year b) with
  | Eq => match Z.compare (date_month a) (date_month b) with Eq => Z.compare (date_day a) (date_day b) | c => c end
  | c => c
  end.

Definition time_cmp (a b : Time) : comparison :=
  match Z.compare (hour a) (hour b) with
  | Eq =>
      match Z.compare (minute a) (minute b) with
      | Eq => match Z.compare (second a) (second b) with Eq => Z.compare (nanosecond a) (nanosecond b) | c => c end
      | c => c
      end
  | c => c
  end.

Definition is_eq (c : comparison) : bool := match c with Eq => true | _ => false end.

Definition duration_eqb (a b : FeelDuration) : bool :=
  match a, b with
  | YearsMonths x, YearsMonths y | DaysTime x, DaysTime y => x =? y
  | _, _ => false
  end.

Definition binding_eqb (a b : ExternalFunctionBinding) : bool :=
  match a, b with
  | Java c m, Java c' m' => String.eqb c c' && String.eqb m m'
  | Pmml d m, Pmml d' m' => String.eqb d d' && option_eqb String.eqb m m'
  | MalformedBinding d, MalformedBinding d' => String.eqb d d'
  | _, _ => false
  end.

Fixpoint shape_eqb (a b : FeelTypeShape) : bool :=
  match a, b with
  | ShapeAny, ShapeAny => true
  | ShapeBase x, ShapeBase y => String.eqb x y
  | ShapeCollection x, ShapeCollection y | ShapeRange x, ShapeRange y => shape_eqb x y
  | ShapeRecord l, ShapeRecord l' => list_eqb (λ p q, String.eqb p.1 q.1 && shape_eqb p.2 q.2) l l'
  | _, _ => false
  end.

Section Equality.
Context `{DecimalCrate}.

Fixpoint expr_eqb (a b : FeelExpr) {struct a} : bool :=
  (start a =? start b) && (end_ a =? end_ b) &&
  match a, b with
  | Literal _ _ v, Literal _ _ w => value_eqb v w
  | Path _ _ l, Path _ _ l' => list_eqb String.eqb l l'
  | Compare _ _ l o r, Compare _ _ l' o' r' => expr_eqb l l' && compare_op_eqb o o' && expr_eqb r r'
  | BoolOp _ _ l o r, BoolOp _ _ l' o' r' => expr_eqb l l' && logical_op_eqb o o' && expr_eqb r r'
  | Not _ _ e, Not _ _ e' | Negate _ _ e, Negate _ _ e' => expr_eqb e e'
  | Arith _ _ l o r, Arith _ _ l' o' r' => expr_eqb l l' && arith_op_eqb o o' && expr_eqb r r'
  | Call _ _ f l ns, Call _ _ f' l' ns' =>
      String.eqb f f' && list_eqb expr_eqb l l' && list_eqb (option_eqb String.eqb) ns ns'
  | FunctionDef _ _ ps ss ex e, FunctionDef _ _ ps' ss' ex' e' =>
      list_eqb String.eqb ps ps' && list_eqb shape_eqb ss ss' && Bool.eqb ex ex' && expr_eqb e e'
  | IfThenElse _ _ c t o, IfThenElse _ _ c' t' o' => expr_eqb c c' && expr_eqb t t' && expr_eqb o o'
  | ListLit _ _ l, ListLit _ _ l' => list_eqb expr_eqb l l'
  | ContextLit _ _ l, ContextLit _ _ l' => list_eqb (λ p q, String.eqb p.1 q.1 && expr_eqb p.2 q.2) l l'
  | RangeLit _ _ f t fi ti br, RangeLit _ _ f' t' fi' ti' br' =>
      expr_eqb f f' && expr_eqb t t' && Bool.eqb fi fi' && Bool.eqb ti ti' && Bool.eqb br br'
  | Quantifier _ _ ev x s c, Quantifier _ _ ev' x' s' c' =>
      Bool.eqb ev ev' && String.eqb x x' && expr_eqb s s' && expr_eqb c c'
  | For _ _ l e, For _ _ l' e' => list_eqb (λ p q, String.eqb p.1 q.1 && expr_eqb p.2 q.2) l l' && expr_eqb e e'
  | Filter _ _ s f, Filter _ _ s' f' => expr_eqb s s' && expr_eqb f f'
  | FieldAccess _ _ e f, FieldAccess _ _ e' f' => expr_eqb e e' && String.eqb f f'
  | InstanceOf _ _ e s, InstanceOf _ _ e' s' => expr_eqb e e' && shape_eqb s s'
  | In_ _ _ v t, In_ _ _ v' t' => expr_eqb v v' && expr_eqb t t'
  | Invoke _ _ c l ns, Invoke _ _ c' l' ns' =>
      expr_eqb c c' && list_eqb expr_eqb l l' && list_eqb (option_eqb String.eqb) ns ns'
  | OpenRange _ _ o e, OpenRange _ _ o' e' => compare_op_eqb o o' && expr_eqb e e'
  | _, _ => false
  end
with value_eqb (a b : FeelValue) {struct a} : bool :=
  match a, b with
  | Null, Null => true
  | Boolean x, Boolean y => Bool.eqb x y
  | Number x, Number y => is_eq (bd_cmp x y)
  | Str x, Str y => String.eqb x y
  | Instant x q, Instant y r => (unix_nanos x =? unix_nanos y) && option_eqb qualifier_eqb q r
  | DateV x, DateV y => is_eq (date_cmp x y)
  | TimeV x q, TimeV y r => is_eq (time_cmp x y) && option_eqb qualifier_eqb q r
  | Duration x, Duration y => duration_eqb x y
  | List l, List l' => list_eqb value_eqb l l'
  | Map m, Map m' => list_eqb (λ p q, String.eqb p.1 q.1 && value_eqb p.2 q.2) m m'
  | Function f, Function g => function_eqb f g
  | Range r, Range s => range_eqb r s
  | Invocable id _ _ _, Invocable id' _ _ _ => String.eqb id id'
  | _, _ => false
  end
with function_eqb (a b : FeelFunction) {struct a} : bool :=
  match a, b with
  | mk_function ps e c ss rs x, mk_function ps' e' c' ss' rs' x' =>
      list_eqb String.eqb ps ps' && expr_eqb e e'
        && list_eqb (λ p q, String.eqb p.1 q.1 && value_eqb p.2 q.2) c c'
        && list_eqb shape_eqb ss ss' && shape_eqb rs rs' && option_eqb binding_eqb x x'
  end
with range_eqb (a b : FeelRange) {struct a} : bool :=
  match a, b with
  | mk_range s e si ei o, mk_range s' e' si' ei' o' =>
      value_eqb s s' && value_eqb e e' && Bool.eqb si si' && Bool.eqb ei ei' && option_eqb compare_op_eqb o o'
  end.
End Equality.

(** ** Ordering, equality and membership *)

Section Compare.
Context `{DecimalCrate}.

Definition feel_cmp (a b : FeelValue) : option comparison :=
  match a, b with
  | Number x, Number y => Some (bd_cmp x y)
  | Str x, Str y => Some (String.compare x y)
  | DateV x, DateV y => Some (date_cmp x y)
  | TimeV x _, TimeV y _ => Some (time_cmp x y)
  | Instant x _, Instant y _ => Some (Z.compare (unix_nanos x) (unix_nanos y))
  | Duration (DaysTime x), Duration (DaysTime y) => Some (Z.compare x y)
  | Duration (YearsMonths x), Duration (YearsMonths y) => Some (Z.compare x y)
  | _, _ => None
  end.

(** FEEL equality: [None] is [null]. *)
Definition equals_feel (a b : FeelValue) : option bool :=
  match a, b with
  | Null, Null => Some true
  | Null, _ | _, Null => Some false
  | Instant x _, Instant y _ => Some (unix_nanos x / NANOS =? unix_nanos y / NANOS)
  | TimeV x _, TimeV y _ => Some ((hour x =? hour y) && (minute x =? minute y) && (second x =? second y))
  | Number _, Number _ | Str _, Str _ | Boolean _, Boolean _ | DateV _, DateV _ | List _, List _ | Map _, Map _
  | Range _, Range _ | Function _, Function _ => Some (value_eqb a b)
  | Duration x, Duration y =>
      match x, y with
      | YearsMonths _, YearsMonths _ | DaysTime _, DaysTime _ => Some (value_eqb a b)
      | _, _ => None
      end
  | _, _ => None
  end.

Definition tri (o : FeelValue) : option bool := match o with Boolean b => Some b | _ => None end.

(** [Some b] as a boolean, [None] as [null]. *)
Definition of_tri (o : option bool) : FeelValue := match o with Some b => Boolean b | None => Null end.

Definition from_some (d : bool) (o : option bool) : bool := match o with Some b => b | None => d end.

Definition range_contains (r : FeelRange) (x : FeelValue) : option bool :=
  let 'mk_range s e si ei op := r in
  if is_null x then None
  else
    match op with
    | Some Lt_ => Some (match feel_cmp x e with Some Lt => true | _ => false end)
    | Some Le_ => Some (match feel_cmp x e with Some Lt | Some Eq => true | _ => false end)
    | Some Gt_ => Some (match feel_cmp x s with Some Gt => true | _ => false end)
    | Some Ge_ => Some (match feel_cmp x s with Some Gt | Some Eq => true | _ => false end)
    | Some Eq_ => Some (from_some false (equals_feel x s))
    | Some Neq => Some (negb (from_some true (equals_feel x s)))
    | None =>
        lower ← feel_cmp x s;
        upper ← feel_cmp x e;
        Some (match lower with Gt => true | Eq => si | Lt => false end
              && match upper with Lt => true | Eq => ei | Gt => false end)
    end.

Definition open_range_value (op : CompareOp) (bound : FeelValue) : FeelRange :=
  match op with
  | Lt_ => mk_range Null bound false false (Some op)
  | Le_ => mk_range Null bound false true (Some op)
  | Gt_ => mk_range bound Null false false (Some op)
  | Ge_ => mk_range bound Null true false (Some op)
  | Eq_ | Neq => mk_range bound bound true true (Some op)
  end.

(** ** Interval relations *)

(** A point, or a range: its ends and whether each is in it. *)
Inductive IntervalRelationArg : Type :=
| PointArg (v : FeelValue)
| RangeArg (s e : FeelValue) (si ei : bool).

Definition classify (v : FeelValue) : option IntervalRelationArg :=
  match v with
  | Range (mk_range s e si ei _) => Some (RangeArg s e si ei)
  | _ => match feel_cmp v v with Some _ => Some (PointArg v) | None => None end
  end.

Definition endpoints (a : IntervalRelationArg) : list FeelValue :=
  match a with PointArg p => [p] | RangeArg s e _ _ => [s; e] end.

(** [for pair in endpoints.windows(2)]. *)
Fixpoint chained (l : list FeelValue) : bool :=
  match l with
  | x :: (y :: _) as r => is_some (feel_cmp x y) && chained r
  | _ => true
  end.

Definition lt_ (x y : FeelValue) : bool := match feel_cmp x y with Some Lt => true | _ => false end.
Definition gt_ (x y : FeelValue) : bool := match feel_cmp x y with Some Gt => true | _ => false end.
Definition eq_ (x y : FeelValue) : bool := match feel_cmp x y with Some Eq => true | _ => false end.

Definition before (a b : IntervalRelationArg) : option bool :=
  match a, b with
  | PointArg p1, PointArg p2 => Some (lt_ p1 p2)
  | PointArg p, RangeArg s e si ei => Some (lt_ p s || (eq_ p s && negb si))
  | RangeArg s e si ei, PointArg p => Some (lt_ e p || (eq_ e p && negb ei))
  | RangeArg s1 e1 si1 ei1, RangeArg s2 e2 si2 ei2 => Some (lt_ e1 s2 || (eq_ e1 s2 && (negb ei1 || negb si2)))
  end.

Definition after (a b : IntervalRelationArg) : option bool :=
  match a, b with
  | PointArg p1, PointArg p2 => Some (gt_ p1 p2)
  | PointArg p, RangeArg s e si ei => Some (gt_ p e || (eq_ p e && negb ei))
  | RangeArg s e si ei, PointArg p => Some (gt_ s p || (eq_ s p && negb si))
  | RangeArg s1 e1 si1 ei1, RangeArg s2 e2 si2 ei2 => Some (gt_ s1 e2 || (eq_ s1 e2 && (negb si1 || negb ei2)))
  end.

Definition meets (a b : IntervalRelationArg) : option bool :=
  match a, b with
  | RangeArg s1 e1 si1 ei1, RangeArg s2 e2 si2 ei2 => Some (ei1 && si2 && eq_ e1 s2)
  | _, _ => None
  end.

Definition met_by (a b : IntervalRelationArg) : option bool :=
  match a, b with
  | RangeArg s1 e1 si1 ei1, RangeArg s2 e2 si2 ei2 => Some (si1 && ei2 && eq_ s1 e2)
  | _, _ => None
  end.

Definition overlaps (a b : IntervalRelationArg) : option bool :=
  match a, b with
  | RangeArg s1 e1 si1 ei1, RangeArg s2 e2 si2 ei2 =>
      Some ((gt_ e1 s2 || (eq_ e1 s2 && ei1 && si2)) && (lt_ s1 e2 || (eq_ s1 e2 && si1 && ei2)))
  | _, _ => None
  end.

Definition overlaps_before (a b : IntervalRelationArg) : option bool :=
  match a, b with
  | RangeArg s1 e1 si1 ei1, RangeArg s2 e2 si2 ei2 =>
      Some ((lt_ s1 s2 || (eq_ s1 s2 && si1 && negb si2)) && (gt_ e1 s2 || (eq_ e1 s2 && ei1 && si2))
            && (lt_ e1 e2 || (eq_ e1 e2 && (negb ei1 || ei2))))
  | _, _ => None
  end.

Definition overlaps_after (a b : IntervalRelationArg) : option bool :=
  match a, b with
  | RangeArg s1 e1 si1 ei1, RangeArg s2 e2 si2 ei2 =>
      Some ((lt_ s2 s1 || (eq_ s2 s1 && si2 && negb si1)) && (gt_ e2 s1 || (eq_ e2 s1 && ei2 && si1))
            && (lt_ e2 e1 || (eq_ e2 e1 && (negb ei2 || ei1))))
  | _, _ => None
  end.

Definition finishes (a b : IntervalRelationArg) : option bool :=
  match a, b with
  | PointArg p, RangeArg s e si ei => Some (ei && eq_ e p)
  | RangeArg s1 e1 si1 ei1, RangeArg s2 e2 si2 ei2 =>
      Some (Bool.eqb ei1 ei2 && eq_ e1 e2 && (gt_ s1 s2 || (eq_ s1 s2 && (negb si1 || si2))))
  | _, _ => None
  end.

Definition finished_by (a b : IntervalRelationArg) : option bool :=
  match a, b with
  | RangeArg s e si ei, PointArg p => Some (ei && eq_ e p)
  | RangeArg s1 e1 si1 ei1, RangeArg s2 e2 si2 ei2 =>
      Some (Bool.eqb ei1 ei2 && eq_ e1 e2 && (lt_ s1 s2 || (eq_ s1 s2 && (si1 || negb si2))))
  | _, _ => None
  end.

Definition includes (a b : IntervalRelationArg) : option bool :=
  match a, b with
  | RangeArg s e si ei, PointArg p => Some ((lt_ s p && gt_ e p) || (eq_ s p && si) || (eq_ e p && ei))
  | RangeArg s1 e1 si1 ei1, RangeArg s2 e2 si2 ei2 =>
      Some ((lt_ s1 s2 || (eq_ s1 s2 && (si1 || negb si2))) && (gt_ e1 e2 || (eq_ e1 e2 && (ei1 || negb ei2))))
  | _, _ => None
  end.

Definition during (a b : IntervalRelationArg) : option bool :=
  match a, b with
  | PointArg p, RangeArg s e si ei => Some ((lt_ s p && gt_ e p) || (eq_ s p && si) || (eq_ e p && ei))
  | RangeArg s1 e1 si1 ei1, RangeArg s2 e2 si2 ei2 =>
      Some ((lt_ s2 s1 || (eq_ s2 s1 && (si2 || negb si1))) && (gt_ e2 e1 || (eq_ e2 e1 && (ei2 || negb ei1))))
  | _, _ => None
  end.

Definition starts (a b : IntervalRelationArg) : option bool :=
  match a, b with
  | PointArg p, RangeArg s e si ei => Some (eq_ s p && si)
  | RangeArg s1 e1 si1 ei1, RangeArg s2 e2 si2 ei2 =>
      Some (eq_ s1 s2 && Bool.eqb si1 si2 && (lt_ e1 e2 || (eq_ e1 e2 && (negb ei1 || ei2))))
  | _, _ => None
  end.

Definition started_by (a b : IntervalRelationArg) : option bool :=
  match a, b with
  | RangeArg s e si ei, PointArg p => Some (eq_ s p && si)
  | RangeArg s1 e1 si1 ei1, RangeArg s2 e2 si2 ei2 =>
      Some (eq_ s1 s2 && Bool.eqb si1 si2 && (lt_ e2 e1 || (eq_ e2 e1 && (negb ei2 || ei1))))
  | _, _ => None
  end.

Definition coincides (a b : IntervalRelationArg) : option bool :=
  match a, b with
  | PointArg p1, PointArg p2 => Some (eq_ p1 p2)
  | RangeArg s1 e1 si1 ei1, RangeArg s2 e2 si2 ei2 =>
      Some (eq_ s1 s2 && Bool.eqb si1 si2 && eq_ e1 e2 && Bool.eqb ei1 ei2)
  | _, _ => None
  end.

(** The relations by their builtin names. *)
Definition RELATIONS : list (string * (IntervalRelationArg → IntervalRelationArg → option bool)) :=
  [("before", before); ("after", after); ("meets", meets); ("metBy", met_by); ("overlaps", overlaps);
   ("overlapsBefore", overlaps_before); ("overlapsAfter", overlaps_after); ("finishes", finishes);
   ("finishedBy", finished_by); ("includes", includes); ("during", during); ("starts", starts);
   ("startedBy", started_by); ("coincides", coincides)].

Definition interval_relation (name : string) (a b : FeelValue) : option bool :=
  a ← classify a;
  b ← classify b;
  if chained (endpoints a ++ endpoints b) then
    rel ← map_get name RELATIONS;
    rel a b
  else None.
End Compare.

(** ** Fields, paths and type tests *)

Section Fields.
Context `{Calendar, TimeText}.

Definition pick (field : string) (l : list (string * FeelValue)) : FeelValue :=
  match map_get field l with Some v => v | None => Null end.

Definition duration_of_seconds (s : Z) : FeelValue := Duration (DaysTime (s * NANOS)).

Definition qualifier_offset_duration (q : option TimeQualifier) : FeelValue :=
  match q with
  | None | Some (Zone _) => Null
  | Some Zulu => Duration (DaysTime 0)
  | Some (Offset o) => duration_of_seconds o
  end.

Fixpoint field_access (v : FeelValue) (field : string) : FeelValue :=
  match v with
  | Map m => pick field m
  | List xs => List (map (λ e, field_access e field) xs)
  | DateV d =>
      pick field [("year", num (date_year d)); ("month", num (date_month d)); ("day", num (date_day d));
                  ("weekday", num (number_from_monday d))]
  | Instant t q =>
      let d := odt_date t in
      let s := second_of_day t in
      pick field [("year", num (date_year d)); ("month", num (date_month d)); ("day", num (date_day d));
                  ("weekday", num (number_from_monday d)); ("hour", num (s / 3600));
                  ("minute", num (s mod 3600 / 60)); ("second", num (s mod 60));
                  ("time offset", match q with Some _ => duration_of_seconds (odt_offset t) | None => Null end);
                  ("timezone", match q with Some (Zone name) => Str name | _ => Null end)]
  | TimeV t q =>
      pick field [("hour", num (hour t)); ("minute", num (minute t)); ("second", num (second t));
                  ("time offset", qualifier_offset_duration q)]
  | Duration (YearsMonths m) => pick field [("years", num (Z.quot m 12)); ("months", num (Z.rem m 12))]
  | Duration (DaysTime d) =>
      let total := Z.quot d NANOS in
      let mag := wrap64 (Z.abs total) in
      let signed x := if total <? 0 then wrap64 (- x) else x in
      pick field [("days", num (signed (Z.quot mag 86400))); ("hours", num (signed (Z.quot (Z.rem mag 86400) 3600)));
                  ("minutes", num (signed (Z.quot (Z.rem mag 3600) 60))); ("seconds", num (signed (Z.rem mag 60)))]
  | Range (mk_range s e si ei _) =>
      pick field [("start", s); ("end", e); ("start included", Boolean si); ("end included", Boolean ei)]
  | _ => Null
  end.

(** [&segments[0]] panics on a path without segments. *)
Definition resolve_path (segments : list string) (ctx : FeelContext) : res FeelValue :=
  match segments with
  | [] => Err Panicked
  | s :: rest =>
      Ok (match map_get s ctx with Some v => fold_left field_access rest v | None => Null end)
  end.
End Fields.

(** [true] for every element, stopping at the first that is not. *)
Definition all_m {A} (f : A → res bool) : list A → res bool :=
  fix go l := match l with
    | [] => Ok true
    | x :: l => match f x with Ok true => go l | r => r end
    end.

Definition base_type (v : FeelValue) (name : string) : option bool :=
  map_get name
    [("number", match v with Number _ => true | _ => false end); ("string", match v with Str _ => true | _ => false end);
     ("boolean", match v with Boolean _ => true | _ => false end); ("date", match v with DateV _ => true | _ => false end);
     ("time", match v with TimeV _ _ => true | _ => false end);
     ("date and time", match v with Instant _ _ => true | _ => false end);
     ("days and time duration", match v with Duration (DaysTime _) => true | _ => false end);
     ("years and months duration", match v with Duration (YearsMonths _) => true | _ => false end);
     ("duration", match v with Duration _ => true | _ => false end); ("list", match v with List _ => true | _ => false end);
     ("context", match v with Map _ => true | _ => false end);
     ("function", match v with Function _ | Invocable _ _ _ _ => true | _ => false end);
     ("range", match v with Range _ => true | _ => false end); ("Any", negb (is_null v)); ("any", negb (is_null v));
     ("null", is_null v)].

(** A type test, with the test of a name that is no base type. *)
Fixpoint shape_test (custom : string → FeelValue → res bool) (shape : FeelTypeShape) (v : FeelValue) : res bool :=
  let or_null sh x := if is_null x then Ok true else shape_test custom sh x in
  match shape with
  | ShapeAny => Ok (negb (is_null v))
  | ShapeBase name => match base_type v name with Some b => Ok b | None => custom name v end
  | ShapeCollection elem => match v with List items => all_m (or_null elem) items | _ => Ok false end
  | ShapeRecord components =>
      match v with
      | Map m => all_m (λ c, match map_get c.1 m with Some x => if is_null x then Ok true else shape_test custom c.2 x
                             | None => Ok false end) components
      | _ => Ok false
      end
  | ShapeRange elem =>
      match v with
      | Range (mk_range s e _ _ _) => match or_null elem s with Ok true => or_null elem e | r => r end
      | _ => Ok false
      end
  end.

Definition TypeResolver : Type := string → option FeelTypeShape.

(** A name is looked up and its shape tested, as often as names refer to names. *)
Fixpoint named_test (resolve_named : option TypeResolver) (fuel : nat) (name : string) (v : FeelValue) : res bool :=
  match (f ← resolve_named; f name), fuel with
  | None, _ => Ok false
  | Some _, O => Err OutOfFuel
  | Some resolved, S fuel => shape_test (named_test resolve_named fuel) resolved v
  end.

Definition instance_of_shape (fuel : nat) (v : FeelValue) (shape : FeelTypeShape) (resolve_named : option TypeResolver)
    : res bool :=
  shape_test (named_test resolve_named fuel) shape v.

(** ** Lists *)

Definition as_list (v : FeelValue) : list FeelValue := match v with List xs => xs | other => [other] end.

Definition agg_items (args : list FeelValue) : list FeelValue := match args with [List xs] => xs | _ => args end.

(** [flatten_into]: what it pushes. *)
Fixpoint flatten_into (v : FeelValue) : list FeelValue :=
  match v with List xs => concat (map flatten_into xs) | other => [other] end.

(** [None] for anything but an integer that fits [i64]. *)
Definition int_of `{DecimalCrate} (v : FeelValue) : option Z :=
  match v with Number n => if bd_is_integer n then bd_to_i64 n else None | _ => None end.

Definition is_temporal (v : FeelValue) : bool :=
  match v with DateV _ | Instant _ _ | TimeV _ _ | Duration _ => true | _ => false end.

Definition arith_symbol (op : ArithOp) : string :=
  match op with Plus => "+" | Minus => "-" | Times => "*" | Div_ => "/" | Pow_ => "**" end.

(** Three-valued [all] and [any]. *)
Fixpoint bool_agg_loop (items : list FeelValue) (is_all saw_non_bool : bool) : FeelValue :=
  match items with
  | [] => if saw_non_bool then Null else Boolean is_all
  | Boolean b :: items =>
      if is_all && negb b then Boolean false
      else if negb is_all && b then Boolean true
      else bool_agg_loop items is_all saw_non_bool
  | _ :: items => bool_agg_loop items is_all true
  end.

Definition bool_agg (items : list FeelValue) (is_all : bool) : FeelValue := bool_agg_loop items is_all false.

(** ** Temporal arithmetic *)

Section TemporalArith.
Context `{BigDecimalOps, DecimalCrate, TimeCrate, TimeText, TimeParse, Calendar}.

Definition last_day_of_month (year month : Z) : Z :=
  if existsb (Z.eqb month) [1; 3; 5; 7; 8; 10; 12] then 31
  else if existsb (Z.eqb month) [4; 6; 9; 11] then 30
  else if is_leap_year year then 29 else 28.

Definition add_months (d : Date) (months : Z) : option Date :=
  let total := date_year d * 12 + (date_month d - 1) + months in
  year ← to_i32 (total / 12);
  let month := total mod 12 + 1 in
  date_from_calendar year month (Z.min (date_day d) (last_day_of_month year month)).

Definition MIDNIGHT : Time := mk_time 0 0 0 0.

(** [-m] on [i32]. *)
Definition months_of (sub : bool) (m : Z) : Z := if sub then as_i32 (- m) else m.

Definition shift_primitive (t : Date * Time) (dur : FeelDuration) (sub : bool) : option (Date * Time) :=
  match dur with
  | YearsMonths m => d ← add_months t.1 (months_of sub m); Some (d, t.2)
  | DaysTime dt => if sub then pdt_checked_sub t dt else pdt_checked_add t dt
  end.

Definition shift_date (d : Date) (dur : FeelDuration) (sub : bool) : option Date :=
  match dur with
  | YearsMonths m => add_months d (months_of sub m)
  | DaysTime dt => fst <$> (if sub then pdt_checked_sub (d, MIDNIGHT) dt else pdt_checked_add (d, MIDNIGHT) dt)
  end.

Definition zoned (name : string) (local : Date * Time) : option OffsetDateTime :=
  if zone_known name then in_zone name local else None.

Definition shift_instant (t : OffsetDateTime) (qualifier : option TimeQualifier) (dur : FeelDuration) (sub : bool)
    : res (option (OffsetDateTime * option TimeQualifier)) :=
  let keep (o : option OffsetDateTime) := (λ x, (x, qualifier)) <$> o in
  match qualifier with
  | Some (Zone name) => Ok (keep (local ← shift_primitive (odt_date t, time_of_day t) dur sub; zoned name local))
  | _ =>
      match dur with
      | YearsMonths m => Ok (keep (odt_replace_date t <$> add_months (odt_date t) (months_of sub m)))
      | DaysTime dt =>
          by_ ← (if sub then or_panic (duration_neg dt) else Ok dt);
          Ok (keep (odt_checked_add t by_))
      end
  end.

Definition add_durations (a b : FeelDuration) (sub : bool) : res (option FeelValue) :=
  match a, b with
  | YearsMonths m1, YearsMonths m2 => Ok (Some (Duration (YearsMonths (as_i32 (if sub then m1 - m2 else m1 + m2)))))
  | DaysTime d1, DaysTime d2 =>
      d ← or_panic (if sub then duration_sub d1 d2 else duration_add d1 d2);
      Ok (Some (Duration (DaysTime d)))
  | _, _ => Ok None
  end.

Definition whole_secs (d : Z) : Z := Z.quot d NANOS.

Definition scale_duration (a : FeelDuration) (n : BigDecimal) : option FeelValue :=
  match a with
  | YearsMonths m => t ← bd_to_i64 (mul (int m) n); t ← to_i32 t; Some (Duration (YearsMonths t))
  | DaysTime d => t ← bd_to_i64 (mul (int (whole_secs d)) n); Some (duration_of_seconds t)
  end.

Definition div_duration (a : FeelDuration) (n : BigDecimal) : option FeelValue :=
  if is_zero n then None
  else
    match a with
    | YearsMonths m => q ← bd_to_i64 (div (int m) n); q ← to_i32 q; Some (Duration (YearsMonths q))
    | DaysTime d => q ← bd_to_i64 (div (int (whole_secs d)) n); Some (duration_of_seconds q)
    end.

Definition div_duration_by_duration (a b : FeelDuration) : option FeelValue :=
  match a, b with
  | YearsMonths m1, YearsMonths m2 => if m2 =? 0 then None else Some (Number (div (int m1) (int m2)))
  | DaysTime d1, DaysTime d2 => if d2 =? 0 then None else Some (Number (div (int d1) (int d2)))
  | _, _ => None
  end.

(** Nanoseconds of the day. *)
Definition nanos_of_day (t : Time) : Z := ((hour t * 60 + minute t) * 60 + second t) * NANOS + nanosecond t.

Definition temporal_arith (l : FeelValue) (op : ArithOp) (r : FeelValue) : res (option FeelValue) :=
  let instant (o : res (option (OffsetDateTime * option TimeQualifier))) :=
    x ← o; Ok ((λ iq, Instant iq.1 iq.2) <$> x) in
  let between (n : Z) := Ok (Some (Duration (DaysTime n))) in
  match l, op, r with
  | Duration a, Plus, Duration b => add_durations a b false
  | Duration a, Minus, Duration b => add_durations a b true
  | Duration a, Times, Number n | Number n, Times, Duration a => Ok (scale_duration a n)
  | Duration a, Div_, Number n => Ok (div_duration a n)
  | Duration a, Div_, Duration b => Ok (div_duration_by_duration a b)
  | DateV d, Plus, Duration dur | Duration dur, Plus, DateV d => Ok (DateV <$> shift_date d dur false)
  | DateV d, Minus, Duration dur => Ok (DateV <$> shift_date d dur true)
  | Instant t q, Plus, Duration dur | Duration dur, Plus, Instant t q => instant (shift_instant t q dur false)
  | Instant t q, Minus, Duration dur => instant (shift_instant t q dur true)
  | TimeV t q, Plus, Duration (DaysTime d) | Duration (DaysTime d), Plus, TimeV t q => Ok (Some (TimeV (time_shift t d) q))
  | TimeV t q, Minus, Duration (DaysTime d) => Ok (Some (TimeV (time_shift t (- d)) q))
  | DateV a, Minus, DateV b => between ((to_julian_day a - to_julian_day b) * 86400 * NANOS)
  | Instant a qa, Minus, Instant b qb =>
      if Bool.eqb (is_some qa) (is_some qb) then between (unix_nanos a - unix_nanos b) else Ok None
  | Instant a qa, Minus, DateV b => if is_some qa then between (unix_nanos a - unix_nanos (midnight_utc b)) else Ok None
  | DateV a, Minus, Instant b qb => if is_some qb then between (unix_nanos (midnight_utc a) - unix_nanos b) else Ok None
  | TimeV a _, Minus, TimeV b _ => between (nanos_of_day a - nanos_of_day b)
  | _, _, _ => Ok None
  end.

Definition combine_date_time (d : Date) (t : Time) (q : option TimeQualifier) : FeelValue :=
  let naive := (d, t) in
  Instant (match q with
    | None => at_utc naive
    | Some Zulu => assume_offset naive 0
    | Some (Offset o) => assume_offset naive o
    | Some (Zone name) => match zoned name naive with Some i => i | None => at_utc naive end
    end) q.

Definition split_seconds (n : BigDecimal) : option (Z * Z) :=
  if is_negative n then None
  else
    total ← bd_to_i64 (mul n (int 1000000000));
    whole ← to_u8 (Z.quot total 1000000000);
    nanos ← in_range 0 u32_max (Z.rem total 1000000000);
    Some (whole, nanos).

Definition offset_from_duration (d : Z) : option Z :=
  let total := whole_secs d in
  if 14 * 3600 <? Z.abs total then None else utc_offset_from_seconds total.

Definition date_of (v : FeelValue) : option Date :=
  match v with DateV d => Some d | Instant t _ => Some (odt_date t) | _ => None end.

Definition weekday_name (v : FeelValue) : FeelValue :=
  match date_of v with Some d => Str (weekday_text (number_from_monday d)) | None => Null end.
Definition month_name (v : FeelValue) : FeelValue :=
  match date_of v with Some d => Str (month_text (date_month d)) | None => Null end.
Definition date_ordinal (v : FeelValue) : FeelValue := match date_of v with Some d => num (ordinal d) | None => Null end.
Definition iso_week (v : FeelValue) : FeelValue := match date_of v with Some d => num (iso_week_of d) | None => Null end.

Definition months_between (a b : Date) : Z :=
  let months := (date_year b - date_year a) * 12 + (date_month b - date_month a) in
  if (0 <? months) && (date_day b <? date_day a) then months - 1
  else if (months <? 0) && (date_day a <? date_day b) then months + 1
  else months.
End TemporalArith.

(** ** Numbers *)

Section Numbers.
Context `{BigDecimalOps, BigDecimalText, DecimalCrate, Doubles}.

(** [impl From<f64> for FeelValue]: the assertion and the two [expect]s are panics. *)
Definition from_f64 (x : double) : res FeelValue :=
  if is_finite x then
    let s := f_display x in
    let s := if string_any (λ c, Ascii.eqb c "." || Ascii.eqb c "e" || Ascii.eqb c "E") s then s else s +:+ ".0" in
    n ← or_panic (bd_parse s); Ok (Number n)
  else Err Panicked.

Definition f64_num (x : option double) : res FeelValue :=
  match x with Some v => if is_finite v then from_f64 v else Ok Null | None => Ok Null end.

Definition f64_num_scaled (x : option double) (scale : Z) : res FeelValue :=
  v ← f64_num x;
  Ok (match v with Number n => Number (bd_with_scale_round n scale HalfEven) | other => other end).

(** [base] multiplied [n] times; [for _ in 0..n] is empty for a negative [n]. *)
Definition power_loop (base : BigDecimal) (n : Z) : BigDecimal := Z.iter n (λ acc, mul acc base) (int 1).

Definition pow_decimal (base exp : BigDecimal) : res FeelValue :=
  let by_float :=
    match bd_to_f64 base, bd_to_f64 exp with
    | Some b, Some e => let r := f_powf b e in if is_finite r then from_f64 r else Ok Null
    | _, _ => Ok Null
    end in
  if bd_is_integer exp then
    match bd_to_i64 exp with
    | Some n =>
        if 0 <=? n then Ok (Number (power_loop base n))
        else if is_zero base then Ok Null
        else Ok (Number (div (int 1) (power_loop base (wrap64 (- n)))))
    | None => by_float
    end
  else by_float.

Definition int_parity (n : BigDecimal) : option Z :=
  if bd_is_integer n then (λ v, v mod 2) <$> bd_to_i64 n else None.

Definition feel_modulo (a b : BigDecimal) : FeelValue :=
  if is_zero b then Null
  else Number (sub a (mul b (bd_with_scale_round (div a b) 0 Floor))).

Definition bd_leb (a b : BigDecimal) : bool := match bd_cmp a b with Gt => false | _ => true end.

Definition median (ns : list BigDecimal) : FeelValue :=
  let s := sort_by bd_leb ns in
  let n := length s in
  let at_ i := nth i s (int 0) in
  if (n =? 0)%nat then Null
  else if Nat.odd n then Number (at_ (n / 2)%nat)
  else Number (div (add (at_ (n / 2 - 1)%nat) (at_ (n / 2)%nat)) (int 2)).

Definition stddev (ns : list BigDecimal) : res FeelValue :=
  if (length ns <? 2)%nat then Ok Null
  else
    let xs := omap bd_to_f64 ns in
    if (length xs =? length ns)%nat then
      let n := Z.of_nat (length xs) in
      let mean := f_div (f_sum xs) (f_of_int n) in
      let var := f_div (f_sum (map (λ x, f_square (f_sub x mean)) xs)) (f_sub (f_of_int n) (f_of_int 1)) in
      v ← f64_num (Some (f_sqrt var));
      Ok (match v with Number n => Number (round_decimal64 n) | other => other end)
    else Ok Null.

(** One more of [n]. *)
Fixpoint count_in (n : BigDecimal) (counts : list (BigDecimal * nat)) : list (BigDecimal * nat) :=
  match counts with
  | [] => [(n, 1%nat)]
  | (v, c) :: r => if is_eq (bd_cmp v n) then (v, S c) :: r else (v, c) :: count_in n r
  end.

Definition mode (ns : list BigDecimal) : FeelValue :=
  let counts := fold_left (λ acc n, count_in n acc) ns [] in
  let max_ := list_max (map snd counts) in
  List (map Number (sort_by bd_leb (map fst (List.filter (λ vc, (vc.2 =? max_)%nat) counts)))).
End Numbers.

(** ** Text *)

Section Text.
Context `{BigDecimalText, TimeText}.

Fixpoint str_of (o : FeelValue) : string :=
  match o with
  | Null => ""
  | List [x] => str_of x
  | other => canonical_string_of other
  end.
End Text.

(** Not a separator at all, or the separator if any. *)
Definition separator_char (v : FeelValue) : result () (option ascii) :=
  match v with
  | Null => Ok None
  | Str (String c "") => if Ascii.eqb c " " || Ascii.eqb c "," || Ascii.eqb c "." then Ok (Some c) else Err tt
  | _ => Err tt
  end.

(** [context put] along a path of keys. *)
Fixpoint set_nested (base : list (string * FeelValue)) (path : list FeelValue) (value : FeelValue) : option FeelValue :=
  match path with
  | Str key :: rest =>
      match rest with
      | [] => Some (Map (map_insert key value base))
      | _ =>
          match map_get key base with
          | Some (Map child) => updated ← set_nested child rest value; Some (Map (map_insert key updated base))
          | _ => None
          end
      end
  | _ => None
  end.

(** [s.replace(from, to)] for a pattern of at least one byte. *)
Fixpoint str_replace_loop (skip : nat) (from to s : string) : string :=
  match s with
  | EmptyString => EmptyString
  | String c r =>
      match skip with
      | S k => str_replace_loop k from to r
      | O =>
          if starts_with from s then to +:+ str_replace_loop (String.length from - 1) from to r
          else String c (str_replace_loop 0 from to r)
      end
  end.
Definition str_replace (from to s : string) : string := str_replace_loop 0 from to s.

(** [s.find(m)]: what is before and after the first occurrence. *)
Fixpoint str_find (m s : string) : option (string * string) :=
  match strip_prefix m s with
  | Some rest => Some ("", rest)
  | None => match s with EmptyString => None | String c r => '(a, b) ← str_find m r; Some (String c a, b) end
  end.

(** [s.ends_with(m)]. *)
Fixpoint ends_with (m s : string) : bool :=
  String.eqb s m || match s with EmptyString => false | String _ r => ends_with m r end.

(** *** Regular expressions *)

(** [in_class] is between an open bracket and its close. *)
Fixpoint strip_extended_whitespace (in_class : bool) (pattern : list Z) : list Z :=
  match pattern with
  | [] => []
  | c :: r =>
      if c =? ch "\" then
        match r with
        | next :: r => c :: (if negb (is_white next) || in_class then [next] else []) ++ strip_extended_whitespace in_class r
        | [] => [c]
        end
      else if (c =? ch "[") && negb in_class then c :: strip_extended_whitespace true r
      else if (c =? ch "]") && in_class then c :: strip_extended_whitespace false r
      else if is_white c && negb in_class then strip_extended_whitespace in_class r
      else c :: strip_extended_whitespace in_class r
  end.

(** [[^\r\n]], with the two control characters themselves. *)
Definition NOT_LINE_END : list Z := [ch "["; ch "^"; 13; 10; ch "]"].

Fixpoint exclude_cr_from_dot (in_class : bool) (pattern : list Z) : list Z :=
  match pattern with
  | [] => []
  | c :: r =>
      if c =? ch "\" then
        match r with next :: r => c :: next :: exclude_cr_from_dot in_class r | [] => [c] end
      else if (c =? ch "[") && negb in_class then c :: exclude_cr_from_dot true r
      else if (c =? ch "]") && in_class then c :: exclude_cr_from_dot false r
      else if (c =? ch ".") && negb in_class then NOT_LINE_END ++ exclude_cr_from_dot in_class r
      else c :: exclude_cr_from_dot in_class r
  end.

Definition translate_unicode_blocks (pattern : string) : string :=
  str_replace "\P{IsBasicLatin}" "[^\x00-\x7F]" (str_replace "\p{IsBasicLatin}" "[\x00-\x7F]" pattern).

(** [prev] is the character before, [depth] the number of open brackets. *)
Fixpoint translate_class_subtraction (prev : option Z) (depth : nat) (pattern : list Z) : list Z :=
  match pattern with
  | [] => []
  | c :: r =>
      if c =? ch "\" then
        match r with next :: r => c :: next :: translate_class_subtraction (Some next) depth r | [] => [c] end
      else if c =? ch "[" then c :: translate_class_subtraction (Some c) (S depth) r
      else if c =? ch "]" then c :: translate_class_subtraction (Some c) (depth - 1)%nat r
      else if (c =? ch "-") && (0 <? depth)%nat && match r with n :: _ => n =? ch "[" | [] => false end
              && match prev with Some p => negb (p =? ch "-") | None => true end
      then c :: c :: translate_class_subtraction (Some c) depth r
      else c :: translate_class_subtraction (Some c) depth r
  end.

(** The digits read after a [$], if one is open. *)
Definition braced (digits : list Z) : list Z :=
  match digits with [] => [ch "$"] | _ => ch "$" :: ch "{" :: digits ++ [ch "}"] end.

Fixpoint disambiguate_loop (open_ : option (list Z)) (replacement : list Z) : list Z :=
  match replacement, open_ with
  | [], None => []
  | [], Some digits => braced digits
  | c :: r, None => if c =? ch "$" then disambiguate_loop (Some []) r else c :: disambiguate_loop None r
  | c :: r, Some digits =>
      if is_digit c then disambiguate_loop (Some (digits ++ [c])) r
      else if c =? ch "$" then
        match digits with
        | [] => ch "$" :: ch "$" :: disambiguate_loop None r
        | _ => braced digits ++ disambiguate_loop (Some []) r
        end
      else braced digits ++ c :: disambiguate_loop None r
  end.

Definition disambiguate_replacement_backreferences (replacement : string) : string :=
  encode (disambiguate_loop None (chars replacement)).

(** ** Tables *)

Lemma map_get_Forall {A} (P : A → Prop) k (m : list (string * A)) a : Forall (λ kv, P kv.2) m → map_get k m = Some a → P a.
Proof. induction 1 as [|[k' b] m Hb Hm IH]; simpl; [done|]. destruct (String.eqb k' k); [by intros [= <-]|done]. Qed.
