(* ===== verification/FeelBuiltins.v ===== *)
(** * FEEL builtins ([sutra-feel/src/evaluator.rs], the methods of [impl Evaluator] that do not
    evaluate an expression, and [sutra-feel/src/random.rs])

    The builtins that are functions of their arguments, in tables by name as the arms of
    [invoke_builtin]; those that read the clock, draw entropy or call a function value are in
    [FeelEval].  The [regex] and [fancy_regex] crates ([Regex]) and the Unicode case mappings
    ([CaseTables]) are interfaces.

    The theorems on them are in [FeelLaws]. *)
From Stdlib Require Import ZArith Lia Bool Ascii String.
From stdpp Require Import base option strings list.
From S2P Require Import Prelude Texts Decimal FeelValue Temporal FeelText TemporalParse FeelLexer FeelParser FeelOps.

Open Scope string_scope.
Open Scope list_scope.
Open Scope Z_scope.

(** ** Third-party code *)

Class Regex : Type := {
  regex : Type;
  regex_new : string → result string regex;
  regex_is_match : regex → string → bool;
  regex_replace_all : regex → string → string → string;
  regex_split : regex → string → list string;
  fancy_regex : Type;
  fancy_new : string → result string fancy_regex;
  fancy_is_match : fancy_regex → string → option bool
}.

Class CaseTables : Type := { to_uppercase : string → string; to_lowercase : string → string }.

(** ** Names *)

Definition SPACED_BUILTIN_ALIASES : list (string * string) :=
  [("string length", "stringLength"); ("upper case", "upperCase"); ("lower case", "lowerCase");
   ("substring before", "substringBefore"); ("substring after", "substringAfter"); ("starts with", "startsWith");
   ("ends with", "endsWith"); ("list contains", "listContains"); ("index of", "indexOf");
   ("insert before", "insertBefore"); ("distinct values", "distinctValues"); ("string join", "stringJoin");
   ("day of week", "dayOfWeek"); ("day of year", "dayOfYear"); ("month of year", "monthOfYear");
   ("week of year", "weekOfYear"); ("round up", "roundUp"); ("round down", "roundDown");
   ("round half up", "roundHalfUp"); ("round half down", "roundHalfDown");
   ("years and months duration", "yearsAndMonthsDuration"); ("days and time duration", "daysAndTimeDuration");
   ("date and time", "dateAndTime"); ("get value", "getValue"); ("get entries", "getEntries");
   ("context put", "contextPut"); ("context merge", "contextMerge"); ("list replace", "listReplace");
   ("met by", "metBy"); ("overlaps before", "overlapsBefore"); ("overlaps after", "overlapsAfter");
   ("finished by", "finishedBy"); ("started by", "startedBy")].

Definition SPACED_PROPERTY_NAMES : list string := ["time offset"; "start included"; "end included"].

Definition canonical_builtin (name : string) : string :=
  match map_get name SPACED_BUILTIN_ALIASES with Some canonical => canonical | None => name end.

Definition builtin_param_names (name : string) : option (list string) :=
  map_get name
    [("abs", ["n"]); ("sqrt", ["number"]); ("exp", ["number"]); ("log", ["number"]); ("even", ["number"]);
     ("odd", ["number"]); ("median", ["list"]); ("stddev", ["list"]); ("mode", ["list"]); ("all", ["list"]);
     ("any", ["list"]); ("product", ["list"]); ("stringJoin", ["list"; "delimiter"]); ("is", ["value1"; "value2"]);
     ("range", ["from"]); ("split", ["string"; "delimiter"]);
     ("number", ["from"; "grouping separator"; "decimal separator"]); ("floor", ["n"; "scale"]);
     ("modulo", ["dividend"; "divisor"]); ("ceiling", ["n"; "scale"]); ("getValue", ["m"; "key"]);
     ("getEntries", ["m"]); ("context", ["entries"]); ("contextMerge", ["contexts"]); ("dayOfWeek", ["date"]);
     ("monthOfYear", ["date"]); ("dayOfYear", ["date"]); ("weekOfYear", ["date"])].

(** [iter().position(|p| p == n)]. *)
Fixpoint position (n : string) (l : list string) : option nat :=
  match l with [] => None | p :: r => if String.eqb p n then Some O else S <$> position n r end.

Definition any_named (arg_names : list (option string)) : bool := existsb is_some arg_names.

(** One argument into its slot; [None] on a name that is no parameter. *)
Definition fill_slot (params : list string) (acc : option (list (option FeelValue)))
    (x : nat * (option string * FeelValue)) : option (list (option FeelValue)) :=
  slots ← acc;
  match x with
  | (_, (Some n, value)) => idx ← position n params; Some (<[idx := Some value]> slots)
  | (i, (None, value)) => Some (<[i := Some value]> slots)
  end.

(** [None] is [UnknownName]; otherwise the arguments in the order of the parameters. *)
Definition bind_builtin_args (name : string) (args : list FeelValue) (arg_names : list (option string))
    : option (list FeelValue) :=
  if any_named arg_names then
    match builtin_param_names name with
    | None => Some args
    | Some params =>
        slots ← fold_left (fill_slot params) (imap pair (zip arg_names args)) (Some (replicate (length params) None));
        Some (map (λ s, match s with Some v => v | None => Null end) slots)
    end
  else Some args.

(** ** Parsing without a context *)

Section Parse.
Context `{UnicodeTables, BigDecimalText, TimeCrate, TimeParse}.

Definition spaced_builtin_names : list string := map fst SPACED_BUILTIN_ALIASES ++ SPACED_PROPERTY_NAMES.

Definition parse_with_uri (expression source_uri : string) : res FeelExpr :=
  let positions := positions_new expression source_uri in
  tokens ← tokenize positions;
  parse_tokens positions
    (if has_adjacent_name_run tokens then merge_named_tokens tokens spaced_builtin_names else tokens).

Definition parse (expression : string) : res FeelExpr := parse_with_uri expression INLINE_FEEL_URI.
End Parse.

Section Builtins.
Context `{UnicodeTables, BigDecimalOps, BigDecimalText, DecimalCrate, Doubles, TimeCrate, TimeText, TimeParse, Calendar,
  Regex, CaseTables}.
Context (positions : option FeelSourcePositions).

(** ** Arguments *)

Definition error (code message : string) (site_start : Z) : FeelError :=
  mk_feel_error code message (Some site_start) ((λ p, location_for p site_start) <$> positions) None.

Definition mismatch {A} (message : string) (site : Z) : res A :=
  reject (error FEEL_COMPILE_TYPE_MISMATCH message site).

Definition count_text {A} (l : list A) : string := dec_string (len l).

Definition require_args (name : string) (args : list FeelValue) (expected : nat) (site : Z) : res () :=
  if (length args =? expected)%nat then Ok tt
  else mismatch (name +:+ "() expects " +:+ dec_string (Z.of_nat expected) +:+ " arguments, got " +:+ count_text args) site.

Definition arg0 (args : list FeelValue) (name : string) (site : Z) : res FeelValue :=
  match args with v :: _ => Ok v | [] => mismatch (name +:+ "() requires at least one argument") site end.

(** [args[i]] at an index [require_args] has checked. *)
Definition arg (args : list FeelValue) (i : nat) : FeelValue := nth i args Null.

Definition to_big_decimal (v : FeelValue) : res BigDecimal :=
  match v with
  | Null => Ok (int 0)
  | Number n => Ok n
  | Str s =>
      match bd_parse s with
      | Some n => Ok n
      | None => reject (error_plain FEEL_COMPILE_TYPE_MISMATCH "Cannot convert to number: String")
      end
  | other => reject (error_plain FEEL_COMPILE_TYPE_MISMATCH ("Cannot convert to number: " +:+ type_name other))
  end.

(** [self.to_big_decimal(v)?.to_i64().unwrap_or(0)]. *)
Definition to_index (v : FeelValue) : res Z :=
  n ← to_big_decimal v; Ok (match bd_to_i64 n with Some i => i | None => 0 end).

Definition require_number (v : FeelValue) (name : string) (site : Z) : res BigDecimal :=
  match v with
  | Number n => Ok n
  | other => mismatch (name +:+ "() expects a number, got " +:+ type_name other) site
  end.

Definition num1 (args : list FeelValue) (name : string) (site : Z) : res BigDecimal :=
  _ ← require_args name args 1 site; require_number (arg args 0) name site.

Fixpoint numbers_of (items : list FeelValue) (name : string) (site : Z) : res (list BigDecimal) :=
  match items with
  | [] => Ok []
  | Number n :: r => ns ← numbers_of r name site; Ok (n :: ns)
  | other :: _ => mismatch (name +:+ "() expects numbers, got " +:+ type_name other) site
  end.

Definition num_items (args : list FeelValue) (name : string) (site : Z) : res (list BigDecimal) :=
  numbers_of (agg_items args) name site.

Definition require_int (v : FeelValue) (name : string) (site : Z) : res Z :=
  match int_of v with Some i => Ok i | None => mismatch (name +:+ "() expects integer arguments") site end.

(** [o.ok_or_else(|| self.temporal_err(what, site))]. *)
Definition or_temporal_err {A} (o : option A) (what : string) (site : Z) : res A :=
  match o with Some a => Ok a | None => mismatch what site end.

(** [xs[idx0 as usize..end as usize]]. *)
Definition slice_of {A} (xs : list A) (idx0 end_ : Z) : res (list A) :=
  if (idx0 <=? end_) && (end_ <=? len xs) then Ok (sub_list idx0 end_ xs) else Err Panicked.

(** The elements [substring] and [sublist] take. *)
Definition section_of {A} (xs : list A) (args : list FeelValue) : res (list A) :=
  let n := len xs in
  start ← to_index (arg args 1);
  let idx0 := if start <? 0 then wrap64 (n + start) else wrap64 (start - 1) in
  if (idx0 <? 0) || (n <=? idx0) then Ok []
  else
    len ← (if (length args =? 3)%nat then to_index (arg args 2) else Ok (n - idx0));
    slice_of xs idx0 (Z.min (wrap64 (idx0 + Z.max len 0)) n).

Definition two_or_three (name : string) (args : list FeelValue) (site : Z) : res () :=
  if (length args <? 2)%nat || (3 <? length args)%nat
  then mismatch (name +:+ "() expects 2 or 3 arguments, got " +:+ count_text args) site
  else Ok tt.

(** ** Strings *)

Definition substring (args : list FeelValue) (site : Z) : res FeelValue :=
  _ ← two_or_three "substring" args site;
  part ← section_of (chars (str_of (arg args 0))) args;
  Ok (Str (encode part)).

Definition is_blank (args : list FeelValue) (site : Z) : res FeelValue :=
  _ ← require_args "isBlank" args 1 site;
  Ok (Boolean (match arg args 0 with Null => true | Str s => forallb is_white (chars s) | _ => false end)).

(** The text of one flag character. *)
Definition is_flag (c : Z) : bool := (c =? ch "s") || (c =? ch "m") || (c =? ch "i") || (c =? ch "x").

Definition translated_pattern (pattern flags func : string) (site : Z) : res string :=
  match List.find (λ c, negb (is_flag c)) (chars flags) with
  | Some bad => mismatch (func +:+ "() invalid flag '" +:+ encode [bad] +:+ "'") site
  | None =>
      let has c := existsb (Z.eqb (ch c)) (chars flags) in
      let p := if has "x"%char then encode (strip_extended_whitespace false (chars pattern)) else pattern in
      let p := translate_unicode_blocks p in
      let p := encode (translate_class_subtraction None 0 (chars p)) in
      let p := if has "s"%char then p else encode (exclude_cr_from_dot false (chars p)) in
      let inline := encode (List.filter (λ c, (c =? ch "s") || (c =? ch "m") || (c =? ch "i")) (chars flags)) in
      Ok (if str_is_empty inline then p else "(?" +:+ inline +:+ ")" +:+ p)
  end.

Definition compile_regex (pattern flags func : string) (site : Z) : res regex :=
  prefixed ← translated_pattern pattern flags func site;
  match regex_new prefixed with
  | Ok re => Ok re
  | Err e => mismatch (func +:+ "() invalid regex pattern '" +:+ pattern +:+ "': " +:+ e) site
  end.

(** The pattern under the linear engine, and under the backtracking one when it refuses it. *)
Definition match_text (s p flags : string) (site : Z) : res FeelValue :=
  prefixed ← translated_pattern p flags "matches" site;
  match regex_new prefixed with
  | Ok re => Ok (Boolean (regex_is_match re s))
  | Err primary_err =>
      match fancy_new prefixed with
      | Ok re => Ok (Boolean (from_some false (fancy_is_match re s)))
      | Err _ => mismatch ("matches() invalid regex pattern '" +:+ p +:+ "': " +:+ primary_err) site
      end
  end.

Definition matches (args : list FeelValue) (site : Z) : res FeelValue :=
  _ ← two_or_three "matches" args site;
  match arg args 0, arg args 1 with
  | Str s, Str p =>
      match nth_error args 2 with
      | None | Some Null => match_text s p "" site
      | Some (Str f) => match_text s p f site
      | Some _ => Ok Null
      end
  | _, _ => Ok Null
  end.

Definition replace (args : list FeelValue) (site : Z) : res FeelValue :=
  if (length args <? 3)%nat || (4 <? length args)%nat
  then mismatch ("replace() expects 3 or 4 arguments, got " +:+ count_text args) site
  else
    let flags := if (length args =? 4)%nat then str_of (arg args 3) else "" in
    re ← compile_regex (str_of (arg args 1)) flags "replace" site;
    Ok (Str (regex_replace_all re (str_of (arg args 0)) (disambiguate_replacement_backreferences (str_of (arg args 2))))).

Definition split (args : list FeelValue) (site : Z) : res FeelValue :=
  _ ← require_args "split" args 2 site;
  match arg args 0, arg args 1 with
  | Str s, Str delim => re ← compile_regex delim "" "split" site; Ok (List (map Str (regex_split re s)))
  | _, _ => Ok Null
  end.

(** The parts that are texts; [None] on a part that is neither text nor [null]. *)
Fixpoint join_parts (items : list FeelValue) : option (list string) :=
  match items with
  | [] => Some []
  | Null :: r => join_parts r
  | Str s :: r => ps ← join_parts r; Some (s :: ps)
  | _ :: _ => None
  end.

Definition string_join (args : list FeelValue) (site : Z) : res FeelValue :=
  if (length args =? 0)%nat || (2 <? length args)%nat
  then mismatch ("string join() expects 1 or 2 arguments, got " +:+ count_text args) site
  else
    let delim := if (length args =? 2)%nat then str_of (arg args 1) else "" in
    let join items := match join_parts items with Some ps => Str (String.concat delim ps) | None => Null end in
    Ok (match arg args 0 with List xs => join xs | Str s => join [Str s] | _ => Null end).

Definition number (args : list FeelValue) (site : Z) : res FeelValue :=
  let read s := match bd_parse s with Some n => Number n | None => Null end in
  if (length args =? 0)%nat || (3 <? length args)%nat
  then mismatch ("number() expects 1 or 3 arguments, got " +:+ count_text args) site
  else
    Ok (match arg args 0 with
      | Str raw =>
          if (length args =? 3)%nat then
            match separator_char (arg args 1), separator_char (arg args 2) with
            | Ok grouping, Ok decimal =>
                if match grouping, decimal with Some g, Some d => Ascii.eqb g d | _, _ => false end then Null
                else
                  let s := match grouping with Some g => str_replace (String g "") "" raw | None => raw end in
                  read (match decimal with
                        | Some d => if Ascii.eqb d "." then s else str_replace (String d "") "." s
                        | None => s
                        end)
            | _, _ => Null
            end
          else read raw
      | _ => Null
      end).

(** The arms of [invoke_builtin] on strings. *)
Definition string_builtins : list (string * (list FeelValue → Z → res FeelValue)) :=
  [("matches", matches);
   ("contains", λ args site,
      _ ← require_args "contains" args 2 site;
      Ok (match arg args 0, arg args 1 with
          | Str s, Str m => Boolean (is_some (str_find m s))
          | _, _ => Null
          end));
   ("startsWith", λ args site,
      _ ← require_args "startsWith" args 2 site;
      Ok (Boolean (starts_with (str_of (arg args 1)) (str_of (arg args 0)))));
   ("endsWith", λ args site,
      _ ← require_args "endsWith" args 2 site;
      Ok (Boolean (ends_with (str_of (arg args 1)) (str_of (arg args 0)))));
   ("upperCase", λ args site, v ← arg0 args "upperCase" site; Ok (Str (to_uppercase (str_of v))));
   ("lowerCase", λ args site, v ← arg0 args "lowerCase" site; Ok (Str (to_lowercase (str_of v))));
   ("string", λ args _, Ok (match args with [] | Null :: _ => Null | v :: _ => Str (canonical_string_of v) end));
   ("exists", λ args _, Ok (Boolean ((length args =? 1)%nat && negb (is_null (arg args 0)))));
   ("isBlank", is_blank);
   ("stringLength", λ args site, v ← arg0 args "stringLength" site; Ok (num (len (chars (str_of v)))));
   ("substring", substring);
   ("substringBefore", λ args site,
      _ ← require_args "substringBefore" args 2 site;
      Ok (Str (match str_find (str_of (arg args 1)) (str_of (arg args 0)) with Some (a, _) => a | None => "" end)));
   ("substringAfter", λ args site,
      _ ← require_args "substringAfter" args 2 site;
      Ok (Str (match str_find (str_of (arg args 1)) (str_of (arg args 0)) with Some (_, b) => b | None => "" end)));
   ("replace", replace); ("split", split); ("stringJoin", string_join); ("number", number)].

(** ** Numbers *)

(** [to_i64().unwrap_or(i64::MAX)]. *)
Definition scale_of (n : BigDecimal) : Z := match bd_to_i64 n with Some s => s | None => i64_max end.

Definition in_scale (n : BigDecimal) (scale : Z) (mode : RoundingMode) : FeelValue :=
  if (-6111 <=? scale) && (scale <=? 6176) then Number (bd_with_scale_round n scale mode) else Null.

Definition round_scaled (mode : RoundingMode) (args : list FeelValue) (site : Z) : res FeelValue :=
  _ ← require_args "round" args 2 site;
  if is_null (arg args 0) || is_null (arg args 1) then Ok Null
  else
    n ← require_number (arg args 0) "round" site;
    scale ← require_number (arg args 1) "round" site;
    Ok (in_scale n (scale_of scale) mode).

Definition floor_ceiling (rounding : RoundingMode) (name : string) (args : list FeelValue) (site : Z) : res FeelValue :=
  if (length args =? 0)%nat || (2 <? length args)%nat
  then mismatch (name +:+ "() expects 1 or 2 arguments, got " +:+ count_text args) site
  else
    n ← require_number (arg args 0) name site;
    if (length args =? 2)%nat then
      if is_null (arg args 1) then Ok Null
      else scale ← require_number (arg args 1) name site; Ok (in_scale n (scale_of scale) rounding)
    else Ok (in_scale n 0 rounding).

(** The arms on one or two numbers. *)
Definition numeric_builtins : list (string * (list FeelValue → Z → res FeelValue)) :=
  [("abs", λ args site,
      _ ← require_args "abs" args 1 site;
      match arg args 0 with
      | Number n => Ok (Number (bd_abs n))
      | Duration (YearsMonths m) => Ok (Duration (YearsMonths (as_i32 (Z.abs m))))
      | Duration (DaysTime d) => Ok (Duration (DaysTime (duration_abs d)))
      | other => mismatch ("abs() expects a number or duration, got " +:+ type_name other) site
      end);
   ("ceiling", floor_ceiling Ceiling "ceiling"); ("floor", floor_ceiling Floor "floor");
   ("sqrt", λ args site,
      n ← num1 args "sqrt" site;
      Ok (match bd_sqrt n with Some r => Number (bd_normalized (round_decimal64 r)) | None => Null end));
   ("exp", λ args site, n ← num1 args "exp" site; f64_num_scaled (f_exp <$> bd_to_f64 n) 8);
   ("log", λ args site,
      n ← num1 args "log" site;
      match bd_to_f64 n with Some x => if is_positive x then from_f64 (f_ln x) else Ok Null | None => Ok Null end);
   ("even", λ args site,
      n ← num1 args "even" site; Ok (Boolean (match int_parity n with Some 0 => true | _ => false end)));
   ("odd", λ args site,
      n ← num1 args "odd" site; Ok (Boolean (match int_parity n with Some 1 => true | _ => false end)));
   ("modulo", λ args site,
      _ ← require_args "modulo" args 2 site;
      Ok (match arg args 0, arg args 1 with Number a, Number b => feel_modulo a b | _, _ => Null end));
   ("decimal", round_scaled HalfEven); ("roundUp", round_scaled Up); ("roundDown", round_scaled Down);
   ("roundHalfUp", round_scaled HalfUp); ("roundHalfDown", round_scaled HalfDown)].

(** [iter().min()] gives the first of the least, [iter().max()] the last of the greatest. *)
Definition min_of (ns : list BigDecimal) : FeelValue :=
  match ns with
  | [] => Null
  | n :: r => Number (fold_left (λ acc x, match bd_cmp acc x with Gt => x | _ => acc end) r n)
  end.
Definition max_of (ns : list BigDecimal) : FeelValue :=
  match ns with
  | [] => Null
  | n :: r => Number (fold_left (λ acc x, match bd_cmp acc x with Gt => acc | _ => x end) r n)
  end.

Definition sum_of (ns : list BigDecimal) : BigDecimal := fold_left add ns (int 0).

(** The arms on a list of numbers, or on a list of booleans. *)
Definition aggregate_builtins : list (string * (list FeelValue → Z → res FeelValue)) :=
  [("count", λ args _, Ok (num (len (agg_items args))));
   ("sum", λ args site, ns ← num_items args "sum" site; Ok (Number (sum_of ns)));
   ("product", λ args site,
      match args, agg_items args with
      | [], _ | _, [] => Ok Null
      | _, _ => ns ← num_items args "product" site; Ok (Number (fold_left mul ns (int 1)))
      end);
   ("min", λ args site, ns ← num_items args "min" site; Ok (min_of ns));
   ("max", λ args site, ns ← num_items args "max" site; Ok (max_of ns));
   ("mean", λ args site,
      ns ← num_items args "mean" site;
      Ok (match ns with [] => Null | _ => Number (div (sum_of ns) (int (len ns))) end));
   ("median", λ args site, ns ← num_items args "median" site; Ok (median ns));
   ("stddev", λ args site, ns ← num_items args "stddev" site; stddev ns);
   ("all", λ args _, Ok (match args with [] => Null | _ => bool_agg (agg_items args) true end));
   ("any", λ args _, Ok (match args with [] => Null | _ => bool_agg (agg_items args) false end));
   ("mode", λ args site,
      match args with [] => Ok Null | _ => ns ← num_items args "mode" site; Ok (mode ns) end)].

(** ** Lists *)

Definition equal (a b : FeelValue) : bool := from_some false (equals_feel a b).

(** [distinct values] and [union]: the first of each. *)
Definition distinct (xs : list FeelValue) : list FeelValue :=
  fold_left (λ out x, if existsb (λ y, equal y x) out then out else out ++ [x]) xs [].

Definition sublist (args : list FeelValue) (site : Z) : res FeelValue :=
  _ ← two_or_three "sublist" args site;
  part ← section_of (as_list (arg args 0)) args;
  Ok (List part).

(** [position] counts from one, or from the end when negative. *)
Definition index_at (n pos : Z) : Z := if pos <? 0 then wrap64 (n + pos) else wrap64 (pos - 1).

Definition list_builtins : list (string * (list FeelValue → Z → res FeelValue)) :=
  [("reverse", λ args _, Ok (List (rev (agg_items args))));
   ("distinctValues", λ args _, Ok (List (distinct (agg_items args))));
   ("flatten", λ args _, Ok (List (concat (map flatten_into args))));
   ("append", λ args _, Ok (List (match args with [] => [] | v :: r => as_list v ++ r end)));
   ("concatenate", λ args _, Ok (List (concat (map as_list args))));
   ("sublist", sublist);
   ("listContains", λ args site,
      _ ← require_args "list contains" args 2 site;
      Ok (Boolean (existsb (λ x, equal x (arg args 1)) (as_list (arg args 0)))));
   ("indexOf", λ args site,
      _ ← require_args "index of" args 2 site;
      Ok (List (map (λ ix, num (Z.of_nat ix.1 + 1))
                 (List.filter (λ ix, equal ix.2 (arg args 1)) (imap pair (as_list (arg args 0)))))));
   ("insertBefore", λ args site,
      _ ← require_args "insert before" args 3 site;
      let xs := as_list (arg args 0) in
      pos ← to_index (arg args 1);
      let idx0 := if pos <? 0 then Z.max (wrap64 (len xs + pos)) 0 else Z.min (Z.max (wrap64 (pos - 1)) 0) (len xs) in
      let i := Nat.min (Z.to_nat idx0) (length xs) in
      Ok (List (take i xs ++ arg args 2 :: drop i xs)));
   ("remove", λ args site,
      _ ← require_args "remove" args 2 site;
      let xs := as_list (arg args 0) in
      pos ← to_index (arg args 1);
      let idx0 := index_at (len xs) pos in
      Ok (if (idx0 <? 0) || (len xs <=? idx0) then Null else List (delete (Z.to_nat idx0) xs)));
   ("union", λ args _, Ok (List (distinct (concat (map as_list args)))))].

(** ** Dates and times *)

Definition to_instant (v : FeelValue) (func : string) (site : Z) : res OffsetDateTime :=
  match v with
  | Null => reject (error FEEL_EVAL_NULL_DEREFERENCE (func +:+ "() temporal argument is null") site)
  | Instant t _ => Ok t
  | Str s =>
      match rfc3339_parse s with
      | Ok t => Ok t
      | Err _ => mismatch (func +:+ "() cannot parse temporal value '" +:+ s +:+
                             "' — expected ISO-8601 instant or offset date-time") site
      end
  | other => mismatch (func +:+ "() cannot convert " +:+ type_name other +:+ " to an instant") site
  end.

Definition seconds_between (args : list FeelValue) (site : Z) : res FeelValue :=
  _ ← require_args "secondsBetween" args 2 site;
  from ← to_instant (arg args 0) "secondsBetween" site;
  to ← to_instant (arg args 1) "secondsBetween" site;
  Ok (Number (mk_decimal ((unix_nanos to - unix_nanos from) / 1000000) 3)).

Definition date_builtin (args : list FeelValue) (site : Z) : res FeelValue :=
  match args with
  | [Str s] =>
      match parse_at_literal s with
      | Some (DateV d) => Ok (DateV d)
      | Some (Instant dt _) => Ok (DateV (odt_date dt))
      | _ => mismatch "date() cannot parse the string" site
      end
  | [Instant t _] => Ok (DateV (odt_date t))
  | [DateV d] => Ok (DateV d)
  | [y; m; d] =>
      year ← require_int y "date" site;
      year ← or_temporal_err (to_i32 year) "date() year out of range" site;
      month ← require_int m "date" site;
      month ← or_temporal_err (in_range 1 12 month) "date() month out of range" site;
      day ← require_int d "date" site;
      day ← or_temporal_err (to_u8 day) "date() day out of range" site;
      date ← or_temporal_err (date_from_calendar year month day) "date() is not a valid calendar date" site;
      Ok (DateV date)
  | _ => mismatch "date() expects 1 or 3 arguments" site
  end.

Definition time_from_components (h m s : FeelValue) (offset : option FeelValue) (site : Z) : res FeelValue :=
  hour ← require_int h "time" site;
  min ← require_int m "time" site;
  sec_n ← match s with Number n => Ok n | _ => mismatch "time() expects a number for seconds" site end;
  '(sec, nanos) ← or_temporal_err (split_seconds sec_n) "time() seconds component out of range" site;
  qualifier ← match offset with
    | None | Some Null => Ok None
    | Some (Duration (DaysTime d)) =>
        o ← or_temporal_err (offset_from_duration d) "time() offset out of range" site; Ok (Some (Offset o))
    | Some _ => mismatch "time() offset must be a dayTimeDuration" site
    end;
  match to_u8 hour, to_u8 min with
  | Some h, Some m =>
      t ← or_temporal_err (time_from_hms_nano h m sec nanos) "time() is not a valid time" site;
      Ok (TimeV t qualifier)
  | _, _ => mismatch "time() component out of range" site
  end.

Definition time_builtin (args : list FeelValue) (site : Z) : res FeelValue :=
  match args with
  | [Str s] =>
      match parse_at_literal s with
      | Some (TimeV t q) => Ok (TimeV t q)
      | Some (Instant dt q) => Ok (TimeV (time_of_day dt) q)
      | _ => mismatch "time() cannot parse the string" site
      end
  | [Instant t q] => Ok (TimeV (time_of_day t) q)
  | [TimeV t q] => Ok (TimeV t q)
  | [DateV _] => Ok (TimeV MIDNIGHT (Some Zulu))
  | [h; m; s] => time_from_components h m s None site
  | [h; m; s; off] => time_from_components h m s (Some off) site
  | _ => mismatch "time() expects 1, 2, 3 or 4 arguments" site
  end.

Definition duration_builtin (args : list FeelValue) (site : Z) : res FeelValue :=
  match args with
  | [Str s] => d ← or_temporal_err (parse_duration s) "duration() cannot parse the string" site; Ok (Duration d)
  | [Duration d] => Ok (Duration d)
  | _ => mismatch "duration() expects a single string argument" site
  end.

Definition date_and_time_builtin (args : list FeelValue) (site : Z) : res FeelValue :=
  match args with
  | [Str s] =>
      match parse_at_literal s with
      | Some (Instant dt q) => Ok (Instant dt q)
      | Some (DateV d) => Ok (Instant (at_utc (d, MIDNIGHT)) None)
      | _ => mismatch "date and time() cannot parse the string" site
      end
  | [Instant t q] => Ok (Instant t q)
  | [DateV d; TimeV t q] => Ok (combine_date_time d t q)
  | [Instant dt _; TimeV t q] => Ok (combine_date_time (odt_date dt) t q)
  | [Str ds; Str ts] =>
      match parse_at_literal ds, parse_at_literal ts with
      | Some (DateV d), Some (TimeV t q) => Ok (combine_date_time d t q)
      | _, _ => mismatch "date and time() cannot parse the arguments" site
      end
  | _ => mismatch "date and time() expects a string or (date, time)" site
  end.

Definition temporal_component (which : string) (v : FeelValue) (site : Z) : res FeelValue :=
  let date d := map_get which [("year", date_year d); ("month", date_month d); ("day", date_day d)] in
  let clock t := map_get which [("hour", hour t); ("minute", minute t); ("second", second t)] in
  let n := match v with
    | DateV d => date d
    | Instant t _ => match date (odt_date t) with Some n => Some n | None => clock (time_of_day t) end
    | TimeV t _ => clock t
    | _ => None
    end in
  n ← or_temporal_err n (which +:+ "() is not defined for " +:+ type_name v) site;
  Ok (num n).

Definition years_and_months_duration (args : list FeelValue) (site : Z) : res FeelValue :=
  _ ← require_args "years and months duration" args 2 site;
  if existsb is_null args then Ok Null
  else
    match date_of (arg args 0), date_of (arg args 1) with
    | Some a, Some b => Ok (Duration (YearsMonths (months_between a b)))
    | _, _ => mismatch "years and months duration() expects two dates" site
    end.

Definition days_and_time_duration (args : list FeelValue) (site : Z) : res FeelValue :=
  _ ← require_args "days and time duration" args 2 site;
  if existsb is_null args then Ok Null
  else
    match arg args 0, arg args 1 with
    | Instant a _, Instant b _ => Ok (Duration (DaysTime (unix_nanos b - unix_nanos a)))
    | v, w =>
        match date_of v, date_of w with
        | Some a, Some b => Ok (Duration (DaysTime ((to_julian_day b - to_julian_day a) * 86400 * NANOS)))
        | _, _ => mismatch "days and time duration() expects two dates/date-times" site
        end
    end.

(** A function of exactly one argument. *)
Definition of_one (name : string) (f : FeelValue → FeelValue) (args : list FeelValue) (site : Z) : res FeelValue :=
  _ ← require_args name args 1 site; Ok (f (arg args 0)).

Definition component_of (which : string) (args : list FeelValue) (site : Z) : res FeelValue :=
  v ← arg0 args which site; temporal_component which v site.

Definition temporal_builtins : list (string * (list FeelValue → Z → res FeelValue)) :=
  [("secondsBetween", seconds_between); ("date", date_builtin); ("time", time_builtin); ("duration", duration_builtin);
   ("dateAndTime", date_and_time_builtin); ("yearsAndMonthsDuration", years_and_months_duration);
   ("daysAndTimeDuration", days_and_time_duration);
   ("year", component_of "year"); ("month", component_of "month"); ("day", component_of "day");
   ("hour", component_of "hour"); ("minute", component_of "minute"); ("second", component_of "second");
   ("dayOfWeek", of_one "day of week" weekday_name); ("monthOfYear", of_one "month of year" month_name);
   ("dayOfYear", of_one "day of year" date_ordinal); ("weekOfYear", of_one "week of year" iso_week)].

(** ** Ranges and contexts *)

Definition is_range_literal_endpoint (e : FeelExpr) : bool :=
  match e with
  | Literal _ _ _ => true
  | Call _ _ name [Literal _ _ _] _ =>
      existsb (String.eqb name) ["date"; "time"; "duration"; "date and time"]
  | _ => false
  end.

(** What the evaluator makes of such an endpoint in the empty context. *)
Definition endpoint_value (e : FeelExpr) : res FeelValue :=
  match e with
  | Literal _ _ v => Ok v
  | Call site _ name [Literal _ _ v] _ =>
      match map_get (canonical_builtin name) temporal_builtins with
      | Some f => f [v] site
      | None => Ok Null
      end
  | _ => Ok Null
  end.

(** [r.ok()]: an error is nothing, a panic goes on. *)
Definition ok_of {A} (r : res A) : res (option A) :=
  match r with Ok a => Ok (Some a) | Err (Rejected _) => Ok None | Err f => Err f end.

Definition parse_range_literal (v : FeelValue) : res (option FeelValue) :=
  match v with
  | Str s =>
      expr ← ok_of (parse s);
      match expr with
      | Some (RangeLit _ _ from to from_inclusive to_inclusive _) =>
          if is_range_literal_endpoint from && is_range_literal_endpoint to then
            start ← ok_of (endpoint_value from);
            match start with
            | None => Ok None
            | Some start =>
                end_ ← ok_of (endpoint_value to);
                match end_ with
                | None => Ok None
                | Some end_ =>
                    Ok (if is_null start || is_null end_ then None
                        else match feel_cmp start end_ with
                             | Some Lt | Some Eq => Some (Range (mk_range start end_ from_inclusive to_inclusive None))
                             | _ => None
                             end)
                end
            end
          else Ok None
      | _ => Ok None
      end
  | _ => Ok None
  end.

Definition range_builtin (args : list FeelValue) (site : Z) : res FeelValue :=
  _ ← require_args "range" args 1 site;
  r ← parse_range_literal (arg args 0);
  match r with Some v => Ok v | None => mismatch "range() argument is not a valid range literal" site end.

(** A list of contexts, or one context. *)
Definition contexts_of (v : FeelValue) : option (list FeelValue) :=
  match v with List xs => Some xs | Map m => Some [Map m] | _ => None end.

Definition add_entry (acc : option (list (string * FeelValue))) (entry : FeelValue) : option (list (string * FeelValue)) :=
  out ← acc;
  match entry with
  | Map m =>
      match map_get "key" m, map_get "value" m with
      | Some (Str key), Some value => if is_some (map_get key out) then None else Some (map_insert key value out)
      | _, _ => None
      end
  | _ => None
  end.

Definition context_builtin (args : list FeelValue) (site : Z) : res FeelValue :=
  _ ← require_args "context" args 1 site;
  Ok (match (entries ← contexts_of (arg args 0); fold_left add_entry entries (Some [])) with
      | Some out => Map out
      | None => Null
      end).

Definition insert_all (out m : list (string * FeelValue)) : list (string * FeelValue) :=
  fold_left (λ acc kv, map_insert kv.1 kv.2 acc) m out.

Definition context_merge (args : list FeelValue) (site : Z) : res FeelValue :=
  _ ← require_args "context merge" args 1 site;
  let merge acc c := out ← acc; match c with Map m => Some (insert_all out m) | _ => None end in
  Ok (match (contexts ← contexts_of (arg args 0); fold_left merge contexts (Some [])) with
      | Some out => Map out
      | None => Null
      end).

Definition get_entries (m : list (string * FeelValue)) : FeelValue :=
  List (map (λ kv, Map [("key", Str kv.1); ("value", kv.2)]) m).

(** The context, the key (and whether it was named [key]) and the value. *)
Record PutArgs : Type := mk_put { put_context : option FeelValue; put_key : option (bool * FeelValue);
  put_value : option FeelValue }.

Definition put_arg (acc : option PutArgs) (x : option string * FeelValue) : option PutArgs :=
  a ← acc;
  match x.1 with
  | Some n =>
      if String.eqb n "context" then Some (mk_put (Some x.2) (put_key a) (put_value a))
      else if String.eqb n "key" then Some (mk_put (put_context a) (Some (true, x.2)) (put_value a))
      else if String.eqb n "keys" then Some (mk_put (put_context a) (Some (false, x.2)) (put_value a))
      else if String.eqb n "value" then Some (mk_put (put_context a) (put_key a) (Some x.2))
      else None
  | None => None
  end.

Definition put_args (args : list FeelValue) (arg_names : list (option string)) : option (FeelValue * FeelValue * FeelValue) :=
  if any_named arg_names then
    a ← fold_left put_arg (zip arg_names args) (Some (mk_put None None None));
    c ← put_context a;
    '(singular, k) ← put_key a;
    v ← put_value a;
    if singular && match k with List _ => true | _ => false end then None else Some (c, k, v)
  else
    match args with [c; k; v] => Some (c, k, v) | _ => None end.

Definition context_put (args : list FeelValue) (arg_names : list (option string)) : FeelValue :=
  match put_args args arg_names with
  | Some (Map base, Str k, v) => Map (map_insert k v base)
  | Some (Map base, List path, v) => match set_nested base path v with Some m => m | None => Null end
  | _ => Null
  end.

Definition relation_builtin (name : string) (args : list FeelValue) (site : Z) : res FeelValue :=
  _ ← require_args name args 2 site; Ok (of_tri (interval_relation name (arg args 0) (arg args 1))).

Definition context_builtins : list (string * (list FeelValue → Z → res FeelValue)) :=
  [("is", λ args site, _ ← require_args "is" args 2 site; Ok (Boolean (value_eqb (arg args 0) (arg args 1))));
   ("range", range_builtin);
   ("getValue", λ args site,
      _ ← require_args "getValue" args 2 site;
      Ok (match arg args 0, arg args 1 with Map m, Str k => pick k m | _, _ => Null end));
   ("getEntries", λ args site,
      _ ← require_args "getEntries" args 1 site;
      Ok (match arg args 0 with Map m => get_entries m | _ => Null end));
   ("context", context_builtin); ("contextMerge", context_merge)].

Definition relation_builtins : list (string * (list FeelValue → Z → res FeelValue)) :=
  map (λ r, (r.1, relation_builtin r.1)) RELATIONS.

(** ** The arms of [invoke_builtin] that are functions of their arguments *)

Definition pure_builtins : list (string * (list FeelValue → Z → res FeelValue)) :=
  string_builtins ++ numeric_builtins ++ aggregate_builtins ++ list_builtins ++ temporal_builtins ++ context_builtins
    ++ relation_builtins.

Definition undefined_function {A} (name : string) (site : Z) : res A :=
  reject (error FEEL_COMPILE_UNDEFINED_VARIABLE ("Unknown FEEL function: " +:+ name +:+ "()") site).
End Builtins.

(** ** Entropy ([random.rs]) *)

(** [format!("{x:02x}")] of each byte. *)
Definition hex2 (b : Z) : string :=
  let digit d := if d <? 10 then digit_char d else ascii_of_nat (Z.to_nat (87 + d)) in
  String (digit (b / 16)) (String (digit (b mod 16)) "").
Definition hex (bs : list Z) : string := String.concat "" (map hex2 bs).

(** The version and variant bits, then 4-2-2-2-6 bytes. *)
Definition uuid_v4 (entropy : list Z) : string :=
  let b := imap (λ i x, if (i =? 6)%nat then Z.lor (Z.land x 15) 64
                        else if (i =? 8)%nat then Z.lor (Z.land x 63) 128 else x) entropy in
  hex (take 4 b) +:+ "-" +:+ hex (take 2 (drop 4 b)) +:+ "-" +:+ hex (take 2 (drop 6 b)) +:+ "-"
    +:+ hex (take 2 (drop 8 b)) +:+ "-" +:+ hex (take 6 (drop 10 b)).

Definition u64_from_be (bs : list Z) : Z := fold_left (λ acc b, acc * 256 + b) bs 0.

Definition random_unit_f64 `{Doubles} (entropy : list Z) : double :=
  f_mul (f_of_int (Z.shiftr (u64_from_be entropy) 11)) (f_div (f_of_int 1) (f_of_int (2 ^ 53))).
