(* ===== verification/FeelEval.v ===== *)
(** * The FEEL evaluator ([sutra-feel/src/evaluator.rs], [impl Evaluator])

    An evaluation threads a counter of the readings it has made of its surroundings: the
    clock and the entropy source are read by [now], [today], [uuid] and [random] alone, and
    [Ambient] gives what each reading returns.  The tree is walked structurally; a function
    value runs its body in the scope it captured, which is the only recursion that is not on
    the tree, and it is tied on fuel.  A native function value is the caller's code
    ([Natives]), by its id; the ids of the evaluator's own wrappers of builtins start with
    [feel-builtin:].

    [sort] runs the standard library's insertion sort, which is its sort of up to twenty
    elements and agrees with its sort of any number for a strict weak order.

    The theorems are in [FeelLaws] and [FeelRuns]. *)
From Stdlib Require Import ZArith Lia Bool Ascii String.
From stdpp Require Import base option strings list.
From S2P Require Import Prelude Texts Decimal FeelValue Temporal FeelText TemporalParse FeelLexer FeelParser.
From S2P Require Import FeelOps FeelBuiltins.

Open Scope string_scope.
Open Scope list_scope.
Open Scope Z_scope.

(** ** Surroundings *)

(** What the n-th reading gives: [now_utc], and so many bytes of [getrandom]. *)
Class Ambient : Type := { now_utc : nat → OffsetDateTime; getrandom : nat → nat → option (list Z) }.

Class Natives : Type := { native_call : string → list FeelValue → FeelValue }.

Definition M (A : Type) : Type := nat → res A * nat.

#[export] Instance m_ret : MRet M := λ A a k, (Ok a, k).
#[export] Instance m_bind : MBind M := λ A B f m k,
  match m k with (Ok a, k') => f a k' | (Err e, k') => (Err e, k') end.

Definition lift {A} (r : res A) : M A := λ k, (r, k).
Definition reading {A} (f : nat → A) : M A := λ k, (Ok (f k), S k).

(** The error as a value; a panic is not caught. *)
Definition attempt {A} (m : M A) : M (result FeelError A) := λ k,
  match m k with
  | (Ok a, k') => (Ok (Ok a), k')
  | (Err (Rejected e), k') => (Ok (Err e), k')
  | (Err Panicked, k') => (Err Panicked, k')
  | (Err OutOfFuel, k') => (Err OutOfFuel, k')
  end.

(** *** Loops *)

Definition map_m {A B} (f : A → M B) : list A → M (list B) :=
  fix go l := match l with [] => mret [] | x :: l => y ← f x; ys ← go l; mret (y :: ys) end.

Definition fold_m {A B} (f : A → B → M A) : list B → A → M A :=
  fix go l acc := match l with [] => mret acc | x :: l => acc ← f acc x; go l acc end.

(** Until [f] gives a result; [done_] when it never does. *)
Definition until {A B} (f : A → M (option B)) (done_ : B) : list A → M B :=
  fix go l := match l with
    | [] => mret done_
    | x :: l => o ← f x; match o with Some b => mret b | None => go l end
    end.

(** What [f] gives for each, in one list; nothing once it gives nothing. *)
Definition gather {A B} (f : A → M (option (list B))) : list A → M (option (list B)) :=
  fix go l := match l with
    | [] => mret (Some [])
    | x :: l =>
        o ← f x;
        match o with
        | Some bs => rest ← go l; mret (app bs <$> rest)
        | None => mret None
        end
    end.

Definition BUILTIN_ID : string := "feel-builtin:".

Definition NON_DETERMINISTIC_BUILTINS : list string :=
  ["now"; "today"; "currentDate"; "currentTime"; "uuid"; "random"; "randomNumber"].

Definition builtin_as_function_value (name : string) : option FeelValue :=
  let canonical := canonical_builtin name in
  if existsb (String.eqb canonical) NON_DETERMINISTIC_BUILTINS then None
  else
    params ← builtin_param_names canonical;
    Some (Invocable (BUILTIN_ID +:+ canonical) params (replicate (length params) ShapeAny) ShapeAny).

Section Eval.
Context `{UnicodeTables, BigDecimalOps, BigDecimalText, DecimalCrate, Doubles, TimeCrate, TimeText, TimeParse, Calendar,
  Regex, CaseTables} {ambient : Ambient} {natives : Natives}.

Section Evaluator.
Context (positions : option FeelSourcePositions) (type_resolver : option TypeResolver) (type_fuel : nat).

(** ** Iteration *)

(** [while i <= hi], respectively [while i >= hi], with [i64] steps. *)
Fixpoint count_up (fuel : nat) (i hi : Z) : res (list FeelValue) :=
  if i <=? hi then
    match fuel with O => Err OutOfFuel | S fuel => xs ← count_up fuel (wrap64 (i + 1)) hi; Ok (num i :: xs) end
  else Ok [].

Fixpoint count_down (fuel : nat) (i hi : Z) : res (list FeelValue) :=
  if hi <=? i then
    match fuel with O => Err OutOfFuel | S fuel => xs ← count_down fuel (wrap64 (i - 1)) hi; Ok (num i :: xs) end
  else Ok [].

Definition MAX_RANGE : Z := 10000000.

Fixpoint date_steps (fuel : nat) (jd end_jd step site : Z) : res (list FeelValue) :=
  match fuel with
  | O => Err OutOfFuel
  | S fuel =>
      d ← (match from_julian_day jd with
           | Some d => Ok d
           | None => mismatch positions "date range step out of range" site
           end);
      if jd =? end_jd then Ok [DateV d]
      else xs ← date_steps fuel (as_i32 (jd + step)) end_jd step site; Ok (DateV d :: xs)
  end.

Definition expand_date_range (start end_ : Date) (start_inclusive end_inclusive : bool) (site : Z)
    (allow_descending : bool) : res (list FeelValue) :=
  if negb start_inclusive || negb end_inclusive then mismatch positions "cannot iterate an open-ended date range" site
  else
    let start_jd := to_julian_day start in
    let end_jd := to_julian_day end_ in
    if negb allow_descending && (end_jd <? start_jd)
    then mismatch positions "cannot iterate a descending interval literal value" site
    else if MAX_RANGE <? Z.abs (as_i32 (end_jd - start_jd))
    then mismatch positions ("date range " +:+ date_display start +:+ ".." +:+ date_display end_ +:+
           " is too large to iterate") site
    else
      date_steps (S (Z.to_nat (Z.abs (end_jd - start_jd)))) start_jd end_jd (if start_jd <=? end_jd then 1 else -1) site.

(** A signed decimal text ([Display] of an [i64]). *)
Definition z_text (n : Z) : string := if n <? 0 then "-" +:+ dec_string (- n) else dec_string n.

Definition expand_range (r : FeelRange) (site : Z) (allow_descending : bool) : res (list FeelValue) :=
  let 'mk_range s e si ei _ := r in
  match s, e with
  | DateV ds, DateV de => expand_date_range ds de si ei site allow_descending
  | _, _ =>
      match int_of s, int_of e with
      | Some start, Some end_ =>
          if negb allow_descending && (end_ <? start)
          then mismatch positions "cannot iterate a descending interval literal value" site
          else
            let ascending := start <=? end_ in
            let step := if ascending then 1 else -1 in
            let lo := wrap64 (start + (if si then 0 else step)) in
            let hi := wrap64 (end_ - (if ei then 0 else step)) in
            if MAX_RANGE <? Z.abs (wrap64 (hi - lo))
            then mismatch positions ("range " +:+ z_text start +:+ ".." +:+ z_text end_ +:+
                   " is too large to iterate") site
            else
              let fuel := S (Z.to_nat (Z.abs (hi - lo))) in
              if ascending then count_up fuel lo hi else count_down fuel lo hi
      | _, _ => mismatch positions "cannot iterate a non-integer range" site
      end
  end.

Definition is_bare_range (source : FeelExpr) : bool :=
  match source with RangeLit _ _ _ _ _ _ bracketed => negb bracketed | _ => false end.

Definition items_of (v : FeelValue) (site : Z) (allow_descending : bool) : res (list FeelValue) :=
  match v with
  | List xs => Ok xs
  | Range r => expand_range r site allow_descending
  | other => Ok [other]
  end.

(** ** Operators *)

Definition compare (a b : FeelValue) (site : Z) : res comparison :=
  if is_null a || is_null b then reject (error positions FEEL_EVAL_NULL_DEREFERENCE "Comparison operand is null" site)
  else
    match a, b with
    | Boolean x, Boolean y =>
        Ok (match x, y with false, true => Lt | true, false => Gt | _, _ => Eq end)
    | Duration x, Duration y =>
        match feel_cmp a b with
        | Some c => Ok c
        | None => mismatch positions "cannot compare a years-months duration with a days-time duration" site
        end
    | _, _ =>
        match feel_cmp a b with
        | Some c => Ok c
        | None => mismatch positions ("Cannot compare " +:+ type_name a +:+ " with " +:+ type_name b) site
        end
    end.

Definition compare_values (op : CompareOp) (l r : FeelValue) (site : Z) : res FeelValue :=
  let ordered (f : comparison → bool) :=
    if is_null l || is_null r then Ok Null else c ← compare l r site; Ok (Boolean (f c)) in
  match op with
  | Eq_ => Ok (of_tri (equals_feel l r))
  | Neq => Ok (of_tri (negb <$> equals_feel l r))
  | Lt_ => ordered (λ c, match c with Lt => true | _ => false end)
  | Le_ => ordered (λ c, match c with Gt => false | _ => true end)
  | Gt_ => ordered (λ c, match c with Gt => true | _ => false end)
  | Ge_ => ordered (λ c, match c with Lt => false | _ => true end)
  end.

(** The right operand is evaluated unless the left one decides. *)
Definition bool_op (op : LogicalOp) (l : option bool) (right : M FeelValue) : M FeelValue :=
  match op with
  | And_ =>
      match l with
      | Some false => mret (Boolean false)
      | _ =>
          r ← right;
          mret (match l, tri r with
                | _, Some false => Boolean false
                | Some true, Some true => Boolean true
                | _, _ => Null
                end)
      end
  | Or_ =>
      match l with
      | Some true => mret (Boolean true)
      | _ =>
          r ← right;
          mret (match l, tri r with
                | _, Some true => Boolean true
                | Some false, Some false => Boolean false
                | _, _ => Null
                end)
      end
  end.

Definition is_string (v : FeelValue) : bool := match v with Str _ => true | _ => false end.

Definition arith_values (op : ArithOp) (l r : FeelValue) : res FeelValue :=
  let numeric :=
    if is_temporal l || is_temporal r then
      v ← temporal_arith l op r;
      match v with
      | Some v => Ok v
      | None => reject (error_plain FEEL_COMPILE_TYPE_MISMATCH ("unsupported temporal arithmetic: " +:+ type_name l +:+ " "
                          +:+ arith_symbol op +:+ " " +:+ type_name r))
      end
    else if is_null l || is_null r then Ok Null
    else if is_string l || is_string r then Ok Null
    else
      ln ← to_big_decimal l;
      rn ← to_big_decimal r;
      match op with
      | Plus => Ok (Number (add ln rn))
      | Minus => Ok (Number (sub ln rn))
      | Times => Ok (Number (mul ln rn))
      | Div_ => Ok (if is_zero rn then Null else Number (div ln rn))
      | Pow_ => pow_decimal ln rn
      end in
  match op, l, r with
  | Plus, Str a, Str b => Ok (Str (a +:+ b))
  | _, _, _ => numeric
  end.

Definition negate (v : FeelValue) : res FeelValue :=
  match v with
  | Number n => Ok (Number (bd_neg n))
  | Duration (YearsMonths m) => Ok (Duration (YearsMonths (as_i32 (- m))))
  | Duration (DaysTime d) => d ← or_panic (duration_neg d); Ok (Duration (DaysTime d))
  | _ => Ok Null
  end.

Definition membership (v t : FeelValue) : FeelValue :=
  match t with
  | List items => Boolean (existsb (λ e, equal v e) items)
  | Range r => of_tri (range_contains r v)
  | other => Boolean (equal v other)
  end.

(** A path; a single name that is not in the context may be a builtin. *)
Definition path_value (segments : list string) (ctx : FeelContext) : res FeelValue :=
  v ← resolve_path segments ctx;
  Ok (match segments with
      | [s] =>
          if is_null v && negb (is_some (map_get s ctx)) then
            match builtin_as_function_value s with Some f => f | None => Null end
          else v
      | _ => v
      end).

(** The element a numeric filter names. *)
Definition filter_index (items : list FeelValue) (n : BigDecimal) : FeelValue :=
  let i := match bd_to_i64 n with Some i => i | None => 0 end in
  let idx0 := index_at (len items) i in
  if (0 <=? idx0) && (idx0 <? len items) then nth_value items idx0 else Null.

(** The scope of a filter's predicate on an element. *)
Definition item_scope (ctx : FeelContext) (item : FeelValue) : FeelContext :=
  let local := map_insert "item" item ctx in
  match item with Map m => insert_all local m | _ => local end.

(** ** Calls *)

(** The parameters a call supplies, by index. *)
Definition call_bindings (params : list string) (args : list FeelValue) (arg_names : list (option string))
    : list (nat * FeelValue) :=
  if any_named arg_names then
    omap (λ nv : option string * FeelValue, n ← nv.1; idx ← position n params; Some (idx, nv.2)) (zip arg_names args)
  else take (length params) (imap pair args).

(** The scope of the body: what was captured, and the coerced arguments; [None] on an
    argument that does not conform. *)
Fixpoint bind_params (params : list string) (shapes : list FeelTypeShape) (bindings : list (nat * FeelValue))
    (local : FeelContext) : option FeelContext :=
  match bindings with
  | [] => Some local
  | (idx, value) :: r =>
      coerced ← coerce_to_shape value (nth idx shapes ShapeAny);
      bind_params params shapes r (map_insert (nth idx params "") coerced local)
  end.

Definition or_null (o : option FeelValue) : FeelValue := match o with Some v => v | None => Null end.

Definition invoke_function (eval_body : FeelExpr → FeelContext → M FeelValue) (f : FeelFunction) (args : list FeelValue)
    (arg_names : list (option string)) (site : Z) : M FeelValue :=
  let 'mk_function params body captured param_shapes return_shape external := f in
  match external with
  | Some binding => lift (reject (error positions FEEL_EVAL_EXTERNAL_UNSUPPORTED (rejection_message binding) site))
  | None =>
      match bind_params params param_shapes (call_bindings params args arg_names) captured with
      | None => mret Null
      | Some local => result ← eval_body body local; mret (or_null (coerce_to_shape result return_shape))
      end
  end.

(** The arguments of a native call in the order of its parameters: each exactly once. *)
Definition fill_once (params : list string) (acc : option (list (option FeelValue))) (nv : option string * FeelValue)
    : option (list (option FeelValue)) :=
  slots ← acc;
  n ← nv.1;
  idx ← position n params;
  match slots !! idx with Some None => Some (<[idx := Some nv.2]> slots) | _ => None end.

Definition order_args (params : list string) (args : list FeelValue) (arg_names : list (option string))
    : option (list FeelValue) :=
  if any_named arg_names then
    if (length arg_names =? length params)%nat && forallb is_some arg_names then
      slots ← fold_left (fill_once params) (zip arg_names args) (Some (replicate (length params) None));
      mapM id slots
    else None
  else if (length args =? length params)%nat then Some args else None.

Section Calls.
Context (call : FeelFunction → list FeelValue → list (option string) → Z → M FeelValue).

(** *** Builtins that call a function value *)

(** [insert_tail]: [x] moves left while it precedes its neighbour; the sorted elements are
    listed from the last. *)
Fixpoint insert_tail (less : FeelValue → FeelValue → M bool) (x : FeelValue) (sorted : list FeelValue)
    : M (list FeelValue) :=
  match sorted with
  | [] => mret [x]
  | y :: r => b ← less x y; if (b : bool) then r ← insert_tail less x r; mret (y :: r) else mret (x :: sorted)
  end.

Definition sort_builtin (args : list FeelValue) (site : Z) : M FeelValue :=
  _ ← lift (require_args positions "sort" args 2 site);
  match arg args 0, arg args 1 with
  | List xs, Function f =>
      let less a b := v ← call f [a; b] [None; None] site; mret (match v with Boolean true => true | _ => false end) in
      sorted ← fold_m (λ acc x, insert_tail less x acc) xs [];
      mret (List (rev sorted))
  | _, _ => mret Null
  end.

Record ReplaceArgs : Type := mk_replace { rep_list : option FeelValue; rep_second : option FeelValue;
  rep_item : option FeelValue }.

Definition replace_arg (acc : option ReplaceArgs) (x : option string * FeelValue) : option ReplaceArgs :=
  a ← acc;
  n ← x.1;
  if String.eqb n "list" then Some (mk_replace (Some x.2) (rep_second a) (rep_item a))
  else if String.eqb n "position" || String.eqb n "match" then Some (mk_replace (rep_list a) (Some x.2) (rep_item a))
  else if String.eqb n "newItem" then Some (mk_replace (rep_list a) (rep_second a) (Some x.2))
  else None.

Definition replace_args (args : list FeelValue) (arg_names : list (option string))
    : option (FeelValue * FeelValue * FeelValue) :=
  if any_named arg_names then
    a ← fold_left replace_arg (zip arg_names args) (Some (mk_replace None None None));
    l ← rep_list a;
    s ← rep_second a;
    n ← rep_item a;
    Some (l, s, n)
  else match args with [l; s; n] => Some (l, s, n) | _ => None end.

Definition list_replace (args : list FeelValue) (arg_names : list (option string)) (site : Z) : M FeelValue :=
  match replace_args args arg_names with
  | None | Some (Null, _, _) => mret Null
  | Some (list_v, second, new_item) =>
      let items := as_list list_v in
      match second with
      | Function f =>
          let 'mk_function params _ _ _ _ _ := f in
          if (length params =? 2)%nat then
            out ← gather (λ item,
              v ← call f [item; new_item] [None; None] site;
              mret (match v with Boolean true => Some [new_item] | Boolean false => Some [item] | _ => None end)) items;
            mret (match out with Some xs => List xs | None => Null end)
          else mret Null
      | Number _ =>
          pos ← lift (to_index second);
          let idx0 := index_at (len items) pos in
          mret (if (pos =? 0) || (idx0 <? 0) || (len items <=? idx0) then Null
                else List (<[Z.to_nat idx0 := new_item]> items))
      | _ => mret Null
      end
  end.

(** *** The arms of [invoke_builtin] *)

Definition invoke_builtin (name : string) (args : list FeelValue) (arg_names : list (option string)) (site : Z)
    : M FeelValue :=
  let name := canonical_builtin name in
  if String.eqb name "contextPut" then mret (context_put args arg_names)
  else if String.eqb name "listReplace" then list_replace args arg_names site
  else
    match bind_builtin_args name args arg_names with
    | None => mret Null
    | Some args =>
        if String.eqb name "now" then
          _ ← lift (require_args positions "now" args 0 site); t ← reading now_utc; mret (Instant t (Some Zulu))
        else if String.eqb name "today" then
          _ ← lift (require_args positions "today" args 0 site); t ← reading now_utc; mret (DateV (odt_date t))
        else if String.eqb name "uuid" then
          b ← reading (λ k, getrandom k 16); b ← lift (or_panic b); mret (Str (uuid_v4 b))
        else if String.eqb name "random" then
          b ← reading (λ k, getrandom k 8); b ← lift (or_panic b); lift (from_f64 (random_unit_f64 b))
        else if String.eqb name "sort" then sort_builtin args site
        else
          match map_get name (pure_builtins positions) with
          | Some f => lift (f args site)
          | None => lift (undefined_function positions name site)
          end
    end.
End Calls.
End Evaluator.

(** ** The walk of the tree *)

Section Walk.
Context (positions : option FeelSourcePositions) (type_resolver : option TypeResolver) (type_fuel : nat).
Context (call : FeelFunction → list FeelValue → list (option string) → Z → M FeelValue).

(** The closure of a wrapped builtin, without positions, its error as [null]; any other
    closure is the caller's. *)
Definition invocable_result (id : string) (args : list FeelValue) : M FeelValue :=
  match strip_prefix BUILTIN_ID id with
  | Some name =>
      r ← attempt (invoke_builtin None call name args [] 0);
      mret (match r with Ok v => v | Err _ => Null end)
  | None => mret (native_call id args)
  end.

Definition invoke_invocable (id : string) (params : list string) (param_shapes : list FeelTypeShape)
    (return_shape : FeelTypeShape) (args : list FeelValue) (arg_names : list (option string)) : M FeelValue :=
  match (ordered ← order_args params args arg_names;
         mapM (λ vs : FeelValue * FeelTypeShape, coerce_to_shape vs.1 vs.2) (zip ordered param_shapes)) with
  | None => mret Null
  | Some coerced => result ← invocable_result id coerced; mret (or_null (coerce_to_shape result return_shape))
  end.

(** A call of a value: of a function, of a native one, or of neither. *)
Definition invoke_value (callee : FeelValue) (args : list FeelValue) (arg_names : list (option string)) (site : Z)
    (otherwise : M FeelValue) : M FeelValue :=
  match callee with
  | Function f => call f args arg_names site
  | Invocable id params shapes ret => invoke_invocable id params shapes ret args arg_names
  | _ => otherwise
  end.

Fixpoint eval_internal (expr : FeelExpr) (ctx : FeelContext) {struct expr} : M FeelValue :=
  match expr with
  | Literal _ _ v => mret v
  | Path _ _ segments => lift (path_value segments ctx)
  | Compare site _ lhs op rhs =>
      l ← eval_internal lhs ctx;
      r ← eval_internal rhs ctx;
      lift (compare_values positions op l r site)
  | BoolOp _ _ lhs op rhs => l ← eval_internal lhs ctx; bool_op op (tri l) (eval_internal rhs ctx)
  | Not _ _ a => v ← eval_internal a ctx; mret (of_tri (negb <$> tri v))
  | Negate _ _ a => v ← eval_internal a ctx; lift (negate v)
  | Arith _ _ lhs op rhs =>
      l ← eval_internal lhs ctx;
      r ← eval_internal rhs ctx;
      lift (arith_values op l r)
  | Call site _ name args arg_names =>
      vs ← map_m (λ a, eval_internal a ctx) args;
      invoke_value (or_null (map_get name ctx)) vs arg_names site (invoke_builtin positions call name vs arg_names site)
  | FunctionDef _ _ params shapes external body =>
      binding ← (if external then
                   r ← attempt (eval_internal body ctx);
                   mret (Some (match r with Ok v => classify_body_value v | Err e => MalformedBinding (fe_message e) end))
                 else mret None);
      mret (Function (mk_function params body ctx shapes ShapeAny binding))
  | IfThenElse _ _ cond then_ otherwise =>
      c ← eval_internal cond ctx;
      match c with
      | Boolean true => eval_internal then_ ctx
      | Boolean false | Null => eval_internal otherwise ctx
      | _ => mret Null
      end
  | ListLit _ _ items => vs ← map_m (λ e, eval_internal e ctx) items; mret (List vs)
  | ContextLit _ _ entries =>
      (fix go (entries : list (string * FeelExpr)) (local m : FeelContext) : M FeelValue :=
         match entries with
         | [] => mret (Map m)
         | (key, e) :: entries =>
             if is_some (map_get key m) then mret Null
             else v ← eval_internal e local; go entries (map_insert key v local) (map_insert key v m)
         end) entries ctx []
  | RangeLit _ _ from to from_inclusive to_inclusive _ =>
      s ← eval_internal from ctx;
      e ← eval_internal to ctx;
      mret (Range (mk_range s e from_inclusive to_inclusive None))
  | Quantifier site _ every var source condition =>
      v ← eval_internal source ctx;
      items ← lift (items_of positions v site (is_bare_range source));
      until (λ item,
        r ← eval_internal condition (map_insert var item ctx);
        mret (match r with
              | Boolean b => if Bool.eqb b every then None else Some (Boolean b)
              | Null => None
              | _ => Some Null
              end)) (Boolean every) items
  | For _ _ bindings body =>
      out ← (fix go (bindings : list (string * FeelExpr)) (ctx : FeelContext) (out : list FeelValue) : M (list FeelValue) :=
        match bindings with
        | [] => v ← eval_internal body (map_insert "partial" (List out) ctx); mret (out ++ [v])
        | (var, source) :: bindings =>
            v ← eval_internal source ctx;
            items ← lift (items_of positions v (start body) (is_bare_range source));
            fold_m (λ out item, go bindings (map_insert var item ctx) out) items out
        end) bindings ctx [];
      mret (List out)
  | Filter _ _ source predicate =>
      src ← eval_internal source ctx;
      if is_null src then mret Null
      else
        index ← attempt (eval_internal predicate ctx);
        match index with
        | Ok (Number n) => mret (filter_index (as_list src) n)
        | _ =>
            kept ← gather (λ item,
              r ← eval_internal predicate (item_scope ctx item);
              mret (match r with
                    | Boolean true => Some [item]
                    | Boolean false | Null => Some []
                    | _ => None
                    end)) (as_list src);
            mret (match kept with Some xs => List xs | None => Null end)
        end
  | FieldAccess _ _ base field => v ← eval_internal base ctx; mret (field_access v field)
  | InstanceOf _ _ e shape =>
      v ← eval_internal e ctx;
      b ← lift (instance_of_shape type_fuel v shape type_resolver);
      mret (Boolean b)
  | In_ _ _ value_ test => v ← eval_internal value_ ctx; t ← eval_internal test ctx; mret (membership v t)
  | Invoke site _ callee args arg_names =>
      c ← eval_internal callee ctx;
      vs ← map_m (λ a, eval_internal a ctx) args;
      invoke_value c vs arg_names site
        (lift (mismatch positions ("Cannot invoke a " +:+ type_name c +:+ " as a function") site))
  | OpenRange _ _ op bound => b ← eval_internal bound ctx; mret (Range (open_range_value op b))
  end.
End Walk.

(** ** Tying the knot *)

(** A function value runs its body with one call less to go. *)
Fixpoint invoke (positions : option FeelSourcePositions) (resolver : option TypeResolver) (fuel : nat) (f : FeelFunction)
    (args : list FeelValue) (arg_names : list (option string)) (site : Z) : M FeelValue :=
  match fuel with
  | O => lift (Err OutOfFuel)
  | S fuel =>
      invoke_function positions (eval_internal positions resolver fuel (invoke positions resolver fuel)) f args arg_names
        site
  end.

Definition eval_expr (positions : option FeelSourcePositions) (resolver : option TypeResolver) (fuel : nat)
    (expr : FeelExpr) (ctx : FeelContext) : M FeelValue :=
  eval_internal positions resolver fuel (invoke positions resolver fuel) expr ctx.

(** [eval] and [eval_with_positions]. *)
Definition eval (fuel : nat) (expr : FeelExpr) (ctx : FeelContext) : M FeelValue := eval_expr None None fuel expr ctx.

Definition eval_with_positions (fuel : nat) (expr : FeelExpr) (ctx : FeelContext) (positions : FeelSourcePositions)
    : M FeelValue :=
  eval_expr (Some positions) None fuel expr ctx.

Definition eval_with_positions_and_types (fuel : nat) (expr : FeelExpr) (ctx : FeelContext)
    (positions : FeelSourcePositions) (type_resolver : option TypeResolver) : M FeelValue :=
  eval_expr (Some positions) type_resolver fuel expr ctx.

Definition boolean_result (v : FeelValue) (expr : FeelExpr) (positions : option FeelSourcePositions) : res bool :=
  match v with
  | Boolean b => Ok b
  | Null => Ok false
  | other => mismatch positions ("Expected boolean result, got " +:+ type_name other) (start expr)
  end.

Definition eval_boolean (fuel : nat) (expr : FeelExpr) (ctx : FeelContext) : M bool :=
  v ← eval fuel expr ctx; lift (boolean_result v expr None).
End Eval.
