(* ===== verification/FeelFacade.v ===== *)
(** * The FEEL facade ([sutra-feel/src/expressions.rs], [sutra-feel/src/determinism.rs],
    [sutra-feel/src/paths.rs], and the pattern cache of [sutra-feel/src/evaluator.rs])

    Entry points over texts: what a text means is the evaluation of its parse, with the names
    of the context folded where the text needs them.  A thread keeps the parses that do not
    depend on a context, and the patterns it has compiled; both caches are explicit state
    here, emptied when they are full.

    The theorems: a cached parse and a cached pattern are what a fresh one would be, and the
    caches stay within their bounds ([parse_cache_transparent], [regex_cache_transparent]);
    the paths extracted from a tree lie in its source ([paths_lie_in_source]). *)
From Stdlib Require Import ZArith Lia Bool Ascii String.
From stdpp Require Import base option strings gmap list.
From S2P Require Import Prelude Texts Decimal FeelValue Temporal FeelText TemporalParse FeelLexer FeelParser.
From S2P Require Import FeelSyntax FeelOps FeelBuiltins FeelEval.

Open Scope string_scope.
Open Scope list_scope.
Open Scope Z_scope.

(** ** Determinism *)

Record DeniedCall : Type := mk_denied { dc_builtin : string; dc_offset : Z }.

Fixpoint denied_calls (expr : FeelExpr) : list DeniedCall :=
  match expr with
  | Literal _ _ _ | Path _ _ _ => []
  | Compare _ _ l _ r | BoolOp _ _ l _ r | Arith _ _ l _ r => denied_calls l ++ denied_calls r
  | Not _ _ a | Negate _ _ a => denied_calls a
  | IfThenElse _ _ c t o => denied_calls c ++ denied_calls t ++ denied_calls o
  | Call at_ _ name args _ =>
      (if existsb (String.eqb name) NON_DETERMINISTIC_BUILTINS then [mk_denied name at_] else [])
        ++ concat (map denied_calls args)
  | ListLit _ _ items => concat (map denied_calls items)
  | ContextLit _ _ entries => concat (map (λ kv, denied_calls kv.2) entries)
  | RangeLit _ _ from to _ _ _ => denied_calls from ++ denied_calls to
  | Quantifier _ _ _ _ source condition => denied_calls source ++ denied_calls condition
  | For _ _ bindings body => concat (map (λ kv, denied_calls kv.2) bindings) ++ denied_calls body
  | Filter _ _ source predicate => denied_calls source ++ denied_calls predicate
  | FieldAccess _ _ base _ => denied_calls base
  | InstanceOf _ _ e _ => denied_calls e
  | FunctionDef _ _ _ _ _ body => denied_calls body
  | In_ _ _ v t => denied_calls v ++ denied_calls t
  | Invoke _ _ callee args _ => denied_calls callee ++ concat (map denied_calls args)
  | OpenRange _ _ _ bound => denied_calls bound
  end.

Definition find_denied_calls (expr : FeelExpr) : list DeniedCall := denied_calls expr.

Definition is_pure (expr : FeelExpr) : bool := match find_denied_calls expr with [] => true | _ => false end.

Definition PURE_HINT : string :=
  "Use a payload-derived value, the engine-injected `now` variable (available at DMN evaluation sites, paired with secondsBetween()), or compute the value in a service task that runs once on start (its value is then frozen in process variables).".

Definition require_pure_expr (expr : FeelExpr) (site : string) : result FeelError () :=
  match find_denied_calls expr with
  | [] => Ok tt
  | first :: _ =>
      Err (mk_feel_error FEEL_DETERMINISM_UNSAFE_BUILTIN
        ("The FEEL expression on " +:+ site +:+ " uses `" +:+ dc_builtin first +:+ "`, which is denied at replay-bound sites.")
        (Some (dc_offset first)) None (Some PURE_HINT))
  end.

(** ** Paths *)

Inductive Usage : Type := General | Numeric.

Record PathRef : Type := mk_path { pr_segments : list string; pr_start : Z; pr_end : Z; pr_usage : Usage }.

Definition is_numeric_compare (op : CompareOp) : bool := match op with Lt_ | Le_ | Gt_ | Ge_ => true | _ => false end.

Fixpoint paths_of (expr : FeelExpr) (usage : Usage) : list PathRef :=
  match expr with
  | Literal _ _ _ => []
  | Path s e segments => [mk_path segments s e usage]
  | Compare _ _ l op r =>
      let operand := if is_numeric_compare op then Numeric else General in paths_of l operand ++ paths_of r operand
  | Arith _ _ l _ r => paths_of l Numeric ++ paths_of r Numeric
  | BoolOp _ _ l _ r => paths_of l General ++ paths_of r General
  | Not _ _ a => paths_of a General
  | Negate _ _ a => paths_of a Numeric
  | IfThenElse _ _ c t o => paths_of c General ++ paths_of t usage ++ paths_of o usage
  | Call _ _ _ args _ => concat (map (λ a, paths_of a General) args)
  | ListLit _ _ items => concat (map (λ a, paths_of a General) items)
  | ContextLit _ _ entries => concat (map (λ kv, paths_of kv.2 General) entries)
  | RangeLit _ _ from to _ _ _ => paths_of from Numeric ++ paths_of to Numeric
  | Quantifier _ _ _ _ source condition => paths_of source General ++ paths_of condition General
  | For _ _ bindings body => concat (map (λ kv, paths_of kv.2 General) bindings) ++ paths_of body General
  | Filter _ _ source predicate => paths_of source General ++ paths_of predicate General
  | FieldAccess _ _ base _ => paths_of base General
  | InstanceOf _ _ e _ => paths_of e General
  | FunctionDef _ _ _ _ _ body => paths_of body General
  | In_ _ _ v t => paths_of v General ++ paths_of t General
  | Invoke _ _ callee args _ => paths_of callee General ++ concat (map (λ a, paths_of a General) args)
  | OpenRange _ _ _ bound => paths_of bound Numeric
  end.

Definition extract (expr : FeelExpr) : list PathRef := paths_of expr General.

(** ** Names of a context *)

Fixpoint value_names (v : FeelValue) : list string :=
  match v with
  | Map m => concat (map (λ kv, kv.1 :: value_names kv.2) m)
  | List items => concat (map value_names items)
  | _ => []
  end.

Definition known_names (ctx : FeelContext) : list string :=
  concat (map (λ kv, kv.1 :: value_names kv.2) ctx) ++ spaced_builtin_names.

(** ** Entry points *)

Section Facade.
Context `{UnicodeTables, BigDecimalOps, BigDecimalText, DecimalCrate, Doubles, TimeCrate, TimeText, TimeParse, Calendar,
  Regex, CaseTables, Ambient, Natives}.

Definition parse_with_context_names (expression : string) (names : list string) : res FeelExpr :=
  parse_with_known_names expression (names ++ spaced_builtin_names).

(** The tokens after the names of the context are folded, where the text needs it. *)
Definition parse_in_context (positions : FeelSourcePositions) (ctx : FeelContext) : res FeelExpr :=
  tokens ← tokenize positions;
  parse_tokens positions (if needs_name_resolution tokens then resolve_names tokens (known_names ctx) else tokens).

Definition eval_with_type_resolver (fuel : nat) (expression : string) (ctx : FeelContext) (resolve_named : TypeResolver)
    : M FeelValue :=
  let positions := positions_new expression INLINE_FEEL_URI in
  expr ← lift (parse_in_context positions ctx);
  eval_with_positions_and_types fuel expr ctx positions (Some resolve_named).

Definition eval_boolean_text (fuel : nat) (expression : string) (ctx : FeelContext) : M bool :=
  let positions := positions_new expression INLINE_FEEL_URI in
  expr ← lift (parse_in_context positions ctx);
  v ← eval_with_positions fuel expr ctx positions;
  lift (boolean_result v expr None).

Definition paths_with_uri (expression source_uri : string) : res (list PathRef) :=
  expr ← parse_with_uri expression source_uri; Ok (extract expr).

Definition require_pure (expression site : string) : res () :=
  expr ← parse expression;
  match require_pure_expr expr site with Ok u => Ok u | Err e => Err (Rejected e) end.

(** *** The cache of parses *)

Record ParsedExpression : Type := mk_parsed { pe_positions : FeelSourcePositions; pe_expr : FeelExpr }.

Definition PARSED_EXPRESSIONS_PER_THREAD : nat := 4096.

Record ParseCache : Type := mk_cache { by_uri : gmap string (gmap string ParsedExpression); cache_len : nat }.

Definition cached_parse (cache : ParseCache) (expression source_uri : string) : option ParsedExpression :=
  by_text ← by_uri cache !! source_uri; by_text !! expression.

Definition remember_parse (cache : ParseCache) (expression source_uri : string) (parsed : ParsedExpression) : ParseCache :=
  let cache := if (PARSED_EXPRESSIONS_PER_THREAD <=? cache_len cache)%nat then mk_cache ∅ 0 else cache in
  let by_text := default ∅ (by_uri cache !! source_uri) in
  mk_cache (<[source_uri := <[expression := parsed]> by_text]> (by_uri cache))
    (if is_some (by_text !! expression) then cache_len cache else S (cache_len cache)).

Definition eval_with_uri (fuel : nat) (cache : ParseCache) (expression : string) (ctx : FeelContext) (source_uri : string)
    : M FeelValue * ParseCache :=
  match cached_parse cache expression source_uri with
  | Some parsed => (eval_with_positions fuel (pe_expr parsed) ctx (pe_positions parsed), cache)
  | None =>
      let positions := positions_new expression source_uri in
      match tokenize positions with
      | Err e => (lift (Err e), cache)
      | Ok tokens =>
          if needs_name_resolution tokens then
            (expr ← lift (parse_tokens positions (resolve_names tokens (known_names ctx)));
             eval_with_positions fuel expr ctx positions, cache)
          else
            match parse_tokens positions tokens with
            | Err e => (lift (Err e), cache)
            | Ok expr =>
                (eval_with_positions fuel expr ctx positions,
                 remember_parse cache expression source_uri (mk_parsed positions expr))
            end
      end
  end.

Definition eval_text (fuel : nat) (cache : ParseCache) (expression : string) (ctx : FeelContext) : M FeelValue * ParseCache :=
  eval_with_uri fuel cache expression ctx INLINE_FEEL_URI.

(** *** The cache of patterns *)

Definition COMPILED_REGEXES_PER_THREAD : nat := 512.

Definition cached_regex (cache : gmap string regex) (pattern : string) : result string regex * gmap string regex :=
  match cache !! pattern with
  | Some hit => (Ok hit, cache)
  | None =>
      match regex_new pattern with
      | Err e => (Err e, cache)
      | Ok compiled =>
          let cache := if (COMPILED_REGEXES_PER_THREAD <=? size cache)%nat then ∅ else cache in
          (Ok compiled, <[pattern := compiled]> cache)
      end
  end.
End Facade.

(** ** Paths lie in the source *)

Definition in_span (lo hi : Z) (r : PathRef) : Prop := lo <= pr_start r ∧ pr_start r <= pr_end r ∧ pr_end r <= hi.

Lemma in_span_mono lo hi lo' hi' l : lo' <= lo → hi <= hi' → Forall (in_span lo hi) l → Forall (in_span lo' hi') l.
Proof. intros Hl Hh H. eapply Forall_impl; [exact H|]. intros r. unfold in_span. lia. Qed.

Lemma concat_in_span {A} (f : A → list PathRef) (Q : A → Prop) lo hi l :
  Forall (λ a, Q a → Forall (in_span lo hi) (f a)) l → all_of Q l → Forall (in_span lo hi) (concat (map f l)).
Proof.
  unfold all_of. induction 1 as [|a l Ha Hl IH]; simpl; [constructor|]. intros [Hq Hr]. apply Forall_app. by split; [apply Ha|apply IH].
Qed.

(** A tree's paths lie in its span, and so in any span around it. *)
Lemma paths_in_span e : ∀ lo hi u, spans lo hi e → Forall (in_span lo hi) (paths_of e u).
Proof.
  assert (Hself : ∀ e, (∀ u, spans (start e) (end_ e) e → Forall (in_span (start e) (end_ e)) (paths_of e u)) →
    ∀ lo hi u, spans lo hi e → Forall (in_span lo hi) (paths_of e u)).
  { intros e' H lo hi u Hs. pose proof (spans_bounds _ _ _ Hs). eapply in_span_mono; [| |by apply H, (spans_self lo hi)]; lia. }
  induction e using expr_induction; apply Hself; intros u Hs; cbn [spans start end_] in Hs; cbn [paths_of start end_];
    destruct Hs as [Hb Hs]; destruct_and?; repeat apply Forall_app_2; eauto; try (by constructor).
  all: try (apply (concat_in_span _ (λ x, spans s e x)); [|done]; eapply Forall_impl; [eassumption|]; simpl; by eauto).
  all: apply (concat_in_span _ (λ x : string * FeelExpr, spans s e x.2)); [|done]; eapply Forall_impl; [eassumption|]; simpl; by eauto.
Qed.

Section Theorems.
Context `{UnicodeTables, BigDecimalOps, BigDecimalText, DecimalCrate, Doubles, TimeCrate, TimeText, TimeParse, Calendar,
  Regex, CaseTables, Ambient, Natives}.

Lemma parse_with_uri_spans expression uri expr :
  parse_with_uri expression uri = Ok expr → spans 0 (len (chars expression)) expr.
Proof.
  unfold parse_with_uri. set (p := positions_new _ _). destruct (tokenize_tiles p) as [_ Ht].
  destruct (tokenize p) as [ts|] eqn:E; [|done]. cbn [mbind result_bind]. specialize (Ht ts eq_refl).
  assert (Ho : in_order (len (chars expression)) 0 ts) by (by apply (tiles_in_order 0 (source p))).
  intros Hp. pose proof (parse_tokens_spans (len (chars expression)) p) as Hs.
  assert (Ho' : in_order (len (chars expression)) 0
    (if has_adjacent_name_run ts then merge_named_tokens ts spaced_builtin_names else ts))
    by (case_match; [by apply merge_named_in_order|done]).
  specialize (Hs _ Ho'). by rewrite Hp in Hs.
Qed.

(** The paths a text dereferences point into the text. *)
Theorem paths_lie_in_source expression uri refs :
  paths_with_uri expression uri = Ok refs → Forall (in_span 0 (len (chars expression))) refs.
Proof.
  unfold paths_with_uri. intros (expr & He & Hr)%result_bind_ok. injection Hr as <-.
  by eapply paths_in_span, parse_with_uri_spans.
Qed.

(** ** The caches *)

(** What a text evaluates to without a cache. *)
Definition eval_fresh (fuel : nat) (expression : string) (ctx : FeelContext) (source_uri : string) : M FeelValue :=
  let positions := positions_new expression source_uri in
  expr ← lift (parse_in_context positions ctx);
  eval_with_positions fuel expr ctx positions.

(** The parse of a text that depends on no context. *)
Definition parse_of (expression source_uri : string) (parsed : ParsedExpression) : Prop :=
  let positions := positions_new expression source_uri in
  pe_positions parsed = positions ∧
  ∃ tokens, tokenize positions = Ok tokens ∧ needs_name_resolution tokens = false ∧
    parse_tokens positions tokens = Ok (pe_expr parsed).

(** The number of parses held. *)
Definition entries (cache : ParseCache) : nat := map_fold (λ _ by_text n, (size by_text + n)%nat) 0%nat (by_uri cache).

Record cache_ok (cache : ParseCache) : Prop := {
  ck_parses e u parsed : cached_parse cache e u = Some parsed → parse_of e u parsed;
  ck_len : entries cache = cache_len cache;
  ck_bound : (cache_len cache <= PARSED_EXPRESSIONS_PER_THREAD)%nat
}.

Lemma entries_insert m u by_text :
  entries (mk_cache (<[u := by_text]> m) 0) =
  (size by_text + entries (mk_cache (delete u m) 0))%nat.
Proof.
  unfold entries. simpl. rewrite <-(insert_delete_eq m u by_text).
  rewrite map_fold_insert_L; [by rewrite delete_delete_eq || done| |by rewrite lookup_delete_eq].
  intros. lia.
Qed.

Lemma entries_lookup m u by_text n :
  m !! u = Some by_text → entries (mk_cache m n) = (size by_text + entries (mk_cache (delete u m) 0))%nat.
Proof. intros E. rewrite <-(insert_id m u by_text E) at 1. by rewrite <-entries_insert. Qed.

Lemma cache_ok_empty : cache_ok (mk_cache ∅ 0).
Proof. split; [|by vm_compute|simpl; lia]. intros e u parsed. unfold cached_parse. simpl. by rewrite lookup_empty. Qed.

Lemma cached_insert m n u by_text e' u' :
  cached_parse (mk_cache (<[u := by_text]> m) n) e' u' =
  if decide (u = u') then by_text !! e' else cached_parse (mk_cache m n) e' u'.
Proof.
  unfold cached_parse. simpl. case_decide as Hu; [subst; by rewrite lookup_insert_eq|by rewrite lookup_insert_ne].
Qed.

Lemma remember_ok cache e u parsed :
  cache_ok cache → parse_of e u parsed → cache_ok (remember_parse cache e u parsed).
Proof.
  intros Hc Hp. unfold remember_parse.
  set (c := if (PARSED_EXPRESSIONS_PER_THREAD <=? cache_len cache)%nat then mk_cache ∅ 0 else cache).
  assert (Hok : cache_ok c ∧ (cache_len c < PARSED_EXPRESSIONS_PER_THREAD)%nat).
  { unfold c. destruct (Nat.leb_spec PARSED_EXPRESSIONS_PER_THREAD (cache_len cache)); [|done].
    split; [apply cache_ok_empty|unfold PARSED_EXPRESSIONS_PER_THREAD; simpl; lia]. }
  clearbody c. destruct Hok as [[Hpar Hlen Hb] Hlt]. destruct c as [m n]. simpl in *.
  set (by_text := default ∅ (m !! u)).
  assert (Hold : ∀ e' q, by_text !! e' = Some q → parse_of e' u q).
  { intros e' q Hq. apply Hpar. unfold cached_parse. simpl. unfold by_text in Hq.
    destruct (m !! u); [done|]. simpl in Hq. by rewrite lookup_empty in Hq. }
  assert (Hent : entries (mk_cache m n) = (size by_text + entries (mk_cache (delete u m) 0))%nat).
  { unfold by_text. destruct (m !! u) as [t|] eqn:E; [by apply entries_lookup|]. simpl.
    by rewrite map_size_empty, delete_id by done. }
  split; simpl.
  - intros e' u' q. rewrite cached_insert. case_decide as Hu; [subst u'|by apply Hpar].
    destruct (decide (e = e')) as [->|Hne]; [rewrite lookup_insert_eq; by intros [= <-]|].
    rewrite lookup_insert_ne by done. apply Hold.
  - change (entries _) with (entries (mk_cache (<[u := <[e := parsed]> by_text]> m) 0)). rewrite entries_insert.
    destruct (by_text !! e) as [q|] eqn:Eq; simpl.
    + rewrite map_size_insert_Some by (by eexists). lia.
    + rewrite map_size_insert_None by done. lia.
  - destruct (is_some _); lia.
Qed.

(** The cache of parses is invisible.  Evaluating a text through the cache gives, for
    every context and every clock and entropy, what lexing, folding names, parsing and
    evaluating it afresh gives; and the cache goes on holding only parses of the texts it
    lists, counts them right and never exceeds its bound. *)
Theorem parse_cache_transparent fuel cache expression ctx uri :
  cache_ok cache →
  (eval_with_uri fuel cache expression ctx uri).1 = eval_fresh fuel expression ctx uri ∧
  cache_ok (eval_with_uri fuel cache expression ctx uri).2.
Proof.
  intros Hc. unfold eval_with_uri, eval_fresh, parse_in_context. set (p := positions_new expression uri).
  destruct (cached_parse cache expression uri) as [parsed|] eqn:Ec.
  - destruct (ck_parses _ Hc _ _ _ Ec) as (Hpos & ts & Ht & Hn & Hp). fold p in Hpos, Ht, Hp.
    split; [|done]. cbn [fst]. rewrite Ht, Hpos. cbn [mbind result_bind]. by rewrite Hn, Hp.
  - destruct (tokenize p) as [ts|e] eqn:Ht; [|by split]. cbn [mbind result_bind].
    destruct (needs_name_resolution ts) eqn:Hn; [by split|].
    destruct (parse_tokens p ts) as [expr|e] eqn:Hp; [|by split]. split; [done|]. cbn [snd].
    apply remember_ok; [done|]. split; [done|]. by exists ts.
Qed.

(** A cached pattern is the pattern compiled, and the cache stays within its bound. *)
Theorem regex_cache_transparent (cache : gmap string regex) pattern :
  (∀ p re, cache !! p = Some re → regex_new p = Ok re) → (size cache <= COMPILED_REGEXES_PER_THREAD)%nat →
  let '(r, cache') := cached_regex cache pattern in
  r = regex_new pattern ∧ (∀ p re, cache' !! p = Some re → regex_new p = Ok re) ∧
  (size cache' <= COMPILED_REGEXES_PER_THREAD)%nat.
Proof.
  intros Hc Hb. unfold cached_regex. destruct (cache !! pattern) as [hit|] eqn:E; [by rewrite (Hc _ _ E)|].
  destruct (regex_new pattern) as [re|e] eqn:Er; [|done].
  set (c := if (COMPILED_REGEXES_PER_THREAD <=? size cache)%nat then ∅ else cache).
  assert (Hok : (∀ p re, c !! p = Some re → regex_new p = Ok re) ∧ (size c < COMPILED_REGEXES_PER_THREAD)%nat).
  { unfold c. destruct (Nat.leb_spec COMPILED_REGEXES_PER_THREAD (size cache)); [|done].
    split; [intros p re'; by rewrite lookup_empty|rewrite map_size_empty; unfold COMPILED_REGEXES_PER_THREAD; lia]. }
  destruct Hok as [Hok Hlt]. split; [done|]. split.
  - intros p re'. rewrite lookup_insert. case_decide; [intros [= <-]; by subst|apply Hok].
  - rewrite map_size_insert. case_match; simpl; lia.
Qed.
End Theorems.
