(* ===== verification/FeelPlain.v ===== *)
(** * Instances of the interfaces of the FEEL evaluator

    Small executable instances, on which the examples and the witnesses evaluate: decimals
    compare and truncate by their value, a day is its number, doubles are integers, a pattern
    is the text it matches, letters have no case, and the surroundings are a still clock.

    The laws the theorems ask of the decimals ([DecimalCrateLaws]) are those of the
    [bigdecimal] crate: it compares by value, an integer is recognised and read back. *)
From Stdlib Require Import ZArith QArith Qround Lia Bool Ascii String.
From stdpp Require Import base option strings gmap list.
From S2P Require Import Prelude Texts Decimal FeelValue Temporal FeelText TemporalParse FeelLexer FeelParser.
From S2P Require Import FeelSyntax FeelOps FeelBuiltins FeelEval FeelFacade.

Open Scope string_scope.
Open Scope list_scope.
Open Scope Z_scope.

(** ** Laws *)

Class DecimalCrateLaws (d : DecimalCrate) : Prop := {
  bd_cmp_value a b : bd_cmp a b = (value a ?= value b)%Q;
  bd_is_integer_int n : bd_is_integer (int n) = true;
  bd_to_i64_int n : - i64_max - 1 <= n <= i64_max → bd_to_i64 (int n) = Some n
}.

(** ** Instances *)

Definition trunc (q : Q) : Z := Z.quot (Qnum q) (Zpos (Qden q)).

Definition plain_decimal_crate : DecimalCrate := {|
  bd_cmp a b := (value a ?= value b)%Q;
  bd_is_integer a := Qeq_bool (value a) (inject_Z (trunc (value a)));
  bd_to_i64 a := in_range (- i64_max - 1) i64_max (trunc (value a));
  bd_with_scale_round a s _ := mk_decimal (Qfloor (value a * inject_Z (10 ^ s))%Q) s;
  bd_sqrt a := if mantissa a <? 0 then None else Some (int (Z.sqrt (trunc (value a))));
  bd_normalized a := a |}.

Lemma value_int n : (value (int n) == inject_Z n)%Q.
Proof. unfold value, int. simpl. ring. Qed.

Lemma trunc_int n : trunc (value (int n)) = n.
Proof. unfold trunc, value, int. simpl. rewrite Z.mul_1_r. apply Z.quot_1_r. Qed.

#[export] Instance plain_decimal_crate_laws : DecimalCrateLaws plain_decimal_crate.
Proof.
  split; [done| |].
  - intros n. simpl. apply Qeq_bool_iff. rewrite trunc_int. apply value_int.
  - intros n Hn. simpl. rewrite trunc_int. unfold in_range. by rewrite (proj2 (Z.leb_le _ _)), (proj2 (Z.leb_le _ _)) by lia.
Qed.

(** Days of thirty-day months. *)
Definition day_number (d : Date) : Z := date_year d * 360 + (date_month d - 1) * 30 + (date_day d - 1).
Definition date_of_number (n : Z) : Date := mk_date (n / 360) (n mod 360 / 30 + 1) (n mod 30 + 1).

Definition plain_calendar : Calendar := {|
  to_julian_day := day_number;
  from_julian_day n := if (-1000000 <=? n) && (n <=? 1000000) then Some (date_of_number n) else None;
  number_from_monday d := day_number d mod 7 + 1;
  weekday_text n := dec_string n; month_text n := dec_string n;
  ordinal d := day_number d mod 360 + 1; iso_week_of d := day_number d mod 360 / 7 + 1;
  is_leap_year y := y mod 4 =? 0;
  time_from_hms_nano h m s n :=
    if (h <? 24) && (m <? 60) && (s <? 60) && (n <? NANOS) then Some (mk_time h m s n) else None;
  utc_offset_from_seconds s := Some s;
  time_shift t _ := t;
  pdt_checked_add dt n := Some (date_of_number (day_number dt.1 + n / (86400 * NANOS)), dt.2);
  pdt_checked_sub dt n := Some (date_of_number (day_number dt.1 - n / (86400 * NANOS)), dt.2);
  odt_checked_add t n := Some (mk_odt (unix_nanos t + n) (odt_offset t));
  odt_replace_date t _ := t;
  assume_offset dt o := mk_odt (day_number dt.1 * 86400 * NANOS - o * NANOS) o;
  duration_add a b := in_range (- i64_max * NANOS) (i64_max * NANOS) (a + b);
  duration_sub a b := in_range (- i64_max * NANOS) (i64_max * NANOS) (a - b);
  duration_neg a := Some (- a);
  duration_abs := Z.abs |}.

Definition plain_doubles : Doubles := {|
  double := Z; bd_to_f64 n := Some (trunc (value n)); is_finite _ := true; is_positive x := 0 <? x;
  f_exp x := x; f_ln x := x; f_powf x _ := x; f_sum := foldr Z.add 0; f_sub := Z.sub; f_mul := Z.mul; f_div := Z.quot;
  f_square x := x * x; f_sqrt := Z.sqrt; f_of_int x := x; f_display x := z_text x |}.

Definition plain_regex : Regex := {|
  regex := string; regex_new p := Ok p;
  regex_is_match p s := is_some (str_find p s);
  regex_replace_all p s r := str_replace p r s;
  regex_split p s := match str_find p s with Some (a, b) => [a; b] | None => [s] end;
  fancy_regex := string; fancy_new p := Ok p; fancy_is_match p s := Some (is_some (str_find p s)) |}.

Definition plain_case : CaseTables := {| to_uppercase s := s; to_lowercase s := s |}.

(** A clock that stands still, and one that ticks. *)
Definition still_ambient : Ambient := {| now_utc _ := mk_odt 0 0; getrandom _ n := Some (replicate n 0) |}.
Definition ticking_ambient : Ambient := {| now_utc k := mk_odt (Z.of_nat k + 1) 0; getrandom k n := Some (replicate n (Z.of_nat k)) |}.

Definition plain_natives : Natives := {| native_call _ args := List args |}.

#[local] Existing Instances ascii_tables plain_time_parse plain_time_text plain_decimal_crate plain_calendar plain_doubles
  plain_regex plain_case still_ambient plain_natives.

(** A text in a context, with the empty cache. *)
Definition evaluate (text : string) (ctx : FeelContext) : res FeelValue :=
  ((eval_text 10 (mk_cache ∅ 0) text ctx).1 0%nat).1.

(** ** Expressions of the repository's own tests *)

Definition true_texts : list string := [
  "before(1, 10)"; "before(1, (1..10])"; "before(1, [5..10])"; "before([1..10), 10)"; "before([1..10], 15)";
   "before([1..10], [15..20])"; "before([1..10), [10..20])"; "before([1..10], (10..20])";
   "before([1..10), (10..20])"; "after(10, 5)"; "after(12, [1..10])"; "after(10, [1..10))";
   "after([11..20], 10)"; "after((11..20], 11)"; "after([11..20], [1..10])"; "after([11..20], [1..11))";
   "after((11..20], [1..11])"; "finishes(10, [1..10])"; "finishes([5..10], [1..10])";
   "finishes([5..10), [1..10))"; "finishes([1..10], [1..10])"; "finishes((1..10], [1..10])";
   "finished by([1..10], 10)"; "finished by([1..10], [5..10])"; "finished by([1..10), [5..10))";
   "finished by([1..10], (1..10])"; "finished by([1..10], [1..10])"; "includes([1..10], 5)";
   "includes([1..10], 1)"; "includes([1..10], 10)"; "includes([1..10], [4..6])"; "includes([1..10], (1..10))";
   "includes([1..10), [5..10))"; "includes([1..10], [1..10])"; "during(5, [1..10])"; "during(1, [1..10])";
   "during(10, [1..10])"; "during([4..6], [1..10])"; "during((1..10), [1..10])"; "during([5..10), [1..10))";
   "during([1..10], [1..10])"; "starts(1, [1..10])"; "starts([1..10], [1..10])"; "starts([1..10), [1..10])";
   "starts((1..10), (1..10))"; "started by([1..10], 1)"; "started by([1..10], [1..10])";
   "started by([1..10], [1..10))"; "started by((1..10), (1..10))"; "coincides(5, 5)"; "[1, 2] = [1, 2]";
   "5 in [1, 5, 9]"; "5 in [1..10]"; "5 in < 10"; "5 in <= 5"; "5 in (1, 2, >= 5)"; "7 in [[1..3], [4..7]]";
   "[1,2,3] in [[1,2,3,4], [1,2,3]]"; "[1,2,3] in [[1,2,3], [1,2,3,4]]"; "5 between 1 and 10";
   "1 between 1 and 10"; "all(list: [true, true])"; "1 instance of number"; "[1, 2] instance of list";
   "some i in [1, 2, 3] satisfies i > 2"; "every i in [2, 4, 6] satisfies even(i)"; "[3..1] instance of range";
   "2.5 in [1..10]"; "(< 10) = (< 10)"; "(=10) = (=10)"; "(!=10) = (!=10)"; "5 in (< 10)"; "15 in (>= 10)";
   "10 in (=10)"; "(1..10] = ]1..10]"; "[1..10) = [1..10["; "even(4)"; "odd(3)"; "all([true, true])";
   "any([false, true])"; "true"; "true or false and false"].

Definition false_texts : list string := [
  "before(10, 1)"; "before(1, 1)"; "before(1, [1..10])"; "before(10, [1..10])"; "before([1..10], 10)";
   "before([1..10], 1)"; "before([1..10], [10..20])"; "before([15..20], [1..10])"; "after(5, 10)";
   "after(5, 5)"; "after(10, [1..10])"; "after([11..20], 11)"; "after([11..20], 12)";
   "after([1..10], [11..20])"; "after([11..20], [1..11])"; "finishes(10, [1..10))"; "finishes(5, [1..10])";
   "finishes([5..10), [1..10])"; "finishes([0..10], [1..10])"; "finished by([1..10), 10)";
   "finished by([1..10], [5..10))"; "finished by([1..10], [0..10])"; "includes([1..10], 12)";
   "includes((1..10], 1)"; "includes([1..10), 10)"; "includes([1..10], [0..10])"; "during(12, [1..10])";
   "during(1, (1..10])"; "during(10, [1..10))"; "during([0..10], [1..10])"; "starts(1, (1..10])";
   "starts(2, [1..10])"; "starts([1..10], [1..10))"; "started by((1..10], 1)"; "started by([1..10], 2)";
   "started by([1..10), [1..10])"; "coincides(3, 4)"; "3 in [1, 5, 9]"; "5 in > 10"; "5 in (< 3, > 8)";
   "9 in [[1..3], [4..7]]"; "10 in [1..10)"; "[1,2,3,5] in [[1,2,3,4], [1,2,3]]"; "15 between 1 and 10";
   "1 instance of function"; "1 instance of string"; "some i in [1, 2, 3] satisfies i > 5";
   "every i in [2, 3, 4] satisfies even(i)"; "1 in (1..10]"; "(< 10) = (null..10)"; "(=10) = [10..10]";
   "15 in (< 10)"; "10 in (!=10)"; "all([true, false])"; "any([false, false])"; "false"].

Definition null_texts : list string := [
  "product([])"; "product()"; "product(l: [2, 4, 7, 5])"; "-{a: 1}"; "10 / 0"; "contains(null, null)";
   "abs(number:-1)"; "even(n:4)"; "odd(n:4)"; "median(l:[2,4,7,5])"; "all(l:[true])"; "any(l:[true])";
   "mode(l:[2,4,7,5])"; "string join(null)"; "context({value:1})"].

Definition number_texts : list (string * string) := [
  ("2 ** 10", "1024"); ("3 * 2 ** 3", "24"); ("2 ** -2", "0.25"); ("abs(n: -5)", "5");
   ("(function(a) a * 2)(5)", "10"); ("[10, 20, 30][1]", "10"); ("[10, 20, 30][-1]", "30"); ("5-1", "4");
   ("abs(-7)", "7"); ("sum([1, 2, 3, 4])", "10"); ("count([1, 2, 3])", "3"); ("min(3, 1, 2)", "1");
   ("max([3, 1, 2])", "3"); ("mean([2, 4, 6])", "4"); ("median([1, 2, 3, 4])", "2.5");
   ("product([2, 3, 4])", "24"); ("sum(concatenate([1, 2], [3, 4]))", "10"); ("42", "42"); ("3.14", "3.14");
   ("-10", "-10"); ("--10", "10"); ("1 + 1 // trailing comment", "2"); ("1 + /* 1 + */ 1", "2");
   ("abs(n:-1)", "1"); ("(function(f) f(-3))(abs)", "3"); ("(function(arg: number) arg)(10)", "10")].

(** The model gives what the tests of the crate expect of these expressions. *)
Lemma tests_agree :
  forallb (λ t, match evaluate t [] with Ok (Boolean true) => true | _ => false end) true_texts &&
  forallb (λ t, match evaluate t [] with Ok (Boolean false) => true | _ => false end) false_texts &&
  forallb (λ t, match evaluate t [] with Ok Null => true | _ => false end) null_texts &&
  forallb (λ t, match evaluate t.1 [] with Ok (Number n) => String.eqb (bd_to_string n) t.2 | _ => false end) number_texts
  = true.
Proof. vm_compute. reflexivity. Qed.

(** *** Witness of the cache *)

Lemma parse_cache_transparent_witness :
  cache_ok (mk_cache ∅ 0) ∧
  (eval_with_uri 3 (mk_cache ∅ 0) "1 + 2 * 3" [] "file:a").1 = eval_fresh 3 "1 + 2 * 3" [] "file:a".
Proof.
  split; [exact cache_ok_empty|]. exact (proj1 (parse_cache_transparent 3 (mk_cache ∅ 0) "1 + 2 * 3" [] "file:a" cache_ok_empty)).
Defined.
