(* ===== verification/FeelLaws.v ===== *)
(** * Laws of the FEEL operations

    Theorems on [FeelOps] and [FeelBuiltins], for any decimals that compare by value.

    - Interval relations come in converse pairs, and on a range that is not empty [includes] is
      membership ([interval_relations_converse]).
    - [substring] and [sublist] take the elements their arguments name, and panic exactly when
      the end of the section overflows an [i64] ([section_bounds]).
    - A range of integers below the edge of [i64] iterates in at most ten million and one steps
      or is refused; up to [i64::MAX] the loop has no end ([range_iteration]).
    - Raising to the power [i64::MIN] gives one ([pow_of_min_is_one]). *)
From Stdlib Require Import ZArith QArith Lia Bool Ascii String.
From stdpp Require Import base option strings gmap list.
From S2P Require Import Prelude Texts Decimal FeelValue Temporal FeelText TemporalParse FeelLexer FeelParser.
From S2P Require Import FeelSyntax FeelOps FeelBuiltins FeelEval FeelFacade FeelPlain.

Open Scope string_scope.
Open Scope list_scope.
Open Scope Z_scope.

(** ** Orders *)

Class Order {A} (cmp : A → A → comparison) : Prop := {
  cmp_antisym a b : cmp b a = CompOpp (cmp a b);
  cmp_trans a b c : cmp a b = Lt → cmp b c = Lt → cmp a c = Lt;
  cmp_eq a b c : cmp a b = Eq → cmp a c = cmp b c
}.

#[local] Instance order_Z : Order Z.compare.
Proof.
  split; [intros; apply Z.compare_antisym|intros a b c; rewrite !Z.compare_lt_iff; lia|].
  by intros a b c ->%Z.compare_eq_iff.
Qed.

#[local] Instance order_string : Order String.compare.
Proof.
  split; [intros; apply String.compare_antisym|apply string_compare_trans|by intros a b c ->%String.compare_eq_iff].
Qed.

#[local] Instance order_decimal {d : DecimalCrate} {Hd : DecimalCrateLaws d} : Order bd_cmp.
Proof.
  split; intros a b; rewrite ?bd_cmp_value; [symmetry; apply Qcompare_antisym| |].
  - intros c. rewrite !bd_cmp_value, <-!Qlt_alt. apply Qlt_trans.
  - intros c. rewrite !bd_cmp_value, <-Qeq_alt. by intros ->.
Qed.

(** By a key first. *)
Lemma order_lex {A} (f : A → Z) (cmp : A → A → comparison) :
  Order cmp → Order (λ a b, match Z.compare (f a) (f b) with Eq => cmp a b | c => c end).
Proof.
  intros [Ha Ht He]. split.
  - intros a b. rewrite (Z.compare_antisym (f a)). destruct (Z.compare (f a) (f b)); simpl; [apply Ha|done..].
  - intros a b c. destruct (Z.compare_spec (f a) (f b)), (Z.compare_spec (f b) (f c)); try done; intros H1 H2.
    + replace (f a) with (f c) by congruence. rewrite Z.compare_refl. by eapply Ht.
    + by rewrite (proj2 (Z.compare_lt_iff _ _)) by lia.
    + by rewrite (proj2 (Z.compare_lt_iff _ _)) by lia.
    + by rewrite (proj2 (Z.compare_lt_iff _ _)) by lia.
  - intros a b c. destruct (Z.compare_spec (f a) (f b)) as [E| |]; [|done..]. intros H. rewrite E.
    destruct (Z.compare (f b) (f c)); [by apply He|done..].
Qed.

Lemma order_key {A} (f : A → Z) : Order (λ a b, Z.compare (f a) (f b)).
Proof.
  split; [intros; apply Z.compare_antisym|intros a b c; rewrite !Z.compare_lt_iff; lia|].
  by intros a b c ->%Z.compare_eq_iff.
Qed.

#[local] Instance order_date : Order date_cmp.
Proof. apply (order_lex date_year), (order_lex date_month), order_key. Qed.

#[local] Instance order_time : Order time_cmp.
Proof. apply (order_lex hour), (order_lex minute), (order_lex second), order_key. Qed.

Section Ordering.
Context {d : DecimalCrate} {Hd : DecimalCrateLaws d}.

(** The values one value can be compared with. *)
Definition sort_of (v : FeelValue) : option Z :=
  match v with
  | Number _ => Some 0 | Str _ => Some 1 | DateV _ => Some 2 | TimeV _ _ => Some 3 | Instant _ _ => Some 4
  | Duration (DaysTime _) => Some 5 | Duration (YearsMonths _) => Some 6
  | _ => None
  end.

Lemma feel_cmp_antisym a b : feel_cmp b a = CompOpp <$> feel_cmp a b.
Proof.
  destruct a as [| | | | | | |[|]| | | | |], b as [| | | | | | |[|]| | | | |]; try done; simpl; by rewrite cmp_antisym.
Qed.

Lemma feel_cmp_sort a b :
  is_some (feel_cmp a b) = match sort_of a, sort_of b with Some m, Some n => m =? n | _, _ => false end.
Proof. destruct a as [| | | | | | |[|]| | | | |], b as [| | | | | | |[|]| | | | |]; done. Qed.

Lemma feel_cmp_trans a b c : feel_cmp a b = Some Lt → feel_cmp b c = Some Lt → feel_cmp a c = Some Lt.
Proof.
  destruct a as [| | | | | | |[|]| | | | |], b as [| | | | | | |[|]| | | | |]; try done;
    destruct c as [| | | | | | |[|]| | | | |]; try done; simpl; intros [= H1] [= H2]; f_equal; by eapply cmp_trans.
Qed.

Lemma feel_cmp_eq a b c : feel_cmp a b = Some Eq → feel_cmp a c = feel_cmp b c.
Proof.
  destruct a as [| | | | | | |[|]| | | | |], b as [| | | | | | |[|]| | | | |]; try done;
    destruct c as [| | | | | | |[|]| | | | |]; try done; simpl; intros [= H1]; f_equal; by eapply cmp_eq.
Qed.

Lemma lt_gt a b : gt_ b a = lt_ a b.
Proof. unfold lt_, gt_. rewrite (feel_cmp_antisym a b). by destruct (feel_cmp a b) as [[]|]. Qed.
Lemma eq_sym_ a b : eq_ b a = eq_ a b.
Proof. unfold eq_. rewrite (feel_cmp_antisym a b). by destruct (feel_cmp a b) as [[]|]. Qed.

(** ** Converse relations *)

Definition CONVERSES : list (string * string) :=
  [("before", "after"); ("after", "before"); ("meets", "metBy"); ("metBy", "meets"); ("overlaps", "overlaps");
   ("overlapsBefore", "overlapsAfter"); ("overlapsAfter", "overlapsBefore"); ("finishes", "finishedBy");
   ("finishedBy", "finishes"); ("includes", "during"); ("during", "includes"); ("starts", "startedBy");
   ("startedBy", "starts"); ("coincides", "coincides")].

Lemma comparable_iff x y : is_some (feel_cmp x y) = true ↔ sort_of x = sort_of y ∧ sort_of x ≠ None.
Proof.
  rewrite feel_cmp_sort. destruct (sort_of x) as [m|], (sort_of y) as [n|]; rewrite ?Z.eqb_eq; intuition congruence.
Qed.

Lemma chained_sym a b : chained (endpoints a ++ endpoints b) = chained (endpoints b ++ endpoints a).
Proof.
  apply eq_iff_eq_true.
  destruct a, b; cbn [endpoints app chained]; rewrite ?andb_true_iff, !comparable_iff;
    (split; intros; destruct_and?; repeat split; congruence).
Qed.

(** What the relations look at, from the first argument to the second. *)
Ltac ends :=
  unfold lt_, gt_, eq_;
  repeat match goal with |- context [feel_cmp ?x ?y] =>
    match goal with |- context [feel_cmp y x] =>
      tryif constr_eq x y then fail else rewrite (feel_cmp_antisym x y); destruct (feel_cmp x y) as [[]|] end end;
  repeat match goal with |- context [feel_cmp ?x ?y] => destruct (feel_cmp x y) as [[]|] end.

Ltac converse := intros [p|s e si ei] [q|s' e' si' ei']; try done; simpl; ends;
  repeat match goal with b : bool |- _ => destruct b end; reflexivity.

Lemma before_after : ∀ a b, before a b = after b a.
Proof. converse. Qed.
Lemma meets_met_by : ∀ a b, meets a b = met_by b a.
Proof. converse. Qed.
Lemma overlaps_sym : ∀ a b, overlaps a b = overlaps b a.
Proof. converse. Qed.
Lemma overlaps_before_after : ∀ a b, overlaps_before a b = overlaps_after b a.
Proof. intros [] []; reflexivity. Qed.
Lemma finishes_finished_by : ∀ a b, finishes a b = finished_by b a.
Proof. converse. Qed.
Lemma includes_during : ∀ a b, includes a b = during b a.
Proof. intros [] []; reflexivity. Qed.
Lemma starts_started_by : ∀ a b, starts a b = started_by b a.
Proof. converse. Qed.
Lemma coincides_sym : ∀ a b, coincides a b = coincides b a.
Proof. converse. Qed.

Lemma interval_relation_swap r r' f f' a b :
  map_get r RELATIONS = Some f → map_get r' RELATIONS = Some f' → (∀ a b, f a b = f' b a) →
  interval_relation r a b = interval_relation r' b a.
Proof.
  intros Hr Hr' Hf. unfold interval_relation.
  destruct (classify a) as [x|], (classify b) as [y|]; try done. cbn [mbind option_bind].
  rewrite Hr, Hr', (chained_sym x y). case_match; [|done]. apply Hf.
Qed.

Lemma converse_relations r r' a b : (r, r') ∈ CONVERSES → interval_relation r a b = interval_relation r' b a.
Proof.
  assert (Hswap : ∀ f g : IntervalRelationArg → IntervalRelationArg → option bool, (∀ a b, f a b = g b a) → ∀ a b, g a b = f b a) by (intros f g H x y; by rewrite H).
  unfold CONVERSES. rewrite !elem_of_cons, elem_of_nil.
  intros H. repeat (destruct H as [[= -> ->]|H];
    [eapply interval_relation_swap; [reflexivity|reflexivity|]; auto using before_after, meets_met_by, overlaps_sym,
       overlaps_before_after, finishes_finished_by, includes_during, starts_started_by, coincides_sym|]). done.
Qed.

(** On a range that is not empty, [includes] is [in]. *)
Lemma includes_contains s e si ei p :
  feel_cmp s e = Some Lt → is_some (feel_cmp p s) = true →
  interval_relation "includes" (Range (mk_range s e si ei None)) p = range_contains (mk_range s e si ei None) p.
Proof.
  intros Hse Hp.
  assert (Hsort : sort_of p = sort_of s ∧ sort_of p ≠ None) by (by apply comparable_iff).
  assert (Hse' : sort_of s = sort_of e ∧ sort_of s ≠ None) by (apply comparable_iff; by rewrite Hse).
  assert (Hpe : is_some (feel_cmp p e) = true) by (apply comparable_iff; intuition congruence).
  assert (Hpp : is_some (feel_cmp p p) = true) by (apply comparable_iff; intuition congruence).
  assert (Hn : is_null p = false) by (destruct p; try done; by destruct Hsort).
  assert (Hc : classify p = Some (PointArg p)).
  { revert Hpp. unfold classify. destruct p; try (by destruct Hsort); by destruct (feel_cmp (Duration d0) (Duration d0)). }
  unfold interval_relation. rewrite Hc. cbn [classify mbind option_bind endpoints app chained].
  rewrite Hse. rewrite (feel_cmp_antisym p e). destruct (feel_cmp p e) as [u|] eqn:Eu; [|done]. simpl.
  unfold range_contains. rewrite Hn. destruct (feel_cmp p s) as [l|] eqn:El; [|done]. rewrite Eu. simpl.
  unfold includes, lt_, gt_, eq_. rewrite (feel_cmp_antisym p s), (feel_cmp_antisym p e), El, Eu. simpl. f_equal.
  destruct l, u; simpl; try done; try (by rewrite ?andb_false_r, ?andb_true_r, ?orb_false_r);
    exfalso.
  all: first [pose proof (feel_cmp_trans p s e El Hse)|pose proof (feel_cmp_eq p s e El)]; congruence.
Qed.

(** The interval relations are an algebra.  Each of the fourteen relations is another
    one with its arguments exchanged, [null] included, for every pair of values: before and
    after, meets and met by, overlaps before and overlaps after, finishes and finished by,
    includes and during, starts and started by; overlaps and coincides are their own
    converses.  And on a range whose start is less than its end, includes is membership. *)
Theorem interval_relations_converse :
  (∀ r r' a b, (r, r') ∈ CONVERSES → interval_relation r a b = interval_relation r' b a) ∧
  (∀ s e si ei p, feel_cmp s e = Some Lt → is_some (feel_cmp p s) = true →
     interval_relation "includes" (Range (mk_range s e si ei None)) p = range_contains (mk_range s e si ei None) p).
Proof. split; [apply converse_relations|apply includes_contains]. Qed.
End Ordering.

Lemma interval_relations_converse_witness :
  @interval_relation plain_decimal_crate "before" (num 1) (Range (mk_range (num 1) (num 3) false true None)) =
    @interval_relation plain_decimal_crate "after" (Range (mk_range (num 1) (num 3) false true None)) (num 1) ∧
  @interval_relation plain_decimal_crate "includes" (Range (mk_range (num 1) (num 3) false true None)) (num 3) = Some true.
Proof.
  split.
  - apply (proj1 (@interval_relations_converse plain_decimal_crate plain_decimal_crate_laws)). apply elem_of_cons. by left.
  - rewrite (proj2 (@interval_relations_converse plain_decimal_crate plain_decimal_crate_laws)); [|reflexivity..]. reflexivity.
Defined.

(** ** Sections of lists and texts *)

Definition is_i64 (n : Z) : Prop := - i64_max - 1 <= n <= i64_max.

Section Sections.
Context {u : UnicodeTables} {ops : BigDecimalOps} {txt : BigDecimalText} {d : DecimalCrate} {dbl : Doubles} {tc : TimeCrate}
  {tt : TimeText} {tp : TimeParse} {cal : Calendar} {rx : Regex} {ct : CaseTables}.
Context {Hd : DecimalCrateLaws d}.

(** What the arguments of [substring] and [sublist] name: nothing outside the list, and a
    section whose end is computed in an [i64]. *)
Definition named_section {A} (xs : list A) (start length : Z) : res (list A) :=
  let idx0 := if start <? 0 then len xs + start else start - 1 in
  if (idx0 <? 0) || (len xs <=? idx0) then Ok []
  else if i64_max <? idx0 + Z.max length 0 then Err Panicked
  else Ok (sub_list idx0 (Z.min (idx0 + Z.max length 0) (len xs)) xs).

Lemma to_index_int n : is_i64 n → to_index (num n) = Ok n.
Proof. intros Hn. unfold to_index. simpl. by rewrite bd_to_i64_int. Qed.

Lemma section_of_named {A} (xs : list A) v start length :
  len xs <= i64_max → is_i64 start → is_i64 length → section_of xs [v; num start; num length] = named_section xs start length.
Proof.
  intros Hn Hs Hl. pose proof (len_at_least_0 xs) as H0. unfold section_of, named_section, arg. cbn [nth].
  rewrite (to_index_int start Hs), (to_index_int length Hl). cbn [mbind result_bind List.length Nat.eqb].
  assert (Hi : (if start <? 0 then wrap64 (len xs + start) else wrap64 (start - 1)) =
               (if start <? 0 then len xs + start else start - 1)).
  { destruct (Z.ltb_spec start 0); apply wrap64_id; unfold is_i64, i64_max in *; lia. }
  rewrite Hi. set (idx0 := if start <? 0 then _ else _). clearbody idx0.
  destruct ((idx0 <? 0) || (len xs <=? idx0)) eqn:Eb; [done|]. apply orb_false_iff in Eb as [E1 E2].
  unfold slice_of.
  destruct (Z.ltb_spec i64_max (idx0 + Z.max length 0)) as [Ho|Ho].
  - assert (Hw : wrap64 (idx0 + Z.max length 0) = idx0 + Z.max length 0 - 18446744073709551616).
    { unfold is_i64, i64_max, wrap64 in *.
      rewrite <-(Z.mod_unique (idx0 + Z.max length 0 + 9223372036854775808) 18446744073709551616 1
        (idx0 + Z.max length 0 - 9223372036854775808)); lia. }
    rewrite Hw. assert (Hf : (idx0 <=? Z.min (idx0 + Z.max length 0 - 18446744073709551616) (len xs)) = false)
      by (apply Z.leb_gt; unfold is_i64, i64_max in *; lia).
    by rewrite Hf.
  - rewrite wrap64_id by (unfold is_i64, i64_max in *; lia).
    rewrite (proj2 (Z.leb_le idx0 _)), (proj2 (Z.leb_le _ (len xs))) by lia. done.
Qed.

(** C28: [sublist] and [substring] are bounded, up to an overflow.  For every list or text that
    fits in memory and every pair of [i64] arguments, the result is empty when the start is
    outside, and otherwise the elements from the start on, no more than asked for and no more
    than there are; except that a length so large that the end of the section exceeds
    [i64::MAX] makes both builtins panic. *)
Theorem section_bounds positions site xs s start length :
  len xs <= i64_max → len (chars s) <= i64_max → is_i64 start → is_i64 length →
  sublist positions [List xs; num start; num length] site = (part ← named_section xs start length; Ok (List part)) ∧
  substring positions [Str s; num start; num length] site =
    (part ← named_section (chars s) start length; Ok (Str (encode part))).
Proof.
  intros Hx Hc Hs Hl. unfold sublist, substring, two_or_three. cbn [List.length Nat.ltb Nat.leb orb mbind result_bind].
  unfold arg at 1 2. cbn [nth as_list str_of canonical_string_of]. by rewrite !section_of_named.
Qed.
End Sections.

(** ** Iteration of a range *)

Section Iteration.
Context {d : DecimalCrate} {Hd : DecimalCrateLaws d} {tt : TimeText} {cal : Calendar}.

Lemma int_of_int n : is_i64 n → int_of (Number (int n)) = Some n.
Proof. intros Hn. unfold int_of. by rewrite bd_is_integer_int, bd_to_i64_int. Qed.

Lemma count_up_seq fuel i hi :
  - i64_max - 1 <= i → hi < i64_max → hi - i < Z.of_nat fuel → count_up fuel i hi = Ok (map num (seqZ i (hi - i + 1))).
Proof.
  revert i. induction fuel as [|fuel IH]; intros i Hi Hh Hf; simpl; destruct (Z.leb_spec i hi) as [Hl|Hl].
  - lia.
  - by rewrite seqZ_nil by lia.
  - rewrite wrap64_id, IH, (seqZ_cons i) by (unfold is_i64 in *; lia). simpl. do 4 f_equal; lia.
  - by rewrite seqZ_nil by lia.
Qed.

Lemma count_down_seq fuel i hi :
  i <= i64_max → - i64_max - 1 < hi → i - hi < Z.of_nat fuel →
  count_down fuel i hi = Ok (map (λ j, num (- j)) (seqZ (- i) (i - hi + 1))).
Proof.
  revert i. induction fuel as [|fuel IH]; intros i Hi Hh Hf; simpl; destruct (Z.leb_spec hi i) as [Hl|Hl].
  - lia.
  - by rewrite seqZ_nil by lia.
  - rewrite wrap64_id, IH, (seqZ_cons (- i)) by (unfold is_i64 in *; lia). simpl. rewrite Z.opp_involutive. do 4 f_equal; lia.
  - by rewrite seqZ_nil by lia.
Qed.

Lemma wrap64_i64 n : is_i64 (wrap64 n).
Proof. unfold is_i64, i64_max, wrap64. pose proof (Z.mod_pos_bound (n + 9223372036854775808) 18446744073709551616). lia. Qed.

Lemma count_up_never fuel i : is_i64 i → count_up fuel i i64_max = Err OutOfFuel.
Proof.
  revert i. induction fuel as [|fuel IH]; intros i Hi; simpl; rewrite (proj2 (Z.leb_le i i64_max)) by apply Hi; [done|].
  by rewrite IH by apply wrap64_i64.
Qed.

(** The integers a range runs through, in its direction. *)
Definition range_items (a b : Z) (si ei : bool) : list Z :=
  if a <=? b then let lo := if si then a else a + 1 in seqZ lo ((if ei then b else b - 1) - lo + 1)
  else let lo := if si then a else a - 1 in map Z.opp (seqZ (- lo) (lo - (if ei then b else b + 1) + 1)).

(** C29: A [for] loop, or a quantifier, over a range of integers.  With bounds of less than
    2^62 the evaluator yields exactly the integers between them, in their order and up or down,
    and never more than ten million and one; a longer range, and a descending one where it is
    not allowed, is refused with an error.  A range that includes [i64::MAX] and is short enough
    to be let through is iterated without end, since the counter wraps. *)
Theorem range_iteration positions site allow a b si ei :
  (- 2 ^ 62 < a < 2 ^ 62 → - 2 ^ 62 < b < 2 ^ 62 →
     match expand_range positions (mk_range (num a) (num b) si ei None) site allow with
     | Ok items => items = map num (range_items a b si ei) ∧ len items <= 10000001
     | Err f => ∃ e, f = Rejected e
     end) ∧
  (i64_max - 10000000 <= a <= i64_max → ∀ n,
     count_up n a i64_max = Err OutOfFuel ∧
     expand_range positions (mk_range (num a) (num i64_max) true true None) site allow = Err OutOfFuel).
Proof.
  split.
  - intros Ha Hb. unfold expand_range, num. cbv iota. rewrite !int_of_int by (unfold is_i64, i64_max; lia).
    destruct (negb allow && (b <? a)) eqn:Ed; [eexists; done|]. unfold range_items.
    rewrite !(wrap64_id (a + _)), !(wrap64_id (b - _)), (wrap64_id (_ - _))
      by (unfold is_i64, i64_max; destruct si, ei, (Z.leb_spec a b); lia).
    set (lo := a + _). set (hi := b - _). destruct (Z.ltb_spec MAX_RANGE (Z.abs (hi - lo))) as [|Hm]; [eexists; done|].
    unfold MAX_RANGE in Hm. subst lo hi. destruct (a <=? b) eqn:Eab.
    + rewrite count_up_seq by (unfold i64_max; destruct si, ei; lia). split.
      * do 2 f_equal; destruct si, ei; lia.
      * unfold len. rewrite length_map, length_seqZ. lia.
    + rewrite count_down_seq by (unfold i64_max; destruct si, ei; lia). split.
      * rewrite map_map. do 2 f_equal; destruct si, ei; lia.
      * unfold len. rewrite length_map, length_seqZ. lia.
  - intros Ha n. split; [apply count_up_never; unfold is_i64, i64_max in *; lia|].
    unfold expand_range, num. cbv iota. rewrite !int_of_int by (unfold is_i64, i64_max in *; lia).
    rewrite (proj2 (Z.leb_le a i64_max)), (proj2 (Z.ltb_ge i64_max a)), andb_false_r by lia.
    rewrite !Z.add_0_r, !Z.sub_0_r, !(wrap64_id a), !(wrap64_id i64_max), (wrap64_id (_ - _))
      by (unfold is_i64, i64_max in *; lia).
    rewrite (proj2 (Z.ltb_ge MAX_RANGE _)) by (unfold MAX_RANGE; lia). apply count_up_never. unfold is_i64, i64_max in *; lia.
Qed.
End Iteration.

(** The exponent [i64::MIN] is negated to itself, so that no multiplication takes place: any
    base but zero gives one instead of a tiny number. *)
Lemma pow_of_min_is_one {ops : BigDecimalOps} {d : DecimalCrate} {Hd : DecimalCrateLaws d} {dbl : Doubles} base :
  is_zero base = false → pow_decimal base (int (- i64_max - 1)) = Ok (Number (div (int 1) (int 1))).
Proof.
  intros Hz. unfold pow_decimal. rewrite bd_is_integer_int, bd_to_i64_int by (unfold i64_max; lia). by rewrite Hz.
Qed.

#[local] Existing Instances ascii_tables plain_time_text plain_decimal_crate plain_calendar.

Lemma range_iteration_witness :
  (∃ items, expand_range None (mk_range (num 1) (num 3) true false None) 0 false = Ok items ∧ items = [num 1; num 2]) ∧
  expand_range None (mk_range (num (i64_max - 5)) (num i64_max) true true None) 0 false = Err OutOfFuel.
Proof.
  split.
  - pose proof (proj1 (range_iteration None 0 false 1 3 true false) ltac:(lia) ltac:(lia)) as Hr.
    destruct (expand_range _ _ _ _) as [items|f] eqn:E; [|vm_compute in E; discriminate E].
    exists items. split; [done|]. apply Hr.
  - apply (range_iteration None 0 false (i64_max - 5) i64_max true true); [unfold i64_max; lia|exact 0%nat].
Defined.

Lemma section_bounds_witness :
  sublist None [List [num 7; num 8; num 9]; num 2; num 5] 0 = Ok (List [num 8; num 9]) ∧
  substring None [Str "foobar"; num (-3); num 2] 0 = Ok (Str "ba") ∧
  substring None [Str "foobar"; num 2; num i64_max] 0 = Err Panicked.
Proof.
  split; [|split].
  - by rewrite (proj1 (section_bounds None 0 [num 7; num 8; num 9] "" 2 5 ltac:(done) ltac:(done) ltac:(done) ltac:(done))).
  - by rewrite (proj2 (section_bounds None 0 [] "foobar" (-3) 2 ltac:(done) ltac:(done) ltac:(done) ltac:(done))).
  - by rewrite (proj2 (section_bounds None 0 [] "foobar" 2 i64_max ltac:(done) ltac:(done) ltac:(done) ltac:(done))).
Defined.
