(* ===== verification/FeelCarry.v ===== *)
(** * The functions a FEEL value carries

    A value holds function values in its elements, its entries, its bounds and the scope of a
    closure.  [carries fn inv v] says that the body of each of them satisfies [fn], and the id
    of each native one [inv].  No builtin adds a function of its own: what it returns carries
    what its arguments carry ([builtin_ok]), for every arm of [pure_builtins]. *)
From Stdlib Require Import ZArith Lia Bool Ascii String.
From stdpp Require Import base option strings list.
From S2P Require Import Prelude Texts Decimal FeelValue Temporal FeelText TemporalParse FeelLexer FeelParser.
From S2P Require Import FeelSyntax FeelOps FeelBuiltins FeelEval.

Open Scope string_scope.
Open Scope list_scope.
Open Scope Z_scope.

Fixpoint carries (fn : FeelExpr → Prop) (inv : string → Prop) (v : FeelValue) : Prop :=
  match v with
  | List xs => all_of (carries fn inv) xs
  | Map m => all_of (λ kv, carries fn inv kv.2) m
  | Range (mk_range s e _ _ _) => carries fn inv s ∧ carries fn inv e
  | Function (mk_function _ body captured _ _ _) => fn body ∧ all_of (λ kv, carries fn inv kv.2) captured
  | Invocable id _ _ _ => inv id
  | _ => True
  end.

Section Carries.
Context (fn : FeelExpr → Prop) (inv : string → Prop).

Definition ok : FeelValue → Prop := carries fn inv.
Definition ok_scope (m : list (string * FeelValue)) : Prop := Forall (λ kv, ok kv.2) m.

Lemma ok_list xs : ok (List xs) ↔ Forall ok xs.
Proof. apply all_of_Forall. Qed.
Lemma ok_map m : ok (Map m) ↔ ok_scope m.
Proof. apply all_of_Forall. Qed.
Lemma ok_function ps body captured ss r x : ok (Function (mk_function ps body captured ss r x)) ↔ fn body ∧ ok_scope captured.
Proof. unfold ok. simpl. by rewrite all_of_Forall. Qed.

Lemma ok_get m k v : ok_scope m → map_get k m = Some v → ok v.
Proof.
  intros H. induction H as [|[k' w] m Hw Hm IH]; simpl; [done|]. destruct (String.eqb k' k); [|done]. by intros [= <-].
Qed.

Lemma ok_or_null o : (∀ v, o = Some v → ok v) → ok (or_null o).
Proof. destruct o; [|done]. intros H. by apply H. Qed.

Lemma ok_insert m k v : ok_scope m → ok v → ok_scope (map_insert k v m).
Proof.
  intros H Hv. induction H as [|[k' w] m Hw Hm IH]; simpl; [by repeat constructor|].
  destruct (String.compare k k'); constructor; try done; by constructor.
Qed.

Lemma ok_pick m k : ok_scope m → ok (pick k m).
Proof. intros H. unfold pick. destruct (map_get k m) eqn:E; [|done]. by eapply ok_get. Qed.

Lemma ok_insert_all m m' : ok_scope m → ok_scope m' → ok_scope (insert_all m m').
Proof. intros H H'. revert m H. induction H'; intros m Hm; [done|]. apply IHH'. by apply ok_insert. Qed.

Lemma ok_arg args i : Forall ok args → ok (arg args i).
Proof. intros H. unfold arg. destruct (nth_in_or_default i args Null) as [Hi| ->]; [|done].
  by apply (proj1 (List.Forall_forall ok args) H). Qed.

Lemma ok_as_list v : ok v → Forall ok (as_list v).
Proof. intros H. destruct v; try (by constructor). by apply ok_list. Qed.

Lemma ok_agg_items args : Forall ok args → Forall ok (agg_items args).
Proof. intros H. destruct args as [|[] [|]]; try done. apply Forall_cons_1 in H as [H _]. by apply ok_list. Qed.

Lemma ok_concat_map {A} (f : A → list FeelValue) l : Forall (λ x, Forall ok (f x)) l → Forall ok (concat (map f l)).
Proof. induction 1; simpl; [done|]. by apply Forall_app. Qed.

Lemma ok_flatten v : ok v → Forall ok (flatten_into v).
Proof.
  revert v. fix IH 1. intros v Hv. destruct v; try (by constructor). simpl. apply ok_concat_map.
  apply ok_list in Hv. revert Hv. induction items as [|x l IHl]; intros Hv; [constructor|].
  apply Forall_cons_1 in Hv as [Hx Hl]. constructor; [by apply IH|by apply IHl].
Qed.

(** ** Arms that return a plain value *)

(** Each step of a run that ended well. *)
Ltac steps H :=
  repeat match type of H with
  | (_ ≫= _) = Ok _ => apply result_bind_ok in H; let E := fresh "E" in destruct H as (? & E & H); clear E
  | context [match ?x with _ => _ end] => destruct x
  end.

Ltac plainly := let H := fresh "Hrun" in intros ? ? ? _ H; steps H; try discriminate H; injection H as <-; exact I.

Section Builtins.
Context {u : UnicodeTables} {ops : BigDecimalOps} {txt : BigDecimalText} {d : DecimalCrate} {dbl : Doubles} {tc : TimeCrate}
  {tt : TimeText} {tp : TimeParse} {cal : Calendar} {rx : Regex} {ct : CaseTables}.
Context (positions : option FeelSourcePositions).

Lemma fold_left_inv {A B} (P : A → Prop) (Q : B → Prop) (f : A → B → A) l acc :
  (∀ a b, P a → Q b → P (f a b)) → P acc → Forall Q l → P (fold_left f l acc).
Proof. intros Hf Ha H. revert acc Ha. induction H; simpl; [done|]. auto. Qed.

Lemma ok_distinct xs : Forall ok xs → Forall ok (distinct xs).
Proof.
  apply fold_left_inv; [|constructor]. intros acc x Ha Hx. destruct (existsb _ acc); [done|]. apply Forall_app.
  by repeat constructor.
Qed.

Definition keeps (f : list FeelValue → Z → res FeelValue) : Prop :=
  ∀ args site v, Forall ok args → f args site = Ok v → ok v.

Lemma ok_strings l : Forall ok (map Str l).
Proof. by apply Forall_map, Forall_true. Qed.

Lemma keeps_split : keeps (split positions).
Proof.
  intros args site v _ H. unfold split in H. steps H; try discriminate H; injection H as <-; try exact I. apply ok_list, ok_strings.
Qed.

Lemma keeps_strings : Forall (λ nf, keeps nf.2) (string_builtins positions).
Proof.
  unfold string_builtins. repeat constructor; simpl; try exact keeps_split.
  all: unfold matches, match_text, is_blank, substring, replace, string_join, number.
  all: try plainly.
Qed.

Lemma ok_f64_num x v : f64_num x = Ok v → ok v.
Proof. unfold f64_num, from_f64. intros H. steps H; try discriminate H; injection H as <-; exact I. Qed.

Lemma ok_f64_num_scaled x k v : f64_num_scaled x k = Ok v → ok v.
Proof.
  unfold f64_num_scaled. intros H. apply result_bind_ok in H as (w & Hw%ok_f64_num & [= <-]). destruct w; try done.
Qed.

Lemma ok_stddev ns v : stddev ns = Ok v → ok v.
Proof.
  unfold stddev. intros H. destruct (_ <? _)%nat; [by injection H as <-|]. destruct (_ =? _)%nat; [|by injection H as <-].
  apply result_bind_ok in H as (w & Hw%ok_f64_num & [= <-]). destruct w; try done.
Qed.

Lemma keeps_numbers : Forall (λ nf, keeps nf.2) (numeric_builtins positions).
Proof.
  unfold numeric_builtins. repeat constructor; simpl.
  all: unfold floor_ceiling, round_scaled, in_scale, from_f64, feel_modulo; try plainly.
  intros args site v _ H. apply result_bind_ok in H as (? & _ & H). by eapply ok_f64_num_scaled.
Qed.

Lemma ok_bool_agg l is_all saw : ok (bool_agg_loop l is_all saw).
Proof.
  revert saw. induction l as [|v l IH]; intros saw; simpl; [by destruct saw|].
  destruct v; try apply IH. destruct is_all, b; simpl; try exact I; apply IH.
Qed.

Lemma keeps_aggregates : Forall (λ nf, keeps nf.2) (aggregate_builtins positions).
Proof.
  unfold aggregate_builtins. repeat constructor; simpl.
  all: unfold min_of, max_of, median, mode; try plainly.
  all: intros args site v _ H; steps H; try discriminate H; try (by eapply ok_stddev); injection H as <-; try exact I; try apply ok_bool_agg.
  apply ok_list, Forall_map, Forall_true. done.
Qed.

(** ** Arms that return elements of their arguments *)

Lemma section_of_incl {A} (P : A → Prop) (xs : list A) args part : section_of xs args = Ok part → Forall P xs → Forall P part.
Proof.
  unfold section_of, slice_of, sub_list. intros H Hx. steps H; try discriminate H; injection H as <-; try done.
  all: by apply Forall_take, Forall_drop.
Qed.

Lemma keeps_lists : Forall (λ nf, keeps nf.2) (list_builtins positions).
Proof.
  unfold list_builtins. repeat constructor; simpl.
  - intros args site v Ha [= <-]. apply ok_list, Forall_rev, ok_agg_items, Ha.
  - intros args site v Ha [= <-]. apply ok_list, ok_distinct, ok_agg_items, Ha.
  - intros args site v Ha [= <-]. apply ok_list, ok_concat_map. eapply Forall_impl; [exact Ha|]. apply ok_flatten.
  - intros args site v Ha [= <-]. apply ok_list. destruct Ha as [|x r Hx Hr]; [constructor|]. apply Forall_app. split; [|done].
    by apply ok_as_list.
  - intros args site v Ha [= <-]. apply ok_list, ok_concat_map. eapply Forall_impl; [exact Ha|]. apply ok_as_list.
  - intros args site v Ha H. unfold sublist in H. apply result_bind_ok in H as (? & _ & H).
    apply result_bind_ok in H as (part & E & [= <-]). apply ok_list. by eapply section_of_incl, ok_as_list, ok_arg.
  - plainly.
  - intros args site v Ha H. steps H. injection H as <-. apply ok_list, Forall_map, Forall_true. done.
  - intros args site v Ha H. apply result_bind_ok in H as (? & _ & H). apply result_bind_ok in H as (pos & _ & H).
    injection H as <-. pose proof (ok_as_list _ (ok_arg _ 0 Ha)) as Hx. apply ok_list, Forall_app.
    split; [by apply Forall_take|]. constructor; [by apply ok_arg|by apply Forall_drop].
  - intros args site v Ha H. apply result_bind_ok in H as (? & _ & H). apply result_bind_ok in H as (pos & _ & H).
    injection H as <-. destruct (_ || _); [exact I|]. apply ok_list, Forall_delete, ok_as_list, ok_arg, Ha.
  - intros args site v Ha [= <-]. apply ok_list, ok_distinct, ok_concat_map. eapply Forall_impl; [exact Ha|]. apply ok_as_list.
Qed.

Lemma keeps_temporal : Forall (λ nf, keeps nf.2) (temporal_builtins positions).
Proof.
  unfold temporal_builtins. repeat constructor; simpl.
  all: unfold seconds_between, date_builtin, time_builtin, time_from_components, duration_builtin, date_and_time_builtin,
    years_and_months_duration, days_and_time_duration, component_of, temporal_component, of_one, weekday_name, month_name,
    date_ordinal, iso_week, combine_date_time; plainly.
Qed.

(** ** Contexts, ranges and relations *)

Lemma feel_cmp_ok a b c : feel_cmp a b = Some c → ok a ∧ ok b.
Proof. destruct a as [| | | | | | |[]| | | | |], b; try discriminate; intros _; split; exact I. Qed.

Lemma keeps_range : keeps (range_builtin positions).
Proof.
  intros args site v _ H. unfold range_builtin in H. apply result_bind_ok in H as (? & _ & H).
  apply result_bind_ok in H as (r & Hr & H). destruct r as [w|]; [|discriminate]. injection H as <-.
  unfold parse_range_literal in Hr. destruct (arg args 0); try discriminate Hr.
  apply result_bind_ok in Hr as (o & _ & Hr). destruct o as [[]|]; try discriminate Hr.
  destruct (_ && _); [|discriminate Hr]. apply result_bind_ok in Hr as ([s'|] & _ & Hr); [|discriminate Hr].
  apply result_bind_ok in Hr as ([e'|] & _ & Hr); [|discriminate Hr].
  destruct (is_null s' || is_null e'); [discriminate Hr|].
  destruct (feel_cmp s' e') as [[]|] eqn:E; try discriminate Hr; injection Hr as <-; exact (feel_cmp_ok _ _ _ E).
Qed.

Definition ok_scope_opt (o : option (list (string * FeelValue))) : Prop := ∀ m, o = Some m → ok_scope m.

Lemma contexts_of_ok v l : ok v → contexts_of v = Some l → Forall ok l.
Proof. intros Hv. destruct v; try discriminate; intros [= <-]; [by apply ok_list|by repeat constructor]. Qed.

Lemma add_entry_ok acc e : ok_scope_opt acc → ok e → ok_scope_opt (add_entry acc e).
Proof.
  intros Ha He m. unfold add_entry. destruct acc as [out|]; [|done]. simpl. destruct e; try discriminate.
  destruct (map_get "key" entries) as [[]|]; try discriminate. destruct (map_get "value" entries) eqn:E; [|done].
  destruct (is_some _); [done|]. intros [= <-]. apply ok_insert; [by apply Ha|]. eapply ok_get; [|exact E]. by apply ok_map.
Qed.

Lemma folded_ok f v :
  (∀ acc c, ok_scope_opt acc → ok c → ok_scope_opt (f acc c)) → ok v →
  ok (match (entries ← contexts_of v; fold_left f entries (Some [])) with Some out => Map out | None => Null end).
Proof.
  intros Hf Hv. destruct (contexts_of v) as [l|] eqn:E; [|exact I]. simpl. apply contexts_of_ok in E; [|done].
  destruct (fold_left f l (Some [])) as [out|] eqn:Eo; [|exact I]. apply ok_map.
  refine (fold_left_inv ok_scope_opt ok f l (Some []) Hf _ E out Eo). intros m [= <-]. constructor.
Qed.

Lemma merge_ok acc c :
  ok_scope_opt acc → ok c →
  ok_scope_opt (out ← acc; match c with Map m => Some (insert_all out m) | _ => None end).
Proof.
  intros Ha Hc m. destruct acc as [out|]; [|done]. destruct c; try discriminate. intros [= <-].
  apply ok_insert_all; [by apply Ha|by apply ok_map].
Qed.

Lemma keeps_contexts : Forall (λ nf, keeps nf.2) (context_builtins positions).
Proof.
  unfold context_builtins. repeat constructor; simpl; try exact keeps_range; try plainly; intros args site v Ha H;
    [| |unfold context_builtin in H|unfold context_merge in H]; apply result_bind_ok in H as (? & _ & [= <-]).
  - pose proof (ok_arg _ 0 Ha) as H0. destruct (arg args 0); try exact I. destruct (arg args 1); try exact I.
    by apply ok_pick, ok_map.
  - pose proof (ok_arg _ 0 Ha) as H0. destruct (arg args 0); try exact I. apply ok_list, Forall_map.
    apply ok_map in H0. eapply Forall_impl; [exact H0|]. intros [k w] Hw. by repeat constructor.
  - apply folded_ok; [exact add_entry_ok|by apply ok_arg].
  - apply folded_ok; [exact merge_ok|by apply ok_arg].
Qed.

Lemma keeps_relations : Forall (λ nf, keeps nf.2) (relation_builtins positions).
Proof.
  apply Forall_map, Forall_true. intros r args site v _ H. simpl in H. apply result_bind_ok in H as (? & _ & [= <-]).
  by destruct (interval_relation _ _ _) as [[]|].
Qed.

(** No arm of [invoke_builtin] that is a function of its arguments brings in a function. *)
Lemma builtin_ok name f : map_get name (pure_builtins positions) = Some f → keeps f.
Proof.
  assert (H : Forall (λ nf, keeps nf.2) (pure_builtins positions)).
  { unfold pure_builtins. rewrite !Forall_app. repeat split; auto using keeps_strings, keeps_numbers, keeps_aggregates,
      keeps_lists, keeps_temporal, keeps_contexts, keeps_relations. }
  induction H as [|[n g] l Hg Hl IH]; simpl; [done|]. destruct (String.eqb n name); [|done]. by intros [= <-].
Qed.

(** ** Operators, fields and scopes *)

Lemma ok_field v field : ok v → ok (field_access v field).
Proof.
  revert v. fix IH 1. intros v Hv. destruct v as [| | | | | | |[]|items| | |[]|]; try exact I; simpl;
    try (apply ok_pick; by repeat constructor).
  - apply ok_pick. repeat constructor; simpl; by destruct qualifier as [[]|].
  - apply ok_pick. repeat constructor; simpl; by destruct qualifier as [[]|].
  - apply ok_list, Forall_map. apply ok_list in Hv. revert Hv. induction items as [|x l IHl]; intros Hv; [constructor|].
    apply Forall_cons_1 in Hv as [Hx Hl]. constructor; [by apply IH|by apply IHl].
  - by apply ok_pick, ok_map.
  - apply ok_pick. destruct Hv. by repeat constructor.
Qed.

Lemma ok_single v : ok v → ok (match v with List [x] => x | other => other end).
Proof. intros Hv. destruct v as [| | | | | | | |[|x []]| | | |]; try exact Hv. apply ok_list in Hv. by inversion Hv. Qed.

Lemma mapM_Forall {A B} (f : A → option B) (P : A → Prop) (Q : B → Prop) l l' :
  (∀ x y, P x → f x = Some y → Q y) → Forall P l → mapM f l = Some l' → Forall Q l'.
Proof. intros Hf Hl H. apply mapM_Some_1 in H. induction H; [constructor|]. inversion Hl; subst. constructor; eauto. Qed.

Lemma ok_conform shape v w : ok v → conform_to_shape v shape = Some w → ok w.
Proof.
  revert v w. induction shape as [|name|elem IH|components|elem]; intros v w Hv; simpl;
    destruct (is_null v) eqn:En; try (by intros [= <-]).
  - destruct (base_shape_matches v name); [by intros [= <-]|]. destruct v as [| | | | | | | |[|x []]| | | |]; try discriminate.
    apply ok_list, Forall_cons_1 in Hv as [Hx _]. destruct (base_shape_matches x name); [by intros [= <-]|done].
  - assert (Hw : ∀ o, (∀ x, o = Some x → ok x) → (x ← o; Some (List [x])) = Some w → ok w).
    { intros [x|] Ho; [|done]. intros [= <-]. apply ok_list. repeat constructor. by apply Ho. }
    destruct v; try (apply Hw; intros; by eapply IH).
    destruct (mapM _ items) as [out|] eqn:E; [|done]. intros [= <-]. apply ok_list in Hv. apply ok_list.
    by eapply (mapM_Forall _ ok ok); [apply IH|..].
  - pose proof (ok_single v Hv) as Hs. destruct (match v with List [x] => x | other => other end); try discriminate.
    destruct (_ components); [|done]. by intros [= <-].
  - destruct v; try discriminate. by intros [= <-].
Qed.

Lemma ok_coerce shape v w : ok v → coerce_to_shape v shape = Some w → ok w.
Proof.
  intros Hv H. unfold coerce_to_shape in H. destruct v; try (by eapply ok_conform).
  destruct shape; try (by eapply ok_conform). destruct (is_date_and_time_type name); [by injection H as <-|by eapply ok_conform].
Qed.

Lemma ok_of_tri o : ok (of_tri o).
Proof. by destruct o. Qed.

Lemma ok_compare_values op l r site v : compare_values positions op l r site = Ok v → ok v.
Proof.
  unfold compare_values. intros H. destruct op; try (injection H as <-; apply ok_of_tri);
    (destruct (is_null l || is_null r); [by injection H as <-|]); by apply result_bind_ok in H as (c & _ & [= <-]).
Qed.

Lemma ok_negate w v : negate w = Ok v → ok v.
Proof. unfold negate. intros H. steps H; try discriminate H; injection H as <-; exact I. Qed.

Lemma ok_pow a b v : pow_decimal a b = Ok v → ok v.
Proof. unfold pow_decimal, from_f64. intros H. steps H; try discriminate H; injection H as <-; exact I. Qed.

Lemma ok_temporal_arith l op r v : temporal_arith l op r = Ok (Some v) → ok v.
Proof.
  unfold temporal_arith, add_durations, scale_duration, div_duration, div_duration_by_duration, duration_of_seconds.
  intros H. destruct l, op, r; steps H; try discriminate H; simplify_option_eq; try exact I.
Qed.

Lemma ok_arith op l r v : arith_values op l r = Ok v → ok v.
Proof.
  unfold arith_values. set (numeric := if is_temporal l || is_temporal r then _ else _).
  assert (Hn : numeric = Ok v → ok v); subst numeric.
  { destruct (is_temporal l || is_temporal r); [|destruct (is_null l || is_null r); [by intros [= <-]|]].
    - intros (o & Ho & H)%result_bind_ok. destruct o as [w|]; [|discriminate]. injection H as <-. by eapply ok_temporal_arith.
    - destruct (is_string l || is_string r); [by intros [= <-]|].
      intros (a & _ & (b & _ & H)%result_bind_ok)%result_bind_ok. destruct op; try (by injection H as <-); [|by eapply ok_pow].
      injection H as <-. by destruct (is_zero b). }
  destruct op; try exact Hn. destruct l; try exact Hn. destruct r; try exact Hn. by intros [= <-].
Qed.

Lemma ok_membership v t : ok (membership v t).
Proof. destruct t; try exact I. apply ok_of_tri. Qed.

Lemma ok_nth xs i : Forall ok xs → ok (nth_value xs i).
Proof. intros H. apply (ok_arg xs (Z.to_nat i) H). Qed.

Lemma ok_filter_index xs n : Forall ok xs → ok (filter_index xs n).
Proof. intros H. unfold filter_index. destruct (_ && _); [by apply ok_nth|exact I]. Qed.

Lemma ok_item_scope ctx item : ok_scope ctx → ok item → ok_scope (item_scope ctx item).
Proof.
  intros Hc Hi. unfold item_scope. pose proof (ok_insert _ "item" _ Hc Hi) as Hl. destruct item; try exact Hl.
  apply ok_insert_all; [done|by apply ok_map].
Qed.

Lemma count_ok fuel i hi xs : count_up fuel i hi = Ok xs ∨ count_down fuel i hi = Ok xs → Forall ok xs.
Proof.
  revert i xs. induction fuel as [|fuel IH]; intros i xs; simpl; intros [H|H];
    match type of H with (if ?b then _ else _) = _ => destruct b end; try discriminate H; try (by injection H as <-).
  all: apply result_bind_ok in H as (ys & E & [= <-]); constructor; [exact I|]; eauto.
Qed.

Lemma date_steps_ok fuel jd e step site xs : date_steps positions fuel jd e step site = Ok xs → Forall ok xs.
Proof.
  revert jd xs. induction fuel as [|fuel IH]; intros jd xs; simpl; [done|]. intros (dt & _ & H)%result_bind_ok.
  destruct (jd =? e); [injection H as <-; by repeat constructor|]. apply result_bind_ok in H as (ys & E & [= <-]).
  constructor; [exact I|]. by eapply IH.
Qed.

Lemma items_of_ok v site allow xs : ok v → items_of positions v site allow = Ok xs → Forall ok xs.
Proof.
  intros Hv. unfold items_of. destruct v; try (intros [= <-]; by repeat constructor); [intros [= <-]; by apply ok_list|].
  destruct r as [s e si ei c]. unfold expand_range, expand_date_range. intros H.
  steps H; try discriminate H; eauto using count_ok, date_steps_ok.
Qed.

(** ** Arguments and parameters *)

Lemma ok_set_nested path base v w : ok_scope base → ok v → set_nested base path v = Some w → ok w.
Proof.
  revert base w. induction path as [|key rest IH]; intros base w Hb Hv; simpl; [done|]. destruct key; try done.
  destruct rest as [|k' rest]; [intros [= <-]; by apply ok_map, ok_insert|].
  destruct (map_get s base) as [child|] eqn:E; [|done]. destruct child; try done.
  pose proof (ok_get _ _ _ Hb E) as Hc. intros (updated & Hu & [= <-])%bind_Some. apply ok_map, ok_insert; [done|].
  eapply IH; [by apply ok_map|done|exact Hu].
Qed.

Definition ok_put (a : PutArgs) : Prop :=
  (∀ v, put_context a = Some v → ok v) ∧ (∀ b v, put_key a = Some (b, v) → ok v) ∧ (∀ v, put_value a = Some v → ok v).

Lemma zip_ok {A} (names : list A) args : Forall ok args → Forall (λ nv, ok nv.2) (zip names args).
Proof. intros H. revert names. induction H; intros [|n names]; simpl; by repeat constructor. Qed.

Lemma put_args_ok args names c k v : Forall ok args → put_args args names = Some (c, k, v) → ok c ∧ ok k ∧ ok v.
Proof.
  intros Ha. unfold put_args. destruct (any_named names).
  - assert (Hf : ∀ a, fold_left put_arg (zip names args) (Some (mk_put None None None)) = Some a → ok_put a).
    { refine (fold_left_inv (λ o, ∀ a, o = Some a → ok_put a) (λ nv, ok nv.2) put_arg _ _ _ _ (zip_ok _ _ Ha)).
      - intros [a|] [[n|] w] IH Hw b; unfold put_arg; simpl; try done. destruct (IH a eq_refl) as (H1 & H2 & H3).
        repeat case_match; try done; intros [= <-]; repeat split; simpl; try done; intros; by simplify_eq.
      - by intros a [= <-]. }
    intros (a & (H1 & H2 & H3)%Hf & H)%bind_Some. apply bind_Some in H as (c' & Ec & H).
    apply bind_Some in H as ([b k'] & Ek & H). apply bind_Some in H as (v' & Ev & H).
    destruct (b && _); [done|]. injection H as <- <- <-. split; [by apply H1|split; [by eapply H2|by apply H3]].
  - destruct args as [|? [|? [|? []]]]; try done. intros [= <- <- <-]. rewrite !Forall_cons in Ha. tauto.
Qed.

Lemma ok_context_put args names : Forall ok args → ok (context_put args names).
Proof.
  intros Ha. unfold context_put. destruct (put_args args names) as [[[c k] v]|] eqn:E; [|done].
  destruct (put_args_ok _ _ _ _ _ Ha E) as (Hc & Hk & Hv). destruct c; try done. destruct k; try done.
  - apply ok_map, ok_insert; [by apply ok_map|done].
  - destruct (set_nested entries items v) eqn:En; [|done]. eapply ok_set_nested; [by apply ok_map|exact Hv|exact En].
Qed.

Lemma ok_fill params acc i nv :
  ok nv.2 → (∀ l, acc = Some l → Forall (λ s, ok (or_null s)) l) →
  ∀ l, fill_slot params acc (i, nv) = Some l → Forall (λ s, ok (or_null s)) l.
Proof.
  intros Hv Ha l. unfold fill_slot. destruct acc as [slots|]; [|done]. destruct nv as [[n|] v]; simpl.
  - intros (idx & _ & [= <-])%bind_Some. apply Forall_insert; [by apply Ha|done].
  - intros [= <-]. apply Forall_insert; [by apply Ha|done].
Qed.

Lemma replicate_ok n : Forall (λ s, ok (or_null s)) (replicate n None).
Proof. by apply Forall_replicate. Qed.

Lemma imap_pair_ok {A} (P : A → Prop) l : Forall P l → Forall (λ ix, P ix.2) (imap pair l).
Proof.
  intros H. apply Forall_lookup. intros i [j x]. rewrite list_lookup_imap. intros (y & Hy & [= <- <-])%fmap_Some.
  by eapply Forall_lookup_1.
Qed.

Lemma bind_builtin_args_ok name args names l : Forall ok args → bind_builtin_args name args names = Some l → Forall ok l.
Proof.
  intros Ha. unfold bind_builtin_args. destruct (any_named names); [|by intros [= <-]].
  destruct (builtin_param_names name) as [params|]; [|by intros [= <-]]. intros (slots & Hs & [= <-])%bind_Some.
  apply Forall_map. revert slots Hs.
  refine (fold_left_inv (λ o, ∀ l, o = Some l → Forall (λ s, ok (or_null s)) l) (λ ix : nat * (option string * FeelValue), ok ix.2.2)
    (fill_slot params) _ _ _ _ (imap_pair_ok _ _ (zip_ok names _ Ha))).
  - intros acc [i nv] IH Hv. by apply ok_fill.
  - intros l' [= <-]. apply replicate_ok.
Qed.

Lemma call_bindings_ok params args names : Forall ok args → Forall (λ iv, ok iv.2) (call_bindings params args names).
Proof.
  intros Ha. unfold call_bindings. destruct (any_named names); [|by apply Forall_take, imap_pair_ok].
  pose proof (zip_ok names _ Ha) as Hz. induction Hz as [|[n v] l Hv Hl IH]; simpl; [done|].
  destruct n as [n|]; simpl; [|done]. destruct (position n params); [|done]. by constructor.
Qed.

Lemma bind_params_ok params shapes bindings local scope :
  Forall (λ iv, ok iv.2) bindings → ok_scope local → bind_params params shapes bindings local = Some scope → ok_scope scope.
Proof.
  intros H. revert local. induction H as [|[i v] l Hv Hl IH]; intros local Hs; simpl; [by intros [= <-]|].
  intros (w & Hw & Hb)%bind_Some. eapply IH; [|exact Hb]. apply ok_insert; [done|]. by eapply ok_coerce.
Qed.

Lemma order_args_ok params args names l : Forall ok args → order_args params args names = Some l → Forall ok l.
Proof.
  intros Ha. unfold order_args. destruct (any_named names); [|destruct (_ =? _)%nat; [by intros [= <-]|done]].
  destruct (_ && _); [|done]. intros (slots & Hs & Hm)%bind_Some.
  assert (Hall : Forall (λ s, ok (or_null s)) slots).
  { clear Hm. revert slots Hs.
    refine (fold_left_inv (λ o, ∀ l, o = Some l → Forall (λ s, ok (or_null s)) l) (λ nv : option string * FeelValue, ok nv.2)
      (fill_once params) _ _ _ _ (zip_ok names _ Ha)); [|intros l' [= <-]; apply replicate_ok].
    intros acc nv IH Hv l'. unfold fill_once. intros (s' & -> & (n & Hn & (i & Hi & H)%bind_Some)%bind_Some)%bind_Some.
    destruct (s' !! i) as [[]|]; [done| |done]. injection H as <-. apply Forall_insert; [by apply IH|done]. }
  by eapply (mapM_Forall id (λ s, ok (or_null s)) ok); [intros [v|] y Hv [= <-]|..].
Qed.

Lemma replace_args_ok args names l s n : Forall ok args → replace_args args names = Some (l, s, n) → ok l ∧ ok s ∧ ok n.
Proof.
  intros Ha. unfold replace_args. destruct (any_named names).
  - set (ok_rep := λ a, (∀ v, rep_list a = Some v → ok v) ∧ (∀ v, rep_second a = Some v → ok v) ∧
                        (∀ v, rep_item a = Some v → ok v)).
    assert (Hf : ∀ a, fold_left replace_arg (zip names args) (Some (mk_replace None None None)) = Some a → ok_rep a).
    { refine (fold_left_inv (λ o, ∀ a, o = Some a → ok_rep a) (λ nv, ok nv.2) replace_arg _ _ _ _ (zip_ok _ _ Ha)).
      - intros [a|] [[m|] w] IH Hw b; unfold replace_arg; simpl; try done. destruct (IH a eq_refl) as (H1 & H2 & H3).
        repeat case_match; try done; intros [= <-]; repeat split; simpl; try done; intros; by simplify_eq.
      - by intros a [= <-]. }
    intros (a & (H1 & H2 & H3)%Hf & (? & ? & (? & ? & (? & ? & [= <- <- <-])%bind_Some)%bind_Some)%bind_Some)%bind_Some. auto.
  - destruct args as [|? [|? [|? []]]]; try done. intros [= <- <- <-]. rewrite !Forall_cons in Ha. tauto.
Qed.
End Builtins.
End Carries.
