(* ===== verification/FeelSim.v ===== *)
(** * Two evaluations of one FEEL expression, compared step by step

    A [Simulation] is a relation between computations that returning, sequencing and catching an
    error preserve.  Two walks of one tree that call function values through related evaluators
    are related ([walks_agree]): the induction on the tree is done once here, and [FeelRuns] uses
    it for surroundings that differ and for fuel that differs. *)
From Stdlib Require Import ZArith Lia Bool Ascii String.
From stdpp Require Import base option strings list.
From S2P Require Import Prelude Texts Decimal FeelValue Temporal FeelText TemporalParse FeelLexer FeelParser.
From S2P Require Import FeelSyntax FeelOps FeelBuiltins FeelEval FeelFacade FeelCarry.

Open Scope string_scope.
Open Scope list_scope.
Open Scope Z_scope.

(** ** Simulations *)

(** [rel P m1 m2]: the computations are related, and a value they both end with satisfies [P]. *)
Class Simulation (rel : ∀ A : Type, (A → Prop) → M A → M A → Prop) : Prop := {
  same_ret A (P : A → Prop) a : P a → rel A P (mret a) (mret a);
  same_lift A (P : A → Prop) r : (∀ a, r = Ok a → P a) → rel A P (lift r) (lift r);
  same_bind A B (P : A → Prop) (Q : B → Prop) (m1 m2 : M A) (f1 f2 : A → M B) :
    rel A P m1 m2 → (∀ a, P a → rel B Q (f1 a) (f2 a)) → rel B Q (m1 ≫= f1) (m2 ≫= f2);
  same_attempt A (P : A → Prop) (m1 m2 : M A) :
    rel A P m1 m2 → rel _ (λ r, ∀ a, r = Ok a → P a) (attempt m1) (attempt m2)
}.
Arguments same_bind {rel _ A B} P Q m1 m2 f1 f2 _ _.

Section SameLoops.
Context {rel : ∀ A : Type, (A → Prop) → M A → M A → Prop} `{!Simulation rel} {A B : Type}.
Local Abbreviation same := (rel _).
Implicit Types (P : A → Prop) (Q : B → Prop).

Lemma same_map_m P Q (f1 f2 : A → M B) l :
  Forall (λ x, same Q (f1 x) (f2 x)) l → same (Forall Q) (map_m f1 l) (map_m f2 l).
Proof.
  induction 1 as [|x l Hx Hl IH]; simpl; [by apply same_ret|].
  eapply same_bind; [exact Hx|]. intros y Hy. eapply same_bind; [exact IH|]. intros ys Hys. apply same_ret. by constructor.
Qed.

Lemma same_fold_m P Q (f1 f2 : B → A → M B) l acc :
  (∀ acc x, Q acc → P x → same Q (f1 acc x) (f2 acc x)) → Forall P l → Q acc → same Q (fold_m f1 l acc) (fold_m f2 l acc).
Proof.
  intros Hf Hl. revert acc. induction Hl as [|x l Hx Hl IH]; intros acc Ha; simpl; [by apply same_ret|].
  eapply same_bind; [by apply Hf|]. intros acc' Ha'. by apply IH.
Qed.

Lemma same_until P Q (f1 f2 : A → M (option B)) d l :
  (∀ x, P x → same (λ o, ∀ b, o = Some b → Q b) (f1 x) (f2 x)) → Q d → Forall P l → same Q (until f1 d l) (until f2 d l).
Proof.
  intros Hf Hd. induction 1 as [|x l Hx Hl IH]; simpl; [by apply same_ret|].
  eapply same_bind; [by apply Hf|]. intros [b|] Hb; [|done]. apply same_ret. by apply Hb.
Qed.

Lemma same_gather P Q (f1 f2 : A → M (option (list B))) l :
  (∀ x, P x → same (λ o, ∀ bs, o = Some bs → Forall Q bs) (f1 x) (f2 x)) → Forall P l →
  same (λ o, ∀ bs, o = Some bs → Forall Q bs) (gather f1 l) (gather f2 l).
Proof.
  intros Hf. induction 1 as [|x l Hx Hl IH]; simpl; [apply same_ret; by intros bs [= <-]|].
  eapply same_bind; [by apply Hf|]. intros [bs|] Hb; [|by apply same_ret].
  eapply same_bind; [exact IH|]. intros [cs|] Hc; apply same_ret; simpl; [|done].
  intros ? [= <-]. apply Forall_app. auto.
Qed.
End SameLoops.

(** ** Trees all of whose nodes satisfy a property *)

Definition children (e : FeelExpr) : list FeelExpr :=
  match e with
  | Literal _ _ _ | Path _ _ _ => []
  | Compare _ _ l _ r | BoolOp _ _ l _ r | Arith _ _ l _ r => [l; r]
  | Not _ _ a | Negate _ _ a | FieldAccess _ _ a _ | InstanceOf _ _ a _ | OpenRange _ _ _ a
  | FunctionDef _ _ _ _ _ a => [a]
  | Call _ _ _ args _ | ListLit _ _ args => args
  | Invoke _ _ callee args _ => callee :: args
  | IfThenElse _ _ c t o => [c; t; o]
  | ContextLit _ _ entries => map snd entries
  | RangeLit _ _ from to _ _ _ => [from; to]
  | Quantifier _ _ _ _ source condition => [source; condition]
  | For _ _ bindings body => map snd bindings ++ [body]
  | Filter _ _ source predicate => [source; predicate]
  | In_ _ _ v t => [v; t]
  end.

Inductive everywhere (p : FeelExpr → Prop) (e : FeelExpr) : Prop :=
| everywhere_intro : p e → Forall (everywhere p) (children e) → everywhere p e.

Lemma everywhere_here p e : everywhere p e → p e.
Proof. by intros []. Qed.

Lemma tree_induction (P : FeelExpr → Prop) : (∀ e, Forall P (children e) → P e) → ∀ e, P e.
Proof.
  intros H. apply expr_induction; intros; apply H; simpl; rewrite ?Forall_app, ?Forall_map, ?Forall_cons; auto.
Qed.

Lemma everywhere_impl p q e : (∀ x, everywhere p x → q x) → everywhere p e → everywhere q e.
Proof.
  intros Hpq. induction e as [e IH] using tree_induction. intros He. constructor; [by apply Hpq|]. destruct He as [_ Hc].
  rewrite Forall_forall in *. auto.
Qed.

Definition deterministic_name (name : string) : Prop := existsb (String.eqb name) NON_DETERMINISTIC_BUILTINS = false.

(** No call of a builtin that reads its surroundings, which is what [is_pure] looks for. *)
Definition pure_node (e : FeelExpr) : Prop := match e with Call _ _ name _ _ => deterministic_name name | _ => True end.

Lemma concat_map_nil {A B} (f : A → list B) l : concat (map f l) = [] → Forall (λ x, f x = []) l.
Proof. induction l as [|x l IH]; simpl; [done|]. intros [H1 H2]%app_eq_nil. auto. Qed.

Lemma Forall_mp {A} (P Q : A → Prop) l : Forall (λ x, P x → Q x) l → Forall P l → Forall Q l.
Proof. intros H1 H2. rewrite Forall_forall in *. auto. Qed.

Lemma denied_everywhere e : denied_calls e = [] → everywhere pure_node e.
Proof.
  induction e using expr_induction; intros Hd; apply everywhere_intro; simpl in *;
    repeat match goal with
    | H : _ ++ _ = [] |- _ => apply app_eq_nil in H as [? ?]
    | H : concat (map _ _) = [] |- _ => apply concat_map_nil in H
    | H : Forall (λ x, _ → _) ?l, H' : Forall _ ?l |- _ => apply (Forall_mp _ _ _ H) in H'; clear H
    end; rewrite ?Forall_app, ?Forall_map, ?Forall_cons; auto 6.
  unfold pure_node, deterministic_name. simpl. by destruct (_ || _).
Qed.

(** ** Two walks of one tree *)

Lemma canonical_deterministic name : deterministic_name name → deterministic_name (canonical_builtin name).
Proof.
  intros H. unfold canonical_builtin. destruct (map_get name SPACED_BUILTIN_ALIASES) as [c|] eqn:E; [|done].
  revert E. apply map_get_Forall. by repeat constructor.
Qed.

Section Walk.
Context {u : UnicodeTables} {ops : BigDecimalOps} {txt : BigDecimalText} {d : DecimalCrate} {dbl : Doubles} {tc : TimeCrate}
  {tt : TimeText} {tp : TimeParse} {cal : Calendar} {rx : Regex} {ct : CaseTables} {natives : Natives}.
Context (amb1 amb2 : Ambient) (fn : FeelExpr → Prop) (inv : string → Prop).
Context (rel : ∀ A : Type, (A → Prop) → M A → M A → Prop) `{!Simulation rel}.
Context (call1 call2 : FeelFunction → list FeelValue → list (option string) → Z → M FeelValue).
Context (positions : option FeelSourcePositions) (resolver : option TypeResolver) (tf1 tf2 : nat).

Local Abbreviation same := (rel _).
Local Abbreviation ok := (ok fn inv).
Local Abbreviation ok_scope := (ok_scope fn inv).

Context (Hnative : ∀ id args, Forall ok args → ok (native_call id args)).
Context (Hwrap : ∀ name f, builtin_as_function_value name = Some f → ok f).
Context (reads : Prop) (Hreads : reads → amb1 = amb2 ∧ ∀ A (f : nat → A), same (λ _, True) (reading f) (reading f)).

(** A builtin both walks may call: any, or one that reads nothing. *)
Definition callable (name : string) : Prop := reads ∨ deterministic_name name.

Context (Hinv : ∀ id name, inv id → strip_prefix BUILTIN_ID id = Some name → callable name).
Context (Hcall : ∀ f args names site, ok (Function f) → Forall ok args →
  same ok (call1 f args names site) (call2 f args names site)).
Context (Htype : ∀ v shape,
  same (λ _, True) (lift (instance_of_shape tf1 v shape resolver)) (lift (instance_of_shape tf2 v shape resolver))).

Lemma same_sort pos args site : Forall ok args → same ok (sort_builtin pos call1 args site) (sort_builtin pos call2 args site).
Proof.
  intros Ha. unfold sort_builtin. eapply (same_bind (λ _, True)); [by apply same_lift|]. intros _ _.
  pose proof (ok_arg _ _ _ 0 Ha) as H0. pose proof (ok_arg _ _ _ 1 Ha) as H1.
  destruct (arg args 0); try (by apply same_ret). destruct (arg args 1); try (by apply same_ret).
  apply ok_list in H0. eapply (same_bind (Forall ok)); [|intros l Hl; apply same_ret, ok_list, Forall_rev, Hl].
  eapply (same_fold_m ok); [|done|constructor]. intros acc x Hacc Hx. induction Hacc as [|y r Hy Hr IH]; simpl.
  - apply same_ret. by repeat constructor.
  - eapply (same_bind (λ _, True)).
    + eapply same_bind; [apply Hcall; [done|by repeat constructor]|]. intros v _. by apply same_ret.
    + intros [] _; [|apply same_ret; by repeat constructor]. eapply same_bind; [exact IH|]. intros l Hl. apply same_ret.
      by constructor.
Qed.

Lemma same_replace_each f item items site :
  ok (Function f) → ok item → Forall ok items →
  let each call := out ← gather (λ it,
      v ← call f [it; item] [None; None] site;
      mret (match v with Boolean true => Some [item] | Boolean false => Some [it] | _ => None end)) items;
    mret (match out with Some xs => List xs | None => Null end) in
  same ok (each call1) (each call2).
Proof.
  intros Hf Hn Hi. eapply (same_bind (λ o, ∀ xs, o = Some xs → Forall ok xs)); [|intros [xs|] Hx; apply same_ret; [by apply ok_list, Hx|done]].
  eapply same_gather; [|exact Hi]. intros it Hit. eapply same_bind; [apply Hcall; [done|by repeat constructor]|].
  intros v _. apply same_ret. intros bs. destruct v as [|[]| | | | | | | | | | |]; try done; intros [= <-]; by repeat constructor.
Qed.

Lemma same_list_replace args names site :
  Forall ok args → same ok (list_replace call1 args names site) (list_replace call2 args names site).
Proof.
  intros Ha. unfold list_replace. destruct (replace_args args names) as [[[l s] n]|] eqn:E; [|by apply same_ret].
  destruct (replace_args_ok _ _ _ _ _ _ _ Ha E) as (Hl & Hs & Hn). apply ok_as_list in Hl.
  destruct l; [by apply same_ret|..]; destruct s; try (by apply same_ret).
  all: match goal with
  | |- same _ (match ?g with mk_function _ _ _ _ _ _ => _ end) _ => destruct g; destruct (_ =? 2)%nat; [by apply same_replace_each|by apply same_ret]
  | _ => eapply (same_bind (λ _, True)); [by apply same_lift|]; intros pos _; apply same_ret; destruct (_ || _); [exact I|];
      apply ok_list; by apply Forall_insert
  end.
Qed.

Lemma deterministic_cases name : deterministic_name name →
  String.eqb name "now" = false ∧ String.eqb name "today" = false ∧ String.eqb name "uuid" = false ∧
  String.eqb name "random" = false.
Proof. unfold deterministic_name. simpl. rewrite !orb_false_iff. tauto. Qed.

(** The arms that read their surroundings. *)
Lemma same_readings pos name args site m1 m2 :
  callable name → same ok m1 m2 →
  let name := canonical_builtin name in
  let arms (amb : Ambient) m :=
    if String.eqb name "now" then
      _ ← lift (require_args pos "now" args 0 site); t ← reading now_utc; mret (Instant t (Some Zulu))
    else if String.eqb name "today" then
      _ ← lift (require_args pos "today" args 0 site); t ← reading now_utc; mret (DateV (odt_date t))
    else if String.eqb name "uuid" then
      b ← reading (λ k, getrandom k 16); b ← lift (or_panic b); mret (Str (uuid_v4 b))
    else if String.eqb name "random" then
      b ← reading (λ k, getrandom k 8); b ← lift (or_panic b); lift (from_f64 (random_unit_f64 b))
    else m in
  same ok (arms amb1 m1) (arms amb2 m2).
Proof.
  intros [Hr|Hname] Hm.
  - apply Hreads in Hr as [<- Hr]. simpl.
    repeat match goal with |- rel _ _ (if ?b then _ else _) _ => destruct b end; [..|done];
      (eapply (same_bind (λ _, True)); [by first [apply Hr | apply same_lift]|]; intros ? _;
       eapply (same_bind (λ _, True)); [by first [apply Hr | apply same_lift]|]; intros ? _);
      try (by apply same_ret). apply same_lift. intros v. unfold from_f64.
    destruct (is_finite _); [|done]. by intros (n & _ & [= <-])%result_bind_ok.
  - apply canonical_deterministic, deterministic_cases in Hname as (N1 & N2 & N3 & N4). simpl. by rewrite N1, N2, N3, N4.
Qed.

Lemma same_builtin pos name args names site :
  callable name → Forall ok args →
  same ok (invoke_builtin (ambient := amb1) pos call1 name args names site)
    (invoke_builtin (ambient := amb2) pos call2 name args names site).
Proof.
  intros Hname Ha. unfold invoke_builtin.
  destruct (String.eqb _ "contextPut"); [apply same_ret; by apply ok_context_put|].
  destruct (String.eqb _ "listReplace"); [by apply same_list_replace|].
  destruct (bind_builtin_args _ args names) as [bound|] eqn:E; [|by apply same_ret].
  pose proof (bind_builtin_args_ok _ _ _ _ _ _ Ha E) as Hb.
  apply same_readings; [done|]. destruct (String.eqb _ "sort"); [by apply same_sort|].
  destruct (map_get _ (pure_builtins pos)) as [f|] eqn:Ef; [|by apply same_lift].
  apply same_lift. intros v. by apply (builtin_ok fn inv pos _ f Ef).
Qed.

Lemma same_invocable id params shapes ret args names :
  inv id → Forall ok args →
  same ok (invoke_invocable (ambient := amb1) call1 id params shapes ret args names)
    (invoke_invocable (ambient := amb2) call2 id params shapes ret args names).
Proof.
  intros Hid Ha. unfold invoke_invocable. set (coerced := (ordered ← _; _)).
  destruct coerced as [vs|] eqn:E; [|by apply same_ret]. apply bind_Some in E as (ordered & Ho & Hm).
  assert (Hvs : Forall ok vs).
  { eapply (mapM_Forall _ (λ vs : FeelValue * FeelTypeShape, ok vs.1)); [|..|exact Hm]; [intros [v sh] w; apply ok_coerce|].
    apply (order_args_ok fn inv) in Ho; [|exact Ha]. clear -Ho. revert shapes. induction Ho; intros [|sh shapes]; simpl; by repeat constructor. }
  eapply (same_bind ok).
  - unfold invocable_result. destruct (strip_prefix BUILTIN_ID id) as [name|] eqn:Ep; [|apply same_ret; by apply Hnative].
    eapply same_bind; [apply same_attempt, same_builtin; [by eapply Hinv|done]|].
    intros r Hr. apply same_ret. destruct r as [v|]; [by apply Hr|done].
  - intros v Hv. apply same_ret, ok_or_null. intros w. by apply ok_coerce.
Qed.

Lemma same_invoke_value callee args names site m1 m2 :
  ok callee → Forall ok args → same ok m1 m2 →
  same ok (invoke_value (ambient := amb1) call1 callee args names site m1)
    (invoke_value (ambient := amb2) call2 callee args names site m2).
Proof. intros Hc Ha Hm. destruct callee; try exact Hm; [by apply Hcall|by apply same_invocable]. Qed.

Definition node_ok (e : FeelExpr) : Prop :=
  match e with
  | Literal _ _ v => ok v
  | Call _ _ name _ _ => callable name
  | FunctionDef _ _ _ _ _ body => fn body
  | _ => True
  end.

Local Abbreviation walk1 := (eval_internal (ambient := amb1) positions resolver tf1 call1).
Local Abbreviation walk2 := (eval_internal (ambient := amb2) positions resolver tf2 call2).

Definition agree (e : FeelExpr) : Prop := ∀ ctx, ok_scope ctx → same ok (walk1 e ctx) (walk2 e ctx).

Lemma same_operand e ctx (f1 f2 : FeelValue → M FeelValue) :
  agree e → ok_scope ctx → (∀ v, ok v → same ok (f1 v) (f2 v)) → same ok (v ← walk1 e ctx; f1 v) (v ← walk2 e ctx; f2 v).
Proof. intros He Hc Hf. eapply same_bind; [by apply He|exact Hf]. Qed.

Lemma same_operands l ctx : Forall agree l → ok_scope ctx → same (Forall ok) (map_m (λ e, walk1 e ctx) l) (map_m (λ e, walk2 e ctx) l).
Proof. intros Hl Hc. eapply (same_map_m (λ _, True)). eapply Forall_impl; [exact Hl|]. intros e He. by apply He. Qed.

Lemma same_items v site allow : ok v →
  same (Forall ok) (lift (items_of positions v site allow)) (lift (items_of positions v site allow)).
Proof. intros Hv. apply same_lift. intros xs. by apply items_of_ok. Qed.

Lemma same_bool_op op l m1 m2 : same ok m1 m2 → same ok (bool_op op l m1) (bool_op op l m2).
Proof.
  intros Hm. unfold bool_op. destruct op, l as [[]|]; try (by apply same_ret); (eapply same_bind; [exact Hm|]);
    intros v _; apply same_ret; by destruct (tri v) as [[]|].
Qed.

Lemma same_path segments ctx : ok_scope ctx → same ok (lift (path_value segments ctx)) (lift (path_value segments ctx)).
Proof.
  intros Hc. apply same_lift. intros v. unfold path_value. intros (w & Hw & [= <-])%result_bind_ok.
  assert (ok w) as Hok.
  { destruct segments as [|s rest]; [done|]. injection Hw as <-. destruct (map_get s ctx) as [x|] eqn:E; [|done].
    eapply (fold_left_inv ok (λ _, True)); [intros; by apply ok_field|by eapply ok_get|by apply Forall_true]. }
  destruct segments as [|s []]; try done. destruct (_ && _); [|done].
  destruct (builtin_as_function_value s) as [f|] eqn:E; [by apply Hwrap in E|done].
Qed.

Lemma same_entries entries :
  Forall (λ kv, agree kv.2) entries → ∀ local m, ok_scope local → ok_scope m →
  let go walk := fix go (entries : list (string * FeelExpr)) (local m : FeelContext) : M FeelValue :=
    match entries with
    | [] => mret (Map m)
    | (key, e) :: entries =>
        if is_some (map_get key m) then mret Null
        else v ← walk e local; go entries (map_insert key v local) (map_insert key v m)
    end in
  same ok (go walk1 entries local m) (go walk2 entries local m).
Proof.
  induction 1 as [|[key e] l He Hl IH]; intros local m Hlo Hm; [apply same_ret; by apply ok_map|].
  simpl. destruct (is_some _); [by apply same_ret|]. apply same_operand; [done..|]. intros v Hv.
  apply IH; by apply ok_insert.
Qed.

Lemma same_for body bindings :
  agree body → Forall (λ kv, agree kv.2) bindings → ∀ ctx out, ok_scope ctx → Forall ok out →
  let go walk := fix go (bindings : list (string * FeelExpr)) (ctx : FeelContext) (out : list FeelValue) : M (list FeelValue) :=
    match bindings with
    | [] => v ← walk body (map_insert "partial" (List out) ctx); mret (out ++ [v])
    | (var, source) :: bindings =>
        v ← walk source ctx;
        items ← lift (items_of positions v (start body) (is_bare_range source));
        fold_m (λ out item, go bindings (map_insert var item ctx) out) items out
    end in
  same (Forall ok) (go walk1 bindings ctx out) (go walk2 bindings ctx out).
Proof.
  intros Hb Hl. induction Hl as [|[var source] l Hs Hl IH]; intros ctx out Hc Ho; simpl.
  - eapply same_bind; [apply Hb, ok_insert; [done|by apply ok_list]|]. intros v Hv. apply same_ret, Forall_app.
    by repeat constructor.
  - eapply same_bind; [by apply Hs|]. intros v Hv. eapply same_bind; [by apply same_items|]. intros items Hi.
    eapply (same_fold_m ok); [|done|done]. intros acc item Hacc Hitem. apply IH; [|done]. by apply ok_insert.
Qed.

Lemma same_filter s e source predicate ctx :
  agree source → agree predicate → ok_scope ctx →
  same ok (walk1 (Filter s e source predicate) ctx) (walk2 (Filter s e source predicate) ctx).
Proof.
  intros Hs Hp Hc. simpl. apply same_operand; [done..|]. intros src Hsrc. destruct (is_null src); [by apply same_ret|].
  apply ok_as_list in Hsrc. eapply same_bind; [apply same_attempt; by apply Hp|]. intros index _.
  assert (Hg : same ok
      (kept ← gather (λ item, r ← walk1 predicate (item_scope ctx item);
         mret match r with Boolean true => Some [item] | Boolean false | Null => Some [] | _ => None end) (as_list src);
       mret match kept with Some xs => List xs | None => Null end)
      (kept ← gather (λ item, r ← walk2 predicate (item_scope ctx item);
         mret match r with Boolean true => Some [item] | Boolean false | Null => Some [] | _ => None end) (as_list src);
       mret match kept with Some xs => List xs | None => Null end)).
  { eapply (same_bind (λ o, ∀ xs, o = Some xs → Forall ok xs));
      [|intros [xs|] Hx; apply same_ret; [by apply ok_list, Hx|done]].
    eapply same_gather; [|exact Hsrc]. intros item Hi. eapply same_bind; [apply Hp; by apply ok_item_scope|].
    intros r _. apply same_ret. intros bs. destruct r as [|[]| | | | | | | | | | |]; try done; intros [= <-]; by repeat constructor. }
  destruct index as [[]|]; try exact Hg. apply same_ret. by apply ok_filter_index.
Qed.

Lemma same_quantifier s e every var source condition ctx :
  agree source → agree condition → ok_scope ctx →
  same ok (walk1 (Quantifier s e every var source condition) ctx) (walk2 (Quantifier s e every var source condition) ctx).
Proof.
  intros Hs Hp Hc. simpl. apply same_operand; [done..|]. intros src Hsrc.
  eapply same_bind; [by apply same_items|]. intros items Hi. eapply (same_until ok); [|done|exact Hi]. intros item Hitem.
  eapply same_bind; [apply Hp; by apply ok_insert|]. intros r _. apply same_ret. intros b.
  destruct r; try done; try (by intros [= <-]). destruct (Bool.eqb _ _); [done|by intros [= <-]].
Qed.

Lemma same_function s e params shapes external body ctx :
  fn body → agree body → ok_scope ctx →
  same ok (walk1 (FunctionDef s e params shapes external body) ctx) (walk2 (FunctionDef s e params shapes external body) ctx).
Proof.
  intros Hf Hb Hc. simpl. eapply (same_bind (λ _, True)); [|intros b _; apply same_ret; by apply ok_function].
  destruct external; [|by apply same_ret]. eapply same_bind; [apply same_attempt; by apply Hb|]. intros r _. by apply same_ret.
Qed.

(** Two walks of one tree in one scope. *)
Lemma walks_agree e : everywhere node_ok e → agree e.
Proof.
  induction e using expr_induction; intros [Hnode Hsub] ctx Hc; simpl in Hsub;
    rewrite ?Forall_app, ?Forall_map, ?Forall_cons in Hsub; destruct_and?;
    repeat match goal with
    | H : Forall (λ x, _ → _) ?l, H' : Forall _ ?l |- _ => apply (Forall_mp _ _ _ H) in H'; clear H
    | H : everywhere node_ok ?x → agree ?x, H' : everywhere node_ok ?x |- _ => specialize (H H'); clear H'
    end.
  - by apply same_ret.
  - by apply same_path.
  - do 2 (apply same_operand; [done..|]; intros ??). apply same_lift. intros ?. by apply ok_compare_values.
  - apply same_operand; [done..|]; intros ??. apply same_bool_op. by apply IHe2.
  - apply same_operand; [done..|]; intros ??. apply same_ret, ok_of_tri.
  - apply same_operand; [done..|]; intros ??. apply same_lift. intros ?. by apply ok_negate.
  - do 2 (apply same_operand; [done..|]; intros ??). apply same_lift. intros ?. by apply ok_arith.
  - simpl. eapply same_bind; [by apply same_operands|]. intros vs Hvs. apply same_invoke_value; [|done|by apply same_builtin].
    apply ok_or_null. intros v. by apply ok_get.
  - by apply same_function.
  - simpl. apply same_operand; [done..|]; intros v Hv. destruct v as [|[]| | | | | | | | | | |]; try (by apply same_ret); auto.
  - simpl. eapply same_bind; [by apply same_operands|]. intros vs Hvs. apply same_ret. by apply ok_list.
  - apply (same_entries l Hsub ctx []); [done|constructor].
  - do 2 (apply same_operand; [done..|]; intros ??). by apply same_ret.
  - by apply same_quantifier.
  - simpl. eapply same_bind; [apply (same_for e0 bs); [done..|constructor]|]. intros out Ho. apply same_ret. by apply ok_list.
  - by apply same_filter.
  - apply same_operand; [done..|]; intros ??. apply same_ret. by apply ok_field.
  - simpl. apply same_operand; [done..|]; intros v Hv. eapply (same_bind (λ _, True)); [apply Htype|].
    intros b _. by apply same_ret.
  - do 2 (apply same_operand; [done..|]; intros ??). apply same_ret, ok_membership.
  - simpl. apply same_operand; [done..|]; intros c Hcv. eapply same_bind; [by apply same_operands|]. intros vs Hvs.
    apply same_invoke_value; [done..|]. by apply same_lift.
  - apply same_operand; [done..|]; intros v Hv. apply same_ret. destruct o; by repeat split.
Qed.
End Walk.

