(* ===== verification/FeelRuns.v ===== *)
(** * Evaluations of FEEL expressions

    Theorems on [FeelEval], from the comparison of two evaluations in [FeelSim].

    - An expression the determinism check lets through ([is_pure]) has one result, whatever the
      clock and the entropy source say ([pure_expression_replays]).
    - More fuel never changes an outcome, and an expression without functions of its own needs
      none ([first_order_needs_no_fuel], [more_fuel_same_outcome]); a function applied to itself
      exhausts any fuel ([self_application_never_ends]).
    - The kind of an operator's result is known from the expression, and a condition built from
      them is never refused for its kind ([result_kinds_sound]). *)
From Stdlib Require Import ZArith Lia Bool Ascii String.
From stdpp Require Import base option strings list.
From S2P Require Import Prelude Texts Decimal FeelValue Temporal FeelText TemporalParse FeelLexer FeelParser.
From S2P Require Import FeelSyntax FeelOps FeelBuiltins FeelEval FeelFacade FeelPlain FeelCarry FeelSim.

Open Scope string_scope.
Open Scope list_scope.
Open Scope Z_scope.

(** ** Two computations with the same result *)

(** Neither reads its surroundings, they end alike, and a value they end with satisfies [P]. *)
Definition same (A : Type) (P : A → Prop) (m1 m2 : M A) : Prop :=
  ∀ k1 k2, ∃ r, m1 k1 = (r, k1) ∧ m2 k2 = (r, k2) ∧ ∀ a, r = Ok a → P a.

#[export] Instance same_simulation : Simulation same.
Proof.
  split.
  - intros A P a Ha k1 k2. exists (Ok a). split; [done|]. split; [done|]. by intros a' [= <-].
  - intros A P r Hr k1 k2. by exists r.
  - intros A B P Q m1 m2 f1 f2 Hm Hf k1 k2. destruct (Hm k1 k2) as (r & E1 & E2 & Hr). unfold mbind, m_bind.
    rewrite E1, E2. destruct r as [a|e]; [by apply Hf, Hr|by exists (Err e)].
  - intros A P m1 m2 Hm k1 k2. destruct (Hm k1 k2) as (r & E1 & E2 & Hr). unfold attempt. rewrite E1, E2.
    destruct r as [a|[e| |]]; eexists; (split; [done|]); (split; [done|]); intros r' [= <-]; by intros ? [= <-]; auto.
Qed.

(** The first runs out of fuel, or they end alike. *)
Definition approximates (A : Type) (P : A → Prop) (m1 m2 : M A) : Prop :=
  ∀ k, (m1 k).1 = Err OutOfFuel ∨ (m1 k = m2 k ∧ ∀ a, (m1 k).1 = Ok a → P a).

#[export] Instance approximates_simulation : Simulation approximates.
Proof.
  split.
  - intros A P a Ha k. right. split; [done|]. by intros a' [= <-].
  - intros A P r Hr k. right. done.
  - intros A B P Q m1 m2 f1 f2 Hm Hf k. unfold mbind, m_bind. destruct (Hm k) as [E|[E Hp]].
    + left. destruct (m1 k) as [r k']. simpl in E. by subst.
    + rewrite <-E. destruct (m1 k) as [[a|e] k']; [by apply Hf, Hp|by right].
  - intros A P m1 m2 Hm k. unfold attempt. destruct (Hm k) as [E|[E Hp]].
    + left. destruct (m1 k) as [r k']. simpl in E. by subst.
    + right. rewrite <-E. destruct (m1 k) as [[a|[e| |]] k']; (split; [done|]); intros r' [= <-]; by intros ? [= <-]; auto.
Qed.

(** ** Replay *)

(** A value with no function in it, and a tree whose literals are such values, as the parser's
    are: numbers, texts, booleans, temporal values and [null]. *)
Definition plain : FeelValue → Prop := carries (λ _, False) (λ _, False).
Definition literal_node (e : FeelExpr) : Prop := match e with Literal _ _ v => plain v | _ => True end.
Definition plain_literals (e : FeelExpr) : Prop := everywhere literal_node e.

(** Function values that read no surroundings. *)
Definition quiet_body : FeelExpr → Prop := everywhere (λ e, pure_node e ∧ literal_node e).
Definition quiet_id (id : string) : Prop :=
  match strip_prefix BUILTIN_ID id with Some name => deterministic_name name | None => True end.
Definition quiet : FeelValue → Prop := ok quiet_body quiet_id.
Definition quiet_scope : FeelContext → Prop := ok_scope quiet_body quiet_id.

Lemma plain_carries fn inv v : plain v → carries fn inv v.
Proof.
  revert v. fix IH 1. intros v Hv. destruct v as [| | | | | | | |items|entries|[]|[s e]|]; try exact I; simpl in *;
    [..|by destruct Hv| |done].
  - induction items as [|w l IHl]; simpl in *; [done|]. destruct Hv as [Hw Hl]. split; [by apply IH|by apply IHl].
  - induction entries as [|[k w] l IHl]; simpl in *; [done|]. destruct Hv as [Hw Hl]. split; [by apply IH|by apply IHl].
  - destruct Hv as [Hs He]. split; by apply IH.
Qed.

Lemma everywhere_and p q e : everywhere p e → everywhere q e → everywhere (λ x, p x ∧ q x) e.
Proof.
  induction e as [e IH] using tree_induction. intros [Hp Hps] [Hq Hqs]. constructor; [done|]. rewrite Forall_forall in *. auto.
Qed.

Lemma quiet_nodes e : quiet_body e → everywhere (node_ok quiet_body quiet_id False) e.
Proof.
  apply everywhere_impl. intros x Hx. destruct x; try exact I.
  - apply plain_carries. by apply everywhere_here in Hx as [_ Hx].
  - right. by apply everywhere_here in Hx as [Hx _].
  - destruct Hx as [_ Hc]. simpl in Hc. by apply Forall_cons_1 in Hc as [Hc _].
Qed.

Lemma strip_own_prefix p s : strip_prefix p (p +:+ s) = Some s.
Proof. induction p as [|c p IH]; simpl; [done|]. by rewrite Ascii.eqb_refl, IH. Qed.

Lemma quiet_wrappers name f : builtin_as_function_value name = Some f → quiet f.
Proof.
  unfold builtin_as_function_value. destruct (existsb _ _) eqn:E; [done|]. intros (ps & _ & [= <-])%bind_Some.
  change (quiet_id (BUILTIN_ID +:+ canonical_builtin name)). unfold quiet_id. by rewrite strip_own_prefix.
Qed.

Lemma quiet_wrapped id name : quiet_id id → strip_prefix BUILTIN_ID id = Some name → callable False name.
Proof. unfold quiet_id. intros H E. right. by rewrite E in H. Qed.

Section Replay.
Context {u : UnicodeTables} {ops : BigDecimalOps} {txt : BigDecimalText} {d : DecimalCrate} {dbl : Doubles} {tc : TimeCrate}
  {tt : TimeText} {tp : TimeParse} {cal : Calendar} {rx : Regex} {ct : CaseTables} {natives : Natives}.

(** One call of a function value, with two evaluators of its body. *)
Lemma same_invoke_function rel `{!Simulation rel} fn inv positions (eval1 eval2 : FeelExpr → FeelContext → M FeelValue) f args names site :
  (∀ body ctx, fn body → ok_scope fn inv ctx → rel _ (ok fn inv) (eval1 body ctx) (eval2 body ctx)) →
  ok fn inv (Function f) → Forall (ok fn inv) args →
  rel _ (ok fn inv) (invoke_function positions eval1 f args names site) (invoke_function positions eval2 f args names site).
Proof.
  intros He Hf Ha. destruct f as [params body captured shapes ret [binding|]]; simpl; [by apply same_lift|].
  apply ok_function in Hf as [Hb Hc]. destruct (bind_params _ _ _ _) as [local|] eqn:E; [|by apply same_ret].
  apply (bind_params_ok fn inv) in E; [|by apply call_bindings_ok|done].
  eapply same_bind; [by apply He|]. intros v Hv. apply same_ret, ok_or_null. intros w. by apply ok_coerce.
Qed.

Section Quiet.
Context (Hnative : ∀ id args, Forall quiet args → quiet (native_call id args)).
Context (amb1 amb2 : Ambient) (positions : option FeelSourcePositions) (resolver : option TypeResolver).

Lemma quiet_calls fuel f args names site :
  quiet (Function f) → Forall quiet args →
  same _ quiet (invoke (ambient := amb1) positions resolver fuel f args names site)
    (invoke (ambient := amb2) positions resolver fuel f args names site).
Proof.
  revert f args names site. induction fuel as [|fuel IH]; intros f args names site Hf Ha; simpl; [by apply same_lift|].
  apply (same_invoke_function same); [|done|done]. intros body ctx Hb Hc.
  exact (walks_agree amb1 amb2 quiet_body quiet_id same _ _ positions resolver fuel fuel Hnative quiet_wrappers
    False (False_ind _) quiet_wrapped IH (λ _ _, same_lift _ _ _ (λ _ _, I)) body (quiet_nodes body Hb) ctx Hc).
Qed.

Lemma quiet_evaluations fuel e ctx :
  quiet_body e → quiet_scope ctx →
  same _ quiet (eval_expr (ambient := amb1) positions resolver fuel e ctx)
    (eval_expr (ambient := amb2) positions resolver fuel e ctx).
Proof.
  intros He Hc. exact (walks_agree amb1 amb2 quiet_body quiet_id same _ _ positions resolver fuel fuel Hnative quiet_wrappers
    False (False_ind _) quiet_wrapped (quiet_calls fuel) (λ _ _, same_lift _ _ _ (λ _ _, I)) e (quiet_nodes e He) ctx Hc).
Qed.
End Quiet.

(** C6: The determinism check is enough for replay.  An expression that [require_pure] lets
    through has one outcome, a value or an error, and consumes no reading of the clock or of the
    entropy source, whatever these give; provided that the literals are plain and that the
    functions of the context, and those native ones return, are themselves free of such reads. *)
Theorem pure_expression_replays e site ctx positions resolver fuel (amb1 amb2 : Ambient) k1 k2 :
  require_pure_expr e site = Ok () → plain_literals e → quiet_scope ctx →
  (∀ id args, Forall quiet args → quiet (native_call id args)) →
  ∃ r, eval_expr (ambient := amb1) positions resolver fuel e ctx k1 = (r, k1) ∧
       eval_expr (ambient := amb2) positions resolver fuel e ctx k2 = (r, k2).
Proof.
  intros Hp Hl Hc Hn. assert (He : denied_calls e = []).
  { unfold require_pure_expr, find_denied_calls in Hp. by destruct (denied_calls e). }
  destruct (quiet_evaluations Hn amb1 amb2 positions resolver fuel e ctx) with (k1 := k1) (k2 := k2) as (r & E1 & E2 & _); eauto.
  apply everywhere_and; [by apply denied_everywhere|done].
Qed.
End Replay.

(** ** Fuel *)

(** No function value, and no way to make one. *)
Definition first_order_node (e : FeelExpr) : Prop :=
  match e with FunctionDef _ _ _ _ _ _ => False | _ => pure_node e ∧ literal_node e end.
Definition first_order : FeelExpr → Prop := everywhere first_order_node.

Lemma first_order_nodes e : first_order e → everywhere (node_ok (λ _, False) quiet_id False) e.
Proof.
  apply everywhere_impl. intros x Hx%everywhere_here. destruct x; try exact I; try done.
  - apply plain_carries. by destruct Hx as [_ Hx].
  - right. by destruct Hx as [Hx _].
Qed.

Lemma all_m_ext {A} (f g : A → res bool) l : Forall (λ x, f x = g x) l → all_m f l = all_m g l.
Proof. induction 1 as [|x l Hx Hl IH]; simpl; [done|]. by rewrite Hx, IH. Qed.

Lemma shape_test_ext custom1 custom2 :
  (∀ name v, custom1 name v = custom2 name v) → ∀ shape v, shape_test custom1 shape v = shape_test custom2 shape v.
Proof.
  intros Hc. fix IH 1. intros shape v. destruct shape as [|name|elem|components|elem]; simpl; [done|by rewrite Hc|..];
    destruct v; try done.
  - apply all_m_ext, Forall_true. intros x. by rewrite IH.
  - apply all_m_ext. induction components as [|[k sh] l IHl]; constructor; [|exact IHl]. simpl.
    destruct (map_get k entries) as [x|]; [by rewrite IH|done].
  - destruct r. by rewrite !IH.
Qed.

Lemma unnamed_tests tf1 tf2 v shape : instance_of_shape tf1 v shape None = instance_of_shape tf2 v shape None.
Proof. apply shape_test_ext. intros name w. by destruct tf1, tf2. Qed.

(** *** More fuel *)

Definition within {A} (r1 r2 : res A) : Prop := r1 = Err OutOfFuel ∨ r1 = r2.

Lemma within_and (r1 r2 s1 s2 : res bool) :
  within r1 r2 → within s1 s2 → within (match r1 with Ok true => s1 | Ok false => Ok false | Err e => Err e end)
    (match r2 with Ok true => s2 | Ok false => Ok false | Err e => Err e end).
Proof. intros [->| ->] Hs; [by left|]. destruct r2 as [[]|]; [exact Hs|by right..]. Qed.

Lemma all_m_within {A} (f g : A → res bool) l : Forall (λ x, within (f x) (g x)) l → within (all_m f l) (all_m g l).
Proof.
  induction 1 as [|x l Hx Hl IH]; simpl; [by right|]. destruct Hx as [E|E]; rewrite E; [by left|].
  destruct (g x) as [[]|]; [exact IH|by right..].
Qed.

Lemma shape_test_within custom1 custom2 :
  (∀ name v, within (custom1 name v) (custom2 name v)) → ∀ shape v, within (shape_test custom1 shape v) (shape_test custom2 shape v).
Proof.
  intros Hc. fix IH 1. intros shape v.
  assert (Hn : ∀ sh x, within (shape_test custom1 sh x) (shape_test custom2 sh x) →
    within (if is_null x then Ok true else shape_test custom1 sh x) (if is_null x then Ok true else shape_test custom2 sh x)).
  { intros sh x Hx. destruct (is_null x); [by right|done]. }
  destruct shape as [|name|elem|components|elem]; simpl; [by right|by destruct (base_type v name); [right|apply Hc]|..];
    destruct v; try (by right).
  - apply all_m_within, Forall_true. intros x. apply Hn, IH.
  - apply all_m_within. induction components as [|[k sh] l IHl]; constructor; [|exact IHl]. simpl.
    destruct (map_get k entries) as [x|]; [apply Hn, IH|by right].
  - destruct r as [s e]. apply within_and; apply Hn, IH.
Qed.

Lemma named_test_within resolver tf1 tf2 name v : (tf1 ≤ tf2)%nat → within (named_test resolver tf1 name v) (named_test resolver tf2 name v).
Proof.
  revert tf2 name v. induction tf1 as [|tf1 IH]; intros tf2 name v Hle.
  - simpl. destruct (f ← resolver; f name) eqn:E; [by left|]. right. destruct tf2; simpl; by rewrite E.
  - destruct tf2 as [|tf2]; [lia|]. simpl. destruct (f ← resolver; f name); [|by right].
    apply shape_test_within. intros. apply IH. lia.
Qed.

Lemma lift_within {A} (r1 r2 : res A) : within r1 r2 → approximates _ (λ _, True) (lift r1) (lift r2).
Proof. intros [->| ->] k; [by left|by right]. Qed.

Lemma carries_any v : carries (λ _, True) (λ _, True) v.
Proof.
  revert v. fix IH 1. intros v.
  destruct v as [| | | | | | | |items|entries|[? ? captured]|[s e]|]; try exact I; simpl.
  - induction items as [|w l IHl]; simpl; [done|]. split; [apply IH|exact IHl].
  - induction entries as [|[k w] l IHl]; simpl; [done|]. split; [apply IH|exact IHl].
  - split; [done|]. induction captured as [|[k w] l IHl]; simpl; [done|]. split; [apply IH|exact IHl].
  - split; apply IH.
Qed.

Lemma everywhere_any e : everywhere (node_ok (λ _, True) (λ _, True) True) e.
Proof.
  induction e as [e IH] using tree_induction. constructor; [|done]. destruct e; try done; [apply carries_any|by left].
Qed.

Section Fuel.
Context {u : UnicodeTables} {ops : BigDecimalOps} {txt : BigDecimalText} {d : DecimalCrate} {dbl : Doubles} {tc : TimeCrate}
  {tt : TimeText} {tp : TimeParse} {cal : Calendar} {rx : Regex} {ct : CaseTables} {natives : Natives}.

Lemma wrapper_is_native name f : builtin_as_function_value name = Some f → ok (λ _, False) quiet_id f.
Proof.
  unfold builtin_as_function_value. destruct (existsb _ _) eqn:E; [done|]. intros (ps & _ & [= <-])%bind_Some.
  change (quiet_id (BUILTIN_ID +:+ canonical_builtin name)). unfold quiet_id. by rewrite strip_own_prefix.
Qed.

(** An expression that defines no function, in a context that holds none but native ones,
    needs no depth of calls: it has one outcome for every fuel, no fuel included, so that the
    evaluation is a walk of the tree and of the ranges it iterates. *)
Theorem first_order_needs_no_fuel e ctx positions (amb : Ambient) k :
  first_order e → ok_scope (λ _, False) quiet_id ctx →
  (∀ id args, Forall (ok (λ _, False) quiet_id) args → ok (λ _, False) quiet_id (native_call id args)) →
  ∃ r, ∀ fuel, eval_expr positions None fuel e ctx k = (r, k).
Proof.
  intros He Hc Hn. destruct (eval_expr positions None 0 e ctx k) as [r k'] eqn:E. exists r. intros fuel.
  destruct (walks_agree amb amb (λ _, False) quiet_id same (invoke positions None 0) (invoke positions None fuel) positions None 0
    fuel Hn wrapper_is_native False (False_ind _) quiet_wrapped) with (e := e) (ctx := ctx) (k1 := k) (k2 := k) as (r' & E1 & E2 & _);
    [by intros [] ??? [[]]|intros v shape; rewrite (unnamed_tests 0 fuel); by apply same_lift|by apply first_order_nodes|done|].
  unfold eval_expr in *. congruence.
Qed.

Lemma any_scope m : ok_scope (λ _, True) (λ _, True) m.
Proof. apply Forall_true. intros kv. apply carries_any. Qed.

Section More.
Context (amb : Ambient) (positions : option FeelSourcePositions) (resolver : option TypeResolver).
Local Abbreviation any := (λ _, True).

Lemma walk_within call1 call2 tf1 tf2 e ctx :
  (∀ f args names site, approximates _ (ok any any) (call1 f args names site) (call2 f args names site)) → (tf1 ≤ tf2)%nat →
  approximates _ (ok any any) (eval_internal positions resolver tf1 call1 e ctx) (eval_internal positions resolver tf2 call2 e ctx).
Proof.
  intros Hc Hle. apply (walks_agree amb amb any any approximates call1 call2 positions resolver tf1 tf2) with (reads := True).
  - intros. apply carries_any.
  - intros. apply carries_any.
  - intros _. split; [done|]. intros A f k. by right.
  - intros. by left.
  - auto.
  - intros v shape. apply lift_within, shape_test_within. intros. by apply named_test_within.
  - apply everywhere_any.
  - apply any_scope.
Qed.

Lemma invoke_within fuel fuel' f args names site :
  (fuel ≤ fuel')%nat →
  approximates _ (ok any any) (invoke positions resolver fuel f args names site) (invoke positions resolver fuel' f args names site).
Proof.
  revert fuel' f args names site. induction fuel as [|fuel IH]; intros fuel' f args names site Hle; [intros k; by left|].
  destruct fuel' as [|fuel']; [lia|]. simpl. apply (same_invoke_function approximates); [|apply carries_any|].
  - intros body ctx _ _. apply walk_within; [|lia]. intros. apply IH. lia.
  - apply Forall_true. intros. apply carries_any.
Qed.
End More.

(** The fuel of the evaluator only bounds the depth of function calls.  An evaluation that
    ends, with a value, an error or a panic, ends the same way and after the same readings with
    more fuel, for any expression, context, functions and surroundings. *)
Theorem more_fuel_same_outcome e ctx positions resolver (amb : Ambient) fuel fuel' k :
  (fuel ≤ fuel')%nat → (eval_expr positions resolver fuel e ctx k).1 ≠ Err OutOfFuel →
  eval_expr positions resolver fuel' e ctx k = eval_expr positions resolver fuel e ctx k.
Proof.
  intros Hle Hne. destruct (walk_within amb positions resolver (invoke positions resolver fuel) (invoke positions resolver fuel')
    fuel fuel' e ctx) with (k := k) as [E|[E _]]; [intros; by apply invoke_within|done|done|]. by symmetry.
Qed.
End Fuel.

(** ** Kinds of results *)

(** The names of the kinds an expression may give, read off its root; [None] where it may give
    any. *)
Fixpoint result_kinds (e : FeelExpr) : option (list string) :=
  match e with
  | Literal _ _ v => Some [type_name v]
  | Compare _ _ _ _ _ | BoolOp _ _ _ _ _ | Not _ _ _ | In_ _ _ _ _ | Quantifier _ _ _ _ _ _ => Some ["Boolean"; "null"]
  | InstanceOf _ _ _ _ => Some ["Boolean"]
  | Negate _ _ _ => Some ["BigDecimal"; "Duration"; "null"]
  | Arith _ _ _ op _ =>
      Some (match op with Plus => ["String"] | _ => [] end ++
            ["BigDecimal"; "Duration"; "LocalDate"; "Time"; "Instant"; "null"])
  | FunctionDef _ _ _ _ _ _ => Some ["function"]
  | ListLit _ _ _ | For _ _ _ _ => Some ["List"]
  | ContextLit _ _ _ => Some ["Map"; "null"]
  | RangeLit _ _ _ _ _ _ _ | OpenRange _ _ _ _ => Some ["range"]
  | IfThenElse _ _ _ then_ otherwise =>
      t ← result_kinds then_; o ← result_kinds otherwise; Some ("null" :: t ++ o)
  | Path _ _ _ | Call _ _ _ _ _ | Filter _ _ _ _ | FieldAccess _ _ _ _ | Invoke _ _ _ _ _ => None
  end.

Definition has_kind (e : FeelExpr) (v : FeelValue) : Prop := ∀ ks, result_kinds e = Some ks → type_name v ∈ ks.

(** Conditions: true, false or [null]. *)
Definition is_condition (e : FeelExpr) : bool :=
  match result_kinds e with Some ks => forallb (λ k, String.eqb k "Boolean" || String.eqb k "null") ks | None => false end.

Lemma run_bind {A B} (m : M A) (f : A → M B) k b k' :
  (m ≫= f) k = (Ok b, k') → ∃ a k1, m k = (Ok a, k1) ∧ f a k1 = (Ok b, k').
Proof. unfold mbind, m_bind. destruct (m k) as [[a|e] k1]; [eauto|done]. Qed.

Lemma run_ret {A} (a b : A) k k' : (mret a : M A) k = (Ok b, k') → a = b.
Proof. by intros [= ->]. Qed.

Lemma run_lift {A} (r : res A) b k k' : lift r k = (Ok b, k') → r = Ok b.
Proof. by intros [= ->]. Qed.

Lemma run_until {A B} (f : A → M (option B)) d l k b k' (P : B → Prop) :
  (∀ x k o k', f x k = (Ok o, k') → ∀ b, o = Some b → P b) → P d → until f d l k = (Ok b, k') → P b.
Proof.
  intros Hf Hd. revert k. induction l as [|x l IH]; intros k; simpl; [by intros <-%run_ret|].
  intros (o & k1 & E & H)%run_bind. destruct o as [c|]; [|by eapply IH]. apply run_ret in H as <-. by eapply Hf.
Qed.

Ltac kind := let ks := fresh "ks" in intros ks [= <-]; simpl; rewrite ?elem_of_cons; tauto.

Section Kinds.
Context {u : UnicodeTables} {ops : BigDecimalOps} {txt : BigDecimalText} {d : DecimalCrate} {dbl : Doubles} {tc : TimeCrate}
  {tt : TimeText} {tp : TimeParse} {cal : Calendar} {rx : Regex} {ct : CaseTables} {natives : Natives} {amb : Ambient}.
Context (positions : option FeelSourcePositions) (resolver : option TypeResolver) (type_fuel : nat).
Context (call : FeelFunction → list FeelValue → list (option string) → Z → M FeelValue).

Lemma of_tri_kind o : type_name (of_tri o) = "Boolean" ∨ type_name (of_tri o) = "null".
Proof. destruct o; simpl; tauto. Qed.

Lemma compare_kind op l r site v :
  compare_values positions op l r site = Ok v → type_name v = "Boolean" ∨ type_name v = "null".
Proof.
  unfold compare_values. intros H. destruct op; try (injection H as <-; apply of_tri_kind);
    (destruct (is_null l || is_null r); [injection H as <-; by right|]); apply result_bind_ok in H as (c & _ & [= <-]); by left.
Qed.

Lemma bool_op_kind op l m k v k' : bool_op op l m k = (Ok v, k') → type_name v = "Boolean" ∨ type_name v = "null".
Proof.
  unfold bool_op. intros H. destruct op, l as [[]|]; try (apply run_ret in H as <-; by left);
    apply run_bind in H as (r & k1 & _ & <-%run_ret); destruct (tri r) as [[]|]; simpl; tauto.
Qed.

Lemma negate_kind w v : negate w = Ok v → type_name v ∈ ["BigDecimal"; "Duration"; "null"].
Proof.
  unfold negate. intros H. rewrite !elem_of_cons. destruct w as [| | | | | | |[]| | | | |]; try (injection H as <-; simpl; tauto).
  apply result_bind_ok in H as (x & _ & [= <-]). simpl. tauto.
Qed.

Definition arith_kinds : list string := ["BigDecimal"; "Duration"; "LocalDate"; "Time"; "Instant"; "null"].

Ltac listed := unfold arith_kinds; simpl; rewrite !elem_of_cons; tauto.

Lemma pow_kind a b v : pow_decimal a b = Ok v → type_name v ∈ arith_kinds.
Proof.
  unfold pow_decimal, from_f64, arith_kinds. intros H. rewrite !elem_of_cons.
  repeat match type of H with
  | (_ ≫= _) = Ok _ => apply result_bind_ok in H as (? & _ & H)
  | context [match ?x with _ => _ end] => destruct x
  end; try discriminate H; injection H as <-; simpl; tauto.
Qed.

Lemma temporal_kind l op r v : temporal_arith l op r = Ok (Some v) → type_name v ∈ arith_kinds.
Proof.
  unfold temporal_arith, add_durations, scale_duration, div_duration, div_duration_by_duration, duration_of_seconds, arith_kinds.
  intros H. rewrite !elem_of_cons. destruct l, op, r;
  repeat match type of H with
  | (_ ≫= _) = Ok _ => apply result_bind_ok in H as (? & _ & H)
  | context [match ?x with _ => _ end] => destruct x
  end; try discriminate H; simplify_option_eq; simpl; tauto.
Qed.

Lemma arith_kind op l r v :
  arith_values op l r = Ok v → (op = Plus ∧ type_name v = "String") ∨ type_name v ∈ arith_kinds.
Proof.
  unfold arith_values. set (numeric := if is_temporal l || is_temporal r then _ else _).
  assert (Hn : numeric = Ok v → type_name v ∈ arith_kinds); subst numeric.
  { destruct (is_temporal l || is_temporal r); [|destruct (is_null l || is_null r || (is_string l || is_string r)) eqn:E].
    - intros (o & Ho & H)%result_bind_ok. destruct o as [w|]; [|discriminate]. injection H as <-. by eapply temporal_kind.
    - destruct (is_null l || is_null r); simpl in E; rewrite ?E; intros [= <-]; listed.
    - apply orb_false_iff in E as [-> ->]. intros (a & _ & (b & _ & H)%result_bind_ok)%result_bind_ok.
      destruct op; try (injection H as <-; try destruct (is_zero b); listed). by eapply pow_kind. }
  destruct op; auto. destruct l; auto. destruct r; auto. intros [= <-]. by left.
Qed.

Lemma walk_kind e : ∀ ctx k v k', eval_internal positions resolver type_fuel call e ctx k = (Ok v, k') → has_kind e v.
Proof.
  assert (Hbool : ∀ v, type_name v = "Boolean" ∨ type_name v = "null" → type_name v ∈ ["Boolean"; "null"]).
  { intros v. rewrite !elem_of_cons. tauto. }
  induction e using expr_induction; intros ctx k out k' H'; try (intros ks; discriminate); intros ks Hk; simpl in H'.
  - injection Hk as <-. apply run_ret in H' as <-. by apply elem_of_cons; left.
  - injection Hk as <-. apply run_bind in H' as (l & k1 & _ & (r & k2 & _ & Hr%run_lift)%run_bind). by eapply Hbool, compare_kind.
  - injection Hk as <-. apply run_bind in H' as (l & k1 & _ & Hr). by eapply Hbool, bool_op_kind.
  - injection Hk as <-. apply run_bind in H' as (l & k1 & _ & <-%run_ret). apply Hbool, of_tri_kind.
  - injection Hk as <-. apply run_bind in H' as (l & k1 & _ & Hr%run_lift). by eapply negate_kind.
  - injection Hk as <-. apply run_bind in H' as (l & k1 & _ & (r & k2 & _ & Hr%run_lift)%run_bind).
    apply arith_kind in Hr as [[-> Hs]|Hs]; [by apply elem_of_cons; left|]. by apply elem_of_app; right.
  - injection Hk as <-. apply run_bind in H' as (b & k1 & _ & <-%run_ret). by apply elem_of_cons; left.
  - apply bind_Some in Hk as (kt & Ht & (ko & Ho & [= <-])%bind_Some). rewrite elem_of_cons, elem_of_app.
    apply run_bind in H' as (c & k1 & _ & H'). destruct c as [|[]| | | | | | | | | | |]; try (apply run_ret in H' as <-; by left).
    + right; right. by eapply IHe3.
    + right; left. by eapply IHe2.
    + right; right. by eapply IHe3.
  - injection Hk as <-. apply run_bind in H' as (l' & k1 & _ & <-%run_ret). by apply elem_of_cons; left.
  - injection Hk as <-. revert H'. generalize ctx at 1. generalize (@nil (string * FeelValue)). revert k.
    induction l as [|[key x] l IHl]; intros k m local; [intros <-%run_ret; by apply elem_of_cons; left|].
    destruct (is_some _); [intros <-%run_ret; apply elem_of_cons; right; by apply elem_of_cons; left|].
    intros (w & k1 & _ & Hrest)%run_bind. inversion H; subst. by eapply IHl.
  - injection Hk as <-. apply run_bind in H' as (l & k1 & _ & (r & k2 & _ & <-%run_ret)%run_bind). by apply elem_of_cons; left.
  - injection Hk as <-. apply run_bind in H' as (l & k1 & _ & (items & k2 & _ & H')%run_bind). apply Hbool. revert H'.
    apply (run_until _ _ _ _ _ _ (λ v, type_name v = "Boolean" ∨ type_name v = "null")); [|by left].
    intros ???? (r & k4 & _ & <-%run_ret)%run_bind b Hb. destruct r; simplify_eq; try (by right).
    destruct (Bool.eqb _ _); simplify_eq. by left.
  - injection Hk as <-. apply run_bind in H' as (l & k1 & _ & <-%run_ret). by apply elem_of_cons; left.
  - injection Hk as <-. apply run_bind in H' as (l & k1 & _ & (b & k2 & _ & <-%run_ret)%run_bind). by apply elem_of_cons; left.
  - injection Hk as <-. apply run_bind in H' as (l & k1 & _ & (r & k2 & _ & <-%run_ret)%run_bind). apply Hbool.
    destruct r; try (by left). apply of_tri_kind.
  - injection Hk as <-. apply run_bind in H' as (l & k1 & _ & <-%run_ret). by apply elem_of_cons; left.
Qed.
End Kinds.

(** ** Conditions and self-application *)

Section Conditions.
Context {u : UnicodeTables} {ops : BigDecimalOps} {txt : BigDecimalText} {d : DecimalCrate} {dbl : Doubles} {tc : TimeCrate}
  {tt : TimeText} {tp : TimeParse} {cal : Calendar} {rx : Regex} {ct : CaseTables} {natives : Natives} {amb : Ambient}.

(** C22: The kinds of results are those the expression shows.  Whatever the context, the functions
    and the surroundings, a value an evaluation gives is of one of the kinds listed for its root
    operator; and [eval_boolean] on an expression whose kinds are those of a condition never
    refuses a result for its kind: it gives what the evaluation gave, [null] as false. *)
Theorem result_kinds_sound positions resolver fuel e ctx k :
  (∀ v k', eval_expr positions resolver fuel e ctx k = (Ok v, k') → has_kind e v) ∧
  (is_condition e = true →
   (eval_boolean fuel e ctx k).1 =
     match (eval fuel e ctx k).1 with Ok v => Ok (match v with Boolean b => b | _ => false end) | Err f => Err f end).
Proof.
  split; [intros v k'; apply walk_kind|]. unfold is_condition, eval_boolean. intros Hc. unfold mbind, m_bind.
  destruct (eval fuel e ctx k) as [[v|f] k'] eqn:E; [|done]. simpl. apply walk_kind in E.
  destruct (result_kinds e) as [ks|] eqn:Ek; [|done]. specialize (E ks Ek). rewrite forallb_forall in Hc.
  apply list_elem_of_In, Hc in E. destruct v; try done.
Qed.

(** [(function(f) f(f))(function(f) f(f))]. *)
Definition self_call (at_ : Z) : FeelExpr := Call at_ (at_ + 4) "f" [Path (at_ + 2) (at_ + 3) ["f"]] [None].
Definition self_function (at_ : Z) : FeelExpr := FunctionDef at_ (at_ + 16) ["f"] [ShapeAny] false (self_call (at_ + 12)).
Definition self_application : FeelExpr := Invoke 1 36 (self_function 1) [self_function 19] [None].

Definition self_value (at_ : Z) : FeelFunction := mk_function ["f"] (self_call (at_ + 12)) [] [ShapeAny] ShapeAny None.

Lemma self_call_exhausts positions resolver fuel a b site k :
  invoke positions resolver fuel (self_value a) [Function (self_value b)] [None] site k = (Err OutOfFuel, k).
Proof.
  revert a b site k. induction fuel as [|fuel IH]; intros a b site k; [done|].
  change (invoke positions resolver (S fuel) (self_value a) [Function (self_value b)] [None] site)
    with (result ← invoke positions resolver fuel (self_value b) [Function (self_value b)] [None] (a + 12);
          mret (M := M) (or_null (coerce_to_shape result ShapeAny))).
  unfold mbind, m_bind. by rewrite IH.
Qed.

(** A function applied to itself never ends: no fuel is enough.  The code has no bound on the
    depth of calls either, and exhausts its stack. *)
Lemma self_application_never_ends positions resolver fuel k :
  eval_expr positions resolver fuel self_application [] k = (Err OutOfFuel, k).
Proof. exact (self_call_exhausts positions resolver fuel 1 19 1 k). Qed.
End Conditions.

(** ** Instances *)

#[local] Existing Instances ascii_tables plain_time_parse plain_time_text plain_decimal_crate plain_calendar plain_doubles
  plain_regex plain_case plain_natives.

Lemma natives_list fn inv id args : Forall (ok fn inv) args → ok fn inv (native_call id args).
Proof. intros H. by apply ok_list. Qed.

Lemma self_application_parses : parse "(function(f) f(f))(function(f) f(f))" = Ok self_application.
Proof. vm_compute. reflexivity. Qed.

(** [(function(n) n > limit)(7)], and its context. *)
Definition sample_call : FeelExpr :=
  Invoke 1 26 (FunctionDef 1 22 ["n"] [ShapeAny] false (Compare 13 22 (Path 13 14 ["n"]) Gt_ (Path 17 22 ["limit"])))
    [Literal 24 25 (num 7)] [None].
Definition sample_scope : FeelContext := [("limit", num 5)].

Lemma sample_parses : parse "(function(n) n > limit)(7)" = Ok sample_call.
Proof. vm_compute. reflexivity. Qed.

Lemma pure_expression_replays_witness :
  require_pure_expr sample_call "alias" = Ok () ∧
  ∃ r, eval_expr (ambient := still_ambient) None None 2 sample_call sample_scope 0%nat = (r, 0%nat) ∧
       eval_expr (ambient := ticking_ambient) None None 2 sample_call sample_scope 5%nat = (r, 5%nat).
Proof.
  split; [reflexivity|].
  apply (pure_expression_replays sample_call "alias" sample_scope None None 2 still_ambient ticking_ambient 0 5).
  - reflexivity.
  - repeat constructor.
  - repeat constructor.
  - intros id args. apply natives_list.
Defined.

(** [if limit > 3 then [limit] else null]. *)
Definition sample_choice : FeelExpr :=
  IfThenElse 0 36 (Compare 3 12 (Path 3 8 ["limit"]) Gt_ (Literal 11 12 (num 3))) (ListLit 18 25 [Path 19 24 ["limit"]])
    (Literal 31 35 Null).

Lemma first_order_needs_no_fuel_witness :
  ∃ r, ∀ fuel, eval_expr (ambient := still_ambient) None None fuel sample_choice sample_scope 0%nat = (r, 0%nat).
Proof.
  apply (first_order_needs_no_fuel sample_choice sample_scope None still_ambient 0).
  - repeat constructor.
  - repeat constructor.
  - intros id args. apply natives_list.
Defined.

Lemma more_fuel_same_outcome_witness :
  eval_expr (ambient := still_ambient) None None 9 sample_call sample_scope 0%nat = (Ok (Boolean true), 0%nat).
Proof.
  rewrite (more_fuel_same_outcome sample_call sample_scope None None still_ambient 1 9 0); [reflexivity|lia|discriminate].
Defined.

Lemma result_kinds_sound_witness :
  has_kind sample_choice (List [num 5]) ∧
  (eval_boolean (ambient := still_ambient) 1 (Not 0 0 (Literal 0 0 Null)) [] 0%nat).1 = Ok false.
Proof.
  split.
  - apply (proj1 (result_kinds_sound (amb := still_ambient) None None 1 sample_choice sample_scope 0) (List [num 5]) 0%nat).
    reflexivity.
  - rewrite (proj2 (result_kinds_sound (amb := still_ambient) None None 1 (Not 0 0 (Literal 0 0 Null)) [] 0)); reflexivity.
Defined.
