(* ===== verification/SrlSyntax.v ===== *)
(** * The rule language: lexer and parser ([sutra-srl/src/lexer.rs], [parser.rs], [ast.rs],
    [error.rs])

    A ruleset is a list of rules whose conditions and action arguments are FEEL expressions,
    cut out of the source by the tokens around them and compiled by the FEEL parser.  As in
    [FeelLexer] the source is the list of its code points, and a function takes what is left of
    it; the lexer also gives the source with its comments blanked, which is what the expressions
    are cut from.  The parser takes the tokens from the cursor on.

    The theorem: parsing ends on every text, and in a ruleset every expression lies where its
    span says ([ruleset_spans]), so that the position of a FEEL error, composed with the origin
    of its expression, is a position of the source. *)
From Stdlib Require Import ZArith Lia Bool Ascii String.
From stdpp Require Import base option strings list.
From S2P Require Import Prelude Texts Decimal FeelValue Temporal FeelText TemporalParse FeelLexer FeelParser FeelSyntax.
From S2P Require Import FeelOps FeelBuiltins.

Open Scope string_scope.
Open Scope list_scope.
Open Scope Z_scope.

(** ** Errors *)

Definition SRL_SYNTAX_ERROR : string := "SUTRA.SRL.PARSE.SYNTAX_ERROR".
Definition SRL_UNCLOSED_STRING : string := "SUTRA.SRL.PARSE.UNCLOSED_STRING".
Definition SRL_UNTERMINATED_PAREN : string := "SUTRA.SRL.PARSE.UNTERMINATED_PAREN".
Definition SRL_UNKNOWN_VERB : string := "SUTRA.SRL.PARSE.UNKNOWN_VERB".
Definition SRL_RESERVED_VERB : string := "SUTRA.SRL.PARSE.RESERVED_VERB".
Definition SRL_BAD_ARITY : string := "SUTRA.SRL.PARSE.BAD_ARITY".
Definition SRL_FEEL_PARSE_ERROR : string := "SUTRA.SRL.PARSE.FEEL_ERROR".
Definition SRL_INVALID_UTF8 : string := "SUTRA.SRL.PARSE.INVALID_UTF8".
Definition SRL_FEEL_EVAL_ERROR : string := "SUTRA.SRL.EVAL.FEEL_ERROR".

Record SrlError : Type := mk_srl_error {
  se_code : string; se_message : string; se_line : Z; se_column : Z; se_construct : option string }.

Definition sres : Type → Type := result (fault SrlError).

(** [SrlError::at]. *)
Definition srl_at (code message : string) (offset : Z) (positions : FeelSourcePositions) : SrlError :=
  let loc := location_for positions offset in mk_srl_error code message (loc_line loc) (loc_column loc) None.

Definition with_construct (e : SrlError) (construct : string) : SrlError :=
  mk_srl_error (se_code e) (se_message e) (se_line e) (se_column e) (Some construct).

(** ** Rulesets *)

Inductive Action : Type :=
| Report (code path message : FeelExpr) (arg_spans : (Z * Z) * (Z * Z) * (Z * Z))
| SetTo (target : string) (expr : FeelExpr) (expr_span : Z * Z).

Record Rule : Type := mk_rule {
  r_name : string; r_salience : Z; r_activation_group : option string; r_condition : FeelExpr;
  r_condition_span : Z * Z; r_actions : list Action; r_decl_index : nat }.

Record Ruleset : Type := mk_ruleset { rules : list Rule }.

(** ** Tokens *)

Inductive SrlKind : Type :=
| KRule | KWhen | KThen | KEnd | KSalience | KActivationGroup | KReport | KSet | KInsert | KRetract | KIdent | KStr | KInt
| KLParen | KRParen | KLBracket | KRBracket | KComma | KSemicolon | KOther | KEof.

Scheme Boolean Equality for SrlKind.

Record SrlToken : Type := mk_srl_token {
  st_kind : SrlKind; st_text : string; st_str_value : string; st_quote : Z; st_start : Z; st_end : Z }.

Definition of_kind (k : SrlKind) (t : SrlToken) : bool := SrlKind_beq (st_kind t) k.

Lemma of_kind_true k t : of_kind k t = true ↔ st_kind t = k.
Proof. unfold of_kind. split; [|intros ->; by destruct k]. destruct (st_kind t), k; done. Qed.

(** White space and comments: what they become in the masked source, and the rest.  A comment
    runs to the end of its line. *)
Fixpoint skip_trivia (comment : bool) (l : list Z) : list Z * list Z :=
  match l with
  | [] => ([], [])
  | c :: r =>
      if comment && negb (c =? 10) then let '(m, rest) := skip_trivia true r in (32 :: m, rest)
      else if is_white c then let '(m, rest) := skip_trivia false r in (c :: m, rest)
      else if (c =? ch "/") && match r with n :: _ => n =? ch "/" | [] => false end then
        let '(m, rest) := skip_trivia true r in (32 :: m, rest)
      else ([], l)
  end.

Definition unescape_char (c : Z) : Z :=
  if c =? ch "n" then 10 else if c =? ch "t" then 9 else if c =? ch "r" then 13 else c.

(** After the opening quote: the value up to the closing quote, and the rest. *)
Fixpoint quoted (quote : Z) (l : list Z) : option (list Z * list Z) :=
  match l with
  | [] => None
  | c :: r =>
      if c =? quote then Some ([], r)
      else if c =? 92 then
        match r with
        | [] => None
        | n :: r' => '(v, rest) ← quoted quote r'; Some (unescape_char n :: v, rest)
        end
      else '(v, rest) ← quoted quote r; Some (c :: v, rest)
  end.

Fixpoint starts_chars (needle l : list Z) : bool :=
  match needle, l with
  | [], _ => true
  | n :: needle, c :: l => (c =? n) && starts_chars needle l
  | _, [] => false
  end.

Definition keyword_kind (word : string) : SrlKind :=
  match map_get word [("rule", KRule); ("when", KWhen); ("then", KThen); ("end", KEnd); ("salience", KSalience);
                      ("report", KReport); ("set", KSet); ("insert", KInsert); ("retract", KRetract)] with
  | Some k => k
  | None => KIdent
  end.

Definition punct_kind (c : Z) : SrlKind :=
  if c =? ch "(" then KLParen else if c =? ch ")" then KRParen else if c =? ch "[" then KLBracket
  else if c =? ch "]" then KRBracket else if c =? ch "," then KComma else if c =? ch ";" then KSemicolon else KOther.

Section Lexer.
Context `{UnicodeTables}.
Context (positions : FeelSourcePositions).

Local Abbreviation at_ := (pos_of positions).

(** The token of the characters between [l] and [rest]. *)
Definition srl_token (kind : SrlKind) (value : list Z) (quote : Z) (l rest : list Z) : SrlToken :=
  mk_srl_token kind (encode (take (length l - length rest) l)) (encode value) quote (at_ l) (at_ rest).

Definition srl_string (quote : Z) (l : list Z) : sres (SrlToken * list Z) :=
  match quoted quote (drop 1 l) with
  | Some (value, rest) => Ok (srl_token KStr value quote l rest, rest)
  | None => Err (Rejected (srl_at SRL_UNCLOSED_STRING "unclosed string literal" (at_ l) positions))
  end.

Definition srl_word (l : list Z) : SrlToken * list Z :=
  let '(word, rest) := span (λ c, is_alphanumeric c || (c =? ch "_")) l in
  let group := chars "-group" in
  if String.eqb (encode word) "activation" && starts_chars group rest
  then let rest := drop (length group) rest in (srl_token KActivationGroup [] 0 l rest, rest)
  else (srl_token (keyword_kind (encode word)) [] 0 l rest, rest).

Definition srl_next (c : Z) (l : list Z) : sres (SrlToken * list Z) :=
  if (c =? 34) || (c =? 39) then srl_string c l
  else if is_digit c then let rest := (span is_digit l).2 in Ok (srl_token KInt [] 0 l rest, rest)
  else if is_alphabetic c || (c =? ch "_") then Ok (srl_word l)
  else Ok (srl_token (punct_kind c) [] 0 l (drop 1 l), drop 1 l).

Definition srl_eof : SrlToken := mk_srl_token KEof "" "" 0 (len (source positions)) (len (source positions)).

(** The tokens, and the masked source. *)
Fixpoint srl_tokens (fuel : nat) (l : list Z) : sres (list SrlToken * list Z) :=
  match fuel with
  | O => Err OutOfFuel
  | S fuel =>
      let '(m, l) := skip_trivia false l in
      match l with
      | [] => Ok ([srl_eof], m)
      | c :: _ =>
          '(t, rest) ← srl_next c l;
          '(ts, masked) ← srl_tokens fuel rest;
          Ok (t :: ts, m ++ take (length l - length rest) l ++ masked)
      end
  end.

Definition srl_tokenize : sres (list SrlToken * list Z) := srl_tokens (S (length (source positions))) (source positions).
End Lexer.

(** ** The parser *)

Definition SP (A : Type) : Type := list SrlToken → sres (A * list SrlToken).

#[export] Instance sp_ret : MRet SP := λ A a ts, Ok (a, ts).
#[export] Instance sp_bind : MBind SP := λ A B f p ts, match p ts with Ok (a, ts') => f a ts' | Err e => Err e end.

Definition sp_lift {A} (r : sres A) : SP A := λ ts, a ← r; Ok (a, ts).
Definition sp_fail {A} (e : SrlError) : SP A := λ _, Err (Rejected e).

Definition sp_peek : SP SrlToken := λ ts, match ts with t :: _ => Ok (t, ts) | [] => Err Panicked end.

(** The last token is never passed. *)
Definition sp_advance : SP SrlToken := λ ts,
  match ts with [] => Err Panicked | [t] => Ok (t, ts) | t :: r => Ok (t, r) end.

Section Parser.
Context `{UnicodeTables, BigDecimalText, TimeCrate, TimeParse}.
Context (positions : FeelSourcePositions) (masked : list Z) (all_tokens : list SrlToken).

Definition srl_unexpected (t : SrlToken) (what : string) : SrlError :=
  let seen := if of_kind KEof t then "end of input" else "'" +:+ st_text t +:+ "'" in
  with_construct (srl_at SRL_SYNTAX_ERROR ("expected " +:+ what +:+ " but found " +:+ seen) (st_start t) positions) (st_text t).

Definition srl_expect (kind : SrlKind) (what : string) : SP SrlToken :=
  t ← sp_peek; if of_kind kind t then sp_advance else sp_fail (srl_unexpected t what).

Definition expect_string (what : string) : SP string :=
  t ← sp_peek;
  if of_kind KStr t then
    if st_quote t =? 34 then _ ← sp_advance; mret (st_str_value t)
    else sp_fail (with_construct (srl_at SRL_SYNTAX_ERROR ("expected " +:+ what +:+ " as a double-quoted string")
                                    (st_start t) positions) (st_text t))
  else sp_fail (srl_unexpected t what).

Definition parse_signed_int : SP Z :=
  t ← sp_peek;
  let sign := if of_kind KOther t then st_text t else "" in
  _ ← (if String.eqb sign "-" || String.eqb sign "+" then _ ← sp_advance; mret tt else mret tt);
  tok ← srl_expect KInt "an integer";
  match parse_unsigned i64_max (st_text tok) with
  | Some magnitude => mret (if String.eqb sign "-" then - magnitude else magnitude)
  | None => sp_fail (srl_at SRL_SYNTAX_ERROR ("salience value '" +:+ st_text tok +:+
                       "' is out of range for a 64-bit integer") (st_start tok) positions)
  end.

(** [&self.src[start..end]] panics out of range. *)
Definition feel_parse (span_ : Z * Z) : SP FeelExpr :=
  let '(s, e) := span_ in
  if (0 <=? s) && (s <=? e) && (e <=? len masked) then
    let text := encode (sub_list s e masked) in
    sp_lift (map_fault (λ err,
      with_construct (srl_at SRL_FEEL_PARSE_ERROR ("invalid FEEL expression: [" +:+ fe_code err +:+ "] " +:+ fe_message err)
                        (s + match fe_offset err with Some o => o | None => 0 end) positions)
        (encode (trim_chars (chars text)))) (parse text))
  else sp_lift (Err Panicked).

(** [depth], on [i32], after a token. *)
Definition depth_after (depth : Z) (t : SrlToken) : Z :=
  match st_kind t with
  | KLParen | KLBracket => as_i32 (depth + 1)
  | KRParen | KRBracket => as_i32 (depth - 1)
  | _ => depth
  end.

(** Where the section's [then] starts, and the tokens from it on. *)
Fixpoint section_then (depth : Z) (ts : list SrlToken) : sres (Z * list SrlToken) :=
  match ts with
  | [] => Err Panicked
  | t :: r =>
      if of_kind KThen t && (depth =? 0) then Ok (st_start t, ts)
      else if of_kind KEof t then
        Err (Rejected (srl_at SRL_SYNTAX_ERROR "missing 'then' — a rule's `when` condition must be closed by a top-level `then` (parenthesise any FEEL `if/then/else` in the condition)"
          (st_start t) positions))
      else section_then (depth_after depth t) r
  end.

(** The cursor moves there; the condition between is read next. *)
Definition find_section_then : SP Z := section_then 0.

(** The top-level commas, where the list closes, and the tokens after it. *)
Fixpoint paren_commas (body_start depth : Z) (commas : list (Z * Z)) (ts : list SrlToken)
    : sres (list (Z * Z) * Z * list SrlToken) :=
  match ts with
  | [] => Err Panicked
  | t :: r =>
      if of_kind KEof t then
        Err (Rejected (srl_at SRL_UNTERMINATED_PAREN "unterminated '(' in action argument list" body_start positions))
      else
        let depth' := depth_after depth t in
        if (of_kind KRParen t || of_kind KRBracket t) && (depth' =? 0) then Ok (commas, st_start t, r)
        else if of_kind KComma t && (depth =? 1) then paren_commas body_start depth (commas ++ [(st_start t, st_end t)]) r
        else paren_commas body_start depth' commas r
  end.

Fixpoint cut_ranges (seg_start : Z) (commas : list (Z * Z)) (close_start : Z) : list (Z * Z) :=
  match commas with
  | [] => [(seg_start, close_start)]
  | (cs, ce) :: r => (seg_start, cs) :: cut_ranges ce r close_start
  end.

Definition split_paren_args (body_start : Z) : SP (list (Z * Z)) := λ ts,
  '(commas, close_start, rest) ← paren_commas body_start 1 [] ts;
  Ok (cut_ranges body_start commas close_start, rest).

Definition ident_in_range (range : Z * Z) : SP string :=
  match List.filter (λ t, (range.1 <=? st_start t) && (st_end t <=? range.2) && negb (of_kind KEof t)) all_tokens with
  | [t] => if of_kind KIdent t then mret (st_text t) else sp_fail
      (srl_at SRL_SYNTAX_ERROR "the first argument of set(...) must be a bare identifier (the assignment target)" range.1 positions)
  | _ => sp_fail
      (srl_at SRL_SYNTAX_ERROR "the first argument of set(...) must be a bare identifier (the assignment target)" range.1 positions)
  end.

Definition bad_arity {A} (verb what : string) (got : nat) (at_ : Z) : SP A :=
  sp_fail (with_construct (srl_at SRL_BAD_ARITY (verb +:+ "(...) requires exactly " +:+ what +:+ ", got " +:+
    dec_string (Z.of_nat got)) at_ positions) verb).

Definition parse_report : SP Action :=
  verb ← srl_expect KReport "report";
  open ← srl_expect KLParen "(";
  ranges ← split_paren_args (st_end open);
  match ranges with
  | [a; b; c] =>
      code ← feel_parse a;
      path ← feel_parse b;
      message ← feel_parse c;
      _ ← srl_expect KSemicolon ";";
      mret (Report code path message (a, b, c))
  | _ => bad_arity "report" "3 arguments (code, path, message)" (length ranges) (st_start verb)
  end.

Definition parse_set : SP Action :=
  verb ← srl_expect KSet "set";
  open ← srl_expect KLParen "(";
  ranges ← split_paren_args (st_end open);
  match ranges with
  | [a; b] =>
      target ← ident_in_range a;
      expr ← feel_parse b;
      _ ← srl_expect KSemicolon ";";
      mret (SetTo target expr b)
  | _ => bad_arity "set" "2 arguments (target, expr)" (length ranges) (st_start verb)
  end.

(** The loops read a token in every round: the tokens left are fuel enough. *)
Fixpoint parse_actions (fuel : nat) (actions : list Action) : SP (list Action) :=
  match fuel with
  | O => sp_lift (Err OutOfFuel)
  | S fuel =>
      t ← sp_peek;
      match st_kind t with
      | KEnd => _ ← sp_advance; mret actions
      | KEof => sp_fail (srl_at SRL_SYNTAX_ERROR "missing 'end' — a rule's `then` block must be closed by `end`" (st_start t)
                  positions)
      | KReport => a ← parse_report; parse_actions fuel (actions ++ [a])
      | KSet => a ← parse_set; parse_actions fuel (actions ++ [a])
      | KInsert | KRetract =>
          sp_fail (with_construct (srl_at SRL_RESERVED_VERB "insert/retract are reserved for a stateful rules engine and are not available in .srl"
            (st_start t) positions) (st_text t))
      | _ =>
          sp_fail (with_construct (srl_at SRL_UNKNOWN_VERB ("unknown action verb '" +:+ st_text t +:+
            "' — only `report` and `set` are available in .srl") (st_start t) positions) (st_text t))
      end
  end.

Fixpoint parse_attributes (fuel : nat) (salience : Z) (group : option string) : SP (Z * option string) :=
  match fuel with
  | O => sp_lift (Err OutOfFuel)
  | S fuel =>
      t ← sp_peek;
      match st_kind t with
      | KSalience => _ ← sp_advance; n ← parse_signed_int; parse_attributes fuel n group
      | KActivationGroup =>
          _ ← sp_advance; g ← expect_string "an activation-group name"; parse_attributes fuel salience (Some g)
      | _ => mret (salience, group)
      end
  end.

Definition sp_loop {A} (f : nat → SP A) : SP A := λ ts, f (S (length ts)) ts.

Definition parse_rule (decl_index : nat) : SP Rule :=
  _ ← srl_expect KRule "rule";
  name ← expect_string "a rule name";
  '(salience, group) ← sp_loop (λ n, parse_attributes n 0 None);
  when_tok ← srl_expect KWhen "when";
  cond_end ← find_section_then;
  condition ← feel_parse (st_end when_tok, cond_end);
  _ ← srl_expect KThen "then";
  actions ← sp_loop (λ n, parse_actions n []);
  mret (mk_rule name salience group condition (st_end when_tok, cond_end) actions decl_index).

Fixpoint parse_ruleset_loop (fuel : nat) (acc : list Rule) : SP Ruleset :=
  match fuel with
  | O => sp_lift (Err OutOfFuel)
  | S fuel =>
      t ← sp_peek;
      if of_kind KEof t then mret (mk_ruleset acc)
      else r ← parse_rule (length acc); parse_ruleset_loop fuel (acc ++ [r])
  end.
End Parser.

Definition SRL_URI : string := "srl:inline".

(** [parse]: the tokens of the source, and the ruleset they spell. *)
Definition srl_parse `{UnicodeTables, BigDecimalText, TimeCrate, TimeParse} (src : string) : sres Ruleset :=
  let positions := positions_new src SRL_URI in
  '(tokens, masked) ← srl_tokenize positions;
  '(ruleset, _) ← sp_loop (λ n, parse_ruleset_loop positions masked tokens n []) tokens;
  Ok ruleset.

(** ** Tokens in order *)

(** Every token lies after [lo] and before the next one; the last one, and only it, is the end
    of the source, at [hi]. *)
Fixpoint stream (hi lo : Z) (ts : list SrlToken) : Prop :=
  match ts with
  | [] => False
  | t :: r =>
      lo <= st_start t ∧ st_start t <= st_end t ∧ st_end t <= hi ∧
      match r with [] => st_kind t = KEof | _ => st_kind t ≠ KEof ∧ stream hi (st_end t) r end
  end.

Lemma stream_mono hi lo lo' ts : stream hi lo ts → lo' <= lo → stream hi lo' ts.
Proof. destruct ts; simpl; [done|]. intros (? & ? & ? & ?) ?. repeat split; try done; lia. Qed.

Lemma stream_cons hi lo t r : stream hi lo (t :: r) → st_kind t ≠ KEof → stream hi (st_end t) r.
Proof. intros (_ & _ & _ & Hr) Hk. destruct r; [done|]. by destruct Hr. Qed.

Lemma stream_head hi lo t r : stream hi lo (t :: r) → lo <= st_start t ∧ st_start t <= st_end t ∧ st_end t <= hi.
Proof. intros (? & ? & ? & _). done. Qed.

Lemma skip_trivia_app b l m rest : skip_trivia b l = (m, rest) → ∃ pre, l = pre ++ rest ∧ length pre = length m.
Proof.
  revert b m rest. induction l as [|c l IH]; intros b m rest; simpl; [intros [= <- <-]; by exists []|].
  assert (Hstep : ∀ b' x, (let '(m, rest) := skip_trivia b' l in (x :: m, rest)) = (m, rest) →
    ∃ pre, c :: l = pre ++ rest ∧ length pre = length m).
  { intros b' x. destruct (skip_trivia b' l) as [m' rest'] eqn:E. intros [= <- <-].
    destruct (IH _ _ _ E) as (pre & -> & Hl). exists (c :: pre). simpl. by rewrite Hl. }
  destruct (b && _); [apply Hstep|]. destruct (is_white c); [apply Hstep|]. destruct (_ && _); [apply Hstep|].
  intros [= <- <-]. by exists [].
Qed.

Lemma skip_trivia_scalar b l m rest : skip_trivia b l = (m, rest) → Forall scalar l → Forall scalar m.
Proof.
  revert b m rest. induction l as [|c l IH]; intros b m rest; simpl; [by intros [= <- <-]|]. intros E [Hc Hl]%Forall_cons_1.
  assert (Hstep : ∀ b' x, scalar x → (let '(m, rest) := skip_trivia b' l in (x :: m, rest)) = (m, rest) → Forall scalar m).
  { intros b' x Hx. destruct (skip_trivia b' l) as [m' rest'] eqn:E'. intros [= <- <-]. constructor; [done|]. by eapply IH. }
  revert E. destruct (b && _); [by apply Hstep|]. destruct (is_white c); [by apply Hstep|].
  destruct (_ && _); [by apply Hstep|]. by intros [= <- <-].
Qed.

Lemma quoted_suffix quote l v rest : quoted quote l = Some (v, rest) → ∃ pre, l = pre ++ rest.
Proof.
  revert l v rest. fix IH 1. intros l v rest. destruct l as [|c r]; simpl; [done|].
  destruct (c =? quote); [intros [= <- <-]; by exists [c]|]. destruct (c =? 92).
  - destruct r as [|n r']; [done|]. intros ([v' rest'] & E & [= <- <-])%bind_Some.
    destruct (IH _ _ _ E) as [pre ->]. by exists (c :: n :: pre).
  - intros ([v' rest'] & E & [= <- <-])%bind_Some. destruct (IH _ _ _ E) as [pre ->]. by exists (c :: pre).
Qed.

Lemma keyword_not_eof word : keyword_kind word ≠ KEof.
Proof.
  unfold keyword_kind. destruct (map_get word _) as [k|] eqn:E; [|done]. revert E. apply (map_get_Forall (λ k, k ≠ KEof)).
  by repeat constructor.
Qed.

Section Tokens.
Context `{UnicodeTables}.
Context (p : FeelSourcePositions).

(** One token of at least one character, spanning what it was read from. *)
Definition reads_token (l : list Z) (t : SrlToken) (rest : list Z) : Prop :=
  ∃ pre, l = pre ++ rest ∧ pre ≠ [] ∧ st_start t = pos_of p l ∧ st_end t = pos_of p rest ∧ st_kind t ≠ KEof.

Lemma srl_word_reads c l : is_alphabetic c || (c =? ch "_") = true → reads_token (c :: l) (srl_word p (c :: l)).1 (srl_word p (c :: l)).2.
Proof.
  intros Hc. unfold srl_word. destruct (span _ (c :: l)) as [word rest] eqn:E. pose proof E as (Happ & _ & _)%span_spec.
  assert (Hw : word ≠ []).
  { intros ->. simpl in E. unfold is_alphanumeric in E.
    apply orb_true_iff in Hc as [Hc|Hc]; rewrite Hc, ?orb_true_r in E; simpl in E; by destruct (span _ l). }
  case_match.
  - exists (word ++ take (length (chars "-group")) rest). cbn [fst snd]. rewrite <-app_assoc, take_drop. repeat split; try done.
    by intros [? _]%app_eq_nil.
  - exists word. repeat split; [done..|apply keyword_not_eof].
Qed.

Lemma srl_next_reads c l t rest : srl_next p c (c :: l) = Ok (t, rest) → reads_token (c :: l) t rest.
Proof.
  unfold srl_next. case_match.
  - unfold srl_string. change (drop 1 (c :: l)) with l. destruct (quoted c l) as [[v r]|] eqn:E; [|done]. intros [= <- <-].
    apply quoted_suffix in E as [pre ->]. by exists (c :: pre).
  - destruct (is_digit c) eqn:Ed.
    + destruct (span is_digit (c :: l)) as [ds r] eqn:E. pose proof E as (Happ & _ & _)%span_spec. intros [= <- <-]. exists ds.
      repeat split; try done. intros ->. simpl in E. rewrite Ed in E. by destruct (span _ l).
    + destruct (is_alphabetic c || (c =? ch "_")) eqn:Ea.
      * intros Hw. injection Hw as Hw. pose proof (srl_word_reads c l Ea) as Hr. by rewrite Hw in Hr.
      * intros [= <- <-]. exists [c]. repeat split; try done. simpl. unfold punct_kind. repeat case_match; done.
Qed.

Lemma srl_tokens_stream fuel l :
  (length l < fuel)%nat → Forall scalar l →
  match srl_tokens p fuel l with
  | Ok (ts, m) => length l = length m ∧ Forall scalar m ∧ (∀ lo, lo <= pos_of p l → stream (len (source p)) lo ts)
  | Err (Rejected _) => True
  | Err _ => False
  end.
Proof.
  revert l. induction fuel as [|fuel IH]; intros l Hf Hl; [lia|]. simpl. destruct (skip_trivia false l) as [m rest] eqn:E.
  pose proof (skip_trivia_scalar _ _ _ _ E Hl) as Hm. apply skip_trivia_app in E as (pre & -> & Hlen).
  rewrite Forall_app in Hl. destruct Hl as [_ Hl]. rewrite length_app in Hf.
  assert (Hpos : pos_of p (pre ++ rest) <= pos_of p rest) by (unfold pos_of, len; rewrite length_app; lia).
  destruct rest as [|c rest].
  { split; [by rewrite app_nil_r|]. split; [done|]. intros lo Hlo. unfold pos_of in Hpos at 2. change (len (@nil Z)) with 0 in Hpos.
    simpl. repeat split; lia. }
  destruct (srl_next p c (c :: rest)) as [[t r]|[e| |]] eqn:En; cbn [mbind result_bind]; [| done | |].
  2-3: by revert En; unfold srl_next, srl_string; repeat case_match.
  destruct (srl_next_reads _ _ _ _ En) as (pre' & Happ & Hne & Hs & He & Hk). rewrite Happ in *.
  rewrite Forall_app in Hl. destruct Hl as [Hpre' Hr]. rewrite length_app in Hf.
  assert (Hp1 : (0 < length pre')%nat) by (destruct pre'; [done|simpl; lia]).
  specialize (IH r ltac:(lia) Hr). destruct (srl_tokens p fuel r) as [[ts m']|[e| |]]; cbn [mbind result_bind]; [|done..].
  destruct IH as (IHl & IHm & IHs). replace (length (pre' ++ r) - length r)%nat with (length pre') by (rewrite length_app; lia).
  rewrite take_app_length. split; [rewrite !length_app; lia|]. split; [by rewrite !Forall_app|]. intros lo Hlo.
  assert (Hpp : pos_of p (pre' ++ r) <= pos_of p r) by (unfold pos_of, len; rewrite length_app; lia).
  assert (Hpr : pos_of p r <= len (source p)) by (unfold pos_of, len; lia).
  specialize (IHs (st_end t) ltac:(lia)). destruct ts as [|u ts]; [done|].
  refine (conj _ (conj _ (conj _ (conj Hk IHs)))); lia.
Qed.
End Tokens.

(** ** What the parser promises *)

(** A span of the source, and a tree cut out of it. *)
Definition span_in (hi : Z) (r : Z * Z) : Prop := 0 <= r.1 ∧ r.1 <= r.2 ∧ r.2 <= hi.
Definition placed (hi : Z) (r : Z * Z) (e : FeelExpr) : Prop := span_in hi r ∧ spans 0 (r.2 - r.1) e.

Definition action_placed (hi : Z) (a : Action) : Prop :=
  match a with
  | Report code path message (r1, r2, r3) => placed hi r1 code ∧ placed hi r2 path ∧ placed hi r3 message
  | SetTo _ expr r => placed hi r expr
  end.

Definition rule_placed (hi : Z) (r : Rule) : Prop :=
  placed hi (r_condition_span r) (r_condition r) ∧ Forall (action_placed hi) (r_actions r).

(** The commas of a list that starts at [a] and is read up to [b]. *)
Fixpoint chain (a : Z) (commas : list (Z * Z)) (b : Z) : Prop :=
  match commas with [] => a <= b | (s, e) :: r => a <= s ∧ s <= e ∧ chain e r b end.

Lemma chain_snoc a commas b s e : chain a commas b → b <= s → s <= e → chain a (commas ++ [(s, e)]) e.
Proof. revert a. induction commas as [|[s' e'] l IH]; intros a; simpl; [lia|]. intros (? & ? & ?) ? ?. auto. Qed.

Lemma chain_mono a commas b b' : chain a commas b → b <= b' → chain a commas b'.
Proof. revert a. induction commas as [|[s' e'] l IH]; intros a; simpl; [lia|]. intros (? & ? & ?) ?. auto. Qed.

Lemma chain_le a commas b : chain a commas b → a <= b.
Proof. revert a. induction commas as [|[s' e'] l IH]; intros a; simpl; [done|]. intros (? & ? & H%IH). lia. Qed.

Lemma cut_ranges_in a commas b : chain a commas b → Forall (λ r, a <= r.1 ∧ r.1 <= r.2 ∧ r.2 <= b) (cut_ranges a commas b).
Proof.
  revert a. induction commas as [|[s e] l IH]; intros a; simpl; [intros; repeat constructor; simpl; lia|].
  intros (? & ? & Hc). pose proof (chain_le _ _ _ Hc). constructor; [simpl; lia|]. eapply Forall_impl; [by apply IH|].
  simpl. intros r Hr. lia.
Qed.

Section Promises.
Context `{UnicodeTables, BigDecimalText, TimeCrate, TimeParse}.
Context (p : FeelSourcePositions) (masked : list Z) (tokens : list SrlToken).
Context (Hlen : len masked = len (source p)) (Hscalar : Forall scalar masked).
Local Abbreviation hi := (len (source p)).

Lemma resolved_in_order text ts :
  tiles 0 (source (positions_new text INLINE_FEEL_URI)) ts →
  in_order (len (chars text)) 0 (if has_adjacent_name_run ts then merge_named_tokens ts spaced_builtin_names else ts).
Proof.
  intros Ht. assert (Ho : in_order (len (chars text)) 0 ts) by (by apply (tiles_in_order 0 (chars text))).
  case_match; [by apply merge_named_in_order|done].
Qed.

Lemma parse_never_exhausts text : parse text ≠ Err OutOfFuel.
Proof.
  unfold parse, parse_with_uri. set (q := positions_new _ _). destruct (tokenize_tiles q) as [Hf Ht].
  destruct (tokenize q) as [ts|e]; [|cbn [mbind result_bind]; congruence]. cbn [mbind result_bind].
  pose proof (parse_tokens_spans (len (chars text)) q _ (resolved_in_order text ts (Ht ts eq_refl))) as Hp.
  by destruct (parse_tokens _ _) as [|[| |]].
Qed.

Lemma parse_spans text e : parse text = Ok e → spans 0 (len (chars text)) e.
Proof.
  intros Hp. unfold parse, parse_with_uri in Hp. set (q := positions_new _ _) in Hp. destruct (tokenize_tiles q) as [_ Ht].
  destruct (tokenize q) as [ts|] eqn:E; [|done]. cbn [mbind result_bind] in Hp.
  pose proof (parse_tokens_spans (len (chars text)) q _ (resolved_in_order text ts (Ht ts eq_refl))) as Hs. by rewrite Hp in Hs.
Qed.

(** The only panic is one of the FEEL lexer, on a number the decimal crate refuses. *)
Definition feel_panics : Prop := ∃ s e, parse (encode (sub_list s e masked)) = Err Panicked.

Definition swp {A} (m : SP A) (Q : A → list SrlToken → Prop) (ts : list SrlToken) : Prop :=
  match m ts with
  | Ok (a, ts') => Q a ts'
  | Err (Rejected _) => True
  | Err Panicked => feel_panics
  | Err OutOfFuel => False
  end.

Lemma swp_bind {A B} (m : SP A) (f : A → SP B) Q ts : swp m (λ a ts', swp (f a) Q ts') ts → swp (m ≫= f) Q ts.
Proof. unfold swp, mbind, sp_bind. by destruct (m ts) as [[a ts']|[| |]]. Qed.

Lemma swp_mono {A} (m : SP A) (Q Q' : A → list SrlToken → Prop) ts :
  swp m Q ts → (∀ a ts', Q a ts' → Q' a ts') → swp m Q' ts.
Proof. unfold swp. intros Hm HQ. destruct (m ts) as [[a ts']|[| |]]; auto. Qed.

(** The cursor has moved on, past [n] tokens at least. *)
Definition moved (n : nat) (lo : Z) (ts ts' : list SrlToken) : Prop :=
  (n + length ts' <= length ts)%nat ∧ ∃ lo', lo <= lo' ∧ stream hi lo' ts'.

Lemma expect_spec kind what lo ts : kind ≠ KEof → stream hi lo ts →
  swp (srl_expect p kind what) (λ t ts', (lo <= st_start t ∧ st_start t <= st_end t ∧ st_end t <= hi) ∧
    stream hi (st_end t) ts' ∧ (1 + length ts' <= length ts)%nat) ts.
Proof.
  intros Hk Hs. destruct ts as [|t r]; [done|]. unfold srl_expect. apply swp_bind. unfold swp at 1. simpl.
  destruct (of_kind kind t) eqn:E; [|done]. apply of_kind_true in E as E'. rewrite <-E' in Hk.
  pose proof (stream_cons _ _ _ _ Hs Hk) as Hr. pose proof (stream_head _ _ _ _ Hs) as Hh. unfold swp, sp_advance.
  destruct r as [|u r]; [done|]. split; [done|]. split; [done|]. simpl. lia.
Qed.

Lemma advance_spec lo t r : stream hi lo (t :: r) → st_kind t ≠ KEof →
  swp sp_advance (λ t' ts', t' = t ∧ ts' = r ∧ stream hi (st_end t) ts' ∧ lo <= st_end t) (t :: r).
Proof.
  intros Hs Hk. pose proof (stream_cons _ _ _ _ Hs Hk) as Hr. pose proof (stream_head _ _ _ _ Hs) as Hh.
  unfold swp, sp_advance. destruct r as [|u r]; [done|]. split; [done|]. split; [done|]. split; [done|lia].
Qed.

Lemma expect_string_spec what lo ts : stream hi lo ts →
  swp (expect_string p what) (λ _ ts', moved 1 lo ts ts') ts.
Proof.
  intros Hs. destruct ts as [|t r]; [done|]. unfold expect_string. apply swp_bind. unfold swp at 1. simpl.
  destruct (of_kind KStr t) eqn:E; [|done]. apply of_kind_true in E. destruct (st_quote t =? 34); [|done].
  apply swp_bind. eapply swp_mono; [apply (advance_spec lo); [done|by rewrite E]|]. simpl. intros _ ts' (_ & -> & Hr & Hlo).
  split; [simpl; lia|by eexists].
Qed.

Lemma signed_int_spec lo ts : stream hi lo ts → swp (parse_signed_int p) (λ _ ts', moved 1 lo ts ts') ts.
Proof.
  intros Hs. destruct ts as [|t r]; [done|]. unfold parse_signed_int. apply swp_bind. unfold swp at 1. simpl.
  apply swp_bind. apply (swp_mono _ (λ _ ts', moved 0 lo (t :: r) ts')).
  - destruct (of_kind KOther t) eqn:E; [|split; [simpl; lia|by eexists]].
    destruct (_ || _); [|split; [simpl; lia|by eexists]]. apply swp_bind. apply of_kind_true in E.
    eapply swp_mono; [apply (advance_spec lo); [done|by rewrite E]|]. simpl. intros _ ts' (_ & -> & Hr & Hlo).
    split; [simpl; lia|by eexists].
  - intros _ ts' (Hl & lo' & Hle & Hs'). apply swp_bind. eapply swp_mono; [by apply (expect_spec _ _ lo')|].
    intros tok ts2 (Hb & Hs2 & Hl2). destruct (parse_unsigned _ _); [|done]. split; [simpl in *; lia|]. exists (st_end tok).
    split; [lia|done].
Qed.

Lemma section_then_spec depth lo ts : stream hi lo ts →
  swp (section_then p depth) (λ x ts', lo <= x ∧ x <= hi ∧ moved 0 lo ts ts') ts.
Proof.
  revert depth lo. induction ts as [|t r IH]; intros depth lo Hs; [done|]. unfold swp. simpl.
  pose proof (stream_head _ _ _ _ Hs) as Hh. destruct (of_kind KThen t && (depth =? 0)).
  - split; [lia|]. split; [lia|]. split; [done|by eexists].
  - destruct (of_kind KEof t) eqn:E; [done|]. assert (Hk : st_kind t ≠ KEof) by (intros Hk%of_kind_true; congruence).
    specialize (IH (depth_after depth t) _ (stream_cons _ _ _ _ Hs Hk)). unfold swp in IH.
    destruct (section_then _ _ r) as [[x ts']|[| |]]; try done. destruct IH as (Hx & Hx' & Hl & lo' & Hlo & Hs').
    split; [lia|]. split; [lia|]. split; [simpl; lia|]. exists lo'. split; [lia|done].
Qed.

Lemma paren_commas_spec body depth commas lo ts : stream hi lo ts → chain body commas lo →
  match paren_commas p body depth commas ts with
  | Ok (commas', close, ts') => chain body commas' close ∧ close <= hi ∧ moved 1 lo ts ts'
  | Err (Rejected _) => True
  | Err _ => False
  end.
Proof.
  revert depth commas lo. induction ts as [|t r IH]; intros depth commas lo Hs Hc; [done|]. simpl.
  pose proof (stream_head _ _ _ _ Hs) as Hh. destruct (of_kind KEof t) eqn:E; [done|].
  assert (Hk : st_kind t ≠ KEof) by (intros Hk%of_kind_true; congruence).
  pose proof (stream_cons _ _ _ _ Hs Hk) as Hr.
  assert (Hgo : ∀ d cs, chain body cs (st_end t) →
    match paren_commas p body d cs r with
    | Ok (commas', close, ts') => chain body commas' close ∧ close <= hi ∧ moved 1 lo (t :: r) ts'
    | Err (Rejected _) => True
    | Err _ => False
    end).
  { intros d cs Hcs. specialize (IH d cs _ Hr Hcs). destruct (paren_commas _ _ _ _ r) as [[[cs' close] ts']|[| |]]; try done.
    destruct IH as (H1' & H2' & Hl & lo' & Hlo & Hs'). split; [done|]. split; [done|]. split; [simpl; lia|]. exists lo'.
    split; [lia|done]. }
  destruct (_ && (depth_after depth t =? 0)).
  - split; [by eapply chain_mono; [exact Hc|lia]|]. split; [lia|]. split; [simpl; lia|]. exists (st_end t). split; [lia|done].
  - destruct (_ && (depth =? 1)); apply Hgo; [by eapply chain_snoc; [exact Hc|lia..]|by eapply chain_mono; [exact Hc|lia]].
Qed.

Lemma split_args_spec body lo ts : stream hi lo ts → 0 <= body → body <= lo →
  swp (split_paren_args p body) (λ ranges ts', Forall (span_in hi) ranges ∧ moved 1 lo ts ts') ts.
Proof.
  intros Hs H0' Hb. unfold swp, split_paren_args. pose proof (paren_commas_spec body 1 [] lo ts Hs Hb) as Hp.
  destruct (paren_commas _ _ _ _ ts) as [[[commas close] ts']|[| |]]; cbn [mbind result_bind]; try done.
  destruct Hp as (Hc & Hh & Hm). split; [|done]. eapply Forall_impl; [by apply cut_ranges_in|]. intros r Hr.
  simpl in Hr. unfold span_in. lia.
Qed.

Lemma feel_parse_spec r ts : span_in hi r → swp (feel_parse p masked r) (λ e ts', ts' = ts ∧ placed hi r e) ts.
Proof.
  destruct r as [s e]. intros Hr. pose proof Hr as (H1' & H2' & H3'). simpl in *. unfold swp, feel_parse.
  rewrite (proj2 (Z.leb_le 0 s)), (proj2 (Z.leb_le s e)), (proj2 (Z.leb_le e _)) by lia. simpl.
  assert (Hsub : Forall scalar (sub_list s e masked)) by (by apply Forall_take, Forall_drop).
  assert (Hl : len (sub_list s e masked) = e - s).
  { unfold sub_list, len in *. rewrite length_take, length_drop. lia. }
  unfold sp_lift. destruct (parse _) as [x|[err| |]] eqn:E; simpl; [|done|by exists s, e|].
  - split; [done|]. split; [done|]. simpl. rewrite <-Hl, <-(chars_encode _ Hsub). by eapply parse_spans.
  - by apply parse_never_exhausts in E.
Qed.

(** The verb, its arguments in parentheses, and what is made of them. *)
Lemma action_spec {A} kind what (k : SrlToken → list (Z * Z) → SP A) (Q : A → Prop) lo ts :
  kind ≠ KEof → 0 <= lo → stream hi lo ts →
  (∀ verb ranges lo' ts', Forall (span_in hi) ranges → lo <= lo' → stream hi lo' ts' →
     swp (k verb ranges) (λ a ts2, Q a ∧ moved 0 lo' ts' ts2) ts') →
  swp (verb ← srl_expect p kind what;
       open ← srl_expect p KLParen "(";
       ranges ← split_paren_args p (st_end open);
       k verb ranges) (λ a ts', Q a ∧ moved 1 lo ts ts') ts.
Proof.
  intros Hk H0' Hs Hkk. apply swp_bind. eapply swp_mono; [by apply (expect_spec _ _ lo)|].
  intros verb ts1 (Hb1 & Hs1 & Hl1). apply swp_bind. eapply swp_mono; [by apply (expect_spec _ _ (st_end verb))|].
  intros open ts2 (Hb2 & Hs2 & Hl2). apply swp_bind.
  eapply swp_mono; [apply (split_args_spec (st_end open) (st_end open)); [done|lia|lia]|].
  intros ranges ts3 (Hr & Hl3 & lo3 & Hlo3 & Hs3). eapply swp_mono; [apply (Hkk verb ranges lo3); [done|lia|done]|].
  intros a ts4 (Ha & Hl4 & lo4 & Hlo4 & Hs4). split; [done|]. split; [lia|]. exists lo4. split; [lia|done].
Qed.

(** The expressions of an action, its semicolon. *)
Lemma semicolon_spec {A} (a : A) (Q : A → Prop) lo ts :
  stream hi lo ts → Q a → swp (_ ← srl_expect p KSemicolon ";"; mret a) (λ a ts', Q a ∧ moved 0 lo ts ts') ts.
Proof.
  intros Hs Ha. apply swp_bind. eapply swp_mono; [by apply (expect_spec _ _ lo)|]. intros t ts' (Hb & Hs' & Hl).
  split; [done|]. split; [lia|]. exists (st_end t). split; [lia|done].
Qed.

Lemma report_spec lo ts : 0 <= lo → stream hi lo ts →
  swp (parse_report p masked) (λ a ts', action_placed hi a ∧ moved 1 lo ts ts') ts.
Proof.
  intros H0' Hs. apply action_spec; [done..|]. intros verb ranges lo' ts' Hr Hlo Hs'.
  destruct ranges as [|r1 [|r2 [|r3 []]]]; try done. rewrite !Forall_cons in Hr. destruct Hr as (Hr1 & Hr2 & Hr3 & _).
  apply swp_bind. eapply swp_mono; [by apply feel_parse_spec|]. intros code ? [-> Hp1].
  apply swp_bind. eapply swp_mono; [by apply feel_parse_spec|]. intros path ? [-> Hp2].
  apply swp_bind. eapply swp_mono; [by apply feel_parse_spec|]. intros message ? [-> Hp3]. by apply semicolon_spec.
Qed.

Lemma set_spec lo ts : 0 <= lo → stream hi lo ts →
  swp (parse_set p masked tokens) (λ a ts', action_placed hi a ∧ moved 1 lo ts ts') ts.
Proof.
  intros H0' Hs. apply action_spec; [done..|]. intros verb ranges lo' ts' Hr Hlo Hs'.
  destruct ranges as [|r1 [|r2 []]]; try done. rewrite !Forall_cons in Hr. destruct Hr as (Hr1 & Hr2 & _).
  apply swp_bind. apply (swp_mono _ (λ _ ts2, ts2 = ts')).
  - unfold swp, ident_in_range. destruct (List.filter _ tokens) as [|t []]; try done. by destruct (of_kind KIdent t).
  - intros target ? ->. apply swp_bind. eapply swp_mono; [by apply feel_parse_spec|]. intros expr ? [-> Hp]. by apply semicolon_spec.
Qed.

Lemma moved_trans n m lo lo' ts ts' ts2 : lo <= lo' → moved m lo' ts' ts2 → (n + length ts' <= length ts)%nat → moved (n + m) lo ts ts2.
Proof. intros Hlo (Hl & lo2 & Hlo2 & Hs2) Hn. split; [lia|]. exists lo2. split; [lia|done]. Qed.

Lemma actions_spec fuel acc lo ts :
  (length ts < fuel)%nat → 0 <= lo → stream hi lo ts → Forall (action_placed hi) acc →
  swp (parse_actions p masked tokens fuel acc) (λ l ts', Forall (action_placed hi) l ∧ moved 1 lo ts ts') ts.
Proof.
  revert acc lo ts. induction fuel as [|fuel IH]; intros acc lo ts Hf H0' Hs Hacc; [lia|]. simpl.
  assert (Hgo : ∀ m : SP Action, swp m (λ a ts', action_placed hi a ∧ moved 1 lo ts ts') ts →
    swp (a ← m; parse_actions p masked tokens fuel (acc ++ [a])) (λ l ts', Forall (action_placed hi) l ∧ moved 1 lo ts ts') ts).
  { intros m Hm. apply swp_bind. eapply swp_mono; [exact Hm|]. intros a ts' (Ha & Hl & lo' & Hlo & Hs').
    eapply swp_mono; [apply (IH _ lo'); [lia|lia|done|apply Forall_app; by repeat constructor]|]. intros l ts2 [Hl' Hm'].
    split; [done|]. apply (moved_trans 0 1 lo lo' ts ts'); [done|done|lia]. }
  apply swp_bind. destruct ts as [|t r]; [done|]. unfold swp at 1. simpl.
  destruct (st_kind t) eqn:E; try done; [|by apply Hgo, report_spec|by apply Hgo, set_spec].
  apply swp_bind. eapply swp_mono; [apply (advance_spec lo); [done|by rewrite E]|]. simpl. intros _ ts' (_ & -> & Hr & Hlo).
  split; [done|]. split; [simpl; lia|by eexists].
Qed.

Lemma attributes_spec fuel salience group lo ts :
  (length ts < fuel)%nat → stream hi lo ts →
  swp (parse_attributes p fuel salience group) (λ _ ts', moved 0 lo ts ts') ts.
Proof.
  revert salience group lo ts. induction fuel as [|fuel IH]; intros salience group lo ts Hf Hs; [lia|]. simpl.
  apply swp_bind. destruct ts as [|t r]; [done|]. unfold swp at 1. simpl.
  assert (Hgo : ∀ A (m : SP A) (k : A → SP (Z * option string)),
    st_kind t ≠ KEof →
    (∀ lo' ts', stream hi lo' ts' → swp m (λ _ ts2, moved 1 lo' ts' ts2) ts') →
    (∀ a lo' ts', (length ts' < fuel)%nat → stream hi lo' ts' → swp (k a) (λ _ ts2, moved 0 lo' ts' ts2) ts') →
    swp (_ ← sp_advance; a ← m; k a) (λ _ ts', moved 0 lo (t :: r) ts') (t :: r)).
  { intros A m k Hk Hm Hk'. apply swp_bind. eapply swp_mono; [by apply (advance_spec lo)|]. simpl.
    intros _ ts' (_ & -> & Hr & Hlo). apply swp_bind. eapply swp_mono; [by apply Hm|].
    intros a ts2 (Hl & lo2 & Hlo2 & Hs2). eapply swp_mono; [apply (Hk' a lo2); [simpl in *; lia|done]|]. intros x ts3 Hm3.
    apply (moved_trans 0 0 lo lo2 (t :: r) ts2); [lia|done|simpl; lia]. }
  destruct (st_kind t) eqn:E; try (split; [simpl; lia|by eexists]).
  - apply Hgo; [done| |intros; by apply IH]. intros. by apply signed_int_spec.
  - apply Hgo; [done| |intros; by apply IH]. intros. by apply expect_string_spec.
Qed.

Lemma rule_spec n lo ts : 0 <= lo → stream hi lo ts →
  swp (parse_rule p masked tokens n) (λ r ts', (rule_placed hi r ∧ r_decl_index r = n) ∧ moved 1 lo ts ts') ts.
Proof.
  intros H0' Hs. unfold parse_rule. apply swp_bind. eapply swp_mono; [by apply (expect_spec _ _ lo)|].
  intros t1 ts1 (Hb1 & Hs1 & Hl1). apply swp_bind. eapply swp_mono; [by apply (expect_string_spec _ (st_end t1))|].
  intros name ts2 (Hl2 & lo2 & Hlo2 & Hs2). apply swp_bind.
  eapply swp_mono; [apply (attributes_spec _ _ _ lo2); [lia|done]|]. intros [salience group] ts3 (Hl3 & lo3 & Hlo3 & Hs3).
  apply swp_bind. eapply swp_mono; [by apply (expect_spec _ _ lo3)|]. intros t4 ts4 (Hb4 & Hs4 & Hl4).
  apply swp_bind. eapply swp_mono; [by apply (section_then_spec 0 (st_end t4))|].
  intros cond_end ts5 (Hx & Hx' & Hl5 & lo5 & Hlo5 & Hs5). apply swp_bind.
  eapply swp_mono; [apply feel_parse_spec; unfold span_in; simpl; lia|]. intros condition ? [-> Hp].
  apply swp_bind. eapply swp_mono; [by apply (expect_spec _ _ lo5)|]. intros t6 ts6 (Hb6 & Hs6 & Hl6).
  apply swp_bind. eapply swp_mono; [apply (actions_spec _ [] (st_end t6)); [lia|lia|done|constructor]|].
  intros actions ts7 (Ha & Hl7 & lo7 & Hlo7 & Hs7). split; [done|]. split; [lia|]. exists lo7. split; [lia|done].
Qed.

(** Every rule in its place, counted from zero. *)
Definition rules_placed (l : list Rule) : Prop :=
  Forall (rule_placed hi) l ∧ imap (λ i _, i) l = map r_decl_index l.

Lemma rules_placed_snoc l r : rules_placed l → rule_placed hi r → r_decl_index r = length l → rules_placed (l ++ [r]).
Proof.
  intros [Hl Hi] Hr Hn. split; [by apply Forall_app; split; [|constructor]|]. rewrite imap_app, map_app, Hi. simpl.
  by rewrite Hn, Nat.add_0_r.
Qed.

Lemma ruleset_loop_spec fuel acc lo ts :
  (length ts < fuel)%nat → 0 <= lo → stream hi lo ts → rules_placed acc →
  swp (parse_ruleset_loop p masked tokens fuel acc) (λ rs _, rules_placed (rules rs)) ts.
Proof.
  revert acc lo ts. induction fuel as [|fuel IH]; intros acc lo ts Hf H0' Hs Hacc; [lia|]. simpl.
  apply swp_bind. destruct ts as [|t r]; [done|]. unfold swp at 1. simpl. destruct (of_kind KEof t); [done|].
  apply swp_bind. eapply swp_mono; [by apply (rule_spec _ lo)|]. intros rule ts' ([Hr Hn] & Hl & lo' & Hlo & Hs').
  apply (IH _ lo'); [simpl in *; lia|lia|done|by apply rules_placed_snoc].
Qed.
End Promises.

Section Rulesets.
Context `{UnicodeTables, BigDecimalText, TimeCrate, TimeParse}.

(** C27: parsing a ruleset always ends, and every expression is where its span says.  On any
    well-formed text the parser gives a ruleset or a coded error, or panics where the FEEL lexer
    does on a number of the text.  The rules of a ruleset are numbered in order; the condition
    and every action argument has a span within the text, and the tree compiled from it has all
    its positions within that span, so that the origin of the span plus the offset of a FEEL
    error is the place in the ruleset the error is about. *)
Theorem ruleset_spans src : Forall scalar (chars src) →
  match srl_parse src with
  | Ok rs => Forall (rule_placed (len (chars src))) (rules rs) ∧ imap (λ i _, i) (rules rs) = map r_decl_index (rules rs)
  | Err (Rejected _) => True
  | Err Panicked => ∃ text, parse text = Err Panicked
  | Err OutOfFuel => False
  end.
Proof.
  intros Hs. unfold srl_parse, srl_tokenize. set (p := positions_new src SRL_URI).
  pose proof (srl_tokens_stream p (S (length (source p))) (source p) ltac:(lia) Hs) as Ht.
  destruct (srl_tokens p _ _) as [[ts masked]|[| |]]; cbn [mbind result_bind]; try done. destruct Ht as (Hl & Hm & Ht).
  assert (Hlen : len masked = len (source p)) by (unfold len; congruence).
  specialize (Ht 0 ltac:(unfold pos_of; lia)).
  pose proof (ruleset_loop_spec p masked ts Hlen Hm (S (length ts)) [] 0 ts ltac:(lia) ltac:(lia) Ht) as Hr.
  unfold sp_loop, swp in *. destruct (parse_ruleset_loop _ _ _ _ _ ts) as [[rs ts']|[| |]]; cbn [mbind result_bind];
    [apply Hr; split; constructor|done| |apply Hr; split; constructor].
  destruct Hr as (s & e & Hp); [split; constructor|]. eexists. exact Hp.
Qed.
End Rulesets.

(** ** Instances *)

#[local] Existing Instances ascii_tables plain_time_parse.

(** Two rules of one group, the more salient one declared last, and a rule that reports. *)
Definition sample_rules : string :=
  "rule " +:+ dq "low" +:+ " activation-group " +:+ dq "g" +:+ " when true then set(who, 1); end // last resort
rule " +:+ dq "high" +:+ " salience 5 activation-group " +:+ dq "g" +:+ " when x > 1 then set(who, x + 1); end
rule " +:+ dq "tell" +:+ " salience -1 when who > 3 then report(who, 2, true); end".

Lemma sample_rules_parse : (match srl_parse sample_rules with Ok rs => (length (rules rs) =? 3)%nat | Err _ => false end) = true.
Proof. vm_compute. reflexivity. Qed.

Lemma sample_rules_scalar : Forall scalar (chars sample_rules).
Proof. apply Forall_fold_right. vm_compute. repeat split. Qed.

Lemma ruleset_spans_witness :
  match srl_parse sample_rules with Ok rs => Forall (rule_placed (len (chars sample_rules))) (rules rs) | Err _ => False end.
Proof.
  pose proof (ruleset_spans sample_rules sample_rules_scalar) as Hr. pose proof sample_rules_parse as Hp.
  destruct (srl_parse sample_rules) as [rs|e]; [apply Hr|discriminate Hp].
Defined.
