(* ===== verification/SrlEngine.v ===== *)
(** * The rule engine ([sutra-srl/src/engine.rs])

    One pass over the rules in the order of the agenda: higher salience first, then the order of
    declaration.  A rule whose activation group has fired is passed over; a rule whose condition
    holds in the working context runs its actions, which update the context and the output or
    report an issue.  An evaluation threads the readings of the surroundings, as in [FeelEval].
    The per-thread cache of parsed rulesets is a finite map.

    [Pass] is the abstract machine: the rules of an agenda one by one, each passed over, not
    holding or fired.  The theorems: through any state of the cache the engine runs such a pass
    over the sorted rules ([evaluation_is_a_pass]); in a pass each group fires at most once, and
    the output is what the fired rules say ([pass_output]); a ruleset without denied builtins has
    one outcome whatever the clock and the entropy source give ([pure_ruleset_replays]). *)
From Stdlib Require Import ZArith Lia Bool Ascii String Sorted.
From stdpp Require Import base option strings gmap list.
From S2P Require Import Prelude Texts Decimal FeelValue Temporal FeelText TemporalParse FeelLexer FeelParser FeelSyntax.
From S2P Require Import FeelOps FeelBuiltins FeelEval FeelFacade FeelPlain FeelCarry FeelSim FeelRuns SrlSyntax.

Open Scope string_scope.
Open Scope list_scope.
Open Scope Z_scope.

(** ** Effects *)

Definition EM (A : Type) : Type := nat → sres A * nat.

#[export] Instance em_ret : MRet EM := λ A a k, (Ok a, k).
#[export] Instance em_bind : MBind EM := λ A B f m k,
  match m k with (Ok a, k') => f a k' | (Err e, k') => (Err e, k') end.

Definition wrap_eval_error (e : FeelError) (origin : Z) (positions : FeelSourcePositions) : SrlError :=
  srl_at SRL_FEEL_EVAL_ERROR ("FEEL evaluation error: [" +:+ fe_code e +:+ "] " +:+ fe_message e)
    (origin + match fe_offset e with Some o => o | None => 0 end) positions.

(** [.map_err(|e| wrap_eval_error(&e, origin, positions))]. *)
Definition wrapping {A} (origin : Z) (positions : FeelSourcePositions) (m : M A) : EM A := λ k,
  ((map_fault (λ e, wrap_eval_error e origin positions) (m k).1), (m k).2).

(** ** The agenda *)

Definition agenda_leb (a b : Rule) : bool :=
  match r_salience b ?= r_salience a with
  | Lt => true
  | Eq => (r_decl_index a <=? r_decl_index b)%nat
  | Gt => false
  end.

Definition agenda (rs : Ruleset) : list Rule := sort_by agenda_leb (rules rs).

Record Firing : Type := mk_firing {
  f_working : FeelContext; f_output : list (string * FeelValue); f_issues : list FeelValue; f_groups : list string }.

Definition issue_map (code path message : string) : FeelValue :=
  Map (map_insert "value" Null (map_insert "message" (Str message) (map_insert "path" (Str path)
    (map_insert "severity" (Str "ERROR") (map_insert "code" (Str code) []))))).

(** [fired_groups.contains(group)]. *)
Definition group_fired (r : Rule) (s : Firing) : bool :=
  match r_activation_group r with Some g => existsb (String.eqb g) (f_groups s) | None => false end.

Definition record_group (r : Rule) (s : Firing) : Firing :=
  match r_activation_group r with
  | Some g => mk_firing (f_working s) (f_output s) (f_issues s) (g :: f_groups s)
  | None => s
  end.

Section Engine.
Context `{UnicodeTables, BigDecimalOps, BigDecimalText, DecimalCrate, Doubles, TimeCrate, TimeText, TimeParse, Calendar,
  Regex, CaseTables} {ambient : Ambient} {natives : Natives}.

Definition coerce_string (v : FeelValue) : string := match v with Str s => s | other => canonical_string_of other end.

Section Run.
Context (fuel : nat) (positions : FeelSourcePositions).

Definition evaluated (expr : FeelExpr) (origin : Z) (s : Firing) : EM FeelValue :=
  wrapping origin positions (eval fuel expr (f_working s)).

Definition run_action (s : Firing) (a : Action) : EM Firing :=
  match a with
  | SetTo target expr span_ =>
      v ← evaluated expr span_.1 s;
      mret (mk_firing (map_insert target v (f_working s)) (map_insert target v (f_output s)) (f_issues s) (f_groups s))
  | Report code path message (s1, s2, s3) =>
      c ← evaluated code s1.1 s;
      p ← evaluated path s2.1 s;
      m ← evaluated message s3.1 s;
      mret (mk_firing (f_working s) (f_output s)
        (f_issues s ++ [issue_map (coerce_string c) (coerce_string p) (coerce_string m)]) (f_groups s))
  end.

Definition em_fold {A B} (f : A → B → EM A) : list B → A → EM A :=
  fix go l acc := match l with [] => mret acc | x :: l => acc ← f acc x; go l acc end.

Definition run_rule (s : Firing) (r : Rule) : EM Firing :=
  if group_fired r s then mret s
  else
    fires ← wrapping (r_condition_span r).1 positions (eval_boolean fuel (r_condition r) (f_working s));
    if (fires : bool) then s' ← em_fold run_action (r_actions r) s; mret (record_group r s') else mret s.
End Run.

(** The output, with the issues under their key when there are some. *)
Definition publish (s : Firing) : list (string * FeelValue) :=
  match f_issues s with [] => f_output s | l => map_insert "issues" (List l) (f_output s) end.

Definition run_agenda (fuel : nat) (positions : FeelSourcePositions) (rs : Ruleset) (input : FeelContext)
    : EM (list (string * FeelValue)) :=
  s ← em_fold (run_rule fuel positions) (agenda rs) (mk_firing input [] [] []);
  mret (publish s).

(** ** The cache *)

Definition PARSED_RULESETS_PER_THREAD : nat := 256.

Definition RulesetCache : Type := gmap string (Ruleset * FeelSourcePositions).

Definition parsed_ruleset (cache : RulesetCache) (src : string) : sres (Ruleset * FeelSourcePositions) * RulesetCache :=
  match cache !! src with
  | Some hit => (Ok hit, cache)
  | None =>
      match srl_parse src with
      | Err e => (Err e, cache)
      | Ok rs =>
          let parsed := (rs, positions_new src SRL_URI) in
          (Ok parsed, <[src := parsed]> (if (PARSED_RULESETS_PER_THREAD <=? size cache)%nat then ∅ else cache))
      end
  end.

Definition srl_evaluate (fuel : nat) (cache : RulesetCache) (ruleset : string) (input : FeelContext)
    : EM (list (string * FeelValue)) * RulesetCache :=
  if utf8_valid ruleset then
    match parsed_ruleset cache ruleset with
    | (Ok (rs, positions), cache) => (run_agenda fuel positions rs input, cache)
    | (Err e, cache) => (λ k, (Err e, k), cache)
    end
  else (λ k, (Err (Rejected (mk_srl_error SRL_INVALID_UTF8 "ruleset is not valid UTF-8" 1 1 None)), k), cache).
End Engine.

(** ** The agenda is sorted *)

(** [r] comes before [r'] on an agenda. *)
Definition precedes (r r' : Rule) : Prop :=
  r_salience r' < r_salience r ∨ (r_salience r = r_salience r' ∧ (r_decl_index r ≤ r_decl_index r')%nat).

Lemma agenda_leb_precedes a b : agenda_leb a b = true ↔ precedes a b.
Proof. unfold agenda_leb, precedes. destruct (Z.compare_spec (r_salience b) (r_salience a)); rewrite ?Nat.leb_le; intuition (lia || done). Qed.

Lemma agenda_leb_total a b : agenda_leb a b = false → precedes b a.
Proof.
  unfold agenda_leb, precedes. destruct (Z.compare_spec (r_salience b) (r_salience a)); rewrite ?Nat.leb_gt; intuition (lia || done).
Qed.

Lemma precedes_trans a b c : precedes a b → precedes b c → precedes a c.
Proof. unfold precedes. lia. Qed.

Lemma insert_sorted r l : StronglySorted precedes l → StronglySorted precedes (insert_by agenda_leb r l).
Proof.
  induction 1 as [|x l Hl IH Hx]; simpl; [by repeat constructor|]. destruct (agenda_leb r x) eqn:E.
  - apply agenda_leb_precedes in E. repeat (constructor; try done). eapply Forall_impl; [exact Hx|]. intros y. by apply precedes_trans.
  - constructor; [done|]. apply agenda_leb_total in E. rewrite Forall_forall in *. intros y Hy.
    destruct (elem_of_insert _ _ _ _ Hy) as [->|?]; auto.
Qed.

Lemma agenda_sorted rs : StronglySorted precedes (agenda rs).
Proof. unfold agenda, sort_by. induction (rules rs); simpl; [constructor|by apply insert_sorted]. Qed.

(** ** The abstract machine *)

Inductive Fate : Type := Passed | Declined | Fired.

Definition fired_of (story : list (Rule * Fate)) : list Rule :=
  omap (λ rf, match rf.2 with Fired => Some rf.1 | _ => None end) story.

Definition targets (a : Action) : list string := match a with SetTo t _ _ => [t] | Report _ _ _ _ => [] end.
Definition is_report (a : Action) : bool := match a with Report _ _ _ _ => true | SetTo _ _ _ => false end.

Definition targets_of (acts : list Action) : list string := concat (map targets acts).
Definition reports_of (acts : list Action) : nat := length (List.filter is_report acts).
Definition actions_of (l : list Rule) : list Action := concat (map r_actions l).
Definition groups_of (l : list Rule) : list string := omap r_activation_group l.

(** An issue of the frozen shape. *)
Definition is_issue (v : FeelValue) : Prop :=
  ∃ code path message, v = Map [("code", Str code); ("message", Str message); ("path", Str path); ("severity", Str "ERROR"); ("value", Null)].

Section Passes.
Context `{UnicodeTables, BigDecimalOps, BigDecimalText, DecimalCrate, Doubles, TimeCrate, TimeText, TimeParse, Calendar,
  Regex, CaseTables} {ambient : Ambient} {natives : Natives}.
Context (fuel : nat) (positions : FeelSourcePositions) (input : FeelContext).

(** One pass: the fate of each rule in turn. *)
Inductive Pass : Firing * nat → list (Rule * Fate) → Firing * nat → Prop :=
| pass_end s k : Pass (s, k) [] (s, k)
| pass_over s k r story last : group_fired r s = true → Pass (s, k) story last → Pass (s, k) ((r, Passed) :: story) last
| pass_declined s k r k' story last :
    group_fired r s = false → eval_boolean fuel (r_condition r) (f_working s) k = (Ok false, k') →
    Pass (s, k') story last → Pass (s, k) ((r, Declined) :: story) last
| pass_fired s k r k' s' k'' story last :
    group_fired r s = false → eval_boolean fuel (r_condition r) (f_working s) k = (Ok true, k') →
    em_fold (run_action fuel positions) (r_actions r) s k' = (Ok s', k'') →
    Pass (record_group r s', k'') story last → Pass (s, k) ((r, Fired) :: story) last.

Lemma em_run {A B} (m : EM A) (f : A → EM B) k b k' :
  (m ≫= f) k = (Ok b, k') → ∃ a k1, m k = (Ok a, k1) ∧ f a k1 = (Ok b, k').
Proof. unfold mbind, em_bind. destruct (m k) as [[a|e] k1]; [eauto|done]. Qed.

Lemma wrapping_ok {A} origin (m : M A) k a k' : wrapping origin positions m k = (Ok a, k') ↔ m k = (Ok a, k').
Proof. unfold wrapping. destruct (m k) as [[b|[e| |]] k1]; simpl; split; intros E; inversion E; subst; done. Qed.

(** A run that ends well is a pass over the whole agenda. *)
Lemma run_is_pass l s k s' k' :
  em_fold (run_rule fuel positions) l s k = (Ok s', k') → ∃ story, map fst story = l ∧ Pass (s, k) story (s', k').
Proof.
  revert s k. induction l as [|r l IH]; intros s k; simpl; [intros [= <- <-]; exists []; split; [done|constructor]|].
  intros (s1 & k1 & E & E2)%em_run. destruct (IH _ _ E2) as (story & <- & Hp). unfold run_rule in E.
  destruct (group_fired r s) eqn:Hg; [injection E as <- <-; exists ((r, Passed) :: story); split; [done|by constructor]|].
  apply em_run in E as (b & k2 & Eb%wrapping_ok & E). destruct b.
  - apply em_run in E as (s2 & k3 & Ea & [= <- <-]). exists ((r, Fired) :: story). split; [done|by eapply pass_fired].
  - injection E as <- <-. exists ((r, Declined) :: story). split; [done|by eapply pass_declined].
Qed.

(** And a pass is a run that ends well. *)
Lemma pass_is_run story s k s' k' :
  Pass (s, k) story (s', k') → em_fold (run_rule fuel positions) (map fst story) s k = (Ok s', k').
Proof.
  assert (Hp : ∀ a b, Pass a story b → em_fold (run_rule fuel positions) (map fst story) a.1 a.2 = (Ok b.1, b.2)); [|apply Hp].
  induction 1 as [s1 k1|s1 k1 r story last Hg Hp IH|s1 k1 r k2 story last Hg Hc Hp IH|s1 k1 r k2 s2 k3 story last Hg Hc Ha Hp IH];
    simpl; [done|..]; unfold mbind, em_bind, run_rule; rewrite Hg; try exact IH;
    unfold mbind, em_bind; rewrite (proj2 (wrapping_ok _ _ _ _ _) Hc); [exact IH|]. by rewrite Ha.
Qed.

(** What the state of a pass says of the actions run and of the groups fired so far. *)
Record Fits (acts : list Action) (groups : list string) (s : Firing) : Prop := {
  fit_keys : ∀ key, is_some (map_get key (f_output s)) = true ↔ key ∈ targets_of acts;
  fit_working : ∀ key, map_get key (f_working s) = match map_get key (f_output s) with Some v => Some v | None => map_get key input end;
  fit_reports : length (f_issues s) = reports_of acts;
  fit_issues : Forall is_issue (f_issues s);
  fit_groups : ∀ g, g ∈ f_groups s ↔ g ∈ groups;
  fit_once : NoDup groups
}.

Lemma start_fits : Fits [] [] (mk_firing input [] [] []).
Proof.
  split; simpl; [|done|done|constructor|done|constructor]. intros key. by rewrite elem_of_nil.
Qed.

Lemma targets_app l l' : targets_of (l ++ l') = targets_of l ++ targets_of l'.
Proof. unfold targets_of. by rewrite map_app, concat_app. Qed.

Lemma reports_app l l' : reports_of (l ++ l') = (reports_of l + reports_of l')%nat.
Proof. unfold reports_of. by rewrite List.filter_app, length_app. Qed.

Lemma action_fits acts groups s a k s' k' :
  Fits acts groups s → run_action fuel positions s a k = (Ok s', k') → Fits (acts ++ [a]) groups s'.
Proof.
  intros [Hk Hw Hr Hi Hg Ho] E. destruct a as [code path message [[s1 s2] s3]|target expr span_]; simpl in E.
  - apply em_run in E as (c & k1 & _ & (p & k2 & _ & (m & k3 & _ & [= <- <-])%em_run)%em_run).
    split; rewrite ?targets_app, ?reports_app; simpl; try done.
    + intros x. by rewrite app_nil_r.
    + by rewrite length_app, Hr.
    + apply Forall_app_2; [done|]. repeat constructor. unfold issue_map. by repeat eexists.
  - apply em_run in E as (v & k1 & _ & [= <- <-]). split; rewrite ?targets_app, ?reports_app; simpl; try done.
    + intros x. change (targets_of [_]) with [target]. rewrite map_get_insert, elem_of_app, list_elem_of_singleton, <-Hk. destruct (String.eqb_spec target x); simpl; naive_solver.
    + intros x. rewrite !map_get_insert, Hw. by destruct (String.eqb target x).
    + by rewrite Hr, Nat.add_0_r.
Qed.

Lemma actions_fit l acts groups s k s' k' :
  Fits acts groups s → em_fold (run_action fuel positions) l s k = (Ok s', k') → Fits (acts ++ l) groups s'.
Proof.
  revert acts s k. induction l as [|a l IH]; intros acts s k Hf; simpl; [intros [= <- <-]; by rewrite app_nil_r|].
  intros (s1 & k1 & E & E2)%em_run. change (a :: l) with ([a] ++ l). rewrite app_assoc. eapply IH; [|exact E2]. by eapply action_fits.
Qed.

Lemma record_fits acts acts' fired r s s' :
  group_fired r s = false → Fits acts (groups_of fired) s → Fits acts' (groups_of fired) s' →
  Fits acts' (groups_of (fired ++ [r])) (record_group r s').
Proof.
  intros Hn Hs [Hk Hw Hr Hi Hg Ho]. pose proof (fit_groups _ _ _ Hs) as Hgs. unfold groups_of, group_fired, record_group in *.
  rewrite omap_app. simpl. destruct (r_activation_group r) as [g|]; [|rewrite app_nil_r; by split].
  assert (g ∉ omap r_activation_group fired).
  { rewrite <-Hgs. intros Hin%list_elem_of_In. assert (existsb (String.eqb g) (f_groups s) = true); [|congruence].
    apply existsb_exists. exists g. split; [done|apply String.eqb_refl]. }
  split; simpl; try done.
  - intros g'. rewrite elem_of_cons, elem_of_app, list_elem_of_singleton, Hg. tauto.
  - apply NoDup_app. split; [done|]. split; [|apply NoDup_singleton]. by intros x Hx ->%list_elem_of_singleton.
Qed.

Lemma pass_fits a story b : Pass a story b → ∀ fired, Fits (actions_of fired) (groups_of fired) a.1 →
  Fits (actions_of (fired ++ fired_of story)) (groups_of (fired ++ fired_of story)) b.1.
Proof.
  induction 1 as [s k|s k r story last Hg Hp IH|s k r k' story last Hg Hc Hp IH|s k r k' s' k'' story last Hg Hc Ha Hp IH];
    intros fired Hf; simpl in *; rewrite ?app_nil_r; auto.
  change (fired ++ r :: fired_of story) with (fired ++ [r] ++ fired_of story). rewrite app_assoc. apply IH.
  eapply record_fits; [done|done|]. unfold actions_of. rewrite map_app, concat_app. simpl. rewrite app_nil_r.
  by eapply actions_fit.
Qed.

Lemma actions_keep_groups l s k s' k' :
  em_fold (run_action fuel positions) l s k = (Ok s', k') → f_groups s' = f_groups s.
Proof.
  revert s k. induction l as [|a l IH]; intros s k; simpl; [by intros [= <- <-]|].
  intros (s1 & k1 & E & ->%IH)%em_run. destruct a as [code path message [[o1 o2] o3]|target expr span_]; simpl in E.
  - by apply em_run in E as (c & k2 & _ & (p & k3 & _ & (m & k4 & _ & [= <- <-])%em_run)%em_run).
  - by apply em_run in E as (v & k2 & _ & [= <- <-]).
Qed.

(** A rule is passed over only because an earlier one of its group has fired. *)
Lemma passed_over a story b : Pass a story b → ∀ i r, story !! i = Some (r, Passed) →
  ∃ g, r_activation_group r = Some g ∧
    (g ∈ f_groups a.1 ∨ ∃ j r', (j < i)%nat ∧ story !! j = Some (r', Fired) ∧ r_activation_group r' = Some g).
Proof.
  induction 1 as [s k|s k r story last Hg Hp IH|s k r k' story last Hg Hc Hp IH|s k r k' s' k'' story last Hg Hc Ha Hp IH];
    intros i r0 Hi; [done|..].
  all: destruct i as [|i]; simpl in Hi; [try discriminate|].
  1: { injection Hi as <-. unfold group_fired in Hg. destruct (r_activation_group r) as [g|] eqn:Eg; [|done]. exists g. split; [done|].
       left. apply existsb_exists in Hg as (x & Hx & ->%String.eqb_eq). by apply list_elem_of_In. }
  all: destruct (IH i r0 Hi) as (g & Hr & [Hin|(j & r' & Hj & Hs & Hg')]); exists g; (split; [done|]);
    [|right; exists (S j), r'; split; [lia|done]]; simpl in *; auto.
  unfold record_group in Hin. rewrite <-(actions_keep_groups _ _ _ _ _ Ha). destruct (r_activation_group r) as [g0|] eqn:E0; [|by left].
  simpl in Hin. apply elem_of_cons in Hin as [->|Hin]; [|by left]. right. exists 0%nat, r. split; [lia|done].
Qed.
End Passes.

(** ** Correctness *)

Section Correct.
Context `{UnicodeTables, BigDecimalOps, BigDecimalText, DecimalCrate, Doubles, TimeCrate, TimeText, TimeParse, Calendar,
  Regex, CaseTables} {natives : Natives}.

(** The cache holds only parses of the texts it lists. *)
Definition ruleset_cache_ok (cache : RulesetCache) : Prop :=
  (∀ src parsed, cache !! src = Some parsed → srl_parse src = Ok parsed.1 ∧ parsed.2 = positions_new src SRL_URI) ∧
  (size cache ≤ PARSED_RULESETS_PER_THREAD)%nat.

Lemma parsed_ruleset_fresh cache src : ruleset_cache_ok cache →
  (parsed_ruleset cache src).1 = (rs ← srl_parse src; Ok (rs, positions_new src SRL_URI)) ∧
  ruleset_cache_ok (parsed_ruleset cache src).2.
Proof.
  intros [Hc Hsz]. unfold ruleset_cache_ok, parsed_ruleset, RulesetCache in *. destruct (cache !! src) as [[rs p]|] eqn:E.
  - destruct (Hc _ _ E) as [-> Hp]. simpl in *. by subst p.
  - destruct (srl_parse src) as [rs|e] eqn:Ep; [|done]. split; [done|]. cbn [snd]. split.
    + intros src' parsed. destruct (decide (src = src')) as [<-|Hne].
      * rewrite lookup_insert_eq. by intros [= <-].
      * rewrite lookup_insert_ne by done. destruct (_ <=? _)%nat; [by rewrite lookup_empty|apply Hc].
    + destruct (_ <=? _)%nat eqn:El; [rewrite map_size_insert, lookup_empty, map_size_empty; unfold PARSED_RULESETS_PER_THREAD; lia|].
      apply Nat.leb_gt in El. rewrite map_size_insert, E. lia.
Qed.

(** What an evaluation is without the cache. *)
Definition evaluate_fresh {ambient : Ambient} (fuel : nat) (src : string) (input : FeelContext) : EM (list (string * FeelValue)) :=
  if utf8_valid src then
    match srl_parse src with
    | Ok rs => run_agenda fuel (positions_new src SRL_URI) rs input
    | Err e => λ k, (Err e, k)
    end
  else λ k, (Err (Rejected (mk_srl_error SRL_INVALID_UTF8 "ruleset is not valid UTF-8" 1 1 None)), k).

Lemma evaluate_through_cache {ambient : Ambient} fuel cache src input : ruleset_cache_ok cache →
  (srl_evaluate fuel cache src input).1 = evaluate_fresh fuel src input ∧ ruleset_cache_ok (srl_evaluate fuel cache src input).2.
Proof.
  intros Hc. unfold srl_evaluate, evaluate_fresh. destruct (utf8_valid src); [|done].
  destruct (parsed_ruleset_fresh cache src Hc) as [E Hc']. destruct (parsed_ruleset cache src) as [r cache']. simpl in *.
  destruct (srl_parse src) as [rs|e]; cbn [mbind result_bind] in E; by subst r.
Qed.

(** C15: the rule engine runs the abstract pass.  An evaluation through any state of the parse
    cache succeeds exactly when the text is a ruleset and a pass over its rules, sorted by
    falling salience and then by declaration, ends; what it returns is what that pass leaves.
    The agenda is a permutation of the rules, and the cache stays within its bound and holds
    only parses. *)
Theorem evaluation_is_a_pass {ambient : Ambient} fuel cache src input :
  ruleset_cache_ok cache →
  ruleset_cache_ok (srl_evaluate fuel cache src input).2 ∧
  (∀ rs, agenda rs ≡ₚ rules rs ∧ StronglySorted precedes (agenda rs)) ∧
  ∀ k output k', (srl_evaluate fuel cache src input).1 k = (Ok output, k') ↔
    utf8_valid src = true ∧
    ∃ rs story last, srl_parse src = Ok rs ∧ map fst story = agenda rs ∧
      Pass fuel (positions_new src SRL_URI) (mk_firing input [] [] [], k) story (last, k') ∧ output = publish last.
Proof.
  intros Hc. destruct (evaluate_through_cache fuel cache src input Hc) as [-> Hc']. split; [done|].
  split; [intros rs; split; [apply sort_by_perm|apply agenda_sorted]|]. intros k output k'. unfold evaluate_fresh.
  destruct (utf8_valid src); [|naive_solver]. split.
  - intros E. split; [done|]. destruct (srl_parse src) as [rs|e]; [|done]. apply em_run in E as (last & k1 & E & [= <- <-]).
    destruct (run_is_pass _ _ _ _ _ _ _ E) as (story & Hs & Hp). by exists rs, story, last.
  - intros (_ & rs & story & last & -> & Hs & Hp & ->). unfold run_agenda, mbind, em_bind.
    rewrite <-Hs. by rewrite (pass_is_run _ _ _ _ _ _ _ Hp).
Qed.

(** C26: what a pass leaves is what its fired rules say.  No activation group fires twice, and a
    rule is passed over only after a rule of its group has fired.  The keys of the output are
    the targets of the actions run, and [issues] when one of them reports; the list there has
    one issue of the frozen shape per report, whatever was set under that name.  The working
    context is the input with the targets overwritten, so later conditions read what earlier
    actions set. *)
Theorem pass_output {ambient : Ambient} fuel positions input k story last k' :
  Pass fuel positions (mk_firing input [] [] [], k) story (last, k') →
  let acts := actions_of (fired_of story) in
  NoDup (groups_of (fired_of story)) ∧
  (∀ i r, story !! i = Some (r, Passed) → ∃ j r', (j < i)%nat ∧ story !! j = Some (r', Fired) ∧
     is_Some (r_activation_group r) ∧ r_activation_group r' = r_activation_group r) ∧
  (∀ key, is_some (map_get key (publish last)) = true ↔ key ∈ targets_of acts ∨ (key = "issues" ∧ reports_of acts ≠ 0%nat)) ∧
  (reports_of acts ≠ 0%nat → ∃ l, map_get "issues" (publish last) = Some (List l) ∧ length l = reports_of acts ∧ Forall is_issue l) ∧
  (∀ key, map_get key (f_working last) = match map_get key (f_output last) with Some v => Some v | None => map_get key input end).
Proof.
  intros Hp acts. destruct (pass_fits _ _ _ _ _ _ Hp [] (start_fits input)) as [Hk Hw Hr Hi _ Ho]. simpl in Hk, Hr, Hw, Hi.
  fold acts in Hk, Hr. split; [done|]. split; [|split; [|split; [|done]]].
  - intros i r Hin. destruct (passed_over _ _ _ _ _ Hp i r Hin) as (g & Hg & [[]%elem_of_nil|(j & r' & Hj & Hs & Hg')]).
    exists j, r'. rewrite Hg. eauto.
  - intros key. unfold publish. rewrite <-Hr, <-Hk. destruct (f_issues last) as [|x l]; [simpl; naive_solver|].
    rewrite map_get_insert. destruct (String.eqb_spec "issues" key); simpl; naive_solver.
  - intros Hn. unfold publish. destruct (f_issues last) as [|x l]; [simpl in Hr; lia|].
    exists (x :: l). rewrite map_get_insert. done.
Qed.
End Correct.

(** ** Replay *)

Definition action_exprs (a : Action) : list FeelExpr :=
  match a with SetTo _ e _ => [e] | Report c p m _ => [c; p; m] end.
Definition rule_exprs (r : Rule) : list FeelExpr := r_condition r :: concat (map action_exprs (r_actions r)).

(** Neither computation reads its surroundings, and they end alike. *)
Definition same_em {A} (P : A → Prop) (m1 m2 : EM A) : Prop :=
  ∀ k1 k2, ∃ r, m1 k1 = (r, k1) ∧ m2 k2 = (r, k2) ∧ ∀ a, r = Ok a → P a.

Lemma same_em_ret {A} (P : A → Prop) a : P a → same_em P (mret a) (mret a).
Proof. intros Ha k1 k2. exists (Ok a). split; [done|]. split; [done|]. by intros a' [= <-]. Qed.

Lemma same_em_bind {A B} P (Q : B → Prop) (m1 m2 : EM A) (f1 f2 : A → EM B) :
  same_em P m1 m2 → (∀ a, P a → same_em Q (f1 a) (f2 a)) → same_em Q (m1 ≫= f1) (m2 ≫= f2).
Proof.
  intros Hm Hf k1 k2. destruct (Hm k1 k2) as (r & E1 & E2 & Hr). unfold mbind, em_bind. rewrite E1, E2.
  destruct r as [a|e]; [by apply Hf, Hr|by exists (Err e)].
Qed.

Lemma same_wrapping {A} (P : A → Prop) origin positions (m1 m2 : M A) :
  same _ P m1 m2 → same_em P (wrapping origin positions m1) (wrapping origin positions m2).
Proof.
  intros Hm k1 k2. destruct (Hm k1 k2) as (r & E1 & E2 & Hr). unfold wrapping. rewrite E1, E2. simpl. eexists.
  split; [done|]. split; [done|]. destruct r as [a|[e| |]]; try done. by intros a' [= <-]; apply Hr.
Qed.

Lemma same_em_fold {A B} (P : A → Prop) (Q : B → Prop) (f1 f2 : A → B → EM A) l acc :
  (∀ acc b, P acc → Q b → same_em P (f1 acc b) (f2 acc b)) → P acc → Forall Q l → same_em P (em_fold f1 l acc) (em_fold f2 l acc).
Proof.
  intros Hf Ha Hl. revert acc Ha. induction Hl as [|b l Hb Hl IH]; intros acc Ha; simpl; [by apply same_em_ret|].
  apply (same_em_bind P); auto.
Qed.

Section Replays.
Context `{UnicodeTables, BigDecimalOps, BigDecimalText, DecimalCrate, Doubles, TimeCrate, TimeText, TimeParse, Calendar,
  Regex, CaseTables} {natives : Natives}.

Definition pure_rule (r : Rule) : Prop := Forall (λ e, is_pure e = true ∧ plain_literals e) (rule_exprs r).

Lemma pure_is_quiet e : is_pure e = true → plain_literals e → quiet_body e.
Proof.
  intros Hp Hl. apply everywhere_and; [|done]. apply denied_everywhere. unfold is_pure, find_denied_calls in Hp. by destruct (denied_calls e).
Qed.

Section Two.
Context (Hnative : ∀ id args, Forall quiet args → quiet (native_call id args)) (amb1 amb2 : Ambient) (fuel : nat)
  (positions : FeelSourcePositions).

Lemma same_evaluated e origin s : quiet_body e → quiet_scope (f_working s) →
  same_em quiet (evaluated (ambient := amb1) fuel positions e origin s) (evaluated (ambient := amb2) fuel positions e origin s).
Proof. intros He Hs. apply same_wrapping. by apply quiet_evaluations. Qed.

Definition quiet_state (s : Firing) : Prop := quiet_scope (f_working s).
Definition quiet_action (a : Action) : Prop := Forall quiet_body (action_exprs a).

Lemma same_action s a : quiet_state s → quiet_action a →
  same_em quiet_state (run_action (ambient := amb1) fuel positions s a) (run_action (ambient := amb2) fuel positions s a).
Proof.
  intros Hs Ha. destruct a as [code path message [[o1 o2] o3]|target expr span_]; simpl.
  - inversion Ha as [|? ? Hc Ha1]; subst. inversion Ha1 as [|? ? Hp Ha2]; subst. inversion Ha2 as [|? ? Hm _]; subst.
    do 3 (eapply same_em_bind; [by apply same_evaluated|]; intros ? ?). by apply same_em_ret.
  - inversion Ha as [|? ? He _]; subst. eapply same_em_bind; [by apply same_evaluated|]. intros v Hv. apply same_em_ret.
    by apply ok_insert.
Qed.

Lemma same_rule s r : quiet_state s → Forall quiet_body (rule_exprs r) →
  same_em quiet_state (run_rule (ambient := amb1) fuel positions s r) (run_rule (ambient := amb2) fuel positions s r).
Proof.
  intros Hs Hr. inversion Hr as [|? ? Hc Ha]; subst. unfold run_rule. destruct (group_fired r s); [by apply same_em_ret|].
  eapply (same_em_bind (λ _, True)).
  - apply same_wrapping. unfold eval_boolean. eapply same_bind; [by apply quiet_evaluations|]. intros v _. by apply same_lift.
  - intros [] _; [|by apply same_em_ret]. apply (same_em_bind quiet_state).
    + apply (same_em_fold _ quiet_action); [apply same_action|done|]. clear -Ha.
      induction (r_actions r) as [|a l IH]; [constructor|]. simpl in Ha. apply Forall_app in Ha as [Ha Hl]. constructor; auto.
    + intros s' Hs'. apply same_em_ret. unfold record_group. by destruct (r_activation_group r).
Qed.

Lemma same_agenda rs input : Forall pure_rule (rules rs) → quiet_scope input →
  same_em (λ _, True) (run_agenda (ambient := amb1) fuel positions rs input) (run_agenda (ambient := amb2) fuel positions rs input).
Proof.
  intros Hr Hi. apply (same_em_bind quiet_state); [|intros s _; by apply same_em_ret].
  apply (same_em_fold _ (λ r, Forall quiet_body (rule_exprs r))); [by apply same_rule|done|].
  unfold agenda. rewrite sort_by_perm. eapply Forall_impl; [exact Hr|]. intros r Hq. eapply Forall_impl; [exact Hq|].
  intros e [? ?]. by apply pure_is_quiet.
Qed.
End Two.

(** A ruleset free of denied builtins replays.  When the conditions and the action arguments
    of every rule pass the determinism check of FEEL, and the functions of the input read no
    surroundings, an evaluation has one outcome, output or error, under every clock and entropy
    source and every state of the parse cache, and consumes no reading of them. *)
Theorem pure_ruleset_replays src rs input fuel cache1 cache2 (amb1 amb2 : Ambient) k1 k2 :
  srl_parse src = Ok rs → Forall pure_rule (rules rs) → quiet_scope input →
  (∀ id args, Forall quiet args → quiet (native_call id args)) →
  ruleset_cache_ok cache1 → ruleset_cache_ok cache2 →
  ∃ r, (srl_evaluate (ambient := amb1) fuel cache1 src input).1 k1 = (r, k1) ∧
       (srl_evaluate (ambient := amb2) fuel cache2 src input).1 k2 = (r, k2).
Proof.
  intros Hp Hr Hi Hn Hc1 Hc2. rewrite (proj1 (evaluate_through_cache (ambient := amb1) fuel cache1 src input Hc1)).
  rewrite (proj1 (evaluate_through_cache (ambient := amb2) fuel cache2 src input Hc2)). unfold evaluate_fresh. rewrite Hp.
  destruct (utf8_valid src); [|by eexists].
  destruct (same_agenda Hn amb1 amb2 fuel (positions_new src SRL_URI) rs input Hr Hi k1 k2) as (r & E1 & E2 & _). by exists r.
Qed.
End Replays.

(** ** Instances *)

#[local] Existing Instances ascii_tables plain_time_parse plain_time_text plain_decimal_crate plain_calendar plain_doubles
  plain_regex plain_case plain_natives.

Definition sample_input : FeelContext := [("x", num 3)].

Lemma empty_cache_ok : ruleset_cache_ok ∅.
Proof.
  unfold ruleset_cache_ok, RulesetCache.
  split; [intros src parsed; by rewrite lookup_empty|rewrite map_size_empty; unfold PARSED_RULESETS_PER_THREAD; lia].
Qed.

(** The higher rule fires first and its group is spent; the last one reports. *)
Lemma sample_run :
  (srl_evaluate (ambient := still_ambient) 1 ∅ sample_rules sample_input).1 0%nat =
  (Ok [("issues", List [issue_map "4" "2" "true"]); ("who", num 4)], 0%nat).
Proof. vm_compute. reflexivity. Qed.

Lemma evaluation_is_a_pass_witness :
  ∃ story last, Pass (ambient := still_ambient) 1 (positions_new sample_rules SRL_URI) (mk_firing sample_input [] [] [], 0%nat) story (last, 0%nat) ∧
    [("issues", List [issue_map "4" "2" "true"]); ("who", num 4)] = publish last.
Proof.
  destruct (proj2 (proj2 (evaluation_is_a_pass (ambient := still_ambient) 1 ∅ sample_rules sample_input empty_cache_ok))
    0%nat [("issues", List [issue_map "4" "2" "true"]); ("who", num 4)] 0%nat) as [Hr _].
  destruct (Hr sample_run) as (_ & rs & story & last & _ & _ & Hp & Ho). by exists story, last.
Defined.

Definition sample_ruleset : Ruleset := match srl_parse sample_rules with Ok rs => rs | Err _ => mk_ruleset [] end.

Lemma sample_ruleset_parses : srl_parse sample_rules = Ok sample_ruleset.
Proof. pose proof sample_rules_parse as H. unfold sample_ruleset. destruct (srl_parse sample_rules); [done|discriminate H]. Qed.

Lemma sample_agenda_runs :
  (match em_fold (run_rule (ambient := still_ambient) 1 (positions_new sample_rules SRL_URI)) (agenda sample_ruleset)
     (mk_firing sample_input [] [] []) 0%nat with (Ok _, k) => (k =? 0)%nat | _ => false end) = true.
Proof. vm_compute. reflexivity. Qed.

Lemma sample_pass : ∃ story last, map fst story = agenda sample_ruleset ∧
  Pass (ambient := still_ambient) 1 (positions_new sample_rules SRL_URI) (mk_firing sample_input [] [] [], 0%nat) story (last, 0%nat).
Proof.
  pose proof sample_agenda_runs as Hr.
  pose proof (run_is_pass (ambient := still_ambient) 1 (positions_new sample_rules SRL_URI) (agenda sample_ruleset)
    (mk_firing sample_input [] [] []) 0) as Hp. revert Hr Hp. generalize (agenda sample_ruleset) as l. intros l Hr Hp.
  destruct (em_fold _ _ _ _) as [[last|e] k]; [|discriminate Hr]. apply Nat.eqb_eq in Hr as ->.
  destruct (Hp last 0%nat eq_refl) as (story & Hs & Hpass). exists story, last. split; [exact Hs|exact Hpass].
Qed.

Lemma pass_output_witness : ∃ story, map fst story = agenda sample_ruleset ∧ NoDup (groups_of (fired_of story)).
Proof.
  destruct sample_pass as (story & last & Hs & Hp). exists story. split; [exact Hs|].
  exact (proj1 (pass_output (ambient := still_ambient) 1 (positions_new sample_rules SRL_URI) sample_input 0 story last 0 Hp)).
Defined.

Lemma pure_ruleset_replays_witness :
  ∃ r, (srl_evaluate (ambient := still_ambient) 1 ∅ sample_rules sample_input).1 0%nat = (r, 0%nat) ∧
       (srl_evaluate (ambient := ticking_ambient) 1 ∅ sample_rules sample_input).1 5%nat = (r, 5%nat).
Proof.
  apply (pure_ruleset_replays sample_rules sample_ruleset sample_input 1 ∅ ∅ still_ambient ticking_ambient 0 5).
  - apply sample_ruleset_parses.
  - vm_compute. repeat constructor.
  - repeat constructor.
  - intros id args. apply natives_list.
  - apply empty_cache_ok.
  - apply empty_cache_ok.
Defined.
