(* ===== verification/DmnSyntax.v ===== *)
(** * Decision tables: XML, loader and unary tests ([sutra-dmn/src/xml.rs], [loader.rs], [model.rs],
    [unary_test.rs], [error.rs])

    The events of the XML reader, which is a third-party crate, are the argument of the tree
    builder; the rest of the loader works on the tree.  A unary test is rewritten, as text, into
    an expression over the name [input].

    The theorems: a tree is rebuilt from its events ([tree_events_round_trip]), and definitions
    written as XML are loaded back whole ([definitions_load_back]); rewriting a unary test ends
    on every text, and panics exactly when an alternative of it is blank
    ([unary_test_total]). *)
From Stdlib Require Import ZArith Lia Bool Ascii String.
From stdpp Require Import base option strings list.
From S2P Require Import Prelude Texts Decimal FeelValue Temporal FeelText TemporalParse FeelLexer.

Open Scope string_scope.
Open Scope list_scope.
Open Scope Z_scope.

(** ** Text *)

Definition trim_text (s : string) : string := encode (trim_chars (chars s)).
Definition is_blank (s : string) : bool := match trim_chars (chars s) with [] => true | _ => false end.

(** [.filter(|s| !s.trim().is_empty())]. *)
Definition not_blank_text (o : option string) : option string :=
  match o with Some s => if is_blank s then None else Some s | None => None end.

(** ** Errors *)

Definition DMN_FILE_PARSE_ERROR : string := "SUTRA.VALIDATE.DMN.FILE_PARSE_ERROR".
Definition DMN_UNIQUE_VIOLATION : string := "SUTRA.VALIDATE.DMN.UNIQUE_VIOLATION".
Definition DMN_RULESET_FAILED : string := "SUTRA.VALIDATE.DMN.RULESET_FAILED".
Definition DMN_ANY_HIT_POLICY_AMBIGUOUS : string := "SUTRA.VALIDATE.DMN.ANY_HIT_POLICY_AMBIGUOUS".
Definition DMN_PRIORITY_MISSING_OUTPUT_VALUES : string := "SUTRA.VALIDATE.DMN.PRIORITY_MISSING_OUTPUT_VALUES".
Definition DMN_OUTPUT_ORDER_MISSING_OUTPUT_VALUES : string := "SUTRA.VALIDATE.DMN.OUTPUT_ORDER_MISSING_OUTPUT_VALUES".

Record DmnError : Type := mk_dmn_error { de_code : string; de_message : string }.

(** [DmnError::parse]. *)
Definition dmn_parse_error (message : string) : DmnError := mk_dmn_error DMN_FILE_PARSE_ERROR message.

(** ** The tree of an XML document *)

Record XmlAttr : Type := mk_attr { xa_ns : option string; xa_local : string; xa_value : string }.

Inductive XmlElement : Type :=
| mk_element (ns : option string) (local : string) (attrs : list XmlAttr) (children : list XmlElement) (text : string).

Definition el_ns (e : XmlElement) : option string := let 'mk_element ns _ _ _ _ := e in ns.
Definition el_local (e : XmlElement) : string := let 'mk_element _ local _ _ _ := e in local.
Definition el_attrs (e : XmlElement) : list XmlAttr := let 'mk_element _ _ attrs _ _ := e in attrs.
Definition el_children (e : XmlElement) : list XmlElement := let 'mk_element _ _ _ children _ := e in children.
Definition el_text (e : XmlElement) : string := let 'mk_element _ _ _ _ text := e in text.

Definition opt_eqb (a b : option string) : bool :=
  match a, b with Some x, Some y => String.eqb x y | None, None => true | _, _ => false end.

Definition attr (e : XmlElement) (ns : option string) (local : string) : option string :=
  xa_value <$> List.find (λ a, opt_eqb (xa_ns a) ns && String.eqb (xa_local a) local) (el_attrs e).

Definition child (e : XmlElement) (local : string) : option XmlElement :=
  List.find (λ c, String.eqb (el_local c) local) (el_children e).

Definition child_ns (e : XmlElement) (ns local : string) : option XmlElement :=
  List.find (λ c, opt_eqb (el_ns c) (Some ns) && String.eqb (el_local c) local) (el_children e).

Definition children_named (e : XmlElement) (local : string) : list XmlElement :=
  List.filter (λ c, String.eqb (el_local c) local) (el_children e).

Fixpoint descendants_named (local : string) (e : XmlElement) : list XmlElement :=
  let 'mk_element _ _ _ children _ := e in
  concat (map (λ c, (if String.eqb (el_local c) local then [c] else []) ++ descendants_named local c) children).

Definition trimmed_text (e : XmlElement) : string := trim_text (el_text e).

(** ** Events *)

(** An attribute of a start tag as the reader gives it, its name resolved. *)
Record RawAttr : Type := mk_raw_attr { ra_key : string; ra_ns : option string; ra_local : string; ra_value : result string string }.

Inductive XmlEvent : Type :=
| StartTag (ns : option string) (local : string) (attributes : list (result string RawAttr))
| EndTag
| TextEvent (decoded : result string string)
| GeneralRef (char_ref : result string (option string)) (name : result string string)
| CData (text : string)
| DocType
| OtherEvent.

(** The events of a document, up to its end or to an error of the reader. *)
Class XmlReader : Type := { read_events : string → list (result string XmlEvent) }.

(** The attributes that are not namespace declarations. *)
Fixpoint element_attrs (l : list (result string RawAttr)) : result string (list XmlAttr) :=
  match l with
  | [] => Ok []
  | a :: l =>
      a ← a;
      if String.eqb (ra_key a) "xmlns" || starts_with "xmlns:" (ra_key a) then element_attrs l
      else
        value ← ra_value a;
        attrs ← element_attrs l;
        Ok (mk_attr (ra_ns a) (ra_local a) value :: attrs)
  end.

(** [resolve_predefined_entity]: the five entities of XML. *)
Definition predefined_entity (name : string) : option string :=
  map_get name [("lt", "<"); ("gt", ">"); ("amp", "&"); ("apos", "'"); ("quot", String DQUOTE "")].

Definition push_reference (char_ref : result string (option string)) (name : result string string) : result string string :=
  c ← char_ref;
  match c with
  | Some c => Ok c
  | None =>
      name ← name;
      match predefined_entity name with
      | Some rep => Ok rep
      | None => Err ("unknown entity reference '&" +:+ name +:+ ";'")
      end
  end.

Definition push_text (stack : list XmlElement) (t : string) : list XmlElement :=
  match stack with
  | mk_element ns local attrs children text :: rest => mk_element ns local attrs children (text +:+ t) :: rest
  | [] => []
  end.

Definition push_child (parent el : XmlElement) : XmlElement :=
  let 'mk_element ns local attrs children text := parent in mk_element ns local attrs (children ++ [el]) text.

(** The loop over the events: the open elements, innermost first, and the root when it is closed. *)
Fixpoint build_tree (stack : list XmlElement) (root : option XmlElement) (events : list (result string XmlEvent))
    : result string XmlElement :=
  match events with
  | [] =>
      match stack, root with
      | _ :: _, _ => Err "premature end of document (unclosed element)"
      | [], Some root => Ok root
      | [], None => Err "no document element"
      end
  | Err e :: _ => Err e
  | Ok event :: events =>
      match event with
      | StartTag ns local attributes =>
          attrs ← element_attrs attributes;
          build_tree (mk_element ns local attrs [] "" :: stack) root events
      | EndTag =>
          match stack with
          | [] => Err "unbalanced end tag"
          | el :: parent :: rest => build_tree (push_child parent el :: rest) root events
          | [el] => if is_some root then Err "multiple document elements" else build_tree [] (Some el) events
          end
      | TextEvent decoded =>
          match stack with
          | [] => build_tree stack root events
          | _ => t ← decoded; build_tree (push_text stack t) root events
          end
      | GeneralRef char_ref name =>
          match stack with
          | [] => build_tree stack root events
          | _ => t ← push_reference char_ref name; build_tree (push_text stack t) root events
          end
      | CData text => build_tree (push_text stack text) root events
      | DocType => Err "DOCTYPE is not allowed"
      | OtherEvent => build_tree stack root events
      end
  end.

Definition xml_parse `{XmlReader} (bytes : string) : result string XmlElement := build_tree [] None (read_events bytes).

(** ** The decision model *)

Inductive HitPolicy : Type := HpUnique | HpFirst | HpCollect | HpAny | HpPriority | HpOutputOrder | HpRuleOrder.

Record DmnInputClause : Type := mk_input { ic_id : string; ic_expression : string; ic_type_ref : option string }.

Record DmnOutputClause : Type := mk_output {
  oc_id : string; oc_name : option string; oc_type_ref : option string; oc_diagnostic_code : option string;
  oc_output_values : list string; oc_default_output : option string }.

Record DmnRule : Type := mk_dmn_rule { dr_id : string; dr_input_entries : list string; dr_output_entries : list string }.

Record DmnDecisionTable : Type := mk_table {
  dt_hit_policy : HitPolicy; dt_inputs : list DmnInputClause; dt_outputs : list DmnOutputClause; dt_rules : list DmnRule }.

Record DmnDecision : Type := mk_decision { dd_id : string; dd_name : string; dd_table : DmnDecisionTable }.

Record DmnDefinitions : Type := mk_definitions { df_namespace : string; df_decisions : list DmnDecision }.

Definition decision (d : DmnDefinitions) (id : string) : option DmnDecision :=
  List.find (λ x, String.eqb (dd_id x) id) (df_decisions d).
Definition decision_ids (d : DmnDefinitions) : list string := map dd_id (df_decisions d).

(** ** The loader *)

Definition BPM_ANNOT_NS : string := "urn:sutra:dmn:annotations".

Definition required (value : option string) (element_name attr_name : string) : result DmnError string :=
  match not_blank_text value with
  | Some v => Ok v
  | None => Err (dmn_parse_error ("<" +:+ element_name +:+ "> missing required @" +:+ attr_name))
  end.

(** The code an [<output>] element declares, with its id. *)
Definition bpm_code (el : XmlElement) : option (string * string) :=
  output_id ← not_blank_text (attr el None "id");
  match not_blank_text (attr el (Some BPM_ANNOT_NS) "code") with
  | Some code => Some (output_id, trim_text code)
  | None =>
      dc ← child_ns el BPM_ANNOT_NS "diagnosticCode";
      if str_is_empty (trimmed_text dc) then None else Some (output_id, trimmed_text dc)
  end.

Definition collect_bpm_codes (root : XmlElement) : list (string * string) := omap bpm_code (descendants_named "output" root).

Definition lookup_code (codes : list (string * string)) (output_id : string) : option string :=
  snd <$> List.find (λ c, String.eqb c.1 output_id) codes.

Definition map_hit_policy (raw : option string) : result DmnError HitPolicy :=
  match raw with
  | None => Ok HpUnique
  | Some raw =>
      match map_get raw [("UNIQUE", HpUnique); ("FIRST", HpFirst); ("COLLECT", HpCollect); ("ANY", HpAny);
                         ("PRIORITY", HpPriority); ("OUTPUT ORDER", HpOutputOrder); ("RULE ORDER", HpRuleOrder)] with
      | Some p => Ok p
      | None => Err (dmn_parse_error ("Unknown hitPolicy '" +:+ raw +:+ "'"))
      end
  end.

(** The text of an optional [<text>] child. *)
Definition text_child (e : XmlElement) : option string := trimmed_text <$> child e "text".

Definition build_input (input : XmlElement) (decision_id : string) : result DmnError DmnInputClause :=
  id ← required (attr input None "id") "input" "id";
  match child input "inputExpression" with
  | None => Err (dmn_parse_error ("<input id=" +:+ dq id +:+ "> in decision " +:+ decision_id +:+ " has no <inputExpression>"))
  | Some expr =>
      let text := default "" (text_child expr) in
      if str_is_empty text then Err (dmn_parse_error ("<inputExpression> for input " +:+ id +:+ " has no <text>"))
      else Ok (mk_input id text (not_blank_text (attr expr None "typeRef")))
  end.

(** The pieces between the commas outside double quotes. *)
Fixpoint split_unquoted (in_quotes : bool) (current : list Z) (l : list Z) : list (list Z) :=
  match l with
  | [] => [current]
  | c :: l =>
      if c =? 34 then split_unquoted (negb in_quotes) (current ++ [c]) l
      else if (c =? ch ",") && negb in_quotes then current :: split_unquoted in_quotes [] l
      else split_unquoted in_quotes (current ++ [c]) l
  end.

(** Without its double quotes, when it has both. *)
Definition strip_quotes (t : list Z) : list Z :=
  match t with
  | c :: r => if (c =? 34) && negb (bool_decide (r = [])) && (List.last r 0 =? 34) then removelast r else t
  | [] => t
  end.

Definition parse_output_values (text : string) : list string :=
  if str_is_empty text then []
  else omap (λ raw, match trim_chars raw with [] => None | t => Some (encode (strip_quotes t)) end) (split_unquoted false [] (chars text)).

Definition build_output (output : XmlElement) (bpm_codes : list (string * string)) : result DmnError DmnOutputClause :=
  id ← required (attr output None "id") "output" "id";
  Ok (mk_output id (not_blank_text (attr output None "name")) (not_blank_text (attr output None "typeRef")) (lookup_code bpm_codes id)
    (default [] (ov ← child output "outputValues"; t ← text_child ov; Some (parse_output_values t)))
    (d ← child output "defaultOutputEntry"; text_child d)).

Definition entry_text (entry : XmlElement) : string := default "" (text_child entry).

Definition build_rule (rule : XmlElement) : result DmnError DmnRule :=
  id ← required (attr rule None "id") "rule" "id";
  Ok (mk_dmn_rule id (map entry_text (children_named rule "inputEntry")) (map entry_text (children_named rule "outputEntry"))).

(** In order, up to the first error. *)
Fixpoint map_result {A B} (f : A → result DmnError B) (l : list A) : result DmnError (list B) :=
  match l with [] => Ok [] | a :: l => b ← f a; bs ← map_result f l; Ok (b :: bs) end.

Definition build_table (table : XmlElement) (decision_id : string) (bpm_codes : list (string * string)) : result DmnError DmnDecisionTable :=
  hit_policy ← map_hit_policy (attr table None "hitPolicy");
  inputs ← map_result (λ el, build_input el decision_id) (children_named table "input");
  outputs ← map_result (λ el, build_output el bpm_codes) (children_named table "output");
  rules ← map_result build_rule (children_named table "rule");
  Ok (mk_table hit_policy inputs outputs rules).

Definition build_decision (bpm_codes : list (string * string)) (d : XmlElement) : result DmnError DmnDecision :=
  id ← required (attr d None "id") "decision" "id";
  match child d "decisionTable" with
  | None => Err (dmn_parse_error ("<decision id=" +:+ dq id +:+ "> has no <decisionTable>"))
  | Some table =>
      table ← build_table table id bpm_codes;
      Ok (mk_decision id (default id (not_blank_text (attr d None "name"))) table)
  end.

Definition build_model (root : XmlElement) (bpm_codes : list (string * string)) : result DmnError DmnDefinitions :=
  decisions ← map_result (build_decision bpm_codes) (children_named root "decision");
  Ok (mk_definitions (default "" (attr root None "namespace")) decisions).

(** [DmnFileLoader::load]. *)
Definition dmn_load `{XmlReader} (dmn_bytes : string) : result DmnError DmnDefinitions :=
  if str_is_empty dmn_bytes then Err (dmn_parse_error "DMN body is empty")
  else
    match xml_parse dmn_bytes with
    | Err e => Err (dmn_parse_error ("DMN parse failed: " +:+ e))
    | Ok root =>
        if String.eqb (el_local root) "definitions" then build_model root (collect_bpm_codes root)
        else Err (dmn_parse_error ("Expected <definitions> as document element, got <" +:+ el_local root +:+ ">"))
    end.

(** ** Unary tests *)

(** The pieces between the commas that are in no string and, counting the open brackets, at no
    depth: the first one and the others. *)
Fixpoint top_level (depth : Z) (in_string : bool) (l : list Z) : list Z * list (list Z) :=
  match l with
  | [] => ([], [])
  | c :: r =>
      let more depth in_string := let '(s, ss) := top_level depth in_string r in (c :: s, ss) in
      if in_string then more depth (negb (c =? 34))
      else if c =? 34 then more depth true
      else if (c =? ch "(") || (c =? ch "[") then more (depth + 1) false
      else if (c =? ch ")") || (c =? ch "]") then more (depth - 1) false
      else if (c =? ch ",") && (depth <=? 0) then let '(s, ss) := top_level depth false r in ([], s :: ss)
      else more depth false
  end.

Definition split_top_level_commas (s : list Z) : option (list (list Z)) :=
  match top_level 0 false s with (_, []) => None | (s, ss) => Some (map trim_chars (s :: ss)) end.

(** [str::strip_prefix] on characters. *)
Fixpoint strip_chars (p l : list Z) : option (list Z) :=
  match p, l with
  | [], _ => Some l
  | x :: p, c :: l => if c =? x then strip_chars p l else None
  | _ :: _, [] => None
  end.

Fixpoint contains_chars (p l : list Z) : bool :=
  is_some (strip_chars p l) || match l with [] => false | _ :: r => contains_chars p r end.

Definition looks_like_range_or_list (s : list Z) : bool :=
  match s with
  | c :: _ => (c =? ch "[") || (c =? ch "]") || ((c =? ch "(") && contains_chars (chars "..") s)
  | [] => false
  end.

Definition looks_like_literal (s : list Z) : bool :=
  match s with
  | [] => false
  | first :: rest =>
      let second_is_digit := match rest with c :: _ => is_digit c | [] => false end in
      is_digit first || (first =? 34) || (((first =? ch "-") || (first =? ch "+")) && second_is_digit)
      || String.eqb (encode s) "true" || String.eqb (encode s) "false"
  end.

(** The words between spaces and dots. *)
Fixpoint name_words (l : list Z) : list Z * list (list Z) :=
  match l with
  | [] => ([], [])
  | c :: r => let '(w, ws) := name_words r in if (c =? 32) || (c =? ch ".") then ([], w :: ws) else (c :: w, ws)
  end.

Definition reserved_words : list string := ["and"; "or"; "not"; "in"; "true"; "false"; "null"].

Section Unary.
Context `{UnicodeTables}.

Definition looks_like_bare_reference (s : list Z) : bool :=
  let trimmed := trim_chars s in
  match trimmed with
  | [] => false
  | first :: _ =>
      (is_alphabetic first || (first =? ch "_"))
      && forallb (λ c, is_alphanumeric c || (c =? ch "_") || (c =? 32) || (c =? 39) || (c =? ch ".")) trimmed
      && negb (contains_chars (chars "..") trimmed || (first =? ch ".") || (List.last trimmed 0 =? ch "."))
      && negb (let '(w, ws) := name_words trimmed in existsb (λ w, existsb (String.eqb (encode w)) reserved_words) (w :: ws))
  end.

Definition strip_full_not_wrapper (s : list Z) : option (list Z) :=
  inner ← strip_chars (chars "not(") s;
  match inner with
  | [] => None
  | _ => if List.last inner 0 =? ch ")" then Some (removelast inner) else None
  end.

(** A test that is one alternative. *)
Definition comparison_operators : list string := [">="; "<="; "!="; ">"; "<"; "="].

Fixpoint comparison (ops : list string) (s : list Z) : option (list Z) :=
  match ops with
  | [] => None
  | op :: ops =>
      match strip_chars (chars op) s with
      | Some rest => Some (chars ("input " +:+ op +:+ " ") ++ trim_chars rest)
      | None => comparison ops s
      end
  end.

Definition single_test (s : list Z) : list Z :=
  match comparison comparison_operators s with
  | Some full => full
  | None =>
      if looks_like_range_or_list s then chars "input in " ++ s
      else if looks_like_literal s then chars "input = " ++ s
      else
        match strip_full_not_wrapper s with
        | Some inner =>
            if looks_like_bare_reference (trim_chars inner) then chars "not(input in " ++ trim_chars inner ++ chars ")" else s
        | None => if looks_like_bare_reference s then chars "input in " ++ s else s
        end
  end.

Fixpoint join_or (l : list (list Z)) : list Z :=
  match l with [] => [] | [s] => s | s :: l => s ++ chars " or " ++ join_or l end.

Definition mapM_chars (f : list Z → result (fault DmnError) (list Z)) : list (list Z) → result (fault DmnError) (list (list Z)) :=
  fix go l := match l with [] => Ok [] | s :: l => t ← f s; ts ← go l; Ok (t :: ts) end.

Fixpoint full_expression (fuel : nat) (unary_test : list Z) : result (fault DmnError) (list Z) :=
  match fuel with
  | O => Err OutOfFuel
  | S fuel =>
      let trimmed := trim_chars unary_test in
      match trimmed with
      | [] => Err Panicked
      | _ =>
          if String.eqb (encode trimmed) "-" then Ok (chars "true")
          else
            match split_top_level_commas trimmed with
            | Some segments => tests ← mapM_chars (full_expression fuel) segments; Ok (join_or tests)
            | None => Ok (single_test trimmed)
            end
      end
  end.

(** The pieces of a test have no commas of their own: one level of recursion is enough. *)
Definition to_full_expression (unary_test : string) : result (fault DmnError) string :=
  full ← full_expression 2 (chars unary_test); Ok (encode full).
End Unary.

(** ** The rewriting of unary tests ends *)

Definition uncut (depth : Z) (in_string : bool) (l : list Z) : Prop := (top_level depth in_string l).2 = [].

Lemma uncut_cons d q c l : uncut d q (c :: l) ↔
  if q then uncut d (negb (c =? 34)) l
  else if c =? 34 then uncut d true l
  else if (c =? ch "(") || (c =? ch "[") then uncut (d + 1) false l
  else if (c =? ch ")") || (c =? ch "]") then uncut (d - 1) false l
  else if (c =? ch ",") && (d <=? 0) then False
  else uncut d false l.
Proof. unfold uncut. simpl. repeat case_match; simpl; naive_solver. Qed.

Lemma top_level_pieces l : ∀ d q, (∀ d', d <= d' → uncut d' q (top_level d q l).1) ∧ Forall (uncut 0 false) (top_level d q l).2.
Proof.
  induction l as [|c l IH]; intros d q; simpl; [by split|].
  assert (Hmore : ∀ e p, (∀ d', d <= d' → uncut d' q (c :: (top_level e p l).1)) →
    let r := (let '(s, ss) := top_level e p l in (c :: s, ss)) in (∀ d', d <= d' → uncut d' q r.1) ∧ Forall (uncut 0 false) r.2).
  { intros e p Hc. destruct (IH e p) as [_ Hp]. by destruct (top_level e p l). }
  destruct q; [apply Hmore; intros d' Hd; rewrite uncut_cons; by apply IH|].
  destruct (c =? 34) eqn:E1; [apply Hmore; intros d' Hd; rewrite uncut_cons, E1; by apply IH|].
  destruct ((c =? ch "(") || (c =? ch "[")) eqn:E2; [apply Hmore; intros d' Hd; rewrite uncut_cons, E1, E2; apply IH; lia|].
  destruct ((c =? ch ")") || (c =? ch "]")) eqn:E3; [apply Hmore; intros d' Hd; rewrite uncut_cons, E1, E2, E3; apply IH; lia|].
  destruct ((c =? ch ",") && (d <=? 0)) eqn:E4.
  - destruct (IH d false) as [Hs Hp]. destruct (top_level d false l) as [s ss]. split; [done|]. constructor; [apply Hs|done].
    apply andb_prop in E4 as [_ ?%Z.leb_le]. lia.
  - apply Hmore. intros d' Hd. rewrite uncut_cons, E1, E2, E3.
    assert ((c =? ch ",") && (d' <=? 0) = false) as ->; [|by apply IH].
    apply andb_false_iff in E4 as [->|?%Z.leb_gt]; [done|]. apply andb_false_iff. right. apply Z.leb_gt. lia.
Qed.

Lemma uncut_prefix a b : ∀ d q, uncut d q (a ++ b) → uncut d q a.
Proof. induction a as [|c a IH]; intros d q; [done|]. simpl app. rewrite !uncut_cons. repeat case_match; eauto. Qed.

Lemma drop_white_uncut d l : uncut d false l → uncut d false (drop_white l).
Proof.
  induction l as [|c l IH]; [done|]. intros Hu. simpl. destruct (is_white c) eqn:E; [|done]. apply IH. rewrite uncut_cons in Hu.
  assert (c ≠ 34 ∧ c ≠ 40 ∧ c ≠ 91 ∧ c ≠ 41 ∧ c ≠ 93) by (repeat split; intros ->; discriminate).
  destruct (Z.eqb_spec c 34); [lia|]. destruct (Z.eqb_spec c (ch "(")); [naive_solver|]. destruct (Z.eqb_spec c (ch "[")); [naive_solver|].
  destruct (Z.eqb_spec c (ch ")")); [naive_solver|]. destruct (Z.eqb_spec c (ch "]")); [naive_solver|]. simpl in Hu.
  by destruct ((c =? ch ",") && (d <=? 0)).
Qed.

Lemma drop_white_suffix l : ∃ w, l = w ++ drop_white l.
Proof. induction l as [|c l [w IH]]; [by exists []|]. simpl. destruct (is_white c); [exists (c :: w); simpl; congruence|by exists []]. Qed.

Lemma trim_uncut d l : uncut d false l → uncut d false (trim_chars l).
Proof.
  intros Hu%drop_white_uncut. unfold trim_chars. destruct (drop_white_suffix (rev (drop_white l))) as [w Hw].
  apply (f_equal (@rev Z)) in Hw. rewrite rev_involutive, rev_app_distr in Hw. rewrite Hw in Hu. by eapply uncut_prefix.
Qed.

Lemma split_uncut l : uncut 0 false l → split_top_level_commas l = None.
Proof. unfold uncut, split_top_level_commas. destruct (top_level 0 false l) as [s ss]. simpl. by intros ->. Qed.

Lemma segments_uncut l segments : split_top_level_commas l = Some segments → Forall (uncut 0 false) segments.
Proof.
  unfold split_top_level_commas. destruct (top_level_pieces l 0 false) as [Hs Hp].
  destruct (top_level 0 false l) as [s [|s' ss]] eqn:E; [done|]. intros [= <-].
  change (Forall (uncut 0 false) (map trim_chars (s :: s' :: ss))). rewrite List.Forall_map.
  constructor; [by apply trim_uncut, Hs|]. eapply Forall_impl; [exact Hp|]. intros x. apply trim_uncut.
Qed.

Section UnaryTotal.
Context `{UnicodeTables}.

Definition blank_chars (l : list Z) : bool := match trim_chars l with [] => true | _ => false end.

Definition alternative (s : list Z) : list Z := if String.eqb (encode (trim_chars s)) "-" then chars "true" else single_test (trim_chars s).

Lemma uncut_test fuel s : uncut 0 false s →
  full_expression (S fuel) s = if blank_chars s then Err Panicked else Ok (alternative s).
Proof.
  intros Hu%trim_uncut%split_uncut. unfold blank_chars, alternative. simpl.
  destruct (trim_chars s) as [|c l] eqn:E; [done|]. rewrite Hu. by destruct (String.eqb _ "-").
Qed.

Lemma uncut_tests fuel l : Forall (uncut 0 false) l →
  mapM_chars (full_expression (S fuel)) l = if existsb blank_chars l then Err Panicked else Ok (map alternative l).
Proof.
  induction 1 as [|s l Hs Hl IH]; [done|]. cbn [mapM_chars existsb map]. rewrite uncut_test by done. destruct (blank_chars s); [done|].
  cbn [mbind result_bind orb]. fold (mapM_chars (full_expression (S fuel))). rewrite IH. by destruct (existsb _ l).
Qed.

(** The alternatives of a test: what its top-level commas cut it into. *)
Definition alternatives (t : list Z) : list (list Z) :=
  if String.eqb (encode (trim_chars t)) "-" then [t] else default [t] (split_top_level_commas (trim_chars t)).

Lemma full_expression_alternatives fuel t :
  full_expression (S (S fuel)) t = if blank_chars t || existsb blank_chars (alternatives t) then Err Panicked
    else Ok (join_or (map alternative (alternatives t))).
Proof.
  unfold alternatives. remember (S fuel) as n eqn:En. cbn [full_expression]. unfold blank_chars at 1.
  destruct (trim_chars t) as [|c l] eqn:E; [done|]. cbn [orb].
  destruct (String.eqb (encode (c :: l)) "-") eqn:Ed; [|destruct (split_top_level_commas (c :: l)) as [segments|] eqn:Es].
  - cbn. unfold blank_chars, alternative. rewrite !E, Ed. done.
  - cbn [default from_option id]. rewrite En, uncut_tests by (by eapply segments_uncut). by destruct (existsb _ segments).
  - cbn. unfold blank_chars, alternative. rewrite !E, Ed. done.
Qed.

(** Every unary test is rewritten or refused.  Rewriting ends on every text; it panics
    exactly when the text, or one of the pieces its top-level commas cut it into, is blank; and
    the result is the alternatives, each rewritten by itself, joined by [or]. *)
Theorem unary_test_total test :
  to_full_expression test =
    if is_blank test || existsb blank_chars (alternatives (chars test)) then Err Panicked
    else Ok (encode (join_or (map alternative (alternatives (chars test))))).
Proof.
  unfold to_full_expression. rewrite full_expression_alternatives. unfold is_blank, blank_chars at 1.
  by destruct (trim_chars (chars test)), (existsb _ _).
Qed.
End UnaryTotal.

(** ** Trees and their events *)

Definition tag_attr (a : XmlAttr) : result string RawAttr := Ok (mk_raw_attr (xa_local a) (xa_ns a) (xa_local a) (Ok (xa_value a))).

Fixpoint tree_events (e : XmlElement) : list (result string XmlEvent) :=
  let 'mk_element ns local attrs children text := e in
  Ok (StartTag ns local (map tag_attr attrs)) :: Ok (TextEvent (Ok text)) :: concat (map tree_events children) ++ [Ok EndTag].

(** No attribute has the name of a namespace declaration. *)
Definition data_attr (a : XmlAttr) : bool := negb (String.eqb (xa_local a) "xmlns" || starts_with "xmlns:" (xa_local a)).

Fixpoint data_tree (e : XmlElement) : bool :=
  let 'mk_element _ _ attrs children _ := e in forallb data_attr attrs && forallb data_tree children.

Lemma element_attrs_back attrs : forallb data_attr attrs = true → element_attrs (map tag_attr attrs) = Ok attrs.
Proof.
  induction attrs as [|[ns local value] attrs IH]; [done|]. cbn [forallb map]. intros [Ha Hl]%andb_prop. unfold data_attr in Ha.
  cbn [element_attrs tag_attr xa_local xa_ns xa_value ra_key ra_ns ra_local ra_value mbind result_bind] in *.
  destruct (String.eqb local "xmlns" || starts_with "xmlns:" local); [done|]. by rewrite (IH Hl).
Qed.

Definition close_element (stack : list XmlElement) (root : option XmlElement) (e : XmlElement) (events : list (result string XmlEvent))
    : result string XmlElement :=
  match stack with
  | parent :: rest => build_tree (push_child parent e :: rest) root events
  | [] => if is_some root then Err "multiple document elements" else build_tree [] (Some e) events
  end.

(** The events of an element add it to what is open. *)
Lemma build_events e : data_tree e = true → ∀ stack root events,
  build_tree stack root (tree_events e ++ events) = close_element stack root e events.
Proof.
  revert e. fix IH 1. intros [ns local attrs children text] Hd stack root events. simpl in Hd. apply andb_prop in Hd as [Ha Hc].
  cbn [tree_events app build_tree]. rewrite (element_attrs_back _ Ha). cbn [mbind result_bind push_text]. change ("" +:+ text) with text.
  rewrite <-app_assoc.
  assert (Hall : ∀ done_, build_tree (mk_element ns local attrs done_ text :: stack) root
      (concat (map tree_events children) ++ [Ok EndTag] ++ events) = close_element stack root (mk_element ns local attrs (done_ ++ children) text) events).
  { induction children as [|c children IHc]; intros done_.
    - rewrite app_nil_r. by destruct stack.
    - simpl in Hc. apply andb_prop in Hc as [Hc Hcs]. simpl map. simpl concat. rewrite <-app_assoc, (IH c Hc).
      cbn [close_element push_child]. rewrite (IHc Hcs). by rewrite <-app_assoc. }
  apply (Hall []).
Qed.

(** A tree is what its events build. *)
Lemma tree_events_round_trip e : data_tree e = true → build_tree [] None (tree_events e) = Ok e.
Proof. intros Hd. rewrite <-(app_nil_r (tree_events e)). by rewrite (build_events e Hd). Qed.

(** ** Definitions as XML *)

Definition plain_attr (local value : string) : XmlAttr := mk_attr None local value.
Definition optional_attr (local : string) (value : option string) : list XmlAttr :=
  match value with Some v => [plain_attr local v] | None => [] end.
Definition element (local : string) (attrs : list XmlAttr) (children : list XmlElement) : XmlElement := mk_element None local attrs children "".
Definition text_element (local text : string) : XmlElement := element local [] [mk_element None "text" [] [] text].

Definition policy_name (p : HitPolicy) : string :=
  match p with
  | HpUnique => "UNIQUE" | HpFirst => "FIRST" | HpCollect => "COLLECT" | HpAny => "ANY"
  | HpPriority => "PRIORITY" | HpOutputOrder => "OUTPUT ORDER" | HpRuleOrder => "RULE ORDER"
  end.

Definition input_xml (i : DmnInputClause) : XmlElement :=
  element "input" [plain_attr "id" (ic_id i)]
    [element "inputExpression" (optional_attr "typeRef" (ic_type_ref i)) [mk_element None "text" [] [] (ic_expression i)]].

Definition values_text (l : list string) : string := String.concat "," (map dq l).

Definition output_children_xml (values : list string) (default_output : option string) : list XmlElement :=
  match values with [] => [] | l => [text_element "outputValues" (values_text l)] end
  ++ match default_output with Some d => [text_element "defaultOutputEntry" d] | None => [] end.

Definition output_xml (o : DmnOutputClause) : XmlElement :=
  element "output"
    (plain_attr "id" (oc_id o) :: optional_attr "name" (oc_name o) ++ optional_attr "typeRef" (oc_type_ref o)
     ++ match oc_diagnostic_code o with Some c => [mk_attr (Some BPM_ANNOT_NS) "code" c] | None => [] end)
    (output_children_xml (oc_output_values o) (oc_default_output o)).

Definition rule_xml (r : DmnRule) : XmlElement :=
  element "rule" [plain_attr "id" (dr_id r)]
    (map (text_element "inputEntry") (dr_input_entries r) ++ map (text_element "outputEntry") (dr_output_entries r)).

Definition table_xml (t : DmnDecisionTable) : XmlElement :=
  element "decisionTable" [plain_attr "hitPolicy" (policy_name (dt_hit_policy t))]
    (map input_xml (dt_inputs t) ++ map output_xml (dt_outputs t) ++ map rule_xml (dt_rules t)).

Definition decision_xml (d : DmnDecision) : XmlElement :=
  element "decision" [plain_attr "id" (dd_id d); plain_attr "name" (dd_name d)] [table_xml (dd_table d)].

Definition definitions_xml (d : DmnDefinitions) : XmlElement :=
  element "definitions" [plain_attr "namespace" (df_namespace d)] (map decision_xml (df_decisions d)).

(** What is written and read back unchanged: a text without surrounding white space, an
    attribute that is not blank, a value without double quotes. *)
Definition written (s : string) : bool := String.eqb (trim_text s) s.
Definition named (s : string) : bool := negb (is_blank s).
Definition optionally (p : string → bool) (o : option string) : bool := match o with Some s => p s | None => true end.
Definition quotable (s : string) : bool := String.eqb (encode (chars s)) s && forallb is_scalar (chars s) && forallb (λ c, negb (c =? 34)) (chars s).

Definition input_ok (i : DmnInputClause) : bool :=
  named (ic_id i) && written (ic_expression i) && negb (str_is_empty (ic_expression i)) && optionally named (ic_type_ref i).
Definition output_ok (o : DmnOutputClause) : bool :=
  named (oc_id o) && optionally named (oc_name o) && optionally named (oc_type_ref o)
  && optionally (λ c, named c && written c) (oc_diagnostic_code o) && forallb quotable (oc_output_values o)
  && optionally written (oc_default_output o).
Definition rule_ok (r : DmnRule) : bool := named (dr_id r) && forallb written (dr_input_entries r) && forallb written (dr_output_entries r).
Definition table_ok (t : DmnDecisionTable) : bool := forallb input_ok (dt_inputs t) && forallb output_ok (dt_outputs t) && forallb rule_ok (dt_rules t).
Definition decision_ok (d : DmnDecision) : bool := named (dd_id d) && named (dd_name d) && table_ok (dd_table d).

Definition all_outputs (d : DmnDefinitions) : list DmnOutputClause := concat (map (λ x, dt_outputs (dd_table x)) (df_decisions d)).

Record definitions_ok (d : DmnDefinitions) : Prop := {
  do_decisions : forallb decision_ok (df_decisions d) = true;
  do_ids : NoDup (map oc_id (all_outputs d)) }.

Lemma named_text s : named s = true → not_blank_text (Some s) = Some s.
Proof. unfold named, not_blank_text. by destruct (is_blank s). Qed.

Lemma required_named s e a : named s = true → required (Some s) e a = Ok s.
Proof. intros H. unfold required. by rewrite named_text. Qed.

Lemma optionally_named o : optionally named o = true → not_blank_text o = o.
Proof. destruct o; [apply named_text|done]. Qed.

Lemma attr_optional local o : attr (element "x" (optional_attr local o) []) None local = o.
Proof. destruct o; [|done]. unfold attr. simpl. by rewrite String.eqb_refl. Qed.

Lemma child_head ns local attrs ns' l a c t rest text :
  child (mk_element ns local attrs (mk_element ns' l a c t :: rest) text) l = Some (mk_element ns' l a c t).
Proof. unfold child. cbn [el_children List.find el_local]. by rewrite String.eqb_refl. Qed.

Lemma text_child_head ns local attrs t rest text : written t = true →
  text_child (mk_element ns local attrs (mk_element None "text" [] [] t :: rest) text) = Some t.
Proof. intros E%String.eqb_eq. unfold text_child. rewrite child_head. by rewrite <-E at 2. Qed.

Lemma text_element_text local t : written t = true → text_child (text_element local t) = Some t.
Proof. apply text_child_head. Qed.

Lemma map_result_back {A B} (f : A → result DmnError B) (g : B → A) l : (∀ b, b ∈ l → f (g b) = Ok b) → map_result f (map g l) = Ok l.
Proof.
  induction l as [|b l IH]; intros Hf; [done|]. simpl. rewrite (Hf b) by left. cbn [mbind result_bind].
  by rewrite IH by (intros x Hx; apply Hf; by right).
Qed.

(** The children of one name among those of several. *)
Lemma filter_all {A} (p : A → bool) l : (∀ x, x ∈ l → p x = true) → List.filter p l = l.
Proof. induction l as [|x l IH]; intros Hp; [done|]. simpl. rewrite (Hp x) by left. by rewrite IH by (intros y Hy; apply Hp; by right). Qed.

Lemma filter_none {A} (p : A → bool) l : (∀ x, x ∈ l → p x = false) → List.filter p l = [].
Proof. induction l as [|x l IH]; intros Hp; [done|]. simpl. rewrite (Hp x) by left. apply IH. intros y Hy. apply Hp. by right. Qed.

Lemma filter_map_named {A} (f : A → XmlElement) local local' l : (∀ a, el_local (f a) = local') →
  List.filter (λ c, String.eqb (el_local c) local) (map f l) = if String.eqb local' local then map f l else [].
Proof.
  intros Hf. destruct (String.eqb local' local) eqn:E; [apply filter_all|apply filter_none];
    intros x (a & -> & _)%list_elem_of_fmap; by rewrite Hf.
Qed.

(** *** Clauses *)

Lemma input_back i did : input_ok i = true → build_input (input_xml i) did = Ok i.
Proof.
  destruct i as [iid expr tr]. unfold input_ok. simpl. rewrite !andb_true_iff, negb_true_iff. intros [[[Hid Hw] He] Ht].
  unfold build_input, input_xml, element. cbn [attr el_attrs element List.find ic_id ic_expression ic_type_ref].
  rewrite (required_named _ _ _ Hid). cbn [mbind result_bind].
  rewrite child_head, text_child_head by done.
  cbn [default from_option id]. rewrite He. f_equal. f_equal. rewrite <-(optionally_named tr Ht) at 2.
  f_equal. by apply attr_optional.
Qed.

Lemma rule_back r : rule_ok r = true → build_rule (rule_xml r) = Ok r.
Proof.
  destruct r as [rid ins outs]. unfold rule_ok. simpl. rewrite !andb_true_iff, !forallb_forall. intros [[Hid Hi] Ho].
  unfold build_rule, rule_xml, children_named. cbn [attr el_attrs el_children element List.find dr_id dr_input_entries dr_output_entries].
  rewrite (required_named _ _ _ Hid). cbn [mbind result_bind]. rewrite !List.filter_app.
  do 2 rewrite (filter_map_named (text_element "inputEntry") _ "inputEntry") by done.
  do 2 rewrite (filter_map_named (text_element "outputEntry") _ "outputEntry") by done. cbn -[map].
  rewrite app_nil_r, !map_map. f_equal. f_equal; rewrite <-(map_id ins) at 2 || rewrite <-(map_id outs) at 2; apply map_ext_in;
    intros t Ht; unfold entry_text; rewrite text_element_text; auto.
Qed.

(** *** Priority lists *)

Definition quoted_chars (z : list Z) : list Z := 34 :: z ++ [34].

Fixpoint join_comma (l : list (list Z)) : list Z :=
  match l with [] => [] | [z] => z | z :: l => z ++ ch "," :: join_comma l end.

Lemma split_quoted z : forallb (λ c, negb (c =? 34)) z = true → ∀ cur rest,
  split_unquoted true cur (z ++ 34 :: rest) = split_unquoted false (cur ++ z ++ [34]) rest.
Proof.
  induction z as [|c z IH]; intros Hz cur rest; [done|]. simpl in *. apply andb_prop in Hz as [Hc Hz]. destruct (c =? 34); [done|].
  rewrite andb_false_r, (IH Hz). by rewrite <-app_assoc.
Qed.

Lemma split_joined l : Forall (λ z, forallb (λ c, negb (c =? 34)) z = true) l → l ≠ [] →
  split_unquoted false [] (join_comma (map quoted_chars l)) = map quoted_chars l.
Proof.
  induction 1 as [|z l Hz Hl IH]; [done|]. intros _. destruct l as [|z' l].
  - cbn [map join_comma]. unfold quoted_chars at 1. cbn [split_unquoted]. simpl negb. by rewrite (split_quoted z Hz).
  - cbn [map join_comma] in *. unfold quoted_chars at 1. cbn [app split_unquoted]. simpl negb. rewrite <-app_assoc. cbn [app].
    rewrite (split_quoted z Hz). cbn [app split_unquoted]. simpl. f_equal. by apply IH.
Qed.

Lemma trim_quoted z : trim_chars (quoted_chars z) = quoted_chars z.
Proof. unfold trim_chars, quoted_chars. simpl. rewrite rev_app_distr. simpl. rewrite rev_app_distr, rev_involutive. done. Qed.

Lemma strip_quoted z : strip_quotes (quoted_chars z) = z.
Proof.
  unfold quoted_chars. cbn [strip_quotes]. rewrite bool_decide_eq_false_2 by (by destruct z). rewrite List.last_last.
  apply removelast_last.
Qed.

Lemma trim_join l : trim_chars (join_comma (map quoted_chars l)) = join_comma (map quoted_chars l).
Proof.
  assert (H : l = [] ∨ ∃ m, join_comma (map quoted_chars l) = quoted_chars m).
  { induction l as [|z l IH]; [by left|]. right. destruct IH as [->|[m Hm]]; [by exists z|]. destruct l as [|z' l]; [by exists z|].
    exists (z ++ 34 :: ch "," :: 34 :: m). cbn [map join_comma] in *. rewrite Hm. unfold quoted_chars. simpl. by rewrite <-!app_assoc. }
  destruct H as [->|[m ->]]; [done|apply trim_quoted].
Qed.

Lemma values_encode l : forallb quotable l = true → values_text l = encode (join_comma (map quoted_chars (map chars l))).
Proof.
  unfold values_text. induction l as [|v l IH]; [done|]. cbn [forallb]. intros [Hv Hl]%andb_prop. specialize (IH Hl).
  assert (Hd : dq v = encode (quoted_chars (chars v))).
  { unfold quotable in Hv. rewrite !andb_true_iff in Hv. destruct Hv as [[Hv%String.eqb_eq _] _]. unfold dq, quoted_chars.
    change (34 :: chars v ++ [34]) with ([34] ++ chars v ++ [34]). rewrite !encode_app, Hv. done. }
  destruct l as [|v' l]; [exact Hd|]. cbn [map join_comma] in *. change (ch "," :: ?x) with ([ch ","] ++ x).
  rewrite !encode_app, <-IH, <-Hd. done.
Qed.

Lemma values_back l : forallb quotable l = true → l ≠ [] →
  written (values_text l) = true ∧ parse_output_values (values_text l) = l.
Proof.
  intros Hq Hne. rewrite (values_encode l Hq).
  assert (Hf : Forall (λ v, encode (chars v) = v ∧ Forall scalar (chars v) ∧ forallb (λ c, negb (c =? 34)) (chars v) = true) l).
  { apply Forall_forall. intros v Hv. rewrite forallb_forall in Hq. specialize (Hq v). unfold quotable in Hq.
    rewrite !andb_true_iff, !forallb_forall in Hq. destruct Hq as [[E%String.eqb_eq Hs] Hn]; [by apply list_elem_of_In|].
    split; [done|]. split; [|by apply forallb_forall]. apply Forall_forall. intros c Hc. apply Hs. by apply list_elem_of_In. }
  set (j := join_comma _). assert (Hs : Forall scalar j).
  { subst j. clear -Hf. induction Hf as [|v l (_ & Hv & _) Hl IH]; [constructor|].
    assert (Forall scalar (quoted_chars (chars v))) by (constructor; [done|]; apply Forall_app_2; [done|by repeat constructor]).
    destruct l as [|v' l]; [done|]. cbn [map join_comma] in *. apply Forall_app_2; [done|]. by constructor. }
  split; [unfold written, trim_text; rewrite (chars_encode j Hs); subst j; by rewrite trim_join, String.eqb_refl|].
  unfold parse_output_values. assert (str_is_empty (encode j) = false) as ->.
  { subst j. destruct l as [|v [|v' l]]; [done|reflexivity|reflexivity]. }
  rewrite (chars_encode j Hs). subst j. rewrite split_joined.
  - clear -Hf. induction Hf as [|v l (Hv & _ & _) Hl IH]; [done|]. cbn [map omap list_omap]. rewrite trim_quoted.
    pose proof (strip_quoted (chars v)) as Hstrip. unfold quoted_chars at 1. fold (quoted_chars (chars v)). rewrite Hstrip, Hv. f_equal. exact IH.
  - apply Forall_fmap. eapply Forall_impl; [exact Hf|]. by intros v (_ & _ & ?).
  - by destruct l.
Qed.

Lemma output_children attrs values def : forallb quotable values = true → optionally written def = true →
  let e := element "output" attrs (output_children_xml values def) in
  default [] (ov ← child e "outputValues"; t ← text_child ov; Some (parse_output_values t)) = values ∧
  (d ← child e "defaultOutputEntry"; text_child d) = def.
Proof.
  intros Hq Hd. unfold output_children_xml, text_element, element. cbn zeta.
  assert (Hdef : (d ← child (mk_element None "output" attrs
    (match def with Some d => [mk_element None "defaultOutputEntry" [] [mk_element None "text" [] [] d] ""] | None => [] end) "") "defaultOutputEntry";
    text_child d) = def).
  { destruct def as [d|]; [|done]. rewrite child_head. cbn [mbind option_bind]. by rewrite text_child_head. }
  destruct values as [|v l]; [split; [by destruct def|apply Hdef]|].
  destruct (values_back (v :: l) Hq) as [Hw Hp]; [done|]. cbn [app]. split; [|exact Hdef].
  rewrite child_head. cbn [mbind option_bind]. rewrite text_child_head by done. cbn [mbind option_bind default from_option]. by rewrite Hp.
Qed.

Lemma output_back codes o : output_ok o = true → lookup_code codes (oc_id o) = oc_diagnostic_code o → build_output (output_xml o) codes = Ok o.
Proof.
  intros Ho Hc. destruct o as [oid name tr code values def]. unfold output_ok in Ho.
  cbn [oc_id oc_name oc_type_ref oc_diagnostic_code oc_output_values oc_default_output] in *.
  rewrite !andb_true_iff in Ho. destruct Ho as [[[[[Hid Hn] Ht] _] Hq] Hw]. unfold build_output.
  destruct (output_children (el_attrs (output_xml (mk_output oid name tr code values def))) values def Hq Hw) as [Hv Hd].
  change (element _ _ _) with (output_xml (mk_output oid name tr code values def)) in Hv, Hd. rewrite Hv, Hd. clear Hv Hd.
  change (attr (output_xml _) None "id") with (Some oid). rewrite (required_named _ _ _ Hid). cbn [mbind result_bind]. rewrite Hc.
  f_equal. f_equal; [rewrite <-(optionally_named name Hn) at 2|rewrite <-(optionally_named tr Ht) at 2]; f_equal; by destruct name, tr, code.
Qed.

(** *** Codes *)

Lemma bpm_code_back o : output_ok o = true → bpm_code (output_xml o) = (λ c, (oc_id o, c)) <$> oc_diagnostic_code o.
Proof.
  destruct o as [oid name tr code values def]. unfold output_ok. cbn [oc_id oc_name oc_type_ref oc_diagnostic_code oc_output_values oc_default_output].
  rewrite !andb_true_iff. intros [[[[[Hid Hn] Ht] Hc] _] _]. unfold bpm_code. change (attr (output_xml _) None "id") with (Some oid).
  rewrite (named_text _ Hid). cbn [mbind option_bind].
  assert (Ha : attr (output_xml (mk_output oid name tr code values def)) (Some BPM_ANNOT_NS) "code" = code) by (by destruct name, tr, code).
  rewrite Ha. destruct code as [c|].
  - simpl in Hc. apply andb_prop in Hc as [Hcn Hcw%String.eqb_eq]. rewrite (named_text _ Hcn), Hcw. done.
  - cbn [not_blank_text]. assert (Hn' : child_ns (output_xml (mk_output oid name tr None values def)) BPM_ANNOT_NS "diagnosticCode" = None); [|by rewrite Hn'].
    by destruct values, def.
Qed.

Lemma lookup_codes_back outs o : forallb output_ok outs = true → NoDup (map oc_id outs) → o ∈ outs →
  lookup_code (omap bpm_code (map output_xml outs)) (oc_id o) = oc_diagnostic_code o.
Proof.
  induction outs as [|o' outs IH]; intros Hok Hnd Hin; [by apply elem_of_nil in Hin|]. cbn [forallb] in Hok. apply andb_prop in Hok as [Ho Hok].
  cbn [map] in Hnd. apply NoDup_cons in Hnd as [Hn Hnd]. cbn [map omap list_omap]. rewrite (bpm_code_back o' Ho).
  apply elem_of_cons in Hin as [->|Hin].
  - destruct (oc_diagnostic_code o') as [c|]; cbn; [by rewrite String.eqb_refl|].
    assert (Hx : ∀ i, i ∉ map oc_id outs → lookup_code (omap bpm_code (map output_xml outs)) i = None); [|by apply Hx].
    clear -Hok. intros i. induction outs as [|o outs IH]; [done|]. cbn [forallb map] in *. apply andb_prop in Hok as [Ho Hok].
    rewrite not_elem_of_cons. intros [Hne Hn]. cbn [omap list_omap]. rewrite (bpm_code_back o Ho).
    destruct (oc_diagnostic_code o); cbn; [|by apply IH]. destruct (String.eqb_spec (oc_id o) i); [congruence|]. by apply IH.
  - specialize (IH Hok Hnd Hin). assert (oc_id o' ≠ oc_id o).
    { intros E. apply Hn. rewrite E. by apply list_elem_of_fmap_2. }
    destruct (oc_diagnostic_code o'); cbn; [|done]. by destruct (String.eqb_spec (oc_id o') (oc_id o)).
Qed.

(** *** Tables and definitions *)

Lemma table_children t :
  children_named (table_xml t) "input" = map input_xml (dt_inputs t) ∧
  children_named (table_xml t) "output" = map output_xml (dt_outputs t) ∧
  children_named (table_xml t) "rule" = map rule_xml (dt_rules t).
Proof.
  unfold children_named, table_xml, element. cbn [el_children]. rewrite !List.filter_app.
  do 3 rewrite (filter_map_named input_xml _ "input") by done. do 3 rewrite (filter_map_named output_xml _ "output") by done.
  do 3 rewrite (filter_map_named rule_xml _ "rule") by done. cbn -[map]. by rewrite !app_nil_r.
Qed.

Lemma policy_back p : map_hit_policy (Some (policy_name p)) = Ok p.
Proof. by destruct p. Qed.

Lemma table_back codes t did : table_ok t = true → (∀ o, o ∈ dt_outputs t → lookup_code codes (oc_id o) = oc_diagnostic_code o) →
  build_table (table_xml t) did codes = Ok t.
Proof.
  unfold table_ok. rewrite !andb_true_iff, !forallb_forall. intros [[Hi Ho] Hr] Hc. unfold build_table.
  change (attr (table_xml t) None "hitPolicy") with (Some (policy_name (dt_hit_policy t))). rewrite policy_back. cbn [mbind result_bind].
  destruct (table_children t) as (-> & -> & ->).
  rewrite (map_result_back (λ el, build_input el did) input_xml) by (intros i Hin; apply input_back, Hi; by apply list_elem_of_In). cbn [mbind result_bind].
  rewrite (map_result_back (λ el, build_output el codes) output_xml)
    by (intros o Hin; apply output_back; [apply Ho; by apply list_elem_of_In|by apply Hc]). cbn [mbind result_bind].
  rewrite (map_result_back build_rule rule_xml) by (intros r Hin; apply rule_back, Hr; by apply list_elem_of_In). by destruct t.
Qed.

Lemma decision_back codes d : decision_ok d = true → (∀ o, o ∈ dt_outputs (dd_table d) → lookup_code codes (oc_id o) = oc_diagnostic_code o) →
  build_decision codes (decision_xml d) = Ok d.
Proof.
  unfold decision_ok. rewrite !andb_true_iff. intros [[Hid Hn] Ht] Hc. unfold build_decision.
  change (attr (decision_xml d) None "id") with (Some (dd_id d)). change (attr (decision_xml d) None "name") with (Some (dd_name d)).
  rewrite (required_named _ _ _ Hid), (named_text _ Hn). cbn [mbind result_bind].
  change (child (decision_xml d) "decisionTable") with (Some (table_xml (dd_table d))). cbn match.
  rewrite (table_back codes (dd_table d) (dd_id d) Ht Hc). by destruct d.
Qed.

Lemma no_outputs_below {A} (f : A → XmlElement) l : (∀ a, el_local (f a) ≠ "output" ∧ descendants_named "output" (f a) = []) →
  concat (map (λ c, (if String.eqb (el_local c) "output" then [c] else []) ++ descendants_named "output" c) (map f l)) = [].
Proof.
  intros Hf. induction l as [|a l IH]; [done|]. cbn [map concat]. destruct (Hf a) as [Hne ->].
  by destruct (String.eqb_spec (el_local (f a)) "output").
Qed.

Lemma outputs_below l :
  concat (map (λ c, (if String.eqb (el_local c) "output" then [c] else []) ++ descendants_named "output" c) (map output_xml l)) = map output_xml l.
Proof.
  induction l as [|o l IH]; [done|]. cbn [map concat]. rewrite IH. change (String.eqb (el_local (output_xml o)) "output") with true.
  cbn match. assert (descendants_named "output" (output_xml o) = []) as ->; [|done].
  unfold output_xml, output_children_xml, element. simpl. by destruct (oc_output_values o), (oc_default_output o).
Qed.

Lemma table_outputs t : descendants_named "output" (table_xml t) = map output_xml (dt_outputs t).
Proof.
  unfold table_xml, element. cbn [descendants_named]. rewrite !map_app, !concat_app, outputs_below.
  rewrite (no_outputs_below input_xml), (no_outputs_below rule_xml); [by rewrite app_nil_r|..].
  - intros r. split; [done|]. unfold rule_xml, element. cbn [descendants_named]. rewrite map_app, concat_app.
    by rewrite !(no_outputs_below (text_element _)).
  - done.
Qed.

Lemma definitions_outputs d : descendants_named "output" (definitions_xml d) = map output_xml (all_outputs d).
Proof.
  unfold definitions_xml, all_outputs, element. cbn [descendants_named]. induction (df_decisions d) as [|x l IH]; [done|].
  cbn [map concat]. rewrite map_app, IH. f_equal. change (String.eqb (el_local (decision_xml x)) "output") with false. cbn match.
  cbn [app]. unfold decision_xml, element. cbn [descendants_named map concat]. rewrite table_outputs, app_nil_r. done.
Qed.

Lemma definitions_data d : data_tree (definitions_xml d) = true.
Proof.
  assert (Hmap : ∀ {A} (f : A → XmlElement) l, (∀ a, data_tree (f a) = true) → forallb data_tree (map f l) = true).
  { intros A f l Hf. induction l as [|a l IH]; [done|]. cbn. by rewrite Hf, IH. }
  assert (Hin : ∀ i, data_tree (input_xml i) = true) by (intros [? ? []]; done).
  assert (Hout : ∀ o, data_tree (output_xml o) = true) by (intros [? [] [] [] [] []]; done).
  assert (Hrule : ∀ r, data_tree (rule_xml r) = true) by (intros [? ? ?]; cbn; by rewrite forallb_app, !Hmap).
  assert (Hdec : ∀ x, data_tree (decision_xml x) = true).
  { intros [? ? [? ? ? ?]]. unfold decision_xml, table_xml, element. cbn. by rewrite !forallb_app, !Hmap. }
  unfold definitions_xml, element. cbn. by rewrite Hmap.
Qed.

Section Load.
Context `{XmlReader}.

(** C24: definitions written as XML load back whole.  From the events of a document that holds
    decisions with their tables, clauses, priority lists, diagnostic codes, defaults and rules,
    the loader rebuilds exactly these; provided that the texts have no surrounding white space,
    the required attributes are not blank, and no two outputs of the document share an id, which
    the annotations are keyed by. *)
Theorem definitions_load_back d bytes :
  definitions_ok d → bytes ≠ "" → read_events bytes = tree_events (definitions_xml d) → dmn_load bytes = Ok d.
Proof.
  intros [Hd Hnd] Hb He. unfold dmn_load. assert (str_is_empty bytes = false) as -> by (by destruct bytes).
  unfold xml_parse. rewrite He, (tree_events_round_trip _ (definitions_data d)).
  change (String.eqb (el_local (definitions_xml d)) "definitions") with true. cbn match.
  unfold collect_bpm_codes. rewrite definitions_outputs. unfold build_model, children_named.
  change (el_children (definitions_xml d)) with (map decision_xml (df_decisions d)). rewrite (filter_map_named decision_xml _ "decision") by done.
  change (String.eqb "decision" "decision") with true. cbn match. rewrite forallb_forall in Hd.
  rewrite (map_result_back _ decision_xml); [by destruct d|]. intros x Hx. apply decision_back; [apply Hd; by apply list_elem_of_In|].
  assert (Hall : ∀ o, o ∈ dt_outputs (dd_table x) → o ∈ all_outputs d).
  { intros o Ho. unfold all_outputs. apply list_elem_of_In, in_concat. exists (dt_outputs (dd_table x)).
    split; [apply (in_map (λ y, dt_outputs (dd_table y)))|]; by apply list_elem_of_In. }
  intros o Ho. apply lookup_codes_back; [|done|by apply Hall]. apply forallb_forall. intros o' (l & Hl & Ho')%in_concat.
  apply in_map_iff in Hl as (y & <- & Hy). specialize (Hd y Hy). unfold decision_ok, table_ok in Hd. rewrite !andb_true_iff in Hd.
  destruct Hd as (_ & (_ & Hok) & _). rewrite forallb_forall in Hok. by apply Hok.
Qed.
End Load.

(** ** Instances *)

(** A table of one input and one output, with a priority list and a code of its own. *)
Definition sample_definitions : DmnDefinitions :=
  mk_definitions "urn:sample" [mk_decision "risk" "risk"
    (mk_table HpPriority [mk_input "in" "score" (Some "number")]
      [mk_output "out" (Some "grade") None (Some "SUTRA.VALIDATE.GRADE") ["high"; "low"] (Some "0")]
      [mk_dmn_rule "r1" ["> 1"] [dq "low"]; mk_dmn_rule "r2" [">= 5"] [dq "high"]])].

#[local] Instance sample_reader : XmlReader := {| read_events _ := tree_events (definitions_xml sample_definitions) |}.

Lemma definitions_load_back_witness : dmn_load "sample" = Ok sample_definitions.
Proof.
  apply (definitions_load_back sample_definitions "sample").
  - split; [vm_compute; reflexivity|]. apply NoDup_cons. split; [apply not_elem_of_nil|constructor].
  - discriminate.
  - reflexivity.
Defined.

#[local] Existing Instance ascii_tables.

(** A trailing comma makes the rewriting panic. *)
Lemma trailing_comma_panics : to_full_expression "1," = Err Panicked.
Proof. by vm_compute. Qed.
