(* ===== verification/DmnTable.v ===== *)
(** * Decision tables: evaluation ([sutra-dmn/src/validator.rs], [engine.rs], [clock.rs], [issue.rs])

    A rule of a table fires when each of its input entries, rewritten into an expression over
    [input], holds for the value of its clause.  [validate] gives the issues the hit policy makes
    of the firings; [evaluate] gives the outputs of the first firing.  An evaluation threads what
    FEEL reads of its surroundings and the thread's cache of parses.

    The theorems: what each hit policy makes of the firings ([hit_policies]); that [evaluate] is
    the first firing of [validate] whatever the policy, so that on a table with priorities the
    two may answer from different rules ([evaluate_is_first_firing],
    [evaluate_ignores_priority]); that a decision free of denied builtins has one outcome under a
    fixed clock ([pure_table_replays]). *)
From Stdlib Require Import ZArith Lia Bool Ascii String Sorted.
From stdpp Require Import base option strings gmap list.
From S2P Require Import Prelude Texts Decimal FeelValue Temporal FeelText TemporalParse FeelLexer FeelParser FeelSyntax.
From S2P Require Import FeelOps FeelBuiltins FeelEval FeelFacade FeelPlain FeelCarry FeelSim FeelRuns DmnSyntax.

Open Scope string_scope.
Open Scope list_scope.
Open Scope Z_scope.

(** ** Effects *)

(** A thread: the readings of its surroundings so far, and its cache of parses. *)
Record Thread : Type := mk_thread { th_reads : nat; th_cache : ParseCache }.

Definition dres : Type → Type := result (fault DmnError).
Definition DM (A : Type) : Type := Thread → dres A * Thread.

#[export] Instance dm_ret : MRet DM := λ A a th, (Ok a, th).
#[export] Instance dm_bind : MBind DM := λ A B f m th,
  match m th with (Ok a, th') => f a th' | (Err e, th') => (Err e, th') end.

Definition dm_lift {A} (r : dres A) : DM A := λ th, (r, th).

(** [.ok()]: an error of the evaluation is caught. *)
Definition caught {A} (r : res A) : dres (option A) :=
  match r with
  | Ok a => Ok (Some a)
  | Err (Rejected _) => Ok None
  | Err Panicked => Err Panicked
  | Err OutOfFuel => Err OutOfFuel
  end.

(** ** Issues *)

Inductive Severity : Type := SevError | SevWarning | SevInfo.

Record ValidationIssue : Type := mk_issue {
  vi_code : string; vi_severity : Severity; vi_path : string; vi_message : string; vi_value : option FeelValue }.

Record EvaluatedOutput : Type := mk_evaluated { eo_clause : DmnOutputClause; eo_value : FeelValue }.
Record RuleFiring : Type := mk_rule_firing { rf_rule : DmnRule; rf_outputs : list EvaluatedOutput }.

Inductive Clock : Type := SystemClock | FixedClock (now : OffsetDateTime).

Record DmnRulesetValidator : Type := mk_validator { vd_decision : DmnDecision; vd_clock : Clock }.

Inductive DmnPayload : Type := PayloadMap (m : FeelContext) | Envelope (body : option FeelContext) | PayloadValue (v : FeelValue).

Definition NOW_VARIABLE : string := "now".

Definition feel_context (payload : DmnPayload) : FeelContext :=
  match payload with
  | Envelope (Some b) => [("body", Map b)]
  | Envelope None => []
  | PayloadMap m => m
  | PayloadValue (Map m) => m
  | PayloadValue Null => []
  | PayloadValue other => [("value", other)]
  end.

Definition returns_list (policy : HitPolicy) : bool :=
  match policy with HpCollect | HpOutputOrder | HpRuleOrder => true | _ => false end.

(** ** Hit policies *)

Definition first_output_with_priority_list (table : DmnDecisionTable) : option DmnOutputClause :=
  List.find (λ o, match oc_output_values o with [] => false | _ => true end) (dt_outputs table).

Definition first_output_id (table : DmnDecisionTable) : string :=
  match dt_outputs table with o :: _ => oc_id o | [] => "" end.

Definition USIZE_MAX : Z := 2 ^ 64 - 1.

Fixpoint position (v : string) (l : list string) : option Z :=
  match l with [] => None | x :: l => if String.eqb x v then Some 0 else Z.succ <$> position v l end.

Definition join_rule_ids (firings : list RuleFiring) : string := String.concat ", " (map (λ f, dr_id (rf_rule f)) firings).

(** [to_code]: at least three and at most five dotted segments, the first one fixed. *)
Definition to_code (dotted : string) : result DmnError string :=
  let invalid r := Err (dmn_parse_error ("Invalid <bpm:code> '" +:+ dotted +:+ "': " +:+ r)) in
  if negb (starts_with "SUTRA." dotted) then invalid ("DiagnosticCode must start with 'SUTRA.': " +:+ dotted)
  else
    let segments := 1 + Z.of_nat (length (List.filter (Ascii.eqb ".") (list_ascii_of_string dotted))) in
    if (3 <=? segments) && (segments <=? 5) then Ok dotted
    else invalid ("DiagnosticCode must have 3-5 dotted segments (got " +:+ dec_string segments +:+ "): " +:+ dotted).

Section Table.
Context `{UnicodeTables, BigDecimalOps, BigDecimalText, DecimalCrate, Doubles, TimeCrate, TimeText, TimeParse, Calendar,
  Regex, CaseTables} {ambient : Ambient} {natives : Natives}.

Definition stringify (v : FeelValue) : string :=
  match v with Null => "(null)" | Str s => s | other => canonical_string_of other end.

Definition rank_of_output (outputs : list EvaluatedOutput) (priority_clause : DmnOutputClause) : Z :=
  match List.find (λ ev, String.eqb (oc_id (eo_clause ev)) (oc_id priority_clause)) outputs with
  | Some ev => default USIZE_MAX (position (stringify (eo_value ev)) (oc_output_values priority_clause))
  | None => USIZE_MAX
  end.

Definition rank_of (firing : RuleFiring) (priority_clause : DmnOutputClause) : Z := rank_of_output (rf_outputs firing) priority_clause.

Definition strict_equals (a b : FeelValue) : bool :=
  match a, b with
  | Number x, Number y => (mantissa x =? mantissa y) && (scale x =? scale y)
  | _, _ => value_eqb a b
  end.

Fixpoint outputs_agree (a b : list EvaluatedOutput) : bool :=
  match a, b with
  | [], [] => true
  | x :: a, y :: b => strict_equals (eo_value x) (eo_value y) && outputs_agree a b
  | _, _ => false
  end.

(** ** Rules *)

Section Rules.
Context (fuel : nat).

Definition eval_ok (expression : string) (ctx : FeelContext) : DM (option FeelValue) := λ th,
  let '(m, cache) := eval_text fuel (th_cache th) expression ctx in
  let '(r, k) := m (th_reads th) in (caught r, mk_thread k cache).

Definition eval_boolean_ok (expression : string) (ctx : FeelContext) : DM (option bool) := λ th,
  let '(r, k) := eval_boolean_text fuel expression ctx (th_reads th) in (caught r, mk_thread k (th_cache th)).

(** [input] and, behind it, the payload. *)
Definition input_context (value : FeelValue) (payload : FeelContext) : FeelContext :=
  fold_left (λ ctx kv, if is_some (map_get kv.1 ctx) then ctx else map_insert kv.1 kv.2 ctx) payload [("input", value)].

Definition entry_holds (clause : DmnInputClause) (entry : string) (payload : FeelContext) : DM bool :=
  if is_blank entry || String.eqb (trim_text entry) "-" then mret true
  else
    v ← eval_ok (ic_expression clause) payload;
    match v with
    | None => mret false
    | Some value =>
        full_expr ← dm_lift (to_full_expression entry);
        b ← eval_boolean_ok full_expr (input_context value payload);
        mret (match b with Some true => true | _ => false end)
    end.

(** [rule.input_entries[i]] panics past the end. *)
Fixpoint entries_hold (inputs : list DmnInputClause) (entries : list string) (payload : FeelContext) : DM bool :=
  match inputs with
  | [] => mret true
  | clause :: inputs =>
      match entries with
      | [] => dm_lift (Err Panicked)
      | entry :: entries =>
          b ← entry_holds clause entry payload;
          if (b : bool) then entries_hold inputs entries payload else mret false
      end
  end.

Definition rule_fires (rule : DmnRule) (table : DmnDecisionTable) (payload : FeelContext) : DM bool :=
  entries_hold (dt_inputs table) (dr_input_entries rule) payload.

Fixpoint outputs_from (outputs : list DmnOutputClause) (entries : list string) (payload : FeelContext) : DM (list EvaluatedOutput) :=
  match outputs with
  | [] => mret []
  | clause :: outputs =>
      let entry := match entries with e :: _ => e | [] => "" end in
      let rest := outputs_from outputs (tail entries) payload in
      if is_blank entry then rest
      else
        v ← eval_ok entry payload;
        results ← rest;
        mret (mk_evaluated clause (default (Str entry) v) :: results)
  end.

Definition evaluate_outputs (rule : DmnRule) (table : DmnDecisionTable) (payload : FeelContext) : DM (list EvaluatedOutput) :=
  outputs_from (dt_outputs table) (dr_output_entries rule) payload.

(** A rule with as many entries as the table has inputs. *)
Definition well_formed (rule : DmnRule) (table : DmnDecisionTable) : bool :=
  (length (dr_input_entries rule) =? length (dt_inputs table))%nat.

Fixpoint firings (rules : list DmnRule) (table : DmnDecisionTable) (payload : FeelContext) : DM (list RuleFiring) :=
  match rules with
  | [] => mret []
  | rule :: rules =>
      if well_formed rule table then
        b ← rule_fires rule table payload;
        if (b : bool) then
          outputs ← evaluate_outputs rule table payload;
          rest ← firings rules table payload;
          mret (mk_rule_firing rule outputs :: rest)
        else firings rules table payload
      else firings rules table payload
  end.
End Rules.

(** ** The validator *)

Section Validator.
Context (v : DmnRulesetValidator).

Local Abbreviation decision_id := (dd_id (vd_decision v)).
Definition decision_table : DmnDecisionTable := dd_table (vd_decision v).

Definition clock_now : DM OffsetDateTime := λ th,
  match vd_clock v with
  | FixedClock t => (Ok t, th)
  | SystemClock => (Ok (now_utc (th_reads th)), mk_thread (S (th_reads th)) (th_cache th))
  end.

Definition with_now (context : FeelContext) : DM FeelContext :=
  t ← clock_now; mret (map_insert NOW_VARIABLE (Instant t (Some Zulu)) context).

Definition output_issue (ev : EvaluatedOutput) : result DmnError ValidationIssue :=
  code ← match oc_diagnostic_code (eo_clause ev) with Some dotted => to_code dotted | None => Ok DMN_RULESET_FAILED end;
  Ok (mk_issue code SevError "" (stringify (eo_value ev)) (match eo_value ev with Null => None | w => Some w end)).

Definition issues_for (firing : RuleFiring) : result DmnError (list ValidationIssue) :=
  match rf_outputs firing with
  | [] => Ok [mk_issue DMN_RULESET_FAILED SevError "" ("Decision '" +:+ decision_id +:+ "' rule '" +:+ dr_id (rf_rule firing) +:+ "' fired") None]
  | outputs => map_result output_issue outputs
  end.

Definition flatten (l : list RuleFiring) : result DmnError (list ValidationIssue) :=
  issues ← map_result issues_for l; Ok (concat issues).

Definition missing_output_values_warning (code policy_name output_id fallback_policy : string) : ValidationIssue :=
  mk_issue code SevWarning "" ("Decision '" +:+ decision_id +:+ "' output '" +:+ output_id +:+ "' has hitPolicy=" +:+ policy_name
    +:+ " but no <outputValues> priority list; falling back to " +:+ fallback_policy) None.

Definition unique_violation (l : list RuleFiring) : ValidationIssue :=
  mk_issue DMN_UNIQUE_VIOLATION SevError "" ("Decision '" +:+ decision_id +:+ "' has hitPolicy=UNIQUE but "
    +:+ dec_string (Z.of_nat (length l)) +:+ " rules fired: [" +:+ join_rule_ids l +:+ "]") None.

Definition apply_unique (l : list RuleFiring) : result DmnError (list ValidationIssue) :=
  match l with [f] => issues_for f | _ => Ok [unique_violation l] end.

Definition ambiguous (l : list RuleFiring) : ValidationIssue :=
  mk_issue DMN_ANY_HIT_POLICY_AMBIGUOUS SevError "" ("Decision '" +:+ decision_id +:+ "' has hitPolicy=ANY but rules disagree on output: ["
    +:+ join_rule_ids l +:+ "]") None.

Definition apply_any (first : RuleFiring) (rest : list RuleFiring) : result DmnError (list ValidationIssue) :=
  if forallb (λ f, outputs_agree (rf_outputs first) (rf_outputs f)) rest then issues_for first else Ok [ambiguous (first :: rest)].

(** The loop over the candidates: a lower rank wins, the earlier one on a tie. *)
Definition better (clause : DmnOutputClause) (winner candidate : RuleFiring) : RuleFiring :=
  if rank_of candidate clause <? rank_of winner clause then candidate else winner.

Definition apply_priority (first : RuleFiring) (rest : list RuleFiring) (table : DmnDecisionTable) : result DmnError (list ValidationIssue) :=
  match first_output_with_priority_list table with
  | None =>
      issues ← apply_unique (first :: rest);
      Ok (missing_output_values_warning DMN_PRIORITY_MISSING_OUTPUT_VALUES "PRIORITY" (first_output_id table) "UNIQUE" :: issues)
  | Some clause => issues_for (fold_left (better clause) rest first)
  end.

Definition rank_leb (clause : DmnOutputClause) (a b : RuleFiring) : bool := rank_of a clause <=? rank_of b clause.

Definition apply_output_order (l : list RuleFiring) (table : DmnDecisionTable) : result DmnError (list ValidationIssue) :=
  match first_output_with_priority_list table with
  | None =>
      issues ← flatten l;
      Ok (missing_output_values_warning DMN_OUTPUT_ORDER_MISSING_OUTPUT_VALUES "OUTPUT_ORDER" (first_output_id table) "COLLECT" :: issues)
  | Some clause => flatten (sort_by (rank_leb clause) l)
  end.

Definition apply_hit_policy (policy : HitPolicy) (l : list RuleFiring) (table : DmnDecisionTable) : result DmnError (list ValidationIssue) :=
  match l with
  | [] => Ok []
  | first :: rest =>
      match policy with
      | HpUnique => apply_unique l
      | HpFirst => issues_for first
      | HpAny => apply_any first rest
      | HpRuleOrder | HpCollect => flatten l
      | HpPriority => apply_priority first rest table
      | HpOutputOrder => apply_output_order l table
      end
  end.

Definition rejecting {A} (r : result DmnError A) : dres A := match r with Ok a => Ok a | Err e => Err (Rejected e) end.

Definition validate_against (fuel : nat) (safe_payload : FeelContext) (table : DmnDecisionTable) : DM (list ValidationIssue) :=
  l ← firings fuel (dt_rules table) table safe_payload;
  dm_lift (rejecting (apply_hit_policy (dt_hit_policy table) l table)).

Definition validate (fuel : nat) (payload : DmnPayload) : DM (list ValidationIssue) :=
  safe ← with_now (feel_context payload); validate_against fuel safe decision_table.

(** ** Evaluation *)

Definition outputs_map (outputs : list EvaluatedOutput) : list (string * FeelValue) :=
  fold_left (λ out eo, match oc_name (eo_clause eo) with Some name => map_insert name (eo_value eo) out | None => out end) outputs [].

Fixpoint first_match (fuel : nat) (rules : list DmnRule) (table : DmnDecisionTable) (safe : FeelContext) : DM (list (string * FeelValue)) :=
  match rules with
  | [] => mret []
  | rule :: rules =>
      if well_formed rule table then
        b ← rule_fires fuel rule table safe;
        if (b : bool) then outputs ← evaluate_outputs fuel rule table safe; mret (outputs_map outputs)
        else first_match fuel rules table safe
      else first_match fuel rules table safe
  end.

Definition dmn_evaluate (fuel : nat) (input : FeelContext) : DM (list (string * FeelValue)) :=
  safe ← with_now input; first_match fuel (dt_rules decision_table) decision_table safe.
End Validator.

(** [DmnDecisionEngine::evaluate]: every decision of the file, later outputs over earlier ones. *)
Fixpoint evaluate_decisions (fuel : nat) (decisions : list DmnDecision) (input : FeelContext) (result : list (string * FeelValue))
    : DM (list (string * FeelValue)) :=
  match decisions with
  | [] => mret result
  | d :: decisions =>
      out ← dmn_evaluate (mk_validator d SystemClock) fuel input;
      evaluate_decisions fuel decisions input (insert_all result out)
  end.

Definition engine_evaluate `{XmlReader} (fuel : nat) (decision_file : string) (input : FeelContext) : DM (list (string * FeelValue)) :=
  defs ← dm_lift (rejecting (dmn_load decision_file));
  evaluate_decisions fuel (df_decisions defs) input [].
End Table.

(** ** What the hit policies make of the firings *)

Section Policies.
Context `{UnicodeTables, BigDecimalOps, BigDecimalText, DecimalCrate, Doubles, TimeCrate, TimeText, TimeParse, Calendar,
  Regex, CaseTables} {natives : Natives}.

(** [w] has the best rank of [l], and comes before the others of that rank. *)
Definition best (clause : DmnOutputClause) (l : list RuleFiring) (w : RuleFiring) : Prop :=
  ∃ before after, l = before ++ w :: after ∧
    Forall (λ f, rank_of w clause < rank_of f clause) before ∧ Forall (λ f, rank_of w clause <= rank_of f clause) after.

Lemma fold_best clause l x : best clause (x :: l) (fold_left (better clause) l x).
Proof.
  assert (Hf : ∀ l before x mid, Forall (λ f, rank_of x clause < rank_of f clause) before → Forall (λ f, rank_of x clause <= rank_of f clause) mid →
    best clause (before ++ x :: mid ++ l) (fold_left (better clause) l x)); [|by apply (Hf l [] x [])].
  clear l x. induction l as [|y l IH]; intros before x mid Hb Hm; simpl; [rewrite app_nil_r; by exists before, mid|].
  unfold better at 2. destruct (Z.ltb_spec (rank_of y clause) (rank_of x clause)).
  - change (before ++ x :: mid ++ y :: l) with (before ++ (x :: mid) ++ y :: [] ++ l). rewrite app_assoc. apply IH; [|constructor].
    apply Forall_app_2; [|constructor; [done|]]; eapply Forall_impl; eauto; simpl; intros; lia.
  - change (mid ++ y :: l) with (mid ++ [y] ++ l). rewrite (app_assoc mid). apply IH; [done|]. apply Forall_app_2; [done|]. by repeat constructor.
Qed.

(** C25: what each hit policy makes of the rules that fired.  UNIQUE reports the one firing, or a
    violation when there are more.  FIRST reports the first one.  ANY reports the first one when
    every other agrees with it, and an ambiguity otherwise.  With a priority list, PRIORITY
    reports the firing of the best rank, the earliest of that rank, and OUTPUT ORDER reports all
    of them sorted by rank, those of one rank in the order of the rules, so that its first firing
    is the one PRIORITY picks.  COLLECT and RULE ORDER report all in the order of the rules.
    Without a priority list, PRIORITY warns and falls back to UNIQUE, OUTPUT ORDER to COLLECT. *)
Theorem hit_policies v table first rest :
  let l := first :: rest in
  let answer p := apply_hit_policy v p l table in
  answer HpUnique = match rest with [] => issues_for v first | _ => Ok [unique_violation v l] end ∧
  answer HpFirst = issues_for v first ∧
  (Forall (λ f, outputs_agree (rf_outputs first) (rf_outputs f) = true) rest → answer HpAny = answer HpFirst) ∧
  (¬ Forall (λ f, outputs_agree (rf_outputs first) (rf_outputs f) = true) rest → answer HpAny = Ok [ambiguous v l]) ∧
  answer HpRuleOrder = flatten v l ∧ answer HpCollect = answer HpRuleOrder ∧
  match first_output_with_priority_list table with
  | Some clause => ∃ w sorted, best clause l w ∧ answer HpPriority = issues_for v w ∧
      answer HpOutputOrder = flatten v sorted ∧ head sorted = Some w ∧ sorted ≡ₚ l ∧
      StronglySorted (λ a b, rank_of a clause <= rank_of b clause) sorted ∧
      ∀ r, List.filter (λ f, rank_of f clause =? r) sorted = List.filter (λ f, rank_of f clause =? r) l
  | None => ∃ w1 w2, vi_severity w1 = SevWarning ∧ vi_severity w2 = SevWarning ∧
      answer HpPriority = (l ← answer HpUnique; Ok (w1 :: l)) ∧ answer HpOutputOrder = (l ← answer HpCollect; Ok (w2 :: l))
  end.
Proof.
  intros l answer. unfold answer, apply_hit_policy, l. split; [by destruct rest|]. split; [done|]. split; [|split; [|split; [done|split; [done|]]]].
  - intros Hall. unfold apply_any. assert (forallb (λ f, outputs_agree (rf_outputs first) (rf_outputs f)) rest = true) as ->; [|done].
    apply forallb_forall. intros f Hf. rewrite Forall_forall in Hall. apply Hall. by apply list_elem_of_In.
  - intros Hn. unfold apply_any. destruct (forallb _ rest) eqn:E; [|done]. destruct Hn. apply Forall_forall. intros f Hf.
    rewrite forallb_forall in E. apply E. by apply list_elem_of_In.
  - unfold apply_priority, apply_output_order. destruct (first_output_with_priority_list table) as [clause|].
    + exists (fold_left (better clause) rest first), (sort_by (rank_leb clause) l). split; [apply fold_best|]. split; [done|]. split; [done|].
      split; [apply (best_is_head (λ f, rank_of f clause))|]. split; [apply sort_by_perm|].
      split; [apply (sort_key_sorted (λ f, rank_of f clause))|apply (sort_key_stable (λ f, rank_of f clause))].
    + do 2 eexists. split; [|split; [|split]]; last first.
      * destruct (flatten v (first :: rest)); reflexivity.
      * destruct (apply_unique v (first :: rest)); reflexivity.
      * done.
      * done.
Qed.
End Policies.

(** ** The two ways to ask *)

Section Agreement.
Context `{UnicodeTables, BigDecimalOps, BigDecimalText, DecimalCrate, Doubles, TimeCrate, TimeText, TimeParse, Calendar,
  Regex, CaseTables} {ambient : Ambient} {natives : Natives}.

Lemma dm_run {A B} (m : DM A) (f : A → DM B) th : (m ≫= f) th = match m th with (Ok a, th') => f a th' | (Err e, th') => (Err e, th') end.
Proof. done. Qed.

Lemma first_match_firings fuel rules table safe th :
  match firings fuel rules table safe th with
  | (Ok [], th') => first_match fuel rules table safe th = (Ok [], th')
  | (Ok (f :: _), _) => (first_match fuel rules table safe th).1 = Ok (outputs_map (rf_outputs f))
  | (Err _, _) => True
  end.
Proof.
  revert th. induction rules as [|r rules IH]; intros th; [done|]. cbn [firings first_match]. destruct (well_formed r table); [|apply IH].
  rewrite !dm_run. destruct (rule_fires fuel r table safe th) as [[b|e] th1]; [|done]. destruct b; [|apply IH].
  rewrite !dm_run. destruct (evaluate_outputs fuel r table safe th1) as [[outs|e] th2]; [|done]. rewrite dm_run.
  by destruct (firings fuel rules table safe th2) as [[rest|e] th3].
Qed.

(** C23: a decision task and a validator read one table alike up to the hit policy.  On the
    same input and from the same state of the thread, [evaluate] gives the outputs of the first
    rule that fires for [validate], and nothing when none does, while [validate] applies the hit
    policy to all that fire.  Under FIRST, and under UNIQUE when one rule fires, that is the same
    rule; [evaluate] does not look at the policy. *)
Theorem evaluate_is_first_firing fuel v input th :
  let table := decision_table v in
  match (safe ← with_now v input; firings fuel (dt_rules table) table safe) th with
  | (Ok [], th') => dmn_evaluate v fuel input th = (Ok [], th') ∧ validate v fuel (PayloadMap input) th = (Ok [], th')
  | (Ok (f :: rest), th') =>
      (dmn_evaluate v fuel input th).1 = Ok (outputs_map (rf_outputs f)) ∧
      validate v fuel (PayloadMap input) th = (rejecting (apply_hit_policy v (dt_hit_policy table) (f :: rest) table), th')
  | (Err e, th') => validate v fuel (PayloadMap input) th = (Err e, th')
  end.
Proof.
  intros table. unfold dmn_evaluate, validate, validate_against. fold table. cbn [feel_context]. rewrite !dm_run.
  destruct (with_now v input th) as [[safe|e] th1]; [|done]. pose proof (first_match_firings fuel (dt_rules table) table safe th1) as Hf.
  rewrite dm_run. destruct (firings fuel (dt_rules table) table safe th1) as [[[|f rest]|e] th2]; by rewrite ?Hf.
Qed.
End Agreement.

(** ** Replay *)

Section Replays.
Context `{UnicodeTables, BigDecimalOps, BigDecimalText, DecimalCrate, Doubles, TimeCrate, TimeText, TimeParse, Calendar,
  Regex, CaseTables} {natives : Natives}.

(** Neither computation reads its surroundings, and they end alike, from any two states of the cache. *)
Definition same_dm {A} (P : A → Prop) (m1 m2 : DM A) : Prop :=
  ∀ th1 th2, cache_ok (th_cache th1) → cache_ok (th_cache th2) → ∃ r c1 c2,
    m1 th1 = (r, mk_thread (th_reads th1) c1) ∧ m2 th2 = (r, mk_thread (th_reads th2) c2) ∧ cache_ok c1 ∧ cache_ok c2 ∧ ∀ a, r = Ok a → P a.

Lemma same_dm_lift {A} (P : A → Prop) r : (∀ a, r = Ok a → P a) → same_dm P (dm_lift r) (dm_lift r).
Proof. intros Hr [k1 c1] [k2 c2] O1 O2. exists r, c1, c2. done. Qed.

Lemma same_dm_ret {A} (P : A → Prop) a : P a → same_dm P (mret a) (mret a).
Proof. intros Ha. apply (same_dm_lift P (Ok a)). by intros a' [= <-]. Qed.

Lemma same_dm_bind {A B} P (Q : B → Prop) (m1 m2 : DM A) (f1 f2 : A → DM B) :
  same_dm P m1 m2 → (∀ a, P a → same_dm Q (f1 a) (f2 a)) → same_dm Q (m1 ≫= f1) (m2 ≫= f2).
Proof.
  intros Hm Hf th1 th2 O1 O2. destruct (Hm th1 th2 O1 O2) as (r & c1 & c2 & E1 & E2 & K1 & K2 & Hr).
  unfold mbind, dm_bind. rewrite E1, E2. destruct r as [a|e]; [|by exists (Err e), c1, c2].
  destruct (Hf a (Hr a eq_refl) (mk_thread (th_reads th1) c1) (mk_thread (th_reads th2) c2) K1 K2) as (r & d1 & d2 & F1 & F2 & ?).
  by exists r, d1, d2.
Qed.

Lemma caught_ok {A} (P : A → Prop) (r : res A) : (∀ a, r = Ok a → P a) → ∀ o, caught r = Ok o → ∀ a, o = Some a → P a.
Proof. intros Hr. by destruct r as [a|[]]; intros o [= <-] a' [= <-]; auto. Qed.

(** Whatever names the context gives, the text denotes an expression that passes the determinism
    check, with plain literals. *)
Definition pure_text (s : string) : Prop :=
  ∀ ctx e, parse_in_context (positions_new s INLINE_FEEL_URI) ctx = Ok e → is_pure e = true ∧ plain_literals e.

Definition pure_rule (r : DmnRule) : Prop :=
  Forall (λ entry, ∀ full, to_full_expression entry = Ok full → pure_text full) (dr_input_entries r) ∧ Forall pure_text (dr_output_entries r).

Definition pure_table (t : DmnDecisionTable) : Prop :=
  Forall (λ i, pure_text (ic_expression i)) (dt_inputs t) ∧ Forall pure_rule (dt_rules t).

Section Two.
Context (Hnative : ∀ id args, Forall quiet args → quiet (native_call id args)) (amb1 amb2 : Ambient) (fuel : nat).

Lemma same_parse s ctx : pure_text s →
  same _ quiet_body (lift (parse_in_context (positions_new s INLINE_FEEL_URI) ctx)) (lift (parse_in_context (positions_new s INLINE_FEEL_URI) ctx)).
Proof.
  intros Hp. apply same_lift. intros e He. destruct (Hp _ _ He). apply everywhere_and; [|done]. apply denied_everywhere.
  unfold is_pure, find_denied_calls in *. by destruct (denied_calls e).
Qed.

Lemma same_eval_ok s ctx : pure_text s → quiet_scope ctx →
  same_dm (λ o, ∀ v, o = Some v → quiet v) (eval_ok (ambient := amb1) fuel s ctx) (eval_ok (ambient := amb2) fuel s ctx).
Proof.
  intros Hp Hc [k1 c1] [k2 c2] O1 O2. unfold eval_ok, eval_text. cbn [th_reads th_cache] in *.
  pose proof (λ (a : Ambient), parse_cache_transparent (H10 := a) fuel c1 s ctx INLINE_FEEL_URI O1) as T1.
  destruct (T1 amb1) as [E1 K1]. clear T1.
  pose proof (λ (a : Ambient), parse_cache_transparent (H10 := a) fuel c2 s ctx INLINE_FEEL_URI O2) as T2.
  destruct (T2 amb2) as [E2 K2]. clear T2.
  destruct (eval_with_uri fuel c1 s ctx INLINE_FEEL_URI) as [m1 d1], (eval_with_uri fuel c2 s ctx INLINE_FEEL_URI) as [m2 d2].
  cbn [fst snd] in *. subst m1 m2.
  destruct (same_bind quiet_body quiet _ _ _ _ (same_parse s ctx Hp) (λ e He, quiet_evaluations Hnative amb1 amb2
    (Some (positions_new s INLINE_FEEL_URI)) None fuel e ctx He Hc) k1 k2)
    as (r & F1 & F2 & Hr).
  unfold eval_fresh, eval_with_positions. rewrite F1, F2.
  exists (caught r), d1, d2. do 4 (split; [done|]). by apply caught_ok.
Qed.

Lemma same_eval_boolean_ok s ctx : pure_text s → quiet_scope ctx →
  same_dm (λ _, True) (eval_boolean_ok (ambient := amb1) fuel s ctx) (eval_boolean_ok (ambient := amb2) fuel s ctx).
Proof.
  intros Hp Hc [k1 c1] [k2 c2] O1 O2. unfold eval_boolean_ok, eval_boolean_text. cbn [th_reads th_cache] in *.
  assert (Hs : same _ (λ _, True) (eval_boolean_text (H10 := amb1) fuel s ctx) (eval_boolean_text (H10 := amb2) fuel s ctx)).
  { apply (same_bind quiet_body); [by apply same_parse|]. intros e He. apply (same_bind quiet); [by apply quiet_evaluations|].
    intros v _. by apply same_lift. }
  destruct (Hs k1 k2) as (r & F1 & F2 & _). unfold eval_boolean_text in F1, F2. rewrite F1, F2. exists (caught r), c1, c2. done.
Qed.

Lemma input_context_quiet v payload : quiet v → quiet_scope payload → quiet_scope (input_context v payload).
Proof.
  intros Hv Hp. unfold input_context. assert (Hi : quiet_scope [("input", v)]) by (by repeat constructor). revert Hi.
  generalize [("input", v)] as acc. induction Hp as [|[k w] l Hw Hl IH]; intros acc Ha; [done|]. simpl. apply IH.
  destruct (is_some (map_get k acc)); [done|by apply ok_insert].
Qed.

Lemma same_entry clause entry payload :
  pure_text (ic_expression clause) → (∀ full, to_full_expression entry = Ok full → pure_text full) → quiet_scope payload →
  same_dm (λ _, True) (entry_holds (ambient := amb1) fuel clause entry payload) (entry_holds (ambient := amb2) fuel clause entry payload).
Proof.
  intros Hc He Hp. unfold entry_holds. destruct (_ || _); [by apply same_dm_ret|]. eapply same_dm_bind; [by apply same_eval_ok|].
  intros [value|] Hv; [|by apply same_dm_ret]. apply (same_dm_bind pure_text); [by apply same_dm_lift|]. intros full Hf.
  eapply same_dm_bind; [apply same_eval_boolean_ok; [done|]; apply input_context_quiet; [by apply Hv|done]|]. intros b _. by apply same_dm_ret.
Qed.

Lemma same_rule_fires r t payload : pure_table t → pure_rule r → quiet_scope payload →
  same_dm (λ _, True) (rule_fires (ambient := amb1) fuel r t payload) (rule_fires (ambient := amb2) fuel r t payload).
Proof.
  intros [Hi _] [Hr _] Hp. unfold rule_fires. revert Hr. generalize (dr_input_entries r) as entries. induction Hi as [|i l Hi Hl IH]; intros entries Hr.
  - by apply same_dm_ret.
  - destruct Hr as [|e entries He Hr]; [by apply same_dm_lift|]. eapply same_dm_bind; [by apply same_entry|]. intros [] _; [by apply IH|by apply same_dm_ret].
Qed.

Lemma same_outputs r t payload : pure_rule r → quiet_scope payload →
  same_dm (λ _, True) (evaluate_outputs (ambient := amb1) fuel r t payload) (evaluate_outputs (ambient := amb2) fuel r t payload).
Proof.
  intros [_ Hr] Hp. unfold evaluate_outputs. revert Hr. generalize (dr_output_entries r) as entries.
  induction (dt_outputs t) as [|o l IH]; intros entries Hr; [by apply same_dm_ret|]. cbn [outputs_from].
  assert (Ht : Forall pure_text (tail entries)) by (by destruct Hr). destruct (is_blank _) eqn:Eb; [by apply IH|].
  assert (He : pure_text (match entries with e :: _ => e | [] => "" end)) by (by destruct Hr).
  eapply same_dm_bind; [by apply same_eval_ok|]. intros v _. eapply same_dm_bind; [by apply IH|]. intros rest _. by apply same_dm_ret.
Qed.

Lemma same_first_match t safe : pure_table t → quiet_scope safe → ∀ rules, Forall pure_rule rules →
  same_dm (λ _, True) (first_match (ambient := amb1) fuel rules t safe) (first_match (ambient := amb2) fuel rules t safe).
Proof.
  intros Ht Hs rules Hr. induction Hr as [|r l Hr Hl IH]; [by apply same_dm_ret|]. cbn [first_match]. destruct (well_formed r t); [|done].
  eapply same_dm_bind; [by apply same_rule_fires|]. intros [] _; [|done]. eapply same_dm_bind; [by apply same_outputs|]. intros outs _. by apply same_dm_ret.
Qed.
End Two.

(** A decision free of denied builtins depends on the clock only through [now].  When the
    expressions of its table, the rewritten input entries included, pass the determinism check
    and the functions of the input read no surroundings, [evaluate] under a fixed clock has one
    outcome for every clock and entropy source of FEEL and every state of the parse cache; and
    under the system clock it has the outcome of the clock fixed at the instant read. *)
Theorem pure_table_replays d input fuel t (amb1 amb2 : Ambient) th1 th2 :
  pure_table (dd_table d) → quiet_scope input → (∀ id args, Forall quiet args → quiet (native_call id args)) →
  cache_ok (th_cache th1) → cache_ok (th_cache th2) →
  let fixed := mk_validator d (FixedClock t) in
  (dmn_evaluate (ambient := amb1) fixed fuel input th1).1 = (dmn_evaluate (ambient := amb2) fixed fuel input th2).1 ∧
  (now_utc (Ambient := amb1) (th_reads th1) = t →
   (dmn_evaluate (ambient := amb1) (mk_validator d SystemClock) fuel input th1).1 = (dmn_evaluate (ambient := amb2) fixed fuel input th2).1).
Proof.
  intros Ht Hi Hn O1 O2 fixed. unfold dmn_evaluate, decision_table, with_now, clock_now, mbind, dm_bind, mret, dm_ret. simpl.
  set (safe := map_insert NOW_VARIABLE (Instant t (Some Zulu)) input). assert (Hs : quiet_scope safe) by (by apply ok_insert).
  pose proof (same_first_match Hn amb1 amb2 fuel (dd_table d) safe Ht Hs _ (proj2 Ht)) as Hsame. split.
  - destruct (Hsame th1 th2 O1 O2) as (r & c1 & c2 & E1 & E2 & _). by rewrite E1, E2.
  - intros ->. fold safe. destruct (Hsame (mk_thread (S (th_reads th1)) (th_cache th1)) th2 O1 O2) as (r & c1 & c2 & E1 & E2 & _). by rewrite E1, E2.
Qed.
End Replays.

(** ** Instances *)

#[local] Existing Instances ascii_tables plain_time_parse plain_time_text plain_decimal_crate plain_calendar plain_doubles
  plain_regex plain_case plain_natives.

Lemma pure_text_by s ts e :
  tokenize (positions_new s INLINE_FEEL_URI) = Ok ts → needs_name_resolution ts = false →
  parse_tokens (positions_new s INLINE_FEEL_URI) ts = Ok e → is_pure e = true → plain_literals e → pure_text s.
Proof.
  intros Ht Hn Hp Hpure Hlit ctx e'. unfold parse_in_context. rewrite Ht. cbn [mbind result_bind]. rewrite Hn, Hp. by intros [= <-].
Qed.

(** A concrete text. *)
Ltac pure_text :=
  eapply pure_text_by; [vm_compute; reflexivity|reflexivity|vm_compute; reflexivity|reflexivity|repeat constructor].

Lemma pure_entry entry full' : to_full_expression entry = Ok full' → pure_text full' → ∀ full, to_full_expression entry = Ok full → pure_text full.
Proof. by intros -> Hp full [= <-]. Qed.

Definition sample_decision : DmnDecision :=
  match df_decisions sample_definitions with d :: _ => d | [] => mk_decision "" "" (mk_table HpUnique [] [] []) end.

Definition fresh_thread : Thread := mk_thread 0 (mk_cache ∅ 0).

Lemma sample_pure : pure_table (dd_table sample_decision).
Proof.
  split; [apply Forall_cons_2; [|apply Forall_nil_2]|apply Forall_cons_2; [|apply Forall_cons_2; [|apply Forall_nil_2]]].
  - pure_text.
  - split; (apply Forall_cons_2; [|apply Forall_nil_2]);
      [apply (pure_entry _ "input > 1"); [vm_compute; reflexivity|]|]; pure_text.
  - split; (apply Forall_cons_2; [|apply Forall_nil_2]);
      [apply (pure_entry _ "input >= 5"); [vm_compute; reflexivity|]|]; pure_text.
Qed.

Lemma pure_table_replays_witness :
  (dmn_evaluate (ambient := still_ambient) (mk_validator sample_decision (FixedClock (mk_odt 7 0))) 1 [("score", num 6)] fresh_thread).1 =
  (dmn_evaluate (ambient := ticking_ambient) (mk_validator sample_decision (FixedClock (mk_odt 7 0))) 1 [("score", num 6)] fresh_thread).1.
Proof.
  refine (proj1 (pure_table_replays sample_decision [("score", num 6)] 1 (mk_odt 7 0) still_ambient ticking_ambient fresh_thread fresh_thread
    _ _ _ _ _)).
  - apply sample_pure.
  - repeat constructor.
  - intros id args. apply natives_list.
  - apply cache_ok_empty.
  - apply cache_ok_empty.
Defined.

(** A score of 6 fires both rules of the sample.  The validator reports the grade of the better
    rank; a decision task takes the other one. *)
Lemma evaluate_ignores_priority :
  let v := mk_validator sample_decision (FixedClock (mk_odt 0 0)) in
  (λ r, match r with Ok l => map vi_message l | Err _ => [] end) (validate (ambient := still_ambient) v 1 (PayloadMap [("score", num 6)]) fresh_thread).1
    = ["high"] ∧
  (dmn_evaluate (ambient := still_ambient) v 1 [("score", num 6)] fresh_thread).1 = Ok [("grade", Str "low")].
Proof. vm_compute. split; reflexivity. Qed.

(** The alternatives are joined as text: a conditional takes the ones after it into its last branch.
    The input 5 matches the second alternative of the entry and not the entry. *)
Definition conditional_entry : string := "if x then false else true, 5".

Lemma alternative_lost :
  let ctx := [("input", num 5); ("x", Boolean true)] in
  let holds s := (eval_boolean_text (H10 := still_ambient) 1 s ctx 0%nat).1 in
  to_full_expression "5" = Ok "input = 5" ∧ holds "input = 5" = Ok true ∧
  to_full_expression conditional_entry = Ok "if x then false else true or input = 5" ∧
  holds "if x then false else true or input = 5" = Ok false.
Proof. vm_compute. repeat split. Qed.
