(* ===== verification/DecisionTask.v ===== *)
(** * Rules in a process ([sutra-executor/src/registry.rs]: the engines behind a
    [<businessRuleTask>])

    The executor takes a decision engine as a function of the file and of the variables.  Here the
    engines of the registry are the rule engine of [SrlEngine] and the table engine of
    [DmnTable], which also read their surroundings and the caches of their thread: an engine
    [adapts] one of them at a state of these when it answers as it does there.

    The theorems: a task on a ruleset leaves the variables merged with what one pass over its
    agenda publishes ([rule_task_is_a_pass]); on a ruleset free of denied builtins two executors
    whose engines stand at different clocks, entropy sources and caches take the same step
    ([rule_task_replays]), which is what lets the executor treat the engine as a function. *)
From Stdlib Require Import ZArith Lia Bool Ascii String.
From stdpp Require Import base option strings gmap list.
From S2P Require Import Prelude Texts Decimal FeelValue Temporal FeelText TemporalParse FeelLexer FeelParser FeelSyntax.
From S2P Require Import FeelOps FeelBuiltins FeelEval FeelFacade FeelPlain FeelCarry FeelSim FeelRuns SrlSyntax SrlEngine DmnSyntax DmnTable.
From S2P Require Import ProcessModel Correlation Runtime ExecState Tasks.

Open Scope string_scope.
Open Scope list_scope.
Open Scope Z_scope.

(** ** The engines of the registry *)

(** [Display] of the errors. *)
Definition srl_error_text (e : SrlError) : string :=
  dec_string (se_line e) +:+ ":" +:+ dec_string (se_column e) +:+ ": " +:+ se_message e.
Definition dmn_error_text (e : DmnError) : string := "[" +:+ de_code e +:+ "] " +:+ de_message e.

(** [.map(|m| m.into_iter().collect()).map_err(|e| e.to_string())]; a panic is no answer. *)
Definition engine_answer {E} (text : E → string) (r : result (fault E) (list (string * FeelValue))) : option (result string Variables) :=
  match r with
  | Ok m => Some (Ok (var_from_iter m))
  | Err (Rejected e) => Some (Err (text e))
  | Err _ => None
  end.

Section Adapters.
Context `{UnicodeTables, BigDecimalOps, BigDecimalText, DecimalCrate, Doubles, TimeCrate, TimeText, TimeParse, Calendar,
  Regex, CaseTables, XmlReader} {ambient : Ambient} {natives : Natives}.

(** [SrlEngine::evaluate]. *)
Definition srl_answer (fuel : nat) (cache : RulesetCache) (k : nat) (decision_file : string) (input : Variables) : option (result string Variables) :=
  engine_answer srl_error_text ((srl_evaluate fuel cache decision_file (to_feel_context input)).1 k).1.

(** [DmnEngine::evaluate]. *)
Definition dmn_answer (fuel : nat) (th : Thread) (decision_file : string) (input : Variables) : option (result string Variables) :=
  engine_answer dmn_error_text (engine_evaluate fuel decision_file (to_feel_context input) th).1.

Record adapts (name : string) (extension : string) (answer : string → Variables → option (result string Variables)) (e : DecisionEngine) : Prop := {
  ad_name : en_name e = name;
  ad_extensions : en_extensions e = [extension];
  ad_answer : ∀ decision_id decision_file input r, answer decision_file input = Some r → en_run e decision_id decision_file input = r
}.

Definition adapts_srl (fuel : nat) (cache : RulesetCache) (k : nat) : DecisionEngine → Prop := adapts "srl" ".srl" (srl_answer fuel cache k).
Definition adapts_dmn (fuel : nat) (th : Thread) : DecisionEngine → Prop := adapts "dmn" ".dmn" (dmn_answer fuel th).
End Adapters.

(** ** The registry picks by extension *)

Lemma to_lowercase_app a b : Runtime.to_lowercase (a +:+ b) = Runtime.to_lowercase a +:+ Runtime.to_lowercase b.
Proof. induction a as [|c a IH]; [done|]. simpl. by rewrite IH. Qed.

Lemma ends_with_step suffix s : ends_with suffix s = String.eqb s suffix || match s with EmptyString => false | String _ r => ends_with suffix r end.
Proof. by destruct s. Qed.

Lemma ends_with_suffix a suffix : ends_with suffix (a +:+ suffix) = true.
Proof. induction a as [|c a IH]; rewrite ends_with_step; simpl; [by rewrite String.eqb_refl|by rewrite IH, orb_true_r]. Qed.

Lemma ends_with_shorter suffix s : (String.length s < String.length suffix)%nat → ends_with suffix s = false.
Proof.
  induction s as [|c s IH]; intros Hs; rewrite ends_with_step; [by destruct suffix; simpl in *; [lia|]|].
  rewrite IH, orb_false_r by (simpl in Hs; lia). apply String.eqb_neq. intros E. subst suffix. lia.
Qed.

Lemma ends_with_other a suffix suffix' : String.length suffix = String.length suffix' → suffix ≠ suffix' → ends_with suffix (a +:+ suffix') = false.
Proof.
  intros Hl Hne. induction a as [|c a IH]; rewrite ends_with_step.
  - change ("" +:+ suffix') with suffix'. assert (String.eqb suffix' suffix = false) as -> by (by apply String.eqb_neq).
    destruct suffix' as [|d r]; [done|]. apply ends_with_shorter. simpl in Hl. lia.
  - change (String c a +:+ suffix') with (String c (a +:+ suffix')). cbn match. rewrite IH, orb_false_r.
    apply String.eqb_neq. intros E. apply (f_equal String.length) in E. simpl in E. rewrite string_length_app in E. lia.
Qed.

Lemma trim_visible a c : is_whitespace c = false → str_is_empty (trim (a +:+ String c "")) = false.
Proof.
  intros Hc. destruct (str_is_empty _) eqn:E; [|done]. exfalso.
  destruct (trim_start_skip (a +:+ String c "")) as (p & Hp & Wp), (trim_end_skip (trim_start (a +:+ String c ""))) as (q & Hq & Wq).
  unfold trim in E. destruct (trim_end _) eqn:Et; [|done]. simpl in Hq. rewrite Hq in Hp.
  assert (W : string_all is_whitespace (a +:+ String c "") = true) by (rewrite Hp, string_all_app, Wp, Wq; done).
  rewrite string_all_app in W. simpl in W. rewrite Hc in W. by rewrite andb_false_r in W.
Qed.

Lemma srl_file_picks_srl (dmn srl : DecisionEngine) file :
  en_extensions dmn = [".dmn"] → en_extensions srl = [".srl"] → for_implementation [dmn; srl] (file +:+ ".srl") = Some srl.
Proof.
  intros Hd Hs. unfold for_implementation. change ".srl" with (".sr" +:+ "l") at 1.
  rewrite <-string_app_assoc, trim_visible by done.
  cbn [List.find]. rewrite Hd, Hs, to_lowercase_app. cbn [existsb]. rewrite (ends_with_other _ ".dmn" ".srl") by done.
  by rewrite (ends_with_suffix _ ".srl").
Qed.

(** ** The task *)

Section RuleTask.
Context `{UnicodeTables, BigDecimalOps, BigDecimalText, DecimalCrate, Doubles, TimeCrate, TimeText, TimeParse, Calendar,
  Regex, CaseTables, XmlReader, !Crates} {natives : Natives} {X : Type}.

(** What the executor makes of the answer of an engine. *)
Definition after_answer (answer : result string Variables) (w : World X) (s : ExecutionState X)
    : result (fault Signal) unit * World X * ExecutionState X :=
  match answer with
  | Ok out =>
      (Ok tt, mk_world (with_variables (if is_nil out then cx_variables (w_ctx w) else var_merge (cx_variables (w_ctx w)) out) (w_ctx w))
                (w_events w) (w_emissions w) (w_ext w), s)
  | Err e => (Err (Rejected (fatal_diag RUNTIME_UNEXPECTED e)), w, s)
  end.

Lemma task_answer (self : TokenExecutor X) id file src dmn srl answer (w : World X) (s : ExecutionState X) r :
  decisions self !! artifact_key (s_deployment s) Decision (file +:+ ".srl") = Some src →
  decision_engines self = [dmn; srl] → en_extensions dmn = [".dmn"] → adapts "srl" ".srl" answer srl →
  answer src (cx_variables (w_ctx w)) = Some r →
  run_business_rule_task self id (file +:+ ".srl") w s = after_answer r w s.
Proof.
  intros Hd He Hdmn [_ Hext Hans] Ha. unfold run_business_rule_task, mbind, M_bind, read.
  match goal with |- context [@lookup ?a ?b ?c ?d ?e ?f] => replace (@lookup a b c d e f) with (Some src) by (symmetry; exact Hd) end.
  rewrite He. cbn [is_nil]. rewrite (srl_file_picks_srl dmn srl file Hdmn Hext). unfold get_vars. rewrite (Hans _ _ _ _ Ha).
  by destruct r.
Qed.

(** An executor whose registry holds the table engine and a rule engine at a state of its surroundings. *)
Record rule_executor (self : TokenExecutor X) (s : ExecutionState X) (file src : string)
    (ambient : Ambient) (fuel : nat) (cache : RulesetCache) (k : nat) : Prop := {
  re_file : decisions self !! artifact_key (s_deployment s) Decision (file +:+ ".srl") = Some src;
  re_cache : ruleset_cache_ok cache;
  re_engines : ∃ dmn srl, decision_engines self = [dmn; srl] ∧ en_extensions dmn = [".dmn"] ∧ adapts_srl (ambient := ambient) fuel cache k srl
}.

Lemma rule_executor_answer self id file src (amb : Ambient) fuel cache k (w : World X) (s : ExecutionState X) r :
  rule_executor self s file src amb fuel cache k → srl_answer (ambient := amb) fuel cache k src (cx_variables (w_ctx w)) = Some r →
  run_business_rule_task self id (file +:+ ".srl") w s = after_answer r w s.
Proof. intros [Hf _ (dmn & srl & He & Hd & Ha)] Hr. by eapply task_answer. Qed.

Lemma srl_answer_pass (amb : Ambient) fuel cache k src rs input out : ruleset_cache_ok cache → srl_parse src = Ok rs →
  srl_answer (ambient := amb) fuel cache k src input = Some (Ok out) →
  ∃ story last k', map fst story = agenda rs ∧
    Pass (ambient := amb) fuel (positions_new src SRL_URI) (mk_firing (to_feel_context input) [] [] [], k) story (last, k') ∧ out = var_from_iter (publish last).
Proof.
  intros Hc Hp. unfold srl_answer. rewrite (proj1 (evaluate_through_cache (ambient := amb) fuel cache src _ Hc)). unfold evaluate_fresh.
  rewrite Hp. destruct (utf8_valid src); [|done]. destruct (run_agenda _ _ _ _ k) as [[m|[e| |]] k'] eqn:E; try done. intros [= <-].
  apply em_run in E as (last & k1 & E & [= <- <-]). destruct (run_is_pass _ _ _ _ _ _ _ E) as (story & Hs & Hpass). by exists story, last, k1.
Qed.

(** C14: a rule task takes the same step wherever it is replayed.  On a ruleset whose expressions
    pass the determinism check, and on variables whose functions read no surroundings, two
    executors whose rule engines stand at different clocks, entropy sources, readings and parse
    caches do the same to the world and the state of the instance: an error of the engine is
    raised as one diagnostic, and an answer is merged into the variables.  The answer is what one
    pass over the agenda of the ruleset publishes. *)
Theorem rule_task_replays self1 self2 id file src rs fuel (amb1 amb2 : Ambient) cache1 cache2 k1 k2 (w : World X) (s : ExecutionState X) r :
  rule_executor self1 s file src amb1 fuel cache1 k1 → rule_executor self2 s file src amb2 fuel cache2 k2 →
  srl_parse src = Ok rs → Forall SrlEngine.pure_rule (rules rs) → quiet_scope (to_feel_context (cx_variables (w_ctx w))) →
  (∀ id args, Forall quiet args → quiet (native_call id args)) →
  srl_answer (ambient := amb1) fuel cache1 k1 src (cx_variables (w_ctx w)) = Some r →
  run_business_rule_task self1 id (file +:+ ".srl") w s = after_answer r w s ∧
  run_business_rule_task self2 id (file +:+ ".srl") w s = after_answer r w s ∧
  ∀ out, r = Ok out → ∃ story last k', map fst story = agenda rs ∧
    Pass (ambient := amb1) fuel (positions_new src SRL_URI) (mk_firing (to_feel_context (cx_variables (w_ctx w))) [] [] [], k1) story (last, k') ∧
    out = var_from_iter (publish last).
Proof.
  intros E1 E2 Hp Hpure Hq Hn Ha. split; [exact (rule_executor_answer _ _ _ _ _ _ _ _ _ _ _ E1 Ha)|]. split.
  - apply (rule_executor_answer _ _ _ _ _ _ _ _ _ _ _ E2). rewrite <-Ha. unfold srl_answer.
    rewrite (proj1 (evaluate_through_cache (ambient := amb1) fuel cache1 src _ (re_cache _ _ _ _ _ _ _ _ E1))).
    rewrite (proj1 (evaluate_through_cache (ambient := amb2) fuel cache2 src _ (re_cache _ _ _ _ _ _ _ _ E2))). unfold evaluate_fresh.
    rewrite Hp. destruct (utf8_valid src); [|done].
    destruct (same_agenda Hn amb1 amb2 fuel (positions_new src SRL_URI) rs _ Hpure Hq k1 k2) as (o & F1 & F2 & _). by rewrite F1, F2.
  - intros out ->. eapply srl_answer_pass; [exact (re_cache _ _ _ _ _ _ _ _ E1)|done|exact Ha].
Qed.
End RuleTask.

(** ** Instances *)

#[local] Existing Instances ascii_tables plain_time_parse plain_time_text plain_decimal_crate plain_calendar plain_doubles
  plain_regex plain_case plain_natives.
#[local] Instance no_documents : XmlReader := {| read_events _ := [] |}.

Definition answering (name extension : string) (answer : string → Variables → option (result string Variables)) : DecisionEngine :=
  mk_engine name [extension] (λ _ file input, default (Err "") (answer file input)).

Lemma answering_adapts name extension answer : adapts name extension answer (answering name extension answer).
Proof. split; [done|done|]. intros id file input r Hr. unfold answering. cbn [en_run]. by rewrite Hr. Qed.

Definition sample_process : ProcessDefinition := mk_process "p" None true "1.0" [] [] ∅ ∅ ∅ [] [] [] None false [].
Definition sample_state : ExecutionState unit := new_state sample_process unresolved [] "instance".
Definition sample_world : World unit := mk_world (mk_ctx unresolved [] "instance" "m" "1" false [("x", num 3)]) [] [] tt.

Definition sample_executor (amb : Ambient) (k : nat) : TokenExecutor unit :=
  mk_executor [] (λ _ _, Ok false) (λ _ _, Ok Null) None None None None None None false None [] ∅ ∅
    [answering "dmn" ".dmn" (dmn_answer (ambient := amb) 1 fresh_thread); answering "srl" ".srl" (srl_answer (ambient := amb) 1 ∅ k)]
    {[artifact_key (s_deployment sample_state) Decision ("grade" +:+ ".srl") := sample_rules]} ∅
    (λ u, ("instance", u)) (λ u, ("0", u)) (λ u, (mk_odt 0 0, u)) (λ u, (0, u)) None.

Lemma sample_rule_executor amb k : rule_executor (sample_executor amb k) sample_state "grade" sample_rules amb 1 ∅ k.
Proof.
  split; [apply lookup_singleton_eq|apply empty_cache_ok|]. eexists _, _. split; [reflexivity|]. split; [reflexivity|]. apply answering_adapts.
Qed.

Lemma sample_answers : is_some (srl_answer (ambient := still_ambient) 1 ∅ 0 sample_rules (cx_variables (w_ctx sample_world))) = true.
Proof. vm_compute. reflexivity. Qed.

Lemma rule_task_replays_witness :
  run_business_rule_task (sample_executor still_ambient 0) "t" ("grade" +:+ ".srl") sample_world sample_state =
  run_business_rule_task (sample_executor ticking_ambient 5) "t" ("grade" +:+ ".srl") sample_world sample_state.
Proof.
  pose proof sample_answers as Ha.
  destruct (srl_answer (ambient := still_ambient) 1 ∅ 0 sample_rules (cx_variables (w_ctx sample_world))) as [r|] eqn:Er; [|discriminate Ha].
  destruct (rule_task_replays (sample_executor still_ambient 0) (sample_executor ticking_ambient 5) "t" "grade" sample_rules sample_ruleset 1
    still_ambient ticking_ambient ∅ ∅ 0 5 sample_world sample_state r) as (E1 & E2 & _).
  - apply sample_rule_executor.
  - apply sample_rule_executor.
  - apply sample_ruleset_parses.
  - vm_compute. repeat constructor.
  - vm_compute. repeat constructor.
  - intros id args. apply natives_list.
  - exact Er.
  - rewrite E1, E2. reflexivity.
Defined.
