(* ===== verification/Capacity.v ===== *)
(** * Capacity pools

    [sutra-channels/src/capacity.rs], with the diagnostic of [diag.rs].  A pool is a
    number of slots shared by every channel that names it; a call holds one slot of its
    pool, keyed by deployment, holder, pool and call.  [CapacityPoolStore] is the
    interface the dispatcher lanes and the outbox dispatcher acquire through;
    [InMemoryCapacityPools] is the store of a host without persistence, in which
    [capacity_kept] and [reserve_available] hold of every sequence of operations. *)
From Stdlib Require Import ZArith Lia Bool Ascii String.
From stdpp Require Import base option strings gmap list.
From S2P Require Import Prelude Texts.

(** ** Diagnostics *)

Record Diagnostic : Type := mk_diagnostic { d_code : string; d_message : string; d_attributes : gmap string string }.

Definition diag_error (code message : string) : Diagnostic := mk_diagnostic code message ∅.

Definition with_attribute (key value : string) (d : Diagnostic) : Diagnostic :=
  mk_diagnostic (d_code d) (d_message d) (<[key := value]> (d_attributes d)).

(** ** Pools *)

Definition CAPACITY_POOL_HEADER : string := "sutra-capacity-pool".
Definition CAPACITY_CALL_HEADER : string := "sutra-capacity-call".
Definition CAPACITY_CALL_KEY_HEADER : string := "sutra-capacity-call-key".

Inductive SlotDirection : Type := Inbound | Outbound.

#[export] Instance slot_direction_eq_dec : EqDecision SlotDirection.
Proof. solve_decision. Defined.

Definition direction_str (d : SlotDirection) : string :=
  match d with Inbound => "INBOUND" | Outbound => "OUTBOUND" end.

Definition direction_parse (raw : string) : option SlotDirection :=
  if String.eqb raw "INBOUND" then Some Inbound
  else if String.eqb raw "OUTBOUND" then Some Outbound
  else None.

Inductive CallSelector : Type := SelectCall (key : string) | SelectDirection (d : SlotDirection).

Definition selector_matches (s : CallSelector) (call : string) (direction : SlotDirection) : bool :=
  match s with
  | SelectCall key => String.eqb key call
  | SelectDirection d => bool_decide (d = direction)
  end.

(** The counts are [u32]. *)
Record CapacityPool : Type := mk_pool {
  pool_name : string; pool_slots : Z; reserve_inbound : Z; reserve_outbound : Z; pool_tenants : option (list string) }.

Definition pool_new (name : string) (slots : Z) : CapacityPool := mk_pool name slots 0 0 None.

Definition with_reserves (inbound outbound : Z) (p : CapacityPool) : CapacityPool :=
  mk_pool (pool_name p) (pool_slots p) inbound outbound (pool_tenants p).

Definition with_tenants (ts : list string) (p : CapacityPool) : CapacityPool :=
  mk_pool (pool_name p) (pool_slots p) (reserve_inbound p) (reserve_outbound p) (Some ts).

Definition pool_name_char (c : ascii) : bool := is_ascii_lowercase c || is_ascii_digit c || Ascii.eqb c "-".

Definition pool_validate (p : CapacityPool) : result string unit :=
  if negb (negb (str_is_empty (pool_name p)) && string_all pool_name_char (pool_name p)) then
    Err ("capacity pool name '" +:+ pool_name p +:+ "' must be lowercase letters, digits and dashes")
  else if pool_slots p =? 0 then
    Err ("capacity pool '" +:+ pool_name p +:+ "' declares 0 slots; a pool needs at least one")
  else if pool_slots p <? reserve_inbound p + reserve_outbound p then
    Err ("capacity pool '" +:+ pool_name p +:+ "': reserve.inbound (" +:+ dec_string (reserve_inbound p)
         +:+ ") + reserve.outbound (" +:+ dec_string (reserve_outbound p) +:+ ") exceeds its "
         +:+ dec_string (pool_slots p) +:+ " slots")
  else Ok tt.

Definition allows_tenant (tenant : string) (p : CapacityPool) : bool :=
  match pool_tenants p with None => true | Some allowed => existsb (String.eqb tenant) allowed end.

Definition saturating_sub (a b : Z) : Z := Z.max 0 (a - b).

(** The reserve rule. *)
Definition admits (p : CapacityPool) (direction : SlotDirection) (inbound_used outbound_used : Z) : bool :=
  let '(other_used, other_reserve) :=
    match direction with
    | Inbound => (outbound_used, reserve_outbound p)
    | Outbound => (inbound_used, reserve_inbound p)
    end in
  let held_back := saturating_sub other_reserve other_used in
  inbound_used + outbound_used + 1 + held_back <=? pool_slots p.

(** ** The interface *)

Record SlotRequest : Type := mk_request {
  req_pool : string; req_deployment : string; req_tenant : string; req_holder : string; req_call : string;
  req_direction : SlotDirection; require_live : bool }.

Inductive SlotAcquisition : Type :=
| Acquired
| AlreadyHeld
| Exhausted (inbound_used outbound_used : Z)
| InstanceEnded
| SessionEnded
| UnknownPool.

Class CapacityPoolStore (S : Type) : Type := {
  cps_pool : string → S → option CapacityPool;
  cps_acquire : SlotRequest → S → result Diagnostic SlotAcquisition * S;
  cps_rebind : string → string → string → S → S;
  cps_release : string → string → S → Z * S;
  cps_release_ended : string → string → S → Z * S;
  cps_end_session : string → string → option string → S → list SlotDirection * S;
  cps_session_ended : string → string → string → S → bool;
  cps_release_calls : string → string → CallSelector → S → list SlotDirection * S;
  cps_release_call_if_ended : string → string → string → S → Z * S;
  cps_usage : string → S → Z * Z
}.

(** ** The store in memory *)

(** Deployment, holder, pool and call. *)
Abbreviation SlotKey := (string * string * string * string)%type (only parsing).

Definition key_deployment (k : SlotKey) : string := k.1.1.1.
Definition key_holder (k : SlotKey) : string := k.1.1.2.
Definition key_pool (k : SlotKey) : string := k.1.2.
Definition key_call (k : SlotKey) : string := k.2.

Record InMemoryCapacityPools : Type := mk_pools {
  pools : gmap string CapacityPool;
  slots : gmap SlotKey SlotDirection;
  ended : list (string * string);
  sessions_ended : list (string * string * string) }.

Definition ENDED_MEMORY : nat := 4096.

Definition with_slots (m : gmap SlotKey SlotDirection) (s : InMemoryCapacityPools) : InMemoryCapacityPools :=
  mk_pools (pools s) m (ended s) (sessions_ended s).

Definition pools_new (ps : list CapacityPool) : InMemoryCapacityPools :=
  mk_pools (fold_left (λ m p, <[pool_name p := p]> m) ps ∅) ∅ [] [].

(** The order of a [BTreeMap] over the keys. *)
Definition key_leb (a b : SlotKey * SlotDirection) : bool :=
  let cmp x y k := match String.compare x y with Lt => true | Gt => false | Eq => k end in
  cmp (key_deployment a.1) (key_deployment b.1)
    (cmp (key_holder a.1) (key_holder b.1)
      (cmp (key_pool a.1) (key_pool b.1) (str_leb (key_call a.1) (key_call b.1)))).

Definition slot_list (m : gmap SlotKey SlotDirection) : list (SlotKey * SlotDirection) := sort_by key_leb (map_to_list m).

Definition ended_session (dep holder call : string) (s : InMemoryCapacityPools) : bool :=
  existsb (λ e, String.eqb e.1.1 dep && String.eqb e.1.2 holder && (str_is_empty e.2 || String.eqb e.2 call)) (sessions_ended s).

Definition usage_of (m : gmap SlotKey SlotDirection) (pool : string) : Z * Z :=
  fold_left (λ acc e,
    if String.eqb (key_pool e.1) pool then
      match e.2 with Inbound => (acc.1 + 1, acc.2) | Outbound => (acc.1, acc.2 + 1) end
    else acc) (slot_list m) (0, 0).

Definition released_by (dep holder : string) (release : string → SlotDirection → bool) (e : SlotKey * SlotDirection) : bool :=
  String.eqb (key_deployment e.1) dep && String.eqb (key_holder e.1) holder && release (key_call e.1) e.2.

Definition release_where (dep holder : string) (release : string → SlotDirection → bool) (s : InMemoryCapacityPools) :
    list SlotDirection * InMemoryCapacityPools :=
  (map snd (List.filter (released_by dep holder release) (slot_list (slots s))),
   with_slots (filter (λ e, released_by dep holder release e = false) (slots s)) s).

Definition held_calls (dep holder pool : string) (s : InMemoryCapacityPools) : Z :=
  Z.of_nat (length (List.filter (λ e, String.eqb (key_deployment e.1) dep && String.eqb (key_holder e.1) holder
                                     && String.eqb (key_pool e.1) pool) (slot_list (slots s)))).

Definition holds (dep holder pool : string) (s : InMemoryCapacityPools) : bool := 0 <? held_calls dep holder pool s.

Definition acquire (r : SlotRequest) (s : InMemoryCapacityPools) : SlotAcquisition * InMemoryCapacityPools :=
  match pools s !! req_pool r with
  | None => (UnknownPool, s)
  | Some pool =>
      let key := (req_deployment r, req_holder r, req_pool r, req_call r) in
      if bool_decide (req_direction r = Outbound) && ended_session (req_deployment r) (req_holder r) (req_call r) s then
        (SessionEnded, s)
      else if is_some (slots s !! key) then (AlreadyHeld, s)
      else
        let '(inbound_used, outbound_used) := usage_of (slots s) (req_pool r) in
        if negb (admits pool (req_direction r) inbound_used outbound_used) then (Exhausted inbound_used outbound_used, s)
        else (Acquired, with_slots (<[key := req_direction r]> (slots s)) s)
  end.

(** [entry(k).or_insert(v)]. *)
Definition or_insert (k : SlotKey) (d : SlotDirection) (m : gmap SlotKey SlotDirection) : gmap SlotKey SlotDirection :=
  match m !! k with Some _ => m | None => <[k := d]> m end.

Definition rebind_one (from to : string) (m : gmap SlotKey SlotDirection) (e : SlotKey * SlotDirection) : gmap SlotKey SlotDirection :=
  or_insert (key_deployment e.1, to, key_pool e.1, key_call e.1) e.2
    (delete (key_deployment e.1, from, key_pool e.1, key_call e.1) m).

Definition rebind (dep from to : string) (s : InMemoryCapacityPools) : InMemoryCapacityPools :=
  let moved := List.filter (λ e, String.eqb (key_deployment e.1) dep && String.eqb (key_holder e.1) from) (slot_list (slots s)) in
  with_slots (fold_left (rebind_one from to) moved (slots s)) s.

(** A memory of the last [ENDED_MEMORY] keys. *)
Definition remember {A} `{EqDecision A} (key : A) (l : list A) : list A :=
  if bool_decide (key ∈ l) then l
  else (if (ENDED_MEMORY <=? length l)%nat then tail l else l) ++ [key].

Definition release (dep holder : string) (s : InMemoryCapacityPools) : Z * InMemoryCapacityPools :=
  let '(freed, s) := release_where dep holder (λ _ _, true) s in (Z.of_nat (length freed), s).

Definition release_ended (dep holder : string) (s : InMemoryCapacityPools) : Z * InMemoryCapacityPools :=
  release dep holder (mk_pools (pools s) (slots s) (remember (dep, holder) (ended s)) (sessions_ended s)).

Definition end_session (dep holder : string) (call : option string) (s : InMemoryCapacityPools) :
    list SlotDirection * InMemoryCapacityPools :=
  let s := mk_pools (pools s) (slots s) (ended s) (remember (dep, holder, default "" call) (sessions_ended s)) in
  match call with
  | Some call => release_where dep holder (λ c _, String.eqb c call) s
  | None => release_where dep holder (λ _ _, true) s
  end.

Definition session_ended (dep holder call : string) (s : InMemoryCapacityPools) : bool := ended_session dep holder call s.

Definition release_calls (dep holder : string) (selector : CallSelector) (s : InMemoryCapacityPools) :
    list SlotDirection * InMemoryCapacityPools :=
  release_where dep holder (selector_matches selector) s.

Definition release_call_if_ended (dep holder call : string) (s : InMemoryCapacityPools) : Z * InMemoryCapacityPools :=
  if negb (bool_decide ((dep, holder) ∈ ended s)) then (0, s)
  else let '(freed, s) := release_calls dep holder (SelectCall call) s in (Z.of_nat (length freed), s).

Definition usage (pool : string) (s : InMemoryCapacityPools) : Z * Z := usage_of (slots s) pool.

#[export] Instance in_memory_pools : CapacityPoolStore InMemoryCapacityPools := {
  cps_pool name s := pools s !! name;
  cps_acquire r s := let '(a, s) := acquire r s in (Ok a, s);
  cps_rebind := rebind;
  cps_release := release;
  cps_release_ended := release_ended;
  cps_end_session := end_session;
  cps_session_ended := session_ended;
  cps_release_calls := release_calls;
  cps_release_call_if_ended := release_call_if_ended;
  cps_usage := usage
}.

(** ** Counting slots *)

Definition on_side (pool : string) (d : SlotDirection) (e : SlotKey * SlotDirection) : bool :=
  String.eqb (key_pool e.1) pool && bool_decide (e.2 = d).

Definition count (pool : string) (d : SlotDirection) (m : gmap SlotKey SlotDirection) : Z :=
  Z.of_nat (length (List.filter (on_side pool d) (map_to_list m))).

Lemma filter_length_perm {A} (f : A → bool) l l' : l ≡ₚ l' → length (List.filter f l) = length (List.filter f l').
Proof. induction 1; simpl; repeat case_match; simpl; congruence. Qed.

Lemma count_nonneg pool d m : 0 <= count pool d m.
Proof. unfold count. lia. Qed.

Lemma count_empty pool d : count pool d ∅ = 0.
Proof. done. Qed.

Definition side_of (pool : string) (d : SlotDirection) (e : SlotKey * SlotDirection) : Z := if on_side pool d e then 1 else 0.

Lemma count_insert pool d k x m : m !! k = None → count pool d (<[k := x]> m) = side_of pool d (k, x) + count pool d m.
Proof.
  intros Hk. unfold count, side_of. rewrite (filter_length_perm _ _ _ (map_to_list_insert m k x Hk)). simpl. case_match; simpl; lia.
Qed.

Lemma count_delete pool d k x m : m !! k = Some x → count pool d m = side_of pool d (k, x) + count pool d (delete k m).
Proof.
  intros Hk. unfold count, side_of. rewrite <-(filter_length_perm _ _ _ (map_to_list_delete m k x Hk)). simpl. case_match; simpl; lia.
Qed.

Lemma count_mono pool d m m' : m ⊆ m' → count pool d m <= count pool d m'.
Proof.
  intros (r & Hr)%map_to_list_submseteq%submseteq_Permutation. unfold count.
  rewrite (filter_length_perm _ _ _ Hr), List.filter_app, length_app. lia.
Qed.

Lemma side_of_key pool d k k' x : key_pool k = key_pool k' → side_of pool d (k, x) = side_of pool d (k', x).
Proof. unfold side_of, on_side. simpl. by intros ->. Qed.

Lemma usage_count m pool : usage_of m pool = (count pool Inbound m, count pool Outbound m).
Proof.
  unfold usage_of, count. rewrite <-!(filter_length_perm _ _ _ (sort_by_perm key_leb (map_to_list m))).
  fold (slot_list m). generalize (slot_list m) as l. intros l.
  assert (H : ∀ a b, fold_left (λ acc e, if String.eqb (key_pool e.1) pool then
      match e.2 with Inbound => (acc.1 + 1, acc.2) | Outbound => (acc.1, acc.2 + 1) end else acc) l (a, b) =
    (a + Z.of_nat (length (List.filter (on_side pool Inbound) l)), b + Z.of_nat (length (List.filter (on_side pool Outbound) l)))).
  { induction l as [|[k x] l IH]; intros a b; simpl; [f_equal; lia|].
    change (on_side pool Inbound (k, x)) with (String.eqb (key_pool k) pool && bool_decide (x = Inbound)).
    change (on_side pool Outbound (k, x)) with (String.eqb (key_pool k) pool && bool_decide (x = Outbound)).
    destruct (String.eqb (key_pool k) pool); simpl; [destruct x; simpl|]; rewrite IH; f_equal; lia. }
  by rewrite H.
Qed.

(** Each move gives up one slot and takes at most one of the same side. *)
Lemma rebind_one_count pool d from to m k x :
  m !! k = Some x → key_holder k = from → count pool d (rebind_one from to m (k, x)) <= count pool d m.
Proof.
  destruct k as [[[dep h] p] c]. cbn [key_holder fst snd]. intros Hk ->. unfold rebind_one, or_insert. cbn [key_deployment key_pool key_call fst snd].
  rewrite (count_delete _ _ _ _ _ Hk). case_match eqn:E.
  - unfold side_of. case_match; lia.
  - rewrite count_insert by done. rewrite (side_of_key _ _ (dep, to, p, c) (dep, from, p, c)) by done. lia.
Qed.

Lemma rebind_one_others from to m k x k' :
  key_holder k = from → key_holder k' = from → k' ≠ k → from ≠ to → rebind_one from to m (k, x) !! k' = m !! k'.
Proof.
  destruct k as [[[dep h] p] c], k' as [[[dep' h'] p'] c']. cbn [key_holder fst snd]. intros -> -> Hne Hft.
  unfold rebind_one, or_insert. cbn [key_deployment key_pool key_call fst snd].
  case_match; [|rewrite lookup_insert_ne by congruence]; by rewrite lookup_delete_ne by congruence.
Qed.

Lemma rebind_one_same from m k x : m !! k = Some x → key_holder k = from → rebind_one from from m (k, x) = m.
Proof.
  destruct k as [[[dep h] p] c]. cbn [key_holder fst snd]. intros Hk ->. unfold rebind_one, or_insert. cbn [key_deployment key_pool key_call fst snd].
  rewrite lookup_delete_eq, insert_delete_eq. by apply insert_id.
Qed.

Lemma rebind_fold_count pool d from to l m :
  NoDup (map fst l) → Forall (λ e, m !! e.1 = Some e.2 ∧ key_holder e.1 = from) l →
  count pool d (fold_left (rebind_one from to) l m) <= count pool d m.
Proof.
  revert m. induction l as [|[k x] l IH]; intros m Hnd Hl; simpl; [lia|]. apply NoDup_cons in Hnd as [Hk Hnd].
  apply Forall_cons in Hl as [[Hx Hh] Hl]. cbn [fst snd] in *. etrans; [apply IH; [done|]|by apply rebind_one_count].
  rewrite Forall_forall in Hl |- *. intros [k' x'] He. destruct (Hl _ He) as [Hx' Hh']. cbn [fst snd] in *. split; [|done].
  destruct (decide (from = to)) as [<-|Hft]; [by rewrite rebind_one_same|]. rewrite rebind_one_others; [done..| |done].
  intros ->. apply Hk. apply (list_elem_of_fmap_2 fst _ _ He).
Qed.

Lemma elem_of_slot_list k x m : (k, x) ∈ slot_list m ↔ m !! k = Some x.
Proof. unfold slot_list. rewrite sort_by_perm. apply elem_of_map_to_list. Qed.

Lemma slot_list_nodup m : NoDup (map fst (slot_list m)).
Proof. unfold slot_list. rewrite sort_by_perm. apply NoDup_fst_map_to_list. Qed.

Lemma nodup_map_filter {A B} (g : A → B) (f : A → bool) l : NoDup (map g l) → NoDup (map g (List.filter f l)).
Proof.
  induction l as [|x l IH]; simpl; [done|]. intros [Hx Hl]%NoDup_cons. case_match; [|auto]. simpl. constructor; [|auto].
  intros (y & Hy & Hin)%list_elem_of_fmap. apply list_elem_of_In, filter_In in Hin as [Hin _]. apply Hx. rewrite Hy.
  by apply list_elem_of_fmap_2, list_elem_of_In.
Qed.

Lemma rebind_count pool d dep from to s : count pool d (slots (rebind dep from to s)) <= count pool d (slots s).
Proof.
  unfold rebind. simpl. apply rebind_fold_count; [apply nodup_map_filter, slot_list_nodup|]. apply Forall_forall.
  intros [k x] Hin. apply list_elem_of_In, filter_In in Hin as [Hin Hf]. rewrite <-list_elem_of_In, elem_of_slot_list in Hin.
  apply andb_true_iff in Hf as [_ Hf%String.eqb_eq]. done.
Qed.

(** ** The invariant of a pool *)

(** The declaration holds [u32] counts and passed [validate]. *)
Definition declared (p : CapacityPool) : bool :=
  is_ok (pool_validate p) && (0 <=? reserve_inbound p) && (0 <=? reserve_outbound p) && (0 <=? pool_slots p) && (pool_slots p <=? u32_max).

(** Neither side can have taken what is kept for the other. *)
Definition fits (p : CapacityPool) (i o : Z) : Prop :=
  0 <= i ∧ 0 <= o ∧ i + Z.max o (reserve_outbound p) <= pool_slots p ∧ o + Z.max i (reserve_inbound p) <= pool_slots p.

Lemma declared_reserves p : declared p = true →
  0 <= reserve_inbound p ∧ 0 <= reserve_outbound p ∧ reserve_inbound p + reserve_outbound p <= pool_slots p.
Proof.
  unfold declared, pool_validate. rewrite !andb_true_iff. intros [[[[Hv Hi] Ho] Hs] _]. repeat split; [lia..|].
  repeat case_match; try done. lia.
Qed.

Lemma fits_start p : declared p = true → fits p 0 0.
Proof. intros Hd%declared_reserves. unfold fits. lia. Qed.

Lemma fits_less p i o i' o' : fits p i o → 0 <= i' <= i → 0 <= o' <= o → fits p i' o'.
Proof. unfold fits. lia. Qed.

Lemma fits_admitted p d i o : fits p i o → admits p d i o = true →
  fits p (i + match d with Inbound => 1 | Outbound => 0 end) (o + match d with Inbound => 0 | Outbound => 1 end).
Proof. unfold fits, admits, saturating_sub. destruct d; lia. Qed.

(** A side below its own reserve is admitted. *)
Lemma fits_reserve p d i o : declared p = true → fits p i o →
  match d with Inbound => i < reserve_inbound p | Outbound => o < reserve_outbound p end → admits p d i o = true.
Proof. intros Hd%declared_reserves. unfold fits, admits, saturating_sub. destruct d; lia. Qed.

(** ** Operations in sequence *)

Inductive PoolOp : Type :=
| OpAcquire (r : SlotRequest)
| OpRebind (dep from to : string)
| OpRelease (dep holder : string)
| OpReleaseEnded (dep holder : string)
| OpEndSession (dep holder : string) (call : option string)
| OpReleaseCalls (dep holder : string) (selector : CallSelector)
| OpReleaseCallIfEnded (dep holder call : string).

Definition pool_step {S} `{CapacityPoolStore S} (s : S) (o : PoolOp) : S :=
  match o with
  | OpAcquire r => (cps_acquire r s).2
  | OpRebind dep from to => cps_rebind dep from to s
  | OpRelease dep holder => (cps_release dep holder s).2
  | OpReleaseEnded dep holder => (cps_release_ended dep holder s).2
  | OpEndSession dep holder call => (cps_end_session dep holder call s).2
  | OpReleaseCalls dep holder selector => (cps_release_calls dep holder selector s).2
  | OpReleaseCallIfEnded dep holder call => (cps_release_call_if_ended dep holder call s).2
  end.

Definition pool_run {S} `{CapacityPoolStore S} (ops : list PoolOp) (s : S) : S := fold_left pool_step ops s.

Definition in_bounds (s : InMemoryCapacityPools) : Prop :=
  ∀ name p, pools s !! name = Some p → declared p = true → fits p (count name Inbound (slots s)) (count name Outbound (slots s)).

Lemma in_bounds_less s s' : pools s' = pools s → (∀ pool d, count pool d (slots s') <= count pool d (slots s)) → in_bounds s → in_bounds s'.
Proof.
  intros Hp Hc Hb name p Hn Hd. rewrite Hp in Hn. eapply fits_less; [by apply Hb| |]; split; auto using count_nonneg.
Qed.

Lemma release_where_less dep holder f s pool d : count pool d (slots (release_where dep holder f s).2) <= count pool d (slots s).
Proof. apply count_mono. simpl. apply map_filter_subseteq. Qed.

Lemma acquire_in_bounds r s : in_bounds s → in_bounds (acquire r s).2.
Proof.
  intros Hb. unfold acquire. destruct (pools s !! req_pool r) as [p|] eqn:Hp; [|done]. case_match; [done|].
  destruct (slots s !! _) as [x|] eqn:Hk; [done|]. cbn [is_some]. rewrite usage_count. case_match eqn:Ha; [done|].
  apply negb_false_iff in Ha. intros name q Hq Hd. simpl in *. rewrite !count_insert by done.
  specialize (Hb _ _ Hq Hd). unfold side_of, on_side. cbn [key_pool fst snd].
  destruct (String.eqb_spec (req_pool r) name) as [<-|Hne]; simpl; [|exact Hb].
  rewrite Hp in Hq. injection Hq as ->. apply (fits_admitted _ _ _ _ Hb) in Ha. destruct (req_direction r); simpl in *;
    (eapply fits_less; [exact Ha|..]); pose proof (count_nonneg (req_pool r) Inbound (slots s));
    pose proof (count_nonneg (req_pool r) Outbound (slots s)); lia.
Qed.

Lemma pool_step_in_bounds s o : in_bounds s → in_bounds (pool_step s o).
Proof.
  intros Hb. destruct o; simpl.
  - pose proof (acquire_in_bounds r s Hb). by destruct (acquire r s).
  - apply (in_bounds_less s); [done| |done]. intros. apply rebind_count.
  - apply (in_bounds_less s); [done| |done]. intros. apply (release_where_less dep holder (λ _ _, true)).
  - apply (in_bounds_less s); [done| |done]. intros. unfold release_ended, release. simpl. apply count_mono, map_filter_subseteq.
  - apply (in_bounds_less s); [by destruct call| |done]. intros. destruct call; simpl; apply count_mono, map_filter_subseteq.
  - apply (in_bounds_less s); [done| |done]. intros. apply (release_where_less dep holder (selector_matches selector)).
  - unfold release_call_if_ended. case_match; [done|]. apply (in_bounds_less s); [done| |done].
    intros. apply (release_where_less dep holder (selector_matches (SelectCall call))).
Qed.

Lemma pool_step_pools (s : InMemoryCapacityPools) o : pools (pool_step s o) = pools s.
Proof.
  destruct o; simpl; try done.
  - unfold acquire. repeat case_match; simplify_eq; done.
  - by destruct call.
  - unfold release_call_if_ended. by case_match.
Qed.

Lemma pools_new_in_bounds ps : in_bounds (pools_new ps).
Proof. intros name p _ Hd. simpl. rewrite !count_empty. by apply fits_start. Qed.

Lemma pool_run_in_bounds ops (s : InMemoryCapacityPools) : in_bounds s → in_bounds (pool_run ops s).
Proof. unfold pool_run. revert s. induction ops as [|o ops IH]; intros s Hb; simpl; [done|]. by apply IH, pool_step_in_bounds. Qed.

(** ** Properties *)

(** C99: whatever acquisitions, rebinds, releases and session ends are made in whatever
    order, a declared pool never has more slots out than it has, and neither direction
    ever holds a slot that is reserved for the other. *)
Theorem capacity_kept (ps : list CapacityPool) (ops : list PoolOp) (name : string) (p : CapacityPool) :
  pools (pool_run ops (pools_new ps)) !! name = Some p → declared p = true →
  let '(i, o) := usage name (pool_run ops (pools_new ps)) in
  0 <= i ∧ 0 <= o ∧ i + o <= pool_slots p ∧ i + reserve_outbound p <= pool_slots p ∧ o + reserve_inbound p <= pool_slots p.
Proof.
  intros Hp Hd. unfold usage. rewrite usage_count.
  destruct (pool_run_in_bounds ops _ (pools_new_in_bounds ps) _ _ Hp Hd) as (H1 & H2 & H3 & H4). lia.
Qed.

(** C99: a reserved slot is there when it is asked for.  After any sequence of
    operations, a request in a direction that holds fewer slots than its reserve is
    answered [Acquired] (or [AlreadyHeld], or [SessionEnded] for an outbound call that
    was ended), never [Exhausted], and the slot is then counted. *)
Theorem reserve_available (ps : list CapacityPool) (ops : list PoolOp) (r : SlotRequest) (p : CapacityPool) :
  let s := pool_run ops (pools_new ps) in
  pools s !! req_pool r = Some p → declared p = true →
  (match req_direction r with
   | Inbound => (usage (req_pool r) s).1 < reserve_inbound p
   | Outbound => (usage (req_pool r) s).2 < reserve_outbound p
   end) →
  is_some (slots s !! (req_deployment r, req_holder r, req_pool r, req_call r)) = false →
  (req_direction r = Outbound → session_ended (req_deployment r) (req_holder r) (req_call r) s = false) →
  (acquire r s).1 = Acquired ∧
  usage (req_pool r) (acquire r s).2 =
    ((usage (req_pool r) s).1 + (if decide (req_direction r = Inbound) then 1 else 0),
     (usage (req_pool r) s).2 + (if decide (req_direction r = Outbound) then 1 else 0)).
Proof.
  intros s Hp Hd Hr Hk Hs. pose proof (pool_run_in_bounds ops _ (pools_new_in_bounds ps) _ _ Hp Hd) as Hf. fold s in Hf.
  unfold usage in *. rewrite !usage_count in Hr |- *. cbn [fst snd] in Hr |- *. unfold acquire. rewrite Hp.
  replace (bool_decide (req_direction r = Outbound) && _) with false
    by (destruct (req_direction r); simpl; [done|symmetry; by apply Hs]).
  rewrite Hk, usage_count. rewrite (fits_reserve p (req_direction r) _ _ Hd Hf) by (by destruct (req_direction r)). simpl.
  split; [done|]. destruct (slots s !! _) eqn:E; [done|]. rewrite !count_insert by done.
  unfold side_of, on_side. cbn [key_pool fst snd]. rewrite String.eqb_refl. by destruct (req_direction r); simpl; f_equal; lia.
Qed.

(** The store in memory remembers which instances finished, and yet a request that
    asks for a live holder is never refused for it. *)
Lemma finished_holder_not_refused r s : (acquire r s).1 ≠ InstanceEnded.
Proof. unfold acquire. by repeat case_match; simplify_eq/=. Qed.

(** ** Witnesses *)

Definition trunk : CapacityPool := with_reserves 1 1 (pool_new "trunk-main" 3).

Definition request (holder call : string) (d : SlotDirection) : SlotRequest :=
  mk_request "trunk-main" "dep-1" "acme" holder call d false.

(** Two outbound calls leave the reserved inbound slot; one is rebound onto another. *)
Definition busy : list PoolOp :=
  [OpAcquire (request "i-1" "c-1" Outbound); OpAcquire (request "i-1" "c-2" Outbound); OpAcquire (request "i-2" "c-3" Outbound);
   OpAcquire (request "a-1" "c-1" Outbound); OpRebind "dep-1" "a-1" "i-1"].

Lemma busy_trunk : usage "trunk-main" (pool_run busy (pools_new [trunk])) = (0, 2).
Proof. vm_compute. reflexivity. Qed.

Lemma capacity_kept_witness :
  let '(i, o) := usage "trunk-main" (pool_run busy (pools_new [trunk])) in
  0 <= i ∧ 0 <= o ∧ i + o <= 3 ∧ i + 1 <= 3 ∧ o + 1 <= 3.
Proof. exact (capacity_kept [trunk] busy "trunk-main" trunk ltac:(vm_compute; reflexivity) ltac:(vm_compute; reflexivity)). Defined.

Lemma reserve_available_witness : (acquire (request "i-9" "c-9" Inbound) (pool_run busy (pools_new [trunk]))).1 = Acquired.
Proof.
  refine (proj1 (reserve_available [trunk] busy (request "i-9" "c-9" Inbound) trunk _ _ _ _ _)).
  - vm_compute. reflexivity.
  - vm_compute. reflexivity.
  - vm_compute. reflexivity.
  - vm_compute. reflexivity.
  - intros E. discriminate E.
Defined.
