(* ===== verification/CapacityTable.v ===== *)
(** * Capacity pools in the database

    [sutra-persistence/src/stores/capacity.rs] and the adapter [PersistedCapacityPools]
    of [sutra-engine/src/capacity.rs].  [capacity_pool] holds the counters of a pool and
    is the lock of every acquisition; [capacity_slot] holds one row per slot;
    [capacity_session_end] the ended sessions.  A transaction is a function on the
    tables; an acquisition is two, since its checks run before it takes the pool's row
    lock: between [precheck] and [acquire_locked] other replicas may commit.
    [counters_count_slots] and [replicas_keep_capacity] hold for every interleaving;
    [persisted_answers_as_memory] relates the two stores; [ended_session_takes_slot] and
    [sweep_takes_other_hosts_slot] are what the interleavings and the host pattern let
    through. *)
From Stdlib Require Import ZArith Lia Bool Ascii String.
From stdpp Require Import base option strings gmap list.
From S2P Require Import Prelude Texts Stores Steps Capacity.

Open Scope string_scope.
Open Scope list_scope.
Open Scope Z_scope.

Module Pg.

Definition SLOT_INBOUND : string := "INBOUND".
Definition SLOT_OUTBOUND : string := "OUTBOUND".

Inductive SlotSelection : Type := SelCall (key : string) | SelDirection (direction : string).

Inductive SlotGrant : Type :=
| GAcquired
| GAlreadyHeld
| GExhausted (inbound_used outbound_used : Z)
| GInstanceEnded
| GSessionEnded.

Record SlotClaim : Type := mk_claim {
  cl_deployment : string; cl_pool : string; cl_tenant : string; cl_instance : string; cl_call_key : string;
  cl_direction : string; cl_holder : string; cl_require_live : bool }.

(** A row of [capacity_slot]; its key is deployment, instance, pool and call key. *)
Record SlotRow : Type := mk_slot { sr_tenant : string; sr_direction : string; sr_holder : string; sr_acquired_at : Z }.

Record Tables : Type := mk_tables {
  capacity_pool : gmap string (Z * Z);
  capacity_slot : gmap SlotKey SlotRow;
  capacity_session_end : gmap (string * string * string) Z }.

Definition set_pools (m : gmap string (Z * Z)) (t : Tables) : Tables := mk_tables m (capacity_slot t) (capacity_session_end t).
Definition set_slots (m : gmap SlotKey SlotRow) (t : Tables) : Tables := mk_tables (capacity_pool t) m (capacity_session_end t).
Definition set_ends (m : gmap (string * string * string) Z) (t : Tables) : Tables := mk_tables (capacity_pool t) (capacity_slot t) m.

(** ** Statements *)

Definition session_ended_in (dep inst call : string) (t : Tables) : bool :=
  is_some (capacity_session_end t !! (dep, inst, "")) || is_some (capacity_session_end t !! (dep, inst, call)).

(** [SQL_INSTANCE_ENDED]: [None] without a row. *)
Definition instance_ended (dep inst : string) (d : Db) : option bool :=
  (λ r, is_some (Instance.terminal_at r)) <$> db_instance d !! (dep, inst).

(** [SQL_INSTANCE_OVER]. *)
Definition instance_over (dep inst : string) (d : Db) : bool :=
  match instance_ended dep inst d with
  | Some e => e
  | None => negb (bool_decide ((dep, inst) ∈ db_inflight d))
  end.

Definition counters (pool : string) (t : Tables) : Z * Z := default (0, 0) (capacity_pool t !! pool).

(** [UPDATE capacity_pool]; an [INTEGER] column out of range is an error. *)
Definition increment (direction pool : string) (t : Tables) : result PersistenceError Tables :=
  match capacity_pool t !! pool with
  | None => Ok t
  | Some (i, o) =>
      let '(i, o) := if String.eqb direction SLOT_INBOUND then (i + 1, o) else (i, o + 1) in
      if (i32_max <? i) || (i32_max <? o) then Err (Database "capacity increment")
      else Ok (set_pools (<[pool := (i, o)]> (capacity_pool t)) t)
  end.

Definition decrement (e : string * string) (t : Tables) : Tables :=
  match capacity_pool t !! e.1 with
  | None => t
  | Some (i, o) =>
      set_pools (<[e.1 := if String.eqb e.2 SLOT_OUTBOUND then (i, Z.max (o - 1) 0) else (Z.max (i - 1) 0, o)]> (capacity_pool t)) t
  end.

(** ** Operations *)

(** The checks of [acquire] before the lock: an answer, or on to the lock. *)
Definition precheck (c : SlotClaim) (d : Db) (t : Tables) : result PersistenceError (option SlotGrant) :=
  if negb (String.eqb (cl_direction c) SLOT_INBOUND || String.eqb (cl_direction c) SLOT_OUTBOUND) then
    Err (InvalidArgument ("capacity slot direction '" +:+ cl_direction c +:+ "' is not " +:+ SLOT_INBOUND +:+ " or " +:+ SLOT_OUTBOUND))
  else if String.eqb (cl_direction c) SLOT_OUTBOUND && session_ended_in (cl_deployment c) (cl_instance c) (cl_call_key c) t then
    Ok (Some GSessionEnded)
  else if cl_require_live c && match instance_ended (cl_deployment c) (cl_instance c) d with Some e => e | None => false end then
    Ok (Some GInstanceEnded)
  else Ok None.

(** [SQL_ENSURE_POOL]. *)
Definition ensure_pool (pool : string) (t : Tables) : Tables :=
  match capacity_pool t !! pool with Some _ => t | None => set_pools (<[pool := (0, 0)]> (capacity_pool t)) t end.

(** The rest of [acquire], under the row lock of the pool. *)
Definition acquire_locked (allows : Z → Z → bool) (now : Z) (c : SlotClaim) (t : Tables) : result PersistenceError (SlotGrant * Tables) :=
  let t := ensure_pool (cl_pool c) t in
  let '(inbound_used, outbound_used) := counters (cl_pool c) t in
  let key := (cl_deployment c, cl_instance c, cl_pool c, cl_call_key c) in
  if is_some (capacity_slot t !! key) then Ok (GAlreadyHeld, t)
  else if negb (allows inbound_used outbound_used) then Ok (GExhausted inbound_used outbound_used, t)
  else
    let t := set_slots (<[key := mk_slot (cl_tenant c) (cl_direction c) (cl_holder c) now]> (capacity_slot t)) t in
    t ← increment (cl_direction c) (cl_pool c) t;
    Ok (GAcquired, t).

(** [acquire] with nothing in between. *)
Definition acquire (allows : Z → Z → bool) (now : Z) (c : SlotClaim) (d : Db) (t : Tables) : result PersistenceError (SlotGrant * Tables) :=
  checked ← precheck c d t;
  match checked with
  | Some g => Ok (g, t)
  | None => acquire_locked allows now c t
  end.

Definition of_holder (dep inst : string) (k : SlotKey) : bool := String.eqb (key_deployment k) dep && String.eqb (key_holder k) inst.

Definition rekey (to : string) (k : SlotKey) : SlotKey := (key_deployment k, to, key_pool k, key_call k).

Definition rebind_row (to : string) (m : gmap SlotKey SlotRow) (e : SlotKey * SlotRow) : gmap SlotKey SlotRow :=
  <[rekey to e.1 := e.2]> (delete e.1 m).

(** [SQL_REBIND]: a row that is there already under the new key fails the statement. *)
Definition rebind (dep from to : string) (t : Tables) : result PersistenceError Tables :=
  let moved := List.filter (λ e, of_holder dep from e.1) (map_to_list (capacity_slot t)) in
  if String.eqb from to then Ok t
  else if existsb (λ e, is_some (capacity_slot t !! rekey to e.1)) moved then Err (Database "capacity rebind")
  else Ok (set_slots (fold_left (rebind_row to) moved (capacity_slot t)) t).

Definition selected (selection : option SlotSelection) (call direction : string) : bool :=
  match selection with
  | None => true
  | Some (SelCall key) => String.eqb call key
  | Some (SelDirection d) => String.eqb direction d
  end.

Definition freed_row (dep inst : string) (selection : option SlotSelection) (e : SlotKey * SlotRow) : bool :=
  of_holder dep inst e.1 && selected selection (key_call e.1) (sr_direction e.2).

(** The order of [Vec<(String, String)>]. *)
Definition pair_leb (a b : string * string) : bool :=
  match String.compare a.1 b.1 with Lt => true | Gt => false | Eq => str_leb a.2 b.2 end.

(** The [DELETE ... RETURNING] and the decrements of one transaction. *)
Definition release_selected (dep inst : string) (selection : option SlotSelection) (t : Tables) : list string * Tables :=
  let rows := List.filter (freed_row dep inst selection) (map_to_list (capacity_slot t)) in
  let freed := sort_by pair_leb (map (λ e, (key_pool e.1, sr_direction e.2)) rows) in
  let t := set_slots (filter (λ e, freed_row dep inst selection e = false) (capacity_slot t)) t in
  (map snd freed, fold_left (λ t e, decrement e t) freed t).

Definition release (dep inst : string) (t : Tables) : Z * Tables :=
  let '(freed, t) := release_selected dep inst None t in (Z.of_nat (length freed), t).

Definition end_session (now : Z) (dep inst : string) (call : option string) (t : Tables) : list string * Tables :=
  let key := (dep, inst, default "" call) in
  let t := match capacity_session_end t !! key with
           | Some _ => t
           | None => set_ends (<[key := now]> (capacity_session_end t)) t
           end in
  release_selected dep inst (SelCall <$> call) t.

Definition session_ended (dep inst call : string) (t : Tables) : bool := session_ended_in dep inst call t.

Definition release_calls (dep inst : string) (selection : SlotSelection) (t : Tables) : list string * Tables :=
  release_selected dep inst (Some selection) t.

Definition release_call_if_over (dep inst call : string) (d : Db) (t : Tables) : Z * Tables :=
  if instance_over dep inst d then
    let '(freed, t) := release_selected dep inst (Some (SelCall call)) t in (Z.of_nat (length freed), t)
  else (0, t).

Definition usage (pool : string) (t : Tables) : Z * Z := counters pool t.

(** ** The sweep *)

(** [LIKE] with PostgreSQL's default escape. *)
Fixpoint like (fuel : nat) (pattern s : string) : bool :=
  match fuel with
  | O => false
  | S fuel =>
      match pattern with
      | "" => str_is_empty s
      | String p rest =>
          if Ascii.eqb p "%" then
            like fuel rest s || match s with "" => false | String _ s' => like fuel pattern s' end
          else if Ascii.eqb p "_" then match s with "" => false | String _ s' => like fuel rest s' end
          else if Ascii.eqb p "\" then
            match rest, s with
            | String q rest, String c s' => Ascii.eqb q c && like fuel rest s'
            | _, _ => false
            end
          else match s with "" => false | String c s' => Ascii.eqb p c && like fuel rest s' end
      end
  end.

Definition sql_like (pattern s : string) : bool := like (S (String.length pattern + String.length s)) pattern s.

(** [replace] of one character. *)
Fixpoint replace_char (c : ascii) (by_ : string) (s : string) : string :=
  match s with
  | "" => ""
  | String d s => if Ascii.eqb c d then by_ +:+ replace_char c by_ s else String d (replace_char c by_ s)
  end.

Definition escape_like (raw : string) : string :=
  replace_char "_" "\_" (replace_char "%" "\%" (replace_char "\" "\\" raw)).

(** [SQL_STRANDED]. *)
Definition stranded_row (dep pattern current_holder : string) (cutoff : Z) (d : Db) (e : SlotKey * SlotRow) : bool :=
  String.eqb (key_deployment e.1) dep &&
  match db_instance d !! (dep, key_holder e.1) with
  | Some r => is_some (Instance.terminal_at r)
  | None =>
      negb (bool_decide ((dep, key_holder e.1) ∈ db_inflight d))
      && ((sql_like pattern (sr_holder e.2) && negb (String.eqb (sr_holder e.2) current_holder)) || (sr_acquired_at e.2 <? cutoff))
  end.

Definition stranded (dep host current_holder : string) (cutoff : Z) (d : Db) (t : Tables) : list string :=
  dedup (map (λ e, key_holder e.1)
    (List.filter (stranded_row dep (escape_like host +:+ "-%") current_holder cutoff d) (map_to_list (capacity_slot t)))).

(** [SQL_FORGET_SESSION_ENDS]. *)
Definition forget_session_ends (dep : string) (cutoff : Z) (d : Db) (t : Tables) : Tables :=
  let kept (e : string * string * string * Z) : Prop :=
    (String.eqb e.1.1.1 dep && (e.2 <? cutoff)
     && negb (match db_instance d !! (dep, e.1.1.2) with Some r => negb (is_some (Instance.terminal_at r)) | None => false end)
     && negb (bool_decide ((dep, e.1.1.2) ∈ db_inflight d))) = false in
  set_ends (filter kept (capacity_session_end t)) t.

Definition release_all (dep : string) (insts : list string) (t : Tables) : Z * Tables :=
  fold_left (λ acc inst, let '(n, t) := release dep inst acc.2 in (acc.1 + n, t)) insts (0, t).

Definition sweep (now : Z) (dep host current_holder : string) (max_age : Z) (d : Db) (t : Tables) : Z * Tables :=
  let cutoff := now - max_age in
  let '(released, t) := release_all dep (stranded dep host current_holder cutoff d t) t in
  (released, forget_session_ends dep cutoff d t).
End Pg.
